(* ===== verification/_CoqProject ===== *)
-Q . S2P
Prelude.v
Types.v
OffsetCoordinator.v
Dispatcher.v
Retry.v
Worker.v
Machine.v
Winding.v
Shutdown.v
Ownership.v
Duties.v
Interleaving.v
Progress.v
Reporting.v
Degraded.v
PollLoop.v
Strconv.v
KafkaAdapter.v
Linking.v
System.v
Delivery.v
Committing.v
DLQ.v
Consumer.v
Setup.v
Assembly.v
TestSupport.v
Examples.v
