(* ===== verification/Prelude.v ===== *)
(** * go-kafka-consumer: a verification library

    The program is a Kafka consumer library.  One goroutine, the poll loop,
    fetches messages and hands them, partition by partition, to a dispatcher;
    the dispatcher cuts them into batches and queues these for a pool of
    worker goroutines, which run the developer's [BatchProcessor] behind a
    circuit breaker, retry it, route what fails to a dead letter queue (DLQ)
    and report the batch complete to an offset coordinator; on every commit
    tick, revocation and shutdown the poll loop commits what the coordinator
    calls committable.  This library models those parts from the Go source
    and proves what each promises to the others.

    ** How code is modelled

    A Go routine is a [prog]: a tree of atomic actions on the shared state
    ([Act]), questions to the environment ([Ask]), panics ([Throw]) and a
    result ([Ret]), with [let*] for sequencing. An atomic action is a critical
    section of the routine's mutex, one channel operation, one call of the
    (internally locked) offset coordinator, or one metric update. A question
    is whatever the code does not decide: the third-party client and circuit
    breaker, the developer's processor, the clock, the random jitter, a
    context's cancellation, the order of ranging over a map. [exec h] runs a
    program alone against a handler [h] of its questions, [traced h] also
    records them, [wp] quantifies over every answer; [Machine.sched] runs
    many programs one action at a time. Theorems that quantify over [h] hold
    for every environment.

    Machine integers are [Z] with the wrap-around written out where the code
    can overflow ([wrap64], [uint32]); partitions, offsets and counts that the
    code never computes on are plain [Z].  A [float64] is a [spec_float].
    Maps are stdpp's [gmap]; ranging over one asks the environment for an
    order.  Counters and gauges are integers by label (their conversion to
    [float64] is exact below 2^53), histograms are lists of observations.
    The library's log lines are left out.

    ** The files

    - [Prelude]: machine integers, [prog], [exec], [traced] and [wp] with
      their laws, reachability, metrics vectors, lemmas on lists and lengths,
      the hint databases and tactics.
    - [Types]: messages, the error tree with [errors.Is]/[errors.As], circuit
      states ([internal/types], [internal/circuit]).
    - [OffsetCoordinator]: the coordinator's interface as the class
      [CoordinatorOps]/[Coordinator], with the contract of
      [internal/offset/coordinator.go] as laws over an abstract slot per
      partition (absent, in flight, completed), and the implementation of
      [coordinator_impl.go] as its instance.  The dispatcher's theorems use
      the interface only.
    - [Dispatcher]: [internal/dispatcher/unordered.go] without its workers:
      [Send], batch assembly, linger timers, dispatch and backpressure,
      [onBatchDone], rebalance callbacks, [Close].
    - [Retry]: [internal/dispatcher/retry.go], each [float64] operation with
      its rounding.
    - [Worker]: [processBatch] with its attempt loop and
      [holdUntilCircuitCloses], DLQ routing, metrics, completion, the worker
      loop and its recovery, and the two callbacks given to the breaker.
    - [Machine]: the poll goroutine, the workers and the fired timers as
      threads over the shared state, a scheduler's choices, and the log of a
      run (sends, what revocations discard, verdicts).
    - [Winding]: the budget of a run: what every action of every thread uses
      up, and well-founded descent from it.
    - [Shutdown]: the machine's termination once it is closed and cancelled.
    - [Ownership]: the discipline of who holds a partition's in-flight flag
      and its batch, kept by every atomic action of every routine.
    - [Duties]: who owes a partition with buffered messages its next attempt
      (a timer, a worker, a retry list), kept likewise.
    - [Interleaving]: the invariant of the machine and its consequences.
    - [Progress]: the machine once sending stops and the breaker lets requests
      through: it comes to rest, with nothing unattended.
    - [Reporting]: what the coordinator still remembers at rest, and progress
      from sending to a committable offset.
    - [Degraded]: [internal/pollloop/degraded.go] (the bit mask and its
      compare-and-swap loops) and [health.go].
    - [PollLoop]: [internal/pollloop/pollloop.go] over the interfaces it
      programs against (Kafka, dispatcher, coordinator).
    - [Strconv]: the standard library's decimal printing and parsing.
    - [KafkaAdapter]: [internal/kafka/adapter.go] over the client, and the
      lag gauge of [internal/metrics/lag.go].
    - [Linking]: the loop linked to the adapter: the interpretation of the
      loop's questions about Kafka by the adapter's methods, and of the
      client's rebalance callbacks, in the middle of a [Poll], by the loop's;
      what each piece is obliged to ask and may learn.
    - [System]: the machine of [Machine] with that linked loop as its poll
      goroutine, action by action: the [select] of [PollLoop.Run], its turns,
      its calls of the dispatcher, the client's answers.
    - [Delivery]: the position of the client in that system: from an offset
      that is delivered, through the grouping of a poll, to one committed.
    - [Committing]: a commit tick of that system run to its end, and a
      consumer left alone until it commits all it was delivered.
    - [DLQ]: [Produce] and the headers of [internal/kafka/dlq.go].
    - [Consumer]: the public package: validation, security settings, the
      client's configuration map ([internal/kafka/config.go]), the mapping to
      the components' configurations, the Kubernetes check ([k8s.go]) and the
      probes ([internal/server]).
    - [Setup]: the functional options of every package, the registration of
      the metrics ([internal/metrics]), and the constructors: dispatcher and
      breaker settings, poll loop, adapter, DLQ producer, health server.
    - [Assembly]: [consumer.New] and [Consumer.Run]: creation, wiring and
      release of the components, the run of the poll loop's code between them
      (its events and the answers to its questions are the environment's), and
      what [Run] runs the loop on.
    - [TestSupport]: the test cluster and its helpers ([internal/kafkatest])
      and the benchmark helpers ([internal/benchutil]).
    - [Examples]: the configurations, processors and [main] functions of the
      programs of [examples], over [Assembly].

    ** What the theorems show

    - Offsets: the coordinator implements its slot machine; an offset is
      committable only after its batch completed; a reset forgets
      ([coordinator_refines_slots], [committable_only_after_complete],
      [reset_forgets]).
    - Dispatch: [Send] on every branch, without losing, duplicating or
      reordering messages, with backpressure exactly when the channel is full
      ([Send_spec], [Send_conserves], [Send_backpressure]); nobody starves
      after a completion ([onBatchDone_progress]).
    - The whole system, in every interleaving of the poll goroutine (loop,
      adapter and callbacks), the workers and the timers, with any answers
      and failures: an offset is committed to Kafka only after all that was
      sent before it, and not discarded by a revocation, was processed or
      given up, if the channel has room for one batch of each partition in use
      ([committed_is_settled]; from an accepted configuration and the
      assembly, [consumer_at_least_once]); with that room and outside degraded
      mode, for a partition neither paused nor revoked, every message the
      client delivered below a committed offset was
      ([delivered_below_commit_is_settled]); and, left alone with a breaker
      that lets requests through, the system comes to rest and its next commit
      tick asks for the offset after the last message delivered
      ([everything_delivered_is_committed]).  Whatever the channel's capacity,
      the poll goroutine never panics ([poll_goroutine_never_panics]) and
      batches do not mix partitions ([batches_hold_one_partition]); readiness
      follows degraded mode and the partitions-assigned flag
      ([readiness_in_the_system]); the loop over the adapter is the loop
      over its interfaces ([link_refines]).
    - Concurrency in the dispatcher: the same up to what is committable
      ([committable_is_settled]; [capacity_is_needed] is a run without the
      room); conservation and order of a partition's messages, revocations
      included ([settled_in_order]); one batch per partition at a time
      ([one_batch_per_partition]); no panic but the processor's and the race
      with [Close] ([interleaving_panics], [close_races_with_dispatch]);
      shutting down terminates ([shutdown_terminates]); once sending stops
      and the breaker lets requests through, every run ends, and then all that
      was sent and not discarded is settled and committable
      ([everything_sent_is_settled]).
    - Retries: the fate of a batch is that of a one-pass reference; the retry
      budget, the delays, the settling of each verdict
      ([decision_refines_judge], [retries_exhausted_after_max],
      [success_within_budget], [backoff_bounds], [base_delay_doubles],
      [settle_completes], [OnStateChange_spec], [ReadyToTrip_gate]).
    - Poll loop: readiness follows degraded mode and assignment, failures are
      counted, messages are grouped, dispatched and paused, revocation and
      shutdown commit in order ([Run_health], [commit_failures_degrade],
      [poll_dispatches], [groupByPartition_spec], [OnPartitionsRevoked_spec],
      [shutdown_order], [onDispatcherReady_resumes], [circuit_transitions],
      [assignments_counted], [cas_loop_linearizes]).
    - Kafka and DLQ: polls lose nothing and keep the order, commits are made
      as asked, a batch reported dead-lettered is in the topic and can be
      traced back ([Poll_collects], [CommitOffsets_request],
      [Update_lookup], [Produce_success], [dlq_source_roundtrip]).
    - Consumer: what is accepted ([New_accepts],
      [SecurityConfig_Validate_iff], [BuildConsumerConfig_guarantees],
      [NewDLQProducer_durable], [grace_period_warning]); that [Run], with the
      code of the poll loop inside it, releases everything acquired and panics
      on nothing but a metric the registry refuses ([Run_releases],
      [second_run_panics]); the health server's answers ([ServeHTTP_spec]).
    - Test support and examples: the helpers close what they open, but for a
      container whose startup fails ([helpers_release], [Start_leaks]),
      waiting for the broker ends ([waitReady_returns]), a produced count is
      of delivered messages ([Produce_counts]); every run of an example is as
      it is configured ([examples_run_as_configured]), and a bad message dead-letters its whole
      batch in the DLQ example ([dlq_processor_verdict]).
    - Flaws the model exhibits, each with its theorem: a refused dispatch is
      committable ([backpressure_commits_unprocessed]); a failed
      dead-lettering commits ([failed_dlq_is_committed]); a shutdown that
      interrupts the last attempt of a batch commits it
      ([interrupted_last_attempt_is_committed], and a run of the whole system,
      [shutdown_loses]); an error borrowed from another
      breaker is retried without end ([borrowed_breaker_error_never_settles]);
      a batch is given up with the circuit half-open, and the loop does not
      resume for it ([retries_exhausted_after_max], [circuit_transitions]);
      a revocation in the middle of a poll loses a message
      ([revocation_mid_poll_overtakes]); the race with
      [Close]; degraded polls discard, and the message is lost
      ([degraded_poll_discards], [degraded_poll_loses]); degraded mode
      can end paused ([exit_may_leave_paused]); an empty assignment is ready
      ([empty_assignment_is_ready]); topics of the same partition number are
      confused ([topic_ambiguous]); a NaN threshold is accepted
      ([nan_threshold_accepted]); OAUTHBEARER is accepted without a token
      ([SecurityConfig_Validate_iff]); the delay exceeds its cap
      ([backoff_exceeds_cap]); the gauge's encoding
      ([breaker_gauge_encoding]); a grace period overflows
      ([grace_period_overflows]); the metrics option has no default
      ([metrics_required]).

    ** Fuel and bounds

    The worker's loops do not terminate while the circuit stays open, so
    [decide_batch] takes fuel, one unit per iteration, and returns [None] when
    it runs out; the theorems give the fuel that suffices as a function of
    the number of answers.  [Machine] runs the loops without fuel, and
    [Shutdown] and [Progress] bound them by the budget of [Winding]: a rank of
    each thread's control state and a count of what is left to settle.
    [KafkaAdapter.Poll] takes fuel for the events it drains; as many as the
    client has buffered suffice; in [System] each turn of the loop has its own
    fuel, any number, and a turn that runs out stays there.  In [TestSupport]
    the readiness loop takes fuel for its rounds, 61 of which suffice on a
    clock that advances with its sleeps, and [ConsumeAll] for its polls.
    Everything else terminates structurally.

    ** What is not modelled

    Signal handling, sockets and the metrics endpoint; help texts and buckets
    of the metrics; the decoding of the client's statistics (they arrive
    decoded); the callbacks the client may fire while it closes; a processor
    that writes to the batch it is given (every attempt and the dead letter
    queue get the same slice); the quoting
    of non-printable text by [%q] in error messages; the duration of
    timers and tickers (they may fire at any time, but [Shutdown] takes every
    sleep under a cancelled context to be interrupted); the order of Go's memory
    model below a critical section; [encoding/json].  Benchmarks and tests are
    not part of the program.

    ** Next steps

    The liveness of the whole system across a revocation followed by a new
    assignment of the same partition; a bound on the time of a shutdown. *)
From Stdlib Require Export ZArith Lia.
From Stdlib Require Export Strings.Byte Strings.Ascii.
From Stdlib Require Export Floats.SpecFloat.
From stdpp Require Export base tactics option list gmap strings numbers relations pretty.

#[global] Open Scope Z_scope.

(** * Machine integers

    Go's [int] and [int64] are 64 bits wide, [int32] 32 bits; they are [Z]
    here, with the wrap-around of an operation that can overflow written
    out by [wrap64]/[wrap32], and the truncation of a conversion to
    [uint32] by [uint32]. *)

Definition wrap (w x : Z) : Z := (x + 2 ^ (w - 1)) mod 2 ^ w - 2 ^ (w - 1).
Definition wrap32 (x : Z) : Z := wrap 32 x.
Definition wrap64 (x : Z) : Z := wrap 64 x.
Definition uint32 (x : Z) : Z := x mod 2 ^ 32.

Definition max_int64 : Z := 2 ^ 63 - 1.
Definition min_int64 : Z := - 2 ^ 63.
Definition in_int64 (x : Z) : Prop := min_int64 <= x <= max_int64.

(** [float64(n)]: the nearest double, as the IEEE 754 value it is. *)
Definition float64 (n : Z) : spec_float := binary_normalize 53 1024 n 0 false.

(** A [time.Duration] counts nanoseconds. *)
Definition Millisecond : Z := 1000000.
Definition Second : Z := 1000000000.

(** [len] of a Go slice. *)
Definition len {A} (l : list A) : Z := Z.of_nat (length l).

(** * Go panics and outcomes

    A statement either returns a value in a new state or panics. *)

Inductive panic :=
| PanicMsg (msg : string)        (* panic("...") *)
| NilDereference                 (* nil pointer dereference *)
| IndexOutOfRange                (* a slice index or a make with a negative size *)
| SendOnClosedChannel
| CloseOfClosedChannel
| UserPanic (msg : string).      (* a panic raised by the developer's BatchProcessor *)

Inductive outcome (S A : Type) :=
| Returned (a : A) (s : S)
| Panicked (p : panic) (s : S).
Arguments Returned {S A} _ _.
Arguments Panicked {S A} _ _.

(** * Programs

    The code runs in several goroutines which share the state [S] under a
    mutex and channels.  A routine is a [prog]: a tree of atomic actions on
    the shared state ([Act]: a critical section, one channel operation, one
    metric update) and of questions to the environment ([Ask]: what the
    developer's processor, the Kafka client, the circuit breaker or the clock
    answers).  One definition of a routine serves both semantics: [exec] runs
    it alone, [step] runs one atomic action, so that the actions of several
    routines interleave. *)

Inductive prog (E : Type -> Type) (S A : Type) : Type :=
| Ret (a : A)
| Throw (p : panic)
| Act {X : Type} (f : S -> outcome S X) (k : X -> prog E S A)
| Ask {X : Type} (e : E X) (k : X -> prog E S A).
Arguments Ret {E S A} _.
Arguments Throw {E S A} _.
Arguments Act {E S A X} _ _.
Arguments Ask {E S A X} _ _.

Fixpoint bind {E S A B} (c : prog E S A) (f : A -> prog E S B) : prog E S B :=
  match c with
  | Ret a => f a
  | Throw p => Throw p
  | Act g k => Act g (fun x => bind (k x) f)
  | Ask e k => Ask e (fun x => bind (k x) f)
  end.

Definition act {E S X} (f : S -> outcome S X) : prog E S X := Act f Ret.
Definition ask {E S X} (e : E X) : prog E S X := Ask e Ret.

(** A total update and a read of the shared state. *)
Definition modify {E S} (f : S -> S) : prog E S unit := act (fun s => Returned tt (f s)).
Definition gets {E S X} (f : S -> X) : prog E S X := act (fun s => Returned (f s) s).

Declare Scope prog_scope.
Delimit Scope prog_scope with prog.
Notation "'let*' x := c 'in' k" := (bind c (fun x => k))
  (at level 10, x pattern, c at level 200, k at level 200) : prog_scope.
#[global] Open Scope prog_scope.

(** ** Running a routine alone

    [h] answers the questions, with an oracle state of type [O]. *)

Definition handler (E : Type -> Type) (O : Type) := forall X, E X -> O -> X * O.

Fixpoint exec {E S A O} (h : handler E O) (c : prog E S A) (o : O) (s : S)
  : outcome S A * O :=
  match c with
  | Ret a => (Returned a s, o)
  | Throw p => (Panicked p s, o)
  | Act f k => match f s with
               | Returned x s' => exec h (k x) o s'
               | Panicked p s' => (Panicked p s', o)
               end
  | Ask e k => let (x, o') := h _ e o in exec h (k x) o' s
  end.

(** The value and the state of a run that returned. *)
Definition result {S A O} (r : outcome S A * O) : option A :=
  match r.1 with Returned a _ => Some a | Panicked _ _ => None end.
Definition final {S A O} (r : outcome S A * O) : S :=
  match r.1 with Returned _ s => s | Panicked _ s => s end.

(** ** The questions a run asks

    [traced h] answers as [h] does and appends each question, with its
    answer, to a list. *)

Definition exchange (E : Type -> Type) := {X : Type & (E X * X)%type}.
Definition asked {E : Type -> Type} {X} (e : E X) (x : X) : exchange E := existT X (e, x).

Definition traced {E O} (h : handler E O) : handler E (O * list (exchange E)) :=
  fun X e ol => let (x, o') := h X e ol.1 in (x, (o', ol.2 ++ [asked e x])).

Lemma exec_bind {E S A B O} (h : handler E O) (c : prog E S A) (f : A -> prog E S B) o s :
  exec h (bind c f) o s =
  match exec h c o s with
  | (Returned a s', o') => exec h (f a) o' s'
  | (Panicked p s', o') => (Panicked p s', o')
  end.
Proof.
  revert o s. induction c as [a|p|X g k IH|X e k IH]; intros o s; simpl; auto.
  - destruct (g s); auto.
  - destruct (h X e o). auto.
Qed.

Lemma exec_act {E S X A O} (h : handler E O) (f : S -> outcome S X) (k : X -> prog E S A) o s :
  exec h (bind (act f) k) o s =
  match f s with
  | Returned x s' => exec h (k x) o s'
  | Panicked p s' => (Panicked p s', o)
  end.
Proof. reflexivity. Qed.

Lemma exec_ask {E S X A O} (h : handler E O) (e : E X) (k : X -> prog E S A) o s :
  exec h (bind (ask e) k) o s = exec h (k (h X e o).1) (h X e o).2 s.
Proof. simpl. by destruct (h X e o). Qed.

Lemma exec_modify {E S A O} (h : handler E O) (f : S -> S) (k : unit -> prog E S A) o s :
  exec h (bind (modify f) k) o s = exec h (k tt) o (f s).
Proof. reflexivity. Qed.

Lemma exec_gets {E S X A O} (h : handler E O) (f : S -> X) (k : X -> prog E S A) o s :
  exec h (bind (gets f) k) o s = exec h (k (f s)) o s.
Proof. reflexivity. Qed.

(** The exchanges of one kind, in order. *)
Fixpoint collect {A B} (f : A -> option B) (l : list A) : list B :=
  match l with
  | [] => []
  | x :: l => match f x with Some y => y :: collect f l | None => collect f l end
  end.

Lemma collect_app {A B} (f : A -> option B) l1 l2 :
  collect f (l1 ++ l2) = collect f l1 ++ collect f l2.
Proof. induction l1 as [|x l1 IH]; simpl; [done|]. rewrite IH. by destruct (f x). Qed.

(** ** Weakest preconditions

    [wp c Q s l]: from state [s] with trace [l], [c] returns whatever the
    environment answers, and [Q] holds of its result, its final state and the
    trace then.  It computes, so that a goal about a routine unfolds into its
    paths. *)
Fixpoint wp {E S A} (c : prog E S A) (Q : A -> S -> list (exchange E) -> Prop)
    (s : S) (l : list (exchange E)) : Prop :=
  match c with
  | Ret a => Q a s l
  | Throw p => False
  | Act f k => match f s with Returned x s' => wp (k x) Q s' l | Panicked _ _ => False end
  | Ask e k => forall x, wp (k x) Q s (l ++ [asked e x])
  end.

Lemma wp_sound {E S A O} (h : handler E O) (c : prog E S A) Q o s l :
  wp c Q s l ->
  exists a s' o' l', exec (traced h) c (o, l) s = (Returned a s', (o', l')) /\ Q a s' l'.
Proof.
  revert o s l. induction c as [a|p|X f k IH|X e k IH]; intros o s l; simpl.
  - eauto 6.
  - done.
  - destruct (f s); [apply IH|done].
  - intros Hk. unfold traced at 1. simpl. destruct (h X e o) as [x o']. by apply IH.
Qed.

Lemma wp_exec {E S A O} (h : handler E O) (c : prog E S A) Q o s l :
  wp c Q s l -> exists a s' o', exec h c o s = (Returned a s', o') /\ exists l', Q a s' l'.
Proof.
  revert o s l. induction c as [a|p|X f k IH|X e k IH]; intros o s l; simpl.
  - eauto 6.
  - done.
  - destruct (f s); [apply IH|done].
  - intros Hk. destruct (h X e o) as [x o']. by eapply IH.
Qed.

Lemma wp_bind {E S A B} (c : prog E S A) (f : A -> prog E S B) Q s l :
  wp (bind c f) Q s l <-> wp c (fun a s' l' => wp (f a) Q s' l') s l.
Proof.
  revert s l. induction c as [a|p|X g k IH|X e k IH]; intros s l; simpl; try done.
  - destruct (g s); [apply IH|done].
  - split; intros Hk x; by apply IH.
Qed.

Lemma wp_mono {E S A} (c : prog E S A) (Q Q' : A -> S -> list (exchange E) -> Prop) s l :
  (forall a s' l', Q a s' l' -> Q' a s' l') -> wp c Q s l -> wp c Q' s l.
Proof.
  intros HQ. revert s l. induction c as [a|p|X g k IH|X e k IH]; intros s l; simpl; auto.
  destruct (g s); auto.
Qed.

(** Traces only grow. *)
Lemma wp_extends {E S A} (c : prog E S A) Q s l :
  wp c Q s l -> wp c (fun a s' l' => Q a s' l' /\ exists l2, l' = l ++ l2) s l.
Proof.
  assert (Hgen : forall l0 l1 s, wp c Q s (l0 ++ l1) ->
    wp c (fun a s' l' => Q a s' l' /\ exists l2, l' = l0 ++ l2) s (l0 ++ l1)).
  { induction c as [a|p|X f k IH|X e k IH]; intros l0 l1 s0; simpl; eauto.
    - destruct (f s0); eauto.
    - intros Hk x. specialize (Hk x). rewrite <- app_assoc in *. by apply IH. }
  intros Hw. specialize (Hgen l [] s). rewrite app_nil_r in Hgen. auto.
Qed.

(** Equations, for goals that should not unfold further. *)
Lemma wp_modify {E S A} (f : S -> S) (k : unit -> prog E S A) Q s l :
  wp (bind (modify f) k) Q s l = wp (k tt) Q (f s) l.
Proof. reflexivity. Qed.

Lemma wp_gets {E S X A} (f : S -> X) (k : X -> prog E S A) Q s l :
  wp (bind (gets f) k) Q s l = wp (k (f s)) Q s l.
Proof. reflexivity. Qed.

Lemma wp_ask {E S X A} (e : E X) (k : X -> prog E S A) Q s l :
  wp (bind (ask e) k) Q s l = forall x, wp (k x) Q s (l ++ [asked e x]).
Proof. reflexivity. Qed.

Lemma wp_bind_mono {E S A B} (c : prog E S A) (f : A -> prog E S B) R Q s l :
  wp c R s l -> (forall a s' l', R a s' l' -> wp (f a) Q s' l') -> wp (bind c f) Q s l.
Proof. intros Hc Hf. apply wp_bind. by eapply wp_mono. Qed.

(** ** Reachability

    By a step relation, the newest step last. *)
Inductive reaches {A : Type} (R : A -> A -> Prop) (x : A) : A -> Prop :=
| reaches_refl : reaches R x x
| reaches_step y z : reaches R x y -> R y z -> reaches R x z.

Lemma reaches_l {A : Type} (R : A -> A -> Prop) x y z : R x y -> reaches R y z -> reaches R x z.
Proof. intros Hr. induction 1; econstructor; eauto using reaches_refl. Qed.

Lemma reaches_invariant {A : Type} (R : A -> A -> Prop) (I : A -> Prop) x y :
  (forall a b, I a -> R a b -> I b) -> I x -> reaches R x y -> I y.
Proof. intros Hs Hx. induction 1; eauto. Qed.

(** * Prometheus metrics

    A counter or gauge vector is a map from labels to values: this is
    [WithLabelValues(k).Add(d)]. *)
Definition vec_add {K} `{Countable K} (k : K) (d : Z) (m : gmap K Z) : gmap K Z :=
  <[k := default 0 (m !! k) + d]> m.

(** * Generic lemmas *)

Lemma wrap_id w x : 0 < w -> - 2 ^ (w - 1) <= x < 2 ^ (w - 1) -> wrap w x = x.
Proof.
  intros Hw Hx. unfold wrap.
  assert (H2 : 2 ^ w = 2 * 2 ^ (w - 1)) by (rewrite <- Z.pow_succ_r by lia; f_equal; lia).
  rewrite Z.mod_small; lia.
Qed.

Lemma wrap64_id x : in_int64 x -> wrap64 x = x.
Proof. unfold in_int64, min_int64, max_int64, wrap64. intros. apply wrap_id; lia. Qed.

Lemma wrap64_in x : in_int64 (wrap64 x).
Proof.
  unfold in_int64, min_int64, max_int64, wrap64, wrap.
  pose proof (Z.mod_pos_bound (x + 2 ^ (64 - 1)) (2 ^ 64) ltac:(lia)). lia.
Qed.

Lemma len_nonneg {A} (l : list A) : 0 <= len l.
Proof. unfold len. lia. Qed.

Lemma len_app {A} (l k : list A) : len (l ++ k) = len l + len k.
Proof. unfold len. rewrite length_app. lia. Qed.

Lemma len_nil_inv {A} (l : list A) : len l = 0 -> l = [].
Proof. unfold len. destruct l; simpl; [done | lia]. Qed.

Lemma filter_ext_in {A} (P Q : A -> Prop) `{!forall x, Decision (P x), !forall x, Decision (Q x)} (l : list A) :
  (forall x, x ∈ l -> P x <-> Q x) -> filter P l = filter Q l.
Proof.
  induction l as [|x l IH]; intros Hl; [done|]. rewrite !filter_cons.
  assert (Hx := Hl x (list_elem_of_here _ _)).
  assert (IHl := IH (fun y Hy => Hl y (list_elem_of_further _ _ _ Hy))).
  repeat case_decide; rewrite ?IHl; tauto || done.
Qed.

Create HintDb go.
Create Rewrite HintDb go_rw.
#[export] Hint Resolve len_nonneg wrap64_in : go.
#[export] Hint Rewrite @len_app @exec_bind : go_rw.

(** Case analysis on the scrutinee of a [match] in the goal or a hypothesis,
    keeping the equation. *)
Ltac cases :=
  repeat match goal with
  | |- context [match ?x with _ => _ end] =>
      let E := fresh "E" in destruct x eqn:E; simpl in *; simplify_eq
  | H : context [match ?x with _ => _ end] |- _ =>
      let E := fresh "E" in destruct x eqn:E; simpl in *; simplify_eq
  end.

(** Decide the boolean comparisons on integers in the context. *)
Ltac zbool :=
  repeat match goal with
  | H : (_ <? _) = true |- _ => apply Z.ltb_lt in H
  | H : (_ <? _) = false |- _ => apply Z.ltb_ge in H
  | H : (_ <=? _) = true |- _ => apply Z.leb_le in H
  | H : (_ <=? _) = false |- _ => apply Z.leb_gt in H
  | H : (_ =? _) = true |- _ => apply Z.eqb_eq in H
  | H : (_ =? _) = false |- _ => apply Z.eqb_neq in H
  | H : (_ >=? _) = _ |- _ => rewrite Z.geb_leb in H
  | H : (_ >? _) = _ |- _ => rewrite Z.gtb_ltb in H
  end.
