(* ===== verification/Types.v ===== *)
(** The domain types shared by every component: [internal/types]
    (messages, headers, errors and their classification), the partition
    assignment of [internal/dispatcher/dispatcher.go] and the circuit
    breaker state of [internal/circuit]. *)
From S2P Require Import Prelude.

(** * Messages ([internal/types/message.go]) *)

(** A [[]byte]: [None] is the nil slice, which Kafka tells apart from the
    empty one (a null key, a tombstone value). *)
Definition bytes := option (list byte).

Record Header := mkHeader { HeaderKey : string; HeaderValue : bytes }.

(** [Timestamp] and [PolledAt] are instants in nanoseconds. *)
Record Message := mkMessage {
  Topic : string;
  Partition : Z;     (* int32 *)
  Offset : Z;        (* int64 *)
  Key : bytes;
  Value : bytes;
  Timestamp : Z;
  Headers : list Header;
  PolledAt : Z
}.

#[export] Instance byte_eq_dec : EqDecision byte.
Proof. intros x y. exact (Byte.byte_eq_dec x y). Defined.
#[export] Instance Header_eq_dec : EqDecision Header.
Proof. solve_decision. Defined.
#[export] Instance Message_eq_dec : EqDecision Message.
Proof. solve_decision. Defined.

(** The partition assignment of rebalance callbacks
    ([dispatcher.Partition]). *)
Record TopicPartition := mkTP { tpTopic : string; tpPartition : Z }.

#[export] Instance TopicPartition_eq_dec : EqDecision TopicPartition.
Proof. solve_decision. Defined.

(** * Errors ([internal/types/errors.go] and Go's [errors]/[fmt])

    The errors the code builds or inspects: package-level sentinels, compared
    by identity; leaf errors; [fmt.Errorf] with one [%w]; [errors.Join]; and
    [*ErrNonRetryable], whose [Err] field may be nil. *)

Inductive error :=
| Sentinel (name text : string)
| Leaf (text : string)
| Wrap (prefix : string) (inner : error)
| Join (errs : list error)
| ErrNonRetryable (Err : option error).

Definition ErrBackpressure := Sentinel "dispatcher.ErrBackpressure" "dispatcher: at capacity".
Definition ErrOpenState := Sentinel "gobreaker.ErrOpenState" "circuit breaker is open".
Definition ErrTooManyRequests := Sentinel "gobreaker.ErrTooManyRequests" "too many requests".
Definition Canceled := Sentinel "context.Canceled" "context canceled".
Definition DeadlineExceeded := Sentinel "context.DeadlineExceeded" "context deadline exceeded".

(** [err.Error()]; [errors.Join] separates the texts with newlines. *)
Fixpoint Error (e : error) : string :=
  match e with
  | Sentinel _ t => t
  | Leaf t => t
  | Wrap pre e => pre +:+ Error e
  | Join es =>
      (fix go es := match es with
                    | [] => ""
                    | [e] => Error e
                    | e :: es => Error e +:+ String "010" (go es)
                    end) es
  | ErrNonRetryable None => "non-retryable: <nil>"
  | ErrNonRetryable (Some e) => "non-retryable: " +:+ Error e
  end.

(** The tree of errors reached by [Unwrap], in the depth-first order
    [errors.Is] and [errors.As] visit it. *)
Fixpoint chain (e : error) : list error :=
  e :: match e with
       | Wrap _ e => chain e
       | Join es => (fix go es := match es with [] => [] | e :: es => chain e ++ go es end) es
       | ErrNonRetryable (Some e) => chain e
       | _ => []
       end.

Definition is_ErrNonRetryable (e : error) : bool :=
  match e with ErrNonRetryable _ => true | _ => false end.

(** [errors.As(err, &target)] with [target] an [*ErrNonRetryable]. *)
Definition IsNonRetryable (e : error) : bool := existsb is_ErrNonRetryable (chain e).

(** [errors.Is(err, target)] for a sentinel [target]. *)
Definition same_sentinel (target e : error) : bool :=
  match target, e with Sentinel n _, Sentinel n' _ => String.eqb n n' | _, _ => false end.
Definition errors_Is (e target : error) : bool := existsb (same_sentinel target) (chain e).

(** * Circuit breaker states ([internal/circuit/state.go]) *)

Module circuit.
(** [State] is an [int]; the constants are numbered by [iota]. *)
Definition State := Z.
Definition Closed : State := 0.
Definition Open : State := 1.
Definition HalfOpen : State := 2.

Definition String (s : State) : string :=
  if s =? Closed then "closed"
  else if s =? Open then "open"
  else if s =? HalfOpen then "half-open"
  else "unknown".
End circuit.

(** gobreaker's three states; the library numbers them closed, half-open,
    open, and only their names are used here. *)
Inductive gobreakerState := StateClosed | StateHalfOpen | StateOpen.

#[export] Instance gobreakerState_eq_dec : EqDecision gobreakerState.
Proof. solve_decision. Defined.

(** [gobreakerStateToCircuit] ([internal/dispatcher/unordered.go]). *)
Definition gobreakerStateToCircuit (s : gobreakerState) : circuit.State :=
  match s with
  | StateClosed => circuit.Closed
  | StateOpen => circuit.Open
  | StateHalfOpen => circuit.HalfOpen
  end.

(** * Lemmas on the classification of errors *)

Lemma chain_wrap pre e : chain (Wrap pre e) = Wrap pre e :: chain e.
Proof. done. Qed.

Lemma chain_join es : chain (Join es) = Join es :: concat (chain <$> es).
Proof.
  simpl. f_equal. induction es as [|e es IH]; simpl; [done|]. by rewrite IH.
Qed.

Lemma chain_self e : e ∈ chain e.
Proof. destruct e; simpl; apply list_elem_of_here. Qed.

Lemma IsNonRetryable_wrap pre e : IsNonRetryable (Wrap pre e) = IsNonRetryable e.
Proof. done. Qed.

Lemma IsNonRetryable_join es : IsNonRetryable (Join es) = existsb IsNonRetryable es.
Proof.
  unfold IsNonRetryable. rewrite chain_join. simpl.
  induction es as [|e es IH]; simpl; [done|]. rewrite existsb_app. by f_equal.
Qed.

Lemma IsNonRetryable_mk o : IsNonRetryable (ErrNonRetryable o) = true.
Proof. done. Qed.

Lemma gobreakerStateToCircuit_inj s s' :
  gobreakerStateToCircuit s = gobreakerStateToCircuit s' -> s = s'.
Proof. by destruct s, s'. Qed.

#[export] Hint Rewrite IsNonRetryable_wrap IsNonRetryable_join IsNonRetryable_mk : go_rw.
