(* ===== verification/OffsetCoordinator.v ===== *)
(** The offset coordinator: the interface the dispatcher and the poll loop
    program against ([internal/offset/coordinator.go]), as a type class whose
    laws are the documented contract over an abstract per-partition slot, and
    its implementation ([internal/offset/coordinator_impl.go]) with the proof
    that it meets the contract. *)
From S2P Require Import Prelude Types.

(** * The interface *)

(** What a client can know of a partition. *)
Inductive slot := Absent | InFlight (maxOffset : Z) | Completed (maxOffset : Z).

#[export] Instance slot_eq_dec : EqDecision slot.
Proof. solve_decision. Defined.

(** The offset reported as safe to commit for a slot; [maxOffset + 1] is an
    [int64] addition. *)
Definition slot_commit (x : slot) : option Z :=
  match x with Completed o => Some (wrap64 (o + 1)) | _ => None end.

Definition slot_busy (x : slot) : bool :=
  match x with InFlight _ => true | _ => false end.

Class CoordinatorOps (C : Type) := {
  BatchDispatched : Z -> Z -> C -> outcome C unit;
  BatchComplete : Z -> Z -> C -> outcome C unit;
  Committable : C -> gmap Z Z;
  Reset : Z -> C -> C
}.

Class Coordinator (C : Type) {ops : CoordinatorOps C} := {
  coord_wf : C -> Prop;
  slot_of : C -> Z -> slot;
  (** At most one batch per partition in flight: a second dispatch panics. *)
  dispatched_panics c p off :
    coord_wf c -> slot_busy (slot_of c p) = true ->
    exists m, BatchDispatched p off c = Panicked (PanicMsg m) c;
  dispatched_returns c p off :
    coord_wf c -> slot_busy (slot_of c p) = false ->
    exists c', BatchDispatched p off c = Returned tt c' /\ coord_wf c' /\
      forall q, slot_of c' q = if decide (q = p) then InFlight off else slot_of c q;
  (** Completion: a no-op on an unknown partition, idempotent, and a panic
      when the offset is not the dispatched one. *)
  complete_absent c p off :
    coord_wf c -> slot_of c p = Absent -> BatchComplete p off c = Returned tt c;
  complete_again c p off :
    coord_wf c -> slot_of c p = Completed off -> BatchComplete p off c = Returned tt c;
  complete_returns c p off :
    coord_wf c -> slot_of c p = InFlight off ->
    exists c', BatchComplete p off c = Returned tt c' /\ coord_wf c' /\
      forall q, slot_of c' q = if decide (q = p) then Completed off else slot_of c q;
  complete_panics c p off off' :
    coord_wf c -> slot_of c p = InFlight off' \/ slot_of c p = Completed off' ->
    off' <> off -> exists m, BatchComplete p off c = Panicked (PanicMsg m) c;
  (** Exactly the completed partitions are committable, at the next offset. *)
  committable_lookup c p :
    coord_wf c -> Committable c !! p = slot_commit (slot_of c p);
  reset_spec c p :
    coord_wf c -> coord_wf (Reset p c) /\
      forall q, slot_of (Reset p c) q = if decide (q = p) then Absent else slot_of c q
}.

(** * The implementation *)

Record partitionState := mkPartitionState {
  maxOffset : Z;
  inFlight : bool;
  completed : bool
}.

Record coordinator := mkCoordinator { partitions : gmap Z partitionState }.

Definition NewCoordinator : coordinator := mkCoordinator ∅.

Definition coordinator_BatchDispatched (partition off : Z) (c : coordinator)
  : outcome coordinator unit :=
  let dispatch :=
    Returned tt (mkCoordinator
      (<[partition := mkPartitionState off true false]> (partitions c))) in
  match partitions c !! partition with
  | Some state =>
      if inFlight state then
        Panicked (PanicMsg
          ("offset coordinator: partition " +:+ pretty partition +:+
           " already has an in-flight batch (offset " +:+ pretty (maxOffset state) +:+
           "); attempted to dispatch new batch (offset " +:+ pretty off +:+ ")")) c
      else dispatch
  | None => dispatch
  end.

Definition coordinator_BatchComplete (partition off : Z) (c : coordinator)
  : outcome coordinator unit :=
  match partitions c !! partition with
  | None => Returned tt c
  | Some state =>
      if completed state && (maxOffset state =? off) then Returned tt c
      else if negb (maxOffset state =? off) then
        Panicked (PanicMsg
          ("offset coordinator: partition " +:+ pretty partition +:+
           " BatchComplete offset " +:+ pretty off +:+
           " does not match dispatched offset " +:+ pretty (maxOffset state))) c
      else Returned tt (mkCoordinator
             (<[partition := mkPartitionState (maxOffset state) false true]> (partitions c)))
  end.

Definition coordinator_Committable (c : coordinator) : gmap Z Z :=
  omap (fun state => if completed state then Some (wrap64 (maxOffset state + 1)) else None)
       (partitions c).

Definition coordinator_Reset (partition : Z) (c : coordinator) : coordinator :=
  mkCoordinator (delete partition (partitions c)).

#[export] Instance coordinator_ops : CoordinatorOps coordinator := {
  BatchDispatched := coordinator_BatchDispatched;
  BatchComplete := coordinator_BatchComplete;
  Committable := coordinator_Committable;
  Reset := coordinator_Reset
}.

(** ** The invariant and the contract *)

(** A tracked partition is in flight or completed, never both or neither. *)
Definition state_wf (st : partitionState) : Prop := inFlight st = negb (completed st).
Definition impl_wf (c : coordinator) : Prop :=
  map_Forall (fun _ st => state_wf st) (partitions c).

Definition state_slot (st : partitionState) : slot :=
  if completed st then Completed (maxOffset st) else InFlight (maxOffset st).
Definition impl_slot (c : coordinator) (p : Z) : slot :=
  match partitions c !! p with Some st => state_slot st | None => Absent end.

Lemma impl_wf_insert c p st :
  impl_wf c -> state_wf st -> impl_wf (mkCoordinator (<[p := st]> (partitions c))).
Proof. intros Hc Hst. by apply map_Forall_insert_2. Qed.

Lemma impl_slot_insert c p st q :
  impl_slot (mkCoordinator (<[p := st]> (partitions c))) q =
  if decide (q = p) then state_slot st else impl_slot c q.
Proof.
  unfold impl_slot. simpl. rewrite lookup_insert.
  repeat case_decide; simplify_eq; done.
Qed.

Lemma impl_wf_lookup c p st : impl_wf c -> partitions c !! p = Some st -> state_wf st.
Proof. intros Hc Hp. exact (Hc p st Hp). Qed.

Lemma NewCoordinator_wf : impl_wf NewCoordinator.
Proof. apply map_Forall_empty. Qed.

Ltac coord_lookup c p :=
  unfold impl_slot, state_slot, state_wf in *;
  destruct (partitions c !! p) as [[o f d]|] eqn:Ep; simpl in *;
  [pose proof (impl_wf_lookup _ _ _ ltac:(eassumption) Ep) as Hst;
   unfold state_wf in Hst; simpl in Hst; destruct d; simpl in *; simplify_eq|]; try done.

#[export] Program Instance coordinator_contract : Coordinator coordinator := {
  coord_wf := impl_wf;
  slot_of := impl_slot
}.
Next Obligation.
  intros c p off Hc Hb. simpl. unfold coordinator_BatchDispatched.
  coord_lookup c p. eauto.
Qed.
Next Obligation.
  intros c p off Hc Hb. simpl. unfold coordinator_BatchDispatched.
  assert (forall q, impl_slot (mkCoordinator (<[p := mkPartitionState off true false]>
    (partitions c))) q = if decide (q = p) then InFlight off else impl_slot c q) as Hq
    by (intros q; apply impl_slot_insert).
  coord_lookup c p; (eexists; split_and!; [done | by apply impl_wf_insert | exact Hq]).
Qed.
Next Obligation.
  intros c p off Hc Hs. simpl. unfold coordinator_BatchComplete. coord_lookup c p.
Qed.
Next Obligation.
  intros c p off Hc Hs. simpl. unfold coordinator_BatchComplete. coord_lookup c p.
  by rewrite Z.eqb_refl.
Qed.
Next Obligation.
  intros c p off Hc Hs. simpl. unfold coordinator_BatchComplete.
  assert (forall q, impl_slot (mkCoordinator (<[p := mkPartitionState off false true]>
    (partitions c))) q = if decide (q = p) then Completed off else impl_slot c q) as Hq
    by (intros q; apply impl_slot_insert).
  coord_lookup c p. rewrite Z.eqb_refl. simpl.
  eexists; split_and!; [done | by apply impl_wf_insert | exact Hq].
Qed.
Next Obligation.
  intros c p off off' Hc Hs Hne. simpl. unfold coordinator_BatchComplete.
  coord_lookup c p; destruct Hs; simplify_eq;
    rewrite (proj2 (Z.eqb_neq _ _) Hne); simpl; eauto.
Qed.
Next Obligation.
  intros c p Hc. simpl. unfold coordinator_Committable. rewrite lookup_omap.
  coord_lookup c p.
Qed.
Next Obligation.
  intros c p Hc. split.
  - by apply map_Forall_delete.
  - intros q. unfold impl_slot. simpl. rewrite lookup_delete.
    repeat case_decide; simplify_eq; done.
Qed.

(** * Histories of calls

    Any sequence of calls, against any implementation of the contract, is
    simulated by the slot machine [spec_call]; the implementation's panics are
    exactly the calls the machine refuses. *)

Inductive call :=
| CallDispatched (p off : Z)
| CallComplete (p off : Z)
| CallReset (p : Z).

Definition call_partition (k : call) : Z :=
  match k with CallDispatched p _ | CallComplete p _ | CallReset p => p end.

Definition upd (p : Z) (x : slot) (s : Z -> slot) : Z -> slot :=
  fun q => if decide (q = p) then x else s q.

Definition spec_call (k : call) (s : Z -> slot) : option (Z -> slot) :=
  match k with
  | CallDispatched p off =>
      if slot_busy (s p) then None else Some (upd p (InFlight off) s)
  | CallComplete p off =>
      match s p with
      | Absent => Some s
      | InFlight off' => if off' =? off then Some (upd p (Completed off) s) else None
      | Completed off' => if off' =? off then Some s else None
      end
  | CallReset p => Some (upd p Absent s)
  end.

Fixpoint spec_calls (ks : list call) (s : Z -> slot) : option (Z -> slot) :=
  match ks with
  | [] => Some s
  | k :: ks => match spec_call k s with Some s' => spec_calls ks s' | None => None end
  end.

Section History.
Context `{Coordinator C}.

Definition do_call (k : call) (c : C) : outcome C unit :=
  match k with
  | CallDispatched p off => BatchDispatched p off c
  | CallComplete p off => BatchComplete p off c
  | CallReset p => Returned tt (Reset p c)
  end.

Fixpoint do_calls (ks : list call) (c : C) : outcome C unit :=
  match ks with
  | [] => Returned tt c
  | k :: ks => match do_call k c with
               | Returned _ c' => do_calls ks c'
               | Panicked p c' => Panicked p c'
               end
  end.

Definition models (c : C) (s : Z -> slot) : Prop := coord_wf c /\ forall q, slot_of c q = s q.

Lemma do_call_simulated k c s :
  models c s ->
  match do_call k c with
  | Returned _ c' => exists s', spec_call k s = Some s' /\ models c' s'
  | Panicked _ _ => spec_call k s = None
  end.
Proof.
  intros [Hc Hs]. destruct k as [p off|p off|p]; simpl.
  - rewrite <- Hs. destruct (slot_busy (slot_of c p)) eqn:Eb.
    + by destruct (dispatched_panics c p off Hc Eb) as [m ->].
    + destruct (dispatched_returns c p off Hc Eb) as (c' & -> & Hc' & Hs').
      eexists; split; [done|]. split; [done|]. intros q. rewrite Hs'. unfold upd.
      case_decide; auto.
  - rewrite <- Hs. destruct (slot_of c p) as [|off'|off'] eqn:Ep.
    + rewrite (complete_absent c p off Hc Ep). by eexists.
    + destruct (Z.eqb_spec off' off) as [->|Hne].
      * destruct (complete_returns c p off Hc Ep) as (c' & -> & Hc' & Hs').
        eexists; split; [done|]. split; [done|]. intros q. rewrite Hs'. unfold upd.
        case_decide; auto.
      * by destruct (complete_panics c p off off' Hc ltac:(auto) Hne) as [m ->].
    + destruct (Z.eqb_spec off' off) as [->|Hne].
      * rewrite (complete_again c p off Hc Ep). by eexists.
      * by destruct (complete_panics c p off off' Hc ltac:(auto) Hne) as [m ->].
  - destruct (reset_spec c p Hc) as [Hc' Hs']. eexists; split; [done|].
    split; [done|]. intros q. rewrite Hs'. unfold upd. case_decide; auto.
Qed.

Lemma do_calls_simulated ks c s :
  models c s ->
  match do_calls ks c with
  | Returned _ c' => exists s', spec_calls ks s = Some s' /\ models c' s'
  | Panicked _ _ => spec_calls ks s = None
  end.
Proof.
  revert c s. induction ks as [|k ks IH]; intros c s Hm; simpl; [eauto|].
  pose proof (do_call_simulated k c s Hm) as Hk. destruct (do_call k c) as [[] c'|p c'].
  - destruct Hk as (s' & -> & Hm'). exact (IH c' s' Hm').
  - by rewrite Hk.
Qed.

Lemma models_committable c s p :
  models c s -> Committable c !! p = slot_commit (s p).
Proof. intros [Hc Hs]. by rewrite <- Hs, committable_lookup. Qed.
End History.

Definition no_slots : Z -> slot := fun _ => Absent.

Lemma new_models : models NewCoordinator no_slots.
Proof. split; [apply NewCoordinator_wf|done]. Qed.

Lemma spec_calls_app ks1 ks2 s :
  spec_calls (ks1 ++ ks2) s = match spec_calls ks1 s with
                              | Some s' => spec_calls ks2 s'
                              | None => None
                              end.
Proof. revert s. induction ks1 as [|k ks IH]; intros s; simpl; [done|]. by destruct (spec_call k s). Qed.

(** The slot of [p] is only changed by the calls on [p]. *)
Lemma spec_call_other k s s' p :
  spec_call k s = Some s' -> call_partition k <> p -> s' p = s p.
Proof.
  destruct k; simpl; intros Hk Hne; cases; simplify_eq; unfold upd;
    try case_decide; congruence.
Qed.

(** A completed slot comes from a [BatchComplete] of that offset since which
    nothing but further completions touched the partition. *)
Lemma spec_completed_history ks s p off :
  spec_calls ks no_slots = Some s -> s p = Completed off ->
  exists ks1 ks2, ks = ks1 ++ CallComplete p off :: ks2 /\
    (exists s1, spec_calls ks1 no_slots = Some s1 /\ s1 p = InFlight off) /\
    (forall k, k ∈ ks2 -> call_partition k = p -> k = CallComplete p off).
Proof.
  revert s. induction ks as [|k ks IH] using rev_ind; intros s Hr Hp.
  { simpl in Hr. by simplify_eq. }
  rewrite spec_calls_app in Hr. destruct (spec_calls ks no_slots) as [s0|] eqn:E0; [|done].
  simpl in Hr. destruct (spec_call k s0) as [s1|] eqn:E1; simplify_eq.
  assert (Hext : s0 p = Completed off -> (call_partition k = p -> k = CallComplete p off) ->
    exists ks1 ks2, ks ++ [k] = ks1 ++ CallComplete p off :: ks2 /\
    (exists s1, spec_calls ks1 no_slots = Some s1 /\ s1 p = InFlight off) /\
    (forall k, k ∈ ks2 -> call_partition k = p -> k = CallComplete p off)).
  { intros H0 Hk. destruct (IH s0 eq_refl H0) as (ks1 & ks2 & -> & H1 & H2).
    exists ks1, (ks2 ++ [k]). split_and!; [by rewrite <- app_assoc | done |].
    intros k' [Hin| ->%list_elem_of_singleton]%elem_of_app; auto. }
  destruct (decide (call_partition k = p)) as [Hk|Hk].
  2: { apply Hext; [|done]. by rewrite <- (spec_call_other _ _ _ _ E1 Hk). }
  destruct k as [q o|q o|q]; simpl in Hk, E1; subst q; cases;
    simplify_eq; unfold upd in Hp; rewrite ?decide_True in Hp by done; simplify_eq;
    zbool; subst.
  - congruence.
  - exists ks, []. split_and!; [done | eauto | intros k Hin; by apply not_elem_of_nil in Hin].
  - apply Hext; congruence.
Qed.

(** * Properties *)

(** C13. The coordinator implements its contract: from a fresh coordinator,
    any sequence of dispatches, completions and resets panics exactly when the
    slot machine refuses a call (a second dispatch while one is in flight, a
    completion of another offset), and otherwise reports as committable
    exactly the completed partitions, at the offset after the batch. *)
Theorem coordinator_refines_slots (ks : list call) :
  match do_calls ks NewCoordinator with
  | Returned _ c => exists s, spec_calls ks no_slots = Some s /\ impl_wf c /\
                      forall p, coordinator_Committable c !! p = slot_commit (s p)
  | Panicked _ _ => spec_calls ks no_slots = None
  end.
Proof.
  pose proof (do_calls_simulated ks _ _ new_models) as Hs.
  destruct (do_calls ks NewCoordinator) as [[] c|p c]; [|done].
  destruct Hs as (s & Hs & Hm). exists s. split; [done|]. split; [apply Hm|].
  intros p. exact (models_committable c s p Hm).
Qed.

(** Offsets are committable only after completion: if a history reports
    [n] for a partition, then some [BatchComplete] of an offset [off], with
    [n] the next offset, was called while that batch was in flight, and since
    then the partition was neither dispatched nor reset. *)
Theorem committable_only_after_complete (ks : list call) c p n :
  do_calls ks NewCoordinator = Returned tt c ->
  coordinator_Committable c !! p = Some n ->
  exists ks1 off ks2, ks = ks1 ++ CallComplete p off :: ks2 /\ n = wrap64 (off + 1) /\
    (exists c1, do_calls ks1 NewCoordinator = Returned tt c1 /\ impl_slot c1 p = InFlight off) /\
    (forall k, k ∈ ks2 -> call_partition k = p -> k = CallComplete p off).
Proof.
  intros Hr Hn. pose proof (do_calls_simulated ks _ _ new_models) as Hs. rewrite Hr in Hs.
  destruct Hs as (s & Hs & Hm). change (coordinator_Committable c) with (Committable c) in Hn.
  rewrite (models_committable c s p Hm) in Hn.
  destruct (s p) as [| |off] eqn:Ep; simpl in Hn; simplify_eq.
  destruct (spec_completed_history ks s p off Hs Ep) as (ks1 & ks2 & -> & (s1 & H1 & Hp1) & H2).
  exists ks1, off, ks2. split_and!; [done|done| |done].
  pose proof (do_calls_simulated ks1 _ _ new_models) as Hs1.
  destruct (do_calls ks1 NewCoordinator) as [[] c1|q c1].
  - destruct Hs1 as (s1' & Hs1' & [_ Hm1]). simplify_eq. exists c1. split; [done|].
    change (impl_slot c1 p) with (slot_of c1 p). by rewrite Hm1.
  - by rewrite H1 in Hs1.
Qed.

Lemma committable_only_after_complete_witness :
  exists ks c, do_calls ks NewCoordinator = Returned tt c /\
    coordinator_Committable c !! 3 = Some 43 /\
    exists ks1 off ks2, ks = ks1 ++ CallComplete 3 off :: ks2 /\ 43 = wrap64 (off + 1) /\
      (exists c1, do_calls ks1 NewCoordinator = Returned tt c1 /\ impl_slot c1 3 = InFlight off) /\
      (forall k, k ∈ ks2 -> call_partition k = 3 -> k = CallComplete 3 off).
Proof.
  set (ks := [CallDispatched 3 42; CallDispatched 5 9; CallComplete 3 42; CallReset 5]).
  set (c := mkCoordinator {[ 3 := mkPartitionState 42 false true ]}).
  exists ks, c. split; [reflexivity|]. split; [reflexivity|].
  apply (committable_only_after_complete ks c 3 43); reflexivity.
Defined.

(** [Reset] forgets a partition: whatever happened before, a reset
    partition is not committable, a late [BatchComplete] of its old batch is a
    no-op that does not bring it back, and a new dispatch is accepted. *)
Theorem reset_forgets (c : coordinator) p off :
  impl_wf c ->
  coordinator_Committable (coordinator_Reset p c) !! p = None /\
  coordinator_BatchComplete p off (coordinator_Reset p c) =
    Returned tt (coordinator_Reset p c) /\
  (exists c', coordinator_BatchDispatched p off (coordinator_Reset p c) = Returned tt c') /\
  (forall q, q <> p ->
     coordinator_Committable (coordinator_Reset p c) !! q = coordinator_Committable c !! q).
Proof.
  intros Hc. change (coord_wf (C := coordinator) c) in Hc.
  destruct (reset_spec c p Hc) as [Hc' Hs].
  assert (Ha : slot_of (Reset p c) p = Absent) by (rewrite Hs; by case_decide).
  split_and!.
  - pose proof (committable_lookup (Reset p c) p Hc') as Hl. by rewrite Ha in Hl.
  - exact (complete_absent (Reset p c) p off Hc' Ha).
  - destruct (dispatched_returns (Reset p c) p off Hc') as (c' & Hd & _); [by rewrite Ha|eauto].
  - intros q Hne. pose proof (committable_lookup (Reset p c) q Hc') as Hl.
    rewrite Hs, decide_False in Hl by done. rewrite <- (committable_lookup c q Hc) in Hl. done.
Qed.

Lemma reset_forgets_witness :
  exists c, impl_wf c /\ coordinator_Committable c !! 1 = Some 8 /\
    coordinator_Committable (coordinator_Reset 1 c) !! 1 = None.
Proof.
  assert (H : impl_wf (mkCoordinator {[ 1 := mkPartitionState 7 false true ]})).
  { apply map_Forall_singleton. reflexivity. }
  exists (mkCoordinator {[ 1 := mkPartitionState 7 false true ]}).
  split; [exact H|]. split; [vm_compute; reflexivity|].
  exact (proj1 (reset_forgets _ 1 7 H)).
Defined.
