(* ===== verification/Dispatcher.v ===== *)
(** The unordered dispatcher: batch assembly, dispatch to the worker channel,
    linger timers, rebalance callbacks and shutdown
    ([internal/dispatcher/unordered.go], [dispatcher.go], [config.go]).
    What the workers do with a batch is in [Worker]. *)
From S2P Require Import Prelude Types OffsetCoordinator.

(** * Configuration ([internal/dispatcher/config.go])

    Durations are in nanoseconds; the failure threshold is a [float64]. *)

Record Config := mkConfig {
  WorkerCount : Z;
  ChannelCap : Z;
  BatchSize : Z;
  LingerTime : Z;
  MaxRetries : Z;
  CBMinRequests : Z;
  CBFailureThreshold : spec_float;
  CBOpenTimeout : Z;
  CBMaxRequests : Z;
  CBInterval : Z
}.

(** The [float64] nearest to 0.6. *)
Definition float_0_6 : spec_float := S754_finite false 5404319552844595 (-53).

Definition DefaultConfig : Config :=
  mkConfig 4 100 50 (100 * Millisecond) 3 3 float_0_6 (30 * Second) 1 (60 * Second).

(** * Metrics ([internal/metrics/dispatcher.go])

    Counters and gauges are integers, keyed by their labels (the partition
    label is the decimal text of the partition, here the number itself); a
    histogram is the list of its observations, newest first, in nanoseconds. *)

Record DispatcherMetrics := mkMetrics {
  MessagesProcessed : gmap (string * Z) Z;
  MessageDelay : list (Z * Z);
  ProcessingTime : list (Z * Z);
  RecordAge : list (Z * Z);
  InflightMessages : gmap Z Z;
  CircuitBreakerState : Z;
  WorkersActive : Z;
  DLQMessages : gmap (string * Z) Z
}.

Definition no_metrics : DispatcherMetrics := mkMetrics ∅ [] [] [] ∅ 0 0 ∅.

Definition StatusSuccess : string := "success".
Definition StatusNonRetryable : string := "non_retryable".
Definition StatusRetriesExhausted : string := "retries_exhausted".

(** * The dispatcher's state *)

Record batch := mkBatch {
  partition : Z;
  batchMaxOffset : Z;
  messages : list Message
}.

(** [lingerTimer] is the identity of a running [time.AfterFunc] timer. *)
Record partitionBuffer := mkBuffer {
  bufMessages : list Message;
  bufInFlight : bool;
  lingerTimer : option nat
}.

Definition empty_buffer : partitionBuffer := mkBuffer [] false None.

(** The mutable state.  [batchCh] is the bounded channel with its closed
    flag, [readyCh] the one-slot and [circuitStateCh] the three-slot
    notification channels; [timers] are the armed linger timers with the
    partition each will flush; [cancelled] is the run context that
    [cancelRoot] cancels.  The offset coordinator is shared with the poll
    loop. *)
Record UnorderedDispatcher (C : Type) := mkDispatcher {
  coord : C;
  batchCh : list batch;
  batchChClosed : bool;
  readyCh : bool;
  circuitStateCh : list circuit.State;
  buffers : gmap Z partitionBuffer;
  closed : bool;
  timers : gmap nat Z;
  nextTimer : nat;
  cancelled : bool;
  m : DispatcherMetrics
}.
Arguments mkDispatcher {C} _ _ _ _ _ _ _ _ _ _ _.
Arguments coord {C} _. Arguments batchCh {C} _. Arguments batchChClosed {C} _.
Arguments readyCh {C} _. Arguments circuitStateCh {C} _. Arguments buffers {C} _.
Arguments closed {C} _. Arguments timers {C} _. Arguments nextTimer {C} _.
Arguments cancelled {C} _. Arguments m {C} _.

Section Setters.
Context {C : Type}.
Implicit Types s : UnorderedDispatcher C.
Definition set_coord (x : C) s := mkDispatcher x (batchCh s) (batchChClosed s) (readyCh s)
  (circuitStateCh s) (buffers s) (closed s) (timers s) (nextTimer s) (cancelled s) (m s).
Definition set_batchCh x s := mkDispatcher (coord s) x (batchChClosed s) (readyCh s)
  (circuitStateCh s) (buffers s) (closed s) (timers s) (nextTimer s) (cancelled s) (m s).
Definition set_batchChClosed x s := mkDispatcher (coord s) (batchCh s) x (readyCh s)
  (circuitStateCh s) (buffers s) (closed s) (timers s) (nextTimer s) (cancelled s) (m s).
Definition set_readyCh x s := mkDispatcher (coord s) (batchCh s) (batchChClosed s) x
  (circuitStateCh s) (buffers s) (closed s) (timers s) (nextTimer s) (cancelled s) (m s).
Definition set_circuitStateCh x s := mkDispatcher (coord s) (batchCh s) (batchChClosed s)
  (readyCh s) x (buffers s) (closed s) (timers s) (nextTimer s) (cancelled s) (m s).
Definition set_buffers x s := mkDispatcher (coord s) (batchCh s) (batchChClosed s)
  (readyCh s) (circuitStateCh s) x (closed s) (timers s) (nextTimer s) (cancelled s) (m s).
Definition set_closed x s := mkDispatcher (coord s) (batchCh s) (batchChClosed s)
  (readyCh s) (circuitStateCh s) (buffers s) x (timers s) (nextTimer s) (cancelled s) (m s).
Definition set_timers x s := mkDispatcher (coord s) (batchCh s) (batchChClosed s)
  (readyCh s) (circuitStateCh s) (buffers s) (closed s) x (nextTimer s) (cancelled s) (m s).
Definition set_nextTimer x s := mkDispatcher (coord s) (batchCh s) (batchChClosed s)
  (readyCh s) (circuitStateCh s) (buffers s) (closed s) (timers s) x (cancelled s) (m s).
Definition set_cancelled x s := mkDispatcher (coord s) (batchCh s) (batchChClosed s)
  (readyCh s) (circuitStateCh s) (buffers s) (closed s) (timers s) (nextTimer s) x (m s).
Definition set_m x s := mkDispatcher (coord s) (batchCh s) (batchChClosed s)
  (readyCh s) (circuitStateCh s) (buffers s) (closed s) (timers s) (nextTimer s) (cancelled s) x.
End Setters.

(** Metric updates. *)
Definition upd_inflight {C} (p d : Z) (s : UnorderedDispatcher C) :=
  let x := m s in
  set_m (mkMetrics (MessagesProcessed x) (MessageDelay x) (ProcessingTime x) (RecordAge x)
    (vec_add p d (InflightMessages x)) (CircuitBreakerState x) (WorkersActive x)
    (DLQMessages x)) s.
Definition upd_workers {C} (d : Z) (s : UnorderedDispatcher C) :=
  let x := m s in
  set_m (mkMetrics (MessagesProcessed x) (MessageDelay x) (ProcessingTime x) (RecordAge x)
    (InflightMessages x) (CircuitBreakerState x) (WorkersActive x + d) (DLQMessages x)) s.
Definition upd_dlq {C} (reason : string) (p d : Z) (s : UnorderedDispatcher C) :=
  let x := m s in
  set_m (mkMetrics (MessagesProcessed x) (MessageDelay x) (ProcessingTime x) (RecordAge x)
    (InflightMessages x) (CircuitBreakerState x) (WorkersActive x)
    (vec_add (reason, p) d (DLQMessages x))) s.
Definition upd_breaker {C} (st : Z) (s : UnorderedDispatcher C) :=
  let x := m s in
  set_m (mkMetrics (MessagesProcessed x) (MessageDelay x) (ProcessingTime x) (RecordAge x)
    (InflightMessages x) st (WorkersActive x) (DLQMessages x)) s.

(** * Questions to the environment

    What the dispatcher's routines learn from outside: the order in which a
    map is ranged over, the outcome of a sleep that a cancelled context
    interrupts, the answers of the circuit breaker, the developer's processor
    and the DLQ producer, the clock, and how [Close] stopped waiting. *)

(** The circuit breaker either rejects a request without running it, or runs
    it: the developer's processor returns an error value or panics. *)
Inductive rejection := RejectOpen | RejectTooMany.
Inductive executed :=
| Rejected (r : rejection)
| ProcessorReturned (err : option error)
| ProcessorPanicked (msg : string).

Inductive query : Type -> Type :=
| Shuffle (l : list Z) : query {l' : list Z | l' ≡ₚ l}
| Sleep (d : Z) : query (option error)
| Execute (msgs : list Message) : query (list gobreakerState * executed)
| BreakerState : query (list gobreakerState * gobreakerState)
| ProduceDLQ (msgs : list Message) (reason : error) : query (option error)
| Now : query Z
| RandFloat64 : query {k : Z | 0 <= k < 2 ^ 53}
| WaitWorkers : query (option error).

(** [fmt] text of the error for a closed dispatcher. *)
Definition errClosed : error := Leaf "dispatcher: closed".

Section Operations.
Context `{Coordinator C}.
Variable cfg : Config.
Local Abbreviation S := (UnorderedDispatcher C).
Local Abbreviation P := (prog query S).
Implicit Types s : S.

(** [NewUnorderedDispatcher]'s state; [make(chan batch, n)] needs [n >= 0]. *)
Definition NewUnorderedDispatcher (coordinator : C) : S :=
  mkDispatcher coordinator [] false false [] ∅ false ∅ 0%nat false no_metrics.

(** A call to the coordinator, from the goroutine that runs the routine. *)
Definition with_coord (f : C -> outcome C unit) s : outcome S unit :=
  match f (coord s) with
  | Returned _ c => Returned tt (set_coord c s)
  | Panicked p c => Panicked p (set_coord c s)
  end.

Definition put_buffer (p : Z) (pb : partitionBuffer) s : S :=
  set_buffers (<[p := pb]> (buffers s)) s.

(** [if pb.lingerTimer != nil { pb.lingerTimer.Stop(); ... }] *)
Definition stop_timer (t : option nat) s : S :=
  match t with Some i => set_timers (delete i (timers s)) s | None => s end.

(** ** Batch assembly *)

(** [assembleBatch]: cut the first [BatchSize] messages off the buffer.  A
    negative size panics in [make], an empty batch in [msgs[len(msgs)-1]]. *)
Definition assembleBatch (pb : partitionBuffer) (p : Z) s : outcome S batch :=
  let size := if len (bufMessages pb) <? BatchSize cfg then len (bufMessages pb)
              else BatchSize cfg in
  if size <? 0 then Panicked IndexOutOfRange s
  else
    let msgs := take (Z.to_nat size) (bufMessages pb) in
    let remaining := drop (Z.to_nat size) (bufMessages pb) in
    match last msgs with
    | None => Panicked IndexOutOfRange s
    | Some lst =>
        Returned (mkBatch p (Offset lst) msgs)
          (stop_timer (lingerTimer pb)
            (put_buffer p (mkBuffer remaining (bufInFlight pb) None) s))
    end.

(** [startLingerTimer], with [mu] held. *)
Definition startLingerTimer (p : Z) s : outcome S unit :=
  match buffers s !! p with
  | None => Panicked NilDereference s
  | Some pb =>
      match lingerTimer pb with
      | Some _ => Returned tt s
      | None =>
          Returned tt
            (set_nextTimer (nextTimer s + 1)%nat
              (set_timers (<[nextTimer s := p]> (timers s))
                (put_buffer p (mkBuffer (bufMessages pb) (bufInFlight pb)
                                        (Some (nextTimer s))) s)))
      end
  end.

Definition set_inFlight (p : Z) (f : bool) s : S :=
  match buffers s !! p with
  | Some pb => put_buffer p (mkBuffer (bufMessages pb) f (lingerTimer pb)) s
  | None => s
  end.

(** Assemble a batch and mark the partition in flight, under [mu]. *)
Definition assemble_in_flight (pb : partitionBuffer) (p : Z) s : outcome S (option batch) :=
  match assembleBatch pb p s with
  | Returned b s' => Returned (Some b) (set_inFlight p true s')
  | Panicked q s' => Panicked q s'
  end.

(** The critical section of [tryDispatch]: the batch to dispatch, if any. *)
Definition tryDispatch_locked (p : Z) s : outcome S (option batch) :=
  match buffers s !! p with
  | None => Returned None s
  | Some pb =>
      if bufInFlight pb || (len (bufMessages pb) =? 0) then Returned None s
      else if BatchSize cfg <=? len (bufMessages pb) then assemble_in_flight pb p s
      else match startLingerTimer p s with
           | Returned _ s' => Returned None s'
           | Panicked q s' => Panicked q s'
           end
  end.

(** The critical section of [flushPartition]. *)
Definition flushPartition_locked (p : Z) s : outcome S (option batch) :=
  match buffers s !! p with
  | None => Returned None s
  | Some pb =>
      if bufInFlight pb || (len (bufMessages pb) =? 0) then Returned None s
      else assemble_in_flight pb p s
  end.

(** ** Dispatch *)

(** [select { case d.batchCh <- b: ... default: ... }]: [true] when sent.
    A send on a closed channel panics, even in a [select] with a default. *)
Definition try_send (b : batch) s : outcome S bool :=
  if batchChClosed s then Panicked SendOnClosedChannel s
  else if len (batchCh s) <? ChannelCap cfg
  then Returned true (set_batchCh (batchCh s ++ [b]) s)
  else Returned false s.

(** The end of the default branch: the messages go back to the front of
    the buffer. *)
Definition return_batch (b : batch) s : outcome S unit :=
  match buffers s !! partition b with
  | None => Panicked NilDereference s
  | Some pb => Returned tt
      (put_buffer (partition b)
         (mkBuffer (messages b ++ bufMessages pb) false (lingerTimer pb)) s)
  end.

Definition dispatchBatch (b : batch) : P (option error) :=
  let* is_closed := gets closed in
  if is_closed : bool then Ret (Some errClosed)
  else
    let* _ := act (with_coord (BatchDispatched (partition b) (batchMaxOffset b))) in
    let* sent := act (try_send b) in
    if sent : bool then
      let* _ := modify (upd_inflight (partition b) (len (messages b))) in
      Ret None
    else
      let* _ := act (with_coord (BatchComplete (partition b) (batchMaxOffset b))) in
      let* _ := act (return_batch b) in
      Ret (Some ErrBackpressure).

Definition tryDispatch (p : Z) : P (option error) :=
  let* ob := act (tryDispatch_locked p) in
  match ob with
  | None => Ret None
  | Some b => dispatchBatch b
  end.

(** ** [Send] *)

Definition get_or_new (p : Z) s : partitionBuffer := default empty_buffer (buffers s !! p).

(** A new buffer is [make([]types.Message, 0, d.cfg.BatchSize)], which
    panics on a negative capacity. *)
Definition make_panics (p : Z) s : bool :=
  match buffers s !! p with Some _ => false | None => BatchSize cfg <? 0 end.

Definition Send_locked (p : Z) (msgs : list Message) s : outcome S (option error) :=
  if closed s then Returned (Some errClosed) s
  else if make_panics p s then Panicked IndexOutOfRange s
  else
    let pb := get_or_new p s in
    Returned None
      (put_buffer p (mkBuffer (bufMessages pb ++ msgs) (bufInFlight pb) (lingerTimer pb)) s).

Definition Send (p : Z) (msgs : list Message) : P (option error) :=
  let* err := act (Send_locked p msgs) in
  match err with
  | Some e => Ret (Some e)
  | None => tryDispatch p
  end.

(** ** Linger timers *)

Definition flushPartition (p : Z) : P unit :=
  let* ob := act (flushPartition_locked p) in
  match ob with
  | None => Ret tt
  | Some b => let* _ := dispatchBatch b in Ret tt
  end.

Definition clear_timer (p : Z) s : S :=
  match buffers s !! p with
  | Some pb => put_buffer p (mkBuffer (bufMessages pb) (bufInFlight pb) None) s
  | None => s
  end.

(** The function a linger timer runs, in a goroutine of its own. *)
Definition linger_fired (p : Z) : P unit :=
  let* _ := modify (clear_timer p) in
  flushPartition p.

(** ** Completion *)

(** The critical section of [onBatchDone]: the partitions with buffered
    messages and no batch in flight, in an unspecified order. *)
Definition pending_of s : list Z :=
  (filter (fun kv => bufInFlight kv.2 = false /\ 0 < len (bufMessages kv.2))
          (map_to_list (buffers s))).*1.

Definition onBatchDone_locked (p : Z) s : outcome S (list Z) :=
  let s' := set_inFlight p false s in Returned (pending_of s') s'.

(** Dispatch the pending partitions until one fails. *)
Fixpoint drain (pending : list Z) : P unit :=
  match pending with
  | [] => Ret tt
  | p :: ps =>
      let* err := tryDispatch p in
      match err with
      | Some _ => Ret tt
      | None => drain ps
      end
  end.

Definition onBatchDone (p : Z) : P unit :=
  let* pending := act (onBatchDone_locked p) in
  let* order := ask (Shuffle pending) in
  let* _ := modify (set_readyCh true) in
  drain (proj1_sig order).

(** ** Rebalance callbacks *)

Definition assign_one (s : S) (tp : TopicPartition) : S :=
  match buffers s !! tpPartition tp with
  | Some _ => s
  | None => put_buffer (tpPartition tp) empty_buffer s
  end.

Fixpoint assign_all (tps : list TopicPartition) s : outcome S unit :=
  match tps with
  | [] => Returned tt s
  | tp :: tps => if make_panics (tpPartition tp) s then Panicked IndexOutOfRange s
                 else assign_all tps (assign_one s tp)
  end.

Definition OnPartitionsAssigned (tps : list TopicPartition) : P unit := act (assign_all tps).

Definition revoke_one (s : S) (tp : TopicPartition) : S :=
  match buffers s !! tpPartition tp with
  | None => s
  | Some pb =>
      put_buffer (tpPartition tp) (mkBuffer [] (bufInFlight pb) None)
        (stop_timer (lingerTimer pb) s)
  end.

Definition OnPartitionsRevoked (tps : list TopicPartition) : P unit :=
  modify (fun s => foldl revoke_one s tps).

(** ** Shutdown *)

(** Stop every linger timer, close the batch channel. *)
Definition without_timer (pb : partitionBuffer) : partitionBuffer :=
  mkBuffer (bufMessages pb) (bufInFlight pb) None.

Definition Close_locked s : outcome S unit :=
  let s1 := set_closed true s in
  let stopped := omap lingerTimer (map_to_list (buffers s)).*2 in
  let s2 := set_timers (foldr delete (timers s) stopped)
              (set_buffers (without_timer <$> buffers s) s1) in
  if batchChClosed s then Panicked CloseOfClosedChannel s2
  else Returned tt (set_batchChClosed true s2).

Definition Close : P (option error) :=
  let* _ := act Close_locked in
  ask WaitWorkers.

(** ** Notification channels, as the poll loop's [select] receives them *)

Definition recv_ready s : option S :=
  if readyCh s then Some (set_readyCh false s) else None.
Definition recv_circuit s : option (circuit.State * S) :=
  match circuitStateCh s with
  | [] => None
  | st :: rest => Some (st, set_circuitStateCh rest s)
  end.
End Operations.

#[global] Arguments dispatchBatch : simpl never.
#[global] Arguments tryDispatch : simpl never.
#[global] Arguments flushPartition : simpl never.
#[global] Arguments onBatchDone : simpl never.
#[global] Arguments Send : simpl never.

(** * The functional behaviour of one call

    Lemmas on the critical sections, and what [Send] does when it runs
    without interference. *)

Section Behaviour.
Context `{Coordinator C}.
Variable cfg : Config.
Local Abbreviation S := (UnorderedDispatcher C).
Implicit Types s : S.

Definition batch_count (pb : partitionBuffer) : nat :=
  Z.to_nat (Z.min (BatchSize cfg) (len (bufMessages pb))).

(** The batch [assembleBatch] cuts from a buffer. *)
Definition cut_batch (p : Z) (pb : partitionBuffer) : batch :=
  let msgs := take (batch_count pb) (bufMessages pb) in
  mkBatch p (default 0 (Offset <$> last msgs)) msgs.

Definition rest_buffer (pb : partitionBuffer) (f : bool) : partitionBuffer :=
  mkBuffer (drop (batch_count pb) (bufMessages pb)) f None.

Lemma cut_batch_nonempty p pb :
  0 < BatchSize cfg -> bufMessages pb <> [] -> messages (cut_batch p pb) <> [].
Proof.
  intros Hb Hm. unfold cut_batch, batch_count, len. simpl. intros Ht.
  apply (f_equal length) in Ht. rewrite length_take in Ht. simpl in Ht.
  destruct (bufMessages pb); [done|]. simpl in *. lia.
Qed.

Lemma cut_batch_length p pb :
  0 < BatchSize cfg -> len (messages (cut_batch p pb)) <= BatchSize cfg.
Proof. unfold cut_batch, batch_count, len. simpl. rewrite length_take. lia. Qed.

Lemma cut_batch_max p pb :
  0 < BatchSize cfg -> bufMessages pb <> [] ->
  exists lst, last (messages (cut_batch p pb)) = Some lst /\
              batchMaxOffset (cut_batch p pb) = Offset lst.
Proof.
  intros Hb Hm. pose proof (cut_batch_nonempty p pb Hb Hm) as Hn.
  unfold cut_batch in *. simpl in *. destruct (last _) as [lst|] eqn:El; [eauto|].
  by apply last_None in El.
Qed.

Lemma cut_rest p pb f :
  messages (cut_batch p pb) ++ bufMessages (rest_buffer pb f) = bufMessages pb.
Proof. unfold cut_batch, rest_buffer. simpl. apply take_drop. Qed.

Lemma assemble_in_flight_eq p pb s :
  0 < BatchSize cfg -> bufMessages pb <> [] ->
  assemble_in_flight cfg pb p s =
    Returned (Some (cut_batch p pb))
      (stop_timer (lingerTimer pb) (put_buffer p (rest_buffer pb true) s)).
Proof.
  intros Hb Hm. destruct (cut_batch_max p pb Hb Hm) as (lst & Hl & Ho).
  unfold assemble_in_flight, assembleBatch.
  assert (Hsz : (if len (bufMessages pb) <? BatchSize cfg then len (bufMessages pb)
                 else BatchSize cfg) = Z.min (BatchSize cfg) (len (bufMessages pb)))
    by (destruct (Z.ltb_spec (len (bufMessages pb)) (BatchSize cfg)); lia).
  rewrite Hsz. pose proof (len_nonneg (bufMessages pb)).
  rewrite (proj2 (Z.ltb_ge _ _)) by lia.
  change (Z.to_nat (Z.min (BatchSize cfg) (len (bufMessages pb)))) with (batch_count pb).
  change (take (batch_count pb) (bufMessages pb)) with (messages (cut_batch p pb)).
  rewrite Hl. f_equal.
  - unfold cut_batch at 2. unfold cut_batch in Hl. simpl in Hl. by rewrite Hl.
  - unfold set_inFlight, stop_timer, put_buffer, rest_buffer.
    destruct (lingerTimer pb); simpl; rewrite lookup_insert_eq; simpl;
      unfold set_buffers, set_timers; simpl; by rewrite insert_insert_eq.
Qed.

Lemma make_ok p s : 0 < BatchSize cfg -> make_panics cfg p s = false.
Proof. intros Hb. unfold make_panics. destruct (buffers s !! p); [done|]. by apply Z.ltb_ge; lia. Qed.

Lemma assign_all_ok tps s :
  0 < BatchSize cfg -> assign_all cfg tps s = Returned tt (foldl assign_one s tps).
Proof.
  intros Hb. revert s. induction tps as [|tp tps IH]; intros s; simpl; [done|].
  by rewrite make_ok, IH.
Qed.

(** ** The sequential invariant

    A slot the coordinator holds in flight belongs to a partition the
    dispatcher holds in flight, and [closed] tells whether the channel is
    closed. *)
Record dispatcher_inv s : Prop := mkInv {
  inv_coord : coord_wf (coord s);
  inv_busy p off : slot_of (coord s) p = InFlight off ->
    exists pb, buffers s !! p = Some pb /\ bufInFlight pb = true;
  inv_closed : batchChClosed s = closed s
}.

Lemma new_dispatcher_inv c :
  coord_wf c -> (forall p off, slot_of c p <> InFlight off) ->
  dispatcher_inv (NewUnorderedDispatcher c).
Proof. intros Hc Hs. constructor; simpl; [done|naive_solver|done]. Qed.

(** ** [Send]

    The messages of a partition after [Send] appended [msgs], in flight or
    not, and the four ways the call can end. *)

Inductive Send_post (p : Z) (pb : partitionBuffer) s s' : option error -> Prop :=
| Send_buffered :
    bufInFlight pb = true \/ bufMessages pb = [] ->
    buffers s' !! p = Some pb -> batchCh s' = batchCh s ->
    slot_of (coord s') p = slot_of (coord s) p ->
    Send_post p pb s s' None
| Send_lingering i :
    bufInFlight pb = false -> 0 < len (bufMessages pb) < BatchSize cfg ->
    buffers s' !! p = Some (mkBuffer (bufMessages pb) false (Some i)) ->
    (lingerTimer pb = None -> timers s' !! i = Some p) ->
    batchCh s' = batchCh s -> slot_of (coord s') p = slot_of (coord s) p ->
    Send_post p pb s s' None
| Send_dispatched :
    bufInFlight pb = false -> BatchSize cfg <= len (bufMessages pb) ->
    len (batchCh s) < ChannelCap cfg ->
    batchCh s' = batchCh s ++ [cut_batch p pb] ->
    buffers s' !! p = Some (rest_buffer pb true) ->
    slot_of (coord s') p = InFlight (batchMaxOffset (cut_batch p pb)) ->
    Send_post p pb s s' None
| Send_refused :
    bufInFlight pb = false -> BatchSize cfg <= len (bufMessages pb) ->
    ChannelCap cfg <= len (batchCh s) ->
    batchCh s' = batchCh s ->
    buffers s' !! p = Some (mkBuffer (bufMessages pb) false None) ->
    slot_of (coord s') p = Completed (batchMaxOffset (cut_batch p pb)) ->
    Send_post p pb s s' (Some ErrBackpressure).

Lemma put_buffer_ne p q pb s : q <> p -> buffers (put_buffer p pb s) !! q = buffers s !! q.
Proof. intros Hne. unfold put_buffer. simpl. by rewrite lookup_insert_ne. Qed.

Lemma put_buffer_eq p pb s : buffers (put_buffer p pb s) !! p = Some pb.
Proof. unfold put_buffer. simpl. by rewrite lookup_insert_eq. Qed.

Lemma stop_timer_frame t s :
  coord (stop_timer t s) = coord s /\ batchCh (stop_timer t s) = batchCh s /\
  batchChClosed (stop_timer t s) = batchChClosed s /\ closed (stop_timer t s) = closed s /\
  buffers (stop_timer t s) = buffers s.
Proof. by destruct t. Qed.

Lemma dispatchBatch_sent {O} (h : handler query O) o b s c :
  closed s = false -> batchChClosed s = false -> len (batchCh s) < ChannelCap cfg ->
  BatchDispatched (partition b) (batchMaxOffset b) (coord s) = Returned tt c ->
  exec h (dispatchBatch cfg b) o s =
    (Returned None (upd_inflight (partition b) (len (messages b))
       (set_batchCh (batchCh s ++ [b]) (set_coord c s))), o).
Proof.
  intros Hc Hb Hcap Hd. unfold dispatchBatch. simpl. rewrite Hc. simpl.
  unfold with_coord. rewrite Hd. unfold try_send. simpl. rewrite Hb.
  by rewrite (proj2 (Z.ltb_lt _ _) Hcap).
Qed.

Lemma dispatchBatch_full {O} (h : handler query O) o b s c c' pb :
  closed s = false -> batchChClosed s = false -> ChannelCap cfg <= len (batchCh s) ->
  BatchDispatched (partition b) (batchMaxOffset b) (coord s) = Returned tt c ->
  BatchComplete (partition b) (batchMaxOffset b) c = Returned tt c' ->
  buffers s !! partition b = Some pb ->
  exec h (dispatchBatch cfg b) o s =
    (Returned (Some ErrBackpressure)
       (put_buffer (partition b)
         (mkBuffer (messages b ++ bufMessages pb) false (lingerTimer pb))
         (set_coord c' (set_coord c s))), o).
Proof.
  intros Hc Hb Hcap Hd Hk Hpb. unfold dispatchBatch. simpl. rewrite Hc. simpl.
  unfold with_coord. rewrite Hd. unfold try_send. simpl. rewrite Hb.
  rewrite (proj2 (Z.ltb_ge _ _) Hcap). simpl. rewrite Hk. unfold return_batch. simpl.
  by rewrite Hpb.
Qed.

(** ** [tryDispatch] alone *)

Lemma exec_tryDispatch {O} (h : handler query O) o s p :
  exec h (tryDispatch cfg p) o s =
  match tryDispatch_locked cfg p s with
  | Returned None s' => (Returned None s', o)
  | Returned (Some b) s' => exec h (dispatchBatch cfg b) o s'
  | Panicked q s' => (Panicked q s', o)
  end.
Proof.
  unfold tryDispatch. rewrite exec_act. by destruct (tryDispatch_locked cfg p s) as [[b|] s'|q s'].
Qed.

Lemma inv_not_busy s p pb :
  dispatcher_inv s -> buffers s !! p = Some pb -> bufInFlight pb = false ->
  slot_busy (slot_of (coord s) p) = false.
Proof.
  intros Hi Hp Hf. destruct (slot_of (coord s) p) eqn:Es; [done| |done].
  destruct (inv_busy s Hi p _ Es) as (pb' & Hp' & Hf'). naive_solver.
Qed.

Lemma inv_change_coord s s' p c pb :
  dispatcher_inv s -> coord s' = c -> coord_wf c ->
  (forall q, q <> p -> slot_of c q = slot_of (coord s) q) ->
  (forall q, q <> p -> buffers s' !! q = buffers s !! q) ->
  buffers s' !! p = Some pb ->
  (slot_busy (slot_of c p) = true -> bufInFlight pb = true) ->
  batchChClosed s' = closed s' -> dispatcher_inv s'.
Proof.
  intros Hi <- Hwf Hslot Hbuf Hp Hfl Hcl. constructor; [done| |done].
  intros q off Hq. destruct (decide (q = p)) as [->|Hne].
  - exists pb. split; [done|]. apply Hfl. by rewrite Hq.
  - rewrite Hslot in Hq by done. rewrite Hbuf by done. exact (inv_busy s Hi q off Hq).
Qed.

(** What a call on [p] leaves alone. *)
Definition frame_except (p : Z) s s' : Prop :=
  forall q, q <> p -> buffers s' !! q = buffers s !! q /\
                      slot_of (coord s') q = slot_of (coord s) q.

(** The critical section, when a full batch is ready. *)
Lemma tryDispatch_locked_full s p pb :
  0 < BatchSize cfg -> buffers s !! p = Some pb -> bufInFlight pb = false ->
  BatchSize cfg <= len (bufMessages pb) ->
  exists s1, tryDispatch_locked cfg p s = Returned (Some (cut_batch p pb)) s1 /\
    coord s1 = coord s /\ batchCh s1 = batchCh s /\ batchChClosed s1 = batchChClosed s /\
    closed s1 = closed s /\ buffers s1 = <[p := rest_buffer pb true]> (buffers s).
Proof.
  intros Hbs Hp Hf Hlen.
  assert (Hne : bufMessages pb <> []) by (intros E; rewrite E in Hlen; unfold len in Hlen; simpl in Hlen; lia).
  exists (stop_timer (lingerTimer pb) (put_buffer p (rest_buffer pb true) s)). split.
  - unfold tryDispatch_locked. rewrite Hp, Hf. simpl.
    rewrite (proj2 (Z.eqb_neq _ 0)) by lia. rewrite (proj2 (Z.leb_le _ _) Hlen).
    by apply assemble_in_flight_eq.
  - apply (stop_timer_frame (lingerTimer pb) (put_buffer p (rest_buffer pb true) s)).
Qed.

Lemma tryDispatch_full_spec {O} (h : handler query O) o s p pb :
  0 < BatchSize cfg -> dispatcher_inv s -> closed s = false ->
  buffers s !! p = Some pb -> bufInFlight pb = false ->
  BatchSize cfg <= len (bufMessages pb) ->
  exists r s', exec h (tryDispatch cfg p) o s = (Returned r s', o) /\
    Send_post p pb s s' r /\ dispatcher_inv s' /\ frame_except p s s'.
Proof.
  intros Hbs Hi Hcl Hp Hf Hlen.
  destruct (tryDispatch_locked_full s p pb Hbs Hp Hf Hlen)
    as (s1 & Hlock & Hco & Hch & Hbc & Hc1 & Hbu).
  assert (Hbc' : batchChClosed s1 = false) by (rewrite Hbc, (inv_closed s Hi); done).
  set (b := cut_batch p pb) in *.
  destruct (dispatched_returns (coord s1) p (batchMaxOffset b)) as (c & Hd & Hwf & Hsl);
    [rewrite Hco; apply Hi | rewrite Hco; by eapply inv_not_busy|].
  rewrite exec_tryDispatch, Hlock.
  destruct (Z.lt_ge_cases (len (batchCh s1)) (ChannelCap cfg)) as [Hcap|Hcap].
  - rewrite (dispatchBatch_sent h o b s1 c) by (done || congruence).
    eexists _, _. split; [done|]. split.
    { apply Send_dispatched; simpl; try done; try congruence; try lia.
      - by rewrite Hch.
      - rewrite Hbu. by rewrite lookup_insert_eq.
      - rewrite Hsl. by rewrite decide_True. }
    split.
    { apply (inv_change_coord s _ p c (rest_buffer pb true)); simpl; try done; try congruence.
      - intros q Hq. rewrite Hsl, decide_False by done. by rewrite Hco.
      - intros q Hq. rewrite Hbu. by rewrite lookup_insert_ne.
      - rewrite Hbu. by rewrite lookup_insert_eq. }
    intros q Hq. simpl. rewrite Hbu, lookup_insert_ne, Hsl, decide_False, Hco by done. done.
  - destruct (complete_returns c p (batchMaxOffset b)) as (c' & Hk & Hwf' & Hsl');
      [done| by rewrite Hsl, decide_True|].
    rewrite (dispatchBatch_full h o b s1 c c' (rest_buffer pb true))
      by (done || congruence || (rewrite Hbu; by rewrite lookup_insert_eq)).
    assert (Hcat : messages b ++ bufMessages (rest_buffer pb true) = bufMessages pb)
      by apply cut_rest.
    eexists _, _. split; [done|]. split.
    { apply Send_refused; simpl; try done; try congruence; try lia.
      - rewrite lookup_insert_eq. do 2 f_equal. exact Hcat.
      - rewrite Hsl'. by rewrite decide_True. }
    split.
    { eapply (inv_change_coord s _ p c'); simpl; try done; try congruence.
      - intros q Hq. rewrite Hsl', decide_False, Hsl, decide_False by done. by rewrite Hco.
      - intros q Hq. rewrite lookup_insert_ne, Hbu, lookup_insert_ne by done. done.
      - by rewrite lookup_insert_eq.
      - rewrite Hsl', decide_True by done. done. }
    intros q Hq. simpl.
    rewrite lookup_insert_ne, Hbu, lookup_insert_ne, Hsl', decide_False, Hsl, decide_False, Hco
      by done. done.
Qed.

Lemma inv_same_coord s s' p pb pb' :
  dispatcher_inv s -> coord s' = coord s -> buffers s !! p = Some pb ->
  buffers s' = <[p := pb']> (buffers s) -> bufInFlight pb' = bufInFlight pb ->
  batchChClosed s' = batchChClosed s -> closed s' = closed s -> dispatcher_inv s'.
Proof.
  intros Hi Hc Hp Hb Hf Hbc Hcl. apply (inv_change_coord s s' p (coord s) pb'); auto.
  - apply Hi.
  - intros q Hq. by rewrite Hb, lookup_insert_ne.
  - by rewrite Hb, lookup_insert_eq.
  - intros Hbusy. destruct (slot_of (coord s) p) eqn:Es; try done.
    destruct (inv_busy s Hi p _ Es) as (pb0 & Hp0 & Hf0). naive_solver.
  - by rewrite Hbc, Hcl, (inv_closed s Hi).
Qed.

Lemma startLingerTimer_spec s p pb :
  buffers s !! p = Some pb ->
  exists i s', startLingerTimer p s = Returned tt s' /\ coord s' = coord s /\
    buffers s' = <[p := mkBuffer (bufMessages pb) (bufInFlight pb) (Some i)]> (buffers s) /\
    batchCh s' = batchCh s /\ batchChClosed s' = batchChClosed s /\ closed s' = closed s /\
    (lingerTimer pb = None -> timers s' !! i = Some p).
Proof.
  intros Hp. unfold startLingerTimer. rewrite Hp. destruct (lingerTimer pb) as [i|] eqn:Et.
  - exists i, s. split_and!; try done. rewrite insert_id; [done|].
    rewrite Hp. destruct pb; simpl in *; congruence.
  - exists (nextTimer s). eexists. split_and!; try done. intros _. simpl.
    by rewrite lookup_insert_eq.
Qed.

Lemma tryDispatch_spec {O} (h : handler query O) o s p pb :
  0 < BatchSize cfg -> dispatcher_inv s -> closed s = false ->
  buffers s !! p = Some pb ->
  exists r s', exec h (tryDispatch cfg p) o s = (Returned r s', o) /\
    Send_post p pb s s' r /\ dispatcher_inv s' /\ frame_except p s s'.
Proof.
  intros Hbs Hi Hcl Hp. pose proof (len_nonneg (bufMessages pb)) as Hn.
  destruct (bufInFlight pb) eqn:Ef; [|destruct (Z.eqb_spec (len (bufMessages pb)) 0) as [El|El]].
  - exists None, s. rewrite exec_tryDispatch; unfold tryDispatch_locked; rewrite Hp, Ef. simpl.
    split_and!; [done| |done|done]. apply Send_buffered; auto.
  - exists None, s. rewrite exec_tryDispatch; unfold tryDispatch_locked; rewrite Hp, Ef, El. simpl.
    split_and!; [done| |done|done]. apply Send_buffered; auto using len_nil_inv.
  - destruct (Z.le_gt_cases (BatchSize cfg) (len (bufMessages pb))) as [Hge|Hlt].
    { by apply tryDispatch_full_spec. }
    destruct (startLingerTimer_spec s p pb Hp) as (i & s' & Hst & Hc & Hb & Hch & Hbc & Hc1 & Ht).
    exists None, s'. rewrite exec_tryDispatch; unfold tryDispatch_locked; rewrite Hp, Ef. simpl.
    rewrite (proj2 (Z.eqb_neq _ _) El), (proj2 (Z.leb_gt _ _) Hlt), Hst. simpl.
    split_and!; [done| | |].
    + apply (Send_lingering _ _ _ _ i); try done; try lia; [|by rewrite Hc].
      rewrite Hb, lookup_insert_eq. by rewrite Ef.
    + by apply (inv_same_coord s s' p pb (mkBuffer (bufMessages pb) (bufInFlight pb) (Some i))).
    + intros q Hq. by rewrite Hb, lookup_insert_ne, Hc.
Qed.

(** The buffer [Send] works on, once [msgs] are appended. *)
Definition appended (p : Z) (msgs : list Message) s : partitionBuffer :=
  let pb := get_or_new p s in
  mkBuffer (bufMessages pb ++ msgs) (bufInFlight pb) (lingerTimer pb).

Lemma inv_append s p msgs :
  dispatcher_inv s -> dispatcher_inv (put_buffer p (appended p msgs s) s).
Proof.
  intros Hi. destruct (buffers s !! p) as [pb|] eqn:Hp.
  - apply (inv_same_coord s _ p pb (appended p msgs s)); try done.
    unfold appended, get_or_new. by rewrite Hp.
  - constructor; simpl; [apply Hi| |apply Hi].
    intros q off Hq. destruct (inv_busy s Hi q off Hq) as (pb & Hpb & Hf).
    assert (q <> p) by congruence. rewrite lookup_insert_ne by done. eauto.
Qed.

Lemma Send_spec_aux {O} (h : handler query O) o s p msgs :
  0 < BatchSize cfg -> dispatcher_inv s -> closed s = false ->
  exists r s', exec h (Send cfg p msgs) o s = (Returned r s', o) /\
    Send_post p (appended p msgs s) s s' r /\ dispatcher_inv s' /\ frame_except p s s'.
Proof.
  intros Hbs Hi Hcl. set (s1 := put_buffer p (appended p msgs s) s).
  assert (Hrun : exec h (Send cfg p msgs) o s = exec h (tryDispatch cfg p) o s1).
  { unfold Send. rewrite exec_act. unfold Send_locked. by rewrite Hcl, make_ok. }
  destruct (tryDispatch_spec h o s1 p (appended p msgs s)) as (r & s' & Hx & Hpost & Hi' & Hfr);
    [done | by apply inv_append | done | apply put_buffer_eq |].
  exists r, s'. rewrite Hrun. split_and!; [done| |done|].
  - destruct Hpost; [eapply Send_buffered|eapply Send_lingering|eapply Send_dispatched
                    |eapply Send_refused]; eauto.
  - intros q Hq. destruct (Hfr q Hq) as [-> ->]. unfold s1. split; [by apply put_buffer_ne|done].
Qed.

Lemma Send_closed_spec {O} (h : handler query O) o s p msgs :
  closed s = true -> exec h (Send cfg p msgs) o s = (Returned (Some errClosed) s, o).
Proof. intros Hc. unfold Send. rewrite exec_act. unfold Send_locked. by rewrite Hc. Qed.

(** ** Properties of [Send] *)

(** C15. [Send] on every branch.  On an open dispatcher it never panics; it
    appends the messages to the partition's buffer and then either leaves
    them there (a batch is in flight, or nothing to send), arms the linger
    timer (fewer than [BatchSize]), hands the first [BatchSize] messages to
    the workers (a free slot), or returns [ErrBackpressure] (channel full)
    with every message back in the buffer, in order.  The other partitions
    are untouched.  A closed dispatcher refuses without any effect. *)
Theorem Send_spec {O} (h : handler query O) o s p msgs :
  0 < BatchSize cfg -> dispatcher_inv s ->
  if closed s
  then exec h (Send cfg p msgs) o s = (Returned (Some errClosed) s, o)
  else exists r s', exec h (Send cfg p msgs) o s = (Returned r s', o) /\
         Send_post p (appended p msgs s) s s' r /\ dispatcher_inv s' /\ frame_except p s s'.
Proof.
  intros Hbs Hi. destruct (closed s) eqn:Ec.
  - by apply Send_closed_spec.
  - by apply Send_spec_aux.
Qed.

(** No message is lost, duplicated or reordered by [Send]: the batches
    it put on the channel, followed by what the buffer holds afterwards,
    are the buffered messages followed by the new ones; each batch is of
    that partition, non-empty, at most [BatchSize] long, and its offset is
    that of its last message. *)
Theorem Send_conserves {O} (h : handler query O) o s p msgs :
  0 < BatchSize cfg -> dispatcher_inv s -> closed s = false ->
  exists r s' new, exec h (Send cfg p msgs) o s = (Returned r s', o) /\
    batchCh s' = batchCh s ++ new /\
    concat (messages <$> new) ++ bufMessages (get_or_new p s') =
      bufMessages (get_or_new p s) ++ msgs /\
    (forall b, b ∈ new -> partition b = p /\ messages b <> [] /\
       len (messages b) <= BatchSize cfg /\
       Offset <$> last (messages b) = Some (batchMaxOffset b)).
Proof.
  intros Hbs Hi Hcl. destruct (Send_spec_aux h o s p msgs Hbs Hi Hcl)
    as (r & s' & Hx & Hpost & _).
  exists r, s'. unfold get_or_new at 1. unfold appended in Hpost.
  destruct Hpost as [? Hb Hc|i ? ? Hb ? Hc|Hf Hge Hcap Hc Hb|? ? ? Hc Hb];
    [exists []|exists []|eexists [_]|exists []]; rewrite Hb; simpl;
    try (split_and!; [done | by rewrite app_nil_r | done | intros b Hin; by apply not_elem_of_nil in Hin]).
  set (pb := mkBuffer (bufMessages (get_or_new p s) ++ msgs)
               (bufInFlight (get_or_new p s)) (lingerTimer (get_or_new p s))) in *.
  split_and!; [done | exact Hc | |].
  - rewrite app_nil_r. apply (cut_rest p pb true).
  - intros b ->%list_elem_of_singleton.
    assert (Hne : bufMessages pb <> [])
      by (intros E; rewrite E in Hge; unfold len in Hge; simpl in Hge; lia).
    destruct (cut_batch_max p pb Hbs Hne) as (lst & Hl & Ho).
    split_and!; [done | by apply cut_batch_nonempty | by apply cut_batch_length |].
    change (Offset <$> last (messages (cut_batch p pb)) =
            Some (batchMaxOffset (cut_batch p pb))).
    by rewrite Hl, Ho.
Qed.

(** Backpressure is signalled exactly when it must: [Send] returns
    [ErrBackpressure] if and only if a full batch is ready for an idle
    partition and the channel has no free slot, and the channel never
    outgrows its capacity. *)
Theorem Send_backpressure {O} (h : handler query O) o s p msgs :
  0 < BatchSize cfg -> dispatcher_inv s -> closed s = false ->
  len (batchCh s) <= ChannelCap cfg ->
  exists r s', exec h (Send cfg p msgs) o s = (Returned r s', o) /\
    len (batchCh s') <= ChannelCap cfg /\
    (r = Some ErrBackpressure <->
       bufInFlight (get_or_new p s) = false /\
       BatchSize cfg <= len (bufMessages (get_or_new p s) ++ msgs) /\
       ChannelCap cfg <= len (batchCh s)).
Proof.
  intros Hbs Hi Hcl Hcap. destruct (Send_spec_aux h o s p msgs Hbs Hi Hcl)
    as (r & s' & Hx & Hpost & _).
  exists r, s'. split; [done|]. unfold appended in Hpost.
  destruct Hpost as [Hor Hb Hc|i Hf Hlt Hb ? Hc|Hf Hge Hlt Hc Hb|Hf Hge Hge' Hc Hb];
    simpl in *; rewrite Hc, ?len_app; (split; [unfold len in *; simpl; lia|]).
  - split; [done|]. intros (Hf & Hl & _). destruct Hor as [?|E]; [congruence|].
    apply (f_equal len) in E. rewrite len_app in E.
    change (len (@nil Message)) with 0 in E. lia.
  - split; [done|]. intros (_ & Hl & _). rewrite len_app in Hlt. lia.
  - split; [done|]. lia.
  - split; [|done]. rewrite len_app in Hge. done.
Qed.

(** C25. A refused dispatch is reported as committable.  When [Send] returns
    [ErrBackpressure] every message is still in the buffer, unprocessed,
    and yet the coordinator reports as committable the offset after the
    first [BatchSize] of them: [dispatchBatch] undoes the dispatch with
    [BatchComplete]. *)
Theorem backpressure_commits_unprocessed {O} (h : handler query O) o s s' o' p msgs :
  0 < BatchSize cfg -> dispatcher_inv s -> closed s = false ->
  exec h (Send cfg p msgs) o s = (Returned (Some ErrBackpressure) s', o') ->
  bufMessages (get_or_new p s') = bufMessages (get_or_new p s) ++ msgs /\
  bufInFlight (get_or_new p s') = false /\
  exists lst, last (take (Z.to_nat (BatchSize cfg)) (bufMessages (get_or_new p s'))) = Some lst /\
    Committable (coord s') !! p = Some (wrap64 (Offset lst + 1)).
Proof.
  intros Hbs Hi Hcl Hx. destruct (Send_spec_aux h o s p msgs Hbs Hi Hcl)
    as (r & s1 & Hx1 & Hpost & Hi1 & _).
  rewrite Hx1 in Hx. simplify_eq. unfold appended in Hpost. inversion Hpost; subst.
  simpl in *.
  set (pb := mkBuffer (bufMessages (get_or_new p s) ++ msgs)
               (bufInFlight (get_or_new p s)) (lingerTimer (get_or_new p s))) in *.
  assert (Hne : bufMessages pb <> [])
    by (intros E; simpl in E; rewrite E in *; unfold len in *; simpl in *; lia).
  destruct (cut_batch_max p pb Hbs Hne) as (lst & Hl & Ho).
  match goal with Hb : buffers s' !! p = _ |- _ =>
    unfold get_or_new at 1 3 4; rewrite Hb end.
  simpl. split_and!; [done|done|]. exists lst.
  assert (Hcount : batch_count pb = Z.to_nat (BatchSize cfg))
    by (unfold batch_count; f_equal; unfold pb; simpl; lia).
  rewrite <- Hcount. split; [exact Hl|].
  rewrite committable_lookup by apply Hi1.
  match goal with Hs : slot_of (coord s') p = _ |- _ => rewrite Hs end.
  simpl. by rewrite <- Ho.
Qed.
End Behaviour.

(** * Witnesses

    A dispatcher with one free channel slot and batches of two, run against
    an environment where everything succeeds at once. *)

Lemma zero_lt_2_53 : 0 <= 0 < 2 ^ 53.
Proof. lia. Qed.

Definition calm {O} : handler query O := fun X e o =>
  (match e in query X return X with
   | Shuffle l => exist _ l (Permutation_refl l)
   | Sleep _ => None
   | Execute _ => ([], ProcessorReturned None)
   | BreakerState => ([], StateClosed)
   | ProduceDLQ _ _ => None
   | Now => 0
   | RandFloat64 => exist _ 0 zero_lt_2_53
   | WaitWorkers => None
   end, o).

Definition demo_cfg : Config :=
  mkConfig 1 1 2 (100 * Millisecond) 3 3 float_0_6 (30 * Second) 1 (60 * Second).
Definition demo_msg (p o : Z) : Message := mkMessage "events" p o None None 0 [] 0.
Definition demo_new : UnorderedDispatcher coordinator := NewUnorderedDispatcher NewCoordinator.
Definition demo_full : UnorderedDispatcher coordinator :=
  final (exec calm (Send demo_cfg 0 [demo_msg 0 10; demo_msg 0 11]) tt demo_new).

Lemma demo_new_inv : dispatcher_inv demo_new.
Proof. apply new_dispatcher_inv; [apply NewCoordinator_wf|done]. Qed.

Lemma demo_full_inv : dispatcher_inv demo_full.
Proof.
  destruct (Send_spec_aux demo_cfg (@calm unit) tt demo_new 0 [demo_msg 0 10; demo_msg 0 11])
    as (r & s' & Hx & _ & Hi & _); [done | apply demo_new_inv | done |].
  unfold demo_full. by rewrite Hx.
Qed.

Lemma Send_spec_witness :
  exists r s', exec calm (Send demo_cfg 7 [demo_msg 7 3]) tt demo_new = (Returned r s', tt) /\
    Send_post demo_cfg 7 (appended 7 [demo_msg 7 3] demo_new) demo_new s' r /\
    dispatcher_inv s' /\ frame_except 7 demo_new s'.
Proof.
  exact (Send_spec demo_cfg calm tt demo_new 7 [demo_msg 7 3] eq_refl demo_new_inv).
Defined.

Lemma Send_conserves_witness :
  exists r s' new,
    exec calm (Send demo_cfg 0 [demo_msg 0 1; demo_msg 0 2; demo_msg 0 3]) tt demo_new
      = (Returned r s', tt) /\
    batchCh s' = batchCh demo_new ++ new /\
    concat (messages <$> new) ++ bufMessages (get_or_new 0 s') =
      bufMessages (get_or_new 0 demo_new) ++ [demo_msg 0 1; demo_msg 0 2; demo_msg 0 3] /\
    (forall b, b ∈ new -> partition b = 0 /\ messages b <> [] /\
       len (messages b) <= BatchSize demo_cfg /\
       Offset <$> last (messages b) = Some (batchMaxOffset b)).
Proof.
  exact (Send_conserves demo_cfg calm tt demo_new 0 _ eq_refl demo_new_inv eq_refl).
Defined.

Lemma Send_backpressure_witness :
  exists r s', exec calm (Send demo_cfg 1 [demo_msg 1 5; demo_msg 1 6]) tt demo_full
      = (Returned r s', tt) /\
    len (batchCh s') <= ChannelCap demo_cfg /\
    (r = Some ErrBackpressure <->
       bufInFlight (get_or_new 1 demo_full) = false /\
       BatchSize demo_cfg <= len (bufMessages (get_or_new 1 demo_full) ++ [demo_msg 1 5; demo_msg 1 6]) /\
       ChannelCap demo_cfg <= len (batchCh demo_full)).
Proof.
  apply (Send_backpressure demo_cfg calm tt demo_full 1 [demo_msg 1 5; demo_msg 1 6]).
  - reflexivity.
  - exact demo_full_inv.
  - reflexivity.
  - vm_compute. discriminate.
Defined.

Lemma backpressure_commits_unprocessed_witness :
  exists s', exec calm (Send demo_cfg 1 [demo_msg 1 5; demo_msg 1 6]) tt demo_full
      = (Returned (Some ErrBackpressure) s', tt) /\
    bufMessages (get_or_new 1 s') = [demo_msg 1 5; demo_msg 1 6] /\
    bufInFlight (get_or_new 1 s') = false /\
    exists lst, last (take (Z.to_nat (BatchSize demo_cfg)) (bufMessages (get_or_new 1 s'))) = Some lst /\
      Committable (coord s') !! 1 = Some (wrap64 (Offset lst + 1)).
Proof.
  eexists. split; [vm_compute; reflexivity|].
  apply (backpressure_commits_unprocessed demo_cfg calm tt demo_full _ tt 1
           [demo_msg 1 5; demo_msg 1 6]).
  - reflexivity.
  - exact demo_full_inv.
  - reflexivity.
  - vm_compute. reflexivity.
Defined.
