(* ===== verification/Retry.v ===== *)
(** Retry delays: the exponential backoff with jitter of
    [internal/dispatcher/retry.go], computed on [float64] in the code and
    here on integers scaled by a power of two, with the rounding of each
    floating-point operation. *)
From S2P Require Import Prelude Types Dispatcher.

Definition retryBaseDelay : Z := 100 * Millisecond.
Definition retryMaxDelay : Z := 30 * Second.

(** Round a non-negative integer to the nearest multiple of a power of two
    with 53 significant bits, ties to even: the value of a [float64]
    operation whose exact result, scaled, is [x]. *)
Definition round53 (x : Z) : Z :=
  if x <? 2 ^ 53 then x
  else
    let s := Z.log2 x - 52 in
    let q := x / 2 ^ s in
    let r := x mod 2 ^ s in
    if (r <? 2 ^ (s - 1)) || ((r =? 2 ^ (s - 1)) && Z.even q) then q * 2 ^ s
    else (q + 1) * 2 ^ s.

(** The delay before jitter.  For [attempt >= 0] every [float64] of it is
    exact: [retryBaseDelay] is below [2^27], the product is by a power of two,
    and a product too large to be finite is above the cap as well. *)
Definition base_delay (attempt : Z) : Z :=
  Z.min (retryBaseDelay * 2 ^ attempt) retryMaxDelay.

(** [backoff], in nanoseconds, for [rand.Float64()] equal to [k / 2^53].
    [delay * jitterFactor] is exact, its product with the random number and
    the sum are rounded, the conversion to [time.Duration] truncates. *)
Definition backoff (attempt k : Z) : Z :=
  let delay := base_delay attempt in
  let jitter := round53 (delay * k) in           (* in units of 2^-54 *)
  round53 (delay * 2 ^ 54 + jitter) / 2 ^ 54.

(** * Rounding *)

(** A number with at most 53 significant bits. *)
Definition float_exact (x : Z) : Prop :=
  exists c e, 0 <= c < 2 ^ 53 /\ 0 <= e /\ x = c * 2 ^ e.

Lemma round53_split x :
  2 ^ 53 <= x ->
  let s := Z.log2 x - 52 in
  1 <= s /\ 2 ^ 52 <= x / 2 ^ s /\ 2 ^ (52 + s) <= x /\
  0 <= x mod 2 ^ s < 2 ^ s /\ x = 2 ^ s * (x / 2 ^ s) + x mod 2 ^ s.
Proof.
  intros Hx s. assert (Hl : 53 <= Z.log2 x).
  { change 53 with (Z.log2 (2 ^ 53)). by apply Z.log2_le_mono. }
  assert (Hs : 1 <= s) by (unfold s; lia).
  assert (Hp : 2 ^ (52 + s) <= x).
  { replace (52 + s) with (Z.log2 x) by (unfold s; lia). apply Z.log2_spec. lia. }
  assert (H2 : 0 < 2 ^ s) by (apply Z.pow_pos_nonneg; lia).
  split_and!; try done.
  - apply Z.div_le_lower_bound; [done|]. rewrite Z.mul_comm, <- Z.pow_add_r; lia.
  - apply Z.mod_pos_bound. lia.
  - apply Z.mod_pos_bound. lia.
  - apply Z.div_mod. lia.
Qed.

Lemma float_exact_multiple m s :
  float_exact m -> 1 <= s -> 2 ^ (52 + s) <= m -> exists t, m = t * 2 ^ s.
Proof.
  intros (c & e & Hc & He & ->) Hs Hm. exists (c * 2 ^ (e - s)).
  destruct (Z.lt_ge_cases e s) as [Hlt|Hge].
  - exfalso. assert (2 ^ e <= 2 ^ (s - 1)) by (apply Z.pow_le_mono_r; lia).
    assert (E : 2 ^ (52 + s) = 2 ^ 53 * 2 ^ (s - 1)) by (rewrite <- Z.pow_add_r by lia; f_equal; lia).
    assert (0 < 2 ^ (s - 1)) by (apply Z.pow_pos_nonneg; lia). nia.
  - rewrite <- Z.mul_assoc, <- Z.pow_add_r by lia. do 2 f_equal. lia.
Qed.

(** Rounding does not cross a representable number. *)
Lemma round53_le x m : 0 <= x <= m -> float_exact m -> round53 x <= m.
Proof.
  intros Hx Hm. unfold round53. destruct (Z.ltb_spec x (2 ^ 53)) as [|Hge]; [lia|].
  destruct (round53_split x Hge) as (Hs & Hq & Hp & Hr & Hdiv).
  set (s := Z.log2 x - 52) in *. set (q := x / 2 ^ s) in *. set (r := x mod 2 ^ s) in *.
  destruct (float_exact_multiple m s Hm Hs ltac:(lia)) as [t Ht].
  assert (0 < 2 ^ (s - 1)) by (apply Z.pow_pos_nonneg; lia).
  destruct ((r <? 2 ^ (s - 1)) || _) eqn:E; [nia|].
  apply orb_false_iff in E as [E _]. zbool.
  assert (q < t) by nia. nia.
Qed.

Lemma round53_ge x m : 0 <= m <= x -> float_exact m -> m <= round53 x.
Proof.
  intros Hx Hm. unfold round53. destruct (Z.ltb_spec x (2 ^ 53)) as [|Hge]; [lia|].
  destruct (round53_split x Hge) as (Hs & Hq & Hp & Hr & Hdiv).
  set (s := Z.log2 x - 52) in *. set (q := x / 2 ^ s) in *. set (r := x mod 2 ^ s) in *.
  assert (Hm' : m <= q * 2 ^ s).
  { destruct (Z.lt_ge_cases m (2 ^ (52 + s))) as [Hlt|Hge'].
    - rewrite Z.pow_add_r in Hlt by lia. nia.
    - destruct (float_exact_multiple m s Hm Hs Hge') as [t Ht].
      assert (t <= q) by nia. nia. }
  assert (0 < 2 ^ s) by (apply Z.pow_pos_nonneg; lia).
  destruct ((r <? 2 ^ (s - 1)) || _); nia.
Qed.

Lemma base_delay_range a : 0 <= a -> retryBaseDelay <= base_delay a <= retryMaxDelay.
Proof.
  intros Ha. unfold base_delay. assert (1 <= 2 ^ a) by (pose proof (Z.pow_pos_nonneg 2 a); lia).
  unfold retryBaseDelay, retryMaxDelay, Millisecond, Second in *. lia.
Qed.

(** * Properties *)

(** C32. Every delay is between [min(100ms * 2^attempt, 30s)] and one and a
    half times it, for every attempt and whatever the random jitter ([k] over
    2^53), rounding included; in particular it is at least 100ms and at most
    45s. *)
Theorem backoff_bounds (a k : Z) :
  0 <= a -> 0 <= k < 2 ^ 53 ->
  let shortest := Z.min (100 * Millisecond * 2 ^ a) (30 * Second) in
  shortest <= backoff a k <= shortest + shortest / 2 /\
  100 * Millisecond <= backoff a k <= 45 * Second.
Proof.
  intros Ha Hk. cbv zeta. change (Z.min _ _) with (base_delay a). pose proof (base_delay_range a Ha) as Hd.
  unfold retryBaseDelay, retryMaxDelay, Millisecond, Second in *.
  unfold backoff. set (d := base_delay a) in *.
  assert (Hj : 0 <= round53 (d * k) <= d * 2 ^ 53).
  { split.
    - apply round53_ge; [nia|]. exists 0, 0. lia.
    - apply round53_le; [nia|]. exists d, 53. lia. }
  set (j := round53 (d * k)) in *.
  assert (Hlo : d * 2 ^ 54 <= round53 (d * 2 ^ 54 + j)).
  { apply round53_ge; [lia|]. exists d, 54. lia. }
  assert (Hhi : round53 (d * 2 ^ 54 + j) <= 3 * d * 2 ^ 53).
  { apply round53_le; [lia|]. exists (3 * d), 53. lia. }
  set (x := round53 (d * 2 ^ 54 + j)) in *.
  assert (d <= x / 2 ^ 54) by (apply Z.div_le_lower_bound; lia).
  assert (x / 2 ^ 54 <= d + d / 2).
  { assert (x / 2 ^ 54 < d + d / 2 + 1); [|lia].
    apply Z.div_lt_upper_bound; [lia|]. pose proof (Z.div_mod d 2). 
    pose proof (Z.mod_pos_bound d 2). lia. }
  assert (d / 2 <= 15000000000) by (apply Z.div_le_upper_bound; lia).
  lia.
Qed.

Lemma backoff_bounds_witness :
  800 * Millisecond <= backoff 3 (2 ^ 52) <= 1200 * Millisecond /\
  100 * Millisecond <= backoff 3 (2 ^ 52) <= 45 * Second.
Proof. apply (backoff_bounds 3 (2 ^ 52)); lia. Defined.

(** The backoff grows exponentially and then stays at the cap: without
    jitter the delay of the next attempt is twice this one's, until the ninth
    retry, from which on it is 30s. *)
Theorem base_delay_doubles (a : Z) :
  0 <= a ->
  base_delay (a + 1) = Z.min (2 * base_delay a) retryMaxDelay /\
  (9 <= a -> base_delay a = retryMaxDelay).
Proof.
  intros Ha. unfold base_delay. rewrite Z.pow_add_r by lia.
  unfold retryBaseDelay, retryMaxDelay, Millisecond, Second. split; [lia|].
  intros H9. assert (2 ^ 9 <= 2 ^ a) by (apply Z.pow_le_mono_r; lia). lia.
Qed.

Lemma base_delay_doubles_witness :
  base_delay (4 + 1) = Z.min (2 * base_delay 4) retryMaxDelay /\
  (9 <= 4 -> base_delay 4 = retryMaxDelay).
Proof. apply (base_delay_doubles 4). lia. Defined.

(** The jitter is added after the cap: the delay of the tenth retry can
    exceed [retryMaxDelay], by up to half of it. *)
Theorem backoff_exceeds_cap : backoff 9 (2 ^ 53 - 1) = 45 * Second /\
  retryMaxDelay < backoff 9 (2 ^ 53 - 1).
Proof. split; vm_compute; reflexivity. Qed.
