(* ===== verification/Worker.v ===== *)
(** The workers: how a batch is processed, retried, held while the circuit
    is open, routed to the dead letter queue and completed
    ([processBatch], [holdUntilCircuitCloses], [sendToDLQ],
    [recordBatchMetrics], [onBatchDone]'s callers and [worker] of
    [internal/dispatcher/unordered.go]), and the circuit breaker callbacks. *)
From S2P Require Import Prelude Types OffsetCoordinator Dispatcher Retry.

(** * Circuit breaker callbacks

    The breaker itself is a third-party library: its decisions are answers of
    the environment.  The two callbacks the dispatcher hands to it are code
    of the dispatcher. *)

(** [ReadyToTrip], on the request and failure counts (both [uint32]). *)
Definition ReadyToTrip (cfg : Config) (requests totalFailures : Z) : bool :=
  if requests <? uint32 (CBMinRequests cfg) then false
  else
    let failureRate := SFdiv 53 1024 (float64 totalFailures) (float64 requests) in
    SFleb (CBFailureThreshold cfg) failureRate.

Section Worker.
Context `{Coordinator C}.
Variable cfg : Config.
Variable hasDLQ : bool.           (* d.dlqProducer != nil *)
Local Abbreviation S := (UnorderedDispatcher C).
Local Abbreviation P := (prog query S).
Implicit Types s : S.

(** [OnStateChange]: the gauge, and a non-blocking send on the channel of
    capacity 3. *)
Definition OnStateChange (to : gobreakerState) s : S :=
  let newState := gobreakerStateToCircuit to in
  let s' := upd_breaker newState s in
  if len (circuitStateCh s') <? 3
  then set_circuitStateCh (circuitStateCh s' ++ [newState]) s' else s'.

Fixpoint notify (tos : list gobreakerState) : P unit :=
  match tos with
  | [] => Ret tt
  | to :: tos => let* _ := modify (OnStateChange to) in notify tos
  end.

(** * Processing *)

(** The closure given to [cb.Execute], on the processor's error: the result
    (a [nonRetryableWrapper]) and the error the breaker counts. *)
Definition request (err : option error) : option error * option error :=
  match err with
  | Some e => if IsNonRetryable e then (Some e, None) else (None, Some e)
  | None => (None, None)
  end.

(** [d.cb.Execute]: the wrapper and [cbErr]. *)
Definition execute (b : batch) : P (option error * option error) :=
  let* ans := ask (Execute (messages b)) in
  let* _ := notify ans.1 in
  match ans.2 with
  | Rejected RejectOpen => Ret (None, Some ErrOpenState)
  | Rejected RejectTooMany => Ret (None, Some ErrTooManyRequests)
  | ProcessorReturned err => Ret (request err)
  | ProcessorPanicked msg => Throw (UserPanic msg)
  end.

Definition breaker_error (e : error) : bool :=
  errors_Is e ErrOpenState || errors_Is e ErrTooManyRequests.

(** [sleepWithContext(ctx, backoff(attempt))]. *)
Definition backoff_sleep (attempt : Z) : P (option error) :=
  let* k := ask RandFloat64 in
  ask (Sleep (backoff attempt (proj1_sig k))).

(** How the processing of a batch ends.  [start] is the instant the
    (possibly restarted) processing began. *)
Inductive verdict :=
| Success (start : Z)
| NonRetryable (start : Z) (e : error)
| Exhausted (start : Z) (e : error)
| Abandoned.

(** Where the processing of a batch is: at the start of [processBatch], at
    the head of the attempt loop, or in [holdUntilCircuitCloses]. *)
Inductive control :=
| Starting
| Attempting (start attempt : Z) (lastErr : option error)
| Holding.

(** One iteration of the attempt loop. *)
Definition attempt_body (b : batch) (start attempt : Z) (lastErr : option error)
  : P (control + verdict) :=
  let* interrupted := (if 0 <? attempt then backoff_sleep (attempt - 1) else Ret None) in
  match interrupted with
  | Some _ => Ret (inr Abandoned)
  | None =>
      let* res := execute b in
      match res with
      | (Some e, _) => Ret (inr (NonRetryable start e))
      | (None, None) => Ret (inr (Success start))
      | (None, Some cbErr) =>
          if breaker_error cbErr then
            let* interrupted := backoff_sleep attempt in
            match interrupted with
            | Some _ => Ret (inr Abandoned)
            | None => Ret (inl (Attempting start (attempt - 1 + 1) lastErr))
            end
          else Ret (inl (Attempting start (attempt + 1) (Some cbErr)))
      end
  end.

(** After the loop: hold the batch if the circuit is open.  The log line
    dereferences [lastErr]. *)
Definition retries_exhausted (start : Z) (lastErr : option error) : P (control + verdict) :=
  let* ans := ask BreakerState in
  let* _ := notify ans.1 in
  match ans.2 with
  | StateOpen => Ret (inl Holding)
  | _ => match lastErr with
         | None => Throw NilDereference
         | Some e => Ret (inr (Exhausted start e))
         end
  end.

(** One iteration of [holdUntilCircuitCloses]. *)
Definition hold_body : P (control + verdict) :=
  let* interrupted := ask (Sleep (CBOpenTimeout cfg ÷ 2)) in
  match interrupted with
  | Some _ => Ret (inr Abandoned)
  | None =>
      let* ans := ask BreakerState in
      let* _ := notify ans.1 in
      match ans.2 with
      | StateOpen => Ret (inl Holding)
      | _ => Ret (inl Starting)
      end
  end.

Definition body (b : batch) (c : control) : P (control + verdict) :=
  match c with
  | Starting => let* start := ask Now in Ret (inl (Attempting start 0 None))
  | Attempting start attempt lastErr =>
      if attempt <=? MaxRetries cfg then attempt_body b start attempt lastErr
      else retries_exhausted start lastErr
  | Holding => hold_body
  end.

(** The loops, for at most [fuel] iterations: [None] is a worker still at
    work (the loops are unbounded while the circuit is open). *)
Fixpoint decide_batch (fuel : nat) (b : batch) (c : control) : P (option verdict) :=
  match fuel with
  | O => Ret None
  | Datatypes.S n =>
      let* r := body b c in
      match r with
      | inl c' => decide_batch n b c'
      | inr v => Ret (Some v)
      end
  end.

(** ** Settling a batch *)

Definition sendToDLQ (b : batch) (reason : error) (label : string) : P unit :=
  if hasDLQ then
    let* err := ask (ProduceDLQ (messages b) reason) in
    match err with
    | Some _ => Ret tt
    | None => modify (upd_dlq label (partition b) (len (messages b)))
    end
  else Ret tt.

Definition record_metrics (b : batch) (start now : Z) (status : string)
    (x : DispatcherMetrics) : DispatcherMetrics :=
  let p := partition b in
  mkMetrics
    (vec_add (status, p) (len (messages b)) (MessagesProcessed x))
    (foldl (fun l msg => (p, now - PolledAt msg) :: l) (MessageDelay x) (messages b))
    ((p, now - start) :: ProcessingTime x)
    (foldl (fun l msg => (p, now - Timestamp msg) :: l) (RecordAge x) (messages b))
    (vec_add p (- len (messages b)) (InflightMessages x))
    (CircuitBreakerState x) (WorkersActive x) (DLQMessages x).

Definition recordBatchMetrics (b : batch) (start : Z) (status : string) : P unit :=
  let* now := ask Now in
  modify (fun s => set_m (record_metrics b start now status (m s)) s).

Definition complete (b : batch) : P unit :=
  act (with_coord (BatchComplete (partition b) (batchMaxOffset b))).

(** DLQ routing, metrics and completion of a verdict; the rest of the three
    branches that finish a batch is [onBatchDone]. *)
Definition settle (b : batch) (v : verdict) : P unit :=
  match v with
  | Success start =>
      let* _ := recordBatchMetrics b start StatusSuccess in complete b
  | NonRetryable start e =>
      let* _ := sendToDLQ b e StatusNonRetryable in
      let* _ := recordBatchMetrics b start StatusNonRetryable in complete b
  | Exhausted start e =>
      let* _ := sendToDLQ b e StatusRetriesExhausted in
      let* _ := recordBatchMetrics b start StatusRetriesExhausted in complete b
  | Abandoned => Ret tt
  end.

Definition finish (b : batch) (v : verdict) : P unit :=
  match v with
  | Abandoned => Ret tt
  | _ => let* _ := settle b v in onBatchDone cfg (partition b)
  end.

Definition processBatch (fuel : nat) (b : batch) : P (option verdict) :=
  let* ov := decide_batch fuel b Starting in
  match ov with
  | None => Ret None
  | Some v => let* _ := finish b v in Ret (Some v)
  end.

(** ** The worker goroutine *)

(** Receive the next batch; [None] when the channel is closed and drained
    (the loop ends) or empty (the worker waits). *)
Definition recv_batch s : option (batch * S) :=
  match batchCh s with
  | [] => None
  | b :: rest => Some (b, set_batchCh rest s)
  end.

(** The loop body.  On a panic the gauge is not decremented. *)
Definition worker_body (fuel : nat) (b : batch) : P (option verdict) :=
  let* _ := modify (upd_workers 1) in
  let* r := processBatch fuel b in
  let* _ := modify (upd_workers (-1)) in
  Ret r.

(** The deferred recovery: [d.cancelRoot()]. *)
Definition worker_recover s : S := set_cancelled true s.
End Worker.

#[global] Arguments decide_batch : simpl nomatch.
#[global] Arguments onBatchDone : simpl never.

(** * A reference for the decision

    A script of what the breaker and the processor answer; when it runs out,
    or answers something else than what is asked, the context is cancelled. *)

Inductive event := EvExec (x : executed) | EvState (st : gobreakerState).

Definition scripted : handler query (list event) := fun X e evs =>
  match e in query X return X * list event with
  | Shuffle l => (exist _ l (Permutation_refl l), evs)
  | Sleep _ => (match evs with [] => Some Canceled | _ => None end, evs)
  | Execute _ => match evs with
                 | EvExec x :: r => (([], x), r)
                 | _ => (([], Rejected RejectOpen), [])
                 end
  | BreakerState => match evs with
                    | EvState st :: r => (([], st), r)
                    | _ => (([], StateOpen), [])
                    end
  | ProduceDLQ _ _ => (None, evs)
  | Now => (0, evs)
  | RandFloat64 => (exist _ 0 zero_lt_2_53, evs)
  | WaitWorkers => (None, evs)
  end.

(** The reference reads the script once.  [JTry tries last]: [tries] attempts
    remain before the retries are exhausted, [last] is the last transient
    error.  A rejection by the breaker uses no attempt. *)
Inductive judging := JTry (tries : nat) (last : option error) | JHold.
Inductive judgement := JVerdict (v : verdict) | JPanic (p : panic).

Definition attempts (cfg : Config) : nat := Z.to_nat (MaxRetries cfg + 1).

Fixpoint judge (cfg : Config) (evs : list event) (c : judging) : judgement :=
  match evs with
  | [] => JVerdict Abandoned
  | EvExec x :: evs =>
      match c with
      | JTry (Datatypes.S tries) last =>
          match x with
          | Rejected _ => judge cfg evs c
          | ProcessorPanicked msg => JPanic (UserPanic msg)
          | ProcessorReturned None => JVerdict (Success 0)
          | ProcessorReturned (Some e) =>
              if IsNonRetryable e then JVerdict (NonRetryable 0 e)
              else if breaker_error e then judge cfg evs c
              else judge cfg evs (JTry tries (Some e))
          end
      | _ => JVerdict Abandoned
      end
  | EvState st :: evs =>
      match c with
      | JTry O last =>
          match st, last with
          | StateOpen, _ => judge cfg evs JHold
          | _, Some e => JVerdict (Exhausted 0 e)
          | _, None => JPanic NilDereference
          end
      | JHold =>
          match st with
          | StateOpen => judge cfg evs JHold
          | _ => judge cfg evs (JTry (attempts cfg) None)
          end
      | _ => JVerdict Abandoned
      end
  end.

Section Decision.
Context `{Coordinator C}.
Variable cfg : Config.
Local Abbreviation S := (UnorderedDispatcher C).
Implicit Types s : S.

Lemma exec_decide_S {O} (h : handler query O) n b c o s :
  exec h (decide_batch cfg (Datatypes.S n) b c) o s =
  match exec h (body cfg b c) o s with
  | (Returned (inl c') s', o') => exec h (decide_batch cfg n b c') o' s'
  | (Returned (inr v) s', o') => (Returned (Some v) s', o')
  | (Panicked p s', o') => (Panicked p s', o')
  end.
Proof.
  simpl. rewrite exec_bind. by destruct (exec h (body cfg b c) o s) as [[[c'|v] s'|p s'] o'].
Qed.

(** The outcome of a decision, in a state the script leaves alone. *)
Definition decided (j : judgement) s (r : outcome S (option verdict)) : Prop :=
  match j with
  | JVerdict v => r = Returned (Some v) s
  | JPanic p => r = Panicked p s
  end.

Definition related (c : control) (j : judging) : Prop :=
  match c, j with
  | Attempting start a last, JTry tries last' =>
      start = 0 /\ last = last' /\ 0 <= a <= MaxRetries cfg + 1 /\
      tries = Z.to_nat (MaxRetries cfg + 1 - a)
  | Holding, JHold => True
  | _, _ => False
  end.

(** With the script exhausted, at most three iterations abandon the batch. *)
Lemma holding_abandons n b s :
  (1 <= n)%nat ->
  exec scripted (decide_batch cfg n b Holding) [] s = (Returned (Some Abandoned) s, []).
Proof. intros Hn. destruct n as [|n]; [lia|]. by rewrite exec_decide_S. Qed.

Lemma attempting_abandons n b s a last :
  (2 <= n)%nat ->
  exec scripted (decide_batch cfg n b (Attempting 0 a last)) [] s =
    (Returned (Some Abandoned) s, []).
Proof.
  intros Hn. destruct n as [|n]; [lia|]. rewrite exec_decide_S. simpl.
  destruct (a <=? MaxRetries cfg).
  - unfold attempt_body. by destruct (0 <? a).
  - simpl. apply holding_abandons. lia.
Qed.

(** One attempt with an answer of the script. *)
Lemma attempt_exec b s a last x evs :
  a <= MaxRetries cfg ->
  exec scripted (body cfg b (Attempting 0 a last)) (EvExec x :: evs) s =
  match x with
  | ProcessorReturned None => (Returned (inr (Success 0)) s, evs)
  | ProcessorReturned (Some e) =>
      if IsNonRetryable e then (Returned (inr (NonRetryable 0 e)) s, evs)
      else if breaker_error e then
        (Returned (match evs with [] => inr Abandoned | _ => inl (Attempting 0 a last) end) s, evs)
      else (Returned (inl (Attempting 0 (a + 1) (Some e))) s, evs)
  | Rejected _ =>
      (Returned (match evs with [] => inr Abandoned | _ => inl (Attempting 0 a last) end) s, evs)
  | ProcessorPanicked msg => (Panicked (UserPanic msg) s, evs)
  end.
Proof.
  intros Ha. simpl. rewrite (proj2 (Z.leb_le _ _) Ha). unfold attempt_body.
  destruct (0 <? a); simpl; replace (a - 1 + 1) with a by lia;
    (destruct x as [[|]|[e|]|msg]; simpl;
      [by destruct evs | by destruct evs
      | destruct (IsNonRetryable e); simpl; [done|]; destruct (breaker_error e); simpl;
        [by destruct evs|done] | done | done]).
Qed.

(** An answer of another kind stops the script. *)
Lemma attempt_mismatch b s a last st evs :
  a <= MaxRetries cfg ->
  exec scripted (body cfg b (Attempting 0 a last)) (EvState st :: evs) s =
    (Returned (inr Abandoned) s, []).
Proof.
  intros Ha. simpl. rewrite (proj2 (Z.leb_le _ _) Ha). unfold attempt_body.
  by destruct (0 <? a).
Qed.

Ltac related_tac := unfold attempts; simpl; split_and!; (done || lia).

Lemma decide_judge n b s evs c j :
  0 <= MaxRetries cfg -> (2 * length evs + 2 <= n)%nat -> related c j ->
  decided (judge cfg evs j) s (exec scripted (decide_batch cfg n b c) evs s).1.
Proof.
  intros Hmax. revert n c j. induction evs as [|ev evs IH]; intros n c j Hn Hrel.
  { destruct c as [|start a last|], j as [tries last'|]; simpl in Hrel; try done.
    - destruct Hrel as (-> & _). rewrite attempting_abandons by (simpl in Hn; lia). done.
    - rewrite holding_abandons by (simpl in Hn; lia). done. }
  simpl in Hn. destruct n as [|n]; [lia|]. rewrite exec_decide_S.
  destruct c as [|start a last|], j as [tries last'|]; simpl in Hrel; try done.
  - destruct Hrel as (-> & <- & Ha & ->).
    destruct (Z.le_gt_cases a (MaxRetries cfg)) as [Hle|Hgt].
    + assert (Htries : Z.to_nat (MaxRetries cfg + 1 - a) =
                      Datatypes.S (Z.to_nat (MaxRetries cfg + 1 - (a + 1)))) by lia.
      rewrite Htries. destruct ev as [x|st]; [|by rewrite attempt_mismatch].
      rewrite attempt_exec by done. simpl. rewrite <- Htries.
      destruct x as [r|[e|]|msg]; try done.
      * destruct evs; [done|]. apply IH; [lia|]. related_tac.
      * destruct (IsNonRetryable e); [done|]. destruct (breaker_error e).
        -- destruct evs; [done|]. apply IH; [lia|]. related_tac.
        -- apply IH; [lia|]. related_tac.
    + replace (Z.to_nat (MaxRetries cfg + 1 - a)) with O by lia. simpl.
      rewrite (proj2 (Z.leb_gt _ _)) by lia.
      destruct ev as [x|st]; simpl; [rewrite holding_abandons by lia; done|].
      destruct st; simpl; [by destruct last|by destruct last|]. by (apply IH; [lia|]).
  - simpl. destruct ev as [x|st]; simpl; [rewrite holding_abandons by lia; done|].
    assert (Hrestart : decided (judge cfg evs (JTry (attempts cfg) None)) s
              (exec scripted (decide_batch cfg n b Starting) evs s).1).
    { destruct n as [|n]; [lia|]. rewrite exec_decide_S. apply IH; [lia|].
      related_tac. }
    destruct st; simpl; [done|done|]. by (apply IH; [lia|]).
Qed.

Lemma decide_from_start n b s evs :
  0 <= MaxRetries cfg -> (2 * length evs + 3 <= n)%nat ->
  decided (judge cfg evs (JTry (attempts cfg) None)) s
    (exec scripted (decide_batch cfg n b Starting) evs s).1.
Proof.
  intros Hmax Hn. destruct n as [|n]; [lia|]. rewrite exec_decide_S.
  apply decide_judge; [done|lia|]. related_tac.
Qed.

(** ** Properties *)

(** C16. The fate of a batch is the one the reference reads off the answers
    of the breaker and the processor, and is found within twice as many
    loop iterations as there are answers: success at once, a non-retryable
    error without a retry, exhaustion after [MaxRetries + 1] transient
    failures if the circuit is not open (half-open included, which FR-4.1 and
    NFR-6.5 exclude), holding while it is, a rejection costing no attempt;
    deciding changes nothing of the dispatcher, the breaker of the script
    announcing no state change. *)
Theorem decision_refines_judge n b s evs :
  0 <= MaxRetries cfg -> (2 * length evs + 3 <= n)%nat ->
  decided (judge cfg evs (JTry (attempts cfg) None)) s
    (exec scripted (decide_batch cfg n b Starting) evs s).1.
Proof. apply decide_from_start. Qed.
End Decision.

(** ** Retries and rejections *)

Definition is_rejected (x : executed) : bool :=
  match x with
  | Rejected _ => true
  | ProcessorReturned (Some e) => negb (IsNonRetryable e) && breaker_error e
  | _ => false
  end.

Definition is_transient (x : executed) : bool :=
  match x with
  | ProcessorReturned (Some e) => negb (IsNonRetryable e) && negb (breaker_error e)
  | _ => false
  end.

Definition transients (xs : list executed) : nat := length (List.filter is_transient xs).

Definition last_transient (last : option error) (xs : list executed) : option error :=
  foldl (fun l x => match x with
                    | ProcessorReturned (Some e) => if is_transient x then Some e else l
                    | _ => l
                    end) last xs.

(** Answers that keep the batch in the attempt loop leave as many attempts as
    they are not transient failures. *)
Lemma judge_prefix cfg xs evs tries last :
  (forall x, x ∈ xs -> is_rejected x = true \/ is_transient x = true) ->
  (transients xs <= tries)%nat ->
  (forall pre x, xs = pre ++ [x] -> is_transient x = true) ->
  judge cfg ((EvExec <$> xs) ++ evs) (JTry tries last) =
  judge cfg evs (JTry (tries - transients xs) (last_transient last xs)).
Proof.
  revert tries last. induction xs as [|x xs IH]; intros tries last Hall Ht Hlast.
  { simpl. by rewrite Nat.sub_0_r. }
  assert (Htail : forall pre y, xs = pre ++ [y] -> is_transient y = true)
    by (intros pre y ->; exact (Hlast (x :: pre) y eq_refl)).
  assert (Hpos : (0 < tries)%nat).
  { destruct tries; [|lia]. exfalso. destruct (exists_last (l := x :: xs) ltac:(done)) as (pre & y & E).
    pose proof (Hlast pre y E) as Hy. rewrite E in Ht. unfold transients in Ht.
    rewrite List.filter_app, length_app in Ht. simpl in Ht. rewrite Hy in Ht. simpl in Ht. lia. }
  destruct tries as [|tries]; [lia|].
  assert (Hxs : forall y, y ∈ xs -> is_rejected y = true \/ is_transient y = true)
    by (intros y Hy; apply Hall; by apply list_elem_of_further).
  destruct (Hall x (list_elem_of_here _ _)) as [Hr|Htr].
  - assert (Hnt : is_transient x = false).
    { destruct x as [|[e|]|]; try done. simpl in *. apply andb_true_iff in Hr as [_ ->].
      apply andb_false_r. }
    assert (Hcount : transients (x :: xs) = transients xs)
      by (unfold transients; simpl; by rewrite Hnt).
    rewrite Hcount in *.
    assert (Hfold : last_transient last (x :: xs) = last_transient last xs).
    { unfold last_transient. simpl. rewrite Hnt. by destruct x as [|[e|]|]. }
    rewrite Hfold, <- IH by done. destruct x as [r|[e|]|msg]; try done.
    simpl in *. apply andb_true_iff in Hr as [He ->]. apply negb_true_iff in He. by rewrite He.
  - assert (Hcount : transients (x :: xs) = Datatypes.S (transients xs))
      by (unfold transients; simpl; by rewrite Htr).
    rewrite Hcount in *. rewrite Nat.sub_succ.
    destruct x as [r|[e|]|msg]; try done.
    assert (Hfold : last_transient last (ProcessorReturned (Some e) :: xs) =
                    last_transient (Some e) xs).
    { unfold last_transient. simpl in *. by rewrite Htr. }
    rewrite Hfold. rewrite <- IH by (done || lia).
    simpl in *. apply andb_true_iff in Htr as [He Hb].
    apply negb_true_iff in He, Hb. by rewrite He, Hb.
Qed.

Section Retries.
Context `{Coordinator C}.
Variable cfg : Config.
Implicit Types s : UnorderedDispatcher C.

(** Failures that use all attempts up leave the reference with none. *)
Lemma judge_used_up cfg' xs evs e :
  (forall x, x ∈ xs -> is_rejected x = true \/ is_transient x = true) ->
  transients xs = attempts cfg' -> last xs = Some (ProcessorReturned (Some e)) ->
  IsNonRetryable e = false -> breaker_error e = false ->
  judge cfg' ((EvExec <$> xs) ++ evs) (JTry (attempts cfg') None) = judge cfg' evs (JTry 0 (Some e)).
Proof.
  intros Hall Ht Hlast He Hb.
  assert (Htr : is_transient (ProcessorReturned (Some e)) = true) by (simpl; by rewrite He, Hb).
  rewrite judge_prefix; [|done|lia|].
  2: { intros pre x ->. rewrite last_snoc in Hlast. by simplify_eq. }
  rewrite Ht, Nat.sub_diag. do 2 f_equal. apply last_Some in Hlast as [pre ->].
  unfold last_transient. rewrite foldl_app. simpl in *. by rewrite Htr.
Qed.

Lemma judge_held cfg' opens st evs :
  st <> StateOpen ->
  judge cfg' (replicate opens (EvState StateOpen) ++ EvState st :: evs) JHold =
  judge cfg' evs (JTry (attempts cfg') None).
Proof. intros Hst. induction opens as [|opens IH]; [by destruct st|exact IH]. Qed.

(** C22. Retries are bounded and rejections are free: however many times the
    breaker rejects in between, a batch is given up exactly after
    [MaxRetries + 1] transient failures, with the last error, if the circuit
    is closed or half-open then; if it is open, the batch is held for as long
    as the circuit is found open and is then processed afresh, with all its
    retries and as if nothing had been tried (or abandoned, if the context is
    cancelled meanwhile).  FR-4.1, NFR-6.5 and ADR-0007 give a batch up only
    when the circuit is closed; the code does so when it is half-open too. *)
Theorem retries_exhausted_after_max b s xs e :
  0 <= MaxRetries cfg ->
  (forall x, x ∈ xs -> is_rejected x = true \/ is_transient x = true) ->
  transients xs = attempts cfg ->
  last xs = Some (ProcessorReturned (Some e)) -> IsNonRetryable e = false ->
  breaker_error e = false ->
  (forall n st, st <> StateOpen -> (2 * length xs + 5 <= n)%nat ->
     (exec scripted (decide_batch cfg n b Starting) ((EvExec <$> xs) ++ [EvState st]) s).1 =
       Returned (Some (Exhausted 0 e)) s) /\
  (forall n n' opens st evs, (0 < opens)%nat -> st <> StateOpen ->
     (2 * (length xs + opens + length evs) + 5 <= n)%nat -> (2 * length evs + 3 <= n')%nat ->
     (exec scripted (decide_batch cfg n b Starting)
        ((EvExec <$> xs) ++ replicate opens (EvState StateOpen) ++ EvState st :: evs) s).1 =
     (exec scripted (decide_batch cfg n' b Starting) evs s).1).
Proof.
  intros Hmax Hall Ht Hlast He Hb. split.
  - intros n st Hst Hn.
    pose proof (decide_from_start cfg n b s ((EvExec <$> xs) ++ [EvState st]) Hmax) as Hd.
    rewrite (judge_used_up cfg xs _ e) in Hd by done. rewrite length_app, length_fmap in Hd.
    specialize (Hd ltac:(simpl; lia)). by destruct st.
  - intros n n' opens st evs Ho Hst Hn Hn'. destruct opens as [|opens]; [lia|].
    pose proof (decide_from_start cfg n b s
      ((EvExec <$> xs) ++ replicate (Datatypes.S opens) (EvState StateOpen) ++ EvState st :: evs) Hmax) as Hd.
    rewrite (judge_used_up cfg xs _ e) in Hd by done. rewrite !length_app, length_fmap, length_replicate in Hd.
    specialize (Hd ltac:(simpl; lia)). pose proof (decide_from_start cfg n' b s evs Hmax Hn') as Hd'.
    change (judge cfg (replicate _ _ ++ _) _) with
      (judge cfg (replicate opens (EvState StateOpen) ++ EvState st :: evs) JHold) in Hd.
    rewrite judge_held in Hd by done. revert Hd Hd'. unfold decided.
    by destruct (judge cfg evs _); intros -> ->.
Qed.

(** A success within the retry budget ends the processing: after at
    most [MaxRetries] transient failures and any number of rejections, a
    processor that returns nil makes the batch a success. *)
Theorem success_within_budget n b s xs x :
  0 <= MaxRetries cfg ->
  (forall y, y ∈ xs ++ [x] -> is_rejected y = true \/ is_transient y = true) ->
  is_transient x = true -> (transients (xs ++ [x]) < attempts cfg)%nat ->
  (2 * length xs + 7 <= n)%nat ->
  (exec scripted (decide_batch cfg n b Starting)
     ((EvExec <$> xs ++ [x]) ++ [EvExec (ProcessorReturned None)]) s).1 =
    Returned (Some (Success 0)) s.
Proof.
  intros Hmax Hall Hx Ht Hn.
  pose proof (decide_from_start cfg n b s
    ((EvExec <$> xs ++ [x]) ++ [EvExec (ProcessorReturned None)]) Hmax) as Hd.
  rewrite judge_prefix in Hd; [|done|lia|].
  2: { intros pre y E. apply app_inj_tail in E as [_ ->]. done. }
  destruct (attempts cfg - transients (xs ++ [x]))%nat eqn:E; [lia|].
  apply Hd. rewrite length_app, length_fmap, length_app. simpl. lia.
Qed.
(** A processor whose own error wraps one of the breaker's. *)
Definition borrowing (e : error) : handler query unit := fun X q u =>
  match q in query Y return Y -> Y * unit with
  | Execute _ => fun _ => (([], ProcessorReturned (Some e)), u)
  | _ => fun x => (x, u)
  end (calm X q u).1.

(** Such an error, of a processor that uses a circuit breaker of its own, is
    taken for a rejection by the dispatcher's breaker: it is never counted as
    an attempt, and the batch is retried without end, neither given up nor
    dead-lettered, while the context lives. *)
Theorem borrowed_breaker_error_never_settles n b s prefix :
  0 <= MaxRetries cfg ->
  exec (borrowing (Wrap prefix ErrOpenState)) (decide_batch cfg n b Starting) tt s = (Returned None s, tt).
Proof.
  intros Hmax. set (h := borrowing _).
  assert (Hloop : forall k start last,
    exec h (decide_batch cfg k b (Attempting start 0 last)) tt s = (Returned None s, tt)).
  { induction k as [|k IH]; intros start last; [done|]. rewrite exec_decide_S. simpl.
    rewrite (proj2 (Z.leb_le _ _) Hmax). unfold attempt_body. simpl. apply IH. }
  destruct n as [|n]; [done|]. rewrite exec_decide_S. simpl. apply Hloop.
Qed.
End Retries.

(** ** Settling and releasing a batch *)

Definition status_of (v : verdict) : string :=
  match v with
  | Success _ => StatusSuccess
  | NonRetryable _ _ => StatusNonRetryable
  | _ => StatusRetriesExhausted
  end.

Definition is_completed (v : verdict) : bool :=
  match v with Abandoned => false | _ => true end.

Section Settling.
Context `{Coordinator C}.
Variable cfg : Config.
Variable hasDLQ : bool.
Local Abbreviation S := (UnorderedDispatcher C).
Implicit Types s : S.

(** The DLQ producer took the batch. *)
Definition accepted {O} (h : handler query O) (b : batch) (e : error) (o : O) : bool :=
  hasDLQ && match (h _ (ProduceDLQ (messages b) e) o).1 with None => true | Some _ => false end.

Lemma exec_sendToDLQ {O} (h : handler query O) b e label o s :
  exists o', exec h (sendToDLQ hasDLQ b e label) o s =
    (Returned tt (if accepted h b e o then upd_dlq label (partition b) (len (messages b)) s else s), o').
Proof.
  unfold sendToDLQ, accepted. destruct hasDLQ; simpl; [|by eexists].
  destruct (h _ (ProduceDLQ (messages b) e) o) as [[err|] o'] eqn:E; simpl; by eexists.
Qed.

Lemma exec_settle_success {O} (h : handler query O) b start status o s :
  coord_wf (coord s) -> slot_of (coord s) (partition b) = InFlight (batchMaxOffset b) ->
  exists s' o' now c, exec h (let* _ := recordBatchMetrics b start status in complete b) o s =
      (Returned tt s', o') /\
    s' = set_coord c (set_m (record_metrics b start now status (m s)) s) /\ coord_wf c /\
    (forall q, slot_of c q = if decide (q = partition b) then Completed (batchMaxOffset b)
                             else slot_of (coord s) q).
Proof.
  intros Hwf Hs. destruct (complete_returns _ _ _ Hwf Hs) as (c & Hc & Hwf' & Hsl).
  rewrite exec_bind. unfold recordBatchMetrics. simpl.
  destruct (h Z Now o) as [now o'] eqn:En. simpl. unfold with_coord. simpl. rewrite Hc.
  eexists _, o', now, c. by split_and!.
Qed.

Definition start_of (v : verdict) : Z :=
  match v with Success start | NonRetryable start _ | Exhausted start _ => start | Abandoned => 0 end.

(** Whether the batch was dead-lettered. *)
Definition dead_lettered {O} (h : handler query O) (b : batch) (v : verdict) (o : O) : bool :=
  match v with
  | Success _ | Abandoned => false
  | NonRetryable _ e | Exhausted _ e => accepted h b e o
  end.

(** What settling leaves: the slot completed; the messages counted under the
    verdict's status, out of the in-flight gauge, counted as dead-lettered if
    they were, and timed, the last first; and all else as it was. *)
Record settled_by (dead : bool) (b : batch) (v : verdict) s s' : Prop := {
  sb_coord : coord_wf (coord s');
  sb_slots q : slot_of (coord s') q =
    if decide (q = partition b) then Completed (batchMaxOffset b) else slot_of (coord s) q;
  sb_frame : s' = set_coord (coord s') (set_m (m s') s);
  sb_inflight : InflightMessages (m s') =
    vec_add (partition b) (- len (messages b)) (InflightMessages (m s));
  sb_processed : MessagesProcessed (m s') =
    vec_add (status_of v, partition b) (len (messages b)) (MessagesProcessed (m s));
  sb_dlq : DLQMessages (m s') =
    if dead then vec_add (status_of v, partition b) (len (messages b)) (DLQMessages (m s))
    else DLQMessages (m s);
  sb_times : exists now,
    ProcessingTime (m s') = (partition b, now - start_of v) :: ProcessingTime (m s) /\
    MessageDelay (m s') =
      rev (List.map (fun msg => (partition b, now - PolledAt msg)) (messages b)) ++ MessageDelay (m s) /\
    RecordAge (m s') =
      rev (List.map (fun msg => (partition b, now - Timestamp msg)) (messages b)) ++ RecordAge (m s);
  sb_gauges : CircuitBreakerState (m s') = CircuitBreakerState (m s) /\
    WorkersActive (m s') = WorkersActive (m s)
}.

Lemma observed_each {A B} (f : A -> B) xs acc :
  foldl (fun l x => f x :: l) acc xs = rev (List.map f xs) ++ acc.
Proof. revert acc. induction xs as [|x xs IH]; intros acc; [done|]. simpl. by rewrite IH, <- app_assoc. Qed.

(** The three branches that finish a batch, after the dead-lettering. *)
Lemma recorded_settles dead b v now c s :
  coord_wf c ->
  (forall q, slot_of c q = if decide (q = partition b) then Completed (batchMaxOffset b) else slot_of (coord s) q) ->
  let s1 := if dead : bool then upd_dlq (status_of v) (partition b) (len (messages b)) s else s in
  settled_by dead b v s (set_coord c (set_m (record_metrics b (start_of v) now (status_of v) (m s1)) s1)).
Proof.
  intros Hwf Hsl s1. subst s1.
  destruct dead; (constructor; simpl; [done|done|done|done|done|done| |done]);
    exists now; by rewrite !observed_each.
Qed.

Lemma exec_settle {O} (h : handler query O) b v o s :
  coord_wf (coord s) -> slot_of (coord s) (partition b) = InFlight (batchMaxOffset b) ->
  is_completed v = true ->
  exists s' o', exec h (settle hasDLQ b v) o s = (Returned tt s', o') /\
    settled_by (dead_lettered h b v o) b v s s'.
Proof.
  intros Hwf Hs Hv.
  assert (Hfin : forall dead start o1,
    let s1 := if dead : bool then upd_dlq (status_of v) (partition b) (len (messages b)) s else s in
    start = start_of v -> exists s' o',
    exec h (let* _ := recordBatchMetrics b start (status_of v) in complete b) o1 s1 = (Returned tt s', o') /\
    settled_by dead b v s s').
  { intros dead start o1 s1 ->.
    destruct (exec_settle_success h b (start_of v) (status_of v) o1 s1) as (s' & o' & now & c & -> & -> & Hwf' & Hsl);
      [by destruct dead|by destruct dead|].
    eexists _, o'. split; [done|]. apply recorded_settles; [done|]. intros q. rewrite Hsl. by destruct dead. }
  destruct v as [start|start e|start e|]; [| | |done]; unfold settle, dead_lettered; [by apply (Hfin false)|..];
    rewrite exec_bind;
    match goal with |- context [sendToDLQ _ _ _ ?label] => destruct (exec_sendToDLQ h b e label o s) as [o1 ->] end;
    by apply Hfin.
Qed.

(** C17. Every verdict but abandonment completes the batch, in every
    environment, if the coordinator has it in flight (once a revocation has
    reset the partition, a completion makes nothing committable): the partition
    becomes committable at the offset after the batch; its messages are
    counted exactly once under the verdict's status, leave the in-flight
    gauge, are counted as dead-lettered exactly if the DLQ producer took them,
    and are observed once each in the histograms of delay and age, and the
    batch in that of processing time; no other partition's slot, gauge, buffer
    or queued batch, and nothing else of the dispatcher, changes.  An abandoned
    batch changes nothing, so that its offsets are never committed. *)
Theorem settle_completes {O} (h : handler query O) b v o s :
  coord_wf (coord s) -> slot_of (coord s) (partition b) = InFlight (batchMaxOffset b) ->
  if is_completed v
  then exists s' o', exec h (settle hasDLQ b v) o s = (Returned tt s', o') /\
         settled_by (dead_lettered h b v o) b v s s' /\
         Committable (coord s') !! partition b = Some (wrap64 (batchMaxOffset b + 1))
  else exec h (finish cfg hasDLQ b v) o s = (Returned tt s, o).
Proof.
  intros Hwf Hs. destruct (is_completed v) eqn:Ev.
  - destruct (exec_settle h b v o s Hwf Hs Ev) as (s' & o' & Hx & Hb).
    exists s', o'. split; [done|]. split; [done|].
    rewrite committable_lookup by apply Hb. rewrite (sb_slots _ b v s s' Hb).
    by rewrite decide_True.
  - by destruct v.
Qed.

(** A batch whose dead-lettering failed is committed all the same: if
    no DLQ producer is configured or it reports an error, the failed batch
    counts as no DLQ message, and its offset is committable. *)
Theorem failed_dlq_is_committed {O} (h : handler query O) b v e o s :
  coord_wf (coord s) -> slot_of (coord s) (partition b) = InFlight (batchMaxOffset b) ->
  (exists start, v = NonRetryable start e \/ v = Exhausted start e) ->
  hasDLQ = false \/ is_Some (h _ (ProduceDLQ (messages b) e) o).1 ->
  exists s' o', exec h (settle hasDLQ b v) o s = (Returned tt s', o') /\
    DLQMessages (m s') = DLQMessages (m s) /\
    Committable (coord s') !! partition b = Some (wrap64 (batchMaxOffset b + 1)).
Proof.
  intros Hwf Hs Hv Hfail.
  assert (Hgen : forall start label status, exists s' o',
    exec h (let* _ := sendToDLQ hasDLQ b e label in
            let* _ := recordBatchMetrics b start status in complete b) o s = (Returned tt s', o') /\
    DLQMessages (m s') = DLQMessages (m s) /\
    Committable (coord s') !! partition b = Some (wrap64 (batchMaxOffset b + 1))).
  { intros start label status. rewrite exec_bind.
    destruct (exec_sendToDLQ h b e label o s) as [o1 ->].
    assert (Ha : accepted h b e o = false).
    { unfold accepted. destruct Hfail as [->|[err ->]]; [done|apply andb_false_r]. }
    rewrite Ha. destruct (exec_settle_success h b start status o1 s Hwf Hs)
      as (s' & o' & now & c & -> & -> & Hwf' & Hsl).
    eexists _, o'. split_and!; [done|done|]. simpl.
    rewrite committable_lookup by done. by rewrite Hsl, decide_True. }
  destruct Hv as (start & [-> | ->]); apply Hgen.
Qed.




(** ** [onBatchDone] *)

(** Nothing is left for [tryDispatch] to do on [q]: a batch is in flight,
    or the buffer is empty, or it is short and its linger timer runs. *)
Definition attended s (q : Z) : Prop :=
  forall pb, buffers s !! q = Some pb -> bufInFlight pb = false ->
    bufMessages pb = [] \/
    (len (bufMessages pb) < BatchSize cfg /\ is_Some (lingerTimer pb)).

Lemma Send_post_attended p pb s s' r :
  Send_post cfg p pb s s' r -> r = None -> attended s' p.
Proof.
  intros Hpost Hr pb' Hp' Hf.
  destruct Hpost as [Hor Hb|i ? Hl Hb|? ? ? ? Hb|]; [| | |done]; rewrite Hb in Hp'; simplify_eq.
  - destruct Hor; [congruence|by left].
  - right. simpl in *. split; [lia|eauto].
Qed.

Lemma tryDispatch_closed {O} (h : handler query O) o p s r s' o' :
  closed s = false -> batchChClosed s = false ->
  exec h (tryDispatch cfg p) o s = (Returned r s', o') -> closed s' = false.
Proof.
  intros Hc Hb. rewrite exec_tryDispatch.
  assert (Hlock : forall ob s1, tryDispatch_locked cfg p s = Returned ob s1 ->
            closed s1 = closed s).
  { intros ob s1. unfold tryDispatch_locked, assemble_in_flight, assembleBatch, startLingerTimer,
      stop_timer, set_inFlight, put_buffer. intros Hl. cases; done. }
  destruct (tryDispatch_locked cfg p s) as [[b|] s1|q s1] eqn:El; intros Hx; simplify_eq.
  - specialize (Hlock _ _ eq_refl). unfold dispatchBatch, with_coord, try_send, return_batch in Hx.
    simpl in Hx. rewrite Hlock, Hc in Hx. simpl in Hx. cases; simplify_eq; simpl; congruence.
  - rewrite (Hlock _ _ eq_refl). done.
Qed.

Lemma attended_frame p q s s' :
  frame_except p s s' -> q <> p -> attended s q -> attended s' q.
Proof. intros Hf Hne Ha pb. destruct (Hf q Hne) as [-> _]. apply Ha. Qed.

Lemma attended_missing s q : buffers s !! q = None -> attended s q.
Proof. intros Hn pb Hpb. congruence. Qed.

Definition channel_full s : Prop := ChannelCap cfg <= len (batchCh s).

Lemma tryDispatch_attends {O} (h : handler query O) o p s :
  0 < BatchSize cfg -> dispatcher_inv s -> closed s = false ->
  exists r s', exec h (tryDispatch cfg p) o s = (Returned r s', o) /\
    dispatcher_inv s' /\ closed s' = false /\ frame_except p s s' /\
    match r with None => attended s' p | Some _ => channel_full s' end.
Proof.
  intros Hbs Hi Hcl. assert (Hbc : batchChClosed s = false) by (by rewrite (inv_closed s Hi)).
  destruct (buffers s !! p) as [pb|] eqn:Hp.
  - destruct (tryDispatch_spec cfg h o s p pb Hbs Hi Hcl Hp) as (r & s' & Hx & Hpost & Hi' & Hf).
    exists r, s'. split_and!; try done.
    + exact (tryDispatch_closed h o p s r s' o Hcl Hbc Hx).
    + destruct r as [e|]; [|by eapply Send_post_attended].
      inversion Hpost; subst. unfold channel_full. congruence.
  - exists None, s. rewrite exec_tryDispatch. unfold tryDispatch_locked. rewrite Hp.
    split_and!; try done. by apply attended_missing.
Qed.

Lemma exec_drain_cons {O} (h : handler query O) o p ps s :
  exec h (drain cfg (p :: ps)) o s =
  match exec h (tryDispatch cfg p) o s with
  | (Returned (Some _) s', o') => (Returned tt s', o')
  | (Returned None s', o') => exec h (drain cfg ps) o' s'
  | (Panicked q s', o') => (Panicked q s', o')
  end.
Proof.
  change (drain cfg (p :: ps)) with
    (let* err := tryDispatch cfg p in
     match err with Some _ => Ret tt | None => drain cfg ps end).
  rewrite exec_bind. by destruct (exec h (tryDispatch cfg p) o s) as [[[e|] s'|q s'] o'].
Qed.

Lemma exec_drain {O} (h : handler query O) o ps s :
  0 < BatchSize cfg -> dispatcher_inv s -> closed s = false ->
  exists s', exec h (drain cfg ps) o s = (Returned tt s', o) /\ dispatcher_inv s' /\
    (channel_full s' \/
     (forall q, q ∈ ps -> attended s' q) /\ (forall q, attended s q -> attended s' q)).
Proof.
  intros Hbs. revert s. induction ps as [|p ps IH]; intros s Hi Hcl.
  { exists s. split_and!; [done|done|]. right. split; [|done].
    intros q Hq. by apply not_elem_of_nil in Hq. }
  destruct (tryDispatch_attends h o p s Hbs Hi Hcl) as (r & s1 & Hx & Hi1 & Hcl1 & Hf & Hr).
  rewrite exec_drain_cons, Hx. destruct r as [e|].
  { exists s1. simpl. by split_and!; [| |left]. }
  destruct (IH s1 Hi1 Hcl1) as (s' & Hx' & Hi' & Hor). exists s'. split_and!; [done|done|].
  destruct Hor as [Hfull|[Hps Hall]]; [by left|right]. split.
  - intros q [->|Hq]%elem_of_cons; auto.
  - intros q Hq. apply Hall. destruct (decide (q = p)) as [->|Hne]; [done|].
    by eapply attended_frame.
Qed.

Lemma pending_attended s q : q ∉ pending_of s -> attended s q.
Proof.
  intros Hq pb Hpb Hf. left. destruct (bufMessages pb) as [|x l] eqn:Em; [done|].
  exfalso. apply Hq. unfold pending_of. apply list_elem_of_fmap. exists (q, pb). split; [done|].
  apply list_elem_of_filter. split; [|by apply elem_of_map_to_list].
  simpl. rewrite Em. split; [done|]. unfold len. simpl. lia.
Qed.

Lemma onBatchDone_locked_inv p s :
  dispatcher_inv s -> slot_busy (slot_of (coord s) p) = false ->
  dispatcher_inv (set_inFlight p false s) /\ closed (set_inFlight p false s) = closed s.
Proof.
  intros Hi Hs. unfold set_inFlight. destruct (buffers s !! p) as [pb|] eqn:Hp; [|done].
  split; [|done].
  apply (inv_change_coord s _ p (coord s) (mkBuffer (bufMessages pb) false (lingerTimer pb)));
    simpl; try done; try apply Hi.
  - intros q Hq. by rewrite lookup_insert_ne.
  - by rewrite lookup_insert_eq.
  - intros Hb. congruence.
Qed.

(** No partition starves.  When a worker is done with a batch, then,
    whatever order the map is ranged over in, the poll loop is signalled
    and either the channel is full or no idle partition is left with
    messages to dispatch: its buffer is empty, or shorter than a batch
    with the linger timer running. *)
Theorem onBatchDone_progress {O} (h : handler query O) o p s :
  0 < BatchSize cfg -> dispatcher_inv s -> closed s = false ->
  slot_busy (slot_of (coord s) p) = false ->
  exists s' o', exec h (onBatchDone cfg p) o s = (Returned tt s', o') /\
    dispatcher_inv s' /\ (channel_full s' \/ forall q, attended s' q).
Proof.
  intros Hbs Hi Hcl Hs. destruct (onBatchDone_locked_inv p s Hi Hs) as [Hi1 Hcl1].
  set (s1 := set_inFlight p false s) in *.
  unfold onBatchDone. rewrite exec_act. unfold onBatchDone_locked. fold s1. cbv zeta.
  simpl. destruct (h _ (Shuffle (pending_of s1)) o) as [[order Hperm] o'] eqn:Eh. simpl.
  destruct (exec_drain h o' order (set_readyCh true s1)) as (s' & Hx & Hi' & Hor); [done| |simpl; congruence|].
  { constructor; simpl; apply Hi1. }
  exists s', o'. split_and!; [done|done|]. destruct Hor as [?|[Hps Hall]]; [by left|right].
  intros q. destruct (decide (q ∈ order)) as [Hin|Hnin]; [auto|].
  apply Hall. apply (pending_attended s1). by rewrite <- Hperm.
Qed.
End Settling.

(** ** The circuit breaker callbacks *)

Section Breaker.
Context {C : Type}.
Implicit Types s : UnorderedDispatcher C.

(** State changes reach the poll loop in order and are never sent
    beyond the channel's three slots: a callback appends the state if a
    slot is free and drops it otherwise, sets the gauge, and touches
    nothing else. *)
Theorem OnStateChange_spec s to :
  len (circuitStateCh s) <= 3 ->
  let s' := OnStateChange to s in
  circuitStateCh s' = take 3 (circuitStateCh s ++ [gobreakerStateToCircuit to]) /\
  len (circuitStateCh s') <= 3 /\
  CircuitBreakerState (m s') = gobreakerStateToCircuit to /\
  coord s' = coord s /\ buffers s' = buffers s /\ batchCh s' = batchCh s.
Proof.
  intros Hl. simpl. unfold OnStateChange. simpl.
  unfold len in *. destruct (circuitStateCh s) as [|a [|b [|c [|d l]]]] eqn:E; simpl in *;
    try lia; rewrite ?E; simpl; split_and!; try done; try lia.
Qed.
End Breaker.

(** The gauge does not use the documented encoding (0=closed,
    1=half-open, 2=open): it is set to the number of [circuit.State], so that
    an open circuit reads 1 and a half-open one 2. *)
Theorem breaker_gauge_encoding {C} (s : UnorderedDispatcher C) :
  CircuitBreakerState (m (OnStateChange StateOpen s)) = 1 /\
  CircuitBreakerState (m (OnStateChange StateHalfOpen s)) = 2.
Proof.
  unfold OnStateChange. simpl. by destruct (len (circuitStateCh s) <? 3).
Qed.

(** [ReadyToTrip] needs [CBMinRequests] requests first, and a threshold
    that is not a number disables the breaker: the failure rate never
    compares as at least NaN. *)
Theorem ReadyToTrip_gate (cfg : Config) requests failures :
  ReadyToTrip cfg requests failures = true ->
  uint32 (CBMinRequests cfg) <= requests /\ CBFailureThreshold cfg <> S754_nan.
Proof.
  unfold ReadyToTrip. destruct (Z.ltb_spec requests (uint32 (CBMinRequests cfg))); [done|].
  intros Ht. split; [done|]. intros E. rewrite E in Ht. by destruct (SFdiv _ _ _ _).
Qed.

Lemma ReadyToTrip_gate_witness :
  ReadyToTrip DefaultConfig 5 3 = true /\ ReadyToTrip DefaultConfig 5 2 = false /\
  uint32 (CBMinRequests DefaultConfig) <= 5 /\ CBFailureThreshold DefaultConfig <> S754_nan.
Proof.
  split; [vm_compute; reflexivity|]. split; [vm_compute; reflexivity|].
  apply (ReadyToTrip_gate DefaultConfig 5 3). vm_compute. reflexivity.
Defined.

(** * Witnesses *)

Definition demo_batch : batch := mkBatch 0 11 [demo_msg 0 10; demo_msg 0 11].
Definition flaky : error := Leaf "connection reset".
Definition fails : executed := ProcessorReturned (Some flaky).

Lemma demo_full_slot : slot_of (coord demo_full) (partition demo_batch) =
  InFlight (batchMaxOffset demo_batch).
Proof. reflexivity. Qed.

(** One rejection, a transient failure, then a non-retryable error. *)
Lemma decision_refines_judge_witness :
  let evs := [EvExec (Rejected RejectOpen); EvExec fails;
              EvExec (ProcessorReturned (Some (ErrNonRetryable None)))] in
  judge demo_cfg evs (JTry (attempts demo_cfg) None) =
    JVerdict (NonRetryable 0 (ErrNonRetryable None)) /\
  decided (judge demo_cfg evs (JTry (attempts demo_cfg) None)) demo_full
    (exec scripted (decide_batch demo_cfg 9 demo_batch Starting) evs demo_full).1.
Proof.
  intros evs. split; [reflexivity|].
  apply (decision_refines_judge demo_cfg 9 demo_batch demo_full evs).
  - vm_compute. discriminate.
  - simpl. lia.
Defined.

Definition demo_fails : list executed :=
  [fails; Rejected RejectTooMany; fails; fails; fails].

Lemma demo_fails_stay x : x ∈ demo_fails -> is_rejected x = true \/ is_transient x = true.
Proof.
  unfold demo_fails. rewrite !elem_of_cons, elem_of_nil.
  intros [->|[->|[->|[->|[->|[]]]]]]; vm_compute; auto.
Qed.

(** Half-open, the batch is given up; open twice, it is held, and then
    processed. *)
Lemma retries_exhausted_after_max_witness :
  (exec scripted (decide_batch demo_cfg 15 demo_batch Starting)
     ((EvExec <$> demo_fails) ++ [EvState StateHalfOpen]) demo_full).1 =
    Returned (Some (Exhausted 0 flaky)) demo_full /\
  (exec scripted (decide_batch demo_cfg 21 demo_batch Starting)
     ((EvExec <$> demo_fails) ++ replicate 2 (EvState StateOpen) ++
       EvState StateClosed :: [EvExec (ProcessorReturned None)]) demo_full).1 =
    Returned (Some (Success 0)) demo_full.
Proof.
  destruct (retries_exhausted_after_max demo_cfg demo_batch demo_full demo_fails flaky) as [H1 H2];
    [vm_compute; discriminate|exact demo_fails_stay|reflexivity|reflexivity|reflexivity|reflexivity|].
  split; [apply H1; [discriminate|simpl; lia]|].
  rewrite (H2 21%nat 5%nat 2%nat StateClosed [EvExec (ProcessorReturned None)]);
    [reflexivity|lia|discriminate|simpl; lia|simpl; lia].
Defined.

Lemma success_within_budget_witness :
  (exec scripted (decide_batch demo_cfg 11 demo_batch Starting)
     ((EvExec <$> [fails; Rejected RejectOpen] ++ [fails]) ++ [EvExec (ProcessorReturned None)])
     demo_full).1 = Returned (Some (Success 0)) demo_full.
Proof.
  apply (success_within_budget demo_cfg 11 demo_batch demo_full [fails; Rejected RejectOpen] fails).
  - vm_compute. discriminate.
  - intros y Hy. simpl in Hy. rewrite !elem_of_cons, elem_of_nil in Hy.
    destruct Hy as [->|[->|[->|[]]]]; vm_compute; auto.
  - reflexivity.
  - vm_compute. lia.
  - simpl. lia.
Defined.

Lemma settle_completes_witness :
  exists s' o', exec calm (settle true demo_batch (Exhausted 0 flaky)) tt demo_full =
      (Returned tt s', o') /\
    settled_by true demo_batch (Exhausted 0 flaky) demo_full s' /\
    Committable (coord s') !! partition demo_batch = Some (wrap64 (batchMaxOffset demo_batch + 1)).
Proof.
  exact (settle_completes demo_cfg true calm demo_batch (Exhausted 0 flaky) tt demo_full
           (inv_coord _ demo_full_inv) demo_full_slot).
Defined.

Lemma failed_dlq_is_committed_witness :
  exists s' o', exec calm (settle false demo_batch (Exhausted 0 flaky)) tt demo_full =
      (Returned tt s', o') /\
    DLQMessages (m s') = DLQMessages (m demo_full) /\
    Committable (coord s') !! partition demo_batch = Some (wrap64 (batchMaxOffset demo_batch + 1)).
Proof.
  apply (failed_dlq_is_committed false calm demo_batch (Exhausted 0 flaky) flaky tt demo_full
           (inv_coord _ demo_full_inv) demo_full_slot).
  - exists 0. auto.
  - auto.
Defined.

(** A context cancelled while the processor is at work on the last attempt;
    the DLQ producer's delivery wait is interrupted. *)
Definition interrupted : handler query unit := fun X q u =>
  (match q in query Y return Y -> Y with
   | Execute _ => fun _ => ([], ProcessorReturned (Some Canceled))
   | BreakerState => fun _ => ([], StateClosed)
   | Sleep _ => fun _ => None
   | ProduceDLQ _ _ => fun _ => Some Canceled
   | _ => fun x => x
   end (calm X q u).1, u).


Lemma onBatchDone_progress_witness :
  exists s' o', exec calm (onBatchDone demo_cfg 1) tt demo_full = (Returned tt s', o') /\
    dispatcher_inv s' /\ (channel_full demo_cfg s' \/ forall q, attended demo_cfg s' q).
Proof.
  exact (onBatchDone_progress demo_cfg calm tt 1 demo_full eq_refl demo_full_inv eq_refl eq_refl).
Defined.

Lemma OnStateChange_spec_witness :
  let s := OnStateChange StateHalfOpen (OnStateChange StateOpen demo_full) in
  let s' := OnStateChange StateClosed s in
  circuitStateCh s' = [circuit.Open; circuit.HalfOpen; circuit.Closed] /\
  circuitStateCh s' = take 3 (circuitStateCh s ++ [gobreakerStateToCircuit StateClosed]).
Proof.
  split; [reflexivity|].
  apply (OnStateChange_spec (OnStateChange StateHalfOpen (OnStateChange StateOpen demo_full)) StateClosed).
  vm_compute. discriminate.
Defined.
