(* ===== verification/Machine.v ===== *)
(** The dispatcher's goroutines as a machine: the poll goroutine that calls the
    API, the workers, and the goroutines of fired linger timers interleave
    their atomic actions on the shared state, in any order and with any
    answers of the environment.  A worker's loops are unbounded here. *)
From S2P Require Import Prelude Types OffsetCoordinator Dispatcher Retry Worker.

(** * The machine *)

(** What the poll goroutine asks of the dispatcher and of the coordinator it
    shares with it ([internal/pollloop]).  [CallClose] is its last call. *)
Inductive api_call :=
| CallSend (p : Z) (msgs : list Message)
| CallAssigned (tps : list TopicPartition)
| CallRevoked (tps : list TopicPartition)
| CallCoordinatorReset (p : Z)
| CallRecvReady
| CallRecvCircuit
| CallClose.

(** What a call gives back. *)
Inductive reply :=
| ReplyNone
| ReplyError (err : option error)
| ReplyReady (received : bool)
| ReplyCircuit (received : option circuit.State).

Section Machine.
Context `{Coordinator C}.
Variable cfg : Config.
Variable hasDLQ : bool.
Local Abbreviation S := (UnorderedDispatcher C).
Local Abbreviation P := (prog query S).
Implicit Types s : S.

Definition receive_ready s : outcome S reply :=
  match recv_ready s with
  | Some s' => Returned (ReplyReady true) s'
  | None => Returned (ReplyReady false) s
  end.
Definition receive_circuit s : outcome S reply :=
  match recv_circuit s with
  | Some (st, s') => Returned (ReplyCircuit (Some st)) s'
  | None => Returned (ReplyCircuit None) s
  end.

Definition api_routine (k : api_call) : P reply :=
  match k with
  | CallSend p msgs => let* err := Send cfg p msgs in Ret (ReplyError err)
  | CallAssigned tps => let* _ := OnPartitionsAssigned cfg tps in Ret ReplyNone
  | CallRevoked tps => let* _ := OnPartitionsRevoked tps in Ret ReplyNone
  | CallCoordinatorReset p =>
      let* _ := modify (fun s => set_coord (Reset p (coord s)) s) in Ret ReplyNone
  | CallRecvReady => act receive_ready
  | CallRecvCircuit => act receive_circuit
  | CallClose => let* err := Close in Ret (ReplyError err)
  end.

(** A goroutine: what it still has to run.  The poll goroutine is in no
    call, in a call, about to revoke partitions, or in its last call.  A
    worker runs one iteration of its loops at a time ([WorkerDeciding]), then
    finishes the batch. *)
Inductive thread :=
| PollIdle
| PollRunning (c : P reply)
| PollRevoking (tps : list TopicPartition)
| PollClosing (c : P reply)
| PollDone
| WorkerIdle
| WorkerDeciding (b : batch) (c : P (control + verdict))
| WorkerFinishing (c : P unit)
| WorkerExited
| TimerRunning (c : P unit)
| TimerDone.

(** [crashed] is the panic of a goroutine without recovery, with its
    index, which ends the process; [panics] are the panics of the workers,
    newest first. *)
Record machine := mkMachine {
  st : S;
  threads : list thread;
  panics : list panic;
  crashed : option (nat * panic)
}.

Definition start (workers : nat) s : machine :=
  mkMachine s (PollIdle :: replicate workers WorkerIdle) [] None.

(** ** One atomic step of a routine *)

Definition answers := forall X, query X -> X.

(** [inl]: the rest to run; [inr]: the panic. *)
Definition step_prog {A} (ans : answers) (c : P A) s : option ((P A + panic) * S) :=
  match c with
  | Ret _ => None
  | Throw p => Some (inr p, s)
  | Act f k => match f s with
               | Returned x s' => Some (inl (k x), s')
               | Panicked p s' => Some (inr p, s')
               end
  | Ask e k => Some (inl (k (ans _ e)), s)
  end.

(** After the verdict: settle the batch, release the partition, and
    [WorkersActive.Dec]. *)
Definition finishing (b : batch) (v : verdict) : P unit :=
  let* _ := finish cfg hasDLQ b v in modify (upd_workers (-1)).
Definition beginning (b : batch) : P (control + verdict) :=
  let* _ := modify (upd_workers 1) in body cfg b Starting.

Definition set_thread (i : nat) (th : thread) s (x : machine) : machine :=
  mkMachine s (<[i := th]> (threads x)) (panics x) (crashed x).
Definition worker_panic (i : nat) (p : panic) s (x : machine) : machine :=
  mkMachine (worker_recover s) (<[i := WorkerExited]> (threads x)) (p :: panics x) (crashed x).
Definition crash (i : nat) (p : panic) s (x : machine) : machine :=
  mkMachine s (threads x) (panics x) (Some (i, p)).

(** Goroutine [i] runs one action, or returns. *)
Definition run_thread (i : nat) (ans : answers) (th : thread) (x : machine) : option machine :=
  match th with
  | PollRunning (Ret _) => Some (set_thread i PollIdle (st x) x)
  | PollClosing (Ret _) => Some (set_thread i PollDone (st x) x)
  | WorkerDeciding b (Ret (inl c)) =>
      Some (set_thread i (WorkerDeciding b (body cfg b c)) (st x) x)
  | WorkerDeciding b (Ret (inr v)) =>
      Some (set_thread i (WorkerFinishing (finishing b v)) (st x) x)
  | WorkerFinishing (Ret _) => Some (set_thread i WorkerIdle (st x) x)
  | TimerRunning (Ret _) => Some (set_thread i TimerDone (st x) x)
  | PollRunning c => match step_prog ans c (st x) with
                     | Some (inl c', s) => Some (set_thread i (PollRunning c') s x)
                     | Some (inr p, s) => Some (crash i p s x)
                     | None => None
                     end
  | PollRevoking tps =>
      match step_prog ans (api_routine (CallRevoked tps)) (st x) with
      | Some (inl c', s) => Some (set_thread i (PollRunning c') s x)
      | Some (inr p, s) => Some (crash i p s x)
      | None => None
      end
  | PollClosing c => match step_prog ans c (st x) with
                     | Some (inl c', s) => Some (set_thread i (PollClosing c') s x)
                     | Some (inr p, s) => Some (crash i p s x)
                     | None => None
                     end
  | WorkerDeciding b c => match step_prog ans c (st x) with
                          | Some (inl c', s) => Some (set_thread i (WorkerDeciding b c') s x)
                          | Some (inr p, s) => Some (worker_panic i p s x)
                          | None => None
                          end
  | WorkerFinishing c => match step_prog ans c (st x) with
                         | Some (inl c', s) => Some (set_thread i (WorkerFinishing c') s x)
                         | Some (inr p, s) => Some (worker_panic i p s x)
                         | None => None
                         end
  | TimerRunning c => match step_prog ans c (st x) with
                      | Some (inl c', s) => Some (set_thread i (TimerRunning c') s x)
                      | Some (inr p, s) => Some (crash i p s x)
                      | None => None
                      end
  | PollIdle | PollDone | WorkerIdle | WorkerExited | TimerDone => None
  end.

(** The scheduler's choices. *)
Inductive choice :=
| Run (i : nat) (ans : answers)   (* goroutine i runs *)
| Call (k : api_call)             (* the poll goroutine calls the dispatcher *)
| Recv (i : nat)                  (* worker i receives from the channel, or sees it closed *)
| Fire (t : nat).                 (* timer t fires *)

Definition sched (ch : choice) (x : machine) : option machine :=
  match crashed x with
  | Some _ => None
  | None =>
      match ch with
      | Run i ans => th ← threads x !! i; run_thread i ans th x
      | Call k =>
          match threads x !! 0%nat, k with
          | Some PollIdle, CallClose =>
              Some (set_thread 0 (PollClosing (api_routine k)) (st x) x)
          | Some PollIdle, CallRevoked tps => Some (set_thread 0 (PollRevoking tps) (st x) x)
          | Some PollIdle, _ => Some (set_thread 0 (PollRunning (api_routine k)) (st x) x)
          | _, _ => None
          end
      | Recv i =>
          match threads x !! i with
          | Some WorkerIdle =>
              match recv_batch (st x) with
              | Some (b, s) => Some (set_thread i (WorkerDeciding b (beginning b)) s x)
              | None => if batchChClosed (st x)
                        then Some (set_thread i WorkerExited (st x) x) else None
              end
          | _ => None
          end
      | Fire t =>
          p ← timers (st x) !! t;
          Some (mkMachine (set_timers (delete t (timers (st x))) (st x))
                  (threads x ++ [TimerRunning (linger_fired cfg p)]) (panics x) (crashed x))
      end
  end.

Definition step (x x' : machine) : Prop := exists ch, sched ch x = Some x'.

Fixpoint run (chs : list choice) (x : machine) : option machine :=
  match chs with
  | [] => Some x
  | ch :: chs => match sched ch x with Some x' => run chs x' | None => None end
  end.

Lemma run_reachable chs x x' : run chs x = Some x' -> reaches step x x'.
Proof.
  revert x. induction chs as [|ch chs IH]; intros x Hr; simpl in Hr; [simplify_eq; constructor|].
  destruct (sched ch x) as [y|] eqn:E; [|done]. eapply reaches_l; [by exists ch|auto].
Qed.
(** ** What a run delivers

    The messages the poll goroutine sends, the buffered messages it discards
    at a revocation, and the verdict a worker reaches on a batch, in the order
    of the run. *)
Inductive label :=
| Sent (p : Z) (msgs : list Message)
| Discarded (p : Z) (msgs : list Message)
| Decided (b : batch) (v : verdict).

(** What the revocation of [tps] discards. *)
Definition discards (tps : list TopicPartition) s : list label :=
  List.map (fun p => Discarded p (bufMessages (get_or_new p s)))
    (remove_dups (List.map tpPartition tps)).

Definition label_of (ch : choice) (x : machine) : list label :=
  match ch with
  | Call (CallSend p msgs) => [Sent p msgs]
  | Run i _ => match threads x !! i with
               | Some (WorkerDeciding b (Ret (inr v))) => [Decided b v]
               | Some (PollRevoking tps) => discards tps (st x)
               | _ => []
               end
  | _ => []
  end.

Fixpoint run_log (chs : list choice) (x : machine) : option (machine * list label) :=
  match chs with
  | [] => Some (x, [])
  | ch :: chs =>
      match sched ch x with
      | Some x1 => match run_log chs x1 with
                   | Some (x2, ls) => Some (x2, label_of ch x ++ ls)
                   | None => None
                   end
      | None => None
      end
  end.
End Machine.

(** The messages sent to partition [p], and its batches that were processed
    or given up (dead-lettered), in order. *)
Definition sent_of (p : Z) (l : label) : list Message :=
  match l with Sent q msgs => if q =? p then msgs else [] | _ => [] end.
Definition settled_of (p : Z) (l : label) : list batch :=
  match l with
  | Decided b v => if is_completed v && (partition b =? p) then [b] else []
  | _ => []
  end.

Fixpoint sent (p : Z) (ls : list label) : list Message :=
  match ls with [] => [] | l :: ls => sent_of p l ++ sent p ls end.
Fixpoint settled (p : Z) (ls : list label) : list batch :=
  match ls with [] => [] | l :: ls => settled_of p l ++ settled p ls end.

Lemma sent_app p ls ls' : sent p (ls ++ ls') = sent p ls ++ sent p ls'.
Proof. induction ls as [|l ls IH]; simpl; [done|]. by rewrite IH, app_assoc. Qed.

(** The messages sent to [p] that were not discarded.  A revocation takes
    back the last ones; [None] if it took anything else. *)
Definition discard (msgs ms : list Message) : option (list Message) :=
  if decide (drop (length ms - length msgs) ms = msgs)
  then Some (take (length ms - length msgs) ms) else None.
Definition keep_one (p : Z) (ms : list Message) (l : label) : option (list Message) :=
  match l with
  | Sent q msgs => Some (if q =? p then ms ++ msgs else ms)
  | Discarded q msgs => if q =? p then discard msgs ms else Some ms
  | Decided _ _ => Some ms
  end.
Definition keep_all (p : Z) (ms : option (list Message)) (ls : list label) : option (list Message) :=
  foldl (fun ms l => ms ← ms; keep_one p ms l) ms ls.
Definition kept (p : Z) (ls : list label) : option (list Message) := keep_all p (Some []) ls.

Lemma kept_app p ls ls' : kept p (ls ++ ls') = keep_all p (kept p ls) ls'.
Proof. apply foldl_app. Qed.

Lemma discard_suffix ms msgs : discard msgs (ms ++ msgs) = Some ms.
Proof.
  unfold discard. rewrite length_app, Nat.add_sub, drop_app_length, take_app_length.
  by rewrite decide_True.
Qed.

(** Without a revocation, all that was sent. *)
Lemma kept_sent p ls : (forall msgs, ~ Discarded p msgs ∈ ls) -> kept p ls = Some (sent p ls).
Proof.
  induction ls as [|l ls IH] using rev_ind; intros Hn; [done|].
  rewrite kept_app, sent_app, IH.
  2: { intros msgs Hin. apply (Hn msgs), elem_of_app. by left. }
  destruct l as [q msgs|q msgs|b v]; simpl; rewrite ?app_nil_r; [|..|done].
  - by destruct (q =? p); rewrite ?app_nil_r.
  - destruct (Z.eqb_spec q p) as [->|]; [|done].
    destruct (Hn msgs). apply elem_of_app. right. apply list_elem_of_here.
Qed.

Lemma settled_app p ls ls' : settled p (ls ++ ls') = settled p ls ++ settled p ls'.
Proof. induction ls as [|l ls IH]; simpl; [done|]. by rewrite IH, app_assoc. Qed.

(** Nothing is kept that was not sent. *)
Lemma kept_of_sent p ls ms msg : kept p ls = Some ms -> msg ∈ ms -> msg ∈ sent p ls.
Proof.
  revert ms. induction ls as [|l ls IH] using rev_ind; intros ms Hk Hm.
  { unfold kept in Hk. simpl in Hk. simplify_eq. by apply not_elem_of_nil in Hm. }
  rewrite kept_app in Hk. rewrite sent_app. apply elem_of_app.
  destruct (kept p ls) as [ms0|] eqn:E; [|done]. simpl in Hk.
  destruct l as [q msgs|q msgs|b v]; simpl in *; simplify_eq; [..|left; by eapply IH].
  - destruct (q =? p); simplify_eq; [|left; by eapply IH].
    rewrite app_nil_r. apply elem_of_app in Hm as [Hm|Hm]; [left; by eapply IH|by right].
  - left. destruct (q =? p); simplify_eq; [|by eapply IH]. unfold discard in Hk.
    destruct (decide _); [|done]. simplify_eq. eapply IH; [done|].
    rewrite <- (take_drop (length ms0 - length msgs) ms0). apply elem_of_app. by left.
Qed.
