(* ===== verification/Winding.v ===== *)
(** Winding down: the machinery behind the theorems that the dispatcher's
    goroutines ([Machine]) come to rest.  Given what the environment may answer
    and a rank of a worker's control states that its loops decrease, each
    goroutine ends, whatever the others do ([later_wf]); and every step of the
    machine by a goroutine moves that goroutine on ([run_thread_moved]). *)
From S2P Require Import Prelude Types OffsetCoordinator Dispatcher Retry Worker Machine.

(** * Well-founded lists

    One element of a list is replaced by a smaller one. *)
Definition one_less {A} (R : A -> A -> Prop) (l' l : list A) : Prop :=
  exists i x y, l !! i = Some x /\ l' = <[i := y]> l /\ R y x.

Lemma one_less_cons {A} (R : A -> A -> Prop) l' x l :
  one_less R l' (x :: l) ->
  (exists y, l' = y :: l /\ R y x) \/ (exists l1, l' = x :: l1 /\ one_less R l1 l).
Proof.
  intros ([|i] & z & y & Hi & -> & HR); simpl in *; simplify_eq; [left; eauto|].
  right. eexists. split; [done|]. by exists i, z, y.
Qed.

Lemma one_less_wf {A} (R : A -> A -> Prop) : well_founded R -> well_founded (one_less R).
Proof.
  intros HR l. induction l as [|x l IH].
  { constructor. by intros l' (i & x & y & ? & _). }
  revert l IH. induction (HR x) as [x _ IHx]. intros l Hl. induction Hl as [l Hl IHl].
  constructor. intros l' [(y & -> & Hy)|(l1 & -> & Hl1)]%one_less_cons; [|by apply IHl].
  apply IHx; [done|]. by constructor.
Qed.

Section Winding.
Context `{Coordinator C}.
Variable cfg : Config.
Variable hasDLQ : bool.
Local Abbreviation S := (UnorderedDispatcher C).
Local Abbreviation P := (prog query S).
Local Abbreviation thread := (thread (C := C)).
Local Abbreviation machine := (machine (C := C)).
Implicit Types s : S.

(** * Given answers *)

Variable given : forall X, query X -> X -> Prop.
Definition answers_given (ans : answers) : Prop := forall X (e : query X), given X e (ans X e).

(** What a routine can return then. *)
Fixpoint leaves {A} (L : A -> Prop) (c : P A) : Prop :=
  match c with
  | Ret a => L a
  | Throw _ => True
  | Act f k => forall x, leaves L (k x)
  | Ask e k => forall x, given _ e x -> leaves L (k x)
  end.

Lemma leaves_any {A} (L : A -> Prop) (c : P A) : (forall a, L a) -> leaves L c.
Proof. intros HL. induction c as [a|p|X f k IH|X e k IH]; simpl; eauto. Qed.

Lemma leaves_bind {A B} (L : B -> Prop) (M : A -> Prop) (c : P A) (f : A -> P B) :
  leaves M c -> (forall a, M a -> leaves L (f a)) -> leaves L (bind c f).
Proof. intros Hc Hf. induction c as [a|p|X g k IH|X e k IH]; simpl in *; eauto. Qed.

Lemma leaves_then {A B} (L : B -> Prop) (c : P A) (f : A -> P B) :
  (forall a, leaves L (f a)) -> leaves L (bind c f).
Proof. intros Hf. apply (leaves_bind L (fun _ => True)); [by apply leaves_any|auto]. Qed.

(** The next action of a routine. *)
Definition child {A} (c' c : P A) : Prop :=
  match c with
  | Act f k => exists x, c' = k x
  | Ask e k => exists x, given _ e x /\ c' = k x
  | _ => False
  end.

Lemma child_leaves {A} (L : A -> Prop) (c' c : P A) : child c' c -> leaves L c -> leaves L c'.
Proof. destruct c; simpl; [done..| |]; [intros [x ->]|intros (x & Hx & ->)]; auto. Qed.

(** * The loops of a worker

    Every iteration of [processBatch]'s loops decreases the rank. *)
Variable rank : control -> nat.
Definition outranks (c : control) (r : control + verdict) : Prop :=
  match r with inl c' => (rank c' < rank c)%nat | inr _ => True end.
Hypothesis body_leaves : forall b c, leaves (outranks c) (body cfg b c).

(** * A goroutine winds down *)

Definition later (th' th : thread) : Prop :=
  match th with
  | PollRunning c => (exists c', child c' c /\ th' = PollRunning c') \/ th' = PollIdle
  | PollRevoking _ => exists c, th' = PollRunning c
  | PollClosing c => (exists c', child c' c /\ th' = PollClosing c') \/ th' = PollDone
  | WorkerDeciding b c =>
      (exists c', child c' c /\ th' = WorkerDeciding b c') \/
      (exists ctl, c = Ret (inl ctl) /\ th' = WorkerDeciding b (body cfg b ctl)) \/
      (exists c', th' = WorkerFinishing c') \/ th' = WorkerExited
  | WorkerFinishing c =>
      (exists c', child c' c /\ th' = WorkerFinishing c') \/ th' = WorkerIdle \/ th' = WorkerExited
  | WorkerIdle => th' = WorkerExited
  | TimerRunning c => (exists c', child c' c /\ th' = TimerRunning c') \/ th' = TimerDone
  | PollIdle | PollDone | WorkerExited | TimerDone => False
  end.

Lemma running_acc {A} (K : P A -> thread) (L : A -> Prop) :
  (forall c th, leaves L c -> later th (K c) ->
     (exists c', child c' c /\ th = K c') \/ Acc later th) ->
  forall c, leaves L c -> Acc later (K c).
Proof.
  intros HK c. induction c as [a|p|X f k IH|X e k IH]; intros Hc; constructor; intros th Hth;
    destruct (HK _ _ Hc Hth) as [(c' & Hch & ->)|Ha]; try exact Ha; simpl in Hch, Hc.
  - destruct Hch.
  - destruct Hch.
  - destruct Hch as [x ->]. apply IH, Hc.
  - destruct Hch as (x & Hx & ->). apply IH, Hc, Hx.
Qed.

Lemma still_acc th : (forall th', ~ later th' th) -> Acc later th.
Proof. intros Hn. constructor. intros th' Hth. destruct (Hn th' Hth). Qed.

Lemma exited_acc : Acc later WorkerExited.
Proof. apply still_acc. by intros th' []. Qed.
Lemma idle_acc : Acc later WorkerIdle.
Proof. constructor. intros th ->. apply exited_acc. Qed.

Lemma finishing_acc c : Acc later (WorkerFinishing c).
Proof.
  apply (running_acc WorkerFinishing (fun _ => True)); [|by apply leaves_any].
  intros c1 th _ [?|[->| ->]]; [by left|right; apply idle_acc|right; apply exited_acc].
Qed.

(** From leaves whose continuation ends. *)
Lemma deciding_acc b (L : control + verdict -> Prop) :
  (forall ctl, L (inl ctl) -> Acc later (WorkerDeciding b (body cfg b ctl))) ->
  forall c, leaves L c -> Acc later (WorkerDeciding b c).
Proof.
  intros HL. apply (running_acc (WorkerDeciding b)).
  intros c th Hc [?|[(ctl & -> & ->)|[[c' ->]| ->]]]; [by left|right..].
  - apply HL, Hc.
  - apply finishing_acc.
  - apply exited_acc.
Qed.

Lemma body_acc b ctl : Acc later (WorkerDeciding b (body cfg b ctl)).
Proof.
  induction ctl as [ctl IH] using (induction_ltof1 _ rank). unfold ltof in IH.
  eapply (deciding_acc b (outranks ctl)); [|apply body_leaves]. intros ctl'. apply IH.
Qed.

Lemma running_poll_acc c : Acc later (PollRunning c).
Proof.
  apply (running_acc PollRunning (fun _ => True)); [|by apply leaves_any].
  intros c1 th _ [?| ->]; [by left|right]. apply still_acc. by intros th' [].
Qed.

Lemma later_wf : well_founded later.
Proof.
  intros [|c|tps|c| | |b c|c| |c|]; try (apply still_acc; by intros th' []).
  - apply running_poll_acc.
  - constructor. intros th [c ->]. apply running_poll_acc.
  - apply (running_acc PollClosing (fun _ => True)); [|by apply leaves_any].
    intros c1 th _ [?| ->]; [by left|right]. apply still_acc. by intros th' [].
  - apply idle_acc.
  - eapply (deciding_acc b (fun _ => True)); [|by apply leaves_any]. intros ctl _. apply body_acc.
  - apply finishing_acc.
  - apply (running_acc TimerRunning (fun _ => True)); [|by apply leaves_any].
    intros c1 th _ [?| ->]; [by left|right]. apply still_acc. by intros th' [].
Qed.

(** * What the routines do to the channel and the timers *)

(** Once the channel is closed it stays so, and only shrinks. *)
Definition shrinks s s' : Prop :=
  batchChClosed s = true -> batchChClosed s' = true /\ (length (batchCh s') <= length (batchCh s))%nat.
(** And no timer is armed. *)
Definition disarms s s' : Prop := shrinks s s' /\ (size (timers s') <= size (timers s))%nat.

Lemma shrinks_same s s' :
  batchCh s' = batchCh s -> batchChClosed s' = batchChClosed s -> shrinks s s'.
Proof. unfold shrinks. intros -> -> ?. by split. Qed.
Lemma disarms_same s s' :
  batchCh s' = batchCh s -> batchChClosed s' = batchChClosed s -> timers s' = timers s -> disarms s s'.
Proof. intros ? ? E. split; [by apply shrinks_same|by rewrite E]. Qed.

(** Every action of a routine does only [Q]. *)
Definition result_ok {X} (Q : S -> S -> Prop) s (r : outcome S X) : Prop :=
  match r with Returned _ s' | Panicked _ s' => Q s s' end.
Fixpoint tame {A} (Q : S -> S -> Prop) (c : P A) : Prop :=
  match c with
  | Ret _ | Throw _ => True
  | Act f k => (forall s, result_ok Q s (f s)) /\ forall x, tame Q (k x)
  | Ask e k => forall x, tame Q (k x)
  end.

Lemma tame_bind {A B} Q (c : P A) (f : A -> P B) :
  tame Q c -> (forall a, tame Q (f a)) -> tame Q (bind c f).
Proof. intros Hc Hf. induction c as [a|p|X g k IH|X e k IH]; simpl in *; intuition auto. Qed.

Lemma tame_act {X} Q (f : S -> outcome S X) : (forall s, result_ok Q s (f s)) -> tame Q (act f).
Proof. by split. Qed.
Lemma tame_modify Q (f : S -> S) : (forall s, Q s (f s)) -> tame Q (modify f).
Proof. by split. Qed.

Section Dispatching.
Variable Q : S -> S -> Prop.
Hypothesis Q_same : forall s s',
  batchCh s' = batchCh s -> batchChClosed s' = batchChClosed s -> timers s' = timers s -> Q s s'.
Hypothesis Q_sent : forall s b, batchChClosed s = false -> Q s (set_batchCh (batchCh s ++ [b]) s).
Hypothesis Q_stopped : forall s s' t, batchCh s' = batchCh s -> batchChClosed s' = batchChClosed s ->
  timers s' = timers (stop_timer t s) -> Q s s'.

Lemma set_inFlight_fields p f s :
  batchCh (set_inFlight p f s) = batchCh s /\ batchChClosed (set_inFlight p f s) = batchChClosed s /\
  timers (set_inFlight p f s) = timers s.
Proof. unfold set_inFlight. by destruct (buffers s !! p). Qed.

Lemma stop_timer_fields t s :
  batchCh (stop_timer t s) = batchCh s /\ batchChClosed (stop_timer t s) = batchChClosed s.
Proof. by destruct t. Qed.

Lemma assemble_ok pb p s : result_ok Q s (assemble_in_flight cfg pb p s).
Proof.
  unfold assemble_in_flight, assembleBatch.
  destruct (_ <? 0); [by apply Q_same|]. destruct (last _); [|by apply Q_same].
  set (s1 := put_buffer _ _ s). cbn [result_ok].
  destruct (set_inFlight_fields p true (stop_timer (lingerTimer pb) s1)) as (E1 & E2 & E3).
  destruct (stop_timer_fields (lingerTimer pb) s1) as [F1 F2].
  apply (Q_stopped _ _ (lingerTimer pb)); [by rewrite E1, F1|by rewrite E2, F2|].
  rewrite E3. by destruct (lingerTimer pb).
Qed.

Lemma flush_locked_ok p s : result_ok Q s (flushPartition_locked cfg p s).
Proof.
  unfold flushPartition_locked. destruct (buffers s !! p); [|by apply Q_same].
  destruct (_ || _); [by apply Q_same|apply assemble_ok].
Qed.

Lemma with_coord_ok f s : result_ok Q s (with_coord f s).
Proof. unfold with_coord. destruct (f (coord s)); by apply Q_same. Qed.

Lemma dispatchBatch_tame b : tame Q (dispatchBatch cfg b).
Proof.
  unfold dispatchBatch. split; [intros s; by apply Q_same|]. intros []; [done|].
  split; [intros s; apply with_coord_ok|]. intros []. split.
  - intros s. unfold try_send. destruct (batchChClosed s) eqn:E; [by apply Q_same|].
    destruct (_ <? _); [by apply Q_sent|by apply Q_same].
  - intros []; simpl.
    + split; [intros s; by apply Q_same|done].
    + split; [intros s; apply with_coord_ok|]. intros []. split; [|done]. intros s. unfold return_batch.
      destruct (buffers s !! partition b); by apply Q_same.
Qed.
End Dispatching.

Lemma closed_not_open s : batchChClosed s = false -> batchChClosed s = true -> False.
Proof. congruence. Qed.

Lemma shrinks_sent s b : batchChClosed s = false -> shrinks s (set_batchCh (batchCh s ++ [b]) s).
Proof. intros E E'. by destruct (closed_not_open s). Qed.

Lemma dispatch_shrinks b : tame shrinks (dispatchBatch cfg b).
Proof. apply dispatchBatch_tame; [intros; by apply shrinks_same|apply shrinks_sent]. Qed.

Lemma size_delete_le (m : gmap nat Z) i : (size (delete i m) <= size m)%nat.
Proof. rewrite map_size_delete. destruct (m !! i); simpl; lia. Qed.

Lemma disarms_stopped s s' t : batchCh s' = batchCh s -> batchChClosed s' = batchChClosed s ->
  timers s' = timers (stop_timer t s) -> disarms s s'.
Proof.
  intros ? ? E. split; [by apply shrinks_same|]. rewrite E.
  destruct t; simpl; [apply size_delete_le|done].
Qed.

Lemma linger_tame p : tame disarms (linger_fired cfg p).
Proof.
  unfold linger_fired, flushPartition. split.
  { intros s. apply disarms_same; unfold clear_timer; by destruct (buffers s !! p). }
  intros []. split.
  - intros s. apply flush_locked_ok; [apply disarms_same|apply disarms_stopped].
  - intros [b|]; [|done]. apply (tame_bind disarms (dispatchBatch cfg b)); [|done].
    apply dispatchBatch_tame; [apply disarms_same|]. intros s b1 E. split; [by apply shrinks_sent|done].
Qed.

(** ** The other routines *)

Ltac tame_all := repeat (simpl; match goal with
  | |- True => exact I
  | |- _ /\ _ => split
  | |- forall _, _ => intro
  | |- tame _ (bind _ _) => apply tame_bind
  | |- tame _ (match ?o with _ => _ end) => destruct o
  | |- result_ok _ _ _ => apply shrinks_same; reflexivity
  | |- shrinks _ _ => apply shrinks_same; reflexivity
  end).

Lemma notify_tame tos : tame shrinks (notify (C := C) tos).
Proof.
  induction tos as [|to tos IH]; [done|]. split; [|intros; apply IH]. intros s. simpl.
  unfold OnStateChange. destruct (_ <? 3); by apply shrinks_same.
Qed.

Lemma execute_tame b : tame shrinks (execute (C := C) b).
Proof.
  intros [tos r]. cbn [bind]. apply tame_bind; [apply notify_tame|]. intros _. simpl. by destruct r as [[]| |].
Qed.

Lemma body_tame b ctl : tame shrinks (body cfg b ctl).
Proof.
  destruct ctl as [|start a lastErr|]; simpl; [done|..].
  - destruct (_ <=? _).
    + unfold attempt_body. apply tame_bind; [destruct (0 <? a); tame_all|]. intros [e|]; [done|].
      apply tame_bind; [apply execute_tame|]. intros [[e|] [e'|]]; tame_all.
    + intros [tos r]. cbn [bind]. apply tame_bind; [apply notify_tame|]. intros []. tame_all.
  - intros [e|]; [done|]. intros [tos r]. cbn [bind]. apply tame_bind; [apply notify_tame|]. intros []. tame_all.
Qed.

Lemma tryDispatch_tame p : tame shrinks (tryDispatch cfg p).
Proof.
  split; [|intros [b|]; [apply dispatch_shrinks|done]]. intros s. unfold tryDispatch_locked.
  destruct (buffers s !! p) as [pb|] eqn:E; [|by apply shrinks_same]. destruct (_ || _); [by apply shrinks_same|].
  destruct (_ <=? _).
  - apply assemble_ok; intros; by apply shrinks_same.
  - unfold startLingerTimer. rewrite E. destruct (lingerTimer pb); by apply shrinks_same.
Qed.

Lemma drain_tame ps : tame shrinks (drain cfg ps).
Proof.
  induction ps as [|p ps IH]; [done|]. apply tame_bind; [apply tryDispatch_tame|]. by intros [e|].
Qed.

Lemma finishing_tame b v : tame shrinks (finishing cfg hasDLQ b v).
Proof.
  unfold finishing. apply tame_bind; [|intros; split; [intros s; by apply shrinks_same|done]].
  assert (Hd : tame shrinks (onBatchDone cfg (partition b))).
  { split; [intros s; apply shrinks_same; apply (set_inFlight_fields (partition b) false s)|].
    intros pending [order Ho]. split; [intros s; by apply shrinks_same|]. intros []. apply drain_tame. }
  assert (Hc : tame shrinks (complete b)) by (split; [intros s; apply with_coord_ok; intros; by apply shrinks_same|done]).
  assert (Hm : forall start status, tame shrinks (recordBatchMetrics (C := C) b start status))
    by (intros start status now; split; [intros s; by apply shrinks_same|done]).
  assert (Hq : forall e status, tame shrinks (sendToDLQ (C := C) hasDLQ b e status))
    by (intros e status; unfold sendToDLQ; destruct hasDLQ; tame_all).
  destruct v as [start|start e|start e|]; [..|done]; apply tame_bind; auto; unfold settle;
    repeat (apply tame_bind; [auto|intros []]); auto.
Qed.

Lemma beginning_tame b : tame shrinks (beginning cfg b).
Proof. split; [intros s; by apply shrinks_same|]. intros []. apply body_tame. Qed.

Lemma foldl_revoke s tps :
  batchCh (foldl revoke_one s tps) = batchCh s /\ batchChClosed (foldl revoke_one s tps) = batchChClosed s.
Proof.
  revert s. induction tps as [|tp tps IH]; intros s; [done|]. simpl.
  destruct (IH (revoke_one s tp)) as [-> ->]. unfold revoke_one.
  destruct (buffers s !! tpPartition tp) as [pb|]; [|done]. by destruct (lingerTimer pb).
Qed.

Lemma assign_all_shrinks tps s : result_ok shrinks s (assign_all cfg tps s).
Proof.
  assert (Hs : forall s', batchCh s' = batchCh s -> batchChClosed s' = batchChClosed s ->
    result_ok shrinks s (assign_all cfg tps s')).
  { induction tps as [|tp tps IH]; intros s' H1 H2; simpl; [by apply shrinks_same|].
    destruct (make_panics _ _ _); [by apply shrinks_same|]. apply IH;
    unfold assign_one; by destruct (buffers s' !! tpPartition tp). }
  by apply Hs.
Qed.

Lemma api_tame k : tame shrinks (api_routine cfg k).
Proof.
  destruct k as [p msgs|tps|tps|p| | |].
  - apply tame_bind; [|done]. apply tame_bind.
    + apply tame_act. intros s. unfold Send_locked.
      destruct (closed s); [by apply shrinks_same|]. destruct (make_panics _ _ _); by apply shrinks_same.
    + intros [e|]; [done|apply tryDispatch_tame].
  - apply tame_bind; [|done]. apply tame_act. intros s. apply assign_all_shrinks.
  - apply tame_bind; [|done]. apply tame_modify. intros s. apply shrinks_same; apply foldl_revoke.
  - split; [intros s; by apply shrinks_same|done].
  - split; [|done]. intros s. unfold receive_ready, recv_ready. destruct (readyCh s); by apply shrinks_same.
  - split; [|done]. intros s. unfold receive_circuit, recv_circuit.
    destruct (circuitStateCh s); by apply shrinks_same.
  - apply tame_bind; [|done]. split; [|done]. intros s. unfold Close_locked.
    destruct (batchChClosed s) eqn:E; [by apply shrinks_same|]. intros E'. congruence.
Qed.

(** * The machine winds down *)

Definition thread_tame (th : thread) : Prop :=
  match th with
  | PollRunning c | PollClosing c => tame shrinks c
  | WorkerDeciding _ c => tame shrinks c
  | WorkerFinishing c => tame shrinks c
  | TimerRunning c => tame disarms c
  | PollIdle | PollRevoking _ | PollDone | WorkerIdle | WorkerExited | TimerDone => True
  end.
Definition all_tame (x : machine) : Prop := Forall thread_tame (threads x).

Definition is_timer (th : thread) : bool :=
  match th with TimerRunning _ | TimerDone => true | _ => false end.

Lemma step_prog_tame {A} Q ans (c : P A) s r s' :
  (forall s, Q s s) -> tame Q c -> step_prog ans c s = Some (r, s') ->
  Q s s' /\ match r with inl c' => tame Q c' | inr _ => True end.
Proof.
  intros HQ Hc Hs. destruct c as [a|p|X f k|X e k]; simpl in *; [done|..].
  - by simplify_eq.
  - destruct Hc as [Hf Hk]. specialize (Hf s). destruct (f s) as [y s1|p s1]; simplify_eq; simpl in Hf; auto.
  - simplify_eq. auto.
Qed.

Lemma step_prog_child {A} ans (c c' : P A) s s' :
  answers_given ans -> step_prog ans c s = Some (inl c', s') -> child c' c.
Proof.
  intros Ha Hs. destruct c as [a|p|X f k|X e k]; simpl in *; [done|done|..].
  - destruct (f s); simplify_eq. eauto.
  - simplify_eq. exists (ans X e). split; [apply Ha|done].
Qed.

Lemma shrinks_refl s : shrinks s s.
Proof. by apply shrinks_same. Qed.
Lemma disarms_refl s : disarms s s.
Proof. by apply disarms_same. Qed.

(** What an action of goroutine [th] does to the shared state. *)
Definition effect (th : thread) s s' : Prop :=
  shrinks s s' /\ (is_timer th = true -> (size (timers s') <= size (timers s))%nat).

(** The outcome of an action: the process has died, or the goroutine moved
    on. *)
Definition moved (R : thread -> thread -> Prop) (i : nat) (th : thread) (x y : machine) : Prop :=
  effect th (st x) (st y) /\
  ((crashed y <> None /\ threads y = threads x) \/
   exists th', R th' th /\ is_timer th' = is_timer th /\ thread_tame th' /\
     threads y = <[i := th']> (threads x) /\ crashed y = crashed x).

Lemma moved_to (R : thread -> thread -> Prop) i th th' s (x : machine) :
  effect th (st x) s -> R th' th -> is_timer th' = is_timer th -> thread_tame th' ->
  moved R i th x (set_thread i th' s x).
Proof. intros He HR Ht Htm. split; [done|]. right. by exists th'. Qed.

Lemma effect_of th s s' : shrinks s s' -> is_timer th = false -> effect th s s'.
Proof. intros Hs Ht. split; [done|]. by rewrite Ht. Qed.

(** Any step of a goroutine; [R] may rely on the given answers. *)
Section Moves.
Variable R : thread -> thread -> Prop.
Variable ans : answers.
Variable i : nat.
Variable x : machine.
Variable th : thread.
Hypothesis HR : forall th', (answers_given ans -> later th' th) -> R th' th.

(** What [run_thread] does with a program that has not returned. *)
Definition stepped {A} (K : P A -> thread) (fail : panic -> S -> machine) (c : P A) : option machine :=
  match step_prog ans c (st x) with
  | Some (inl c', s) => Some (set_thread i (K c') s x)
  | Some (inr p, s) => Some (fail p s)
  | None => None
  end.

Lemma done_moved th' :
  is_timer th' = is_timer th -> thread_tame th' -> later th' th -> moved R i th x (set_thread i th' (st x) x).
Proof. intros Hn Ht Hl. apply moved_to; [split; [apply shrinks_refl|done]|by apply HR|done..]. Qed.

Lemma crash_moved p s : effect th (st x) s -> moved R i th x (crash i p s x).
Proof. intros He. split; [done|by left]. Qed.

Lemma exit_moved p s :
  is_timer th = false -> later WorkerExited th -> shrinks (st x) s -> moved R i th x (worker_panic i p s x).
Proof.
  intros Hn Hl Hs. split; [by apply effect_of|]. right. exists WorkerExited. split; [by apply HR|].
  by rewrite Hn.
Qed.

Lemma stepped_moved {A} Q (K : P A -> thread) fail c y :
  (forall s, Q s s) -> (forall s s', Q s s' -> effect th s s') ->
  (forall c', is_timer (K c') = is_timer th) -> (forall c', tame Q c' -> thread_tame (K c')) ->
  (forall c', child c' c -> later (K c') th) ->
  (forall p s, effect th (st x) s -> moved R i th x (fail p s)) ->
  tame Q c -> stepped K fail c = Some y -> moved R i th x y.
Proof.
  intros HQ He HK HKt Hl Hfail Hc Hy. unfold stepped in Hy.
  destruct (step_prog ans c (st x)) as [[[c'|p] s]|] eqn:Es; [..|done]; simplify_eq;
    destruct (step_prog_tame Q ans c _ _ _ HQ Hc Es) as [Hs Hc']; [|apply Hfail, He, Hs].
  apply moved_to; [by apply He| |by rewrite HK|by apply HKt].
  apply HR. intros Ha. apply Hl. by eapply step_prog_child.
Qed.

Lemma poll_moved (K : P reply -> thread) c y :
  is_timer th = false -> (forall c', is_timer (K c') = false) ->
  (forall c', tame shrinks c' -> thread_tame (K c')) -> (forall c', child c' c -> later (K c') th) ->
  tame shrinks c -> stepped K (fun p s => crash i p s x) c = Some y -> moved R i th x y.
Proof.
  intros Hn HK HKt Hl. apply (stepped_moved shrinks); try done; [by intros; apply effect_of|..].
  - intros c'. by rewrite HK, Hn.
  - intros p s. apply crash_moved.
Qed.

Lemma worker_moved {A} (K : P A -> thread) c y :
  is_timer th = false -> later WorkerExited th -> (forall c', is_timer (K c') = false) ->
  (forall c', tame shrinks c' -> thread_tame (K c')) -> (forall c', child c' c -> later (K c') th) ->
  tame shrinks c -> stepped K (fun p s => worker_panic i p s x) c = Some y -> moved R i th x y.
Proof.
  intros Hn He HK HKt Hl. apply (stepped_moved shrinks); try done; [by intros; apply effect_of|..].
  - intros c'. by rewrite HK, Hn.
  - intros p s [Hs _]. by apply exit_moved.
Qed.
End Moves.

Lemma run_thread_moved (R : thread -> thread -> Prop) i ans th x y :
  thread_tame th -> (forall th', (answers_given ans -> later th' th) -> R th' th) ->
  run_thread cfg hasDLQ i ans th x = Some y -> moved R i th x y.
Proof.
  intros Ht HR Hr. destruct th as [|c|tps|c| | |b c|c| |c|]; simpl in Ht; try done.
  - destruct c; [|by eapply (poll_moved R ans i x _ HR PollRunning); eauto; left; eauto..].
    simpl in Hr. simplify_eq. apply (done_moved R ans i x _ HR); [done..|by right].
  - simpl in Hr. simplify_eq. apply moved_to; [|apply HR; by eexists|done|done].
    apply effect_of; [|done]. apply shrinks_same; apply foldl_revoke.
  - destruct c; [|by eapply (poll_moved R ans i x _ HR PollClosing); eauto; left; eauto..].
    simpl in Hr. simplify_eq. apply (done_moved R ans i x _ HR); [done..|by right].
  - destruct c as [[ctl|v]| | |];
      [| |(by eapply (worker_moved R ans i x _ HR (WorkerDeciding b)); eauto; simpl; eauto 6)..];
      simpl in Hr; simplify_eq; apply (done_moved R ans i x _ HR); try done; simpl; eauto 6.
    + apply body_tame.
    + apply finishing_tame.
  - destruct c; [|(by eapply (worker_moved R ans i x _ HR WorkerFinishing); eauto; simpl; eauto 6)..].
    simpl in Hr. simplify_eq. apply (done_moved R ans i x _ HR); [done..|by right; left].
  - destruct c; [|eapply (stepped_moved R ans i x _ HR disarms TimerRunning (fun p s => crash i p s x));
      first [exact Hr|exact Ht|exact disarms_refl|by intros s s' [? ?]|intros; by apply crash_moved|
             intros c' Hc'; left; by exists c'|simpl; eauto]..].
    simpl in Hr. simplify_eq. apply (done_moved R ans i x _ HR); [done..|by right].
Qed.

(** ** Every machine has tame goroutines *)

Lemma tame_insert i th (x : machine) : all_tame x -> thread_tame th -> Forall thread_tame (<[i := th]> (threads x)).
Proof. intros Hx Ht. by apply Forall_insert. Qed.

Lemma sched_tame ch x y : all_tame x -> sched cfg hasDLQ ch x = Some y -> all_tame y.
Proof.
  intros Hx Hs. unfold sched in Hs. destruct (crashed x); [done|]. destruct ch as [i ans|k|i|t].
  - destruct (threads x !! i) as [th|] eqn:Hi; [|done]. simpl in Hs.
    assert (Ht : thread_tame th) by (eapply Forall_lookup_1; eauto).
    destruct (run_thread_moved (fun _ _ => True) i ans th x y Ht (fun _ _ => I) Hs)
      as [_ [[_ Hth]|(th' & _ & _ & Ht' & Hth & _)]]; unfold all_tame; rewrite Hth; [done|].
    by apply tame_insert.
  - destruct (threads x !! 0%nat) as [[]|]; try done.
    pose proof (api_tame k). destruct k; injection Hs as <-; by apply tame_insert.
  - destruct (threads x !! i) as [[]|]; try done. destruct (recv_batch (st x)) as [[b s]|].
    + simplify_eq. apply tame_insert; [done|]. apply beginning_tame.
    + destruct (batchChClosed (st x)); simplify_eq. by apply tame_insert.
  - destruct (timers (st x) !! t); simplify_eq. simpl in Hs. simplify_eq. unfold all_tame. simpl.
    apply Forall_app. split; [done|]. apply Forall_singleton, linger_tame.
Qed.

Lemma reachable_tame n c x :
  reaches (step cfg hasDLQ) (start n (NewUnorderedDispatcher c)) x -> all_tame x.
Proof.
  apply (reaches_invariant (step cfg hasDLQ) all_tame).
  - intros a b Ha [ch Hs]. by eapply sched_tame.
  - apply Forall_cons. split; [done|]. by apply Forall_replicate.
Qed.

(** ** The measure *)

Definition core (x : machine) : list thread :=
  filter (fun th => is_timer th = false) (threads x).
Definition fired (x : machine) : list thread :=
  filter (fun th => is_timer th = true) (threads x).

Lemma filter_one_less (P : thread -> Prop) `{!forall th, Decision (P th)} R (l : list thread) i th th' :
  l !! i = Some th -> P th -> P th' -> R th' th ->
  one_less R (filter P (<[i := th']> l)) (filter P l).
Proof.
  intros Hi HP HP' HR. assert (Hlt : (i < length l)%nat) by (by eapply lookup_lt_Some).
  rewrite (insert_take_drop l i th') by done. rewrite <- (take_drop_middle l i th Hi) at 3.
  rewrite !filter_app, !filter_cons, !decide_True by done.
  exists (length (filter P (take i l))), th, th'. split; [by apply list_lookup_middle|].
  split; [by rewrite insert_app_r_alt, Nat.sub_diag|done].
Qed.

Lemma filter_same (P : thread -> Prop) `{!forall th, Decision (P th)} (l : list thread) i th th' :
  l !! i = Some th -> ~ P th -> ~ P th' -> filter P (<[i := th']> l) = filter P l.
Proof.
  intros Hi HP HP'. assert (Hlt : (i < length l)%nat) by (by eapply lookup_lt_Some).
  rewrite (insert_take_drop l i th') by done. rewrite <- (take_drop_middle l i th Hi) at 3.
  by rewrite !filter_app, !filter_cons, !decide_False.
Qed.

(** A system whose steps each use up something: first of all [weight], then
    [load], an action of [line], an armed timer, or an action of [side]. *)
Section Descent.
Variable X : Type.
Variables weight load armed : X -> nat.
Variables line side : X -> list thread.

Inductive spent (y x : X) : Prop :=
| spent_weight : (weight y < weight x)%nat -> spent y x
| spent_load : (weight y <= weight x)%nat -> (load y < load x)%nat -> spent y x
| spent_line : (weight y <= weight x)%nat -> (load y <= load x)%nat ->
    one_less later (line y) (line x) -> spent y x
| spent_armed : (weight y <= weight x)%nat -> (load y <= load x)%nat -> line y = line x ->
    (armed y < armed x)%nat -> spent y x
| spent_side : (weight y <= weight x)%nat -> (load y <= load x)%nat -> line y = line x ->
    (armed y <= armed x)%nat -> one_less later (side y) (side x) -> spent y x.

Lemma spent_wf : well_founded spent.
Proof.
  assert (Hwf : well_founded (one_less later)) by apply one_less_wf, later_wf.
  intros x. remember (weight x) as w eqn:Ew. assert (Hw : (weight x <= w)%nat) by lia. clear Ew.
  remember (load x) as n eqn:En. assert (Hn : (load x <= n)%nat) by lia. clear En.
  remember (line x) as l eqn:El. remember (armed x) as t eqn:Et.
  assert (Ht : (armed x <= t)%nat) by lia. clear Et. remember (side x) as f eqn:Ef.
  revert n l t f x Hw Hn El Ht Ef.
  induction w as [w IHw] using lt_wf_ind. intros n.
  induction n as [n IHn] using lt_wf_ind. intros l.
  induction l as [l IHl] using (well_founded_induction Hwf). intros t.
  induction t as [t IHt] using lt_wf_ind. intros f.
  induction f as [f IHf] using (well_founded_induction Hwf).
  intros x Hw Hn -> Ht ->. constructor. intros y Hy.
  destruct Hy as [Hy|Hy1 Hy|Hy1 Hy2 Hy|Hy1 Hy2 El Hy|Hy1 Hy2 El Hy3 Hy].
  - by apply (IHw (weight y) ltac:(lia) _ _ _ _ y (le_n _) (le_n _) eq_refl (le_n _) eq_refl).
  - by apply (IHn (load y) ltac:(lia) _ _ _ y ltac:(lia) (le_n _) eq_refl (le_n _) eq_refl).
  - by apply (IHl (line y) Hy _ _ y ltac:(lia) ltac:(lia) eq_refl (le_n _) eq_refl).
  - by apply (IHt (armed y) ltac:(lia) _ y ltac:(lia) ltac:(lia) (eq_sym El) (le_n _) eq_refl).
  - by apply (IHf (side y) Hy y ltac:(lia) ltac:(lia) (eq_sym El) ltac:(lia) eq_refl).
Qed.
End Descent.

Lemma step_prog_some {A} ans (c : P A) s : (exists a, c = Ret a) \/ is_Some (step_prog ans c s).
Proof. destruct c as [a|p|X f k|X e k]; simpl; [left; eauto|right..]; try destruct (f s); eauto. Qed.
End Winding.
