(* ===== verification/Shutdown.v ===== *)
(** Shutting down: once [Close] has closed the batch channel and the context is
    cancelled, so that every sleep of a worker is interrupted, the goroutines
    of the dispatcher ([Machine]) wind down in every interleaving: none of the
    unbounded loops of the workers goes on, no action starts anything that
    does not end, and nothing is left waiting. *)
From S2P Require Import Prelude Types OffsetCoordinator Dispatcher Retry Worker Machine Winding.

Section Shutdown.
Context `{Coordinator C}.
Variable cfg : Config.
Variable hasDLQ : bool.
Local Abbreviation S := (UnorderedDispatcher C).
Local Abbreviation P := (prog query S).
Local Abbreviation thread := (thread (C := C)).
Local Abbreviation machine := (machine (C := C)).
Implicit Types s : S.

(** * The context is cancelled *)

Definition interrupted {X} (e : query X) (x : X) : Prop :=
  match e in query Y return Y -> Prop with Sleep _ => fun r => r <> None | _ => fun _ => True end x.
Definition cancelled_answers (ans : answers) : Prop := forall X (e : query X), interrupted e (ans X e).

Local Abbreviation leaves := (leaves (C := C) (@interrupted)).
Local Abbreviation later := (later (C := C) cfg (@interrupted)).
Local Abbreviation all_tame := (all_tame (C := C)).

(** * The loops of a worker

    How many more iterations [processBatch] can take: a sleep ends it. *)
Definition rank (c : control) : nat :=
  match c with
  | Starting => 4%nat
  | Attempting _ a _ => if 0 <? a then 2%nat else (3 + Z.to_nat (- a))%nat
  | Holding => 1%nat
  end.

Lemma body_leaves b c : leaves (outranks rank c) (body cfg b c).
Proof.
  destruct c as [|start a lastErr|]; simpl; [lia|..].
  - destruct (a <=? MaxRetries cfg).
    + assert (Hs : forall k r, (forall e, leaves (outranks rank (Attempting start a lastErr)) (r (Some e))) ->
        leaves (outranks rank (Attempting start a lastErr)) (bind (backoff_sleep (C := C) k) r)).
      { intros k r Hr. simpl. intros x _ [e|] Hi; [apply Hr|done]. }
      unfold attempt_body. destruct (Z.ltb_spec 0 a); [by apply Hs|].
      apply (leaves_bind _ _ (fun r => r = None) (Ret None)); [done|]. intros r ->. cbv beta iota.
      apply leaves_then. intros [[e|] [cbErr|]]; try done.
      destruct (breaker_error cbErr); [by apply Hs|]. simpl.
      repeat match goal with |- context [?x <? ?y] => destruct (Z.ltb_spec x y) end; lia.
    + unfold retries_exhausted. simpl. intros [tos stt] _. apply leaves_then. intros [].
      assert (Hh : (rank Holding < rank (Attempting start a lastErr))%nat)
        by (simpl; destruct (0 <? a); lia).
      destruct stt, lastErr; done || exact Hh.
  - by intros [e|] Hi.
Qed.

(** No new call; the sleeps are interrupted. *)
Definition winding_down (ch : choice) : Prop :=
  match ch with Run _ ans => cancelled_answers ans | Call _ => False | Recv _ | Fire _ => True end.
Definition unwinds (y x : machine) : Prop :=
  exists ch, winding_down ch /\ sched cfg hasDLQ ch x = Some y.

(** What one step takes: a batch from the channel, an action of the poll
    goroutine or a worker, an armed timer, or an action of a fired one. *)
Definition queued (x : machine) : nat := length (batchCh (st x)).
Definition armed (x : machine) : nat := size (timers (st x)).
Local Abbreviation spent :=
  (spent cfg (@interrupted) machine (fun _ => 0%nat) queued armed (core (C := C)) (fired (C := C))).

Lemma unwinds_spent y x :
  all_tame x -> batchChClosed (st x) = true -> unwinds y x ->
  crashed y <> None \/ spent y x /\ batchChClosed (st y) = true.
Proof.
  intros Hx Hc (ch & Hch & Hs). unfold sched in Hs. destruct (crashed x) eqn:Hcx; [done|].
  destruct ch as [i ans|k|i|t]; [|done|..].
  - destruct (threads x !! i) as [th|] eqn:Hi; [|done]. simpl in Hs.
    assert (Ht : thread_tame th) by (eapply Forall_lookup_1; eauto).
    destruct (run_thread_moved cfg hasDLQ (@interrupted) later i ans th x y Ht (fun _ Hl => Hl Hch) Hs)
      as [[Hsh Hz] [[Hy _]|(th' & Hl & Hk & _ & Hth & _)]]; [by left|right].
    destruct (Hsh Hc) as [Hc' Hlen]. split; [|done].
    destruct (is_timer th) eqn:Ek.
    + apply spent_side; unfold core, fired; rewrite ?Hth; [done..| |by apply Hz|].
      * apply (filter_same _ _ _ th); [done|congruence..].
      * by apply (filter_one_less _ _ _ _ th).
    + apply spent_line; unfold core; rewrite ?Hth; [done..|]. by apply (filter_one_less _ _ _ _ th).
  - right. destruct (threads x !! i) as [[]|] eqn:Hi; try done. unfold recv_batch in Hs.
    destruct (batchCh (st x)) as [|b rest] eqn:Eb.
    + rewrite Hc in Hs. simplify_eq. split; [|done]. apply spent_line; [done..|]. unfold core. simpl.
      by apply (filter_one_less _ _ _ _ WorkerIdle).
    + simplify_eq. split; [|done]. apply spent_load; [done|]. unfold queued. simpl. rewrite Eb. simpl. lia.
  - right. destruct (timers (st x) !! t) as [p|] eqn:Et; simpl in Hs; simplify_eq. split; [|done].
    apply spent_armed; simpl; [done..|unfold core; simpl; rewrite filter_app; by rewrite app_nil_r|].
    unfold armed. simpl. rewrite map_size_delete, Et. simpl.
    assert (size (timers (st x)) <> 0%nat) by (apply map_size_ne_0_lookup; eauto). lia.
Qed.

Lemma unwinds_acc x : all_tame x -> batchChClosed (st x) = true -> Acc unwinds x.
Proof.
  induction x as [x IH] using (well_founded_induction
    (spent_wf cfg (@interrupted) rank body_leaves machine (fun _ => 0%nat) queued armed core fired)).
  intros Hx Hc. constructor. intros y Hy.
  destruct (unwinds_spent y x Hx Hc Hy) as [Hcr|[Hsp Hcy]].
  - constructor. intros z (ch & _ & Hs). unfold sched in Hs. by destruct (crashed y).
  - apply IH; [done| |done]. destruct Hy as (ch & _ & Hs). by eapply (sched_tame cfg hasDLQ (@interrupted)).
Qed.

(** * Nothing is left waiting *)

Definition finished (th : thread) : bool :=
  match th with PollIdle | PollDone | WorkerExited | TimerDone => true | _ => false end.
Definition quiet (x : machine) : Prop :=
  Forall (fun th => finished th = true) (threads x) /\ timers (st x) = ∅.

(** Answers under a cancelled context. *)
Definition abandoning : answers := fun X e =>
  match e in query Y return Y with
  | Shuffle l => exist _ l (Permutation_refl l)
  | Sleep _ => Some Canceled
  | Execute _ => ([], Rejected RejectOpen)
  | BreakerState => ([], StateOpen)
  | ProduceDLQ _ _ => Some Canceled
  | Now => 0
  | RandFloat64 => exist _ 0 zero_lt_2_53
  | WaitWorkers => Some Canceled
  end.

Lemma abandoning_cancelled : cancelled_answers abandoning.
Proof. by intros X []. Qed.


Lemma unfinished_runs i th (x : machine) :
  threads x !! i = Some th -> finished th = false -> crashed x = None ->
  batchChClosed (st x) = true -> exists y, unwinds y x.
Proof.
  intros Hi Hf Hcx Hc.
  assert (Hrun : (exists y, run_thread cfg hasDLQ i abandoning th x = Some y) -> exists y, unwinds y x).
  { intros [y Hy]. exists y, (Run i abandoning). split; [exact abandoning_cancelled|]. unfold sched.
    by rewrite Hcx, Hi. }
  destruct th as [|c|tps|c| | |b c|c| |c|]; try done; [apply Hrun; simpl|apply Hrun; simpl|apply Hrun; simpl|
    |apply Hrun; simpl|apply Hrun; simpl|apply Hrun; simpl].
  - destruct (step_prog_some abandoning c (st x)) as [[a ->]|[[[|] ?] E]]; [eauto|..];
      destruct c; try done; rewrite E; eauto.
  - eauto.
  - destruct (step_prog_some abandoning c (st x)) as [[a ->]|[[[|] ?] E]]; [eauto|..];
      destruct c; try done; rewrite E; eauto.
  - destruct (recv_batch (st x)) as [[b s]|] eqn:Er; eexists; exists (Recv i); (split; [done|]); unfold sched;
      rewrite Hcx, Hi, Er; [done|]. by rewrite Hc.
  - destruct (step_prog_some abandoning c (st x)) as [[[ctl|v] ->]|[[[|] ?] E]]; [eauto..| |];
      destruct c; try done; rewrite E; eauto.
  - destruct (step_prog_some abandoning c (st x)) as [[a ->]|[[[|] ?] E]]; [eauto|..];
      destruct c; try done; rewrite E; eauto.
  - destruct (step_prog_some abandoning c (st x)) as [[a ->]|[[[|] ?] E]]; [eauto|..];
      destruct c; try done; rewrite E; eauto.
Qed.

Lemma progress (x : machine) :
  crashed x = None -> batchChClosed (st x) = true -> quiet x \/ exists y, unwinds y x.
Proof.
  intros Hcx Hc. destruct (decide (timers (st x) = ∅)) as [Ht|Ht].
  - destruct (decide (Forall (fun th => finished th = true) (threads x))) as [Hf|Hf]; [by left|right].
    apply not_Forall_Exists in Hf; [|solve_decision]. apply Exists_exists in Hf as (th & Hin & Hth).
    apply list_elem_of_lookup in Hin as [i Hi]. apply not_true_is_false in Hth. by eapply unfinished_runs.
  - right. apply map_choose in Ht as (t & p & Ht). eexists. exists (Fire t). split; [done|].
    unfold sched. by rewrite Hcx, Ht.
Qed.

(** * Property *)

(** C9. Shutting down terminates.  From any reachable state in which the
    channel is closed, with the context cancelled and no new call, there is no
    infinite interleaving of the poll goroutine, the workers and the linger
    timers: the machine's steps are well founded.  And they stop only when the
    process has died or every goroutine is done, so [Close]'s wait for the
    workers returns.  A sleep that starts or goes on under the cancelled
    context is taken to be interrupted (of a [select] whose two cases are
    ready, a timer that has elapsed at that moment could still win). *)
Theorem shutdown_terminates n c x :
  reaches (step cfg hasDLQ) (start n (NewUnorderedDispatcher c)) x -> batchChClosed (st x) = true ->
  Acc unwinds x /\
  forall y, reaches (fun a b => unwinds b a) x y ->
    crashed y <> None \/ quiet y \/ exists z, unwinds z y.
Proof.
  intros Hr Hc. apply (reachable_tame cfg hasDLQ (@interrupted)) in Hr. split; [by apply unwinds_acc|]. intros y Hy.
  assert (Hi : all_tame y /\ (crashed y = None -> batchChClosed (st y) = true)).
  { revert Hy. apply (reaches_invariant _ (fun y => all_tame y /\
      (crashed y = None -> batchChClosed (st y) = true))); [|done]. intros a b [Ha Hca] Hab.
    assert (Hna : crashed a = None).
    { destruct Hab as (ch & _ & Hs). unfold sched in Hs. by destruct (crashed a). }
    split; [destruct Hab as (ch & _ & Hs); by eapply (sched_tame cfg hasDLQ (@interrupted))|].
    intros Hnb. by destruct (unwinds_spent b a Ha (Hca Hna) Hab) as [?|[_ ?]]. }
  destruct (crashed y) eqn:E; [by left|right]. by apply progress, Hi.
Qed.
End Shutdown.

(** * Witness

    A message is buffered and its linger timer armed, a batch is queued, and
    the poll goroutine closes the dispatcher. *)
Definition idle_answers : answers := fun X e => (calm X e tt).1.
Definition closing : list choice :=
  [Call (CallSend 1 [demo_msg 1 7]); Run 0 idle_answers; Run 0 idle_answers; Run 0 idle_answers;
   Call (CallSend 0 [demo_msg 0 10; demo_msg 0 11]); Run 0 idle_answers; Run 0 idle_answers;
   Run 0 idle_answers; Run 0 idle_answers; Run 0 idle_answers; Run 0 idle_answers; Run 0 idle_answers;
   Call CallClose; Run 0 idle_answers].
Definition closing_end := run demo_cfg true closing (start 2 demo_new).

Lemma shutdown_terminates_witness :
  exists x, closing_end = Some x /\ len (batchCh (st x)) = 1 /\ Acc (unwinds demo_cfg true) x /\
    forall y, reaches (fun a b => unwinds demo_cfg true b a) x y ->
      crashed y <> None \/ quiet y \/ exists z, unwinds demo_cfg true z y.
Proof.
  assert (Hq : option_map (fun x => (len (batchCh (st x)), batchChClosed (st x))) closing_end =
    Some (1, true)) by (vm_compute; reflexivity).
  destruct closing_end as [x|] eqn:E; [|done]. simpl in Hq. injection Hq as Hl Hc.
  exists x. split; [done|]. split; [exact Hl|].
  apply (shutdown_terminates demo_cfg true 2 NewCoordinator); [|exact Hc].
  by apply (run_reachable demo_cfg true closing).
Defined.
