(* ===== verification/Ownership.v ===== *)
(** Who owns a batch: the discipline that every routine of the dispatcher
    keeps on the shared state, one atomic action at a time, and the proof
    that each routine keeps it. *)
From S2P Require Import Prelude Types OffsetCoordinator Dispatcher Retry Worker Machine.

(** * Ownership

    A batch between its assembly and the release of its partition has one
    owner: a goroutine or the channel.  An owner holds its partition's
    [inFlight] flag.  [Held]: the coordinator does not know the batch yet, or
    no longer (a refused dispatch); [Dispatched]: it does, and no worker has
    reached a verdict; [Settled]: one has; [Finished]: and the batch is
    complete. *)

Inductive token :=
| NoBatch
| Held (b : batch)
| Dispatched (b : batch)
| Settled (b : batch)
| Finished (b : batch).

Definition token_partition (t : token) : option Z :=
  match t with
  | NoBatch => None
  | Held b | Dispatched b | Settled b | Finished b => Some (partition b)
  end.

(** The offset of a batch is that of its last message. *)
Definition wf_batch (b : batch) : Prop := Offset <$> last (messages b) = Some (batchMaxOffset b).

Section Ownership.
Context `{Coordinator C}.
Variable cfg : Config.
Variable hasDLQ : bool.
Local Abbreviation S := (UnorderedDispatcher C).
Local Abbreviation P := (prog query S).
Implicit Types s : S.

(** The messages of partition [fp] are accounted for when [active]; when
    [strict], only [known] partitions are used and the channel has room for
    one batch of each. *)
Variables (active strict : bool) (fp : Z) (known : Z -> Prop).

(** The messages of [fp] in a token: those without a verdict. *)
Definition contrib (t : token) : list Message :=
  match t with
  | Held b | Dispatched b => if active && (partition b =? fp) then messages b else []
  | _ => []
  end.

(** The messages of [fp] in the buffer. *)
Definition held_back s : list Message := if active then bufMessages (get_or_new fp s) else [].

Lemma contrib_other t : token_partition t <> Some fp -> contrib t = [].
Proof.
  destruct t as [|b|b|b|b]; simpl; try done; intros Hp; destruct active; simpl; try done;
    destruct (Z.eqb_spec (partition b) fp); congruence.
Qed.

Definition in_flight s (q : Z) : bool :=
  match buffers s !! q with Some pb => bufInFlight pb | None => false end.

Definition holds s (t : token) : Prop :=
  match t with
  | NoBatch => True
  | Held b | Finished b => wf_batch b /\ in_flight s (partition b) = true /\
      slot_busy (slot_of (coord s) (partition b)) = false
  | Dispatched b | Settled b => wf_batch b /\ in_flight s (partition b) = true /\
      (slot_of (coord s) (partition b) = InFlight (batchMaxOffset b) \/
       slot_of (coord s) (partition b) = Absent)
  end.

Record shared_inv s : Prop := {
  si_coord : coord_wf (coord s);
  si_busy q : slot_busy (slot_of (coord s) q) = true -> in_flight s q = true;
  si_closed : batchChClosed s = closed s;
  si_cap : len (batchCh s) <= Z.max 0 (ChannelCap cfg);
  si_known q : is_Some (buffers s !! q) -> known q
}.

(** An owner finds room in the channel. *)
Definition room (t : token) s : Prop :=
  strict = true -> token_partition t <> None -> len (batchCh s) < ChannelCap cfg.

(** What an action of the owner of [t] may do to the shared state: keep
    the invariant, leave other owners' partitions held (a coordinator
    reset may forget their slot), take only a free partition, send to the
    channel only what it owns, neither lose nor invent a message of [fp], and
    complete [fp]'s slot only for a batch with a verdict. *)
Record allowed (t : token) s (t' : token) s' : Prop := {
  al_inv : shared_inv s';
  al_closed : closed s' = closed s;
  al_holds : holds s' t';
  al_others q : in_flight s q = true -> token_partition t <> Some q ->
    in_flight s' q = true /\
    (slot_of (coord s') q = slot_of (coord s) q \/ slot_of (coord s') q = Absent);
  al_chan : (exists b, batchCh s' = batchCh s ++ [b] /\ t = Dispatched b /\ t' = NoBatch /\
               holds s' t /\ held_back s' = held_back s) \/
            (batchCh s' = batchCh s /\
              (token_partition t' = None \/ token_partition t' = token_partition t \/
               exists q, token_partition t' = Some q /\ in_flight s q = false) /\
              contrib t' ++ held_back s' = contrib t ++ held_back s /\
              (contrib t' = contrib t \/ token_partition t = Some fp \/ in_flight s fp = false));
  al_done off : strict = true -> active = true ->
    slot_of (coord s') fp = Completed off ->
    slot_of (coord s) fp = Completed off \/
    exists b, t = Settled b /\ partition b = fp /\ batchMaxOffset b = off;
  al_settled b : t' = Settled b -> t = Settled b
}.

(** [K] holds of the shared state while the routine runs; [tol] are the
    panics it may raise, among them a send that races with [Close]. *)
Variable K : S -> Prop.
Variable tol : panic -> S -> Prop.
Hypothesis tol_send : forall s, K s -> batchChClosed s = closed s -> closed s = true ->
  tol SendOnClosedChannel s.

(** A routine that keeps the discipline, for a postcondition [Q]. *)
Fixpoint safe {A} (Q : A -> token -> Prop) (t : token) (c : P A) : Prop :=
  match c with
  | Ret a => Q a t
  | Throw p => forall s, tol p s
  | Act f k => forall s, shared_inv s -> K s -> room t s -> holds s t ->
      match f s with
      | Returned x s' => exists t', allowed t s t' s' /\ safe Q t' (k x)
      | Panicked p s' => s' = s /\ tol p s
      end
  | Ask e k => forall x, safe Q t (k x)
  end.

Lemma safe_bind {A B} (Q : B -> token -> Prop) t (c : P A) (f : A -> P B) :
  safe (fun a t' => safe Q t' (f a)) t c -> safe Q t (bind c f).
Proof.
  revert t. induction c as [a|p|X g k IH|X e k IH]; intros t; simpl; auto.
  intros Hs s Hi HK Hr Hh. specialize (Hs s Hi HK Hr Hh). destruct (g s) as [x s'|p s']; [|done].
  destruct Hs as (t' & Ha & Hk). eauto.
Qed.

Lemma safe_weaken {A} (Q Q' : A -> token -> Prop) t (c : P A) :
  (forall a t, Q a t -> Q' a t) -> safe Q t c -> safe Q' t c.
Proof.
  intros HQ. revert t. induction c as [a|p|X g k IH|X e k IH]; intros t; simpl; auto.
  intros Hs s Hi HK Hr Hh. specialize (Hs s Hi HK Hr Hh). destruct (g s) as [x s'|p s']; [|done].
  destruct Hs as (t' & Ha & Hk). eauto.
Qed.

(** ** Actions that do not concern batches *)

(** Same coordinator, same flags, same channel, no new buffer but of a known
    partition. *)
Record mute s s' : Prop := {
  q_coord : coord s' = coord s;
  q_flags q : in_flight s' q = in_flight s q;
  q_chan : batchCh s' = batchCh s;
  q_closed : closed s' = closed s /\ batchChClosed s' = batchChClosed s;
  q_known q : is_Some (buffers s' !! q) -> is_Some (buffers s !! q) \/ known q
}.

(** And the same messages of [fp] in the buffer. *)
Definition quiet s s' : Prop := mute s s' /\ held_back s' = held_back s.

Lemma mute_holds s s' t : mute s s' -> holds s t -> holds s' t.
Proof. intros [Hc Hf _ _ _]. destruct t; simpl; by rewrite ?Hf, ?Hc. Qed.

Lemma mute_inv s s' : mute s s' -> shared_inv s -> shared_inv s'.
Proof.
  intros [Hc Hf Hch [Hcl Hbc] Hk] [? Hb ? ? Hk']. constructor; rewrite ?Hc, ?Hch, ?Hbc, ?Hcl; try done.
  - intros q. rewrite Hf. apply Hb.
  - intros q Hq. destruct (Hk q Hq); auto.
Qed.

Lemma quiet_allowed s s' t : quiet s s' -> shared_inv s -> holds s t -> allowed t s t s'.
Proof.
  intros [Hq Hb] Hi Hh. constructor.
  - by eapply mute_inv.
  - apply Hq.
  - by eapply mute_holds.
  - intros q Hf _. rewrite (q_flags _ _ Hq), (q_coord _ _ Hq). auto.
  - right. split; [apply Hq|]. rewrite Hb. auto.
  - intros off _ _. rewrite (q_coord _ _ Hq). auto.
  - done.
Qed.

Lemma safe_quiet {X A} (Q : A -> token -> Prop) t (f : S -> outcome S X) (k : X -> P A) :
  (forall s, shared_inv s -> exists x s', f s = Returned x s' /\ quiet s s' /\ safe Q t (k x)) ->
  safe Q t (Act f k).
Proof.
  intros Hf s Hi HK _ Hh. destruct (Hf s Hi) as (x & s' & -> & Hq & Hk).
  exists t. split; [by apply quiet_allowed|done].
Qed.

Lemma mute_trans s1 s2 s3 : mute s1 s2 -> mute s2 s3 -> mute s1 s3.
Proof.
  intros [A1 B1 C1 [D1 E1] F1] [A2 B2 C2 [D2 E2] F2].
  constructor; [congruence|intros q; by rewrite B2|congruence|split; congruence|].
  intros q Hq. destruct (F2 q Hq); auto.
Qed.

Lemma quiet_trans s1 s2 s3 : quiet s1 s2 -> quiet s2 s3 -> quiet s1 s3.
Proof. intros [H1 E1] [H2 E2]. split; [by eapply mute_trans|congruence]. Qed.

(** A change of neither the coordinator, nor the buffers, nor the batch
    channel. *)
Lemma quiet_same s s' :
  coord s' = coord s -> buffers s' = buffers s -> batchCh s' = batchCh s ->
  closed s' = closed s -> batchChClosed s' = batchChClosed s -> quiet s s'.
Proof.
  intros Hc Hb Hch Hcl Hbc. split.
  - constructor; try done; intros q; unfold in_flight; rewrite Hb; auto.
  - unfold held_back, get_or_new. by rewrite Hb.
Qed.

Lemma quiet_refl s : quiet s s.
Proof. by apply quiet_same. Qed.

Lemma quiet_m x s : quiet s (set_m x s).
Proof. by apply quiet_same. Qed.

Lemma quiet_stop_timer t s : quiet s (stop_timer t s).
Proof. by destruct t; apply quiet_same. Qed.

(** Writing a buffer without touching its flag. *)
Lemma mute_put p pb' s :
  in_flight s p = bufInFlight pb' -> is_Some (buffers s !! p) \/ known p ->
  mute s (put_buffer p pb' s).
Proof.
  intros Hf Hk. constructor; try done; intros q; unfold in_flight, put_buffer; simpl;
    rewrite lookup_insert; case_decide as E; subst; auto.
Qed.

Lemma held_back_put p pb' s :
  held_back (put_buffer p pb' s) =
  if active && (p =? fp) then bufMessages pb' else held_back s.
Proof.
  unfold held_back, get_or_new, put_buffer. simpl. destruct active; [|done]. simpl.
  destruct (Z.eqb_spec p fp) as [->|]; [by rewrite lookup_insert_eq|by rewrite lookup_insert_ne].
Qed.

Lemma quiet_put p pb pb' s :
  buffers s !! p = Some pb -> bufInFlight pb' = bufInFlight pb ->
  (active = true -> p = fp -> bufMessages pb' = bufMessages pb) ->
  quiet s (put_buffer p pb' s).
Proof.
  intros Hp Hf Hm. split.
  - apply mute_put; [|by left]. unfold in_flight. by rewrite Hp, Hf.
  - rewrite held_back_put. unfold held_back, get_or_new. destruct active; [|done]. simpl.
    destruct (Z.eqb_spec p fp) as [->|]; [rewrite Hp; by apply Hm|done].
Qed.

Lemma quiet_put_new p pb s :
  buffers s !! p = None -> bufInFlight pb = false -> bufMessages pb = [] -> known p ->
  quiet s (put_buffer p pb s).
Proof.
  intros Hp Hf Hm Hk. split.
  - apply mute_put; [|by right]. unfold in_flight. by rewrite Hp, Hf.
  - rewrite held_back_put. unfold held_back, get_or_new. destruct active; [|done]. simpl.
    destruct (Z.eqb_spec p fp) as [->|]; [by rewrite Hp, Hm|done].
Qed.

(** A revocation empties the buffers of its partitions. *)
Lemma revoke_one_mute s tp : mute s (revoke_one s tp).
Proof.
  unfold revoke_one. destruct (buffers s !! tpPartition tp) as [pb|] eqn:Hp; [|apply quiet_refl].
  eapply mute_trans; [apply (quiet_stop_timer (lingerTimer pb))|].
  assert (Hb : buffers (stop_timer (lingerTimer pb) s) = buffers s) by (by destruct (lingerTimer pb)).
  apply mute_put; unfold in_flight; rewrite Hb, Hp; eauto.
Qed.

Lemma revoke_one_held_back s tp :
  held_back (revoke_one s tp) = if tpPartition tp =? fp then [] else held_back s.
Proof.
  unfold revoke_one. destruct (buffers s !! tpPartition tp) as [pb|] eqn:Hp.
  - rewrite held_back_put. unfold held_back.
    destruct (lingerTimer pb), active, (tpPartition tp =? fp); done.
  - destruct (Z.eqb_spec (tpPartition tp) fp) as [E|]; [|done].
    unfold held_back, get_or_new. rewrite <- E, Hp. by destruct active.
Qed.

Lemma revoke_mute s tps : mute s (foldl revoke_one s tps).
Proof.
  revert s. induction tps as [|tp tps IH]; intros s; simpl; [apply quiet_refl|].
  eapply mute_trans; [apply revoke_one_mute|apply IH].
Qed.

Lemma revoke_held_back s tps :
  held_back (foldl revoke_one s tps) =
  if bool_decide (fp ∈ List.map tpPartition tps) then [] else held_back s.
Proof.
  revert s. induction tps as [|tp tps IH]; intros s; [done|]. simpl foldl.
  rewrite IH, revoke_one_held_back. simpl List.map.
  destruct (Z.eqb_spec (tpPartition tp) fp) as [E|Hne].
  - rewrite E, (bool_decide_eq_true_2 (fp ∈ fp :: _)) by apply list_elem_of_here.
    by case_bool_decide.
  - destruct (decide (fp ∈ List.map tpPartition tps)).
    + rewrite !bool_decide_eq_true_2; [done|by apply list_elem_of_further|done].
    + rewrite !bool_decide_eq_false_2; [done|by intros [->|]%elem_of_cons|done].
Qed.

Lemma quiet_assign s tps :
  (forall tp, tp ∈ tps -> known (tpPartition tp)) -> quiet s (foldl assign_one s tps).
Proof.
  revert s. induction tps as [|tp tps IH]; intros s Hk; simpl; [apply quiet_refl|].
  eapply quiet_trans; [|apply IH; intros u Hu; by apply Hk, list_elem_of_further].
  unfold assign_one.
  destruct (buffers s !! tpPartition tp) as [pb|] eqn:Hp; [apply quiet_refl|].
  apply quiet_put_new; try done. apply Hk, list_elem_of_here.
Qed.

Lemma quiet_clear_timer p s : quiet s (clear_timer p s).
Proof.
  unfold clear_timer. destruct (buffers s !! p) as [pb|] eqn:Hp; [|apply quiet_refl].
  by eapply quiet_put.
Qed.

Lemma quiet_startLingerTimer p pb s :
  buffers s !! p = Some pb -> exists s', startLingerTimer p s = Returned tt s' /\ quiet s s'.
Proof.
  intros Hp. unfold startLingerTimer. rewrite Hp.
  destruct (lingerTimer pb); eexists; (split; [done|]); [apply quiet_refl|].
  eapply quiet_trans; [by apply (quiet_put p pb (mkBuffer (bufMessages pb) (bufInFlight pb) (Some (nextTimer s))))|].
  by apply quiet_same.
Qed.

(** ** Taking, dispatching, completing and releasing a batch *)

Hypothesis BatchSize_pos : 0 < BatchSize cfg.

(** A change of one partition's flag, by the owner of [t]. *)
Lemma flag_allowed t t' p f s s' :
  shared_inv s -> coord s' = coord s -> batchCh s' = batchCh s -> closed s' = closed s ->
  batchChClosed s' = batchChClosed s ->
  (forall q, in_flight s' q = if decide (q = p) then f else in_flight s q) ->
  (forall q, is_Some (buffers s' !! q) -> is_Some (buffers s !! q)) ->
  slot_busy (slot_of (coord s) p) = false ->
  contrib t' ++ held_back s' = contrib t ++ held_back s ->
  match t, t' with
  | NoBatch, Held b => partition b = p /\ f = true /\ in_flight s p = false /\ wf_batch b
  | Held b, NoBatch | Finished b, NoBatch => partition b = p
  | _, _ => False
  end ->
  allowed t s t' s'.
Proof.
  intros Hi Hc Hch Hcl Hbc Hf Hk Hb Hst Ht. constructor.
  - destruct Hi as [? Hbu ? ? Hkn]. constructor; rewrite ?Hc, ?Hch, ?Hbc, ?Hcl; try done; [|auto].
    intros q Hq. rewrite Hf. case_decide as E; [|auto]. subst. congruence.
  - done.
  - destruct t, t'; try done; simpl. destruct Ht as (-> & -> & _ & ?).
    by rewrite Hf, decide_True, Hc.
  - intros q Hq Hne. rewrite Hf, Hc. split; [|auto]. case_decide as E; [|done]. subst.
    destruct t, t'; try done; simpl in *; [destruct Ht as (? & _ & ? & _)|..]; congruence.
  - right. split; [done|]. split_and!; [|done|].
    + destruct t, t'; try done; [|by left..]. destruct Ht as (<- & _ & ? & _). simpl. eauto.
    + destruct t as [|b|b|b|b], t' as [|b'|b'|b'|b']; try done; simpl in Ht.
      * destruct Ht as (<- & _ & Hfl & _). destruct (decide (partition b' = fp)) as [<-|Hne]; [auto|].
        left. apply contrib_other. simpl. congruence.
      * destruct (decide (partition b = fp)) as [<-|Hne]; [auto|].
        left. symmetry. apply contrib_other. simpl. congruence.
      * by left.
  - intros off _ _. rewrite Hc. auto.
  - intros b ->. by destruct t.
Qed.

(** A change of one partition's slot, by the owner of [t]. *)
Lemma slot_allowed t t' p x s s' c :
  shared_inv s -> s' = set_coord c s -> coord_wf c ->
  (forall q, slot_of c q = if decide (q = p) then x else slot_of (coord s) q) ->
  (slot_busy x = true -> in_flight s p = true) ->
  token_partition t = Some p \/ x = Absent ->
  token_partition t' = token_partition t ->
  contrib t' = contrib t ->
  (forall off, strict = true -> x = Completed off ->
     exists b, t = Settled b /\ partition b = p /\ batchMaxOffset b = off) ->
  (forall b, t' = Settled b -> t = Settled b) ->
  holds s' t' -> allowed t s t' s'.
Proof.
  intros Hi -> Hwf Hs Hx Ht Ht' Hct Hd Hse Hh. constructor; try done.
  - destruct Hi as [? Hbu ? ? ?]. constructor; simpl; try done.
    intros q. rewrite Hs. case_decide; subst; [done|apply Hbu].
  - intros q Hq Hne. split; [done|]. simpl. rewrite Hs. case_decide as E; [|auto].
    subst. destruct Ht as [?| ->]; [congruence|auto].
  - right. split; [done|]. rewrite Hct. auto.
  - intros off Hstr _. simpl. rewrite Hs. case_decide as E; [|auto]. subst. intros ->. right. eauto.
Qed.

(** ** The routines *)

Lemma safe_act {X A} (Q : A -> token -> Prop) t (f : S -> outcome S X) (k : X -> P A) :
  (forall s, shared_inv s -> K s -> room t s -> holds s t ->
     match f s with
     | Returned x s' => exists t', allowed t s t' s' /\ safe Q t' (k x)
     | Panicked p s' => s' = s /\ tol p s
     end) ->
  safe Q t (let* x := act f in k x).
Proof. intros Hf. exact Hf. Qed.

Lemma safe_modify {A} (Q : A -> token -> Prop) t (f : S -> S) (k : unit -> P A) :
  (forall s, quiet s (f s)) -> safe Q t (k tt) -> safe Q t (let* u := modify f in k u).
Proof.
  intros Hf Hk s Hi _ _ Hh. exists t. split; [by apply quiet_allowed|done].
Qed.

Lemma safe_modify_end (Q : unit -> token -> Prop) t (f : S -> S) :
  (forall s, quiet s (f s)) -> Q tt t -> safe Q t (modify f).
Proof. intros Hf HQ s Hi _ _ Hh. exists t. split; [by apply quiet_allowed|done]. Qed.

Lemma cut_batch_wf p pb : bufMessages pb <> [] -> wf_batch (cut_batch cfg p pb).
Proof.
  intros Hne. destruct (cut_batch_max cfg p pb BatchSize_pos Hne) as (lst & Hl & Ho).
  unfold wf_batch. by rewrite Hl, Ho.
Qed.

Lemma assemble_allowed p pb s :
  shared_inv s -> buffers s !! p = Some pb -> bufInFlight pb = false -> bufMessages pb <> [] ->
  exists s', assemble_in_flight cfg pb p s = Returned (Some (cut_batch cfg p pb)) s' /\
    allowed NoBatch s (Held (cut_batch cfg p pb)) s'.
Proof.
  intros Hi Hp Hf Hne. rewrite assemble_in_flight_eq by done. eexists; split; [done|].
  assert (Hfl : in_flight s p = false) by (unfold in_flight; by rewrite Hp).
  assert (Hb : slot_busy (slot_of (coord s) p) = false).
  { destruct (slot_busy _) eqn:E; [|done]. apply (si_busy s Hi) in E. congruence. }
  apply (flag_allowed _ _ p true); try done; try (by destruct (lingerTimer pb)).
  - intros q. unfold in_flight. destruct (lingerTimer pb); simpl; rewrite lookup_insert;
      repeat case_decide; subst; done.
  - intros q. destruct (lingerTimer pb); simpl; rewrite lookup_insert; case_decide; subst; eauto.
  - assert (E : held_back (stop_timer (lingerTimer pb) (put_buffer p (rest_buffer cfg pb true) s)) =
                held_back (put_buffer p (rest_buffer cfg pb true) s)) by (by destruct (lingerTimer pb)).
    rewrite E, held_back_put. simpl. unfold held_back, get_or_new. destruct active; [|done]. simpl.
    destruct (Z.eqb_spec p fp) as [->|]; [|done]. rewrite Hp. apply (cut_rest cfg fp pb true).
  - split_and!; [done..|by apply cut_batch_wf].
Qed.

Lemma tryDispatch_locked_safe p s :
  shared_inv s ->
  exists ob s', tryDispatch_locked cfg p s = Returned ob s' /\
    match ob with
    | None => quiet s s'
    | Some b => partition b = p /\ allowed NoBatch s (Held b) s'
    end.
Proof.
  intros Hi. unfold tryDispatch_locked. destruct (buffers s !! p) as [pb|] eqn:Hp.
  2: { exists None, s. split; [done|apply quiet_refl]. }
  destruct (bufInFlight pb) eqn:Hf; simpl; [exists None, s; split; [done|apply quiet_refl]|].
  destruct (Z.eqb_spec (len (bufMessages pb)) 0) as [|Hl];
    [exists None, s; split; [done|apply quiet_refl]|].
  destruct (Z.leb_spec (BatchSize cfg) (len (bufMessages pb))).
  - destruct (assemble_allowed p pb s Hi Hp Hf) as (s' & -> & Ha);
      [by intros E; rewrite E in Hl|]. by eexists _, _.
  - destruct (quiet_startLingerTimer p pb s Hp) as (s' & -> & Hq). by eexists _, _.
Qed.

Lemma flushPartition_locked_safe p s :
  shared_inv s ->
  exists ob s', flushPartition_locked cfg p s = Returned ob s' /\
    match ob with
    | None => quiet s s'
    | Some b => partition b = p /\ allowed NoBatch s (Held b) s'
    end.
Proof.
  intros Hi. unfold flushPartition_locked. destruct (buffers s !! p) as [pb|] eqn:Hp.
  2: { exists None, s. split; [done|apply quiet_refl]. }
  destruct (bufInFlight pb) eqn:Hf; simpl; [exists None, s; split; [done|apply quiet_refl]|].
  destruct (Z.eqb_spec (len (bufMessages pb)) 0) as [|Hl];
    [exists None, s; split; [done|apply quiet_refl]|].
  destruct (assemble_allowed p pb s Hi Hp Hf) as (s' & -> & Ha);
    [by intros E; rewrite E in Hl|]. by eexists _, _.
Qed.

Lemma dispatched_allowed b s :
  shared_inv s -> holds s (Held b) ->
  exists s', with_coord (BatchDispatched (partition b) (batchMaxOffset b)) s = Returned tt s' /\
    allowed (Held b) s (Dispatched b) s'.
Proof.
  intros Hi (Hwb & Hf & Hb). unfold with_coord.
  destruct (dispatched_returns (coord s) (partition b) (batchMaxOffset b) (si_coord s Hi) Hb)
    as (c & -> & Hwf & Hs).
  eexists; split; [done|].
  apply (slot_allowed _ _ (partition b) (InFlight (batchMaxOffset b)) _ _ c); try done; [by left|].
  simpl. split_and!; [done..|]. left. by rewrite Hs, decide_True.
Qed.

(** Completion, of a batch with a verdict or, unless [strict], of one whose
    dispatch was refused. *)
Lemma completed_allowed b t t' s :
  (t = Settled b /\ t' = Finished b) \/ (t = Dispatched b /\ t' = Held b /\ strict = false) ->
  shared_inv s -> holds s t ->
  exists s', with_coord (BatchComplete (partition b) (batchMaxOffset b)) s = Returned tt s' /\
    allowed t s t' s'.
Proof.
  intros Ht Hi Hh.
  assert (Hd : wf_batch b /\ in_flight s (partition b) = true /\
    (slot_of (coord s) (partition b) = InFlight (batchMaxOffset b) \/
     slot_of (coord s) (partition b) = Absent)) by (by destruct Ht as [[-> _]|[-> _]]).
  assert (Htp : token_partition t = Some (partition b) /\ token_partition t' = token_partition t /\
    contrib t' = contrib t /\ (forall b', t' = Settled b' -> t = Settled b') /\
    (strict = true -> t = Settled b)).
  { destruct Ht as [[-> ->]|(-> & -> & Hstr)]; split_and!; try done. by rewrite Hstr. }
  destruct Htp as (Htp & Htp' & Hct & Hse & Hstr). destruct Hd as (Hwb & Hf & Hb).
  assert (Hend : forall c, (forall q, slot_of c q = if decide (q = partition b)
      then Completed (batchMaxOffset b) else slot_of (coord s) q) \/
      slot_of c (partition b) = Absent -> holds (set_coord c s) t').
  { intros c Hc. assert (slot_busy (slot_of c (partition b)) = false).
    { destruct Hc as [Hc| ->]; [by rewrite Hc, decide_True|done]. }
    by destruct Ht as [[_ ->]|(_ & -> & _)]. }
  unfold with_coord. pose proof (si_coord s Hi) as Hwf. destruct Hb as [Hb|Hb].
  - destruct (complete_returns (coord s) _ _ Hwf Hb) as (c & -> & Hwf' & Hs).
    eexists; split; [done|].
    apply (slot_allowed _ _ (partition b) (Completed (batchMaxOffset b)) _ _ c); auto.
    intros off Hs' [= <-]. eauto.
  - rewrite (complete_absent (coord s) _ (batchMaxOffset b) Hwf Hb).
    eexists; split; [done|]. apply (slot_allowed _ _ (partition b) Absent _ _ (coord s)); auto; try done.
    intros q. by case_decide; subst.
Qed.

Lemma try_send_safe b s :
  shared_inv s -> K s -> room (Dispatched b) s -> holds s (Dispatched b) ->
  match try_send cfg b s with
  | Returned true s' => allowed (Dispatched b) s NoBatch s'
  | Returned false s' => s' = s /\ strict = false
  | Panicked p s' => s' = s /\ tol p s
  end.
Proof.
  intros Hi HK Hr Hh. unfold try_send. destruct (batchChClosed s) eqn:Hc.
  { split; [done|]. apply tol_send; [done|apply Hi|]. by rewrite <- (si_closed s Hi). }
  destruct (Z.ltb_spec (len (batchCh s)) (ChannelCap cfg)) as [Hlt|Hge].
  2: { split; [done|]. destruct strict eqn:Estr; [|done].
       unfold room in Hr. rewrite Estr in Hr. specialize (Hr eq_refl ltac:(done)). lia. }
  constructor; simpl; try done.
  - destruct Hi. constructor; try done. simpl. rewrite len_app. unfold len in *. simpl. lia.
  - auto.
  - left. exists b. do 3 (split; [done|]). by split.
  - auto.
Qed.

Lemma return_batch_allowed b s :
  shared_inv s -> holds s (Held b) ->
  exists s', return_batch b s = Returned tt s' /\ allowed (Held b) s NoBatch s'.
Proof.
  intros Hi (_ & Hf & Hb). unfold return_batch. unfold in_flight in Hf.
  destruct (buffers s !! partition b) as [pb|] eqn:Hp; [|done].
  eexists; split; [done|]. apply (flag_allowed _ _ (partition b) false); try done.
  - intros q. unfold in_flight, put_buffer. simpl. rewrite lookup_insert.
    repeat case_decide; subst; done.
  - intros q. unfold put_buffer. simpl. rewrite lookup_insert. case_decide; subst; eauto.
  - rewrite held_back_put. simpl. unfold held_back, get_or_new. destruct active; [|done]. simpl.
    destruct (Z.eqb_spec (partition b) fp) as [<-|]; [by rewrite Hp|done].
Qed.

Definition released {A} (r : option A) (t : token) : Prop := r = None -> t = NoBatch.

Lemma dispatchBatch_safe b : safe released (Held b) (dispatchBatch cfg b).
Proof.
  unfold dispatchBatch. apply safe_act. intros s Hi _ _ Hh. exists (Held b).
  split; [by apply quiet_allowed; [apply quiet_refl| |]|].
  destruct (closed s); [by intros ?|]. apply safe_act. intros s1 Hi1 _ _ Hh1.
  destruct (dispatched_allowed b s1 Hi1 Hh1) as (s2 & -> & Ha).
  exists (Dispatched b). split; [done|]. apply safe_act. intros s3 Hi3 HK3 Hr3 Hh3.
  pose proof (try_send_safe b s3 Hi3 HK3 Hr3 Hh3) as Hs.
  destruct (try_send cfg b s3) as [[|] s4|p s4]; [| |done].
  { exists NoBatch. split; [done|]. by apply safe_modify; [intros; apply quiet_m|]. }
  destruct Hs as [-> Hstr].
  exists (Dispatched b). split; [by apply quiet_allowed; [apply quiet_refl| |]|].
  apply safe_act. intros s4 Hi4 _ _ Hh4.
  destruct (completed_allowed b (Dispatched b) (Held b) s4) as (s5 & -> & Ha5); [by right|done..|].
  eexists; split; [done|]. apply safe_act. intros s6 Hi6 _ _ Hh6.
  destruct (return_batch_allowed b s6 Hi6 Hh6) as (s7 & -> & Ha7). by exists NoBatch.
Qed.

Lemma tryDispatch_safe p : safe released NoBatch (tryDispatch cfg p).
Proof.
  unfold tryDispatch. apply safe_act. intros s Hi _ _ _.
  destruct (tryDispatch_locked_safe p s Hi) as (ob & s' & -> & Hob). destruct ob as [b|].
  - destruct Hob as [_ Ha]. eexists. split; [done|]. apply dispatchBatch_safe.
  - exists NoBatch. split; [by apply quiet_allowed|done].
Qed.

Definition anything {A} (a : A) (t : token) : Prop := True.

Lemma linger_fired_safe p : safe anything NoBatch (linger_fired cfg p).
Proof.
  unfold linger_fired. apply safe_modify; [apply quiet_clear_timer|].
  unfold flushPartition. apply safe_act. intros s Hi _ _ _.
  destruct (flushPartition_locked_safe p s Hi) as (ob & s' & -> & Hob). destruct ob as [b|].
  - destruct Hob as [_ Ha]. eexists. split; [done|]. apply safe_bind.
    eapply safe_weaken; [|apply dispatchBatch_safe]. done.
  - exists NoBatch. split; [by apply quiet_allowed|done].
Qed.

Lemma drain_safe ps : safe anything NoBatch (drain cfg ps).
Proof.
  induction ps as [|p ps IH]; [done|].
  change (drain cfg (p :: ps)) with
    (let* err := tryDispatch cfg p in
     match err with Some _ => Ret tt | None => drain cfg ps end).
  apply safe_bind. eapply safe_weaken; [|apply tryDispatch_safe].
  intros [e|] t Hr; [done|]. by rewrite Hr.
Qed.

Lemma onBatchDone_safe b : safe anything (Finished b) (onBatchDone cfg (partition b)).
Proof.
  unfold onBatchDone. apply safe_act. intros s Hi _ _ (_ & Hf & Hb). unfold onBatchDone_locked.
  exists NoBatch. split.
  - unfold set_inFlight. unfold in_flight in Hf.
    destruct (buffers s !! partition b) as [pb|] eqn:Hp; [|done].
    apply (flag_allowed _ _ (partition b) false); try done.
    + intros q. unfold in_flight, put_buffer. simpl. rewrite lookup_insert.
      repeat case_decide; subst; done.
    + intros q. unfold put_buffer. simpl. rewrite lookup_insert. case_decide; subst; eauto.
    + rewrite held_back_put. simpl. unfold held_back, get_or_new. destruct active; [|done]. simpl.
      destruct (Z.eqb_spec (partition b) fp) as [<-|]; [by rewrite Hp|done].
  - intros [order Ho]. apply (safe_modify _ _ (set_readyCh true)); [intros; by apply quiet_same|].
    apply drain_safe.
Qed.

(** The first action of [Send], and the rest. *)
Lemma Send_locked_returns p msgs s :
  closed s = false -> known p ->
  exists s', Send_locked cfg p msgs s = Returned None s' /\ mute s s' /\
    held_back s' = held_back s ++ (if active && (p =? fp) then msgs else []).
Proof.
  intros Hc Hk. unfold Send_locked. rewrite Hc, make_ok by done. eexists; split; [done|].
  split.
  - apply mute_put; [|by right]. unfold in_flight, get_or_new. simpl. by destruct (buffers s !! p).
  - rewrite held_back_put. simpl. unfold held_back, get_or_new. destruct active; [|done]. simpl.
    destruct (Z.eqb_spec p fp) as [->|]; [done|by rewrite app_nil_r].
Qed.

(** ** The worker *)

Lemma settle_safe b v :
  is_completed v = true ->
  safe (fun _ t => t = Finished b) (Settled b) (settle hasDLQ b v).
Proof.
  assert (Hend : forall start label,
    safe (fun _ t => t = Finished b) (Settled b)
      (let* _ := recordBatchMetrics b start label in complete b)).
  { intros start label now. apply (safe_modify _ _ (fun s => set_m _ s));
      [intros; apply quiet_m|]. intros s Hi _ _ Hh.
    destruct (completed_allowed b (Settled b) (Finished b) s) as (s' & -> & Ha); [by left|done..|].
    by eexists. }
  assert (Hdlq : forall e label (k : P unit),
    safe (fun _ t => t = Finished b) (Settled b) k ->
    safe (fun _ t => t = Finished b) (Settled b) (let* _ := sendToDLQ hasDLQ b e label in k)).
  { intros e label k Hk. unfold sendToDLQ. destruct hasDLQ; [|done]. intros [err|]; [done|].
    by apply (safe_modify _ _ (upd_dlq _ _ _)); [intros; apply quiet_m|]. }
  destruct v; intros Hv; [apply Hend|apply Hdlq, Hend|apply Hdlq, Hend|done].
Qed.

(** What the worker owns once it reached verdict [v]. *)
Definition verdict_token (b : batch) (v : verdict) : token :=
  if is_completed v then Settled b else Dispatched b.

Lemma finishing_safe b v : safe anything (verdict_token b v) (finishing cfg hasDLQ b v).
Proof.
  unfold finishing, verdict_token. apply safe_bind.
  assert (Hdec : forall t, safe anything t (modify (upd_workers (C := C) (-1)))).
  { intros t. apply safe_modify_end; [intros; apply quiet_m|done]. }
  destruct (is_completed v) eqn:Ev; [|destruct v; try done; apply Hdec].
  assert (Hfin : finish cfg hasDLQ b v =
    let* _ := settle hasDLQ b v in onBatchDone cfg (partition b)) by (by destruct v).
  rewrite Hfin. apply safe_bind. eapply safe_weaken; [|by apply settle_safe].
  intros _ t ->. eapply safe_weaken; [|apply onBatchDone_safe]. intros _ t _. apply Hdec.
Qed.

Hypothesis MaxRetries_nonneg : 0 <= MaxRetries cfg.
Hypothesis tol_user : forall msg s, tol (UserPanic msg) s.

(** After a first failed attempt there is a last error. *)
Definition control_ok (c : control) : Prop :=
  match c with Attempting _ a last => 0 < a -> last <> None | _ => True end.

Definition decided_ok (r : control + verdict) : Prop :=
  match r with inl c => control_ok c | inr _ => True end.

(** A routine all of whose actions are quiet keeps its token. *)
Fixpoint steady {A} (Q : A -> Prop) (c : P A) : Prop :=
  match c with
  | Ret a => Q a
  | Throw p => forall s, tol p s
  | Act f k => forall s, exists x s', f s = Returned x s' /\ quiet s s' /\ steady Q (k x)
  | Ask e k => forall x, steady Q (k x)
  end.

Lemma steady_bind {A B} (Q : B -> Prop) (c : P A) (f : A -> P B) :
  steady (fun a => steady Q (f a)) c -> steady Q (bind c f).
Proof.
  induction c as [a|p|X g k IH|X e k IH]; simpl; auto.
  intros Hs s. destruct (Hs s) as (x & s' & ? & ? & ?). eauto 6.
Qed.

Lemma notify_steady {A} (Q : A -> Prop) tos (k : unit -> P A) :
  steady Q (k tt) -> steady Q (bind (notify tos) k).
Proof.
  intros Hk. induction tos as [|to tos IH]; [done|]. intros s. exists tt, (OnStateChange to s).
  split_and!; [done| |done]. unfold OnStateChange. destruct (_ <? 3); [|apply quiet_m]. by apply quiet_same.
Qed.

Lemma attempt_body_steady b start a last :
  control_ok (Attempting start a last) ->
  steady decided_ok (attempt_body b start a last).
Proof.
  intros Hc. unfold attempt_body.
  set (rest := fun res : option error * option error => _ : P (control + verdict)).
  assert (Hrest : forall res, steady decided_ok (rest res)).
  { intros [[e|] [cbErr|]]; unfold rest; try done. destruct (breaker_error cbErr).
    - intros r [e|]; [done|]. simpl in *. by replace (a - 1 + 1) with a by lia.
    - done. }
  assert (Hexec : steady decided_ok (bind (execute b) rest)).
  { apply steady_bind. unfold execute. intros [tos x]. apply notify_steady.
    destruct x as [[]|err|msg]; [apply Hrest..|]. intros s. apply tol_user. }
  destruct (0 <? a); [|exact Hexec]. by intros r [e|].
Qed.

Lemma body_steady b c : control_ok c -> steady decided_ok (body cfg b c).
Proof.
  intros Hc. destruct c as [|start a last|]; simpl.
  - intros now. simpl. lia.
  - destruct (Z.leb_spec a (MaxRetries cfg)); [by apply attempt_body_steady|].
    intros [tos g]. apply notify_steady. simpl in Hc.
    destruct g; simpl; [|..|done]; (destruct last; [done|by destruct (Hc ltac:(lia))]).
  - intros [e|]; [done|]. intros [tos g]. apply notify_steady. by destruct g.
Qed.

Lemma beginning_steady b : steady decided_ok (beginning cfg b).
Proof.
  intros s. exists tt, (upd_workers 1 s). split_and!; [done|apply quiet_m|by apply body_steady].
Qed.
End Ownership.

Lemma holds_in_flight `{Coordinator C} (s : UnorderedDispatcher C) t q :
  holds s t -> token_partition t = Some q -> in_flight s q = true.
Proof. destruct t; simpl; intros ??; simplify_eq; tauto. Qed.
