(* ===== verification/Duties.v ===== *)
(** What the dispatcher's routines still owe: each atomic action of each
    routine either leaves every partition attended to or takes on the duty to
    attend to it, and a routine that ends has done its duties.  The companion
    of [Ownership] for progress; [Progress] draws the conclusion for the
    machine. *)
From S2P Require Import Prelude Types OffsetCoordinator Dispatcher Retry Worker Machine Ownership.

(** * Duties

    What a goroutine has still to do for others: [hold], the partition it
    holds in flight, [sends], with a batch for the channel; [visits], the
    partitions whose buffers it will look at ([tryDispatch],
    [flushPartition]); [clears], those whose stale timer handle it will drop
    ([linger_fired]). *)
Record duty := mkDuty {
  hold : option Z;
  sends : bool;
  visits : list Z;
  clears : list Z
}.

Definition at_ease : duty := mkDuty None false [] [].
Definition holding (p : Z) : duty := mkDuty (Some p) false [] [].

(** Batches that an owner will add to the channel. *)
Definition credit (d : duty) : nat := if sends d then 1%nat else 0%nat.

Section Duties.
Context `{Coordinator C}.
Variable cfg : Config.
Variable hasDLQ : bool.
Variable known : Z -> Prop.
Local Abbreviation S := (UnorderedDispatcher C).
Local Abbreviation P := (prog query S).
Implicit Types s : S.

(** * Attended partitions *)

(** Nothing to do in this buffer, or somebody's to do: the worker that holds
    the partition, or the timer. *)
Definition at_rest (pb : partitionBuffer) : Prop :=
  bufMessages pb = [] \/ bufInFlight pb = true \/ lingerTimer pb <> None.
Definition cared s (p : Z) : Prop :=
  (forall pb, buffers s !! p = Some pb -> at_rest pb) \/ exists t, timers s !! t = Some p.

(** A timer handle stands for an armed timer of its partition. *)
Definition handled s (p : Z) : Prop :=
  forall pb t, buffers s !! p = Some pb -> lingerTimer pb = Some t -> timers s !! t = Some p.

Record timers_wf s : Prop := {
  tw_fresh t : is_Some (timers s !! t) -> (t < nextTimer s)%nat;
  tw_handle p pb t : buffers s !! p = Some pb -> lingerTimer pb = Some t ->
    (t < nextTimer s)%nat /\ forall q, timers s !! t = Some q -> q = p
}.

(** The messages in the buffers. *)
Definition weigh (m : gmap Z partitionBuffer) : nat :=
  sum_list ((fun kv => length (bufMessages kv.2)) <$> map_to_list m).
Definition weight s : nat := weigh (buffers s).

Lemma weigh_delete m p pb :
  m !! p = Some pb -> weigh m = (length (bufMessages pb) + weigh (delete p m))%nat.
Proof.
  intros Hp. unfold weigh. rewrite <- (insert_delete_id m p pb Hp) at 1.
  rewrite map_to_list_insert by apply lookup_delete_eq. done.
Qed.

Lemma weigh_insert m p pb pb' :
  m !! p = Some pb ->
  (weigh (<[p := pb']> m) + length (bufMessages pb) = weigh m + length (bufMessages pb'))%nat.
Proof.
  intros Hp. rewrite (weigh_delete m p pb Hp), (weigh_delete (<[p := pb']> m) p pb') by apply lookup_insert_eq.
  rewrite delete_insert_eq. lia.
Qed.

(** * What an action may do *)

(** The state in which the owner of [d] acts, before the dispatcher is
    closed. *)
Record ready (d : duty) s : Prop := {
  rd_timers : timers_wf s;
  rd_closed : closed s = false;
  rd_channel : batchChClosed s = false;
  rd_hold p : hold d = Some p -> in_flight s p = true /\ len (batchCh s) < ChannelCap cfg
}.

(** The flags and the channel change hands. *)
Inductive moves (d : duty) s (d' : duty) s' : Prop :=
| moves_keep : hold d' = hold d -> batchCh s' = batchCh s ->
    (forall q, in_flight s' q = in_flight s q) -> moves d s d' s'
| moves_take p : hold d = None -> hold d' = Some p -> batchCh s' = batchCh s ->
    in_flight s p = false ->
    (forall q, in_flight s' q = if decide (q = p) then true else in_flight s q) -> moves d s d' s'
| moves_release p : hold d = Some p -> hold d' = None -> batchCh s' = batchCh s ->
    (forall q, in_flight s' q = if decide (q = p) then false else in_flight s q) -> moves d s d' s'
| moves_send b : hold d = Some (partition b) -> hold d' = None -> batchCh s' = batchCh s ++ [b] ->
    (forall q, in_flight s' q = in_flight s q) -> moves d s d' s'.

(** Work gets done: messages leave the buffers, or batches none but those
    already cut reach the channel. *)
Definition paid (d : duty) s (d' : duty) s' : Prop :=
  (weight s' < weight s)%nat \/
  weight s' = weight s /\ (length (batchCh s') + credit d' <= length (batchCh s) + credit d)%nat.

(** [working]: the routine is not the poll goroutine's, which brings in new
    messages. *)
Variable working : bool.

Record honours (d : duty) s (d' : duty) s' : Prop := {
  ho_timers : timers_wf s';
  ho_closed : closed s' = closed s /\ batchChClosed s' = batchChClosed s;
  ho_moves : moves d s d' s';
  ho_cared q : cared s q \/ q ∈ visits d -> cared s' q \/ q ∈ visits d';
  ho_handled q : handled s q \/ q ∈ clears d -> handled s' q \/ q ∈ clears d';
  ho_known q : is_Some (buffers s' !! q) -> is_Some (buffers s !! q) \/ known q;
  ho_paid : working = true -> paid d s d' s'
}.

(** Sleeps are not interrupted: the context is not cancelled. *)
Definition benign {X} (e : query X) (x : X) : Prop :=
  match e in query Y return Y -> Prop with Sleep _ => fun r => r = None | _ => fun _ => True end x.

(** A routine that does its duties, for a postcondition [Q]. *)
Fixpoint diligent {A} (Q : A -> duty -> Prop) (d : duty) (c : P A) : Prop :=
  match c with
  | Ret a => Q a d
  | Throw _ => True
  | Act f k => forall s, ready d s ->
      match f s with
      | Returned x s' => exists d', honours d s d' s' /\ diligent Q d' (k x)
      | Panicked _ s' => closed s' = false
      end
  | Ask e k => forall x, benign e x -> diligent Q d (k x)
  end.

Lemma diligent_bind {A B} (Q : B -> duty -> Prop) d (c : P A) (f : A -> P B) :
  diligent (fun a d' => diligent Q d' (f a)) d c -> diligent Q d (bind c f).
Proof.
  revert d. induction c as [a|p|X g k IH|X e k IH]; intros d; simpl; auto.
  intros Hd s Hr. specialize (Hd s Hr). destruct (g s); [|done]. destruct Hd as (d' & ? & ?). eauto.
Qed.

Lemma diligent_mono {A} (Q Q' : A -> duty -> Prop) d (c : P A) :
  (forall a d', Q a d' -> Q' a d') -> diligent Q d c -> diligent Q' d c.
Proof.
  intros HQ. revert d. induction c as [a|p|X g k IH|X e k IH]; intros d; simpl; auto.
  intros Hd s Hr. specialize (Hd s Hr). destruct (g s); [|done]. destruct Hd as (d' & ? & ?). eauto.
Qed.

Lemma diligent_seq {A B} (R : A -> duty -> Prop) (Q : B -> duty -> Prop) d (c : P A) (f : A -> P B) :
  diligent R d c -> (forall a d', R a d' -> diligent Q d' (f a)) -> diligent Q d (bind c f).
Proof. intros Hc Hf. apply diligent_bind. by eapply diligent_mono. Qed.

(** ** Actions that touch no buffer *)

Definition same_shared s s' : Prop :=
  buffers s' = buffers s /\ batchCh s' = batchCh s /\ batchChClosed s' = batchChClosed s /\
  closed s' = closed s /\ timers s' = timers s /\ nextTimer s' = nextTimer s.

Lemma same_shared_refl s : same_shared s s.
Proof. by split_and!. Qed.

Lemma same_keeps s s' :
  same_shared s s' -> weight s' = weight s /\ (forall q, in_flight s' q = in_flight s q) /\
  (timers_wf s -> timers_wf s') /\ (forall q, cared s q -> cared s' q) /\
  (forall q, handled s q -> handled s' q).
Proof.
  intros (Eb & Ec & Ecc & Ecl & Et & En). unfold weight, cared, handled. rewrite Eb, Et. split_and!; try done.
  - intros q. unfold in_flight. by rewrite Eb.
  - intros [? ?]. constructor; rewrite ?Eb, ?Et, ?En; done.
Qed.

Lemma honours_same d d' s s' :
  ready d s -> same_shared s s' -> hold d' = hold d -> sends d' = sends d ->
  (forall q, q ∈ visits d -> q ∈ visits d') -> clears d' = clears d -> honours d s d' s'.
Proof.
  intros Hr Hs Hh Hse Hv Hc. destruct (same_keeps s s' Hs) as (Hw & Hf & Ht & Hca & Hha).
  destruct Hs as (Eb & Ec & Ecc & Ecl & Et & En). constructor; try done.
  - by apply Ht, Hr.
  - by apply moves_keep.
  - intros q [?|?]; auto.
  - rewrite Hc. intros q [?|?]; auto.
  - intros q. rewrite Eb. auto.
  - intros _. right. unfold credit. by rewrite Hw, Ec, Hse.
Qed.

Lemma diligent_same {X A} (Q : A -> duty -> Prop) d (f : S -> outcome S X) (k : X -> P A) :
  (forall s, match f s with
             | Returned x s' => same_shared s s' /\ diligent Q d (k x)
             | Panicked _ s' => closed s' = closed s
             end) ->
  diligent Q d (Act f k).
Proof.
  intros Hf s Hr. specialize (Hf s). destruct (f s) as [x s'|p s'].
  - destruct Hf as [Hs Hk]. exists d. split; [by apply honours_same|done].
  - rewrite Hf. apply Hr.
Qed.

Lemma diligent_modify {A} (Q : A -> duty -> Prop) d (f : S -> S) (k : unit -> P A) :
  (forall s, same_shared s (f s)) -> diligent Q d (k tt) -> diligent Q d (bind (modify f) k).
Proof. intros Hf Hk. by apply (diligent_same Q d (fun s => Returned tt (f s))). Qed.

Lemma diligent_coord {A} (Q : A -> duty -> Prop) d (f : C -> outcome C unit) (k : unit -> P A) :
  diligent Q d (k tt) -> diligent Q d (Act (with_coord f) k).
Proof.
  intros Hk. apply diligent_same. intros s. unfold with_coord. by destruct (f (coord s)) as [[]|].
Qed.

(** ** Actions on one partition's buffer *)

(** What becomes of the partition's timer: left alone or its handle dropped,
    stopped, or armed. *)
Inductive retimes (p : Z) s s' : Prop :=
| retimes_none : timers s' = timers s -> nextTimer s' = nextTimer s ->
    (forall pb' t, buffers s' !! p = Some pb' -> lingerTimer pb' = Some t ->
       exists pb, buffers s !! p = Some pb /\ lingerTimer pb = Some t) -> retimes p s s'
| retimes_stop pb : buffers s !! p = Some pb -> timers s' = timers (stop_timer (lingerTimer pb) s) ->
    nextTimer s' = nextTimer s ->
    (forall pb', buffers s' !! p = Some pb' -> lingerTimer pb' = None) -> retimes p s s'
| retimes_arm : timers s' = <[nextTimer s := p]> (timers s) ->
    nextTimer s' = Datatypes.S (nextTimer s) ->
    (forall pb', buffers s' !! p = Some pb' -> lingerTimer pb' = Some (nextTimer s)) ->
    retimes p s s'.

Definition elsewhere (p : Z) s s' : Prop :=
  forall q, q <> p -> buffers s' !! q = buffers s !! q.

Lemma stop_timer_lookup h s t q :
  timers (stop_timer h s) !! t = Some q -> timers s !! t = Some q.
Proof. destruct h; simpl; [|done]. by intros [_ ?]%lookup_delete_Some. Qed.

Lemma retimes_wf p s s' : timers_wf s -> elsewhere p s s' -> retimes p s s' -> timers_wf s'.
Proof.
  intros [Hf Hh] Ho Hr.
  assert (Hold : forall q pb t, buffers s !! q = Some pb -> lingerTimer pb = Some t ->
    (forall r, timers s' !! t = Some r -> timers s !! t = Some r) -> (nextTimer s <= nextTimer s')%nat ->
    (t < nextTimer s')%nat /\ forall r, timers s' !! t = Some r -> r = q).
  { intros q pb t Hq Ht Hsub Hn. destruct (Hh q pb t Hq Ht) as [? Hr']. split; [lia|auto]. }
  destruct Hr as [Et En Hp|pb Hpb Et En Hp|Et En Hp]; constructor; rewrite ?En.
  - rewrite Et. auto.
  - intros q pb' t Hq Ht. destruct (decide (q = p)) as [->|Hne].
    + destruct (Hp pb' t Hq Ht) as (pb & Hpb & Ht'). rewrite <- En. apply (Hold p pb); try done; [|lia].
      by rewrite Et.
    + rewrite Ho in Hq by done. rewrite <- En. apply (Hold q pb'); try done; [by rewrite Et|lia].
  - rewrite Et. intros t [q Hq%stop_timer_lookup]. eauto.
  - intros q pb' t Hq Ht. destruct (decide (q = p)) as [->|Hne]; [by rewrite (Hp pb' Hq) in Ht|].
    rewrite Ho in Hq by done. rewrite <- En. apply (Hold q pb'); try done; [|lia].
    rewrite Et. intros r. apply stop_timer_lookup.
  - rewrite Et. intros t. rewrite lookup_insert. case_decide; [lia|]. intros Ht. specialize (Hf t Ht). lia.
  - intros q pb' t Hq Ht. rewrite Et. destruct (decide (q = p)) as [->|Hne].
    + rewrite (Hp pb' Hq) in Ht. simplify_eq. split; [lia|]. intros r. rewrite lookup_insert_eq. congruence.
    + rewrite Ho in Hq by done. destruct (Hh q pb' t Hq Ht) as [Hlt Hr']. split; [lia|]. intros r.
      rewrite lookup_insert_ne by lia. auto.
Qed.

(** Other partitions keep their timers. *)
Lemma retimes_others p s s' q t :
  timers_wf s -> retimes p s s' -> q <> p -> timers s !! t = Some q -> timers s' !! t = Some q.
Proof.
  intros [Hf Hh] [Et _ _|pb Hpb Et _ _|Et _ _] Hne Ht; rewrite Et; [done| |].
  - destruct (lingerTimer pb) as [h|] eqn:Eh; [|done]. simpl. rewrite lookup_delete_ne; [done|].
    intros ->. destruct (Hh p pb t Hpb Eh) as [_ Hr]. by rewrite (Hr q Ht) in Hne.
  - rewrite lookup_insert_ne; [done|]. specialize (Hf t (ex_intro _ q Ht)). lia.
Qed.

Lemma retimes_cared p s s' q :
  timers_wf s -> elsewhere p s s' -> retimes p s s' -> q <> p -> cared s q -> cared s' q.
Proof.
  intros Hw Ho Hr Hne [Hc|[t Ht]]; [left|right; exists t; by eapply retimes_others].
  by rewrite Ho.
Qed.

Lemma retimes_handled p s s' q :
  timers_wf s -> elsewhere p s s' -> retimes p s s' -> handled s q -> handled s' q.
Proof.
  intros Hw Ho Hr Hh pb' t Hq Ht. destruct (decide (q = p)) as [->|Hne].
  - destruct Hr as [Et _ Hp|pb Hpb Et _ Hp|Et _ Hp].
    + destruct (Hp pb' t Hq Ht) as (pb & Hpb & Ht'). rewrite Et. by eapply Hh.
    + by rewrite (Hp pb' Hq) in Ht.
    + rewrite (Hp pb' Hq) in Ht. simplify_eq. rewrite Et. apply lookup_insert_eq.
  - eapply retimes_others; try done. rewrite Ho in Hq by done. by eapply Hh.
Qed.

Lemma honours_one p d d' s s' :
  ready d s -> elsewhere p s s' -> retimes p s s' ->
  closed s' = closed s -> batchChClosed s' = batchChClosed s ->
  (is_Some (buffers s' !! p) -> is_Some (buffers s !! p) \/ known p) -> moves d s d' s' ->
  cared s' p \/ p ∈ visits d' ->
  (forall q, q <> p -> q ∈ visits d -> q ∈ visits d') ->
  (forall q, q ∈ clears d -> handled s' q \/ q ∈ clears d') ->
  (working = true -> paid d s d' s') -> honours d s d' s'.
Proof.
  intros Hr Ho Ht Hcl Hch Hk Hm Hp Hv Hc Hpay. pose proof (rd_timers _ _ Hr) as Hw. constructor; try done.
  - by eapply retimes_wf.
  - intros q Hq. destruct (decide (q = p)) as [->|Hne]; [done|]. destruct Hq as [Hq|Hq]; [left|right; auto].
    by eapply retimes_cared.
  - intros q [Hq|Hq]; [left|auto]. by eapply retimes_handled.
  - intros q Hq. destruct (decide (q = p)) as [->|Hne]; [auto|]. rewrite Ho in Hq by done. auto.
Qed.

(** ** The dispatcher's critical sections *)

Hypothesis BatchSize_pos : 0 < BatchSize cfg.

(** With nothing in hand, and with a batch for the channel. *)
Definition roaming (vs cs : list Z) : duty := mkDuty None false vs cs.
Definition carrying (p : Z) (vs cs : list Z) : duty := mkDuty (Some p) true vs cs.

Lemma honours_rest p vs vs' cs s :
  ready (roaming vs cs) s -> cared s p -> (forall q, q <> p -> q ∈ vs -> q ∈ vs') ->
  honours (roaming vs cs) s (roaming vs' cs) s.
Proof.
  intros Hr Hp Hv. apply (honours_one p); auto.
  - done.
  - apply retimes_none; [done..|]. intros pb' t ? ?. by exists pb'.
  - by apply moves_keep.
  - intros _. right. unfold credit. simpl. lia.
Qed.

Lemma weight_put p pb pb' s :
  buffers s !! p = Some pb ->
  (weight (put_buffer p pb' s) + length (bufMessages pb) = weight s + length (bufMessages pb'))%nat.
Proof. intros Hp. by apply weigh_insert. Qed.

Lemma flags_put p pb' s q :
  in_flight (put_buffer p pb' s) q = if decide (q = p) then bufInFlight pb' else in_flight s q.
Proof. unfold in_flight, put_buffer. simpl. rewrite lookup_insert. repeat case_decide; by subst. Qed.

Lemma known_put p pb pb' s q :
  buffers s !! p = Some pb -> is_Some (buffers (put_buffer p pb' s) !! q) -> is_Some (buffers s !! q) \/ known q.
Proof. unfold put_buffer. simpl. rewrite lookup_insert. case_decide; subst; eauto. Qed.

Lemma stop_timer_keeps t s :
  buffers (stop_timer t s) = buffers s /\ batchCh (stop_timer t s) = batchCh s /\
  batchChClosed (stop_timer t s) = batchChClosed s /\ closed (stop_timer t s) = closed s /\
  nextTimer (stop_timer t s) = nextTimer s.
Proof. by destruct t. Qed.

Lemma honours_assemble p pb vs vs' cs s :
  ready (roaming vs cs) s -> buffers s !! p = Some pb -> bufInFlight pb = false ->
  bufMessages pb <> [] -> (forall q, q <> p -> q ∈ vs -> q ∈ vs') ->
  exists s', assemble_in_flight cfg pb p s = Returned (Some (cut_batch cfg p pb)) s' /\
    honours (roaming vs cs) s (carrying p vs' cs) s'.
Proof.
  intros Hr Hp Hf Hne Hv. rewrite assemble_in_flight_eq by done. eexists; split; [done|].
  set (s1 := put_buffer p (rest_buffer cfg pb true) s).
  destruct (stop_timer_keeps (lingerTimer pb) s1) as (Eb & Ec & Ecc & Ecl & En).
  assert (Hre : retimes p s (stop_timer (lingerTimer pb) s1)).
  { apply (retimes_stop _ _ _ pb); try done; [by destruct (lingerTimer pb)|].
    rewrite Eb. unfold s1. rewrite put_buffer_eq. by intros pb' [= <-]. }
  assert (Ho : elsewhere p s (stop_timer (lingerTimer pb) s1)).
  { intros q Hq. rewrite Eb. by apply put_buffer_ne. }
  apply (honours_one p); auto.
  - apply (moves_take _ _ _ _ p); try done.
    + unfold in_flight. by rewrite Hp.
    + intros q. transitivity (in_flight s1 q); [unfold in_flight; by rewrite Eb|].
      apply (flags_put p (rest_buffer cfg pb true)).
  - left. left. rewrite Eb. unfold s1. rewrite put_buffer_eq. intros pb' [= <-]. by right; left.
  - intros _. left. unfold weight at 1. rewrite Eb. fold (weight s1).
    pose proof (weight_put p pb (rest_buffer cfg pb true) s Hp) as Hw. fold s1 in Hw.
    assert (Hlt : (length (bufMessages (rest_buffer cfg pb true)) < length (bufMessages pb))%nat); [|lia].
    pose proof (f_equal length (cut_rest cfg p pb true)) as Hl. rewrite length_app in Hl.
    pose proof (cut_batch_nonempty cfg p pb BatchSize_pos Hne) as Hc. destruct (messages (cut_batch cfg p pb)); [done|].
    cbn [length] in Hl. lia.
Qed.

Lemma honours_linger p pb vs vs' cs s :
  ready (roaming vs cs) s -> buffers s !! p = Some pb ->
  (forall q, q <> p -> q ∈ vs -> q ∈ vs') ->
  exists s', startLingerTimer p s = Returned tt s' /\ honours (roaming vs cs) s (roaming vs' cs) s'.
Proof.
  intros Hr Hp Hv. unfold startLingerTimer. rewrite Hp. destruct (lingerTimer pb) as [t|] eqn:Et.
  { eexists; split; [done|]. apply (honours_rest p); [done| |done]. left. intros pb' Hp'. simplify_eq.
    right. right. by rewrite Et. }
  eexists; split; [done|]. apply (honours_one p); simpl; auto.
  - intros q Hq. by apply put_buffer_ne.
  - apply retimes_arm; simpl; [done|lia|]. rewrite lookup_insert_eq. by intros pb' [= <-].
  - apply moves_keep; try done. intros q. unfold in_flight. simpl. rewrite lookup_insert.
    case_decide; [|done]. subst. by rewrite Hp.
  - left. left. intros pb'. simpl. rewrite lookup_insert_eq. intros [= <-]. by right; right.
  - intros _. right. unfold credit, weight. simpl. split; [|lia].
    pose proof (weigh_insert (buffers s) p pb (mkBuffer (bufMessages pb) (bufInFlight pb) (Some (nextTimer s))) Hp) as Hw.
    simpl in Hw. lia.
Qed.

(** What looking at partition [p]'s buffer leaves to do. *)
Definition visited (p : Z) (vs vs' cs : list Z) s (ob : option batch) s' : Prop :=
  match ob with
  | None => honours (roaming vs cs) s (roaming vs' cs) s'
  | Some b => partition b = p /\ honours (roaming vs cs) s (carrying p vs' cs) s'
  end.

Lemma visited_idle p vs vs' cs s :
  ready (roaming vs cs) s -> (forall q, q <> p -> q ∈ vs -> q ∈ vs') ->
  (forall pb, buffers s !! p = Some pb -> (bufInFlight pb || (len (bufMessages pb) =? 0)) = true) ->
  visited p vs vs' cs s None s.
Proof.
  intros Hr Hv Hp. apply (honours_rest p); [done| |done]. left. intros pb Hpb.
  specialize (Hp pb Hpb). apply orb_true_iff in Hp as [Hf|Hl%Z.eqb_eq]; [by right; left|left].
  by apply length_zero_iff_nil, Nat2Z.inj.
Qed.

Lemma assemble_visits p pb vs vs' cs s :
  ready (roaming vs cs) s -> (forall q, q <> p -> q ∈ vs -> q ∈ vs') -> buffers s !! p = Some pb ->
  (bufInFlight pb || (len (bufMessages pb) =? 0)) = false ->
  exists ob s', assemble_in_flight cfg pb p s = Returned ob s' /\ visited p vs vs' cs s ob s'.
Proof.
  intros Hr Hv Hp [Hf Hl]%orb_false_iff.
  destruct (honours_assemble p pb vs vs' cs s Hr Hp Hf) as (s' & -> & Ha); [by intros E; rewrite E in Hl|done|].
  by exists (Some (cut_batch cfg p pb)), s'.
Qed.

Lemma tryDispatch_locked_visits p vs vs' cs s :
  ready (roaming vs cs) s -> (forall q, q <> p -> q ∈ vs -> q ∈ vs') ->
  exists ob s', tryDispatch_locked cfg p s = Returned ob s' /\ visited p vs vs' cs s ob s'.
Proof.
  intros Hr Hv. unfold tryDispatch_locked. destruct (buffers s !! p) as [pb|] eqn:Hp.
  2: { exists None, s. split; [done|]. apply visited_idle; [done..|]. by rewrite Hp. }
  destruct (_ || _) eqn:Hf.
  { exists None, s. split; [done|]. apply visited_idle; [done..|]. rewrite Hp. by intros pb' [= <-]. }
  destruct (_ <=? _); [by apply assemble_visits|].
  destruct (honours_linger p pb vs vs' cs s Hr Hp Hv) as (s' & -> & Ha). by exists None, s'.
Qed.

Lemma flushPartition_locked_visits p vs vs' cs s :
  ready (roaming vs cs) s -> (forall q, q <> p -> q ∈ vs -> q ∈ vs') ->
  exists ob s', flushPartition_locked cfg p s = Returned ob s' /\ visited p vs vs' cs s ob s'.
Proof.
  intros Hr Hv. unfold flushPartition_locked. destruct (buffers s !! p) as [pb|] eqn:Hp.
  2: { exists None, s. split; [done|]. apply visited_idle; [done..|]. by rewrite Hp. }
  destruct (_ || _) eqn:Hf; [|by apply assemble_visits].
  exists None, s. split; [done|]. apply visited_idle; [done..|]. rewrite Hp. by intros pb' [= <-].
Qed.

(** ** The routines *)

(** Nothing failed and the rounds are over. *)
Definition dispatched_ok (vs : list Z) (r : option error) (d : duty) : Prop :=
  r = None /\ d = roaming vs [].

Lemma dispatchBatch_diligent b vs :
  diligent (dispatched_ok vs) (carrying (partition b) vs []) (dispatchBatch cfg b).
Proof.
  unfold dispatchBatch. intros s Hr. exists (carrying (partition b) vs []).
  split; [by apply honours_same; [|apply same_shared_refl|..]|]. rewrite (rd_closed _ _ Hr).
  apply diligent_coord. intros s1 Hr1. unfold try_send. rewrite (rd_channel _ _ Hr1).
  destruct (rd_hold _ _ Hr1 (partition b) eq_refl) as [Hf Hcap].
  rewrite (proj2 (Z.ltb_lt _ _) Hcap). exists (roaming vs []). split.
  - constructor; simpl; auto.
    + by destruct (rd_timers _ _ Hr1).
    + by apply (moves_send _ _ _ _ b).
    + intros _. right. split; [done|]. unfold credit. simpl. rewrite length_app. simpl. lia.
  - by apply (diligent_modify _ _ (upd_inflight _ _)).
Qed.

Lemma after_visit {A} (Q : A -> duty -> Prop) p vs vs' (f : S -> outcome S (option batch))
    (k : option batch -> P A) :
  (forall s, ready (roaming vs []) s ->
     exists ob s', f s = Returned ob s' /\ visited p vs vs' [] s ob s') ->
  diligent Q (roaming vs' []) (k None) ->
  (forall b, partition b = p -> diligent Q (carrying p vs' []) (k (Some b))) ->
  diligent Q (roaming vs []) (Act f k).
Proof.
  intros Hf Hn Hb s Hr. destruct (Hf s Hr) as ([b|] & s' & -> & Hv); [destruct Hv as [Hp Hv]|];
    eexists; (split; [exact Hv|auto]).
Qed.

Lemma tryDispatch_diligent p vs :
  diligent (dispatched_ok vs) (roaming (p :: vs) []) (tryDispatch cfg p).
Proof.
  apply (after_visit _ p (p :: vs) vs); [|done|intros b <-; apply dispatchBatch_diligent].
  intros s Hr. apply tryDispatch_locked_visits; [done|]. by intros q Hne [->|?]%elem_of_cons.
Qed.

Definition done_all {A} (a : A) (d : duty) : Prop := d = at_ease.

Lemma drain_diligent ps : diligent done_all (roaming ps []) (drain cfg ps).
Proof.
  induction ps as [|p ps IH]; [done|].
  apply (diligent_seq (dispatched_ok ps)); [apply tryDispatch_diligent|]. by intros r d [-> ->].
Qed.

Lemma linger_fired_diligent p : diligent done_all (roaming [p] [p]) (linger_fired cfg p).
Proof.
  unfold linger_fired. intros s Hr. exists (roaming [p] []). split.
  - assert (Hc : forall q, q <> p -> buffers (clear_timer p s) !! q = buffers s !! q).
    { intros q Hne. unfold clear_timer. destruct (buffers s !! p); [by apply put_buffer_ne|done]. }
    assert (Hn : forall pb, buffers (clear_timer p s) !! p = Some pb -> lingerTimer pb = None).
    { unfold clear_timer. destruct (buffers s !! p) as [pb|] eqn:Hp; [|by rewrite Hp].
      rewrite put_buffer_eq. by intros pb' [= <-]. }
    assert (Hsame : timers (clear_timer p s) = timers s /\ nextTimer (clear_timer p s) = nextTimer s /\
      closed (clear_timer p s) = closed s /\ batchChClosed (clear_timer p s) = batchChClosed s /\
      batchCh (clear_timer p s) = batchCh s) by (unfold clear_timer; by destruct (buffers s !! p)).
    destruct Hsame as (Et & En & Ecl & Ecc & Ec).
    assert (Hw : weight (clear_timer p s) = weight s).
    { unfold clear_timer. destruct (buffers s !! p) as [pb|] eqn:Hp; [|done].
      pose proof (weight_put p pb (mkBuffer (bufMessages pb) (bufInFlight pb) None) s Hp) as Hw. simpl in Hw. lia. }
    apply (honours_one p); auto.
    + apply retimes_none; [done..|]. intros pb' t Hpb Ht. by rewrite (Hn pb' Hpb) in Ht.
    + unfold clear_timer. destruct (buffers s !! p) eqn:Hp; [eauto|by rewrite Hp].
    + apply moves_keep; [done..|]. intros q. unfold clear_timer. destruct (buffers s !! p) as [pb|] eqn:Hp; [|done].
      rewrite flags_put. case_decide; [|done]. subst. unfold in_flight. by rewrite Hp.
    + right. apply list_elem_of_here.
    + intros q ->%list_elem_of_singleton. left. intros pb' t Hpb Ht. by rewrite (Hn pb' Hpb) in Ht.
    + intros _. right. unfold credit. by rewrite Hw, Ec.
  - unfold flushPartition. apply (after_visit _ p [p] []); [|done|].
    + intros s' Hr'. apply flushPartition_locked_visits; [done|]. by intros q Hne ?%list_elem_of_singleton.
    + intros b <-. apply (diligent_seq (dispatched_ok [])); [apply dispatchBatch_diligent|]. by intros r d [_ ->].
Qed.

(** The partition is released; the waiting ones are to be looked at. *)
Lemma released_duties p s :
  ready (holding p) s ->
  honours (holding p) s (roaming (pending_of (set_inFlight p false s)) []) (set_inFlight p false s).
Proof.
  intros Hr. destruct (rd_hold _ _ Hr p eq_refl) as [Hf _]. unfold in_flight in Hf.
  destruct (buffers s !! p) as [pb|] eqn:Hp; [|done].
  set (s' := set_inFlight p false s).
  assert (Hs' : s' = put_buffer p (mkBuffer (bufMessages pb) false (lingerTimer pb)) s)
    by (unfold s', set_inFlight; by rewrite Hp).
  apply (honours_one p); rewrite ?Hs'; auto.
  - intros q Hq. by apply put_buffer_ne.
  - apply retimes_none; [done..|]. rewrite put_buffer_eq. intros pb' t [= <-]. eauto.
  - apply (moves_release _ _ _ _ p); try done. intros q. apply flags_put.
  - rewrite <- Hs'. destruct (decide (p ∈ pending_of s')) as [Hin|Hn]; [by right|]. left. left.
    intros pb' Hpb'. destruct (bufInFlight pb') eqn:E; [by right; left|].
    destruct (pending_attended cfg s' p Hn pb' Hpb' E) as [Hm|[_ [t Ht]]]; [by left|]. right; right. by rewrite Ht.
  - intros q _ Hq. by apply not_elem_of_nil in Hq.
  - intros _. right. split; [|done]. pose proof (weight_put p pb (mkBuffer (bufMessages pb) false (lingerTimer pb)) s Hp) as Hw.
    simpl in Hw. lia.
Qed.

Lemma onBatchDone_diligent p : diligent done_all (holding p) (onBatchDone cfg p).
Proof.
  unfold onBatchDone. intros s Hr. unfold onBatchDone_locked. eexists. split; [by apply released_duties|].
  intros [order Ho] _ s' Hr'. exists (roaming order []). split; [|apply drain_diligent].
  apply honours_same; try done. intros q. simpl. by rewrite Ho.
Qed.

(** ** The worker *)

(** A routine that leaves buffers, channel and timers alone. *)
Fixpoint hands_off {A} (Q : A -> Prop) (c : P A) : Prop :=
  match c with
  | Ret a => Q a
  | Throw _ => True
  | Act f k => forall s, match f s with
                         | Returned x s' => same_shared s s' /\ hands_off Q (k x)
                         | Panicked _ s' => closed s' = closed s
                         end
  | Ask e k => forall x, benign e x -> hands_off Q (k x)
  end.

Lemma hands_off_bind {A B} (Q : B -> Prop) (c : P A) (f : A -> P B) :
  hands_off (fun a => hands_off Q (f a)) c -> hands_off Q (bind c f).
Proof.
  induction c as [a|p|X g k IH|X e k IH]; simpl; auto. intros Hh s. specialize (Hh s).
  destruct (g s); [|done]. destruct Hh. auto.
Qed.

Lemma hands_off_diligent {A} (Q : A -> Prop) d (c : P A) :
  hands_off Q c -> diligent (fun a d' => Q a /\ d' = d) d c.
Proof.
  induction c as [a|p|X f k IH|X e k IH]; intros Hh; [done|done|..|simpl; auto].
  apply diligent_same. intros s. specialize (Hh s). destruct (f s); [|done]. destruct Hh. auto.
Qed.

Lemma hands_off_modify {A} (Q : A -> Prop) (f : S -> S) (k : unit -> P A) :
  (forall s, same_shared s (f s)) -> hands_off Q (k tt) -> hands_off Q (bind (modify f) k).
Proof. intros Hf Hk s. by split. Qed.

Lemma settle_hands_off b v : hands_off (fun _ => True) (settle hasDLQ b v).
Proof.
  assert (Hc : hands_off (fun _ => True) (complete (C := C) b)).
  { intros s. unfold with_coord. by destruct (BatchComplete _ _ (coord s)) as [[]|]. }
  assert (Hend : forall start label,
    hands_off (fun _ => True) (let* _ := recordBatchMetrics b start label in complete b)).
  { intros start label now _. by apply hands_off_modify. }
  assert (Hdlq : forall e label (k : P unit), hands_off (fun _ => True) k ->
    hands_off (fun _ => True) (let* _ := sendToDLQ hasDLQ b e label in k)).
  { intros e label k Hk. unfold sendToDLQ. destruct hasDLQ; [|done]. intros [err|] _; [done|].
    by apply hands_off_modify. }
  destruct v; [apply Hend|apply Hdlq, Hend|apply Hdlq, Hend|done].
Qed.

Lemma finishing_diligent b v :
  is_completed v = true -> diligent done_all (holding (partition b)) (finishing cfg hasDLQ b v).
Proof.
  intros Hv. unfold finishing.
  assert (Hfin : finish cfg hasDLQ b v =
    let* _ := settle hasDLQ b v in onBatchDone cfg (partition b)) by (by destruct v).
  rewrite Hfin. apply (diligent_seq done_all).
  - eapply diligent_seq; [apply hands_off_diligent, settle_hands_off|]. intros _ d [_ ->].
    apply onBatchDone_diligent.
  - intros _ d ->. by apply (diligent_modify _ _ (upd_workers (-1)) Ret).
Qed.

(** No verdict but abandonment leaves the partition in flight. *)
Definition goes_on (r : control + verdict) : Prop :=
  match r with inr v => is_completed v = true | inl _ => True end.

Lemma notify_hands_off {A} (Q : A -> Prop) tos (k : unit -> P A) :
  hands_off Q (k tt) -> hands_off Q (bind (notify tos) k).
Proof.
  intros Hk. induction tos as [|to tos IH]; [done|]. intros s. split; [|done].
  unfold OnStateChange. by destruct (_ <? 3).
Qed.

Lemma body_hands_off b c : hands_off goes_on (body cfg b c).
Proof.
  destruct c as [|start a last|]; simpl.
  - done.
  - destruct (_ <=? _).
    + unfold attempt_body. set (rest := fun res : option error * option error => _ : P (control + verdict)).
      assert (Hrest : forall res, hands_off goes_on (rest res)).
      { intros [[e|] [cbErr|]]; unfold rest; try done. destruct (breaker_error cbErr); [|done].
        intros r _ x Hx. simpl in Hx. by rewrite Hx. }
      assert (Hexec : hands_off goes_on (bind (execute b) rest)).
      { apply hands_off_bind. unfold execute. intros [tos x] _. apply notify_hands_off.
        destruct x as [[]|err|msg]; [apply Hrest..|done]. }
      destruct (0 <? a); [|exact Hexec]. intros r _ x Hx. simpl in Hx. by rewrite Hx.
    + intros [tos g] _. apply notify_hands_off. destruct g; simpl; [|..|done]; by destruct last.
  - intros x Hx. simpl in Hx. rewrite Hx. intros [tos g] _. apply notify_hands_off. by destruct g.
Qed.

Definition decided_holding (b : batch) (r : control + verdict) (d : duty) : Prop :=
  goes_on r /\ d = holding (partition b).

Lemma body_diligent b c :
  diligent (decided_holding b) (holding (partition b)) (body cfg b c).
Proof. apply hands_off_diligent, body_hands_off. Qed.

Lemma beginning_diligent b :
  diligent (decided_holding b) (holding (partition b)) (beginning cfg b).
Proof. unfold beginning. by apply (diligent_modify _ _ (upd_workers 1)), body_diligent. Qed.
End Duties.

(** * The poll goroutine's calls

    They bring in messages and empty buffers, and leave nothing behind
    unattended either. *)
Section Polling.
Context `{Coordinator C}.
Variable cfg : Config.
Variable known : Z -> Prop.
Hypothesis BatchSize_pos : 0 < BatchSize cfg.
Local Abbreviation S := (UnorderedDispatcher C).
Implicit Types s : S.
Local Abbreviation diligent := (diligent cfg known false).
Local Abbreviation honours := (honours known false).
Local Abbreviation ready := (ready cfg).

Lemma honours_ready s s' : ready at_ease s -> honours at_ease s at_ease s' -> ready at_ease s'.
Proof.
  intros Hr Hh. destruct (ho_closed _ _ _ _ _ _ Hh) as [Hc Hb]. constructor; [apply Hh|..|done].
  - rewrite Hc. apply Hr.
  - rewrite Hb. apply Hr.
Qed.

Lemma honours_trans s1 s2 s3 :
  honours at_ease s1 at_ease s2 -> honours at_ease s2 at_ease s3 -> honours at_ease s1 at_ease s3.
Proof.
  intros H1 H2. destruct (ho_closed _ _ _ _ _ _ H1), (ho_closed _ _ _ _ _ _ H2).
  constructor; [apply H2|split; congruence|..|done].
  - destruct (ho_moves _ _ _ _ _ _ H1) as [_ C1 F1| | |], (ho_moves _ _ _ _ _ _ H2) as [_ C2 F2| | |]; try done.
    apply moves_keep; [done|congruence|]. intros q. by rewrite F2.
  - intros q Hq. by apply (ho_cared _ _ _ _ _ _ H2), (ho_cared _ _ _ _ _ _ H1).
  - intros q Hq. by apply (ho_handled _ _ _ _ _ _ H2), (ho_handled _ _ _ _ _ _ H1).
  - intros q Hq. destruct (ho_known _ _ _ _ _ _ H2 q Hq) as [Hq'|?]; [|by right].
    by apply (ho_known _ _ _ _ _ _ H1).
Qed.

Lemma honours_fold {X} (f : S -> X -> S) (l : list X) s :
  (forall x s, x ∈ l -> ready at_ease s -> honours at_ease s at_ease (f s x)) ->
  ready at_ease s -> honours at_ease s at_ease (foldl f s l).
Proof.
  revert s. induction l as [|x l IH]; intros s Hf Hr; simpl; [by apply (honours_same cfg); [|apply same_shared_refl|..]|].
  pose proof (Hf x s (list_elem_of_here _ _) Hr) as Hx.
  eapply honours_trans; [exact Hx|]. apply IH; [|by eapply honours_ready].
  intros y s' Hy. by apply Hf, list_elem_of_further.
Qed.

(** A buffer rewritten with its flag and no new messages to look after. *)
Lemma honours_put p pb' vs s s' :
  ready at_ease s -> in_flight s p = bufInFlight pb' -> known p \/ is_Some (buffers s !! p) ->
  buffers s' = <[p := pb']> (buffers s) -> batchCh s' = batchCh s -> closed s' = closed s ->
  batchChClosed s' = batchChClosed s -> retimes p s s' -> at_rest pb' \/ p ∈ vs ->
  honours at_ease s (roaming vs []) s'.
Proof.
  intros Hr Hf Hk Eb Ec Ecl Ecc Ht Hp. apply (honours_one cfg known false p); auto.
  - intros q Hq. rewrite Eb. by rewrite lookup_insert_ne.
  - tauto.
  - apply moves_keep; [done|done|]. intros q. unfold in_flight at 1. rewrite Eb, lookup_insert.
    case_decide; [subst; by rewrite Hf|done].
  - destruct Hp as [Hp|Hp]; [left; left|by right]. rewrite Eb, lookup_insert_eq. by intros pb [= <-].
  - intros q _ Hq. by apply not_elem_of_nil in Hq.
  - done.
Qed.

Lemma honours_assign tp s :
  known (tpPartition tp) -> ready at_ease s -> honours at_ease s at_ease (assign_one s tp).
Proof.
  intros Hk Hr. unfold assign_one. destruct (buffers s !! tpPartition tp) eqn:Hp.
  { by apply (honours_same cfg); [|apply same_shared_refl|..]. }
  apply (honours_put (tpPartition tp) empty_buffer []); auto.
  - unfold in_flight. by rewrite Hp.
  - apply retimes_none; [done..|]. rewrite put_buffer_eq. by intros pb' t [= <-].
  - by left; left.
Qed.

Lemma honours_revoke tp s :
  ready at_ease s -> honours at_ease s at_ease (revoke_one s tp).
Proof.
  intros Hr. unfold revoke_one. destruct (buffers s !! tpPartition tp) as [pb|] eqn:Hp.
  2: { by apply (honours_same cfg); [|apply same_shared_refl|..]. }
  destruct (stop_timer_keeps (lingerTimer pb) s) as (Eb & Ec & Ecc & Ecl & En).
  apply (honours_put (tpPartition tp) (mkBuffer [] (bufInFlight pb) None) []); auto.
  - unfold in_flight. by rewrite Hp.
  - simpl. by rewrite Eb.
  - apply (retimes_stop _ _ _ pb); try done. rewrite put_buffer_eq. by intros pb' [= <-].
  - by left; left.
Qed.

Lemma Send_locked_diligent {A} (Q : A -> duty -> Prop) p msgs (k : option error -> prog query S A) :
  known p -> diligent Q (roaming [p] []) (k None) -> diligent Q at_ease (Act (Send_locked cfg p msgs) k).
Proof.
  intros Hk HQ s Hr. unfold Send_locked. rewrite (rd_closed _ _ _ Hr), make_ok by done.
  eexists. split; [|exact HQ]. set (pb := get_or_new p s).
  apply (honours_put p (mkBuffer (bufMessages pb ++ msgs) (bufInFlight pb) (lingerTimer pb))); auto; try done.
  - unfold pb, in_flight, get_or_new. simpl. by destruct (buffers s !! p).
  - apply retimes_none; [done..|]. rewrite put_buffer_eq. unfold pb, get_or_new. intros pb' t [= <-]. simpl.
    destruct (buffers s !! p) as [pb0|]; simpl; [eauto|done].
  - right. apply list_elem_of_here.
Qed.

(** The partitions a call mentions are known, and it is not [Close]. *)
Definition open_call (k : api_call) : Prop :=
  match k with
  | CallSend q _ => known q
  | CallAssigned tps => forall tp, tp ∈ tps -> known (tpPartition tp)
  | CallClose => False
  | _ => True
  end.

Lemma api_diligent k : open_call k -> diligent done_all at_ease (api_routine cfg k).
Proof.
  assert (Hsame : forall (f : S -> S) (k' : unit -> prog query S reply), (forall s, same_shared s (f s)) ->
    diligent done_all at_ease (k' tt) -> diligent done_all at_ease (bind (modify f) k'))
    by (intros; by apply diligent_modify).
  destruct k as [p msgs|tps|tps|p| | |]; intros Hk; simpl in Hk; unfold api_routine; [|..|done].
  - apply diligent_bind. unfold Send. apply Send_locked_diligent; [done|].
    eapply diligent_mono; [|by apply tryDispatch_diligent]. by intros r d [-> ->].
  - intros s Hr. rewrite assign_all_ok by done. exists at_ease. split; [|done].
    apply honours_fold; [|done]. intros tp s' Htp. by apply honours_assign, Hk.
  - intros s Hr. exists at_ease. split; [|done]. apply honours_fold; [|done].
    intros tp s' _. apply honours_revoke.
  - by apply Hsame.
  - apply diligent_same. intros s. unfold receive_ready, recv_ready. by destruct (readyCh s).
  - apply diligent_same. intros s. unfold receive_circuit, recv_circuit. by destruct (circuitStateCh s).
Qed.
End Polling.
