(* ===== verification/Interleaving.v ===== *)
(** The dispatcher's goroutines together: in every interleaving of the poll
    goroutine, the workers and the fired linger timers, whatever the
    environment answers, the owners of [Ownership] keep their discipline.
    From the invariant follow mutual exclusion per partition, the absence of
    the coordinator's panics, the conservation and order of a partition's
    messages, and that offsets become committable only for messages that were
    processed or given up. *)
From S2P Require Import Prelude Types OffsetCoordinator Dispatcher Retry Worker Machine Ownership.

(** * The accounts

    The tokens of all owners, with the history of sends and verdicts. *)

Section Accounts.
Context `{Coordinator C}.
Variable cfg : Config.
Local Abbreviation S := (UnorderedDispatcher C).
Implicit Types s : S.
Variables (active strict : bool) (fp : Z) (known : Z -> Prop).
Local Abbreviation allowed := (allowed cfg active strict fp known).
Local Abbreviation shared_inv := (shared_inv cfg known).
Local Abbreviation contrib := (contrib active fp).
Local Abbreviation held_back := (held_back active fp).

Definition channel_tokens s : list token := Dispatched <$> batchCh s.

(** The messages of [fp] that owners hold. *)
Definition carried (ts : list token) : list Message := concat (contrib <$> ts).

(** Every owner holds what it owns; no partition has two owners; the messages
    sent to [fp], less those a revocation discarded, are, in order, those with
    a verdict, those an owner holds, those in the buffer and those [pend]ing
    in a call of [Send]; a batch
    about to be completed has the last verdict, and so has a completed slot. *)
Record accounted (ls : list label) (pend : list Message) s (ts : list token) : Prop := {
  ac_holds : Forall (holds s) ts;
  ac_distinct : NoDup (omap token_partition ts);
  ac_ledger : active = true ->
    kept fp ls = Some (concat (messages <$> settled fp ls) ++ carried ts ++ held_back s ++ pend);
  ac_settled b : active = true -> Settled b ∈ ts -> partition b = fp ->
    last (settled fp ls) = Some b;
  ac_done off : strict = true -> active = true -> slot_of (coord s) fp = Completed off ->
    exists b, last (settled fp ls) = Some b /\ wf_batch b /\ batchMaxOffset b = off
}.

Lemma carried_nil ts : (forall u, u ∈ ts -> token_partition u <> Some fp) -> carried ts = [].
Proof.
  induction ts as [|u ts IH]; intros Hn; [done|]. unfold carried. simpl.
  rewrite (contrib_other active fp u) by (apply Hn, list_elem_of_here).
  apply IH. intros v Hv. by apply Hn, list_elem_of_further.
Qed.

Lemma carried_cons t ts : carried (t :: ts) = contrib t ++ carried ts.
Proof. done. Qed.

Lemma carried_app ts ts' : carried (ts ++ ts') = carried ts ++ carried ts'.
Proof. unfold carried. by rewrite fmap_app, concat_app. Qed.

Lemma carried_alone u ts :
  NoDup (omap token_partition (u :: ts)) -> token_partition u = Some fp -> carried ts = [].
Proof.
  intros Hd Hu. apply carried_nil. intros v Hv Hp. simpl in Hd. rewrite Hu in Hd.
  apply NoDup_cons in Hd as [Hd _]. apply Hd, list_elem_of_omap. eauto.
Qed.

(** At most one token carries messages of [fp], so the order is immaterial. *)
Lemma carried_perm ts ts' :
  ts ≡ₚ ts' -> NoDup (omap token_partition ts) -> carried ts = carried ts'.
Proof.
  intros Hp. induction Hp as [|u ts ts' Hp IH|u v ts|ts1 ts2 ts3 Hp1 IH1 Hp2 IH2]; intros Hd.
  - done.
  - unfold carried in *. simpl in *. f_equal. apply IH.
    destruct (token_partition u); [by apply NoDup_cons in Hd as [_ ?]|done].
  - destruct (decide (token_partition u = Some fp)) as [Hu|Hu].
    + assert (Hv : token_partition v <> Some fp).
      { intros Hv. simpl in Hd. rewrite Hv, Hu in Hd. apply NoDup_cons in Hd as [Hd _].
        apply Hd, list_elem_of_here. }
      unfold carried. simpl. by rewrite (contrib_other active fp v Hv).
    + unfold carried. simpl. by rewrite (contrib_other active fp u Hu).
  - rewrite IH1 by done. apply IH2. by rewrite <- Hp1.
Qed.

Lemma accounted_perm ls pend s ts ts' :
  ts ≡ₚ ts' -> accounted ls pend s ts -> accounted ls pend s ts'.
Proof.
  intros Hp [Hh Hd Hl Hs Hdone]. constructor; auto.
  - by rewrite <- Hp.
  - by rewrite <- Hp.
  - intros Ha. rewrite <- (carried_perm ts ts' Hp Hd). auto.
  - intros b Ha. rewrite <- Hp. auto.
Qed.

Lemma accounted_other ls pend s t ts u q :
  accounted ls pend s (t :: ts) -> u ∈ ts -> token_partition u = Some q ->
  token_partition t <> Some q.
Proof.
  intros [_ Hd _ _ _] Hu Hq Ht. simpl in Hd. rewrite Ht in Hd. apply NoDup_cons in Hd as [Hd _].
  apply Hd, list_elem_of_omap. eauto.
Qed.

Lemma holds_frame t s t' s' u :
  allowed t s t' s' -> holds s u ->
  (forall q, token_partition u = Some q -> token_partition t <> Some q) -> holds s' u.
Proof.
  intros Ha Hu Hne. destruct u as [|b|b|b|b]; [done|..]; simpl in *;
    destruct Hu as (Hw & Hf & Hs);
    destruct (al_others _ _ _ _ _ _ _ _ _ Ha (partition b) Hf (Hne _ eq_refl)) as [Hf' [Hs'|Hs']];
    rewrite Hf', Hs'; split_and!; auto.
Qed.

Lemma accounted_frame ls pend t s t' s' ts :
  allowed t s t' s' -> accounted ls pend s (t :: ts) -> Forall (holds s') ts.
Proof.
  intros Ha Ho. apply Forall_forall. intros u Hu. apply (holds_frame t s t'); [done| |].
  - pose proof (ac_holds _ _ _ _ Ho) as Hh. inversion Hh; subst. rewrite Forall_forall in *. auto.
  - intros q Hq. eapply accounted_other; eauto.
Qed.

(** An action of the owner of [t] leaves the accounts in order. *)
Lemma distinct_step ls pend t s t' ts :
  accounted ls pend s (t :: ts) ->
  token_partition t' = None \/ token_partition t' = token_partition t \/
    (exists q, token_partition t' = Some q /\ in_flight s q = false) ->
  NoDup (omap token_partition (t' :: ts)).
Proof.
  intros Ha Hp. pose proof (ac_distinct _ _ _ _ Ha) as Hd. simpl in *.
  assert (Hd' : NoDup (omap token_partition ts))
    by (destruct (token_partition t); [by apply NoDup_cons in Hd as [_ ?]|done]).
  destruct Hp as [-> | [-> | (q & -> & Hq)]]; [done..|].
  apply NoDup_cons. split; [|done]. intros Hin.
  apply list_elem_of_omap in Hin as (u & Hu & Hup).
  pose proof (ac_holds _ _ _ _ Ha) as Hh. inversion Hh as [|? ? _ Hts]; subst.
  pose proof (holds_in_flight s u q ltac:(by eapply Forall_forall in Hts; [|exact Hu]) Hup).
  congruence.
Qed.

Lemma carried_step ls pend t s t' s' ts :
  accounted ls pend s (t :: ts) ->
  contrib t' ++ held_back s' = contrib t ++ held_back s ->
  contrib t' = contrib t \/ token_partition t = Some fp \/ in_flight s fp = false ->
  carried (t' :: ts) ++ held_back s' = carried (t :: ts) ++ held_back s.
Proof.
  intros Ha He Hor.
  assert (Hcase : contrib t' = contrib t \/ carried ts = []).
  { destruct Hor as [?|[Ht|Hf]]; [auto|right..].
    - eapply carried_alone; [apply Ha|done].
    - apply carried_nil. intros u Hu Hp.
      pose proof (ac_holds _ _ _ _ Ha) as Hh. inversion Hh as [|? ? _ Hts]; subst.
      pose proof (holds_in_flight s u fp ltac:(by eapply Forall_forall in Hts; [|exact Hu]) Hp).
      congruence. }
  rewrite !carried_cons. destruct Hcase as [E|E].
  - rewrite E in *. apply app_inv_head in He. by rewrite He.
  - by rewrite E, !app_nil_r.
Qed.

Lemma done_step ls pend t s t' s' ts off :
  allowed t s t' s' -> accounted ls pend s (t :: ts) ->
  strict = true -> active = true -> slot_of (coord s') fp = Completed off ->
  exists b, last (settled fp ls) = Some b /\ wf_batch b /\ batchMaxOffset b = off.
Proof.
  intros Ha Ho Hs Hac Hoff. destruct (al_done _ _ _ _ _ _ _ _ _ Ha off Hs Hac Hoff) as [?|(b & -> & Hb & Hm)].
  - by eapply ac_done.
  - exists b. pose proof (Forall_inv (ac_holds _ _ _ _ Ho)) as [Hw _]. split_and!; [|done|done].
    eapply ac_settled; eauto. apply list_elem_of_here.
Qed.

Lemma accounted_step ls pend t s t' s' ts :
  allowed t s t' s' -> accounted ls pend s (t :: ts ++ channel_tokens s) ->
  accounted ls pend s' (t' :: ts ++ channel_tokens s').
Proof.
  intros Ha Ho. pose proof (accounted_frame _ _ _ _ _ _ _ Ha Ho) as Hf.
  pose proof (fun off => done_step _ _ _ _ _ _ _ off Ha Ho) as Hdone.
  destruct (al_chan _ _ _ _ _ _ _ _ _ Ha) as
    [(b & Hc & -> & -> & Hht & Hb)|(Hc & Hp & He & Hor)]; unfold channel_tokens in *; rewrite Hc.
  - rewrite fmap_app. simpl.
    assert (Hperm : NoBatch :: Dispatched b :: ts ++ (Dispatched <$> batchCh s) ≡ₚ
      NoBatch :: ts ++ (Dispatched <$> batchCh s) ++ [Dispatched b]).
    { apply Permutation_skip. rewrite app_assoc. apply Permutation_cons_append. }
    eapply accounted_perm; [exact Hperm|]. constructor; auto.
    + by do 2 (apply Forall_cons; split; [done|]).
    + apply Ho.
    + intros Hac. rewrite Hb. by apply Ho.
    + intros b' Hac Hin. apply elem_of_cons in Hin as [?|Hin]; [done|]. by apply Ho.
  - constructor; auto.
    + constructor; [apply Ha|done].
    + by eapply distinct_step.
    + intros Hac. rewrite (ac_ledger _ _ _ _ Ho Hac), !(app_assoc (carried _)).
      by erewrite <- carried_step.
    + intros b' Hac Hin. apply elem_of_cons in Hin as [<-|Hin].
      * rewrite (al_settled _ _ _ _ _ _ _ _ _ Ha b' eq_refl) in Ho. apply Ho; [done|apply list_elem_of_here].
      * apply Ho; [done|by apply list_elem_of_further].
Qed.

(** An owner whose routine is over keeps its token for good, aside. *)
Lemma accounted_nothing ls pend s ts : accounted ls pend s ts -> accounted ls pend s (NoBatch :: ts).
Proof.
  intros [Hh Hd Hl Hs Hdone]. constructor; auto; [by constructor|].
  intros b Ha Hin. apply elem_of_cons in Hin as [?|Hin]; [done|auto].
Qed.

(** Actions that owners do not notice, and the one that buffers what is
    pending. *)
Lemma accounted_mute ls pend pend' s s' ts :
  mute known s s' -> held_back s' ++ pend' = held_back s ++ pend ->
  accounted ls pend s ts -> accounted ls pend' s' ts.
Proof.
  intros Hm Hb [Hh Hd Hl Hs Hdone]. constructor; auto.
  - eapply Forall_impl; [exact Hh|]. intros t. by apply (mute_holds known).
  - intros Ha. rewrite Hb. auto.
  - intros off. rewrite (q_coord _ _ _ Hm). auto.
Qed.

(** The history grows. *)
Lemma accounted_sent ls s ts q msgs :
  accounted ls [] s ts ->
  accounted (ls ++ [Sent q msgs]) (if active && (q =? fp) then msgs else []) s ts.
Proof.
  intros [Hh Hd Hl Hs Hdone].
  constructor; auto; rewrite ?settled_app; simpl; rewrite ?app_nil_r; auto.
  intros Ha. rewrite kept_app, (Hl Ha). unfold Ownership.held_back. rewrite Ha. simpl.
  destruct (q =? fp); by rewrite ?app_nil_r, <- ?app_assoc.
Qed.

(** A revocation discards what is in the buffer. *)
Lemma kept_discards ls s qs ms :
  kept fp ls = Some (ms ++ bufMessages (get_or_new fp s)) ->
  kept fp (ls ++ List.map (fun p => Discarded p (bufMessages (get_or_new p s))) (remove_dups qs)) =
  Some (if bool_decide (fp ∈ qs) then ms else ms ++ bufMessages (get_or_new fp s)).
Proof.
  intros Hk. rewrite kept_app, Hk. clear Hk. assert (Hd := NoDup_remove_dups qs).
  assert (E : bool_decide (fp ∈ qs) = bool_decide (fp ∈ remove_dups qs))
    by (apply bool_decide_ext; by rewrite elem_of_remove_dups).
  rewrite E. clear E. revert Hd.
  assert (Hnot : forall l ms, fp ∉ l -> keep_all fp (Some ms)
    (List.map (fun p => Discarded p (bufMessages (get_or_new p s))) l) = Some ms).
  { induction l as [|q l IH]; intros ms' Hn; [done|]. unfold keep_all. simpl.
    destruct (Z.eqb_spec q fp) as [->|]; [destruct Hn; apply list_elem_of_here|].
    apply IH. intros ?. apply Hn. by apply list_elem_of_further. }
  induction (remove_dups qs) as [|q l IH]; intros Hd; [done|].
  apply NoDup_cons in Hd as [Hq Hd]. unfold keep_all. simpl.
  destruct (Z.eqb_spec q fp) as [->|Hne].
  - rewrite discard_suffix, (bool_decide_eq_true_2 (fp ∈ fp :: _)) by apply list_elem_of_here.
    by apply Hnot.
  - assert (E : bool_decide (fp ∈ q :: l) = bool_decide (fp ∈ l)); [|rewrite E; by apply IH].
    apply bool_decide_ext. rewrite elem_of_cons. naive_solver.
Qed.

Lemma settled_discards ls s qs :
  settled fp (ls ++ List.map (fun p => Discarded p (bufMessages (get_or_new p s))) qs) =
  settled fp ls.
Proof.
  rewrite settled_app. assert (E : settled fp (List.map (fun p =>
    Discarded p (bufMessages (get_or_new p s))) qs) = []); [|by rewrite E, app_nil_r].
  by induction qs.
Qed.

Lemma accounted_discards ls s ts tps :
  accounted ls [] s ts ->
  accounted (ls ++ discards tps s) [] (foldl revoke_one s tps) ts.
Proof.
  intros [Hh Hd Hl Hs Hdone]. pose proof (revoke_mute active fp known s tps) as Hm.
  constructor; unfold discards; rewrite ?settled_discards; auto.
  - eapply Forall_impl; [exact Hh|]. intros t. by apply (mute_holds known).
  - intros Ha. specialize (Hl Ha).
    assert (Hb : held_back s = bufMessages (get_or_new fp s)) by (unfold Ownership.held_back; by rewrite Ha).
    rewrite app_nil_r, Hb, app_assoc in Hl. rewrite (kept_discards _ _ _ _ Hl), revoke_held_back, Hb.
    case_bool_decide; by rewrite ?app_nil_r, <- ?app_assoc.
  - intros off. rewrite (q_coord _ _ _ Hm). auto.
Qed.

Lemma accounted_decided ls pend s ts b v :
  accounted ls pend s (Dispatched b :: ts) ->
  accounted (ls ++ [Decided b v]) pend s (verdict_token b v :: ts).
Proof.
  intros Ho. pose proof Ho as [Hh Hd Hl Hs Hdone].
  inversion Hh as [|? ? Hb Hts]; subst.
  unfold verdict_token. destruct (is_completed v) eqn:Ev.
  - assert (Hset : settled fp (ls ++ [Decided b v]) =
      settled fp ls ++ (if partition b =? fp then [b] else [])).
    { rewrite settled_app. simpl. by rewrite Ev, app_nil_r. }
    constructor; rewrite ?Hset.
    + by constructor.
    + done.
    + intros Ha. rewrite kept_app, (Hl Ha), fmap_app, concat_app. simpl. f_equal.
      unfold carried. simpl. rewrite Ha. simpl. rewrite ?app_nil_r.
      destruct (partition b =? fp); simpl; by rewrite ?app_nil_r, <- ?app_assoc.
    + intros b' Ha Hin Hp. apply elem_of_cons in Hin as [[= ->]|Hin].
      * rewrite (proj2 (Z.eqb_eq _ _) Hp). by rewrite last_snoc.
      * pose proof (accounted_other _ _ _ _ _ _ _ Ho Hin eq_refl) as Hne. simpl in Hne.
        rewrite (proj2 (Z.eqb_neq _ _)) by congruence. rewrite app_nil_r.
        apply Hs; [done|by apply list_elem_of_further|done].
    + intros off Hstr Ha Hoff. destruct (Z.eqb_spec (partition b) fp) as [Hp|Hp].
      * simpl in Hb. rewrite Hp, Hoff in Hb. destruct Hb as (_ & _ & [?|?]); done.
      * rewrite app_nil_r. auto.
  - assert (Hset : settled fp (ls ++ [Decided b v]) = settled fp ls)
      by (rewrite settled_app; simpl; by rewrite Ev, app_nil_r).
    constructor; rewrite ?Hset; auto. intros Ha. by rewrite kept_app, (Hl Ha).
Qed.

Lemma channel_partitions s : omap token_partition (channel_tokens s) = partition <$> batchCh s.
Proof. unfold channel_tokens. induction (batchCh s) as [|b l IH]; simpl; [done|]. by f_equal. Qed.

(** ** Room in the channel *)

Hypothesis roomy : strict = true ->
  exists ps, (forall q, known q -> q ∈ ps) /\ len ps <= ChannelCap cfg.

Lemma accounted_room ls pend s t ts :
  shared_inv s -> accounted ls pend s (t :: ts ++ channel_tokens s) -> room cfg strict t s.
Proof.
  intros Hi Ho Hstr Ht. destruct (roomy Hstr) as (ps & Hps & Hlen).
  destruct (token_partition t) as [q|] eqn:Eq; [|done].
  pose proof (ac_distinct _ _ _ _ Ho) as Hd. pose proof (ac_holds _ _ _ _ Ho) as Hh.
  simpl in Hd. rewrite Eq in Hd.
  change (list_omap _ _ _ ?l) with (omap token_partition l) in Hd.
  rewrite omap_app, channel_partitions in Hd.
  assert (Hin : forall u r, u ∈ t :: ts ++ channel_tokens s -> token_partition u = Some r -> r ∈ ps).
  { intros u r Hu Hr. apply Hps, (si_known _ _ _ Hi). rewrite Forall_forall in Hh.
    pose proof (holds_in_flight s u r (Hh u Hu) Hr) as Hfl. unfold in_flight in Hfl.
    destruct (buffers s !! r); [eauto|done]. }
  assert (Hsub : q :: (partition <$> batchCh s) ⊆+ ps).
  { apply NoDup_submseteq.
    - apply NoDup_cons in Hd as [Hq Hd]. rewrite elem_of_app in Hq.
      apply NoDup_cons. split; [tauto|]. by apply NoDup_app in Hd as (_ & _ & ?).
    - intros r [->|Hr]%elem_of_cons; [by apply (Hin t); [apply list_elem_of_here|]|].
      apply list_elem_of_fmap in Hr as (b & -> & Hb). apply (Hin (Dispatched b)); [|done].
      apply list_elem_of_further, elem_of_app. right. unfold channel_tokens.
      by apply list_elem_of_fmap_2. }
  apply submseteq_length in Hsub. simpl in Hsub. rewrite length_fmap in Hsub.
  unfold len in *. lia.
Qed.
End Accounts.

(** * The invariant of the machine *)

Section Invariant.
Context `{Coordinator C}.
Variable cfg : Config.
Variable hasDLQ : bool.
Local Abbreviation S := (UnorderedDispatcher C).
Local Abbreviation P := (prog query S).
Local Abbreviation machine := (machine (C := C)).
Local Abbreviation thread := (thread (C := C)).
Implicit Types s : S.
Variables (active strict : bool) (fp : Z) (known : Z -> Prop).
Local Abbreviation safe := (safe cfg active strict fp known).
Local Abbreviation steady := (steady active fp known).
Local Abbreviation allowed := (allowed cfg active strict fp known).
Local Abbreviation accounted := (accounted active strict fp).

(** ** Goroutines *)

Definition always (s : S) : Prop := True.
Definition not_closed s : Prop := closed s = false.
Definition poll_tol (p : panic) (s : S) : Prop := False.
Definition timer_tol (p : panic) s : Prop := p = SendOnClosedChannel /\ closed s = true.
Definition worker_tol (p : panic) s : Prop :=
  (p = SendOnClosedChannel /\ closed s = true) \/ exists msg, p = UserPanic msg.

Definition closing_rest : P reply := let* err := ask WaitWorkers in Ret (ReplyError err).

(** The messages for [fp] of a call of [Send] that has not buffered them. *)
Definition pending_for (q : Z) (msgs : list Message) : list Message :=
  if active && (q =? fp) then msgs else [].

(** Goroutine [i] runs what it should, given the token it owns and the
    messages pending. *)
Definition thread_ok s (pend : list Message) (i : nat) (th : thread) (t : token) : Prop :=
  match th with
  | PollIdle => i = 0%nat /\ closed s = false /\ pend = []
  | PollRunning c => i = 0%nat /\ closed s = false /\
      ((pend = [] /\ safe not_closed poll_tol anything t c) \/
       (exists q msgs, c = api_routine cfg (CallSend q msgs) /\ known q /\ t = NoBatch /\
          pend = pending_for q msgs))
  | PollRevoking tps => i = 0%nat /\ closed s = false /\ pend = []
  | PollClosing c => i = 0%nat /\
      ((c = api_routine cfg CallClose /\ closed s = false) \/ c = closing_rest \/
       exists r, c = Ret r)
  | PollDone => i = 0%nat
  | WorkerIdle | WorkerExited | TimerDone => i <> 0%nat
  | WorkerDeciding b c => i <> 0%nat /\ t = Dispatched b /\ steady worker_tol decided_ok c
  | WorkerFinishing c => i <> 0%nat /\ safe always worker_tol anything t c
  | TimerRunning c => i <> 0%nat /\ safe always timer_tol anything t c
  end.

(** What the goroutines own, what those whose routine ended own for good,
    and the messages pending. *)
Record ghost := mkGhost {
  owners : list token;
  aside : list token;
  pending : list Message
}.

Record machine_inv (ls : list label) (x : machine) (g : ghost) : Prop := {
  mi_shared : shared_inv cfg known (st x);
  mi_owned : accounted ls (pending g) (st x) (owners g ++ aside g ++ channel_tokens (st x));
  mi_length : length (owners g) = length (threads x);
  mi_nonempty : (0 < length (threads x))%nat;
  mi_threads i th t : threads x !! i = Some th -> owners g !! i = Some t ->
    thread_ok (st x) (pending g) i th t;
  mi_panics p : p ∈ panics x -> worker_tol p (st x);
  mi_crashed i p : crashed x = Some (i, p) -> timer_tol p (st x) /\ i <> 0%nat
}.

Lemma start_inv n s :
  shared_inv cfg known s -> closed s = false -> batchCh s = [] -> buffers s = ∅ ->
  (strict = true -> forall off, slot_of (coord s) fp <> Completed off) ->
  machine_inv [] (start n s) (mkGhost (replicate (Datatypes.S n) NoBatch) [] []).
Proof.
  intros Hi Hc Hb Hbu Hd. constructor; simpl; try done.
  - unfold channel_tokens. rewrite Hb. simpl. rewrite app_nil_r. constructor; simpl.
    + apply Forall_cons. split; [done|]. by apply Forall_replicate.
    + assert (E : forall k, omap token_partition (replicate k NoBatch) = []); [|by rewrite E; constructor].
      intros k. induction k; simpl; auto.
    + intros _. rewrite carried_cons, carried_nil.
      * unfold held_back, get_or_new. rewrite Hbu. by destruct active.
      * by intros u [-> _]%elem_of_replicate.
    + intros b _ [?|[? _]%elem_of_replicate]%elem_of_cons; done.
    + intros off Hs _ Ho. by destruct (Hd Hs off).
  - by rewrite !length_replicate.
  - lia.
  - intros [|i] th t Hth _; simpl in *; [by simplify_eq|].
    by apply lookup_replicate in Hth as [-> _].
  - intros p Hp. by apply not_elem_of_nil in Hp.
Qed.

Lemma thread_ok_frame s s' pend pend' i th t :
  (closed s' = closed s /\ pend' = pend) \/ i <> 0%nat ->
  thread_ok s pend i th t -> thread_ok s' pend' i th t.
Proof. intros [[Hc ->]|Hc]; destruct th; simpl; rewrite ?Hc; tauto. Qed.

Lemma worker_tol_frame s s' p : closed s' = closed s -> worker_tol p s -> worker_tol p s'.
Proof. unfold worker_tol. by intros ->. Qed.

Lemma timer_tol_frame s s' p : closed s' = closed s -> timer_tol p s -> timer_tol p s'.
Proof. unfold timer_tol. by intros ->. Qed.

Lemma safe_step {A} (K : S -> Prop) tol (Q : A -> token -> Prop) t (c : P A) ans s r s' :
  safe K tol Q t c -> shared_inv cfg known s -> K s -> room cfg strict t s -> holds s t ->
  step_prog ans c s = Some (r, s') ->
  match r with
  | inl c' => exists t', allowed t s t' s' /\ safe K tol Q t' c'
  | inr p => s' = s /\ tol p s
  end.
Proof.
  intros Hs Hi HK Hr Hh. destruct c as [a|p|X f k|X e k]; simpl in *; intros Hx; simplify_eq.
  - auto.
  - specialize (Hs s Hi HK Hr Hh). destruct (f s); by simplify_eq.
  - exists t. split; [|auto]. apply quiet_allowed; [apply quiet_refl|done..].
Qed.

Lemma middle_perm {A} (l k : list A) i x :
  l !! i = Some x -> l ++ k ≡ₚ x :: (take i l ++ drop (Datatypes.S i) l) ++ k.
Proof.
  intros Hl. rewrite <- (take_drop_middle l i x Hl) at 1.
  rewrite <- !app_assoc. symmetry. apply Permutation_middle.
Qed.

Lemma middle_insert_perm {A} (l k : list A) i x y :
  l !! i = Some x -> <[i := y]> l ++ k ≡ₚ y :: (take i l ++ drop (Datatypes.S i) l) ++ k.
Proof.
  intros Hl. apply lookup_lt_Some in Hl. rewrite insert_take_drop by done.
  rewrite <- !app_assoc. symmetry. apply Permutation_middle.
Qed.

Lemma middle_elem {A} (l : list A) i j x :
  l !! j = Some x -> j <> i -> x ∈ take i l \/ x ∈ drop (Datatypes.S i) l.
Proof.
  intros Hj Hne. destruct (Nat.lt_ge_cases j i) as [Hlt|Hge]; [left|right]; apply list_elem_of_lookup.
  - exists j. by rewrite lookup_take_lt.
  - exists (j - Datatypes.S i)%nat. rewrite lookup_drop.
    by replace (Datatypes.S i + (j - Datatypes.S i))%nat with j by lia.
Qed.

(** The tokens of all but goroutine [i] and the channel. *)
Definition others (i : nat) (ts lost : list token) : list token :=
  (take i ts ++ drop (Datatypes.S i) ts) ++ lost.

Lemma accounted_at ls pend s ts lost i t :
  ts !! i = Some t ->
  accounted ls pend s (ts ++ lost ++ channel_tokens s) <->
  accounted ls pend s (t :: others i ts lost ++ channel_tokens s).
Proof.
  intros Ht. unfold others. rewrite <- (app_assoc _ lost).
  split; intros Ha; (eapply accounted_perm; [|exact Ha]); [|symmetry]; by apply middle_perm.
Qed.

Lemma accounted_set ls pend s ts lost i t t' :
  ts !! i = Some t ->
  accounted ls pend s (t' :: others i ts lost ++ channel_tokens s) ->
  accounted ls pend s (<[i := t']> ts ++ lost ++ channel_tokens s).
Proof.
  intros Ht Ha. eapply accounted_perm; [symmetry; by apply (middle_insert_perm _ _ _ t)|].
  unfold others in Ha. by rewrite <- (app_assoc _ lost) in Ha.
Qed.

Lemma inv_at ls x g i t :
  machine_inv ls x g -> owners g !! i = Some t ->
  accounted ls (pending g) (st x) (t :: others i (owners g) (aside g) ++ channel_tokens (st x)).
Proof. intros Hi Ht. by apply accounted_at, (mi_owned _ _ _ Hi). Qed.

Lemma inv_holds ls x g i t : machine_inv ls x g -> owners g !! i = Some t -> holds (st x) t.
Proof. intros Hi Ht. exact (Forall_inv (ac_holds _ _ _ _ _ _ _ (inv_at _ _ _ _ _ Hi Ht))). Qed.

Lemma inv_token ls x g i th :
  machine_inv ls x g -> threads x !! i = Some th -> exists t, owners g !! i = Some t.
Proof.
  intros Hi Hth. apply lookup_lt_is_Some_2. rewrite (mi_length _ _ _ Hi). by eapply lookup_lt_Some.
Qed.

(** Replacing goroutine [i] and its token, the history and what is pending
    or aside, and the panics so far. *)
Lemma inv_update ls ls' x g i t t' th' s' ps cr lost' pend' :
  machine_inv ls x g -> owners g !! i = Some t ->
  shared_inv cfg known s' ->
  closed s' = closed (st x) \/ closed (st x) = false ->
  i = 0%nat \/ (closed s' = closed (st x) /\ pend' = pending g) ->
  accounted ls' pend' s' (t' :: others i (owners g) lost' ++ channel_tokens s') ->
  thread_ok s' pend' i th' t' ->
  (forall p, p ∈ ps -> p ∈ panics x \/ worker_tol p s') ->
  (forall j p, cr = Some (j, p) -> crashed x = Some (j, p) \/ timer_tol p s' /\ j <> 0%nat) ->
  machine_inv ls' (mkMachine s' (<[i := th']> (threads x)) ps cr)
    (mkGhost (<[i := t']> (owners g)) lost' pend').
Proof.
  intros Hi Ht Hs Hc Hz Ho Hth Hps Hcr.
  assert (Hmono : forall p, worker_tol p (st x) -> worker_tol p s').
  { intros p [[-> Hp]|Hp]; [left|by right]. destruct Hc as [->|?]; [done|congruence]. }
  constructor; simpl.
  - done.
  - by eapply accounted_set.
  - rewrite !length_insert. apply Hi.
  - rewrite length_insert. apply Hi.
  - intros j th u Hj Hu. destruct (decide (j = i)) as [->|Hne].
    + apply list_lookup_insert_Some in Hj as [(_ & <- & _)|[? _]]; [|done].
      apply list_lookup_insert_Some in Hu as [(_ & <- & _)|[? _]]; [|done]. done.
    + rewrite list_lookup_insert_ne in Hj by done. rewrite list_lookup_insert_ne in Hu by done.
      eapply thread_ok_frame; [|by eapply (mi_threads _ _ _ Hi)].
      destruct Hz as [->|Hz]; auto.
  - intros p Hp. destruct (Hps p Hp) as [?|?]; [|done]. by apply Hmono, (mi_panics _ _ _ Hi).
  - intros j p Hp. destruct (Hcr j p Hp) as [E|?]; [|done].
    destruct (mi_crashed _ _ _ Hi j p E) as [[-> Hcl] Hj]. split; [|done]. split; [done|].
    destruct Hc as [->|?]; [done|congruence].
Qed.

Definition some_inv (ls : list label) (x : machine) : Prop := exists g, machine_inv ls x g.

Lemma inv_allowed ls x g i t t' th' s' :
  machine_inv ls x g -> owners g !! i = Some t -> allowed t (st x) t' s' ->
  thread_ok s' (pending g) i th' t' -> some_inv ls (set_thread i th' s' x).
Proof.
  intros Hi Ht Ha Hth. eexists. eapply inv_update; eauto.
  - apply Ha.
  - left. apply Ha.
  - right. split; [apply Ha|done].
  - eapply accounted_step; [done|]. by apply inv_at.
Qed.

(** A goroutine that ends its routine puts aside what it still holds. *)
Lemma accounted_put_aside ls pend s i ts lost t :
  accounted ls pend s (t :: others i ts lost ++ channel_tokens s) ->
  accounted ls pend s (NoBatch :: others i ts (t :: lost) ++ channel_tokens s).
Proof.
  intros Ha%accounted_nothing. eapply accounted_perm; [|exact Ha]. apply Permutation_skip.
  unfold others. rewrite <- !(app_assoc _ _ (channel_tokens s)). apply Permutation_middle.
Qed.

Lemma inv_drop ls ls' x g i t th' pend' :
  machine_inv ls x g -> owners g !! i = Some t -> i = 0%nat \/ pend' = pending g ->
  accounted ls' pend' (st x) (t :: others i (owners g) (aside g) ++ channel_tokens (st x)) ->
  thread_ok (st x) pend' i th' NoBatch -> some_inv ls' (set_thread i th' (st x) x).
Proof.
  intros Hi Ht Hz Ha Hth. eexists.
  apply (inv_update ls ls' x g i t NoBatch th' (st x) (panics x) (crashed x) (t :: aside g) pend');
    auto; [apply Hi|destruct Hz; auto|by apply accounted_put_aside].
Qed.

Lemma inv_same ls x g i t th' :
  machine_inv ls x g -> owners g !! i = Some t -> thread_ok (st x) (pending g) i th' t ->
  some_inv ls (set_thread i th' (st x) x).
Proof.
  intros Hi Ht Hth. eexists.
  apply (inv_update ls ls x g i t t th' (st x) (panics x) (crashed x) (aside g) (pending g));
    auto; [apply Hi|by apply inv_at].
Qed.

Lemma inv_worker_panic ls x g i t p :
  machine_inv ls x g -> owners g !! i = Some t -> i <> 0%nat -> worker_tol p (st x) ->
  some_inv ls (worker_panic i p (st x) x).
Proof.
  intros Hi Ht Hne Hp.
  assert (Hq : quiet active fp known (st x) (worker_recover (st x))) by (by apply quiet_same).
  eexists. apply (inv_update ls ls x g i t NoBatch WorkerExited (worker_recover (st x))
    (p :: panics x) (crashed x) (t :: aside g) (pending g)); [exact Hi|exact Ht|..].
  - eapply mute_inv; [apply Hq|apply Hi].
  - by left.
  - by right.
  - apply accounted_put_aside.
    eapply (accounted_mute _ _ _ _ _ _ _ (st x)); [apply Hq|by rewrite (proj2 Hq)|by apply inv_at].
  - done.
  - intros q [->|Hq']%elem_of_cons; [by right|by left].
  - auto.
Qed.

Lemma inv_crash ls x g i p :
  machine_inv ls x g -> i <> 0%nat -> timer_tol p (st x) ->
  some_inv ls (crash i p (st x) x).
Proof.
  intros [? ? ? ? ? ? ?] Hne Hp. exists g. constructor; try done. simpl. intros j q ?. by simplify_eq.
Qed.

Hypothesis roomy : strict = true ->
  exists ps, (forall q, known q -> q ∈ ps) /\ len ps <= ChannelCap cfg.

Lemma inv_room ls x g i t :
  machine_inv ls x g -> owners g !! i = Some t -> room cfg strict t (st x).
Proof.
  intros Hi Ht. eapply accounted_room; [done|apply Hi|]. by apply inv_at.
Qed.

Lemma inv_step_prog {A} (K : S -> Prop) tol (Q : A -> token -> Prop) ls x g i t (c : P A) ans
    (W : P A -> thread) (G : panic -> S -> machine) x' :
  machine_inv ls x g -> owners g !! i = Some t -> safe K tol Q t c -> K (st x) ->
  (forall c' t' s', closed s' = closed (st x) -> safe K tol Q t' c' ->
     thread_ok s' (pending g) i (W c') t') ->
  (forall p, tol p (st x) -> some_inv ls (G p (st x))) ->
  match step_prog ans c (st x) with
  | Some (inl c', s) => Some (set_thread i (W c') s x)
  | Some (inr p, s) => Some (G p s)
  | None => None
  end = Some x' ->
  some_inv ls x'.
Proof.
  intros Hi Ht Hs HK HW HG Hx.
  pose proof (fun r s' => safe_step _ _ _ _ _ ans (st x) r s' Hs (mi_shared _ _ _ Hi) HK
    (inv_room _ _ _ _ _ Hi Ht) (inv_holds _ _ _ _ _ Hi Ht)) as Hstep.
  destruct (step_prog ans c (st x)) as [[[c'|p] s']|] eqn:E; simplify_eq.
  - destruct (Hstep _ _ eq_refl) as (t' & Ha & Hs'). eapply inv_allowed; eauto. apply HW; [apply Ha|done].
  - destruct (Hstep _ _ eq_refl) as [-> Hp]. auto.
Qed.

Hypothesis BatchSize_pos : 0 < BatchSize cfg.
Hypothesis MaxRetries_nonneg : 0 <= MaxRetries cfg.

Lemma timer_tol_send s :
  always s -> batchChClosed s = closed s -> closed s = true -> timer_tol SendOnClosedChannel s.
Proof. by split. Qed.
Lemma worker_tol_send s :
  always s -> batchChClosed s = closed s -> closed s = true -> worker_tol SendOnClosedChannel s.
Proof. by left. Qed.
Lemma poll_tol_send s :
  not_closed s -> batchChClosed s = closed s -> closed s = true -> poll_tol SendOnClosedChannel s.
Proof. unfold not_closed. congruence. Qed.

Lemma worker_tol_user msg s : worker_tol (UserPanic msg) s.
Proof. right. eauto. Qed.

(** [Close], the one action that closes the dispatcher. *)
Lemma Close_locked_inv ls x g t :
  machine_inv ls x g -> owners g !! 0%nat = Some t -> closed (st x) = false ->
  exists s', Close_locked (st x) = Returned tt s' /\
    some_inv ls (set_thread 0 (PollClosing closing_rest) s' x).
Proof.
  intros Hi Ht Hc. unfold Close_locked. pose proof (mi_shared _ _ _ Hi) as Hs.
  rewrite (si_closed _ _ _ Hs), Hc. eexists; split; [done|].
  set (s' := set_batchChClosed true _).
  assert (Hbu : buffers s' = without_timer <$> buffers (st x)) by done.
  assert (Hco : coord s' = coord (st x)) by done.
  assert (Hch : batchCh s' = batchCh (st x)) by done.
  assert (Hcl : batchChClosed s' = closed s') by done.
  clearbody s'.
  assert (Hf : forall q, in_flight s' q = in_flight (st x) q).
  { intros q. unfold in_flight. rewrite Hbu, lookup_fmap. by destruct (buffers (st x) !! q). }
  assert (Hb : held_back active fp s' = held_back active fp (st x)).
  { unfold held_back, get_or_new. rewrite Hbu, lookup_fmap. by destruct active, (buffers (st x) !! fp). }
  eexists. apply (inv_update ls ls x g 0 t t (PollClosing closing_rest) s' (panics x) (crashed x)
    (aside g) (pending g)); auto.
  - destruct Hs as [? Hbz ? ? Hk]. constructor; rewrite ?Hco, ?Hch; try done.
    + intros q. rewrite Hf. auto.
    + intros q. rewrite Hbu, lookup_fmap. intros Hq%fmap_is_Some. auto.
  - pose proof (inv_at _ _ _ _ _ Hi Ht) as [Hh Hd Hl Hse Hdo].
    unfold channel_tokens in *. rewrite Hch. constructor; rewrite ?Hb, ?Hco;
      [|exact Hd|auto..].
    eapply Forall_impl; [exact Hh|]. intros u. destruct u; simpl; by rewrite ?Hco, ?Hf.
  - simpl. auto.
Qed.

(** What the poll goroutine may call: known partitions. *)
Definition call_fits (k : api_call) : Prop :=
  match k with
  | CallSend q _ => known q
  | CallAssigned tps => forall tp, tp ∈ tps -> known (tpPartition tp)
  | _ => True
  end.

Definition is_ledger_call (k : api_call) : bool :=
  match k with CallSend _ _ | CallRevoked _ => true | _ => false end.

Lemma api_routine_safe k :
  call_fits k -> k <> CallClose -> is_ledger_call k = false ->
  safe not_closed poll_tol anything NoBatch (api_routine cfg k).
Proof.
  intros Hf Hk Hs. destruct k as [p msgs|tps|tps|p| | |]; unfold api_routine; simpl in Hf; try done.
  - intros s Hi _ _ _. rewrite assign_all_ok by done. exists NoBatch.
    split; [|done]. apply quiet_allowed; try done. by apply quiet_assign.
  - intros s Hi _ _ Hh. exists NoBatch. split; [|done].
    destruct (reset_spec (coord s) p (si_coord _ _ _ Hi)) as [Hwf Hsl].
    by apply (slot_allowed cfg _ _ _ _ _ _ p Absent _ _ (Reset p (coord s))); auto.
  - apply safe_quiet. intros s _. unfold receive_ready, recv_ready.
    destruct (readyCh s); (do 2 eexists; split_and!; [done|by apply quiet_same|done]).
  - apply safe_quiet. intros s _. unfold receive_circuit, recv_circuit.
    destruct (circuitStateCh s); (do 2 eexists; split_and!; [done|by apply quiet_same|done]).
Qed.

(** The revocation discards what is buffered. *)
Lemma run_revoking_inv ls x g tps ans x' :
  machine_inv ls x g -> threads x !! 0%nat = Some (PollRevoking tps) ->
  run_thread cfg hasDLQ 0 ans (PollRevoking tps) x = Some x' ->
  some_inv (ls ++ discards tps (st x)) x'.
Proof.
  intros Hi Hth Hx. destruct (inv_token _ _ _ _ _ Hi Hth) as [t Ht].
  destruct (mi_threads _ _ _ Hi _ _ _ Hth Ht) as (_ & Hc & Hp). simpl in Hx. simplify_eq.
  pose proof (revoke_mute active fp known (st x) tps) as Hm.
  assert (Hc' : closed (foldl revoke_one (st x) tps) = closed (st x)) by apply Hm.
  pose proof (inv_at _ _ _ _ _ Hi Ht) as Ha. rewrite Hp in Ha.
  eexists. apply (inv_update ls _ x g 0 t NoBatch (PollRunning (Ret ReplyNone))
    (foldl revoke_one (st x) tps) (panics x) (crashed x) (t :: aside g) []); auto.
  - eapply mute_inv; [exact Hm|apply Hi].
  - assert (Hch : channel_tokens (foldl revoke_one (st x) tps) = channel_tokens (st x))
      by (unfold channel_tokens; by rewrite (q_chan _ _ _ Hm)).
    rewrite Hch. apply (accounted_discards _ _ _ known). by apply accounted_put_aside.
  - split_and!; [done|by rewrite Hc'|]. by left.
Qed.

(** [Send]'s first action buffers what is pending. *)
Lemma run_sending_inv ls x g q msgs ans x' :
  machine_inv ls x g -> owners g !! 0%nat = Some NoBatch -> closed (st x) = false -> known q ->
  pending g = pending_for q msgs ->
  run_thread cfg hasDLQ 0 ans (PollRunning (api_routine cfg (CallSend q msgs))) x = Some x' ->
  some_inv ls x'.
Proof.
  intros Hi Ht Hc Hk Hp Hx. unfold api_routine, Send in Hx. cbn -[Send_locked tryDispatch] in Hx.
  destruct (Send_locked_returns cfg active fp known BatchSize_pos q msgs (st x) Hc Hk)
    as (s' & E & Hm & Hb). rewrite E in Hx. simplify_eq.
  assert (Hc' : closed s' = closed (st x)) by apply Hm.
  eexists. apply (inv_update ls ls x g 0 NoBatch NoBatch
    (PollRunning (let* err := tryDispatch cfg q in Ret (ReplyError err))) s' (panics x) (crashed x) (aside g) []); auto.
  - eapply mute_inv; [exact Hm|apply Hi].
  - assert (Hch : channel_tokens s' = channel_tokens (st x))
      by (unfold channel_tokens; by rewrite (q_chan _ _ _ Hm)).
    rewrite Hch. eapply (accounted_mute _ _ _ known _ (pending g)); [exact Hm| |by apply inv_at].
    by rewrite Hb, Hp, app_nil_r.
  - split_and!; [done|by rewrite Hc'|]. left. split; [done|].
    apply safe_bind. eapply safe_weaken; [|apply tryDispatch_safe; [apply poll_tol_send|done]]. done.
Qed.

Lemma run_closing_inv ls x g ans c x' :
  machine_inv ls x g -> threads x !! 0%nat = Some (PollClosing c) ->
  run_thread cfg hasDLQ 0 ans (PollClosing c) x = Some x' -> some_inv ls x'.
Proof.
  intros Hi Hth Hx. destruct (inv_token _ _ _ _ _ Hi Hth) as [t Ht].
  destruct (mi_threads _ _ _ Hi _ _ _ Hth Ht) as [_ [[-> Hc]|[->|[r ->]]]]; simpl in Hx.
  - destruct (Close_locked_inv ls x g t Hi Ht Hc) as (s' & E & Hi'). rewrite E in Hx.
    by simplify_eq.
  - simplify_eq. eapply inv_same; eauto. simpl. eauto.
  - simplify_eq. by eapply inv_same.
Qed.

Lemma steady_step {A} (Q : A -> Prop) (c : P A) ans s r s' :
  steady worker_tol Q c -> step_prog ans c s = Some (r, s') ->
  match r with
  | inl c' => quiet active fp known s s' /\ steady worker_tol Q c'
  | inr p => s' = s /\ worker_tol p s
  end.
Proof.
  intros Hs. destruct c as [a|p|X f k|X e k]; simpl in *; intros Hx; simplify_eq.
  - auto.
  - destruct (Hs s) as (y & s1 & E & Hq & Hk). rewrite E in Hx. by simplify_eq.
  - split; [apply quiet_refl|auto].
Qed.

(** The worker reaches verdict [v]. *)
Lemma run_verdict_inv ls x g i b v :
  machine_inv ls x g -> i <> 0%nat -> owners g !! i = Some (Dispatched b) ->
  some_inv (ls ++ [Decided b v])
    (set_thread i (WorkerFinishing (finishing cfg hasDLQ b v)) (st x) x).
Proof.
  intros Hi Hne Ht. eexists. apply (inv_update ls _ x g i (Dispatched b) (verdict_token b v)
    _ (st x) (panics x) (crashed x) (aside g) (pending g)); auto.
  - apply Hi.
  - apply accounted_decided. by apply inv_at.
  - split; [done|]. apply finishing_safe; (apply worker_tol_send || done).
Qed.

Lemma run_deciding_inv ls x g ans i b c x' :
  machine_inv ls x g -> threads x !! i = Some (WorkerDeciding b c) -> i <> 0%nat ->
  owners g !! i = Some (Dispatched b) -> steady worker_tol decided_ok c ->
  run_thread cfg hasDLQ i ans (WorkerDeciding b c) x = Some x' ->
  some_inv (ls ++ label_of (Run i ans) x) x'.
Proof.
  intros Hi Hth Hne Ht Hs Hx. unfold label_of. rewrite Hth.
  assert (Hstep : match step_prog ans c (st x) with
                  | Some (inl c', s) => Some (set_thread i (WorkerDeciding b c') s x)
                  | Some (inr p, s) => Some (worker_panic i p s x)
                  | None => None
                  end = Some x' -> some_inv (ls ++ []) x').
  { rewrite app_nil_r.
    destruct (step_prog ans c (st x)) as [[r s']|] eqn:E; [|done].
    pose proof (steady_step _ _ _ _ _ _ Hs E) as Hr. destruct r as [c'|p]; intros; simplify_eq.
    - destruct Hr as [Hq Hs']. eapply inv_allowed; [done|exact Ht| |done].
      apply quiet_allowed; [done|apply Hi|by eapply inv_holds].
    - destruct Hr as [-> Hp]. by eapply inv_worker_panic. }
  destruct c as [[c|v]|p|X f k|X e k]; try exact (Hstep Hx); simpl in Hx; simplify_eq; simpl in Hs.
  - rewrite app_nil_r. eapply inv_same; eauto; (split; [done|]).
    split; [done|]. apply body_steady; (apply worker_tol_user || done).
  - by apply (run_verdict_inv ls x g).
Qed.

Lemma run_inv ls x g i ans th x' :
  machine_inv ls x g -> threads x !! i = Some th ->
  run_thread cfg hasDLQ i ans th x = Some x' -> some_inv (ls ++ label_of (Run i ans) x) x'.
Proof.
  intros Hi Hth Hx. destruct (inv_token _ _ _ _ _ Hi Hth) as [t Ht].
  pose proof (mi_threads _ _ _ Hi _ _ _ Hth Ht) as Hok.
  assert (Hlab : (forall b c, th <> WorkerDeciding b c) -> (forall tps, th <> PollRevoking tps) ->
     ls ++ label_of (Run i ans) x = ls).
  { intros Hn Hn'. unfold label_of. rewrite Hth.
    destruct th; try apply app_nil_r; [by edestruct Hn'|by edestruct Hn]. }
  destruct th as [|c|tps|c| | |b c|c| |c|]; try done; cbn [thread_ok] in Hok;
    try (rewrite Hlab by done).
  - destruct Hok as (-> & Hc & [[Hp Hs]|(q & msgs & -> & Hk & -> & Hp)]);
      [|by eapply run_sending_inv].
    assert (Hstep := fun x' => inv_step_prog not_closed poll_tol anything ls x g 0 t c ans PollRunning
      (fun p s => crash 0 p s x) x' Hi Ht Hs Hc).
    destruct c as [r|p|X f k|X e k]; [|(refine (Hstep _ _ _ Hx); [|intros q []];
      intros c' t' s' Hc' Hs'; (split_and!; [done|by rewrite Hc'|by left]))..].
    simpl in Hx. simplify_eq. eapply (inv_drop _ _ _ _ _ _ _ (pending g)); eauto.
    + by apply inv_at.
    + by split.
  - destruct Hok as [-> _]. unfold label_of. rewrite Hth. by eapply run_revoking_inv.
  - destruct Hok as [-> _]. by eapply run_closing_inv.
  - destruct Hok as (Hne & -> & Hs). by eapply run_deciding_inv.
  - destruct Hok as [Hne Hs].
    assert (Hstep := fun x' => inv_step_prog always worker_tol anything ls x g i t c ans
      WorkerFinishing (fun p s => worker_panic i p s x) x' Hi Ht Hs I).
    destruct c as [[]|p|X f k|X e k]; [|(refine (Hstep _ _ _ Hx); [by split|];
      intros q Hq; by eapply inv_worker_panic)..].
    simpl in Hx. simplify_eq. eapply inv_drop; eauto. by apply inv_at.
  - destruct Hok as [Hne Hs].
    assert (Hstep := fun x' => inv_step_prog always timer_tol anything ls x g i t c ans
      TimerRunning (fun p s => crash i p s x) x' Hi Ht Hs I).
    destruct c as [[]|p|X f k|X e k]; [|(refine (Hstep _ _ _ Hx); [by split|];
      intros q Hq; by eapply inv_crash)..].
    simpl in Hx. simplify_eq. eapply inv_drop; eauto. by apply inv_at.
Qed.

Lemma call_inv ls x g k x' :
  machine_inv ls x g -> call_fits k -> crashed x = None ->
  sched cfg hasDLQ (Call k) x = Some x' -> some_inv (ls ++ label_of (Call k) x) x'.
Proof.
  intros Hi Hf Hcr Hx. unfold sched in Hx. rewrite Hcr in Hx.
  destruct (threads x !! 0%nat) as [[| | | | | | | | | |]|] eqn:Hth; try done.
  destruct (inv_token _ _ _ _ _ Hi Hth) as [t Ht].
  destruct (mi_threads _ _ _ Hi _ _ _ Hth Ht) as (_ & Hc & Hp).
  pose proof (inv_at _ _ _ _ _ Hi Ht) as Ha. rewrite Hp in Ha.
  assert (Hrun : forall ls', k <> CallClose -> is_ledger_call k = false -> ls' = ls ->
     some_inv ls' (set_thread 0 (PollRunning (api_routine cfg k)) (st x) x)).
  { intros ls' Hk Hs ->. eapply (inv_drop _ _ _ _ _ _ _ []); eauto.
    split_and!; [done|done|]. left. split; [done|]. by apply api_routine_safe. }
  destruct k as [q msgs|tps|tps|q| | |]; simplify_eq;
    try (apply Hrun; [done|done|apply app_nil_r]).
  - eapply (inv_drop _ _ _ _ _ _ _ (pending_for q msgs)); eauto.
    + by apply accounted_sent.
    + split_and!; [done|done|]. right. eexists _, _. split_and!; done.
  - rewrite app_nil_r. eapply (inv_drop _ _ _ _ _ _ _ []); eauto. by split.
  - rewrite app_nil_r. eapply (inv_drop _ _ _ _ _ _ _ []); eauto. simpl. auto.
Qed.

Lemma recv_inv ls x g i x' :
  machine_inv ls x g -> crashed x = None -> sched cfg hasDLQ (Recv i) x = Some x' ->
  some_inv ls x'.
Proof.
  intros Hi Hcr Hx. unfold sched in Hx. rewrite Hcr in Hx.
  destruct (threads x !! i) as [[| | | | | | | | | |]|] eqn:Hth; try done.
  destruct (inv_token _ _ _ _ _ Hi Hth) as [t Ht].
  pose proof (mi_threads _ _ _ Hi _ _ _ Hth Ht) as Hne. simpl in Hne.
  pose proof (inv_at _ _ _ _ _ Hi Ht) as Ha.
  unfold recv_batch in Hx. destruct (batchCh (st x)) as [|b rest] eqn:Hch.
  { destruct (batchChClosed (st x)); simplify_eq. by eapply inv_drop; eauto. }
  simplify_eq. eexists. apply (inv_update ls ls x g i t (Dispatched b) (WorkerDeciding b (beginning cfg b))
    (set_batchCh rest (st x)) (panics x) (crashed x) (t :: aside g) (pending g)); auto.
  - destruct (mi_shared _ _ _ Hi) as [? ? ? Hcap ?]. constructor; try done. simpl.
    rewrite Hch in Hcap. unfold len in *. simpl in *. lia.
  - pose proof (accounted_put_aside _ _ _ _ _ _ _ Ha) as Ha'.
    assert (Hperm : NoBatch :: others i (owners g) (t :: aside g) ++ channel_tokens (st x) ≡ₚ
       NoBatch :: Dispatched b :: others i (owners g) (t :: aside g) ++ (Dispatched <$> rest)).
    { apply Permutation_skip. unfold channel_tokens. rewrite Hch. simpl.
      symmetry. apply Permutation_middle. }
    apply (accounted_perm _ _ _ _ _ _ _ _ Hperm) in Ha' as [Hh Hd Hl Hse Hdo].
    unfold channel_tokens. simpl. constructor; auto.
    + eapply Forall_impl; [exact (Forall_inv_tail Hh)|]. intros u. by destruct u.
    + intros b' Hac Hin. apply Hse; [done|by apply list_elem_of_further].
  - split_and!; [done|done|]. apply beginning_steady; (apply worker_tol_user || done).
Qed.

Lemma fire_inv ls x g t x' :
  machine_inv ls x g -> crashed x = None -> sched cfg hasDLQ (Fire t) x = Some x' ->
  some_inv ls x'.
Proof.
  intros Hi Hcr Hx. unfold sched in Hx. rewrite Hcr in Hx.
  destruct (timers (st x) !! t) as [p|]; [|done]. simpl in Hx. simplify_eq.
  set (s' := set_timers _ _).
  assert (Hq : quiet active fp known (st x) s') by (by apply quiet_same).
  destruct Hi as [Hs Ho Hl Hz Hth Hp Hc].
  exists (mkGhost (owners g ++ [NoBatch]) (aside g) (pending g)). constructor; simpl; try done.
  - by eapply mute_inv; [apply Hq|].
  - eapply (accounted_mute _ _ _ _ _ (pending g) _ (st x)); [apply Hq|by rewrite (proj2 Hq)|].
    eapply accounted_perm; [|by apply (accounted_nothing _ _ _ _ _ _ _ Ho)].
    change (channel_tokens s') with (channel_tokens (st x)).
    rewrite <- app_assoc. apply Permutation_middle.
  - rewrite !length_app, Hl. done.
  - rewrite length_app. lia.
  - intros i th u Hi Hu. apply lookup_app_Some in Hi as [Hi|[Hge Hi]].
    + rewrite lookup_app_l in Hu by (rewrite Hl; by eapply lookup_lt_Some).
      eapply thread_ok_frame; [by left|]. eauto.
    + apply list_lookup_singleton_Some in Hi as [Hi0 <-].
      rewrite lookup_app_r in Hu by lia. rewrite Hl, Hi0 in Hu. simpl in Hu. simplify_eq.
      split; [lia|by apply linger_fired_safe].
Qed.

Definition fits (ch : choice) : Prop := match ch with Call k => call_fits k | _ => True end.

Lemma sched_inv ls x ch x' :
  some_inv ls x -> fits ch -> sched cfg hasDLQ ch x = Some x' ->
  some_inv (ls ++ label_of ch x) x'.
Proof.
  intros [g Hi] Hf Hx. destruct (crashed x) eqn:Hcr; [unfold sched in Hx; by rewrite Hcr in Hx|].
  destruct ch as [i ans|k|i|t]; simpl label_of; rewrite ?app_nil_r;
    [|by eapply call_inv|by eapply recv_inv|by eapply fire_inv].
  unfold sched in Hx. rewrite Hcr in Hx. destruct (threads x !! i) as [th|] eqn:Hth; [|done].
  pose proof (run_inv ls x g i ans th x' Hi Hth Hx) as Hr. unfold label_of in Hr. by rewrite Hth in Hr.
Qed.

Lemma run_log_inv chs ls x x' ls' :
  some_inv ls x -> Forall fits chs -> run_log cfg hasDLQ chs x = Some (x', ls') ->
  some_inv (ls ++ ls') x'.
Proof.
  revert ls x ls'. induction chs as [|ch chs IH]; intros ls x ls' Hi Hf Hr; simpl in Hr.
  - simplify_eq. by rewrite app_nil_r.
  - apply Forall_cons in Hf as [Hf Hfs].
    destruct (sched cfg hasDLQ ch x) as [x1|] eqn:E; [|done].
    destruct (run_log cfg hasDLQ chs x1) as [[x2 ls2]|] eqn:E2; [|done]. simplify_eq.
    rewrite app_assoc. eapply IH; [|done|exact E2]. by apply sched_inv.
Qed.
End Invariant.

(** * Properties *)

Section Properties.
Context `{Coordinator C}.
Variable cfg : Config.
Variable hasDLQ : bool.
Local Abbreviation machine := (machine (C := C)).

(** A machine reached from a new dispatcher with [n] workers. *)
Definition reachable (n : nat) (c : C) (x : machine) : Prop :=
  reaches (step cfg hasDLQ) (start n (NewUnorderedDispatcher c)) x.

(** A coordinator that no batch was dispatched to. *)
Definition fresh_coordinator (c : C) : Prop := coord_wf c /\ forall p, slot_of c p = Absent.

Lemma new_inv active strict fp known n c :
  fresh_coordinator c ->
  some_inv cfg active strict fp known [] (start n (NewUnorderedDispatcher c)).
Proof.
  intros [Hc Hs]. eexists. apply start_inv; try done.
  - constructor; simpl; try done.
    + intros q. by rewrite Hs.
    + unfold len. simpl. lia.
    + intros q [? Hq]. done.
  - intros _ off. simpl. by rewrite Hs.
Qed.

Definition any_partition (q : Z) : Prop := True.

Lemma reachable_machine_inv n c x :
  0 < BatchSize cfg -> 0 <= MaxRetries cfg -> fresh_coordinator c -> reachable n c x ->
  exists ls g, machine_inv cfg false false 0 any_partition ls x g.
Proof.
  intros Hb Hm Hc Hr.
  apply (reaches_invariant (step cfg hasDLQ)
    (fun x => exists ls, some_inv cfg false false 0 any_partition ls x)
    (start n (NewUnorderedDispatcher c))); [|eexists; by apply new_inv|done].
  intros a b [ls Ha] [ch Hch]. exists (ls ++ label_of ch a).
  eapply sched_inv; [discriminate|done..| |exact Hch]. destruct ch as [i ans|[]|i|t]; simpl; done.
Qed.

(** The partitions a run uses are those of [ps]. *)
Definition uses_only (ps : list Z) (chs : list choice) : Prop :=
  (forall q msgs, Call (CallSend q msgs) ∈ chs -> q ∈ ps) /\
  (forall tps tp, Call (CallAssigned tps) ∈ chs -> tp ∈ tps -> tpPartition tp ∈ ps).

Lemma run_log_accounts strict p known n c chs x ls :
  (strict = true -> exists ps, (forall q, known q -> q ∈ ps) /\ len ps <= ChannelCap cfg) ->
  0 < BatchSize cfg -> 0 <= MaxRetries cfg -> fresh_coordinator c ->
  (forall q msgs, Call (CallSend q msgs) ∈ chs -> known q) ->
  (forall tps tp, Call (CallAssigned tps) ∈ chs -> tp ∈ tps -> known (tpPartition tp)) ->
  run_log cfg hasDLQ chs (start n (NewUnorderedDispatcher c)) = Some (x, ls) ->
  exists g, machine_inv cfg true strict p known ls x g.
Proof.
  intros Hroom Hb Hm Hc Hsend Hass Hr.
  apply (run_log_inv cfg hasDLQ true strict p known Hroom Hb Hm chs []
    (start n (NewUnorderedDispatcher c)) x ls); [by apply new_inv| |done].
  apply Forall_forall. intros ch Hch. destruct ch as [i ans|[]|i|t]; simpl; try done; eauto.
Qed.

(** Once a partition is idle, and the poll goroutine, its buffer holds what is
    left of the kept messages. *)
Lemma idle_ledger strict known ls x g p :
  machine_inv cfg true strict p known ls x g ->
  in_flight (st x) p = false -> threads x !! 0%nat = Some PollIdle ->
  kept p ls = Some (concat (messages <$> settled p ls) ++ bufMessages (get_or_new p (st x))).
Proof.
  intros Hi Hf Hidle. pose proof (mi_owned _ _ _ _ _ _ _ _ Hi) as Ho.
  rewrite (ac_ledger _ _ _ _ _ _ _ Ho eq_refl). do 2 f_equal.
  destruct (inv_token _ _ _ _ _ _ _ _ _ _ Hi Hidle) as [t Ht].
  destruct (mi_threads _ _ _ _ _ _ _ _ Hi _ _ _ Hidle Ht) as (_ & _ & ->).
  rewrite app_nil_r, carried_nil; [done|]. intros u Hu Hp.
  pose proof (ac_holds _ _ _ _ _ _ _ Ho) as Hh. rewrite Forall_forall in Hh.
  pose proof (holds_in_flight (st x) u p (Hh u Hu) Hp). congruence.
Qed.

(** C7. No message is lost, duplicated or reordered, in any interleaving,
    revocations included.  The messages of a partition's batches that were
    processed or given up, in the order of the verdicts, are a prefix of the
    messages sent to it, less those a revocation discarded, which are always
    the last ones; and when none of its batches is in flight and no [Send] or
    revocation is running, that prefix and the buffer are all of them. *)
Theorem settled_in_order n c chs x ls p :
  0 < BatchSize cfg -> 0 <= MaxRetries cfg -> fresh_coordinator c ->
  run_log cfg hasDLQ chs (start n (NewUnorderedDispatcher c)) = Some (x, ls) ->
  (exists rest, kept p ls = Some (concat (messages <$> settled p ls) ++ rest)) /\
  (in_flight (st x) p = false -> threads x !! 0%nat = Some PollIdle ->
   kept p ls = Some (concat (messages <$> settled p ls) ++ bufMessages (get_or_new p (st x)))).
Proof.
  intros Hb Hm Hc Hr.
  destruct (run_log_accounts false p any_partition n c chs x ls) as [g Hi]; try done.
  pose proof (ac_ledger _ _ _ _ _ _ _ (mi_owned _ _ _ _ _ _ _ _ Hi) eq_refl) as Hl.
  split; [eauto|]. by eapply idle_ledger.
Qed.

(** The ledger of a committable offset. *)
Lemma committable_settled known ls x g p off :
  machine_inv cfg true true p known ls x g -> Committable (coord (st x)) !! p = Some off ->
  exists done_before b lst rest,
    settled p ls = done_before ++ [b] /\ last (messages b) = Some lst /\
    off = wrap64 (Offset lst + 1) /\
    kept p ls = Some (concat (messages <$> done_before) ++ messages b ++ rest).
Proof.
  intros Hi Hoff.
  pose proof (mi_owned _ _ _ _ _ _ _ _ Hi) as Ho.
  pose proof (ac_ledger _ _ _ _ _ _ _ Ho eq_refl) as Hl.
  rewrite committable_lookup in Hoff by apply (si_coord _ _ _ (mi_shared _ _ _ _ _ _ _ _ Hi)).
  destruct (slot_of (coord (st x)) p) as [| |o] eqn:Es; simpl in Hoff; simplify_eq.
  destruct (ac_done _ _ _ _ _ _ _ Ho o eq_refl eq_refl Es) as (b & Hlast & Hw & <-).
  apply last_Some in Hlast as [before Hbefore].
  unfold wf_batch in Hw. destruct (last (messages b)) as [lst|] eqn:El; simpl in Hw; simplify_eq.
  eexists before, b, lst, _. split_and!; [done|done|by rewrite Hw|].
  rewrite Hl, Hbefore, fmap_app, concat_app. simpl. by rewrite app_nil_r, <- app_assoc.
Qed.

(** At least once.  If the channel has a slot for every partition in use,
    then, whatever the interleaving of poll goroutine, workers and timers and
    the answers of the environment, rebalances included, an offset is
    committable only when all messages sent to its partition up to it, and not
    discarded by a revocation, were processed or given up: it is the offset
    after the last message of the last settled batch, and the settled batches
    are, in order, a prefix of what was sent and kept. *)
Theorem committable_is_settled n c chs x ls ps p off :
  0 < BatchSize cfg -> 0 <= MaxRetries cfg -> fresh_coordinator c ->
  uses_only ps chs -> len ps <= ChannelCap cfg ->
  run_log cfg hasDLQ chs (start n (NewUnorderedDispatcher c)) = Some (x, ls) ->
  Committable (coord (st x)) !! p = Some off ->
  exists done_before b lst rest,
    settled p ls = done_before ++ [b] /\ last (messages b) = Some lst /\
    off = wrap64 (Offset lst + 1) /\
    kept p ls = Some (concat (messages <$> done_before) ++ messages b ++ rest).
Proof.
  intros Hb Hm Hc [Hsend Hass] Hcap Hr Hoff.
  destruct (run_log_accounts true p (fun q => q ∈ ps) n c chs x ls) as [g Hi]; eauto.
  by eapply committable_settled.
Qed.

(** C14. The panics of the offset coordinator never happen.  Whatever the
    interleaving of the poll goroutine, the workers and the linger timers,
    and whatever the environment answers (rebalances and resets of
    partitions in flight included), a worker only panics when the
    developer's processor does or when it sends on the channel that
    [Close] closed, and the process only dies of a linger timer's send
    that raced with [Close]: no double dispatch, no completion of another
    offset, no nil dereference, no double close. *)
Theorem interleaving_panics n c x :
  0 < BatchSize cfg -> 0 <= MaxRetries cfg -> fresh_coordinator c -> reachable n c x ->
  (forall p, p ∈ panics x ->
     (exists msg, p = UserPanic msg) \/ (p = SendOnClosedChannel /\ closed (st x) = true)) /\
  (forall i p, crashed x = Some (i, p) ->
     i <> 0%nat /\ p = SendOnClosedChannel /\ closed (st x) = true).
Proof.
  intros Hb Hm Hc Hr. destruct (reachable_machine_inv n c x Hb Hm Hc Hr) as (ls & g & Hi). split.
  - intros p Hp. destruct (mi_panics _ _ _ _ _ _ _ _ Hi p Hp); auto.
  - intros i p Hp. by destruct (mi_crashed _ _ _ _ _ _ _ _ Hi i p Hp) as [[??] ?].
Qed.

(** C8. One batch per partition.  In every reachable state the batches in
    the channel are of pairwise distinct partitions and at most as many as
    its capacity, and the developer's processor is never at work on two
    batches of one partition at a time, nor while another batch of that
    partition waits in the channel. *)
Theorem one_batch_per_partition n c x :
  0 < BatchSize cfg -> 0 <= MaxRetries cfg -> fresh_coordinator c -> reachable n c x ->
  NoDup (partition <$> batchCh (st x)) /\
  len (batchCh (st x)) <= Z.max 0 (ChannelCap cfg) /\
  (forall i b k, threads x !! i = Some (WorkerDeciding b k) ->
     ~ partition b ∈ (partition <$> batchCh (st x)) /\
     forall j b' k', threads x !! j = Some (WorkerDeciding b' k') ->
       partition b' = partition b -> j = i).
Proof.
  intros Hb Hm Hc Hr. destruct (reachable_machine_inv n c x Hb Hm Hc Hr) as (ls & g & Hi).
  pose proof (ac_distinct _ _ _ _ _ _ _ (mi_owned _ _ _ _ _ _ _ _ Hi)) as Hd.
  assert (Htok : forall i b k, threads x !! i = Some (WorkerDeciding b k) ->
            owners g !! i = Some (Dispatched b)).
  { intros i b k Hth. destruct (inv_token _ _ _ _ _ _ _ _ _ _ Hi Hth) as [t Ht].
    by destruct (mi_threads _ _ _ _ _ _ _ _ Hi _ _ _ Hth Ht) as (_ & -> & _). }
  split_and!.
  - rewrite !omap_app, channel_partitions in Hd. by apply NoDup_app in Hd as (_ & _ & (_ & _ & ?)%NoDup_app).
  - apply (mi_shared _ _ _ _ _ _ _ _ Hi).
  - intros i b k Hth. apply Htok in Hth as Hi1.
    rewrite (middle_perm _ _ i _ Hi1) in Hd. simpl in Hd.
    apply NoDup_cons in Hd as [Hnin _].
    change (list_omap _ _ _ ?l) with (omap token_partition l) in Hnin.
    rewrite !omap_app, channel_partitions, !not_elem_of_app in Hnin.
    destruct Hnin as ((Hn1 & Hn2) & _ & Hn3).
    split; [exact Hn3|]. intros j b' k' Hth' Hp. apply Htok in Hth' as Hj1.
    destruct (decide (j = i)) as [|Hne]; [done|]. exfalso.
    destruct (middle_elem (owners g) i j _ Hj1 Hne) as [Hin|Hin];
      [apply Hn1|apply Hn2]; apply list_elem_of_omap; exists (Dispatched b');
      (split; [done|simpl; congruence]).
Qed.
End Properties.

(** * The race of [dispatchBatch] with [Close] *)

Definition quietly : answers := fun X e => (calm X e tt).1.
Definition demo_start (workers : nat) := start workers demo_new.

(** One message is buffered, its linger timer fires, and the timer's
    goroutine passes [dispatchBatch]'s check of [closed] just before the poll
    goroutine closes the dispatcher. *)
Definition race : list choice :=
  [Call (CallSend 0 [demo_msg 0 10]); Run 0 quietly; Run 0 quietly; Run 0 quietly;
   Fire 0; Run 2 quietly; Run 2 quietly; Run 2 quietly;
   Call CallClose; Run 0 quietly;
   Run 2 quietly; Run 2 quietly].

Definition race_end := run demo_cfg true race (demo_start 1).

(** C26. A linger timer can crash the process at shutdown: although [Close]
    closes the channel under the mutex "so that dispatchBatch's closed check
    + channel send cannot race", the send is not under it, and in the
    interleaving [race] the timer's goroutine sends on the closed channel. *)
Theorem close_races_with_dispatch :
  exists x, reaches (step demo_cfg true) (demo_start 1) x /\
    crashed x = Some (2%nat, SendOnClosedChannel) /\ panics x = [].
Proof.
  destruct race_end as [x|] eqn:E; [|vm_compute in E; discriminate].
  exists x. split; [by apply (run_reachable _ _ race)|].
  vm_compute in E. by simplify_eq.
Qed.

Lemma demo_fresh : fresh_coordinator NewCoordinator.
Proof. split; [apply NewCoordinator_wf|done]. Qed.

(** A full batch is dispatched and received by the first of two workers. *)
Definition busy : list choice :=
  [Call (CallSend 0 [demo_msg 0 10; demo_msg 0 11]); Run 0 quietly; Run 0 quietly; Run 0 quietly;
   Run 0 quietly; Run 0 quietly; Recv 1; Run 1 quietly].

Definition busy_end : machine := default (demo_start 2) (run demo_cfg true busy (demo_start 2)).

Lemma busy_reachable : reachable demo_cfg true 2 NewCoordinator busy_end.
Proof.
  unfold busy_end. destruct (run _ _ _ _) as [x|] eqn:E; [|vm_compute in E; discriminate].
  by apply (run_reachable _ _ busy).
Qed.

Lemma interleaving_panics_witness :
  (forall p, p ∈ panics busy_end ->
     (exists msg, p = UserPanic msg) \/ (p = SendOnClosedChannel /\ closed (st busy_end) = true)) /\
  (forall i p, crashed busy_end = Some (i, p) ->
     i <> 0%nat /\ p = SendOnClosedChannel /\ closed (st busy_end) = true).
Proof.
  apply (interleaving_panics demo_cfg true 2 NewCoordinator busy_end).
  - reflexivity.
  - vm_compute. discriminate.
  - exact demo_fresh.
  - exact busy_reachable.
Defined.

Lemma one_batch_per_partition_witness :
  (exists b k, threads busy_end !! 1%nat = Some (WorkerDeciding b k) /\ partition b = 0) /\
  NoDup (partition <$> batchCh (st busy_end)) /\
  len (batchCh (st busy_end)) <= Z.max 0 (ChannelCap demo_cfg) /\
  (forall i b k, threads busy_end !! i = Some (WorkerDeciding b k) ->
     ~ partition b ∈ (partition <$> batchCh (st busy_end)) /\
     forall j b' k', threads busy_end !! j = Some (WorkerDeciding b' k') ->
       partition b' = partition b -> j = i).
Proof.
  split; [eexists _, _; split; reflexivity|].
  apply (one_batch_per_partition demo_cfg true 2 NewCoordinator busy_end).
  - reflexivity.
  - vm_compute. discriminate.
  - exact demo_fresh.
  - exact busy_reachable.
Defined.

(** Three messages of partition 0 are sent; a worker processes the first two,
    a full batch, and completes it; then the partition is revoked, which
    discards the third. *)
Definition served : list choice :=
  Call (CallSend 0 [demo_msg 0 10; demo_msg 0 11; demo_msg 0 12]) ::
  replicate 7 (Run 0 quietly) ++ [Recv 1] ++ replicate 14 (Run 1 quietly) ++
  [Call (CallRevoked [mkTP "events" 0]); Run 0 quietly; Run 0 quietly].

Definition served_end := run_log demo_cfg true served (demo_start 1).

Lemma served_uses_only : uses_only [0] served.
Proof.
  split; [intros q msgs Hin|intros tps tp Hin]; unfold served in Hin;
    repeat (apply elem_of_cons in Hin as [Hin|Hin];
      [first [discriminate Hin | injection Hin as -> _; apply list_elem_of_here]|]);
    by apply not_elem_of_nil in Hin.
Qed.

Lemma settled_in_order_witness :
  exists x ls, served_end = Some (x, ls) /\
    Discarded 0 [demo_msg 0 12] ∈ ls /\
    in_flight (st x) 0 = false /\ threads x !! 0%nat = Some PollIdle /\
    kept 0 ls = Some (concat (messages <$> settled 0 ls) ++ bufMessages (get_or_new 0 (st x))).
Proof.
  destruct served_end as [[x ls]|] eqn:E; [|vm_compute in E; discriminate].
  exists x, ls. split; [done|]. split.
  { vm_compute in E. simplify_eq. repeat (apply list_elem_of_here || apply list_elem_of_further). }
  assert (Hf : in_flight (st x) 0 = false) by (vm_compute in E; simplify_eq; reflexivity).
  assert (Hp : threads x !! 0%nat = Some PollIdle) by (vm_compute in E; simplify_eq; reflexivity).
  split; [exact Hf|]. split; [exact Hp|].
  apply (settled_in_order demo_cfg true 1 NewCoordinator served x ls 0).
  - reflexivity.
  - vm_compute. discriminate.
  - exact demo_fresh.
  - exact E.
  - exact Hf.
  - exact Hp.
Defined.

Lemma committable_is_settled_witness :
  exists x ls, served_end = Some (x, ls) /\ Committable (coord (st x)) !! 0 = Some 12 /\
    exists done_before b lst rest,
      settled 0 ls = done_before ++ [b] /\ last (messages b) = Some lst /\
      12 = wrap64 (Offset lst + 1) /\
      kept 0 ls = Some (concat (messages <$> done_before) ++ messages b ++ rest).
Proof.
  destruct served_end as [[x ls]|] eqn:E; [|vm_compute in E; discriminate].
  exists x, ls. split; [done|].
  assert (Hc : Committable (coord (st x)) !! 0 = Some 12)
    by (vm_compute in E; simplify_eq; vm_compute; reflexivity).
  split; [exact Hc|].
  apply (committable_is_settled demo_cfg true 1 NewCoordinator served x ls [0] 0 12).
  - reflexivity.
  - vm_compute. discriminate.
  - exact demo_fresh.
  - apply served_uses_only.
  - vm_compute. discriminate.
  - exact E.
  - exact Hc.
Defined.

(** Without that room: the channel of capacity 1 holds a batch of partition
    1, so the batch of partition 0 is refused. *)
Definition crowded : list choice :=
  Call (CallSend 1 [demo_msg 1 5; demo_msg 1 6]) :: replicate 7 (Run 0 quietly) ++
  Call (CallSend 0 [demo_msg 0 10; demo_msg 0 11]) :: replicate 8 (Run 0 quietly).

(** The room is needed: in a run with two partitions and one slot, an offset
    of partition 0 is committable although none of its batches was settled. *)
Theorem capacity_is_needed :
  exists x ls, run_log demo_cfg true crowded (demo_start 1) = Some (x, ls) /\
    Committable (coord (st x)) !! 0 = Some 12 /\ settled 0 ls = [] /\ crashed x = None.
Proof.
  destruct (run_log demo_cfg true crowded (demo_start 1)) as [[x ls]|] eqn:E;
    [|vm_compute in E; discriminate].
  exists x, ls. vm_compute in E. simplify_eq. split; [done|].
  split; [vm_compute; reflexivity|]. by split.
Qed.
