(* ===== verification/Progress.v ===== *)
(** Progress: everything that is sent is settled.  While the context is not
    cancelled and the channel has room for one batch of each partition, the
    machine ([Machine]) loses track of no buffer: a goroutine or a timer is
    always about to attend to it ([Duties]).  Once the poll goroutine stops
    sending and the breaker lets requests through, every interleaving of the
    workers and the timers comes to an end, with every message settled. *)
From S2P Require Import Prelude Types OffsetCoordinator Dispatcher Retry Worker Machine Winding Ownership Duties Interleaving.

Section Progress.
Context `{Coordinator C}.
Variable cfg : Config.
Variable hasDLQ : bool.
Variable known : Z -> Prop.
Local Abbreviation S := (UnorderedDispatcher C).
Local Abbreviation P := (prog query S).
Local Abbreviation thread := (thread (C := C)).
Local Abbreviation machine := (machine (C := C)).
Implicit Types s : S.

(** * Nothing is left unattended *)

Definition minds (th : thread) (d : duty) : Prop :=
  match th with
  | PollIdle | PollRevoking _ | WorkerIdle | TimerDone => d = at_ease
  | PollRunning c => diligent cfg known false done_all d c
  | WorkerDeciding b c => diligent cfg known true (decided_holding b) d c
  | WorkerFinishing c | TimerRunning c => diligent cfg known true done_all d c
  | PollClosing _ | PollDone | WorkerExited => False
  end.

Definition is_worker (th : thread) : bool :=
  match th with WorkerIdle | WorkerDeciding _ _ | WorkerFinishing _ | WorkerExited => true | _ => false end.

(** The partitions in flight, by who holds them: the goroutines and the
    channel. *)
Definition held s (ds : list duty) : list Z := omap hold ds ++ (partition <$> batchCh s).

Record tended (x : machine) (ds : list duty) : Prop := {
  td_length : length ds = length (threads x);
  td_minds i th d : threads x !! i = Some th -> ds !! i = Some d -> minds th d;
  td_timers : timers_wf (st x);
  td_closed : closed (st x) = false /\ batchChClosed (st x) = false;
  td_flags q : in_flight (st x) q = true <-> q ∈ held (st x) ds;
  td_distinct : NoDup (held (st x) ds);
  td_known q : is_Some (buffers (st x) !! q) -> known q;
  td_cared q : cared (st x) q \/ exists d, d ∈ ds /\ q ∈ visits d;
  td_handled q : handled (st x) q \/ exists d, d ∈ ds /\ q ∈ clears d;
  td_worker : exists i th, threads x !! i = Some th /\ is_worker th = true
}.

Lemma start_tended n s :
  (0 < n)%nat -> closed s = false -> batchChClosed s = false -> batchCh s = [] -> buffers s = ∅ ->
  timers s = ∅ -> tended (start n s) (replicate (Datatypes.S n) at_ease).
Proof.
  intros Hn Hc Hcc Hch Hb Ht.
  assert (Hh : held s (replicate (Datatypes.S n) at_ease) = []).
  { unfold held. rewrite Hch, app_nil_r. induction (Datatypes.S n) as [|k IH]; [done|exact IH]. }
  constructor; cbn [st threads start]; rewrite ?Hh; try done.
  - simpl. by rewrite !length_replicate.
  - intros i th d Hi [-> _]%lookup_replicate. destruct i; simpl in Hi; [by simplify_eq|].
    by apply lookup_replicate in Hi as [-> _].
  - constructor; rewrite ?Ht, ?Hb; [intros t [q Hq]|intros p pb t Hp]; done.
  - intros q. unfold in_flight. rewrite Hb, lookup_empty. split; [done|by intros ?%not_elem_of_nil].
  - constructor.
  - rewrite Hb. by intros q [pb Hq].
  - intros q. left. left. rewrite Hb. by intros pb Hq.
  - intros q. left. unfold handled. rewrite Hb. by intros pb t Hq.
  - exists 1%nat, WorkerIdle. split; [|done]. destruct n; [lia|done].
Qed.

(** ** What goroutine [i] holds, and the others *)

Definition rest_held (i : nat) s (ds : list duty) : list Z :=
  omap hold (take i ds ++ drop (Datatypes.S i) ds) ++ (partition <$> batchCh s).

Lemma held_at i s (ds : list duty) d :
  ds !! i = Some d -> held s ds ≡ₚ option_list (hold d) ++ rest_held i s ds.
Proof.
  intros Hi. unfold held, rest_held. rewrite app_assoc. f_equiv.
  pose proof (middle_perm ds [] i d Hi) as Hp. rewrite !app_nil_r in Hp.
  etransitivity; [exact (omap_Permutation hold _ _ Hp)|]. simpl. by destruct (hold d).
Qed.

Lemma held_set i s (ds : list duty) d d' :
  ds !! i = Some d -> held s (<[i := d']> ds) ≡ₚ option_list (hold d') ++ rest_held i s ds.
Proof.
  intros Hi. unfold held, rest_held. rewrite app_assoc. f_equiv.
  pose proof (middle_insert_perm ds [] i d d' Hi) as Hp. rewrite !app_nil_r in Hp.
  etransitivity; [exact (omap_Permutation hold _ _ Hp)|]. simpl. by destruct (hold d').
Qed.

Lemma held_moves i (x : machine) s' (ds : list duty) d d' :
  ds !! i = Some d -> moves d (st x) d' s' -> tended x ds ->
  (forall q, in_flight s' q = true <-> q ∈ held s' (<[i := d']> ds)) /\
  NoDup (held s' (<[i := d']> ds)).
Proof.
  intros Hi Hm Ht. pose proof (td_flags _ _ Ht) as Hf. pose proof (td_distinct _ _ Ht) as Hd.
  pose proof (held_at i (st x) ds d Hi) as Ha. pose proof (held_set i s' ds d d' Hi) as Hs.
  setoid_rewrite Hs. rewrite Ha in Hd. setoid_rewrite Ha in Hf. clear Ha Hs.
  assert (Hr : batchCh s' = batchCh (st x) -> rest_held i s' ds = rest_held i (st x) ds)
    by (unfold rest_held; by intros ->).
  destruct Hm as [Eh Ec Ef|p Eh Eh' Ec Efp Ef|p Eh Eh' Ec Ef|b Eh Eh' Ec Ef].
  - rewrite Eh, (Hr Ec). split; [|done]. intros q. by rewrite Ef, Hf.
  - rewrite Eh', (Hr Ec). rewrite Eh in Hf, Hd. simpl in *. split.
    + intros q. rewrite Ef, elem_of_cons. case_decide; [naive_solver|]. rewrite Hf. naive_solver.
    + apply NoDup_cons. split; [|done]. rewrite <- Hf. congruence.
  - rewrite Eh', (Hr Ec). rewrite Eh in Hf, Hd. simpl in *. apply NoDup_cons in Hd as [Hp Hd].
    split; [|done]. intros q. rewrite Ef. case_decide as E; [subst; by split|].
    rewrite Hf, elem_of_cons. naive_solver.
  - rewrite Eh'. rewrite Eh in Hf, Hd. simpl in *.
    assert (E : rest_held i s' ds ≡ₚ partition b :: rest_held i (st x) ds).
    { unfold rest_held. rewrite Ec, fmap_app. simpl. rewrite app_assoc. symmetry. apply Permutation_cons_append. }
    split; [intros q; by rewrite Ef, E, Hf|by rewrite E].
Qed.

(** What is attended to stays so, replacing the duty [d] by [d']. *)
Lemma attends_set (ok ok' : Z -> Prop) (sel : duty -> list Z) (ds : list duty) i d d' q :
  ds !! i = Some d -> (ok q \/ q ∈ sel d -> ok' q \/ q ∈ sel d') ->
  (ok q \/ exists e, e ∈ ds /\ q ∈ sel e) ->
  ok' q \/ exists e, e ∈ <[i := d']> ds /\ q ∈ sel e.
Proof.
  intros Hi Hq Hor. assert (Hlt : (i < length ds)%nat) by (by eapply lookup_lt_Some).
  assert (Hd' : ok' q \/ q ∈ sel d' -> ok' q \/ exists e, e ∈ <[i := d']> ds /\ q ∈ sel e).
  { intros [?|?]; [by left|right]. exists d'. split; [|done]. by apply list_elem_of_insert. }
  destruct Hor as [Hq0|(e & He & Hqe)]; [auto|].
  apply list_elem_of_lookup in He as [j Hj]. destruct (decide (j = i)) as [->|Hne].
  - simplify_eq. auto.
  - right. exists e. split; [|done]. apply list_elem_of_lookup. exists j. by rewrite list_lookup_insert_ne.
Qed.

(** Replacing goroutine [i] and its duty. *)
Lemma tended_put i (x : machine) ds th d th' d' s' :
  tended x ds -> threads x !! i = Some th -> ds !! i = Some d -> minds th' d' ->
  is_worker th' = is_worker th -> timers_wf s' ->
  closed s' = closed (st x) /\ batchChClosed s' = batchChClosed (st x) ->
  (forall q, in_flight s' q = true <-> q ∈ held s' (<[i := d']> ds)) /\ NoDup (held s' (<[i := d']> ds)) ->
  (forall q, is_Some (buffers s' !! q) -> is_Some (buffers (st x) !! q) \/ known q) ->
  (forall q, cared (st x) q \/ q ∈ visits d -> cared s' q \/ q ∈ visits d') ->
  (forall q, handled (st x) q \/ q ∈ clears d -> handled s' q \/ q ∈ clears d') ->
  tended (set_thread i th' s' x) (<[i := d']> ds).
Proof.
  intros [] Hth Hi Hm Hk Hw [Ec Ecc] [Hf Hd] Hkn Hc Hh. constructor; simpl.
  - by rewrite !length_insert.
  - intros j u e Hj He. destruct (decide (j = i)) as [->|Hne].
    + apply list_lookup_insert_Some in Hj as [(_ & <- & _)|[? _]]; [|done].
      apply list_lookup_insert_Some in He as [(_ & <- & _)|[? _]]; [|done]. done.
    + rewrite list_lookup_insert_ne in Hj by done. rewrite list_lookup_insert_ne in He by done. eauto.
  - done.
  - by rewrite Ec, Ecc.
  - done.
  - done.
  - intros q Hq. destruct (Hkn q Hq); auto.
  - intros q. apply (attends_set (cared (st x)) (cared s') visits ds i d d'); auto.
  - intros q. apply (attends_set (handled (st x)) (handled s') clears ds i d d'); auto.
  - destruct td_worker0 as (j & u & Hj & Hwk). destruct (decide (j = i)) as [->|Hne].
    + exists i, th'. split; [|simplify_eq; congruence]. rewrite list_lookup_insert_eq; [done|].
      by eapply lookup_lt_Some.
    + exists j, u. by rewrite list_lookup_insert_ne.
Qed.

Lemma tended_set w i (x : machine) ds th d th' d' s' :
  tended x ds -> threads x !! i = Some th -> ds !! i = Some d ->
  honours known w d (st x) d' s' -> minds th' d' -> is_worker th' = is_worker th ->
  tended (set_thread i th' s' x) (<[i := d']> ds).
Proof.
  intros Ht Hth Hi Hh Hm Hk. eapply tended_put; eauto; try apply Hh.
  eapply held_moves; eauto. apply Hh.
Qed.

(** ** Each goroutine finds the state it needs *)

Variable ps : list Z.
Hypothesis known_ps : forall q, known q -> q ∈ ps.
Hypothesis capacity : len ps <= ChannelCap cfg.

Lemma tended_ready (x : machine) ds i d :
  tended x ds -> ds !! i = Some d -> ready cfg d (st x).
Proof.
  intros Ht Hi. pose proof (td_closed _ _ Ht) as [Hc Hcc].
  constructor; [apply Ht|done|done|]. intros p Hp.
  pose proof (held_at i (st x) ds d Hi) as Ha. rewrite Hp in Ha. simpl in Ha.
  assert (Hf : forall q, q ∈ p :: rest_held i (st x) ds -> in_flight (st x) q = true)
    by (intros q Hq; apply (td_flags _ _ Ht); by rewrite Ha).
  split; [apply Hf, list_elem_of_here|].
  pose proof (td_distinct _ _ Ht) as Hd. rewrite Ha in Hd.
  assert (Hsub : p :: (partition <$> batchCh (st x)) ⊆+ ps).
  { apply NoDup_submseteq.
    - unfold rest_held in Hd. apply NoDup_cons in Hd as [Hp' Hd]. rewrite elem_of_app in Hp'.
      apply NoDup_cons. split; [tauto|]. by apply NoDup_app in Hd as (_ & _ & ?).
    - intros q Hq. apply known_ps, (td_known _ _ Ht).
      assert (Hfl : in_flight (st x) q = true).
      { apply Hf. unfold rest_held. rewrite elem_of_cons, elem_of_app in *. tauto. }
      unfold in_flight in Hfl. destruct (buffers (st x) !! q); [eauto|done]. }
  apply submseteq_length in Hsub. simpl in Hsub. rewrite length_fmap in Hsub. unfold len in *. lia.
Qed.

(** ** The steps *)

Definition uninterrupted (ans : answers) : Prop := forall X (e : query X), benign e (ans X e).

(** Batches queued, and batches that goroutines will queue. *)
Definition load (x : machine) (ds : list duty) : nat :=
  (length (batchCh (st x)) + sum_list (List.map credit ds))%nat.

Definition pays (x : machine) (ds : list duty) (y : machine) (ds' : list duty) : Prop :=
  (weight (st y) < weight (st x))%nat \/
  weight (st y) = weight (st x) /\ (load y ds' <= load x ds)%nat.

Lemma credit_set (ds : list duty) i d d' :
  ds !! i = Some d ->
  (sum_list (List.map credit (<[i := d']> ds)) + credit d = sum_list (List.map credit ds) + credit d')%nat.
Proof.
  revert i. induction ds as [|e ds IH]; intros [|i] Hi; simpl in *; simplify_eq; [lia|].
  specialize (IH i Hi). lia.
Qed.

Lemma paid_pays i th (x : machine) (ds : list duty) d d' s' :
  ds !! i = Some d -> paid d (st x) d' s' -> pays x ds (set_thread i th s' x) (<[i := d']> ds).
Proof.
  intros Hi [Hw|[Hw Hl]]; [by left|right]. split; [done|]. unfold load. simpl.
  pose proof (credit_set ds i d d' Hi). lia.
Qed.

Lemma step_prog_diligent {A} w (Q : A -> duty -> Prop) d (c : P A) ans s r s' :
  uninterrupted ans -> diligent cfg known w Q d c -> ready cfg d s ->
  step_prog ans c s = Some (r, s') ->
  match r with
  | inl c' => exists d', honours known w d s d' s' /\ diligent cfg known w Q d' c'
  | inr _ => closed s' = false
  end.
Proof.
  intros Ha Hd Hr Hs. destruct c as [a|p|X f k|X e k]; simpl in *; [done|..].
  - simplify_eq. apply Hr.
  - specialize (Hd s Hr). destruct (f s); by simplify_eq.
  - simplify_eq. exists d. split; [by apply (honours_same cfg); [|apply same_shared_refl|..]|auto].
Qed.

(** What becomes of the machine: a worker has panicked; or the process has
    died with the dispatcher open; or it is tended. *)
Definition outlook (x y : machine) (ds : list duty) (working : Prop) : Prop :=
  panics y <> [] \/ (crashed y <> None /\ closed (st y) = false) \/
  exists ds', tended y ds' /\ (working -> pays x ds y ds').

Lemma outlook_next {A} w (Q : A -> duty -> Prop) i (K : P A -> thread)
    (fail : panic -> S -> machine) ans (x y : machine) ds th d c (working : Prop) :
  uninterrupted ans -> tended x ds -> threads x !! i = Some th -> ds !! i = Some d ->
  diligent cfg known w Q d c -> (working -> w = true) ->
  (forall c', is_worker (K c') = is_worker th) ->
  (forall d' c', (exists s s', honours known w d s d' s') -> diligent cfg known w Q d' c' ->
     minds (K c') d') ->
  (forall p s, closed s = false -> outlook x (fail p s) ds working) ->
  match step_prog ans c (st x) with
  | Some (inl c', s) => Some (set_thread i (K c') s x)
  | Some (inr p, s) => Some (fail p s)
  | None => None
  end = Some y -> outlook x y ds working.
Proof.
  intros Ha Ht Hth Hi Hc Hw HK Hm Hfail Hy.
  destruct (step_prog ans c (st x)) as [[[c'|p] s]|] eqn:Es; [..|done]; simplify_eq;
    pose proof (step_prog_diligent w Q d c ans (st x) _ s Ha Hc (tended_ready x ds i d Ht Hi) Es) as Hs;
    [|by apply Hfail].
  destruct Hs as (d' & Hh & Hc'). right. right. exists (<[i := d']> ds). split.
  - eapply tended_set; eauto.
  - intros Hwk. apply (paid_pays i _ x ds d); [done|]. by apply Hh, Hw.
Qed.

(** A goroutine that moves on with nothing to do. *)
Lemma outlook_same i (x : machine) ds th d th' (working : Prop) :
  tended x ds -> threads x !! i = Some th -> ds !! i = Some d -> minds th' d ->
  is_worker th' = is_worker th -> outlook x (set_thread i th' (st x) x) ds working.
Proof.
  intros Ht Hth Hi Hm Hk. right. right. exists (<[i := d]> ds).
  assert (Hh : honours known true d (st x) d (st x))
    by (apply (honours_same cfg); [by eapply tended_ready|apply same_shared_refl|done..]).
  split; [by eapply tended_set|]. intros _. apply (paid_pays i _ x ds d); [done|]. by apply Hh.
Qed.

Lemma crash_outlook i p s (x : machine) ds (working : Prop) :
  closed s = false -> outlook x (crash i p s x) ds working.
Proof. intros Hc. right. left. by split. Qed.

Lemma exit_outlook i p s (x : machine) ds (working : Prop) : outlook x (worker_panic i p s x) ds working.
Proof. by left. Qed.

(** ** Every step keeps the machine tended *)

Hypothesis BatchSize_pos : 0 < BatchSize cfg.

Definition is_polling (th : thread) : bool :=
  match th with PollRunning _ | PollRevoking _ => true | _ => false end.

Lemma run_outlook i ans th (x y : machine) ds :
  tended x ds -> uninterrupted ans -> threads x !! i = Some th ->
  run_thread cfg hasDLQ i ans th x = Some y -> outlook x y ds (is_polling th = false).
Proof.
  intros Ht Ha Hth Hy.
  assert (Hi : is_Some (ds !! i)).
  { apply lookup_lt_is_Some_2. rewrite (td_length _ _ Ht). by eapply lookup_lt_Some. }
  destruct Hi as [d Hi]. pose proof (td_minds _ _ Ht i th d Hth Hi) as Hm.
  assert (Hs : forall th', minds th' d -> is_worker th' = is_worker th ->
    outlook x (set_thread i th' (st x) x) ds (is_polling th = false)).
  { intros th' Hm' Hk. by eapply outlook_same. }
  set (die := fun p s => crash i p s x). set (exit := fun p s => worker_panic i p s x).
  assert (Hdie : forall p s, closed s = false -> outlook x (die p s) ds (is_polling th = false))
    by (intros; by apply crash_outlook).
  assert (Hexit : forall p s, closed s = false -> outlook x (exit p s) ds (is_polling th = false))
    by (intros; by apply exit_outlook).
  pose proof (fun A w Q K fail c => outlook_next (A := A) w Q i K fail ans x y ds th d c
    (is_polling th = false) Ha Ht Hth Hi) as Hnext.
  destruct th as [|c|tps|c| | |b c|c| |c|]; try done; simpl in Hm.
  - destruct c as [a|p|X f k|X e k]; [simpl in Hy; simplify_eq; by apply Hs|
      by eapply (Hnext _ false done_all PollRunning die); eauto..].
  - eapply (Hnext _ false done_all PollRunning die); eauto; try done.
    rewrite Hm. by apply (api_diligent cfg known BatchSize_pos (CallRevoked tps)).
  - destruct c as [[ctl|v]|p|X f k|X e k];
      [| |by eapply (Hnext _ true (decided_holding b) (WorkerDeciding b) exit); eauto..];
      simpl in Hy, Hm; simplify_eq; destruct Hm as [Hv ->]; apply Hs; try done.
    + apply body_diligent.
    + by apply finishing_diligent.
  - destruct c as [a|p|X f k|X e k]; [simpl in Hy; simplify_eq; by apply Hs|
      by eapply (Hnext _ true done_all WorkerFinishing exit); eauto..].
  - destruct c as [a|p|X f k|X e k]; [simpl in Hy; simplify_eq; by apply Hs|
      by eapply (Hnext _ true done_all TimerRunning die); eauto..].
Qed.

Lemma recv_tended i (x y : machine) ds :
  tended x ds -> sched cfg hasDLQ (Recv i) x = Some y ->
  exists ds', tended y ds' /\ weight (st y) = weight (st x) /\ (load y ds' < load x ds)%nat.
Proof.
  intros Ht Hy. unfold sched in Hy. destruct (crashed x); [done|].
  destruct (threads x !! i) as [[| | | | | | | | | |]|] eqn:Hth; try done.
  assert (Hi : ds !! i = Some at_ease).
  { destruct (ds !! i) as [d|] eqn:Hi; [by rewrite <- (td_minds _ _ Ht i _ d Hth Hi)|].
    apply lookup_ge_None in Hi. apply lookup_lt_Some in Hth. rewrite (td_length _ _ Ht) in Hi. lia. }
  unfold recv_batch in Hy. destruct (td_closed _ _ Ht) as [_ Hcc].
  destruct (batchCh (st x)) as [|b rest] eqn:Hch; [by rewrite Hcc in Hy|]. simplify_eq.
  exists (<[i := holding (partition b)]> ds).
  assert (Hheld : held (set_batchCh rest (st x)) (<[i := holding (partition b)]> ds) ≡ₚ held (st x) ds).
  { etransitivity; [by apply (held_set i _ ds at_ease)|]. symmetry. etransitivity; [by apply (held_at i _ ds at_ease)|].
    unfold rest_held. simpl. rewrite Hch. simpl. symmetry. apply Permutation_middle. }
  split_and!; [|done|].
  - eapply tended_put; eauto; simpl; try done; try apply Ht.
    + apply beginning_diligent.
    + by destruct (td_timers _ _ Ht).
    + split; [|rewrite Hheld; apply Ht]. intros q. rewrite Hheld. apply (td_flags _ _ Ht).
  - unfold load. simpl. rewrite Hch. pose proof (credit_set ds i at_ease (holding (partition b)) Hi) as Hc.
    change (credit at_ease) with 0%nat in Hc. change (credit (holding (partition b))) with 0%nat in Hc.
    cbn [length]. lia.
Qed.

(** A timer that fires leaves its partition to the goroutine it starts. *)
Lemma fire_tended t (x y : machine) ds :
  tended x ds -> sched cfg hasDLQ (Fire t) x = Some y ->
  exists ds', tended y ds' /\ weight (st y) = weight (st x) /\ load y ds' = load x ds.
Proof.
  intros Ht Hy. unfold sched in Hy. destruct (crashed x); [done|].
  destruct (timers (st x) !! t) as [p|] eqn:Hp; simpl in Hy; simplify_eq.
  exists (ds ++ [roaming [p] [p]]).
  assert (Hheld : forall s', batchCh s' = batchCh (st x) -> held s' (ds ++ [roaming [p] [p]]) = held (st x) ds).
  { intros s' E. unfold held. by rewrite omap_app, E, app_nil_r. }
  assert (Hkeep : forall (sel : duty -> list Z) q, (exists d, d ∈ ds /\ q ∈ sel d) ->
    exists d, d ∈ ds ++ [roaming [p] [p]] /\ q ∈ sel d).
  { intros sel q (d & Hd & Hq). exists d. split; [|done]. apply elem_of_app. by left. }
  assert (Hnew : forall (sel : duty -> list Z) q, sel (roaming [p] [p]) = [p] -> q = p ->
    exists d, d ∈ ds ++ [roaming [p] [p]] /\ q ∈ sel d).
  { intros sel q E ->. exists (roaming [p] [p]). rewrite E. split; [apply elem_of_app; right|];
      apply list_elem_of_here. }
  assert (Htm : forall t' q, timers (st x) !! t' = Some q -> q = p \/ delete t (timers (st x)) !! t' = Some q).
  { intros t' q Hq. destruct (decide (t' = t)) as [->|Hne]; [left; congruence|right].
    by rewrite lookup_delete_ne. }
  split_and!; [|done|].
  - destruct Ht. constructor; simpl; rewrite ?Hheld by done; try done.
    + rewrite !length_app. simpl. lia.
    + intros j u e Hj He. apply lookup_app_Some in Hj as [Hj|[Hge Hj]].
      * rewrite lookup_app_l in He by (rewrite td_length0; by eapply lookup_lt_Some). eauto.
      * rewrite lookup_app_r in He by lia. rewrite td_length0 in He.
        apply list_lookup_singleton_Some in Hj as [E <-]. rewrite E in He. simpl in He. simplify_eq.
        by apply linger_fired_diligent.
    + destruct td_timers0 as [Hf Hh]. constructor; simpl.
      * intros t' [q [_ Hq]%lookup_delete_Some]. eauto.
      * intros q pb t' Hq Ht'. destruct (Hh q pb t' Hq Ht') as [? Hr]. split; [done|].
        intros r [_ ?]%lookup_delete_Some. auto.
    + intros q. destruct (td_cared0 q) as [[Hq|[t' Hq]]|Hq]; [by left; left| |right; by apply Hkeep].
      destruct (Htm t' q Hq) as [->|Hq']; [right; by apply Hnew|left; right; eauto].
    + intros q. destruct (decide (q = p)) as [->|Hne]; [right; by apply Hnew|].
      destruct (td_handled0 q) as [Hq|Hq]; [left|right; by apply Hkeep].
      intros pb t' Hb Ht'. by destruct (Htm t' q (Hq pb t' Hb Ht')).
    + destruct td_worker0 as (j & u & Hj & Hwk). exists j, u. split; [|done]. by apply lookup_app_l_Some.
  - unfold load. rewrite map_app. simpl.
    assert (E : forall l, sum_list (l ++ [0%nat]) = sum_list l); [|by rewrite E].
    intros l. induction l as [|k l IH]; simpl; [done|by rewrite IH].
Qed.

(** The poll goroutine's choices. *)
Definition gentle (ch : choice) : Prop :=
  match ch with Run _ ans => uninterrupted ans | Call k => open_call known k | Recv _ | Fire _ => True end.

Lemma call_tended k (x y : machine) ds :
  tended x ds -> open_call known k -> sched cfg hasDLQ (Call k) x = Some y -> exists ds', tended y ds'.
Proof.
  intros Ht Hk Hy. unfold sched in Hy. destruct (crashed x); [done|].
  destruct (threads x !! 0%nat) as [[| | | | | | | | | |]|] eqn:Hth; try done.
  assert (Hi : is_Some (ds !! 0%nat)).
  { apply lookup_lt_is_Some_2. rewrite (td_length _ _ Ht). by eapply lookup_lt_Some. }
  destruct Hi as [d Hi]. pose proof (td_minds _ _ Ht 0%nat _ d Hth Hi) as Hm. simpl in Hm. subst d.
  pose proof (api_diligent cfg known BatchSize_pos k Hk) as Hd.
  assert (Hs : forall th', minds th' at_ease -> is_worker th' = false ->
    exists ds', tended (set_thread 0 th' (st x) x) ds').
  { intros th' Hm Hw. exists (<[0%nat := at_ease]> ds).
    apply (tended_set true 0 x ds PollIdle at_ease th' at_ease (st x)); try done.
    apply (honours_same cfg); [by eapply tended_ready|apply same_shared_refl|done..]. }
  destruct k; simplify_eq; try done; by apply Hs.
Qed.

Lemma sched_outlook ch (x y : machine) ds :
  tended x ds -> gentle ch -> sched cfg hasDLQ ch x = Some y -> outlook x y ds False.
Proof.
  intros Ht Hg Hy.
  assert (Ho : (exists ds', tended y ds') -> outlook x y ds False)
    by (intros [ds' ?]; right; right; by exists ds').
  destruct ch as [i ans|k|i|t]; simpl in Hg.
  - unfold sched in Hy. destruct (crashed x); [done|]. destruct (threads x !! i) as [th|] eqn:Hth; [|done].
    simpl in Hy. destruct (run_outlook i ans th x y ds Ht Hg Hth Hy) as [?|[?|(ds' & ? & _)]];
      [by left|by right; left|eauto].
  - apply Ho. by eapply call_tended.
  - destruct (recv_tended i x y ds Ht Hy) as (ds' & ? & _). eauto.
  - destruct (fire_tended t x y ds Ht Hy) as (ds' & ? & _). eauto.
Qed.

(** * The workers wind down

    The breaker lets requests through and is not open, the processor's error
    is not one of the breaker's, and no sleep is interrupted. *)
Definition lets_through {X} (e : query X) (x : X) : Prop :=
  match e in query Y return Y -> Prop with
  | Sleep _ => fun r => r = None
  | Execute _ => fun r => match r.2 with
                          | Rejected _ => False
                          | ProcessorReturned (Some err) => breaker_error err = false
                          | _ => True
                          end
  | BreakerState => fun r => r.2 <> StateOpen
  | _ => fun _ => True
  end x.

Local Abbreviation leaves := (leaves (C := C) (@lets_through)).
Local Abbreviation later := (later (C := C) cfg (@lets_through)).
Local Abbreviation all_tame := (all_tame (C := C)).

(** How many more iterations [processBatch] can take. *)
Definition budget (c : control) : nat :=
  match c with
  | Holding => Z.to_nat (MaxRetries cfg + 3)
  | Starting => Z.to_nat (MaxRetries cfg + 2)
  | Attempting _ a _ => Z.to_nat (MaxRetries cfg + 1 - a)
  end.

Hypothesis MaxRetries_nonneg : 0 <= MaxRetries cfg.

Lemma body_spends b c : leaves (outranks budget c) (body cfg b c).
Proof.
  destruct c as [|start a lastErr|]; simpl.
  - intros now _. simpl. lia.
  - destruct (Z.leb_spec a (MaxRetries cfg)) as [Ha|_].
    + unfold attempt_body.
      apply (leaves_bind _ _ (fun r => r = None)); [destruct (0 <? a); [|done]; by intros k _ r Hr|].
      intros r ->. cbv beta iota.
      apply (leaves_bind _ _ (fun res => forall e, res = (None, Some e) -> breaker_error e = false)).
      * unfold execute. intros [tos r] Hx. simpl in Hx. cbn [bind]. apply leaves_then. intros [].
        destruct r as [rej|[e|]|msg]; simpl; try done. unfold request.
        destruct (IsNonRetryable e); intros e' E; by simplify_eq.
      * intros [[e|] [cbErr|]] Hr; try done. rewrite (Hr cbErr eq_refl). simpl. lia.
    + unfold retries_exhausted. simpl. intros [tos stt] Hst. simpl in Hst. apply leaves_then. intros [].
      destruct stt; try done; simpl; by destruct lastErr.
  - intros r Hr. simpl in Hr. rewrite Hr. intros [tos stt] Hst. simpl in Hst. apply leaves_then. intros [].
    destruct stt; try done; simpl; lia.
Qed.

(** * Settling

    The workers and the timers go on until a worker panics (which cancels the
    context); the poll goroutine makes no call. *)
Definition settling (ch : choice) : Prop :=
  match ch with Run _ ans => answers_given (@lets_through) ans | Call _ => False | Recv _ | Fire _ => True end.
Definition settles (y x : machine) : Prop :=
  panics x = [] /\ exists ch, settling ch /\ sched cfg hasDLQ ch x = Some y.

Lemma settling_gentle ch : settling ch -> gentle ch.
Proof.
  destruct ch as [i ans|k|i|t]; try done. intros Ha X e. specialize (Ha X e). by destruct e.
Qed.

Definition no_call (x : machine) : Prop := Forall (fun th => is_polling th = false) (threads x).

Lemma later_not_polling th' th : later th' th -> is_polling th = false -> is_polling th' = false.
Proof. destruct th; simpl; try done; naive_solver. Qed.

Lemma sched_no_call ch (x y : machine) :
  all_tame x -> no_call x -> settling ch -> sched cfg hasDLQ ch x = Some y -> no_call y.
Proof.
  intros Hx Hn Hch Hs. unfold no_call in *. unfold sched in Hs. destruct (crashed x); [done|].
  destruct ch as [i ans|k|i|t]; [|done|..].
  - destruct (threads x !! i) as [th|] eqn:Hi; [|done]. simpl in Hs.
    assert (Ht : thread_tame th) by (eapply Forall_lookup_1; eauto).
    pose proof (Forall_lookup_1 _ _ _ _ Hn Hi) as Hp. cbv beta in Hp.
    destruct (run_thread_moved cfg hasDLQ (@lets_through) later i ans th x y Ht (fun _ Hl => Hl Hch) Hs)
      as [_ [[_ Hth]|(th' & Hl & _ & _ & Hth & _)]]; rewrite Hth; [done|].
    apply Forall_insert; [done|]. by eapply later_not_polling.
  - destruct (threads x !! i) as [[]|]; try done. destruct (recv_batch (st x)) as [[b s]|]; simplify_eq.
    + by apply Forall_insert.
    + destruct (batchChClosed (st x)); simplify_eq. by apply Forall_insert.
  - destruct (timers (st x) !! t); simpl in Hs; simplify_eq. simpl. apply Forall_app. split; [done|].
    by apply Forall_singleton.
Qed.

(** What a step takes. *)
Local Abbreviation spent := (spent cfg (@lets_through) (machine * list duty)
  (fun z => weight (st z.1)) (fun z => load z.1 z.2) (fun z => size (timers (st z.1)))
  (fun z => core z.1) (fun z => fired z.1)).

Lemma settles_spent (x y : machine) ds :
  tended x ds -> all_tame x -> no_call x -> settles y x ->
  panics y <> [] \/ (crashed y <> None /\ closed (st y) = false) \/
  exists ds', tended y ds' /\ spent (y, ds') (x, ds).
Proof.
  intros Ht Htm Hn (Hp & ch & Hch & Hs). pose proof Hs as Hs'. unfold sched in Hs'.
  destruct (crashed x) eqn:Hcx; [done|]. destruct ch as [i ans|k|i|t]; [|done|..].
  - destruct (threads x !! i) as [th|] eqn:Hi; [|done]. simpl in Hs'.
    pose proof (Forall_lookup_1 _ _ _ _ Hn Hi) as Hpoll. cbv beta in Hpoll.
    destruct (run_outlook i ans th x y ds Ht (settling_gentle (Run i ans) Hch) Hi Hs')
      as [?|[?|(ds' & Ht' & Hpay)]]; [by left|by right; left|].
    destruct (crashed y) eqn:Hcy; [right; left; split; [done|]; apply Ht'|].
    right. right. exists ds'. split; [done|]. specialize (Hpay Hpoll).
    assert (Htt : thread_tame th) by (eapply Forall_lookup_1; eauto).
    destruct (run_thread_moved cfg hasDLQ (@lets_through) later i ans th x y Htt (fun _ Hl => Hl Hch) Hs')
      as [[_ Hz] [[Hy _]|(th' & Hl & Hk & _ & Hth & _)]]; [congruence|].
    destruct Hpay as [Hw|[Hw Hload]]; [by apply spent_weight|].
    destruct (is_timer th) eqn:Ek.
    + apply spent_side; simpl; unfold core, fired; rewrite ?Hth; [lia|done| |by apply Hz|].
      * apply (filter_same _ _ _ th); [done|congruence..].
      * by apply (filter_one_less _ _ _ _ th).
    + apply spent_line; simpl; unfold core; rewrite ?Hth; [lia|done|].
      by apply (filter_one_less _ _ _ _ th).
  - destruct (recv_tended i x y ds Ht Hs) as (ds' & Ht' & Hw & Hl). right. right. exists ds'.
    split; [done|]. apply spent_load; simpl; lia.
  - destruct (fire_tended t x y ds Ht Hs) as (ds' & Ht' & Hw & Hl). right. right. exists ds'.
    split; [done|]. destruct (timers (st x) !! t) as [p|] eqn:Et; simpl in Hs'; simplify_eq.
    apply spent_armed; simpl; [done|simpl in Hl; lia| |].
    + unfold core. simpl. by rewrite filter_app, app_nil_r.
    + rewrite map_size_delete, Et. simpl.
      assert (size (timers (st x)) <> 0%nat) by (apply map_size_ne_0_lookup; eauto). lia.
Qed.

Lemma settles_end (x : machine) : panics x <> [] \/ crashed x <> None -> Acc settles x.
Proof.
  intros Hx. constructor. intros y (Hp & ch & _ & Hs). unfold sched in Hs.
  destruct (crashed x); [done|]. by destruct Hx.
Qed.

Lemma settles_acc x ds : tended x ds -> all_tame x -> no_call x -> Acc settles x.
Proof.
  enough (Hz : forall z, tended z.1 z.2 -> all_tame z.1 -> no_call z.1 -> Acc settles z.1)
    by (intros; by apply (Hz (x, ds))). clear x ds.
  intros z. induction z as [[x ds] IH] using (well_founded_induction
    (spent_wf cfg (@lets_through) budget body_spends (machine * list duty)
      (fun z => weight (st z.1)) (fun z => load z.1 z.2) (fun z => size (timers (st z.1)))
      (fun z => core z.1) (fun z => fired z.1))).
  simpl. intros Ht Htm Hn. constructor. intros y Hy.
  destruct (settles_spent x y ds Ht Htm Hn Hy) as [?|[[? _]|(ds' & Ht' & Hsp)]];
    [apply settles_end; auto..|].
  destruct Hy as (_ & ch & Hch & Hs). apply (IH (y, ds') Hsp Ht').
  - by eapply (sched_tame cfg hasDLQ (@lets_through)).
  - by eapply sched_no_call.
Qed.

(** * Nothing is left *)

Lemma quietly_lets_through : answers_given (@lets_through) quietly.
Proof. by intros X []. Qed.

Definition at_work (th : thread) : bool :=
  match th with WorkerDeciding _ _ | WorkerFinishing _ | TimerRunning _ => true | _ => false end.

(** A goroutine in a routine can go on. *)
Lemma busy_settles i th (x : machine) :
  threads x !! i = Some th -> at_work th = true -> crashed x = None -> panics x = [] ->
  exists y, settles y x.
Proof.
  intros Hi Hw Hcx Hpx.
  assert (Hrun : is_Some (run_thread cfg hasDLQ i quietly th x) -> exists y, settles y x).
  { intros [y Hy]. exists y. split; [done|]. exists (Run i quietly). split; [exact quietly_lets_through|].
    unfold sched. by rewrite Hcx, Hi. }
  assert (Hprog : forall A (c : P A), (exists a, c = Ret a) \/ is_Some (step_prog quietly c (st x)))
    by (intros; apply step_prog_some).
  apply Hrun. destruct th as [|c|tps|c| | |b c|c| |c|]; try done; simpl.
  - destruct (Hprog _ c) as [[[ctl|v] ->]|[[[|] ?] E]]; [eauto..| |]; destruct c; try done; rewrite E; eauto.
  - destruct (Hprog _ c) as [[a ->]|[[[|] ?] E]]; [eauto|..]; destruct c; try done; rewrite E; eauto.
  - destruct (Hprog _ c) as [[a ->]|[[[|] ?] E]]; [eauto|..]; destruct c; try done; rewrite E; eauto.
Qed.

Definition resting (th : thread) : Prop := th = PollIdle \/ th = WorkerIdle \/ th = TimerDone.

(** With everyone at rest and no timer armed, no partition is in flight and
    every buffer is empty. *)
Lemma rest_settled (x : machine) ds :
  tended x ds -> (forall i th, threads x !! i = Some th -> resting th) -> timers (st x) = ∅ ->
  batchCh (st x) = [] ->
  forall p, in_flight (st x) p = false /\ bufMessages (get_or_new p (st x)) = [].
Proof.
  intros Ht Hr Htm Hch p.
  assert (Hd : forall d, d ∈ ds -> d = at_ease).
  { intros d [i Hi]%list_elem_of_lookup. assert (Hth : is_Some (threads x !! i)).
    { apply lookup_lt_is_Some_2. rewrite <- (td_length _ _ Ht). by eapply lookup_lt_Some. }
    destruct Hth as [th Hth]. pose proof (td_minds _ _ Ht i th d Hth Hi) as Hm.
    by destruct (Hr i th Hth) as [->|[->| ->]]. }
  assert (Hf : in_flight (st x) p = false).
  { apply not_true_is_false. intros Hf%(td_flags _ _ Ht). unfold held in Hf.
    rewrite Hch, app_nil_r in Hf. apply list_elem_of_omap in Hf as (d & Hin & Hd').
    by rewrite (Hd d Hin) in Hd'. }
  assert (Hnone : forall (sel : duty -> list Z), sel at_ease = [] -> ~ exists d, d ∈ ds /\ p ∈ sel d).
  { intros sel E (d & Hin & Hp). rewrite (Hd d Hin), E in Hp. by apply not_elem_of_nil in Hp. }
  split; [done|]. unfold get_or_new. destruct (buffers (st x) !! p) as [pb|] eqn:Hpb; [simpl|done].
  destruct (td_cared _ _ Ht p) as [[Hc|[t Hc]]|Hc]; [|by rewrite Htm in Hc|by destruct (Hnone visits eq_refl)].
  destruct (Hc pb Hpb) as [?|[Hfl|Hl]]; [done|by unfold in_flight in Hf; rewrite Hpb in Hf; congruence|].
  destruct (lingerTimer pb) as [t|] eqn:El; [|done]. exfalso.
  destruct (td_handled _ _ Ht p) as [Hh|Hh]; [|by destruct (Hnone clears eq_refl)].
  specialize (Hh pb t Hpb El). by rewrite Htm in Hh.
Qed.

(** In a tended machine either something can still be done, or nothing is
    left to do. *)
Lemma tended_settled (x : machine) ds :
  tended x ds -> no_call x -> crashed x = None -> panics x = [] ->
  (exists y, settles y x) \/
  (forall i th, threads x !! i = Some th -> resting th) /\
  forall p, in_flight (st x) p = false /\ bufMessages (get_or_new p (st x)) = [].
Proof.
  intros Ht Hn Hcx Hpx. destruct (decide (timers (st x) = ∅)) as [Etm|Htm].
  2: { apply map_choose in Htm as (t & p & Hp). left. eexists. split; [done|].
       exists (Fire t). split; [done|]. unfold sched. by rewrite Hcx, Hp. }
  destruct (decide (Forall (fun th => at_work th = false) (threads x))) as [Hf|Hf].
  2: { apply not_Forall_Exists in Hf; [|solve_decision]. apply Exists_exists in Hf as (th & Hin & Hth).
       apply list_elem_of_lookup in Hin as [i Hi]. apply not_false_is_true in Hth. left.
       by eapply busy_settles. }
  assert (Hr : forall i th, threads x !! i = Some th -> resting th).
  { intros i th Hi. pose proof (Forall_lookup_1 _ _ _ _ Hf Hi) as Hw.
    pose proof (Forall_lookup_1 _ _ _ _ Hn Hi) as Hp. cbv beta in Hw, Hp.
    assert (Hd : is_Some (ds !! i)).
    { apply lookup_lt_is_Some_2. rewrite (td_length _ _ Ht). by eapply lookup_lt_Some. }
    destruct Hd as [d Hd]. pose proof (td_minds _ _ Ht i th d Hi Hd) as Hm. unfold resting.
    destruct th; try done; auto. }
  destruct (batchCh (st x)) as [|b rest] eqn:Hch.
  - right. split; [done|]. by apply (rest_settled x ds).
  - left. destruct (td_worker _ _ Ht) as (i & th & Hi & Hw). destruct (Hr i th Hi) as [->|[->| ->]]; try done.
    eexists. split; [done|]. exists (Recv i). split; [done|]. unfold sched. rewrite Hcx, Hi.
    unfold recv_batch. by rewrite Hch.
Qed.
End Progress.

(** * Runs *)

Section Runs.
Context `{Coordinator C}.
Variable cfg : Config.
Variable hasDLQ : bool.
Local Abbreviation machine := (machine (C := C)).

Lemma run_log_keeps (I : machine -> Prop) (ok : choice -> Prop) chs x y ls :
  (forall ch x y, I x -> ok ch -> sched cfg hasDLQ ch x = Some y -> I y) ->
  I x -> Forall ok chs -> run_log cfg hasDLQ chs x = Some (y, ls) -> I y.
Proof.
  intros Hstep. revert x ls. induction chs as [|ch chs IH]; intros x ls Hx Hok Hr; simpl in Hr; [by simplify_eq|].
  apply Forall_cons in Hok as [Hch Hok]. destruct (sched cfg hasDLQ ch x) as [x1|] eqn:E; [|done].
  destruct (run_log cfg hasDLQ chs x1) as [[x2 ls2]|] eqn:E2; [|done]. simplify_eq. eauto.
Qed.

(** A worker's panic is not forgotten. *)
Lemma panics_stay ch (x y : machine) : sched cfg hasDLQ ch x = Some y -> panics y = [] -> panics x = [].
Proof.
  unfold sched. destruct (crashed x); [done|]. intros Hs Hp. destruct ch as [i ans|k|i|t].
  - destruct (threads x !! i) as [th|]; [|done]. simpl in Hs.
    assert (Hprog : forall A (K : prog query _ A -> thread) (c : prog query _ A),
      match step_prog ans c (st x) with
      | Some (inl c', s) => Some (set_thread i (K c') s x)
      | Some (inr p, s) => Some (crash i p s x)
      | None => None
      end = Some y -> panics x = []).
    { intros A K c E. destruct (step_prog ans c (st x)) as [[[c'|p] s]|]; by simplify_eq. }
    assert (Hwork : forall A (K : prog query _ A -> thread) (c : prog query _ A),
      match step_prog ans c (st x) with
      | Some (inl c', s) => Some (set_thread i (K c') s x)
      | Some (inr p, s) => Some (worker_panic i p s x)
      | None => None
      end = Some y -> panics x = []).
    { intros A K c E. destruct (step_prog ans c (st x)) as [[[c'|p] s]|]; by simplify_eq. }
    destruct th as [|c|tps|c| | |b c|c| |c|]; try done.
    + destruct c; [simpl in Hs; by simplify_eq|by eapply Hprog..].
    + by eapply Hprog.
    + destruct c; [simpl in Hs; by simplify_eq|by eapply Hprog..].
    + destruct c as [[]| | |]; [simpl in Hs; by simplify_eq..| | |]; by eapply Hwork.
    + destruct c; [simpl in Hs; by simplify_eq|by eapply Hwork..].
    + destruct c; [simpl in Hs; by simplify_eq|by eapply Hprog..].
  - destruct (threads x !! 0%nat) as [[]|]; try done. by destruct k; simplify_eq.
  - destruct (threads x !! i) as [[]|]; try done. destruct (recv_batch (st x)) as [[b s]|]; [by simplify_eq|].
    by destruct (batchChClosed (st x)); simplify_eq.
  - destruct (timers (st x) !! t); simpl in Hs; by simplify_eq.
Qed.

Variable ps : list Z.
Local Abbreviation known := (fun q => q ∈ ps).
Hypothesis BatchSize_pos : 0 < BatchSize cfg.
Hypothesis MaxRetries_nonneg : 0 <= MaxRetries cfg.
Hypothesis capacity : len ps <= ChannelCap cfg.

(** What a run without interruption keeps, up to a worker's panic. *)
Record sound (p : Z) (ls : list label) (x : machine) : Prop := {
  so_inv : some_inv cfg true true p known ls x;
  so_tame : all_tame x;
  so_tended : panics x = [] -> crashed x = None /\ exists ds, tended cfg known x ds
}.

Lemma fits_gentle ch : gentle known ch -> fits known ch.
Proof. by destruct ch as [|[]| |]. Qed.

Lemma sound_step p ls ch x y :
  sound p ls x -> gentle known ch -> sched cfg hasDLQ ch x = Some y -> sound p (ls ++ label_of ch x) y.
Proof.
  intros [Hi Ht Hd] Hg Hs.
  assert (Hy : some_inv cfg true true p known (ls ++ label_of ch x) y).
  { eapply sched_inv; eauto. by apply fits_gentle. }
  constructor; [done|by eapply (sched_tame cfg hasDLQ (@lets_through))|].
  intros Hp. destruct (Hd (panics_stay ch x y Hs Hp)) as [_ [ds Hds]].
  destruct (sched_outlook cfg hasDLQ known ps (fun q Hq => Hq) capacity BatchSize_pos ch x y ds Hds Hg Hs)
    as [?|[[Hc Hcl]|(ds' & Hds' & _)]]; [done|..].
  - destruct (crashed y) as [[i q]|] eqn:E; [|done]. destruct Hy as [g Hy].
    destruct (mi_crashed _ _ _ _ _ _ _ _ Hy i q E) as [[_ ?] _]. congruence.
  - split; [|eauto]. destruct (crashed y) as [[i q]|] eqn:E; [|done]. destruct Hy as [g Hy].
    destruct (mi_crashed _ _ _ _ _ _ _ _ Hy i q E) as [[_ Hcl] _].
    destruct (td_closed _ _ _ _ Hds'). congruence.
Qed.

Lemma sound_run p chs ls x y ls' :
  sound p ls x -> Forall (gentle known) chs -> run_log cfg hasDLQ chs x = Some (y, ls') ->
  sound p (ls ++ ls') y.
Proof.
  revert ls x ls'. induction chs as [|ch chs IH]; intros ls x ls' Hx Hok Hr; simpl in Hr.
  { simplify_eq. by rewrite app_nil_r. }
  apply Forall_cons in Hok as [Hch Hok]. destruct (sched cfg hasDLQ ch x) as [x1|] eqn:E; [|done].
  destruct (run_log cfg hasDLQ chs x1) as [[x2 ls2]|] eqn:E2; [|done]. simplify_eq.
  rewrite app_assoc. eapply IH; [|done|exact E2]. by apply sound_step.
Qed.

Lemma start_sound p n c :
  (0 < n)%nat -> fresh_coordinator c -> sound p [] (start n (NewUnorderedDispatcher c)).
Proof.
  intros Hn Hc. constructor.
  - by apply new_inv.
  - apply (reachable_tame cfg hasDLQ (@lets_through) n c). constructor.
  - intros _. split; [done|]. eexists. by apply start_tended.
Qed.

(** With the poll goroutine idle nobody is in a call. *)
Lemma idle_no_call p ls x :
  sound p ls x -> threads x !! 0%nat = Some PollIdle -> no_call x.
Proof.
  intros [[g Hi] _ _] H0. apply Forall_lookup_2. intros i th Hth.
  destruct (inv_token _ _ _ _ _ _ _ _ _ _ Hi Hth) as [t Ht].
  pose proof (mi_threads _ _ _ _ _ _ _ _ Hi _ _ _ Hth Ht) as Hok.
  destruct th; try done; destruct Hok as [-> _]; by rewrite H0 in Hth.
Qed.

(** At rest, the poll goroutine is the one that is not in a call. *)
Lemma resting_idle p ls x :
  sound p ls x -> (forall i th, threads x !! i = Some th -> resting th) ->
  threads x !! 0%nat = Some PollIdle.
Proof.
  intros [[g Hi] _ _] Hr. pose proof (mi_nonempty _ _ _ _ _ _ _ _ Hi) as Hz.
  apply lookup_lt_is_Some_2 in Hz as [th Hth]. destruct (inv_token _ _ _ _ _ _ _ _ _ _ Hi Hth) as [t Ht].
  pose proof (mi_threads _ _ _ _ _ _ _ _ Hi _ _ _ Hth Ht) as Hok. rewrite Hth. f_equal.
  by destruct (Hr _ _ Hth) as [->|[->| ->]].
Qed.

(** No call of [Close]; no sleep interrupted. *)
Definition undisturbed (ch : choice) : Prop :=
  match ch with
  | Run _ ans => uninterrupted ans
  | Call CallClose => False
  | _ => True
  end.

Lemma undisturbed_gentle chs :
  uses_only ps chs -> Forall undisturbed chs -> Forall (gentle known) chs.
Proof.
  intros [Hsend Hass] Hu. apply Forall_forall. intros ch Hch. rewrite Forall_forall in Hu.
  specialize (Hu ch Hch). destruct ch as [i ans|[]|i|t]; simpl in *; eauto.
Qed.

(** With nobody in a call, nothing goes on for ever; and where nothing goes
    on, all that was sent and kept is settled. *)
Lemma sound_acc p ls x : sound p ls x -> no_call x -> Acc (settles cfg hasDLQ) x.
Proof.
  intros Hx Hnc. destruct (panics x) as [|q l] eqn:Hp; [|by apply settles_end; left; rewrite Hp].
  destruct (so_tended _ _ _ Hx Hp) as [_ [ds Hds]].
  by apply (settles_acc cfg hasDLQ known ps (fun q Hq => Hq) capacity BatchSize_pos MaxRetries_nonneg x ds);
    [|apply Hx|].
Qed.

Lemma sound_rest p0 ls y :
  sound p0 ls y -> no_call y -> panics y = [] ->
  (exists z, settles cfg hasDLQ z y) \/
  forall p, sound p ls y -> in_flight (st y) p = false /\ kept p ls = Some (concat (messages <$> settled p ls)).
Proof.
  intros Hy Hnc Hp. destruct (so_tended _ _ _ Hy Hp) as [Hcy [ds Hds]].
  destruct (tended_settled cfg hasDLQ known y ds Hds Hnc Hcy Hp) as [?|[Hrest Hempty]]; [by left|right].
  intros p Hyp. destruct (so_inv _ _ _ Hyp) as [g Hg]. destruct (Hempty p) as [Hf Hb]. split; [done|].
  rewrite (idle_ledger cfg true known _ y g p Hg Hf (resting_idle p _ y Hyp Hrest)), Hb.
  by rewrite app_nil_r.
Qed.

(** From an idle poll goroutine the machine comes to rest, with every message
    that was sent and kept settled. *)
Lemma settling_comes_to_rest n c chs x ls :
  (0 < n)%nat -> fresh_coordinator c -> uses_only ps chs -> Forall undisturbed chs ->
  run_log cfg hasDLQ chs (start n (NewUnorderedDispatcher c)) = Some (x, ls) ->
  threads x !! 0%nat = Some PollIdle ->
  Acc (settles cfg hasDLQ) x /\
  forall chs' y ls', Forall settling chs' -> run_log cfg hasDLQ chs' x = Some (y, ls') ->
    panics y <> [] \/ (exists z, settles cfg hasDLQ z y) \/
    forall p, sound p (ls ++ ls') y /\ in_flight (st y) p = false /\
      kept p (ls ++ ls') = Some (concat (messages <$> settled p (ls ++ ls'))).
Proof.
  intros Hn Hc Huse Hu Hr Hidle.
  assert (Hx : forall p, sound p ls x).
  { intros p. apply (sound_run p chs [] (start n (NewUnorderedDispatcher c)) x ls);
      [by apply start_sound|by apply undisturbed_gentle|done]. }
  assert (Hnc : no_call x) by (by apply (idle_no_call 0 ls)). split.
  - by apply (sound_acc 0 ls).
  - intros chs' y ls' Hs Hr'.
    assert (Hy : forall p, sound p (ls ++ ls') y).
    { intros p. apply (sound_run p chs' ls x y ls'); [apply Hx| |done]. eapply Forall_impl; [exact Hs|].
      intros ch. apply settling_gentle. }
    assert (Hnc' : all_tame y /\ no_call y).
    { apply (run_log_keeps (fun z => all_tame z /\ no_call z) settling chs' x y ls');
        [|split; [apply (Hx 0)|done]|done|done].
      intros ch a b [Ha Hna] Hch E. split; [by eapply (sched_tame cfg hasDLQ (@lets_through))|].
      by eapply sched_no_call. }
    destruct (panics y) as [|q l] eqn:Hp; [right|by left].
    destruct (sound_rest 0 _ y (Hy 0) (proj2 Hnc') Hp) as [?|Hrest]; [by left|right].
    intros p. split; [apply Hy|by apply Hrest].
Qed.
End Runs.
