(* ===== verification/Reporting.v ===== *)
(** What gets settled gets reported: once a batch of a partition was
    dispatched, and unless the partition is reset, the coordinator keeps a
    record of it; so when the dispatcher comes to rest, the offset after the
    last message that was sent is committable. *)
From S2P Require Import Prelude Types OffsetCoordinator Dispatcher Retry Worker Machine Winding Ownership Duties Interleaving Progress.

Section Reporting.
Context `{Coordinator C}.
Variable cfg : Config.
Variable hasDLQ : bool.
Variable p : Z.
Local Abbreviation S := (UnorderedDispatcher C).
Local Abbreviation P := (prog query S).
Local Abbreviation thread := (thread (C := C)).
Local Abbreviation machine := (machine (C := C)).
Implicit Types s : S.

(** * The coordinator remembers *)

Definition reported s : Prop := slot_of (coord s) p <> Absent.

(** An action forgets nothing, and queues only what was reported. *)
Record vouches s s' : Prop := {
  vo_keeps : reported s -> reported s';
  vo_queues b : b ∈ batchCh s' -> partition b = p -> b ∈ batchCh s \/ reported s'
}.

(** A routine of such actions; [g] says that the partition is known to be
    reported. *)
Fixpoint lasting {A} (g : bool) (c : P A) : Prop :=
  match c with
  | Ret _ | Throw _ => True
  | Act f k => forall s, coord_wf (coord s) -> (g = true -> reported s) ->
      match f s with
      | Returned x s' => vouches s s' /\ exists g', (g' = true -> reported s') /\ lasting g' (k x)
      | Panicked _ s' => vouches s s'
      end
  | Ask e k => forall x, lasting g (k x)
  end.

Lemma lasting_forget {A} g (c : P A) : lasting false c -> lasting g c.
Proof.
  revert g. induction c as [a|q|X f k IH|X e k IH]; intros g; simpl; auto.
  intros Hc s Hw _. by apply Hc.
Qed.

Lemma lasting_bind {A B} g (c : P A) (f : A -> P B) :
  lasting g c -> (forall a, lasting false (f a)) -> lasting g (bind c f).
Proof.
  intros Hc Hf. revert g Hc. induction c as [a|q|X h k IH|X e k IH]; intros g; simpl; auto.
  - intros _. by apply lasting_forget.
  - intros Hc s Hw Hg. specialize (Hc s Hw Hg). destruct (h s); [|done].
    destruct Hc as (Hv & g' & Hg' & Hk). split; [done|]. eauto.
Qed.

(** Neither the coordinator nor the channel is touched. *)
Definition still s s' : Prop := coord s' = coord s /\ batchCh s' = batchCh s.

Lemma still_vouches s s' : still s s' -> vouches s s'.
Proof.
  intros [Ec Eb]. constructor; [unfold reported; by rewrite Ec|]. intros b. rewrite Eb. auto.
Qed.

Definition still_result {X} s (r : outcome S X) : Prop :=
  match r with Returned _ s' | Panicked _ s' => still s s' end.

Lemma lasting_still {X A} g (f : S -> outcome S X) (k : X -> P A) :
  (forall s, still_result s (f s)) -> (forall x, lasting g (k x)) -> lasting g (Act f k).
Proof.
  intros Hf Hk s _ Hg. specialize (Hf s). destruct (f s) as [x s'|q s']; simpl in Hf;
    [|by apply still_vouches].
  split; [by apply still_vouches|]. exists g. split; [|done]. intros E. apply (vo_keeps s); [|auto].
  by apply still_vouches.
Qed.

Lemma still_act {X} g (f : S -> outcome S X) : (forall s, still_result s (f s)) -> lasting g (act f).
Proof. intros Hf. by apply lasting_still. Qed.

(** ** The coordinator's calls *)

Lemma slot_vouches c s :
  (reported s -> slot_of c p <> Absent) -> vouches s (set_coord c s).
Proof. intros Hk. constructor; [exact Hk|by left]. Qed.

Lemma dispatched_lasting {A} g q off (k : unit -> P A) :
  (forall g', (q = p -> g' = true) -> lasting g' (k tt)) ->
  lasting g (Act (with_coord (BatchDispatched q off)) k).
Proof.
  intros Hk s Hw Hg. unfold with_coord. destruct (slot_busy (slot_of (coord s) q)) eqn:Eb.
  - destruct (dispatched_panics (coord s) q off Hw Eb) as [msg ->]. by apply slot_vouches.
  - destruct (dispatched_returns (coord s) q off Hw Eb) as (c & -> & _ & Hs).
    assert (Hv : q = p \/ reported s -> slot_of c p <> Absent).
    { rewrite Hs. intros [->|Hr]; case_decide; try done. }
    split; [apply slot_vouches; auto|]. exists (bool_decide (q = p)). split.
    + intros E%bool_decide_eq_true. apply Hv. auto.
    + apply Hk. apply bool_decide_eq_true_2.
Qed.

Lemma completed_lasting {A} g q off (k : unit -> P A) :
  lasting false (k tt) -> lasting g (Act (with_coord (BatchComplete q off)) k).
Proof.
  intros Hk s Hw Hg. unfold with_coord.
  assert (Hend : forall c, (forall r, slot_of c r = if decide (r = q) then Completed off else slot_of (coord s) r) ->
    vouches s (set_coord c s)).
  { intros c Hs. apply slot_vouches. rewrite Hs. by case_decide. }
  assert (Hsame : vouches s (set_coord (coord s) s)) by (by apply slot_vouches).
  destruct (slot_of (coord s) q) as [|o|o] eqn:Es.
  - rewrite complete_absent by done. split; [done|]. by exists false.
  - destruct (decide (o = off)) as [->|Hne].
    + destruct (complete_returns (coord s) q off Hw Es) as (c & -> & _ & Hs). split; [by apply Hend|]. by exists false.
    + destruct (complete_panics (coord s) q off o Hw (or_introl Es) Hne) as [msg ->]. done.
  - destruct (decide (o = off)) as [->|Hne].
    + rewrite complete_again by done. split; [done|]. by exists false.
    + destruct (complete_panics (coord s) q off o Hw (or_intror Es) Hne) as [msg ->]. done.
Qed.

(** ** The routines *)

Lemma assemble_still pb q s : still_result s (assemble_in_flight cfg pb q s).
Proof.
  unfold assemble_in_flight, assembleBatch. destruct (_ <? 0); [done|]. destruct (last _); [|done].
  unfold set_inFlight. destruct (lingerTimer pb); simpl; by destruct (_ !! q).
Qed.

Lemma dispatchBatch_lasting b : lasting false (dispatchBatch cfg b).
Proof.
  unfold dispatchBatch. apply lasting_still; [done|]. intros []; [done|].
  apply dispatched_lasting. intros g Hg s _ Hr. unfold try_send. destruct (batchChClosed s).
  { by apply still_vouches. }
  destruct (_ <? _).
  - split.
    + constructor; [done|]. intros b' Hin Hp. simpl in Hin. apply elem_of_app in Hin as [?|Hin]; [by left|right].
      apply list_elem_of_singleton in Hin as ->. by apply Hr, Hg.
    + exists false. split; [done|]. by apply (still_act _ (fun s => Returned tt (upd_inflight _ _ s))).
  - split; [by apply still_vouches|]. exists false. split; [done|]. apply completed_lasting.
    apply lasting_still; [|done]. intros s'. unfold return_batch. by destruct (buffers s' !! partition b).
Qed.

Lemma tryDispatch_lasting q : lasting false (tryDispatch cfg q).
Proof.
  apply lasting_still; [|intros [b|]; [apply dispatchBatch_lasting|done]]. intros s. unfold tryDispatch_locked.
  destruct (buffers s !! q) as [pb|] eqn:E; [|done]. destruct (_ || _); [done|]. destruct (_ <=? _); [apply assemble_still|].
  unfold startLingerTimer. rewrite E. by destruct (lingerTimer pb).
Qed.

Lemma linger_lasting q : lasting false (linger_fired cfg q).
Proof.
  unfold linger_fired, flushPartition. apply lasting_still.
  { intros s. unfold clear_timer. simpl. by destruct (buffers s !! q). }
  intros []. apply lasting_still.
  - intros s. unfold flushPartition_locked. destruct (buffers s !! q); [|done]. destruct (_ || _); [done|apply assemble_still].
  - intros [b|]; [|done]. apply (lasting_bind false (dispatchBatch cfg b)); [apply dispatchBatch_lasting|done].
Qed.

Lemma drain_lasting qs : lasting false (drain cfg qs).
Proof.
  induction qs as [|q qs IH]; [done|]. apply (lasting_bind false (tryDispatch cfg q)); [apply tryDispatch_lasting|].
  by intros [e|].
Qed.

Lemma settle_lasting b v : lasting false (settle hasDLQ b v).
Proof.
  assert (Hend : forall start label, lasting false (let* _ := recordBatchMetrics b start label in complete b)).
  { intros start label now. apply lasting_still; [done|]. intros []. by apply completed_lasting. }
  assert (Hdlq : forall e label (k : P unit), lasting false k -> lasting false (let* _ := sendToDLQ hasDLQ b e label in k)).
  { intros e label k Hk. unfold sendToDLQ. destruct hasDLQ; [|done]. intros [err|]; [done|].
    by apply lasting_still. }
  destruct v; [apply Hend|apply Hdlq, Hend|apply Hdlq, Hend|done].
Qed.

Lemma finishing_lasting b v : lasting false (finishing cfg hasDLQ b v).
Proof.
  apply lasting_bind; [|intros; by apply (still_act _ (fun s => Returned tt (upd_workers (-1) s)))].
  assert (Hd : lasting false (onBatchDone cfg (partition b))).
  { apply lasting_still.
    - intros s. simpl. unfold set_inFlight. by destruct (buffers s !! partition b).
    - intros pending [order Ho]. apply lasting_still; [done|]. intros []. apply drain_lasting. }
  unfold finish. destruct v; try done; (apply lasting_bind; [apply settle_lasting|done]).
Qed.

Lemma notify_lasting {A} tos (k : unit -> P A) :
  lasting false (k tt) -> lasting false (bind (notify tos) k).
Proof.
  intros Hk. induction tos as [|to tos IH]; [done|]. apply lasting_still; [|by intros []].
  intros s. simpl. unfold OnStateChange. by destruct (_ <? 3).
Qed.

Lemma body_lasting b c : lasting false (body cfg b c).
Proof.
  destruct c as [|start a last|]; simpl; [done|..].
  - destruct (_ <=? _).
    + unfold attempt_body. apply lasting_bind; [by destruct (0 <? a)|]. intros [e|]; [done|].
      apply lasting_bind.
      * intros [tos r]. apply notify_lasting. by destruct r as [[]| |].
      * intros [[e|] [cbErr|]]; try done. destruct (breaker_error cbErr); [|done]. by intros k [e|].
    + intros [tos g]. apply notify_lasting. destruct g; try done; by destruct last.
  - intros [e|]; [done|]. intros [tos g]. apply notify_lasting. by destruct g.
Qed.

Lemma beginning_lasting b : lasting false (beginning cfg b).
Proof. unfold beginning. apply lasting_still; [done|]. intros []. apply body_lasting. Qed.

(** The poll goroutine does not reset the partition. *)
Definition spares (k : api_call) : Prop := k <> CallCoordinatorReset p.

Lemma revoke_still s tps : still s (foldl revoke_one s tps).
Proof.
  revert s. induction tps as [|tp tps IH]; intros s; [done|]. simpl. destruct (IH (revoke_one s tp)) as [E1 E2].
  unfold still. rewrite E1, E2. unfold revoke_one. destruct (buffers s !! _) as [pb|]; [|done]. by destruct (lingerTimer pb).
Qed.

Lemma assign_still tps s0 s : still s0 s -> still_result s0 (assign_all cfg tps s).
Proof.
  revert s. induction tps as [|tp tps IH]; intros s Hs; simpl; [done|]. destruct (make_panics _ _ _); [done|].
  apply IH. unfold assign_one. by destruct (buffers s !! _).
Qed.

Lemma api_lasting k : spares k -> lasting false (api_routine cfg k).
Proof.
  intros Hk. destruct k as [q msgs|tps|tps|q| | |].
  - apply lasting_bind; [|done]. apply lasting_still; [|intros [e|]; [done|apply tryDispatch_lasting]].
    intros s. unfold Send_locked. destruct (closed s); [done|]. by destruct (make_panics _ _ _).
  - apply lasting_still; [|done]. intros s. by apply assign_still.
  - apply lasting_still; [|done]. intros s. simpl. apply revoke_still.
  - intros s Hw _. split; [|by exists false]. apply slot_vouches. destruct (reset_spec (coord s) q Hw) as [_ Hs].
    rewrite Hs. case_decide as E; [|done]. subst. by destruct Hk.
  - apply lasting_still; [|done]. intros s. unfold receive_ready, recv_ready. by destruct (readyCh s).
  - apply lasting_still; [|done]. intros s. unfold receive_circuit, recv_circuit. by destruct (circuitStateCh s).
  - apply lasting_still; [|done]. intros s. unfold Close_locked. by destruct (batchChClosed s).
Qed.

(** * The machine remembers *)

Definition runs_lasting {A} s (c : P A) : Prop := exists g, (g = true -> reported s) /\ lasting g c.

Definition thread_lasting s (th : thread) : Prop :=
  match th with
  | PollRunning c | PollClosing c => runs_lasting s c
  | WorkerDeciding b c => runs_lasting s c /\ (partition b = p -> reported s)
  | WorkerFinishing c | TimerRunning c => runs_lasting s c
  | PollIdle | PollRevoking _ | PollDone | WorkerIdle | WorkerExited | TimerDone => True
  end.

Record remembers (ls : list label) (x : machine) : Prop := {
  re_threads : Forall (thread_lasting (st x)) (threads x);
  re_queue b : b ∈ batchCh (st x) -> partition b = p -> reported (st x);
  re_settled : settled p ls <> [] -> reported (st x)
}.

Lemma runs_false {A} s (c : P A) : lasting false c -> runs_lasting s c.
Proof. by exists false. Qed.

Lemma thread_lasting_later s s' th : (reported s -> reported s') -> thread_lasting s th -> thread_lasting s' th.
Proof.
  intros Hk. assert (Hr : forall A (c : P A), runs_lasting s c -> runs_lasting s' c).
  { intros A c (g & Hg & Hc). exists g. auto. }
  destruct th; simpl; try done; try apply Hr. intros [? ?]. split; auto.
Qed.

(** Goroutine [i] goes on as [th'], in a state that vouches. *)
Lemma remembers_set ls ls' i th' s' (x y : machine) :
  remembers ls x -> vouches (st x) s' -> thread_lasting s' th' ->
  threads y = <[i := th']> (threads x) -> st y = s' ->
  (settled p ls' <> [] -> settled p ls <> [] \/ reported s') -> remembers ls' y.
Proof.
  intros [Hth Hq Hs] Hv Ht Ey Es Hset. constructor; rewrite ?Ey, ?Es.
  - apply Forall_insert; [|done]. eapply Forall_impl; [exact Hth|]. intros u.
    apply thread_lasting_later, Hv.
  - intros b Hin Hp. destruct (vo_queues _ _ Hv b Hin Hp) as [Hb|?]; [|done]. apply (vo_keeps _ _ Hv). eauto.
  - intros Hn. destruct (Hset Hn) as [?|?]; [|done]. apply (vo_keeps _ _ Hv). auto.
Qed.

Lemma step_prog_lasting {A} ans (c : P A) s r s' :
  runs_lasting s c -> coord_wf (coord s) -> step_prog ans c s = Some (r, s') ->
  vouches s s' /\ match r with inl c' => runs_lasting s' c' | inr _ => True end.
Proof.
  intros (g & Hg & Hc) Hw Hs. destruct c as [a|q|X f k|X e k]; simpl in *; [done|..].
  - simplify_eq. by split; [apply still_vouches|].
  - specialize (Hc s Hw Hg). destruct (f s); simplify_eq; [destruct Hc; by split|by split].
  - simplify_eq. split; [by apply still_vouches|]. by exists g.
Qed.

Lemma next_remembers {A} ls i (K : P A -> thread) (fail : panic -> S -> machine) ans c (x y : machine) :
  remembers ls x -> coord_wf (coord (st x)) -> runs_lasting (st x) c ->
  (forall c' s', vouches (st x) s' -> runs_lasting s' c' -> thread_lasting s' (K c')) ->
  (forall q s', vouches (st x) s' -> remembers ls (fail q s')) ->
  match step_prog ans c (st x) with
  | Some (inl c', s) => Some (set_thread i (K c') s x)
  | Some (inr q, s) => Some (fail q s)
  | None => None
  end = Some y -> remembers ls y.
Proof.
  intros Hx Hw Hc HK Hfail Hy. destruct (step_prog ans c (st x)) as [[[c'|q] s]|] eqn:E; simplify_eq;
    destruct (step_prog_lasting ans c (st x) _ s Hc Hw E) as [Hv Hc']; [|by apply Hfail].
  by eapply (remembers_set ls ls i (K c') s x); auto.
Qed.

Lemma same_vouches s : vouches s s.
Proof. by apply still_vouches. Qed.

Lemma run_remembers ls i ans th (x y : machine) :
  remembers ls x -> coord_wf (coord (st x)) -> threads x !! i = Some th ->
  run_thread cfg hasDLQ i ans th x = Some y -> remembers (ls ++ label_of (Run i ans) x) y.
Proof.
  intros Hx Hw Hi Hy. pose proof (Forall_lookup_1 _ _ _ _ (re_threads _ _ Hx) Hi) as Hth.
  unfold label_of. rewrite Hi.
  assert (Hs : forall th', thread_lasting (st x) th' -> remembers ls (set_thread i th' (st x) x)).
  { intros th' Ht. eapply (remembers_set ls ls i th' (st x) x); auto using same_vouches. }
  set (die := fun q s => crash i q s x). set (exit := fun q s => worker_panic i q s x).
  assert (Hdie : forall q s', vouches (st x) s' -> remembers ls (die q s')).
  { intros q s' Hv. destruct Hx as [Hf Hq Hset]. constructor; simpl; [|intros b Hb Hp|].
    - eapply Forall_impl; [exact Hf|]. intros u. apply thread_lasting_later, Hv.
    - destruct (vo_queues _ _ Hv b Hb Hp); [|done]. apply (vo_keeps _ _ Hv). eauto.
    - intros Hn. apply (vo_keeps _ _ Hv). auto. }
  assert (Hexit : forall q s', vouches (st x) s' -> remembers ls (exit q s')).
  { intros q s' [Hk Hq]. apply (remembers_set ls ls i WorkerExited (worker_recover s') x); auto.
    all: by constructor. }
  pose proof (fun A K fail c => next_remembers (A := A) ls i K fail ans c x) as Hnext.
  destruct th as [|c|tps|c| | |b c|c| |c|]; try done; simpl in Hth; rewrite ?app_nil_r.
  - destruct c; [simpl in Hy; simplify_eq; by apply Hs|by eapply (Hnext _ PollRunning die); eauto..].
  - simpl in Hy. simplify_eq. eapply (remembers_set ls _ i _ _ x); eauto.
    + apply still_vouches, revoke_still.
    + by apply runs_false.
    + intros Hn. left. unfold discards in Hn. by rewrite settled_discards in Hn.
  - destruct c; [simpl in Hy; simplify_eq; by apply Hs|by eapply (Hnext _ PollClosing die); eauto..].
  - destruct Hth as [Hc Hb]. destruct c as [[ctl|v]|q|X f k|X e k]; simpl in Hy; rewrite ?app_nil_r; simplify_eq.
    + apply Hs. split; [apply runs_false, body_lasting|done].
    + eapply (remembers_set ls _ i _ (st x) x); eauto using same_vouches.
      * apply runs_false, finishing_lasting.
      * rewrite settled_app. simpl. rewrite app_nil_r.
        destruct (is_completed v && (partition b =? p)) eqn:E; [|rewrite app_nil_r; auto].
        intros _. right. apply andb_true_iff in E as [_ E%Z.eqb_eq]. auto.
    + by apply Hexit, same_vouches.
    + eapply (Hnext _ (WorkerDeciding b) exit (Act f k)); eauto. intros c' s' Hv Hc'. split; [done|].
      intros Hp. apply (vo_keeps _ _ Hv). auto.
    + eapply (Hnext _ (WorkerDeciding b) exit (Ask e k)); eauto. intros c' s' Hv Hc'. split; [done|].
      intros Hp. apply (vo_keeps _ _ Hv). auto.
  - destruct c; [simpl in Hy; simplify_eq; by apply Hs|by eapply (Hnext _ WorkerFinishing exit); eauto..].
  - destruct c; [simpl in Hy; simplify_eq; by apply Hs|by eapply (Hnext _ TimerRunning die); eauto..].
Qed.

Definition sparing (ch : choice) : Prop := match ch with Call k => spares k | _ => True end.

Lemma sched_remembers ls ch (x y : machine) :
  remembers ls x -> coord_wf (coord (st x)) -> sparing ch -> sched cfg hasDLQ ch x = Some y ->
  remembers (ls ++ label_of ch x) y.
Proof.
  intros Hx Hw Hch Hs. unfold sched in Hs. destruct (crashed x); [done|]. destruct ch as [i ans|k|i|t].
  - destruct (threads x !! i) as [th|] eqn:Hi; [|done]. by eapply run_remembers.
  - destruct (threads x !! 0%nat) as [[]|]; try done.
    assert (Hset : settled p (ls ++ label_of (Call k) x) = settled p ls)
      by (rewrite settled_app; destruct k; simpl; by rewrite app_nil_r).
    assert (Hk : lasting false (api_routine cfg k)) by (by apply api_lasting).
    assert (Hmk : forall th', thread_lasting (st x) th' -> remembers (ls ++ label_of (Call k) x) (set_thread 0 th' (st x) x)).
    { intros th' Ht. eapply (remembers_set ls _ 0 th' (st x) x); eauto using same_vouches. rewrite Hset. auto. }
    destruct k; simplify_eq; apply Hmk; try done; by apply runs_false.
  - rewrite app_nil_r. destruct (threads x !! i) as [[]|]; try done. unfold recv_batch in Hs.
    destruct (batchCh (st x)) as [|b rest] eqn:Eb.
    + destruct (batchChClosed (st x)); simplify_eq.
      by eapply (remembers_set ls ls i WorkerExited (st x) x); auto using same_vouches.
    + simplify_eq. eapply (remembers_set ls ls i _ _ x); auto.
      * constructor; [done|]. intros b' Hin _. left. rewrite Eb. by apply list_elem_of_further.
      * split; [apply runs_false, beginning_lasting|]. intros Hp. apply (re_queue _ _ Hx b); [|done].
        rewrite Eb. apply list_elem_of_here.
  - rewrite app_nil_r. destruct (timers (st x) !! t); simpl in Hs; simplify_eq. destruct Hx as [Hf Hq Hset].
    constructor; simpl; try done. apply Forall_app. split; [done|]. apply Forall_singleton, runs_false, linger_lasting.
Qed.
End Reporting.

(** * Everything sent is settled, and committable *)

Section Runs.
Context `{Coordinator C}.
Variable cfg : Config.
Variable hasDLQ : bool.
Variable ps : list Z.
Hypothesis BatchSize_pos : 0 < BatchSize cfg.
Hypothesis MaxRetries_nonneg : 0 <= MaxRetries cfg.
Hypothesis capacity : len ps <= ChannelCap cfg.
Local Abbreviation machine := (machine (C := C)).
Local Abbreviation sound := (sound cfg ps).
Local Abbreviation known := (fun q => q ∈ ps).

Lemma sound_coord p ls (x : machine) : sound p ls x -> coord_wf (coord (st x)).
Proof. intros [[g Hi] _ _]. apply (si_coord _ _ _ (mi_shared _ _ _ _ _ _ _ _ Hi)). Qed.

Lemma run_remembered p chs ls (x y : machine) ls' :
  sound p ls x -> remembers p ls x -> Forall (gentle known) chs -> Forall (sparing p) chs ->
  run_log cfg hasDLQ chs x = Some (y, ls') -> remembers p (ls ++ ls') y.
Proof.
  revert ls x ls'. induction chs as [|ch chs IH]; intros ls x ls' Hs Hx Hg Hp Hr; simpl in Hr.
  { simplify_eq. by rewrite app_nil_r. }
  apply Forall_cons in Hg as [Hg Hgs]. apply Forall_cons in Hp as [Hp Hps].
  destruct (sched cfg hasDLQ ch x) as [x1|] eqn:E; [|done].
  destruct (run_log cfg hasDLQ chs x1) as [[x2 ls2]|] eqn:E2; [|done]. simplify_eq.
  rewrite app_assoc. eapply IH; [..|exact E2]; try done.
  - by eapply sound_step.
  - eapply sched_remembers; eauto. by eapply sound_coord.
Qed.

Lemma start_remembers p n (c : C) : remembers p [] (start n (NewUnorderedDispatcher c)).
Proof.
  constructor; simpl; [|by intros b ?%not_elem_of_nil|done].
  apply Forall_cons. split; [done|]. by apply Forall_replicate.
Qed.

(** At rest, the offset after the last settled message is committable. *)
Lemma rest_committable p ls (x : machine) :
  sound p ls x -> remembers p ls x -> in_flight (st x) p = false ->
  Committable (coord (st x)) !! p =
    (fun msg => wrap64 (Offset msg + 1)) <$> last (concat (messages <$> settled p ls)).
Proof.
  intros Hso Hre Hf. rewrite committable_lookup by by eapply sound_coord.
  destruct (so_inv _ _ _ _ _ Hso) as [g Hi].
  destruct (slot_of (coord (st x)) p) as [|off|off] eqn:Es; simpl.
  - destruct (settled p ls) as [|b l] eqn:El; [done|]. by destruct (re_settled _ _ _ Hre); [rewrite El|].
  - assert (Hb : in_flight (st x) p = true); [|congruence].
    apply (si_busy _ _ _ (mi_shared _ _ _ _ _ _ _ _ Hi)). by rewrite Es.
  - destruct (ac_done _ _ _ _ _ _ _ (mi_owned _ _ _ _ _ _ _ _ Hi) off eq_refl eq_refl Es)
      as (b & Hl & Hw & <-).
    apply last_Some in Hl as [before ->]. rewrite fmap_app, concat_app. simpl. rewrite app_nil_r.
    unfold wf_batch in Hw. destruct (last (messages b)) as [lst|] eqn:El; simpl in Hw; simplify_eq.
    rewrite last_app, El. simpl. by rewrite Hw.
Qed.

(** C4. Everything sent is settled.  Take any run of the dispatcher's
    goroutines with room in the channel for one batch of each partition, not
    closed and with no sleep interrupted, but with any answers of breaker and
    processor, any rebalances and any interleaving, after which the poll
    goroutine is in no call.  From there, while the breaker lets requests
    through, no interleaving of the workers and the linger timers goes on for
    ever; and where one stops, unless a worker has panicked, every message
    sent and not discarded by a revocation has been processed or given up, in
    order, and for a partition that was not reset the coordinator offers
    exactly the offset after the last of them for the next commit. *)
Theorem everything_sent_is_settled n c chs x ls :
  (0 < n)%nat -> fresh_coordinator c -> uses_only ps chs -> Forall undisturbed chs ->
  run_log cfg hasDLQ chs (start n (NewUnorderedDispatcher c)) = Some (x, ls) ->
  threads x !! 0%nat = Some PollIdle ->
  Acc (settles cfg hasDLQ) x /\
  forall chs' y ls', Forall settling chs' -> run_log cfg hasDLQ chs' x = Some (y, ls') ->
    panics y <> [] \/ (exists z, settles cfg hasDLQ z y) \/
    forall p, kept p (ls ++ ls') = Some (concat (messages <$> settled p (ls ++ ls'))) /\
      (~ Call (CallCoordinatorReset p) ∈ chs -> forall ms, kept p (ls ++ ls') = Some ms ->
       Committable (coord (st y)) !! p = (fun msg => wrap64 (Offset msg + 1)) <$> last ms).
Proof.
  intros Hn Hc Huse Hu Hr Hidle.
  destruct (settling_comes_to_rest cfg hasDLQ ps BatchSize_pos MaxRetries_nonneg capacity n c chs x ls
    Hn Hc Huse Hu Hr Hidle) as [Hacc Hend]. split; [done|]. intros chs' y ls' Hs Hr'.
  destruct (Hend chs' y ls' Hs Hr') as [?|[?|Hrest]]; [by left|by right; left|right; right].
  intros p. destruct (Hrest p) as (Hso & Hf & Hk). split; [done|]. intros Hp ms Hms.
  rewrite Hk in Hms. injection Hms as <-. apply rest_committable; [done| |done].
  assert (Hg : Forall (gentle known) chs) by (by apply undisturbed_gentle).
  assert (Hx : sound p ls x).
  { by apply (sound_run cfg hasDLQ ps BatchSize_pos MaxRetries_nonneg capacity p chs []
      (start n (NewUnorderedDispatcher c)) x ls); [apply start_sound| |]. }
  apply (run_remembered p chs' ls x y ls'); [done| |..|done].
  - apply (run_remembered p chs [] (start n (NewUnorderedDispatcher c)) x ls); [by apply start_sound| |done| |done].
    + apply start_remembers.
    + apply Forall_forall. intros ch Hch. destruct ch as [| k | |]; try done. intros ->. by apply Hp.
  - eapply Forall_impl; [exact Hs|]. intros ch. apply settling_gentle.
  - eapply Forall_impl; [exact Hs|]. by intros [].
Qed.
End Runs.

(** * Witness

    Three messages are sent: a full batch is queued, and the third message
    waits for its linger timer. *)
Definition waiting : list choice :=
  Call (CallSend 0 [demo_msg 0 10; demo_msg 0 11]) :: replicate 7 (Run 0 quietly) ++
  [Recv 1; Run 1 quietly; Run 1 quietly; Call (CallSend 0 [demo_msg 0 12])] ++ replicate 3 (Run 0 quietly).
Definition waiting_end := run_log demo_cfg true waiting (demo_start 1).

Lemma quietly_uninterrupted : uninterrupted quietly.
Proof. by intros X []. Qed.

Lemma waiting_fits : uses_only [0] waiting /\ Forall undisturbed waiting.
Proof.
  split; [|repeat (apply Forall_cons; split; [exact quietly_uninterrupted || exact I|]); by apply Forall_nil].
  split; [intros q msgs Hin|intros tps tp Hin]; unfold waiting in Hin;
    repeat (apply elem_of_cons in Hin as [Hin|Hin];
      [first [discriminate Hin | injection Hin as -> _; apply list_elem_of_here]|]);
    by apply not_elem_of_nil in Hin.
Qed.

Lemma everything_sent_is_settled_witness :
  exists x ls, waiting_end = Some (x, ls) /\ bufMessages (get_or_new 0 (st x)) = [demo_msg 0 12] /\
    settled 0 ls = [] /\ Acc (settles demo_cfg true) x /\
    forall chs' y ls', Forall settling chs' -> run_log demo_cfg true chs' x = Some (y, ls') ->
      panics y <> [] \/ (exists z, settles demo_cfg true z y) \/
      forall p, kept p (ls ++ ls') = Some (concat (messages <$> settled p (ls ++ ls'))) /\
        (~ Call (CallCoordinatorReset p) ∈ waiting -> forall ms, kept p (ls ++ ls') = Some ms ->
         Committable (coord (st y)) !! p = (fun msg => wrap64 (Offset msg + 1)) <$> last ms).
Proof.
  destruct waiting_end as [[x ls]|] eqn:E; [|vm_compute in E; discriminate]. exists x, ls.
  assert (Hq : bufMessages (get_or_new 0 (st x)) = [demo_msg 0 12] /\ settled 0 ls = [] /\
    threads x !! 0%nat = Some PollIdle) by (vm_compute in E; simplify_eq; by split_and!).
  destruct Hq as (Hb & Hs & Hi). do 3 (split; [done|]).
  apply (everything_sent_is_settled demo_cfg true [0] eq_refl ltac:(by vm_compute) ltac:(by vm_compute)
    1 NewCoordinator waiting x ls).
  - lia.
  - exact demo_fresh.
  - apply waiting_fits.
  - apply waiting_fits.
  - exact E.
  - exact Hi.
Defined.
