(* ===== verification/Degraded.v ===== *)
(** Degraded mode and health of the poll loop: the bitmask of reasons with
    its lock-free updates ([internal/pollloop/degraded.go]) and the liveness
    and readiness flags ([internal/pollloop/health.go]). *)
From S2P Require Import Prelude.

(** * The bitmask ([degraded.go]) *)

Definition DegradedReason := Z.    (* uint32 *)
Definition BrokerUnavailable : DegradedReason := Z.shiftl 1 0.
Definition TargetUnavailable : DegradedReason := Z.shiftl 1 1.

(** [old | reason] and [old &^ reason]. *)
Definition with_reason (reason old : Z) : Z := Z.lor old reason.
Definition without_reason (reason old : Z) : Z := Z.ldiff old reason.

(** [IsDegraded], [Has] and [Reasons], on the loaded word. *)
Definition IsDegraded (reasons : Z) : bool := negb (reasons =? 0).
Definition Has (reasons : Z) (reason : DegradedReason) : bool := negb (Z.land reasons reason =? 0).
Definition Reasons (reasons : Z) : DegradedReason := reasons.

Definition DegradedReason_String (r : DegradedReason) : string :=
  if r =? 0 then "none"
  else
    let s := if Has r BrokerUnavailable then "broker-unavailable" else "" in
    if Has r TargetUnavailable
    then (if String.eqb s "" then s else s +:+ ",") +:+ "target-unavailable"
    else s.

(** ** The compare-and-swap loops

    [Set] and [Clear] read the word, compute the new one and swap it in if
    the word has not changed meanwhile, or try again: for at most [fuel]
    tries, [false] when none succeeded. *)

Inductive no_query : Type -> Type := .

Definition compare_and_swap (old new word : Z) : outcome Z bool :=
  if word =? old then Returned true new else Returned false word.

Fixpoint cas_loop (fuel : nat) (f : Z -> Z) : prog no_query Z bool :=
  match fuel with
  | O => Ret false
  | Datatypes.S n =>
      let* old := gets id in
      let* swapped := act (compare_and_swap old (f old)) in
      if swapped : bool then Ret true else cas_loop n f
  end.

Definition Set_ (fuel : nat) (reason : DegradedReason) := cas_loop fuel (with_reason reason).
Definition Clear (fuel : nat) (reason : DegradedReason) := cas_loop fuel (without_reason reason).

(** Without interference the first try succeeds. *)
Lemma cas_loop_alone {O} (h : handler no_query O) n f o w :
  exec h (cas_loop (Datatypes.S n) f) o w = (Returned true (f w), o).
Proof. simpl. unfold compare_and_swap, id. by rewrite Z.eqb_refl. Qed.

(** ** Interference

    Between two actions of the loop the other goroutines change the word
    arbitrarily: [others] lists the word each action of the loop finds.  The
    result lists the words it leaves. *)
Fixpoint interfered {A} (c : prog no_query Z A) (others : list Z) : option A * list Z :=
  match c, others with
  | Ret a, _ => (Some a, [])
  | Act f k, w :: others =>
      match f w with
      | Returned x w' => let (r, ws) := interfered (k x) others in (r, w' :: ws)
      | Panicked _ w' => (None, [w'])
      end
  | _, _ => (None, [])
  end.

(** One atomic application of [f] at some point, no other change. *)
Inductive applied_once (f : Z -> Z) : list Z -> list Z -> Prop :=
| applied_now w : applied_once f [w] [f w]
| applied_later w ws ws' : applied_once f ws ws' -> applied_once f (w :: ws) (w :: ws').

Lemma applied_later_2 f w1 w2 ws ws' :
  applied_once f ws ws' -> applied_once f (w1 :: w2 :: ws) (w1 :: w2 :: ws').
Proof. intros. by do 2 constructor. Qed.

(** C38. [Set] and [Clear] are atomic under any interference: a loop that
    returns after the tries [others] changed the word exactly once, in its
    last action, by applying its update to the word it found there (which
    other goroutines may have changed since the loop last read it); the
    loop never writes otherwise. *)
Theorem cas_loop_linearizes n f others ws :
  interfered (cas_loop n f) others = (Some true, ws) ->
  applied_once f (take (length ws) others) ws.
Proof.
  revert others ws. induction n as [|n IH]; intros others ws; simpl; [done|].
  destruct others as [|old [|w others]]; simpl; try done.
  unfold compare_and_swap, id. destruct (Z.eqb_spec w old) as [->|Hne]; simpl.
  - destruct others; intros ?; simplify_eq; simpl; repeat constructor.
  - destruct (interfered (cas_loop n f) others) as [r ws'] eqn:E. intros ?. simplify_eq. simpl.
    apply applied_later_2. by apply IH.
Qed.

Lemma cas_loop_linearizes_witness :
  interfered (Set_ 3 TargetUnavailable) [0; 1; 1; 1] = (Some true, [0; 1; 1; 3]) /\
  applied_once (with_reason TargetUnavailable) [0; 1; 1; 1] [0; 1; 1; 3].
Proof.
  split; [reflexivity|].
  apply (cas_loop_linearizes 3 (with_reason TargetUnavailable) [0; 1; 1; 1] [0; 1; 1; 3]).
  reflexivity.
Defined.

(** ** The reasons are independent *)

Lemma with_testbit reason w i :
  Z.testbit (with_reason reason w) i = Z.testbit w i || Z.testbit reason i.
Proof. apply Z.lor_spec. Qed.
Lemma without_testbit reason w i :
  Z.testbit (without_reason reason w) i = Z.testbit w i && negb (Z.testbit reason i).
Proof. apply Z.ldiff_spec. Qed.

(** A word of the two known reasons. *)
Definition known (w : Z) : Prop := 0 <= w < 4.

Lemma known_cases w : known w -> w = 0 \/ w = 1 \/ w = 2 \/ w = 3.
Proof. unfold known. lia. Qed.

Definition is_reason (r : Z) : Prop := r = BrokerUnavailable \/ r = TargetUnavailable.

(** Decide a goal about concrete reasons. *)
Ltac reasons :=
  unfold is_reason in *;
  repeat match goal with
  | H : known ?w |- _ => apply known_cases in H as [-> | [-> | [-> | ->]]]
  | H : _ \/ _ |- _ => destruct H as [-> | ->]
  end;
  vm_compute; try tauto; try done.

(** The reasons form a set: setting a reason adds it and nothing else,
    clearing removes it and nothing else, whatever was set before, so that
    degraded mode lasts exactly until the last reason is cleared. *)
Theorem reasons_independent w r r' :
  known w -> is_reason r -> is_reason r' ->
  Has (with_reason r w) r' = (r' =? r) || Has w r' /\
  Has (without_reason r w) r' = negb (r' =? r) && Has w r' /\
  known (with_reason r w) /\ known (without_reason r w) /\
  IsDegraded (with_reason r w) = true /\
  IsDegraded (without_reason r w) =
    existsb (fun q => negb (q =? r) && Has w q) [BrokerUnavailable; TargetUnavailable].
Proof.
  intros Hw Hr Hr'. apply known_cases in Hw as [->|[->|[->| ->]]];
    destruct Hr as [-> | ->], Hr' as [-> | ->]; vm_compute; intuition discriminate.
Qed.

Lemma reasons_independent_witness :
  Has (without_reason TargetUnavailable 3) BrokerUnavailable = true /\
  IsDegraded (without_reason TargetUnavailable 3) = true /\
  known (without_reason TargetUnavailable 3).
Proof.
  destruct (reasons_independent 3 TargetUnavailable BrokerUnavailable)
    as (_ & Hh & _ & Hk & _ & Hd).
  - unfold known. lia.
  - by right.
  - by left.
  - split_and!; [exact Hh|exact Hd|exact Hk].
Defined.

(** * Health ([health.go]) *)

Record Health := mkHealth { live : bool; ready : bool; partitionsAssigned : bool }.

Definition SetLive (b : bool) (h : Health) : Health := mkHealth b (ready h) (partitionsAssigned h).
Definition SetReady (b : bool) (h : Health) : Health := mkHealth (live h) b (partitionsAssigned h).
Definition SetPartitionsAssigned (b : bool) (h : Health) : Health := mkHealth (live h) (ready h) b.
Definition IsLive (h : Health) : bool := live h.
Definition IsReady (h : Health) : bool := ready h && partitionsAssigned h.
