(* ===== verification/PollLoop.v ===== *)
(** The poll loop ([internal/pollloop/pollloop.go], [config.go],
    [kafka.go]): polling, dispatching, committing, backpressure, degraded
    mode, rebalance callbacks and shutdown.  The Kafka client, the dispatcher
    and the offset coordinator are the interfaces the code programs against:
    their methods are questions to the environment, and a run's questions
    are what the loop asks of them. *)
From S2P Require Import Prelude Types Degraded.

(** * State *)

Record Config := mkConfig {
  PollInterval : Z;
  CommitInterval : Z;
  CommitFailureThreshold : Z;
  ShutdownTimeout : Z
}.

Definition DefaultConfig : Config := mkConfig (100 * Millisecond) (5 * Second) 3 (25 * Second).

(** [internal/metrics/pollloop.go]. *)
Record PollLoopMetrics := mkPollLoopMetrics {
  MessagesPolled : gmap Z Z;
  PollErrors : Z;
  Commits : gmap Z Z;
  CommitFailures : Z;
  DegradedMode : Z;
  PartitionsAssigned : Z;
  Rebalances : Z;
  LastCommittedOffset : gmap Z spec_float;
  PartitionsPaused : Z
}.

(** [pausedPartitions] only ever maps a partition to [true]. *)
Record PollLoop := mkPollLoop {
  health : Health;
  degraded : DegradedReason;
  commitFailures : Z;
  assignedCount : Z;
  pausedPartitions : gset Z;
  m : PollLoopMetrics
}.

Definition set_health x s := mkPollLoop x (degraded s) (commitFailures s) (assignedCount s)
  (pausedPartitions s) (m s).
Definition set_degraded x s := mkPollLoop (health s) x (commitFailures s) (assignedCount s)
  (pausedPartitions s) (m s).
Definition set_commitFailures x s := mkPollLoop (health s) (degraded s) x (assignedCount s)
  (pausedPartitions s) (m s).
Definition set_assignedCount x s := mkPollLoop (health s) (degraded s) (commitFailures s) x
  (pausedPartitions s) (m s).
Definition set_paused x s := mkPollLoop (health s) (degraded s) (commitFailures s)
  (assignedCount s) x (m s).
Definition upd_m (f : PollLoopMetrics -> PollLoopMetrics) s := mkPollLoop (health s) (degraded s)
  (commitFailures s) (assignedCount s) (pausedPartitions s) (f (m s)).

Definition add_MessagesPolled (p d : Z) (x : PollLoopMetrics) := mkPollLoopMetrics
  (vec_add p d (MessagesPolled x)) (PollErrors x) (Commits x) (CommitFailures x) (DegradedMode x)
  (PartitionsAssigned x) (Rebalances x) (LastCommittedOffset x) (PartitionsPaused x).
Definition inc_PollErrors (x : PollLoopMetrics) := mkPollLoopMetrics (MessagesPolled x)
  (PollErrors x + 1) (Commits x) (CommitFailures x) (DegradedMode x) (PartitionsAssigned x)
  (Rebalances x) (LastCommittedOffset x) (PartitionsPaused x).
Definition inc_CommitFailures (x : PollLoopMetrics) := mkPollLoopMetrics (MessagesPolled x)
  (PollErrors x) (Commits x) (CommitFailures x + 1) (DegradedMode x) (PartitionsAssigned x)
  (Rebalances x) (LastCommittedOffset x) (PartitionsPaused x).
Definition record_commit (p off : Z) (x : PollLoopMetrics) := mkPollLoopMetrics (MessagesPolled x)
  (PollErrors x) (vec_add p 1 (Commits x)) (CommitFailures x) (DegradedMode x)
  (PartitionsAssigned x) (Rebalances x) (<[p := float64 off]> (LastCommittedOffset x))
  (PartitionsPaused x).
Definition set_DegradedMode (d : Z) (x : PollLoopMetrics) := mkPollLoopMetrics (MessagesPolled x)
  (PollErrors x) (Commits x) (CommitFailures x) d (PartitionsAssigned x) (Rebalances x)
  (LastCommittedOffset x) (PartitionsPaused x).
Definition add_PartitionsAssigned (d : Z) (x : PollLoopMetrics) := mkPollLoopMetrics
  (MessagesPolled x) (PollErrors x) (Commits x) (CommitFailures x) (DegradedMode x)
  (PartitionsAssigned x + d) (Rebalances x) (LastCommittedOffset x) (PartitionsPaused x).
Definition inc_Rebalances (x : PollLoopMetrics) := mkPollLoopMetrics (MessagesPolled x)
  (PollErrors x) (Commits x) (CommitFailures x) (DegradedMode x) (PartitionsAssigned x)
  (Rebalances x + 1) (LastCommittedOffset x) (PartitionsPaused x).
Definition set_PartitionsPaused (d : Z) (x : PollLoopMetrics) := mkPollLoopMetrics
  (MessagesPolled x) (PollErrors x) (Commits x) (CommitFailures x) (DegradedMode x)
  (PartitionsAssigned x) (Rebalances x) (LastCommittedOffset x) d.

Definition no_metrics : PollLoopMetrics := mkPollLoopMetrics ∅ 0 ∅ 0 0 0 0 ∅ 0.

(** [New], once its nil checks passed. *)
Definition New (h : Health) : PollLoop := mkPollLoop h 0 0 0 ∅ no_metrics.

(** * The interfaces

    [KafkaConsumer] (K), [dispatcher.Dispatcher] (D), [offset.Coordinator]
    (C).  [Poll] fires the rebalance callbacks it answers with before it
    returns; [RangeOrder] is the order in which a Go map is ranged over. *)

Inductive callback :=
| Assigned (tps : list TopicPartition)
| Revoked (tps : list TopicPartition).

Inductive iface : Type -> Type :=
| KPoll (timeoutMs : Z) : iface (list callback * (list Message + error))
| KCommitOffsets (offsets : gmap Z Z) : iface (option error)
| KPause (partitions : list Z) : iface (option error)
| KResume (partitions : list Z) : iface (option error)
| KAssignment : iface (list TopicPartition + error)
| KClose : iface (option error)
| DSend (partition : Z) (msgs : list Message) : iface (option error)
| DOnPartitionsAssigned (tps : list TopicPartition) : iface unit
| DOnPartitionsRevoked (tps : list TopicPartition) : iface unit
| DClose : iface (option error)
| CCommittable : iface (gmap Z Z)
| CReset (partition : Z) : iface unit
| RangeOrder (keys : list Z) : iface {l : list Z | l ≡ₚ keys}.

Local Abbreviation P := (prog iface PollLoop).

(** * Operations *)

Fixpoint for_each {X} (l : list X) (f : X -> P unit) : P unit :=
  match l with
  | [] => Ret tt
  | x :: l => let* _ := f x in for_each l f
  end.

(** [groupByPartition]. *)
Definition group_one (g : gmap Z (list Message)) (msg : Message) : gmap Z (list Message) :=
  <[Partition msg := default [] (g !! Partition msg) ++ [msg]]> g.
Definition groupByPartition (msgs : list Message) : gmap Z (list Message) :=
  foldl group_one ∅ msgs.

(** ** Pausing and resuming *)

Definition pausePartition (partition : Z) : P unit :=
  let* already := gets (fun s => bool_decide (partition ∈ pausedPartitions s)) in
  if already : bool then Ret tt
  else
    let* err := ask (KPause [partition]) in
    match err with
    | Some _ => Ret tt
    | None => modify (fun s =>
        upd_m (fun x => set_PartitionsPaused (PartitionsPaused x + 1) x)
          (set_paused ({[partition]} ∪ pausedPartitions s) s))
    end.

Definition pauseAllPartitions : P unit :=
  let* res := ask KAssignment in
  match res with
  | inr _ => Ret tt
  | inl assignment =>
      let partitions := List.map tpPartition assignment in
      if len partitions =? 0 then Ret tt
      else
        let* _ := ask (KPause partitions) in
        modify (upd_m (set_PartitionsPaused (len partitions)))
  end.

Definition resumeAllPartitions : P unit :=
  let* res := ask KAssignment in
  match res with
  | inr _ => Ret tt
  | inl assignment =>
      let partitions := List.map tpPartition assignment in
      if len partitions =? 0 then Ret tt
      else
        let* _ := ask (KResume partitions) in
        modify (fun s => set_paused ∅ (upd_m (set_PartitionsPaused 0) s))
  end.

Definition resumeAllPausedPartitions : P unit :=
  let* paused := gets pausedPartitions in
  if Z.of_nat (size paused) =? 0 then Ret tt
  else
    let* order := ask (RangeOrder (elements paused)) in
    let partitions := proj1_sig order in
    let* err := ask (KResume partitions) in
    match err with
    | Some _ => Ret tt
    | None => modify (fun s =>
        set_paused (pausedPartitions s ∖ list_to_set partitions)
          (upd_m (fun x => set_PartitionsPaused (PartitionsPaused x - len partitions) x) s))
    end.

(** ** Degraded mode *)

Definition enterDegradedMode (reason : DegradedReason) : P unit :=
  let* wasDegraded := gets (fun s => IsDegraded (degraded s)) in
  let* _ := modify (fun s => set_degraded (with_reason reason (degraded s)) s) in
  if wasDegraded : bool then Ret tt
  else
    let* _ := pauseAllPartitions in
    let* _ := modify (fun s => set_health (SetReady false (health s)) s) in
    modify (upd_m (set_DegradedMode 1)).

Definition exitDegradedMode (reason : DegradedReason) : P unit :=
  let* _ := modify (fun s => set_degraded (without_reason reason (degraded s)) s) in
  let* still := gets (fun s => IsDegraded (degraded s)) in
  if still : bool then Ret tt
  else
    let* _ := resumeAllPartitions in
    let* _ := modify (fun s => set_health (SetReady true (health s)) s) in
    modify (upd_m (set_DegradedMode 0)).

Definition onDispatcherReady : P unit :=
  let* d := gets (fun s => IsDegraded (degraded s)) in
  if d : bool then Ret tt else resumeAllPausedPartitions.

Definition onCircuitStateChanged (state : circuit.State) : P unit :=
  let* has := gets (fun s => Has (degraded s) TargetUnavailable) in
  if state =? circuit.Open then
    if has : bool then Ret tt else enterDegradedMode TargetUnavailable
  else if state =? circuit.Closed then
    if has : bool then exitDegradedMode TargetUnavailable else Ret tt
  else Ret tt.

(** ** Committing *)

Definition record_commits (offsets : gmap Z Z) (x : PollLoopMetrics) : PollLoopMetrics :=
  map_fold record_commit x offsets.

(** [commitOffsets] after [CommitOffsets] returned an error, or nil. *)
Definition commit_failed (cfg : Config) : P unit :=
  let* _ := modify (fun s =>
    upd_m inc_CommitFailures (set_commitFailures (commitFailures s + 1) s)) in
  let* enter := gets (fun s =>
    (CommitFailureThreshold cfg <=? commitFailures s)
    && negb (Has (degraded s) BrokerUnavailable)) in
  if enter : bool then enterDegradedMode BrokerUnavailable else Ret tt.

Definition commit_succeeded (offsets : gmap Z Z) : P unit :=
  let* _ := modify (fun s => upd_m (record_commits offsets) (set_commitFailures 0 s)) in
  let* has := gets (fun s => Has (degraded s) BrokerUnavailable) in
  if has : bool then exitDegradedMode BrokerUnavailable else Ret tt.

Definition commitOffsets (cfg : Config) : P unit :=
  let* offsets := ask CCommittable in
  if Z.of_nat (size offsets) =? 0 then Ret tt
  else
    let* err := ask (KCommitOffsets offsets) in
    match err with
    | Some _ => commit_failed cfg
    | None => commit_succeeded offsets
    end.

(** ** Rebalance callbacks *)

Definition OnPartitionsAssigned (tps : list TopicPartition) : P unit :=
  let* _ := modify (fun s =>
    upd_m (add_PartitionsAssigned (len tps))
      (set_health (SetPartitionsAssigned true (health s))
        (set_assignedCount (assignedCount s + len tps) s))) in
  ask (DOnPartitionsAssigned tps).

(** The committable offsets of the revoked partitions. *)
Definition revoked_offsets (tps : list TopicPartition) (committable : gmap Z Z) : gmap Z Z :=
  filter (fun kv => kv.1 ∈ tpPartition <$> tps) committable.

Definition uncount (tps : list TopicPartition) (s : PollLoop) : PollLoop :=
  let n := assignedCount s - len tps in
  let s1 := upd_m (add_PartitionsAssigned (- len tps)) (upd_m inc_Rebalances s) in
  if n <=? 0 then set_health (SetPartitionsAssigned false (health s)) (set_assignedCount 0 s1)
  else set_assignedCount n s1.

Definition reset_one (tp : TopicPartition) : P unit :=
  let* _ := ask (CReset (tpPartition tp)) in
  modify (fun s => set_paused (pausedPartitions s ∖ {[tpPartition tp]}) s).

Definition OnPartitionsRevoked (tps : list TopicPartition) : P unit :=
  let* _ := modify (uncount tps) in
  let* _ := ask (DOnPartitionsRevoked tps) in
  let* allCommittable := ask CCommittable in
  let revokedOffsets := revoked_offsets tps allCommittable in
  let* _ := (if 0 <? Z.of_nat (size revokedOffsets)
             then (let* _ := ask (KCommitOffsets revokedOffsets) in Ret tt)
             else Ret tt) in
  for_each tps reset_one.

Definition run_callback (cb : callback) : P unit :=
  match cb with
  | Assigned tps => OnPartitionsAssigned tps
  | Revoked tps => OnPartitionsRevoked tps
  end.

(** ** Polling *)

(** [kafka.Poll], with the callbacks it fires. *)
Definition kafka_poll (cfg : Config) : P (list Message + error) :=
  let* ans := ask (KPoll (PollInterval cfg ÷ Millisecond)) in
  let* _ := for_each ans.1 run_callback in
  Ret ans.2.

(** Dispatch one partition's messages. *)
Definition on_send_result (partition : Z) (err : option error) : P unit :=
  match err with
  | None => Ret tt
  | Some e => if errors_Is e ErrBackpressure then pausePartition partition else Ret tt
  end.

Definition dispatch_group (grouped : gmap Z (list Message)) (partition : Z) : P unit :=
  let* paused := gets (fun s => bool_decide (partition ∈ pausedPartitions s)) in
  if paused : bool then Ret tt
  else
    let* err := ask (DSend partition (default [] (grouped !! partition))) in
    on_send_result partition err.

Definition count_polled (grouped : gmap Z (list Message)) (x : PollLoopMetrics) : PollLoopMetrics :=
  map_fold (fun p msgs => add_MessagesPolled p (len msgs)) x grouped.

Definition poll (cfg : Config) : P unit :=
  let* d := gets (fun s => IsDegraded (degraded s)) in
  if d : bool then
    let* res := kafka_poll cfg in
    match res with
    | inr _ => modify (upd_m inc_PollErrors)
    | inl _ => Ret tt
    end
  else
    let* res := kafka_poll cfg in
    match res with
    | inr _ => modify (upd_m inc_PollErrors)
    | inl msgs =>
        if len msgs =? 0 then Ret tt
        else
          let* _ := modify (upd_m (count_polled (groupByPartition msgs))) in
          let grouped := groupByPartition msgs in
          let* order := ask (RangeOrder (map_to_list grouped).*1) in
          for_each (proj1_sig order) (dispatch_group grouped)
    end.

(** ** Shutdown and the loop *)

Definition shutdown : P (option error) :=
  let* dispatcherErr := ask DClose in
  let* offsets := ask CCommittable in
  let* _ := (if 0 <? Z.of_nat (size offsets)
             then (let* _ := ask (KCommitOffsets offsets) in Ret tt)
             else Ret tt) in
  let* _ := ask KClose in
  let* _ := modify (fun s => set_health (SetReady false (health s)) s) in
  Ret dispatcherErr.

(** What the [select] of [Run] receives, until the context is done. *)
Inductive event := PollTick | CommitTick | DispatcherReady | CircuitStateChanged (st : circuit.State).

Definition on_event (cfg : Config) (e : event) : P unit :=
  match e with
  | PollTick => poll cfg
  | CommitTick => commitOffsets cfg
  | DispatcherReady => onDispatcherReady
  | CircuitStateChanged st => onCircuitStateChanged st
  end.

Definition started (s : PollLoop) : PollLoop :=
  set_health (SetReady true (SetLive true (health s))) s.

(** [time.NewTicker] panics on an interval that is not positive; the deferred
    [SetLive(false)] runs all the same. *)
Definition new_ticker (d : Z) : P unit :=
  act (fun s => if d <=? 0
    then Panicked (PanicMsg "non-positive interval for NewTicker") (set_health (SetLive false (health s)) s)
    else Returned tt s).

Definition new_tickers (cfg : Config) : P unit :=
  let* _ := new_ticker (PollInterval cfg) in new_ticker (CommitInterval cfg).

Definition positive_intervals (cfg : Config) : Prop := 0 < PollInterval cfg /\ 0 < CommitInterval cfg.

Definition Run (cfg : Config) (events : list event) : P (option error) :=
  let* _ := modify started in
  let* _ := new_tickers cfg in
  let* _ := for_each events (on_event cfg) in
  let* err := shutdown in
  let* _ := modify (fun s => set_health (SetLive false (health s)) s) in
  Ret err.

#[global] Arguments for_each : simpl never.
#[global] Arguments pausePartition : simpl never.
#[global] Arguments pauseAllPartitions : simpl never.
#[global] Arguments resumeAllPartitions : simpl never.
#[global] Arguments resumeAllPausedPartitions : simpl never.
#[global] Arguments enterDegradedMode : simpl never.
#[global] Arguments exitDegradedMode : simpl never.
#[global] Arguments kafka_poll : simpl never.
#[global] Arguments run_callback : simpl never.

(** * Reasoning *)

Implicit Types (s : PollLoop) (l : list (exchange iface)).

Lemma wp_for_each {X} (xs : list X) (f : X -> P unit) (I : PollLoop -> list (exchange iface) -> Prop) s l :
  (forall x s l, x ∈ xs -> I s l -> wp (f x) (fun _ s' l' => I s' l') s l) ->
  I s l -> wp (for_each xs f) (fun _ s' l' => I s' l') s l.
Proof.
  revert s l. induction xs as [|x xs IH]; intros s l Hf HI; [done|].
  change (for_each (x :: xs) f) with (let* _ := f x in for_each xs f).
  apply wp_bind. eapply wp_mono; [|apply Hf; [apply list_elem_of_here|exact HI]].
  intros [] s' l' HI'. apply IH; [|done]. intros y s1 l1 Hy. apply Hf. by apply list_elem_of_further.
Qed.

(** The part of the state degraded mode is about. *)
Definition mode_of s := (health s, degraded s, DegradedMode (m s), assignedCount s).

Definition same_mode s s' : Prop := mode_of s' = mode_of s.

(** Case analysis along the paths of a routine. *)
Ltac paths :=
  repeat (simpl; match goal with
  | |- forall x : _ + _, _ => intros [?|?]
  | |- forall x : option _, _ => intros [?|]
  | |- forall x : unit, _ => intros []
  | |- forall x : {_ | _}, _ => intros [? ?]
  | |- forall x : gmap _ _, _ => intros ?
  | |- wp (if ?b then _ else _) _ _ _ => let E := fresh "E" in destruct b eqn:E
  end).

Lemma pausePartition_mode p s l : wp (pausePartition p) (fun _ s' _ => same_mode s s') s l.
Proof. unfold pausePartition. paths; done. Qed.

Lemma pauseAll_mode s l : wp pauseAllPartitions (fun _ s' _ => same_mode s s') s l.
Proof. unfold pauseAllPartitions. paths; done. Qed.

Lemma resumeAll_mode s l : wp resumeAllPartitions (fun _ s' _ => same_mode s s') s l.
Proof. unfold resumeAllPartitions. paths; done. Qed.

Lemma resumePaused_mode s l : wp resumeAllPausedPartitions (fun _ s' _ => same_mode s s') s l.
Proof. unfold resumeAllPausedPartitions. paths; done. Qed.

(** ** The degraded mode invariant *)

(** The partitions the callbacks counted, and the flag they raise. *)
Definition gate s : Prop :=
  0 <= assignedCount s /\ (0 < assignedCount s -> partitionsAssigned (health s) = true).

Record mode_inv s : Prop := {
  mi_known : known (degraded s);
  mi_ready : ready (health s) = negb (IsDegraded (degraded s));
  mi_gauge : DegradedMode (m s) = (if IsDegraded (degraded s) then 1 else 0);
  mi_gate : gate s
}.

(** Callbacks and counters leave it alone. *)
Definition same_readiness s s' : Prop :=
  ready (health s') = ready (health s) /\ live (health s') = live (health s) /\
  degraded s' = degraded s /\ DegradedMode (m s') = DegradedMode (m s) /\ (gate s -> gate s').

Lemma same_mode_readiness s s' : same_mode s s' -> same_readiness s s'.
Proof. unfold same_mode, mode_of, same_readiness, gate. intros E. injection E as -> -> -> ->. done. Qed.

Lemma same_readiness_trans s1 s2 s3 :
  same_readiness s1 s2 -> same_readiness s2 s3 -> same_readiness s1 s3.
Proof.
  unfold same_readiness. intros (?&?&?&?&?) (?&?&?&?&?). do 4 (split; [congruence|]). auto.
Qed.

Lemma same_readiness_inv s s' : same_readiness s s' -> mode_inv s -> mode_inv s'.
Proof. intros (Hr & _ & Hd & Hg & Ht) [? ? ? ?]. constructor; rewrite ?Hd, ?Hr, ?Hg; auto. Qed.

Lemma same_readiness_refl s : same_readiness s s.
Proof. by unfold same_readiness. Qed.

(** [enterDegradedMode] and [exitDegradedMode], by their effect on the
    reasons. *)
Lemma enter_mode r s l :
  mode_inv s -> is_reason r ->
  wp (enterDegradedMode r) (fun _ s' _ => mode_inv s' /\
    degraded s' = with_reason r (degraded s) /\ live (health s') = live (health s)) s l.
Proof.
  intros [Hk Hr Hg Ht] Hre.
  destruct (reasons_independent (degraded s) r r Hk Hre Hre) as (_ & _ & Hk' & _ & Hd & _).
  unfold enterDegradedMode. rewrite wp_gets, wp_modify.
  destruct (IsDegraded (degraded s)) eqn:E.
  - simpl. split_and!; [|done|done]. constructor; simpl; [done|by rewrite Hd|by rewrite Hd|exact Ht].
  - eapply wp_bind_mono; [apply pauseAll_mode|].
    intros [] s' l' Hs. apply same_mode_readiness in Hs as (_ & Hl' & Hd' & _ & Ht'). simpl in *.
    split_and!; [|done|done].
    constructor; simpl; rewrite ?Hd'; [done|by rewrite Hd|by rewrite Hd|by apply Ht'].
Qed.

Lemma exit_mode r s l :
  mode_inv s -> is_reason r ->
  wp (exitDegradedMode r) (fun _ s' _ => mode_inv s' /\
    degraded s' = without_reason r (degraded s) /\ live (health s') = live (health s)) s l.
Proof.
  intros [Hk Hr Hg Ht] Hre.
  destruct (reasons_independent (degraded s) r r Hk Hre Hre) as (_ & _ & _ & Hk' & _ & _).
  unfold exitDegradedMode. rewrite wp_modify, wp_gets.
  destruct (IsDegraded (degraded (set_degraded _ s))) eqn:E; simpl in E.
  - simpl. split_and!; [|done|done].
    assert (Hd : IsDegraded (degraded s) = true).
    { destruct (IsDegraded (degraded s)) eqn:E'; [done|]. exfalso. revert E E'. clear -Hk Hre.
      apply known_cases in Hk as [->|[->|[->| ->]]]; destruct Hre as [-> | ->]; vm_compute; done. }
    rewrite Hd in Hr, Hg. constructor; simpl; [done|by rewrite E|by rewrite E|exact Ht].
  - eapply wp_bind_mono; [apply resumeAll_mode|].
    intros [] s' l' Hs. apply same_mode_readiness in Hs as (_ & Hl' & Hd' & _ & Ht'). simpl in *.
    split_and!; [|done|done].
    constructor; simpl; rewrite ?Hd'; [done|by rewrite E|by rewrite E|by apply Ht'].
Qed.

(** ** What a routine leaves alone *)

Lemma record_commits_mode offs x : DegradedMode (record_commits offs x) = DegradedMode x.
Proof.
  unfold record_commits.
  by apply (map_fold_weak_ind (fun r _ => DegradedMode r = DegradedMode x)); [|intros].
Qed.

Lemma count_polled_mode g x : DegradedMode (count_polled g x) = DegradedMode x.
Proof.
  unfold count_polled.
  by apply (map_fold_weak_ind (fun r _ => DegradedMode r = DegradedMode x)); [|intros].
Qed.

Lemma wp_steady_each {X} (xs : list X) (f : X -> P unit) s l :
  (forall x s l, x ∈ xs -> wp (f x) (fun _ s' _ => same_readiness s s') s l) ->
  wp (for_each xs f) (fun _ s' _ => same_readiness s s') s l.
Proof.
  intros Hf. apply (wp_for_each xs f (fun s' _ => same_readiness s s')); [|apply same_readiness_refl].
  intros x s1 l1 Hx H1. eapply wp_mono; [|by apply Hf].
  intros [] s' l' H'. by eapply same_readiness_trans.
Qed.

Lemma callback_readiness cb s l : wp (run_callback cb) (fun _ s' _ => same_readiness s s') s l.
Proof.
  destruct cb as [tps|tps]; unfold run_callback.
  - intros []. do 4 (split; [done|]). intros [? _]. pose proof (len_nonneg tps). split; simpl; [lia|done].
  - unfold OnPartitionsRevoked. rewrite wp_modify.
    assert (Hu : same_readiness s (uncount tps s)).
    { pose proof (len_nonneg tps). unfold uncount, same_readiness, gate.
      destruct (Z.leb_spec (assignedCount s - len tps) 0); simpl; do 4 (split; [done|]); [lia|].
      intros [? Hp]. split; [lia|]. intros _. apply Hp. lia. }
    rewrite wp_ask. intros []. rewrite wp_ask. intros c. apply (wp_bind_mono _ _ (fun _ s' _ => s' = uncount tps s)).
    { by destruct (0 <? Z.of_nat (size (revoked_offsets tps c))). }
    intros [] s' l' ->. eapply wp_mono; [|apply wp_steady_each; by intros tp s1 l1 _ []].
    intros [] s' l1 H'. by eapply same_readiness_trans.
Qed.

Lemma kafka_poll_readiness cfg s l :
  wp (kafka_poll cfg) (fun _ s' _ => same_readiness s s') s l.
Proof.
  unfold kafka_poll. rewrite wp_ask. intros ans. apply (wp_bind_mono _ _ (fun _ s' _ => same_readiness s s')).
  - apply wp_steady_each. intros cb s1 l1 _. apply callback_readiness.
  - done.
Qed.

Lemma dispatch_group_readiness g p s l :
  wp (dispatch_group g p) (fun _ s' _ => same_readiness s s') s l.
Proof.
  unfold dispatch_group. rewrite wp_gets. destruct (bool_decide _); [apply same_readiness_refl|].
  rewrite wp_ask. intros err. unfold on_send_result. destruct err as [e|]; [|apply same_readiness_refl].
  destruct (errors_Is e ErrBackpressure); [|apply same_readiness_refl].
  eapply wp_mono; [|apply pausePartition_mode]. intros [] s' l'. apply same_mode_readiness.
Qed.

Lemma poll_readiness cfg s l : wp (poll cfg) (fun _ s' _ => same_readiness s s') s l.
Proof.
  unfold poll. rewrite wp_gets.
  destruct (IsDegraded (degraded s)); (eapply wp_bind_mono; [apply kafka_poll_readiness|]);
    intros [msgs|e] s1 l1 H1; try exact H1.
  destruct (len msgs =? 0); [exact H1|]. rewrite wp_modify, wp_ask. intros [order Ho].
  eapply wp_mono; [|apply wp_steady_each; intros p s2 l2 _; apply dispatch_group_readiness].
  intros [] s2 l2 H2. eapply same_readiness_trans; [|exact H2].
  eapply same_readiness_trans; [exact H1|]. split_and!; try done. simpl. apply count_polled_mode.
Qed.

Lemma commit_failed_inv cfg s l :
  mode_inv s ->
  wp (commit_failed cfg) (fun _ s' _ => mode_inv s' /\ live (health s') = live (health s)) s l.
Proof.
  intros Hi. unfold commit_failed. rewrite wp_modify, wp_gets. set (s1 := upd_m _ _).
  assert (Hi1 : mode_inv s1) by (destruct Hi; by constructor).
  destruct (_ && _); [|done].
  eapply wp_mono; [|apply enter_mode; [done|by left]]. intros [] s' l' (? & _ & ?). done.
Qed.

Lemma commit_succeeded_inv offs s l :
  mode_inv s ->
  wp (commit_succeeded offs) (fun _ s' _ => mode_inv s' /\ live (health s') = live (health s)) s l.
Proof.
  intros Hi. unfold commit_succeeded. rewrite wp_modify, wp_gets. set (s1 := upd_m _ _).
  assert (Hi1 : mode_inv s1).
  { destruct Hi. constructor; simpl; rewrite ?record_commits_mode; done. }
  destruct (Has _ _); [|done].
  eapply wp_mono; [|apply exit_mode; [done|by left]]. intros [] s' l' (? & _ & ?). done.
Qed.

Lemma on_event_inv cfg e s l :
  mode_inv s ->
  wp (on_event cfg e) (fun _ s' _ => mode_inv s' /\ live (health s') = live (health s)) s l.
Proof.
  intros Hi. destruct e as [| | |st]; unfold on_event.
  - eapply wp_mono; [|apply poll_readiness]. intros [] s' l' Hs.
    split; [by eapply same_readiness_inv|apply Hs].
  - unfold commitOffsets. rewrite wp_ask. intros offs. destruct (_ =? 0); [done|].
    rewrite wp_ask. intros [e|]; [by apply commit_failed_inv|by apply commit_succeeded_inv].
  - unfold onDispatcherReady. rewrite wp_gets. destruct (IsDegraded _); [done|].
    eapply wp_mono; [|apply resumePaused_mode]. intros [] s' l' Hs. apply same_mode_readiness in Hs.
    split; [by eapply same_readiness_inv|apply Hs].
  - unfold onCircuitStateChanged. rewrite wp_gets.
    destruct (st =? circuit.Open), (Has (degraded s) TargetUnavailable); try done.
    + eapply wp_mono; [|apply enter_mode; [done|by right]]. intros [] s' l' (? & _ & ?). done.
    + destruct (st =? circuit.Closed); [|done].
      eapply wp_mono; [|apply exit_mode; [done|by right]]. intros [] s' l' (? & _ & ?). done.
    + by destruct (st =? circuit.Closed).
Qed.

(** [shutdown]: what it asks, in order, and what it returns. *)
Lemma shutdown_wp s l :
  wp shutdown (fun r s' l' => s' = set_health (SetReady false (health s)) s /\
    exists offs commit closed,
      l' = l ++ [asked DClose r; asked CCommittable offs] ++ commit ++ [asked KClose closed] /\
      if decide (offs = ∅) then commit = []
      else exists err, commit = [asked (KCommitOffsets offs) err]) s l.
Proof.
  unfold shutdown. rewrite wp_ask. intros r. rewrite wp_ask. intros offs.
  apply (wp_bind_mono _ _ (fun _ s' l' => s' = s /\ exists commit,
    l' = (l ++ [asked DClose r; asked CCommittable offs]) ++ commit /\
    if decide (offs = ∅) then commit = []
    else exists err, commit = [asked (KCommitOffsets offs) err])).
  - rewrite <- app_assoc. simpl. destruct (Z.ltb_spec 0 (Z.of_nat (size offs))) as [Hs|Hs]; simpl.
    + intros err. split; [done|]. eexists. split; [done|].
      rewrite decide_False; [eauto|]. intros ->. rewrite map_size_empty in Hs. lia.
    + split; [done|]. exists []. split; [by rewrite app_nil_r|].
      rewrite decide_True; [done|]. apply map_size_empty_inv. lia.
  - intros [] s' l' (-> & commit & -> & Hc) closed. simpl. split; [done|].
    exists offs, commit, closed. split; [|done]. by rewrite <- !app_assoc.
Qed.

Lemma new_tickers_wp cfg s l :
  positive_intervals cfg -> wp (new_tickers cfg) (fun _ s' l' => s' = s /\ l' = l) s l.
Proof.
  intros [H1 H2]. unfold new_tickers. simpl. rewrite (proj2 (Z.leb_gt _ _) H1). simpl.
  by rewrite (proj2 (Z.leb_gt _ _) H2).
Qed.

(** A loop that starts with nothing degraded runs to its end, whatever it
    receives, and its last call is the Kafka client's [Close]. *)
Lemma Run_closes cfg events h :
  positive_intervals cfg ->
  wp (Run cfg events) (fun _ _ l' => exists pre closed, l' = pre ++ [asked KClose closed]) (New h) [].
Proof.
  intros Hiv. unfold Run. rewrite wp_modify. eapply wp_bind_mono; [by apply new_tickers_wp|].
  intros [] s0 l0 [-> ->]. apply (wp_bind_mono _ _ (fun _ s' _ => mode_inv s')).
  { apply (wp_for_each _ _ (fun s' _ => mode_inv s')); [|by constructor].
    intros e s1 l1 _ H1. eapply wp_mono; [|by apply on_event_inv]. by intros [] s2 l2 [? _]. }
  intros [] s1 l1 _. eapply wp_bind_mono; [apply shutdown_wp|].
  intros r s2 l2 [_ (offs & commit & closed & -> & _)]. simpl.
  exists (l1 ++ asked DClose r :: asked CCommittable offs :: commit), closed. by rewrite <- app_assoc.
Qed.

(** * Properties *)

(** Readiness follows degraded mode.  Whatever the loop receives and
    whatever its dependencies answer, no event panics or blocks it, and
    between any two events the service reports ready exactly when no degraded
    reason is set and a partition is assigned, the gauge says the same, and
    the loop is live; [Run] returns, and then it is neither live nor ready. *)
Theorem Run_health {O} (h : handler iface O) cfg events o s :
  positive_intervals cfg -> degraded s = 0 -> DegradedMode (m s) = 0 -> gate s ->
  (exists s' o', exec h (for_each events (on_event cfg)) o (started s) = (Returned tt s', o') /\
     mode_inv s' /\ IsLive (health s') = true /\
     IsReady (health s') = negb (IsDegraded (degraded s')) && partitionsAssigned (health s')) /\
  (exists r s' o', exec h (Run cfg events) o s = (Returned r s', o') /\
     IsLive (health s') = false /\ IsReady (health s') = false).
Proof.
  intros Hiv Hd Hg Ht.
  assert (Hi : mode_inv (started s)).
  { constructor; simpl; rewrite ?Hd, ?Hg; [unfold known; lia|done|done|done]. }
  assert (Hloop : forall l, wp (for_each events (on_event cfg))
    (fun _ s' _ => mode_inv s' /\ live (health s') = true) (started s) l).
  { intros l. apply (wp_for_each _ _ (fun s' _ => mode_inv s' /\ live (health s') = true)); [|done].
    intros e s1 l1 _ [H1 Hl]. eapply wp_mono; [|by apply on_event_inv]. intros [] s2 l2 [? ?].
    split; congruence. }
  split.
  - destruct (wp_exec h _ _ o _ [] (Hloop [])) as ([] & s' & o' & Hx & _ & Hs' & Hl).
    exists s', o'. split_and!; [done|done|done|]. unfold IsReady. by rewrite (mi_ready _ Hs').
  - assert (Hrun : wp (Run cfg events)
      (fun _ s' _ => IsLive (health s') = false /\ IsReady (health s') = false) s []).
    { unfold Run. rewrite wp_modify. eapply wp_bind_mono; [by apply new_tickers_wp|].
      intros [] s0 l0 [-> ->]. eapply wp_bind_mono; [apply Hloop|]. intros [] s1 l1 _.
      eapply wp_bind_mono; [apply shutdown_wp|]. intros r s2 l2 [-> _]. done. }
    destruct (wp_exec h _ _ o _ [] Hrun) as (r & s' & o' & Hx & _ & Hs'). by exists r, s', o'.
Qed.

(** ** Reading a trace *)

Definition commit_answer (x : exchange iface) : option (option error) :=
  match x with
  | existT X (e, a) =>
      match e in iface Y return Y -> option (option error) with
      | KCommitOffsets _ => fun a => Some a
      | _ => fun _ => None
      end a
  end.
Definition commit_answers l : list (option error) := collect commit_answer l.

(** The messages handed to [Send], with its answer. *)
Definition send_of (x : exchange iface) : option (Z * list Message * option error) :=
  match x with
  | existT X (e, a) =>
      match e in iface Y return Y -> option (Z * list Message * option error) with
      | DSend p msgs => fun a => Some (p, msgs, a)
      | _ => fun _ => None
      end a
  end.
Definition sends l : list (Z * list Message * option error) := collect send_of l.

(** The partitions passed to [Pause], with its answer. *)
Definition pause_of (x : exchange iface) : option (list Z * option error) :=
  match x with
  | existT X (e, a) =>
      match e in iface Y return Y -> option (list Z * option error) with
      | KPause ps => fun a => Some (ps, a)
      | _ => fun _ => None
      end a
  end.
Definition pauses l : list (list Z * option error) := collect pause_of l.

(** The length of the last run of failures. *)
Definition count_failure (n : Z) (a : option error) : Z :=
  match a with Some _ => n + 1 | None => 0 end.
Definition trailing_failures (answers : list (option error)) : Z := foldl count_failure 0 answers.

Lemma commit_answers_app l1 l2 : commit_answers (l1 ++ l2) = commit_answers l1 ++ commit_answers l2.
Proof. apply collect_app. Qed.
Lemma sends_app l1 l2 : sends (l1 ++ l2) = sends l1 ++ sends l2.
Proof. apply collect_app. Qed.
Lemma pauses_app l1 l2 : pauses (l1 ++ l2) = pauses l1 ++ pauses l2.
Proof. apply collect_app. Qed.

(** Pausing and resuming everything neither commits nor sends. *)
Definition no_commit l l' : Prop := commit_answers l' = commit_answers l /\ sends l' = sends l.

Ltac no_commit_tac :=
  unfold no_commit; rewrite ?commit_answers_app, ?sends_app; simpl; rewrite ?app_nil_r; done.

Lemma pauseAll_trace s l :
  wp pauseAllPartitions (fun _ s' l' => no_commit l l' /\ commitFailures s' = commitFailures s /\
    degraded s' = degraded s) s l.
Proof.
  unfold pauseAllPartitions. rewrite wp_ask. intros [tps|e].
  - cbv zeta. destruct (_ =? 0); simpl; intros; (split; [no_commit_tac|done]).
  - simpl. split; [no_commit_tac|done].
Qed.

Lemma resumeAll_trace s l :
  wp resumeAllPartitions (fun _ s' l' => no_commit l l' /\ commitFailures s' = commitFailures s /\
    degraded s' = degraded s) s l.
Proof.
  unfold resumeAllPartitions. rewrite wp_ask. intros [tps|e].
  - cbv zeta. destruct (_ =? 0); simpl; intros; (split; [no_commit_tac|done]).
  - simpl. split; [no_commit_tac|done].
Qed.

Lemma enter_trace r s l :
  wp (enterDegradedMode r) (fun _ s' l' => no_commit l l' /\ commitFailures s' = commitFailures s /\
    degraded s' = with_reason r (degraded s)) s l.
Proof.
  unfold enterDegradedMode. rewrite wp_gets, wp_modify. destruct (IsDegraded _); [done|].
  eapply wp_bind_mono; [apply pauseAll_trace|]. intros [] s' l' Hs. exact Hs.
Qed.

Lemma exit_trace r s l :
  wp (exitDegradedMode r) (fun _ s' l' => no_commit l l' /\ commitFailures s' = commitFailures s /\
    degraded s' = without_reason r (degraded s)) s l.
Proof.
  unfold exitDegradedMode. rewrite wp_modify, wp_gets.
  destruct (IsDegraded _); [done|].
  eapply wp_bind_mono; [apply resumeAll_trace|]. intros [] s' l' Hs. exact Hs.
Qed.

(** ** The commit failure counter *)

Record counted cfg s l : Prop := {
  ct_known : known (degraded s);
  ct_failures : commitFailures s = trailing_failures (commit_answers l);
  ct_broker : Has (degraded s) BrokerUnavailable =
    (Z.max 1 (CommitFailureThreshold cfg) <=? trailing_failures (commit_answers l))
}.

Lemma trailing_nonneg answers : 0 <= trailing_failures answers.
Proof.
  unfold trailing_failures. induction answers as [|a answers IH] using rev_ind; [done|].
  rewrite foldl_app. simpl. destruct a; simpl; lia.
Qed.

Lemma trailing_snoc answers a :
  trailing_failures (answers ++ [a]) = count_failure (trailing_failures answers) a.
Proof. unfold trailing_failures. by rewrite foldl_app. Qed.

Lemma commit_tick_counted cfg s l :
  counted cfg s l -> wp (commitOffsets cfg) (fun _ s' l' => counted cfg s' l') s l.
Proof.
  intros [Hk Hf Hb]. pose proof (trailing_nonneg (commit_answers l)) as Hn.
  destruct (reasons_independent (degraded s) BrokerUnavailable BrokerUnavailable Hk)
    as (Hw & Hwo & Hkw & Hkwo & _); [by left|by left|]. simpl in Hw, Hwo.
  assert (Hq : forall offs, commit_answers (l ++ [asked CCommittable offs]) = commit_answers l)
    by (intros; rewrite commit_answers_app; apply app_nil_r).
  unfold commitOffsets. rewrite wp_ask. intros offs.
  destruct (_ =? 0); [by constructor; rewrite ?Hq|].
  rewrite wp_ask. intros err. set (l1 := (l ++ _) ++ _).
  assert (Hl1 : commit_answers l1 = commit_answers l ++ [err])
    by (unfold l1; rewrite commit_answers_app, Hq; done).
  destruct err as [e|]; [unfold commit_failed|unfold commit_succeeded];
    rewrite wp_modify, wp_gets; set (s1 := upd_m _ _).
  - destruct ((CommitFailureThreshold cfg <=? commitFailures s1) && _) eqn:Eb.
    + apply andb_true_iff in Eb as [Ht _]. simpl in Ht. zbool.
      eapply wp_mono; [|apply enter_trace]. intros [] s' l' ([Ha _] & Hc & Hd).
      constructor; rewrite ?Hc, ?Hd, ?Ha, ?Hl1, ?trailing_snoc; simpl; [done|lia|].
      rewrite Hw. symmetry. apply Z.leb_le. lia.
    + constructor; rewrite ?Hl1, ?trailing_snoc; simpl; [done|lia|].
      simpl in Eb. apply andb_false_iff in Eb as [Ht|Hh].
      * zbool. rewrite Hb. transitivity false; [|symmetry]; apply Z.leb_gt; lia.
      * apply negb_false_iff in Hh. rewrite Hh in Hb. rewrite Hh. symmetry in Hb |- *. zbool.
        apply Z.leb_le. lia.
  - assert (Hz : (Z.max 1 (CommitFailureThreshold cfg) <=? 0) = false) by (apply Z.leb_gt; lia).
    destruct (Has (degraded s1) BrokerUnavailable) eqn:Eh.
    + eapply wp_mono; [|apply exit_trace]. intros [] s' l' ([Ha _] & Hc & Hd).
      constructor; rewrite ?Hc, ?Hd, ?Ha, ?Hl1, ?trailing_snoc; simpl; [done|done|].
      by rewrite Hwo, Hz.
    + constructor; rewrite ?Hl1, ?trailing_snoc; simpl; [done|done|]. by rewrite Hz.
Qed.

(** C18. The broker is declared unavailable exactly after enough consecutive
    failures: whatever the coordinator and Kafka answer over any number of
    commit ticks, the counter is the number of commits that failed since the
    last that succeeded (ticks with nothing to commit do not count), and
    [BrokerUnavailable] is set if and only if that number has reached the
    threshold (or 1, for a smaller threshold). *)
Theorem commit_failures_degrade {O} (h : handler iface O) cfg n o s :
  degraded s = 0 -> commitFailures s = 0 ->
  exists s' o' l', exec (traced h) (for_each (replicate n CommitTick) (on_event cfg)) (o, []) s =
      (Returned tt s', (o', l')) /\
    commitFailures s' = trailing_failures (commit_answers l') /\
    Has (degraded s') BrokerUnavailable =
      (Z.max 1 (CommitFailureThreshold cfg) <=? trailing_failures (commit_answers l')).
Proof.
  intros Hd Hf.
  assert (Hw : wp (for_each (replicate n CommitTick) (on_event cfg))
    (fun _ s' l' => counted cfg s' l') s []).
  { apply wp_for_each.
    - intros e s1 l1 Hin H1. apply elem_of_replicate in Hin as [-> _]. by apply commit_tick_counted.
    - constructor; rewrite ?Hd, ?Hf; [unfold known; lia|done|].
      symmetry. apply Z.leb_gt. unfold trailing_failures. simpl. lia. }
  destruct (wp_sound h _ _ o _ _ Hw) as ([] & s' & o' & l' & Hx & [_ Hf' Hb']).
  by exists s', o', l'.
Qed.

(** ** Polling *)

(** Callbacks send nothing and pause nothing. *)
Definition idle l l' : Prop := sends l' = sends l /\ pauses l' = pauses l.

Ltac idle_tac := unfold idle; rewrite ?sends_app, ?pauses_app; simpl; rewrite ?app_nil_r; done.

Lemma idle_trans l1 l2 l3 : idle l1 l2 -> idle l2 l3 -> idle l1 l3.
Proof. unfold idle. intuition congruence. Qed.

Definition pausing (cb : callback) (paused : gset Z) : gset Z :=
  match cb with
  | Assigned _ => paused
  | Revoked tps => paused ∖ list_to_set (tpPartition <$> tps)
  end.

Lemma resets_idle tps s l : wp (for_each tps reset_one) (fun _ s' l' => idle l l' /\
    pausedPartitions s' = pausedPartitions s ∖ list_to_set (tpPartition <$> tps)) s l.
Proof.
  revert s l. induction tps as [|tp tps IH]; intros s l.
  { split; [done|]. simpl. by rewrite difference_empty_L. }
  change (for_each (tp :: tps) reset_one) with (let* _ := reset_one tp in for_each tps reset_one).
  intros []. eapply wp_mono; [|apply IH]. intros [] s' l' [Hi ->].
  split; [eapply idle_trans; [|exact Hi]; idle_tac|]. simpl. by rewrite difference_difference_l_L.
Qed.

Lemma callback_idle cb s l : wp (run_callback cb) (fun _ s' l' => idle l l' /\
    pausedPartitions s' = pausing cb (pausedPartitions s)) s l.
Proof.
  destruct cb as [tps|tps]; unfold run_callback.
  { unfold OnPartitionsAssigned. rewrite wp_modify. intros []. simpl. split; [idle_tac|done]. }
  unfold OnPartitionsRevoked. rewrite wp_modify, wp_ask. intros []. rewrite wp_ask. intros offs.
  apply (wp_bind_mono _ _ (fun _ s' l' => s' = uncount tps s /\ idle l l')).
  { destruct (0 <? Z.of_nat (size (revoked_offsets tps offs))); simpl; intros;
      (split; [done|idle_tac]). }
  intros [] s1 l1 [-> Hl]. eapply wp_mono; [|apply resets_idle]. intros [] s' l' [Hi ->].
  split; [by eapply idle_trans|]. simpl. unfold uncount. by destruct (_ <=? 0).
Qed.

Definition paused_after (cbs : list callback) (paused : gset Z) : gset Z :=
  foldl (fun paused cb => pausing cb paused) paused cbs.

Lemma callbacks_idle cbs s l :
  wp (for_each cbs run_callback) (fun _ s' l' => idle l l' /\
    pausedPartitions s' = paused_after cbs (pausedPartitions s)) s l.
Proof.
  revert s l. induction cbs as [|cb cbs IH]; intros s l; [done|].
  change (for_each (cb :: cbs) run_callback) with
    (let* _ := run_callback cb in for_each cbs run_callback).
  eapply wp_bind_mono; [apply callback_idle|]. intros [] s1 l1 [Hl1 Hs1].
  eapply wp_mono; [|apply IH]. intros [] s2 l2 [Hl2 ->].
  split; [by eapply idle_trans|]. by rewrite Hs1.
Qed.

Definition timeoutMs cfg : Z := PollInterval cfg ÷ Millisecond.

(** What the answer to [Poll] was, and that nothing was sent yet. *)
Lemma kafka_poll_wp cfg s l :
  wp (kafka_poll cfg) (fun r s' l' => exists cbs l2,
    l' = l ++ asked (KPoll (timeoutMs cfg)) (cbs, r) :: l2 /\ sends l2 = [] /\ pauses l2 = [] /\
    pausedPartitions s' = paused_after cbs (pausedPartitions s)) s l.
Proof.
  unfold kafka_poll. rewrite wp_ask. intros [cbs r].
  eapply wp_bind_mono; [apply wp_extends, callbacks_idle|].
  intros [] s' l' [[[Hs Hp] Hpa] [l2 ->]]. exists cbs, l2.
  rewrite !sends_app in Hs. rewrite !pauses_app in Hp. simpl in Hs, Hp.
  rewrite <- app_assoc in Hs, Hp. simpl in Hs, Hp.
  rewrite <- app_assoc. split_and!; [done| | |done].
  - rewrite app_nil_r in Hs. apply (app_inv_head (sends l)). by rewrite Hs, app_nil_r.
  - rewrite app_nil_r in Hp. apply (app_inv_head (pauses l)). by rewrite Hp, app_nil_r.
Qed.

(** Degraded mode discards what it polls.  While any reason is set a
    poll tick sends nothing to the dispatcher and pauses nothing, whatever
    messages Kafka returned: they are dropped, although the client's position
    is past them. *)
Theorem degraded_poll_discards {O} (h : handler iface O) cfg o s :
  IsDegraded (degraded s) = true ->
  exists s' o' cbs r l', exec (traced h) (poll cfg) (o, []) s =
      (Returned tt s', (o', asked (KPoll (timeoutMs cfg)) (cbs, r) :: l')) /\
    sends l' = [] /\ pauses l' = [].
Proof.
  intros Hd.
  assert (Hw : wp (poll cfg) (fun _ s' l' => exists cbs r l2,
    l' = asked (KPoll (timeoutMs cfg)) (cbs, r) :: l2 /\ sends l2 = [] /\ pauses l2 = []) s []).
  { unfold poll. rewrite wp_gets, Hd. eapply wp_bind_mono; [apply kafka_poll_wp|].
    intros r s1 l1 (cbs & l2 & -> & Hs & Hp & _). destruct r; simpl; eauto 7. }
  destruct (wp_sound h _ _ o _ _ Hw) as ([] & s' & o' & l' & Hx & cbs & r & l2 & -> & ? & ?).
  by exists s', o', cbs, r, l2.
Qed.

(** ** Grouping and dispatching *)

Definition of_partition (p : Z) (msgs : list Message) : list Message :=
  filter (fun msg => Partition msg = p) msgs.

Lemma groupByPartition_snoc msgs msg :
  groupByPartition (msgs ++ [msg]) = group_one (groupByPartition msgs) msg.
Proof. unfold groupByPartition. by rewrite foldl_app. Qed.

Lemma of_partition_snoc p msgs msg :
  of_partition p (msgs ++ [msg]) =
  of_partition p msgs ++ (if decide (Partition msg = p) then [msg] else []).
Proof. unfold of_partition. rewrite filter_app, filter_cons. by case_decide. Qed.

Lemma group_lookup msgs p :
  groupByPartition msgs !! p =
  match of_partition p msgs with [] => None | g => Some g end.
Proof.
  induction msgs as [|msg msgs IH] using rev_ind; [done|].
  rewrite groupByPartition_snoc, of_partition_snoc. unfold group_one. rewrite lookup_insert.
  case_decide as E; subst.
  - rewrite IH. by destruct (of_partition (Partition msg) msgs).
  - rewrite IH. by rewrite app_nil_r.
Qed.

(** [groupByPartition] partitions the messages: each group is exactly
    the messages of its partition, in the order polled, there is a group for
    every partition that has messages and for no other, and no message is in
    two groups or in none. *)
Theorem groupByPartition_spec msgs :
  (forall p, groupByPartition msgs !! p =
     match of_partition p msgs with [] => None | g => Some g end) /\
  concat (map_to_list (groupByPartition msgs)).*2 ≡ₚ msgs.
Proof.
  split; [apply group_lookup|].
  induction msgs as [|msg msgs IH] using rev_ind.
  { unfold groupByPartition. simpl. by rewrite map_to_list_empty. }
  rewrite groupByPartition_snoc. unfold group_one.
  set (g := groupByPartition msgs) in *. set (p := Partition msg).
  destruct (g !! p) as [old|] eqn:Hp; simpl.
  - rewrite <- (insert_delete_id g p old Hp) in IH. rewrite <- insert_delete_eq.
    rewrite map_to_list_insert in IH |- * by apply lookup_delete_eq. simpl in *.
    rewrite <- IH. rewrite <- !app_assoc. apply Permutation_app_head. apply Permutation_app_comm.
  - rewrite map_to_list_insert by done. simpl. rewrite IH.
    change (msg :: msgs) with ([msg] ++ msgs). apply Permutation_app_comm.
Qed.

Definition refused (x : Z * list Message * option error) : option Z :=
  match x.2 with
  | Some e => if errors_Is e ErrBackpressure then Some x.1.1 else None
  | None => None
  end.

Definition granted (x : list Z * option error) : list Z :=
  match x.2 with None => x.1 | Some _ => [] end.

(** What dispatching the partitions [ps] does. *)
Record dispatched (g : gmap Z (list Message)) (ps : list Z) s s' l2 : Prop := {
  dp_sends : (sends l2).*1 = (fun p => (p, default [] (g !! p))) <$>
    filter (fun p => p ∉ pausedPartitions s) ps;
  dp_pauses : (pauses l2).*1 = (fun p => [p]) <$> omap refused (sends l2);
  dp_paused : pausedPartitions s' =
    pausedPartitions s ∪ list_to_set (concat (granted <$> pauses l2))
}.

Lemma dispatch_one g p s l : wp (dispatch_group g p) (fun _ s' l' => exists l2,
    l' = l ++ l2 /\ dispatched g [p] s s' l2 /\
    (forall q, q <> p -> q ∈ pausedPartitions s' <-> q ∈ pausedPartitions s)) s l.
Proof.
  unfold dispatch_group. rewrite wp_gets. case_bool_decide as Hp.
  { exists []. rewrite app_nil_r. split_and!; [done| |done]. constructor; simpl.
    - rewrite filter_cons, decide_False; [done|tauto].
    - done.
    - set_solver. }
  assert (Hf : filter (fun q => q ∉ pausedPartitions s) [p] = [p])
    by (rewrite filter_cons, decide_True; done).
  rewrite wp_ask. intros err.
  assert (Hnone : refused (p, default [] (g !! p), err) = None ->
    exists l2, l ++ [asked (DSend p (default [] (g !! p))) err] = l ++ l2 /\ dispatched g [p] s s l2 /\
      (forall q, q <> p -> q ∈ pausedPartitions s <-> q ∈ pausedPartitions s)).
  { intros Hr. eexists. split_and!; [done| |done]. constructor; rewrite ?Hf; simpl; [done| |set_solver].
    change (sends _) with [(p, default [] (g !! p), err)]. simpl. by rewrite Hr. }
  unfold refused in Hnone. simpl in Hnone. destruct err as [e|]; [|by apply Hnone].
  unfold on_send_result. destruct (errors_Is e ErrBackpressure) eqn:Eb; [|by apply Hnone].
  unfold pausePartition. rewrite wp_gets. rewrite bool_decide_eq_false_2 by done.
  rewrite wp_ask. intros perr. set (e1 := asked _ _). set (e2 := asked _ _).
  assert (Hd : forall s', pausedPartitions s' = pausedPartitions s ∪ list_to_set (granted ([p], perr)) ->
    exists l2, (l ++ [e1]) ++ [e2] = l ++ l2 /\ dispatched g [p] s s' l2 /\
      (forall q, q <> p -> q ∈ pausedPartitions s' <-> q ∈ pausedPartitions s)).
  { intros s' Hs'. exists [e1; e2]. rewrite <- app_assoc. split_and!; [done| |].
    - constructor; rewrite ?Hf, ?Hs'; simpl.
      + done.
      + change (sends _) with [(p, default [] (g !! p), Some e)]. unfold refused. simpl. by rewrite Eb.
      + by rewrite app_nil_r.
    - intros q Hq. rewrite Hs'. destruct perr; simpl; set_solver. }
  destruct perr as [pe|]; simpl; apply Hd; simpl; set_solver.
Qed.

Lemma dispatch_all g ps s l : NoDup ps ->
  wp (for_each ps (dispatch_group g)) (fun _ s' l' => exists l2,
    l' = l ++ l2 /\ dispatched g ps s s' l2) s l.
Proof.
  revert s l. induction ps as [|p ps IH]; intros s l Hd.
  { exists []. rewrite app_nil_r. split; [done|]. constructor; [done|done|set_solver]. }
  apply NoDup_cons in Hd as [Hp Hd].
  change (for_each (p :: ps) (dispatch_group g)) with
    (let* _ := dispatch_group g p in for_each ps (dispatch_group g)).
  eapply wp_bind_mono; [apply dispatch_one|]. intros [] s1 l1 (k1 & -> & H1 & Hother).
  eapply wp_mono; [|by apply IH]. intros [] s2 l2 (k2 & -> & H2).
  exists (k1 ++ k2). rewrite app_assoc. split; [done|].
  destruct H1 as [Hs1 Hp1 Hpa1], H2 as [Hs2 Hp2 Hpa2]. constructor.
  - rewrite sends_app, fmap_app, Hs1, Hs2, <- fmap_app. f_equal.
    change (p :: ps) with ([p] ++ ps). rewrite filter_app. f_equal.
    apply filter_ext_in. intros q Hq. rewrite Hother; [done|congruence].
  - by rewrite pauses_app, sends_app, fmap_app, omap_app, fmap_app, Hp1, Hp2.
  - rewrite Hpa2, Hpa1, pauses_app, fmap_app, concat_app, list_to_set_app_L.
    by rewrite (assoc_L (∪)).
Qed.

Lemma groups_sent (g : gmap Z (list Message)) (paused : gset Z) order :
  order ≡ₚ (map_to_list g).*1 ->
  (fun p => (p, default [] (g !! p))) <$> filter (fun p => p ∉ paused) order ≡ₚ
  filter (fun kv => kv.1 ∉ paused) (map_to_list g).
Proof.
  intros ->. assert (Hl : forall kv, kv ∈ map_to_list g -> g !! kv.1 = Some kv.2)
    by (intros [p msgs] Hin; by apply elem_of_map_to_list in Hin).
  induction (map_to_list g) as [|[p msgs] kvs IH]; [done|].
  rewrite fmap_cons, !filter_cons. simpl.
  assert (IH' := IH (fun kv Hkv => Hl kv (list_elem_of_further _ _ _ Hkv))).
  case_decide; [|done]. rewrite fmap_cons, IH'.
  specialize (Hl (p, msgs) (list_elem_of_here _ _)). simpl in Hl. by rewrite Hl.
Qed.

(** The groups sent, read off the polled messages. *)
Lemma groups_are_filters (g : list (Z * list Message)) (paused : gset Z) (polled : list Message) :
  g ≡ₚ filter (fun kv => kv.1 ∉ paused) (map_to_list (groupByPartition polled)) ->
  NoDup (g.*1) /\
  forall p msgs, (p, msgs) ∈ g <->
    p ∉ paused /\ msgs <> [] /\ msgs = filter (fun msg => Partition msg = p) polled.
Proof.
  intros Hg. split.
  - rewrite Hg. apply (sublist_NoDup _ (map_to_list (groupByPartition polled)).*1);
      [apply NoDup_fst_map_to_list|]. apply fmap_sublist, sublist_filter.
  - intros p msgs. rewrite Hg, list_elem_of_filter, elem_of_map_to_list, group_lookup. simpl.
    unfold of_partition. destruct (filter (fun msg => Partition msg = p) polled) eqn:E.
    + split; [by intros [_ ?]|]. by intros (_ & Hn & ->).
    + split; [intros [Hp [= <-]]; done|]. by intros (Hp & _ & ->).
Qed.

(** C19. A poll tick outside degraded mode calls [Send] once for each
    partition of the polled messages that is not paused for backpressure
    (callbacks fired by the poll included), for no other, and with all the
    messages polled for it, in the order polled; it sends nothing after a poll
    error, asks Kafka to pause exactly the partitions whose [Send] returned
    [ErrBackpressure], and tracks as paused those for which that
    succeeded. *)
Theorem poll_dispatches {O} (h : handler iface O) cfg o s :
  IsDegraded (degraded s) = false ->
  exists s' o' cbs r l', exec (traced h) (poll cfg) (o, []) s =
      (Returned tt s', (o', asked (KPoll (timeoutMs cfg)) (cbs, r) :: l')) /\
    let paused := paused_after cbs (pausedPartitions s) in
    let polled := match r with inl msgs => msgs | inr _ => [] end in
    NoDup (((sends l').*1).*1) /\
    (forall p msgs, (p, msgs) ∈ (sends l').*1 <->
       p ∉ paused /\ msgs <> [] /\ msgs = filter (fun msg => Partition msg = p) polled) /\
    (pauses l').*1 = (fun p => [p]) <$> omap refused (sends l') /\
    pausedPartitions s' = paused ∪ list_to_set (concat (granted <$> pauses l')).
Proof.
  intros Hd.
  assert (Hw : wp (poll cfg) (fun _ s' l' => exists cbs r l2,
    l' = asked (KPoll (timeoutMs cfg)) (cbs, r) :: l2 /\
    (let paused := paused_after cbs (pausedPartitions s) in
     (sends l2).*1 ≡ₚ filter (fun kv => kv.1 ∉ paused)
       (map_to_list (groupByPartition (match r with inl msgs => msgs | inr _ => [] end))) /\
     (pauses l2).*1 = (fun p => [p]) <$> omap refused (sends l2) /\
     pausedPartitions s' = paused ∪ list_to_set (concat (granted <$> pauses l2)))) s []).
  { unfold poll. rewrite wp_gets, Hd. eapply wp_bind_mono; [apply kafka_poll_wp|].
    intros r s1 l1 (cbs & l2 & -> & Hs & Hp & Hpa). destruct r as [msgs|e].
    2: { exists cbs, (inr e), l2. rewrite Hs, Hp. simpl. split_and!; [done|done|done|].
         rewrite Hpa. set_solver. }
    destruct (Z.eqb_spec (len msgs) 0) as [Hl|Hl].
    { apply len_nil_inv in Hl as ->. exists cbs, (inl []), l2. rewrite Hs, Hp. simpl.
      split_and!; [done|done|done|]. rewrite Hpa. set_solver. }
    rewrite wp_modify, wp_ask. intros [order Ho].
    assert (Hnd : NoDup order) by (rewrite Ho; apply NoDup_fst_map_to_list).
    eapply wp_mono; [|by apply dispatch_all]. simpl. intros [] s2 l3 (k & -> & [Hk1 Hk2 Hk3]).
    simpl in Hk1, Hk3. rewrite Hpa in Hk1, Hk3.
    exists cbs, (inl msgs). eexists. split; [rewrite <- !app_assoc; reflexivity|].
    rewrite !sends_app, !pauses_app, Hs, Hp. simpl. split_and!; [|done|done].
    rewrite Hk1. by apply groups_sent. }
  destruct (wp_sound h _ _ o _ _ Hw) as ([] & s' & o' & l' & Hx & cbs & r & l2 & -> & Hg & ?).
  exists s', o', cbs, r, l2. split; [done|]. cbv zeta. apply groups_are_filters in Hg as [? ?]. done.
Qed.

(** ** Rebalances and shutdown *)

Definition reset_exchange (tp : TopicPartition) : exchange iface :=
  asked (CReset (tpPartition tp)) tt.

Lemma resets_trace tps s l :
  wp (for_each tps reset_one) (fun _ s' l' => l' = l ++ List.map reset_exchange tps /\
    pausedPartitions s' = pausedPartitions s ∖ list_to_set (tpPartition <$> tps)) s l.
Proof.
  revert s l. induction tps as [|tp tps IH]; intros s l.
  { split; [symmetry; apply app_nil_r|]. simpl. by rewrite difference_empty_L. }
  change (for_each (tp :: tps) reset_one) with (let* _ := reset_one tp in for_each tps reset_one).
  intros []. eapply wp_mono; [|apply IH]. intros [] s' l' [-> ->].
  split; [by rewrite <- app_assoc|]. simpl. by rewrite difference_difference_l_L.
Qed.

(** C20. A revocation commits what is committable of the revoked partitions,
    and nothing else, before it forgets them: the dispatcher is notified
    first, then the committable offsets are read, those of the revoked
    partitions are committed (if any), and only then, whether or not the
    commit succeeded, every revoked partition is reset, in order, and is no
    longer tracked as paused. *)
Theorem OnPartitionsRevoked_spec {O} (h : handler iface O) tps o s :
  exists s' o' offs commit,
    exec (traced h) (OnPartitionsRevoked tps) (o, []) s =
      (Returned tt s', (o', [asked (DOnPartitionsRevoked tps) tt; asked CCommittable offs] ++
         commit ++ List.map reset_exchange tps)) /\
    (if decide (revoked_offsets tps offs = ∅) then commit = []
     else exists err, commit = [asked (KCommitOffsets (revoked_offsets tps offs)) err]) /\
    (forall p off, revoked_offsets tps offs !! p = Some off <->
       offs !! p = Some off /\ exists tp, tp ∈ tps /\ tpPartition tp = p) /\
    pausedPartitions s' = pausedPartitions s ∖ list_to_set (tpPartition <$> tps).
Proof.
  assert (Hw : wp (OnPartitionsRevoked tps) (fun _ s' l' => exists offs commit,
    l' = [asked (DOnPartitionsRevoked tps) tt; asked CCommittable offs] ++ commit ++
         List.map reset_exchange tps /\
    (if decide (revoked_offsets tps offs = ∅) then commit = []
     else exists err, commit = [asked (KCommitOffsets (revoked_offsets tps offs)) err]) /\
    pausedPartitions s' = pausedPartitions s ∖ list_to_set (tpPartition <$> tps)) s []).
  { unfold OnPartitionsRevoked. rewrite wp_modify, wp_ask. intros []. rewrite wp_ask. intros offs.
    cbv zeta. set (r := revoked_offsets tps offs).
    apply (wp_bind_mono _ _ (fun _ s' l' => s' = uncount tps s /\ exists commit,
      l' = [asked (DOnPartitionsRevoked tps) tt; asked CCommittable offs] ++ commit /\
      if decide (r = ∅) then commit = [] else exists err, commit = [asked (KCommitOffsets r) err])).
    - destruct (Z.ltb_spec 0 (Z.of_nat (size r))) as [Hs|Hs]; simpl.
      + intros err. split; [done|]. eexists. split; [done|].
        rewrite decide_False; [eauto|]. intros E. rewrite E, map_size_empty in Hs. lia.
      + split; [done|]. exists []. split; [done|].
        rewrite decide_True; [done|]. apply map_size_empty_inv. lia.
    - intros [] s1 l1 (-> & commit & -> & Hc). eapply wp_mono; [|apply resets_trace].
      intros [] s' l' [-> ->]. exists offs, commit. split_and!; [by rewrite <- app_assoc|done|].
      unfold uncount. by destruct (_ <=? 0). }
  destruct (wp_sound h _ _ o _ _ Hw) as ([] & s' & o' & l' & Hx & offs & commit & -> & Hc & Hp).
  exists s', o', offs, commit. split_and!; [done|done| |done].
  intros p off. unfold revoked_offsets. rewrite map_lookup_filter_Some. simpl.
  rewrite list_elem_of_fmap. naive_solver.
Qed.

(** C21. Shutdown drains before it commits and commits before it leaves the
    group: close the dispatcher, read the committable offsets, commit them if
    there are any, close the Kafka client, in this order and whatever fails
    on the way; the error returned is the dispatcher's, and the service is no
    longer ready. *)
Theorem shutdown_order {O} (h : handler iface O) o s :
  exists r s' o' offs commit closed,
    exec (traced h) shutdown (o, []) s =
      (Returned r s', (o', [asked DClose r; asked CCommittable offs] ++ commit ++
                           [asked KClose closed])) /\
    (if decide (offs = ∅) then commit = []
     else exists err, commit = [asked (KCommitOffsets offs) err]) /\
    IsReady (health s') = false.
Proof.
  destruct (wp_sound h _ _ o _ _ (shutdown_wp s [])) as
    (r & s' & o' & l' & Hx & -> & offs & commit & closed & -> & Hc).
  by exists r, (set_health (SetReady false (health s)) s), o', offs, commit, closed.
Qed.

Definition resumed s s' l' : Prop :=
  if IsDegraded (degraded s) || bool_decide (pausedPartitions s = ∅) then s' = s /\ l' = []
  else exists order err,
    l' = [asked (RangeOrder (elements (pausedPartitions s))) order;
          asked (KResume (proj1_sig order)) err] /\
    (forall p, p ∈ proj1_sig order <-> p ∈ pausedPartitions s) /\
    pausedPartitions s' = match err with None => ∅ | Some _ => pausedPartitions s end.

(** A free slot resumes every partition paused for backpressure, and
    only outside degraded mode: the loop asks Kafka to resume exactly the
    tracked partitions and forgets them if that succeeds; in degraded mode,
    or with none paused, it does nothing. *)
Theorem onDispatcherReady_resumes {O} (h : handler iface O) o s :
  exists s' o' l', exec (traced h) onDispatcherReady (o, []) s = (Returned tt s', (o', l')) /\
    resumed s s' l'.
Proof.
  assert (Hw : wp onDispatcherReady (fun _ s' l' => resumed s s' l') s []).
  { unfold onDispatcherReady, resumed. rewrite wp_gets.
    destruct (IsDegraded (degraded s)); [done|]. cbn [orb].
    unfold resumeAllPausedPartitions. rewrite wp_gets.
    destruct (Z.eqb_spec (Z.of_nat (size (pausedPartitions s))) 0) as [Hz|Hz].
    { rewrite bool_decide_eq_true_2; [done|]. apply leibniz_equiv, size_empty_iff. lia. }
    rewrite bool_decide_eq_false_2; [|intros E; rewrite E, size_empty in Hz; lia].
    rewrite wp_ask. intros order. cbv zeta. rewrite wp_ask. intros err.
    assert (Hin : forall p, p ∈ proj1_sig order <-> p ∈ pausedPartitions s).
    { intros p. by rewrite (proj2_sig order), elem_of_elements. }
    assert (He : pausedPartitions s ∖ list_to_set (proj1_sig order) = ∅).
    { apply set_eq. intros p. rewrite elem_of_difference, elem_of_list_to_set, Hin. set_solver. }
    destruct err as [e|]; simpl; eexists _, _; by split_and!. }
  destruct (wp_sound h _ _ o _ _ Hw) as ([] & s' & o' & l' & Hx & Hr). by exists s', o', l'.
Qed.

(** Circuit breaker transitions drive degraded mode: open sets
    [TargetUnavailable], closed clears it, half-open changes nothing, the
    other reason is untouched, and readiness and the gauge stay in step with
    the reasons, whatever Kafka answers. *)
Theorem circuit_transitions {O} (h : handler iface O) st o s :
  mode_inv s ->
  exists s' o', exec h (onCircuitStateChanged (gobreakerStateToCircuit st)) o s =
      (Returned tt s', o') /\
    mode_inv s' /\
    degraded s' = match st with
      | StateOpen => with_reason TargetUnavailable (degraded s)
      | StateClosed => without_reason TargetUnavailable (degraded s)
      | StateHalfOpen => degraded s
      end.
Proof.
  intros Hi. pose proof (mi_known _ Hi) as Hk.
  assert (Hw : wp (onCircuitStateChanged (gobreakerStateToCircuit st)) (fun _ s' _ => mode_inv s' /\
    degraded s' = match st with
      | StateOpen => with_reason TargetUnavailable (degraded s)
      | StateClosed => without_reason TargetUnavailable (degraded s)
      | StateHalfOpen => degraded s
      end) s []).
  { unfold onCircuitStateChanged. rewrite wp_gets.
    destruct (Has (degraded s) TargetUnavailable) eqn:Eh; destruct st; simpl; try done.
    - eapply wp_mono; [|apply exit_mode; [done|by right]]. intros [] s' l' (? & ? & _). done.
    - split; [done|]. apply known_cases in Hk as [E|[E|[E|E]]]; rewrite E in *; by vm_compute in *.
    - split; [done|]. apply known_cases in Hk as [E|[E|[E|E]]]; rewrite E in *; by vm_compute in *.
    - eapply wp_mono; [|apply enter_mode; [done|by right]]. intros [] s' l' (? & ? & _). done. }
  destruct (wp_exec h _ _ o _ _ Hw) as ([] & s' & o' & Hx & _ & ?). by exists s', o'.
Qed.

(** ** Counting assignments *)

Definition count_callback (n : Z) (cb : callback) : Z :=
  match cb with
  | Assigned tps => n + len tps
  | Revoked tps => Z.max 0 (n - len tps)
  end.

Definition counted_assignments s : Prop :=
  0 <= assignedCount s /\ partitionsAssigned (health s) = (0 <? assignedCount s).

Definition nonempty_callback (cb : callback) : Prop := cb <> Assigned [].

Lemma callback_counts cb s l :
  counted_assignments s -> nonempty_callback cb ->
  wp (run_callback cb) (fun _ s' _ => counted_assignments s' /\
    assignedCount s' = count_callback (assignedCount s) cb) s l.
Proof.
  intros [Hn Hp] Hcb. destruct cb as [tps|tps]; unfold run_callback.
  - intros []. simpl. unfold counted_assignments. simpl.
    destruct tps as [|tp tps]; [done|]. pose proof (len_nonneg tps).
    assert (len (tp :: tps) = len tps + 1) by (unfold len; simpl; lia).
    split_and!; [lia|symmetry; apply Z.ltb_lt; lia|done].
  - unfold OnPartitionsRevoked. rewrite wp_modify, wp_ask. intros []. rewrite wp_ask. intros offs.
    set (I := fun s' => counted_assignments s' /\
      assignedCount s' = count_callback (assignedCount s) (Revoked tps)).
    pose proof (len_nonneg tps).
    assert (Hu : I (uncount tps s)).
    { unfold I, uncount, counted_assignments. destruct (Z.leb_spec (assignedCount s - len tps) 0); simpl.
      - split_and!; [done|done|lia].
      - rewrite Hp. split_and!; [lia| |lia]. transitivity true; [|symmetry]; apply Z.ltb_lt; lia. }
    apply (wp_bind_mono _ _ (fun _ s' _ => I s')).
    { destruct (0 <? Z.of_nat (size (revoked_offsets tps offs))); [intros err|]; exact Hu. }
    intros [] s1 l1 H1. apply (wp_for_each _ _ (fun s' _ => I s')); [|done].
    intros tp s2 l2 _ H2 []. exact H2.
Qed.

(** The readiness gate follows the assignment: over any sequence of
    non-empty assignments and revocations the loop counts the assigned
    partitions (never below zero) and the service can report ready exactly
    while the count is positive. *)
Theorem assignments_counted {O} (h : handler iface O) cbs o s :
  counted_assignments s -> (forall cb, cb ∈ cbs -> nonempty_callback cb) ->
  exists s' o', exec h (for_each cbs run_callback) o s = (Returned tt s', o') /\
    assignedCount s' = foldl count_callback (assignedCount s) cbs /\
    partitionsAssigned (health s') = (0 <? foldl count_callback (assignedCount s) cbs).
Proof.
  intros Hc Hcbs.
  assert (Hw : forall l, wp (for_each cbs run_callback) (fun _ s' _ => counted_assignments s' /\
    assignedCount s' = foldl count_callback (assignedCount s) cbs) s l).
  { revert s Hc. induction cbs as [|cb cbs IH]; intros s Hc l; [by split|].
    change (for_each (cb :: cbs) run_callback) with
      (let* _ := run_callback cb in for_each cbs run_callback).
    eapply wp_bind_mono; [apply callback_counts; [done|apply Hcbs, list_elem_of_here]|].
    intros [] s1 l1 [H1 E1]. simpl. rewrite <- E1. apply IH; [|done].
    intros cb' Hcb'. by apply Hcbs, list_elem_of_further. }
  destruct (wp_exec h _ _ o _ _ (Hw [])) as ([] & s' & o' & Hx & _ & [_ Hp] & E).
  exists s', o'. split_and!; [done|done|]. by rewrite Hp, E.
Qed.

(** An empty assignment opens the gate: the broker may assign no
    partition to a member, and then the flag says that one is assigned
    although the count is zero. *)
Theorem empty_assignment_is_ready {O} (h : handler iface O) o :
  exists s' o', exec h (run_callback (Assigned [])) o (started (New (mkHealth false false false))) =
      (Returned tt s', o') /\
    assignedCount s' = 0 /\ IsReady (health s') = true.
Proof. simpl. destruct (h _ _ o) as [[] o']. eexists _, o'. by split_and!. Qed.

(** Degraded mode can end with every partition still paused: when the
    assignment cannot be read, [exitDegradedMode] resumes nothing and yet
    reports the service ready. *)
Theorem exit_may_leave_paused {O} (h : handler iface O) r o s :
  degraded s = r -> is_reason r ->
  (forall o, exists e, (h _ KAssignment o).1 = inr e) ->
  exists s' o' e, exec (traced h) (exitDegradedMode r) (o, []) s =
      (Returned tt s', (o', [asked KAssignment (inr e)])) /\
    degraded s' = 0 /\ ready (health s') = true /\ pausedPartitions s' = pausedPartitions s.
Proof.
  intros Hd Hr Ha. destruct (Ha o) as [e He]. unfold exitDegradedMode.
  rewrite exec_modify, exec_gets.
  assert (E : degraded (set_degraded (without_reason r (degraded s)) s) = 0).
  { simpl. rewrite Hd. by destruct Hr as [-> | ->]. }
  rewrite E. simpl. unfold traced at 1. simpl. destruct (h _ KAssignment o) as [a o'].
  simpl in He. subst a. simpl. eexists _, o', e. by split_and!.
Qed.

(** * Witnesses

    An environment that has one committable partition, refuses commits, is
    assigned partitions 0 and 1, and returns the messages [msgs]. *)

Definition msg_at (p o : Z) : Message := mkMessage "events" p o None None 0 [] 0.
Definition polled : list Message := [msg_at 0 5; msg_at 1 9; msg_at 0 6].
Definition refusal : error := Leaf "broker down".

Definition troubled : handler iface unit := fun X e o =>
  (match e in iface X return X with
   | KPoll _ => ([Assigned [mkTP "events" 0; mkTP "events" 1]], inl polled)
   | KCommitOffsets _ => Some refusal
   | KPause _ => None
   | KResume _ => None
   | KAssignment => inr refusal
   | KClose => None
   | DSend p _ => if p =? 0 then Some ErrBackpressure else None
   | DOnPartitionsAssigned _ => tt
   | DOnPartitionsRevoked _ => tt
   | DClose => None
   | CCommittable => {[ 0 := 6 ]}
   | CReset _ => tt
   | RangeOrder keys => exist _ keys (Permutation_refl keys)
   end, o).

Definition idle_loop : PollLoop := New (mkHealth false false false).
Definition degraded_loop : PollLoop := set_degraded TargetUnavailable idle_loop.

Lemma Run_health_witness :
  exists s' o', exec troubled
      (for_each [PollTick; CommitTick; CommitTick; CommitTick] (on_event DefaultConfig)) tt
      (started idle_loop) = (Returned tt s', o') /\
    mode_inv s' /\ IsLive (health s') = true /\
    IsReady (health s') = negb (IsDegraded (degraded s')) && partitionsAssigned (health s').
Proof.
  apply (Run_health troubled DefaultConfig [PollTick; CommitTick; CommitTick; CommitTick] tt idle_loop);
    done.
Defined.

Lemma commit_failures_degrade_witness :
  exists s' o' l',
    exec (traced troubled) (for_each (replicate 3 CommitTick) (on_event DefaultConfig)) (tt, [])
      idle_loop = (Returned tt s', (o', l')) /\
    commitFailures s' = trailing_failures (commit_answers l') /\
    Has (degraded s') BrokerUnavailable =
      (Z.max 1 (CommitFailureThreshold DefaultConfig) <=? trailing_failures (commit_answers l')).
Proof. apply (commit_failures_degrade troubled DefaultConfig 3 tt idle_loop); reflexivity. Defined.

Example three_failures_degrade :
  degraded (final (exec troubled (for_each (replicate 3 CommitTick) (on_event DefaultConfig)) tt
    idle_loop)) = BrokerUnavailable.
Proof. reflexivity. Qed.

Lemma degraded_poll_discards_witness :
  exists s' o' cbs r l', exec (traced troubled) (poll DefaultConfig) (tt, []) degraded_loop =
      (Returned tt s', (o', asked (KPoll (timeoutMs DefaultConfig)) (cbs, r) :: l')) /\
    sends l' = [] /\ pauses l' = [].
Proof. apply (degraded_poll_discards troubled DefaultConfig tt degraded_loop). reflexivity. Defined.

Lemma poll_dispatches_witness :
  exists s' o' cbs r l', exec (traced troubled) (poll DefaultConfig) (tt, []) idle_loop =
      (Returned tt s', (o', asked (KPoll (timeoutMs DefaultConfig)) (cbs, r) :: l')) /\
    let paused := paused_after cbs (pausedPartitions idle_loop) in
    let polled := match r with inl msgs => msgs | inr _ => [] end in
    NoDup (((sends l').*1).*1) /\
    (forall p msgs, (p, msgs) ∈ (sends l').*1 <->
       p ∉ paused /\ msgs <> [] /\ msgs = filter (fun msg => Partition msg = p) polled) /\
    (pauses l').*1 = (fun p => [p]) <$> omap refused (sends l') /\
    pausedPartitions s' = paused ∪ list_to_set (concat (granted <$> pauses l')).
Proof. apply (poll_dispatches troubled DefaultConfig tt idle_loop). reflexivity. Defined.

Example backpressure_pauses :
  pausedPartitions (final (exec troubled (poll DefaultConfig) tt idle_loop)) = {[ 0 ]}.
Proof. reflexivity. Qed.

Lemma degraded_loop_inv : mode_inv (set_health (mkHealth true false true)
  (upd_m (set_DegradedMode 1) degraded_loop)).
Proof. constructor; [split; [done|reflexivity]|reflexivity|reflexivity|done]. Qed.

Lemma circuit_transitions_witness :
  exists s' o', exec troubled (onCircuitStateChanged circuit.Closed) tt
      (set_health (mkHealth true false true) (upd_m (set_DegradedMode 1) degraded_loop)) =
      (Returned tt s', o') /\
    mode_inv s' /\ degraded s' = 0.
Proof.
  exact (circuit_transitions troubled StateClosed tt _ degraded_loop_inv).
Defined.

Lemma assignments_counted_witness :
  exists s' o', exec troubled (for_each [Assigned [mkTP "events" 0; mkTP "events" 1];
      Revoked [mkTP "events" 1]; Revoked [mkTP "events" 0]] run_callback) tt idle_loop =
      (Returned tt s', o') /\
    assignedCount s' = 0 /\ partitionsAssigned (health s') = false.
Proof.
  apply (assignments_counted troubled [Assigned [mkTP "events" 0; mkTP "events" 1];
    Revoked [mkTP "events" 1]; Revoked [mkTP "events" 0]] tt idle_loop).
  - by split.
  - intros cb. rewrite !elem_of_cons, elem_of_nil. intros [->|[->|[->|[]]]]; discriminate.
Defined.

Lemma exit_may_leave_paused_witness :
  exists s' o' e, exec (traced troubled) (exitDegradedMode TargetUnavailable) (tt, [])
      degraded_loop = (Returned tt s', (o', [asked KAssignment (inr e)])) /\
    degraded s' = 0 /\ ready (health s') = true /\
    pausedPartitions s' = pausedPartitions degraded_loop.
Proof.
  apply (exit_may_leave_paused troubled TargetUnavailable tt degraded_loop).
  - reflexivity.
  - by right.
  - intros o. by exists refusal.
Defined.
