(* ===== verification/Strconv.v ===== *)
(** The parts of Go's [strconv] and [strings] the code uses on machine
    integers and environment variables: [strconv.FormatInt(n, 10)],
    [strconv.Atoi] and [strings.TrimSpace], on strings as bytes. *)
From S2P Require Import Prelude.

(** * Decimal digits *)

Definition digit (d : Z) : ascii := ascii_of_nat (48 + Z.to_nat d).

Definition digit_value (c : ascii) : option Z :=
  let n := Z.of_nat (nat_of_ascii c) in
  if (48 <=? n) && (n <=? 57) then Some (n - 48) else None.

#[global] Arguments digit : simpl never.
#[global] Arguments digit_value : simpl never.

(** The digits of [n >= 0], most significant first; [fuel] digits at most. *)
Fixpoint digits (fuel : nat) (n : Z) : list ascii :=
  match fuel with
  | O => []
  | Datatypes.S k => (if n <? 10 then [] else digits k (n / 10)) ++ [digit (n mod 10)]
  end.

(** An [int64] has at most 19 digits. *)
Definition FormatInt (n : Z) : list ascii :=
  if n <? 0 then "-"%char :: digits 20 (- n) else digits 20 n.
Definition FormatZ (n : Z) : string := String.string_of_list_ascii (FormatInt n).
Definition newline : string := String.String (Ascii.ascii_of_nat 10) "".

(** * [strconv.Atoi]

    An optional sign, then at least one digit and nothing else, in the range
    of [int64]. *)

Inductive atoi_error := ErrSyntax | ErrRange.

Fixpoint parse_digits (acc : Z) (s : list ascii) : option Z :=
  match s with
  | [] => Some acc
  | c :: s => match digit_value c with Some d => parse_digits (10 * acc + d) s | None => None end
  end.

Definition parse_uint (s : list ascii) : option Z :=
  match s with [] => None | _ => parse_digits 0 s end.

Definition Atoi (s : list ascii) : Z + atoi_error :=
  let '(neg, body) := match s with
                      | "-"%char :: s => (true, s)
                      | "+"%char :: s => (false, s)
                      | s => (false, s)
                      end in
  match parse_uint body with
  | None => inr ErrSyntax
  | Some u =>
      let n := if neg : bool then - u else u in
      if (min_int64 <=? n) && (n <=? max_int64) then inl n else inr ErrRange
  end.

(** * [strings.TrimSpace]

    The UTF-8 encodings of the runes [unicode.IsSpace] accepts. *)

Definition bytes_of (l : list nat) : list ascii := ascii_of_nat <$> l.
Definition spaces : list (list ascii) := bytes_of <$>
  ([[9]; [10]; [11]; [12]; [13]; [32]; [194; 133]; [194; 160]; [225; 154; 128];
    [226; 128; 168]; [226; 128; 169]; [226; 128; 175]; [226; 129; 159]; [227; 128; 128]]%nat
   ++ ((fun i => [226; 128; 128 + i]%nat) <$> seq 0 11)).

Fixpoint strip_prefix (p s : list ascii) : option (list ascii) :=
  match p, s with
  | [], s => Some s
  | a :: p, b :: s => if Ascii.eqb a b then strip_prefix p s else None
  | _ :: _, [] => None
  end.

(** Remove one of [runes] from the front, if there is one. *)
Fixpoint strip_one (runes : list (list ascii)) (s : list ascii) : option (list ascii) :=
  match runes with
  | [] => None
  | r :: rs => match strip_prefix r s with Some s' => Some s' | None => strip_one rs s end
  end.

Fixpoint trim_front (fuel : nat) (runes : list (list ascii)) (s : list ascii) : list ascii :=
  match fuel with
  | O => s
  | Datatypes.S k => match strip_one runes s with Some s' => trim_front k runes s' | None => s end
  end.

Definition TrimSpace (s : list ascii) : list ascii :=
  let s1 := trim_front (length s) spaces s in
  reverse (trim_front (length s1) (reverse <$> spaces) (reverse s1)).

(** * Round trip *)

Lemma digit_value_digit d : 0 <= d < 10 -> digit_value (digit d) = Some d.
Proof.
  intros Hd. unfold digit_value, digit. rewrite nat_ascii_embedding by lia.
  replace ((48 <=? Z.of_nat (48 + Z.to_nat d)) && (Z.of_nat (48 + Z.to_nat d) <=? 57)) with true.
  - f_equal. lia.
  - symmetry. apply andb_true_iff. split; apply Z.leb_le; lia.
Qed.

Lemma parse_digits_app acc s1 s2 :
  parse_digits acc (s1 ++ s2) =
  match parse_digits acc s1 with Some acc' => parse_digits acc' s2 | None => None end.
Proof.
  revert acc. induction s1 as [|c s1 IH]; intros acc; simpl; [done|].
  by destruct (digit_value c).
Qed.

Lemma parse_digits_digits fuel n :
  0 <= n < 10 ^ Z.of_nat fuel -> parse_digits 0 (digits fuel n) = Some n.
Proof.
  revert n. induction fuel as [|k IH]; intros n Hn; [simpl in *; f_equal; lia|].
  pose proof (Z.mod_pos_bound n 10 ltac:(lia)) as Hm.
  cbn [digits]. rewrite parse_digits_app. destruct (Z.ltb_spec n 10) as [Hlt|Hge].
  - cbn [parse_digits]. rewrite digit_value_digit by done. f_equal. rewrite Z.mod_small by lia. lia.
  - assert (Hk : 0 <= n / 10 < 10 ^ Z.of_nat k).
    { split; [apply Z.div_pos; lia|]. apply Z.div_lt_upper_bound; [lia|].
      rewrite <- Z.pow_succ_r by lia. rewrite <- Nat2Z.inj_succ. lia. }
    rewrite IH by done. cbn [parse_digits]. rewrite digit_value_digit by done. f_equal.
    pose proof (Z.div_mod n 10). lia.
Qed.

Lemma digits_head k n c rest :
  digits (Datatypes.S k) n = c :: rest -> 0 <= n < 10 ^ Z.of_nat (Datatypes.S k) ->
  exists d, 0 <= d < 10 /\ c = digit d.
Proof.
  revert n c rest. induction k as [|k IH]; intros n c rest Hd Hn;
    pose proof (Z.mod_pos_bound n 10 ltac:(lia)) as Hm; simpl in Hd.
  - destruct (n <? 10); simpl in Hd; simplify_eq; eauto.
  - destruct (Z.ltb_spec n 10); [simpl in Hd; simplify_eq; eauto|].
    destruct (digits (Datatypes.S k) (n / 10)) as [|c' r] eqn:E; simpl in E; rewrite E in Hd;
      simpl in Hd; simplify_eq; [eauto|].
    apply (IH (n / 10) c r E). split; [apply Z.div_pos; lia|].
    apply Z.div_lt_upper_bound; [lia|]. rewrite <- Z.pow_succ_r, <- Nat2Z.inj_succ by lia. lia.
Qed.

Lemma digits_cons k n : exists c rest, digits (Datatypes.S k) n = c :: rest.
Proof. simpl. destruct (if n <? 10 then [] else digits k (n / 10)); simpl; eauto. Qed.

Lemma digit_not_sign d : 0 <= d < 10 -> digit d <> "-"%char /\ digit d <> "+"%char.
Proof.
  intros Hd. assert (Hc : forall c, digit d = c -> nat_of_ascii c = (48 + Z.to_nat d)%nat).
  { intros c <-. unfold digit. by rewrite nat_ascii_embedding by lia. }
  split; intros E; apply Hc in E; vm_compute in E; lia.
Qed.

Lemma parse_uint_digits n :
  0 <= n < 10 ^ 20 -> parse_uint (digits 20 n) = Some n.
Proof.
  intros Hn. destruct (digits_cons 19 n) as (c & rest & E). unfold parse_uint. rewrite E, <- E.
  by apply parse_digits_digits.
Qed.

(** Numbers survive printing and parsing: [Atoi] reads back every
    [int64] that [FormatInt] printed, the smallest one included. *)
Theorem Atoi_FormatInt n : in_int64 n -> Atoi (FormatInt n) = inl n.
Proof.
  unfold in_int64, min_int64, max_int64. intros Hn.
  assert (Hrange : (min_int64 <=? n) && (n <=? max_int64) = true).
  { apply andb_true_iff. unfold min_int64, max_int64. split; apply Z.leb_le; lia. }
  unfold FormatInt. destruct (Z.ltb_spec n 0).
  - unfold Atoi. rewrite parse_uint_digits by lia. rewrite Z.opp_involutive. by rewrite Hrange.
  - destruct (digits_cons 19 n) as (c & rest & E).
    destruct (digits_head 19 n c rest E) as (d & Hd & ->); [lia|].
    destruct (digit_not_sign d Hd) as [Hm Hp].
    assert (Hbody : Atoi (digits 20 n) = match parse_uint (digits 20 n) with
      | None => inr ErrSyntax
      | Some u => if (min_int64 <=? u) && (u <=? max_int64) then inl u else inr ErrRange
      end).
    { unfold Atoi. rewrite E. destruct (digit d) as [[] [] [] [] [] [] [] []]; try done. }
    rewrite Hbody, parse_uint_digits by lia. by rewrite Hrange.
Qed.

Lemma Atoi_FormatInt_witness :
  FormatInt (- 120) = ["-"; "1"; "2"; "0"]%char /\ Atoi (FormatInt min_int64) = inl min_int64.
Proof.
  split; [reflexivity|]. apply (Atoi_FormatInt min_int64).
  unfold in_int64, min_int64, max_int64. lia.
Defined.
