(* ===== verification/KafkaAdapter.v ===== *)
(** The Kafka side: the consumer adapter ([internal/kafka/adapter.go]) and
    the lag gauge fed by its statistics events ([internal/metrics/lag.go]).
    The confluent-kafka-go client and the rebalance handler are the
    environment. *)
From S2P Require Import Prelude Types Strconv.

(** * The client library's data *)

Record kTopicPartition := mkKTP { kTopic : option string; kPartition : Z; kOffset : Z }.

Record kMessage := mkKMessage {
  kmTopicPartition : kTopicPartition;
  kmKey : bytes;
  kmValue : bytes;
  kmTimestamp : Z;
  kmHeaders : list Header
}.

(** The statistics payload, decoded: topic, partition (a string key) and
    consumer lag.  [None] is a payload that does not parse. *)
Abbreviation rdkafkaStats := (gmap string (gmap string Z)).

Inductive kEvent :=
| EvMessage (km : kMessage)
| EvError (code : string) (e : error)
| EvStats (stats : option rdkafkaStats)
| EvOther.

Inductive rebalance :=
| AssignedPartitions (tps : list kTopicPartition)
| RevokedPartitions (tps : list kTopicPartition).

(** [lag] is the gauge keyed by group, topic and partition; [None] when lag
    metrics are not wired. *)
Record Adapter := mkAdapter {
  topics : list string;
  groupID : string;
  lag : option (gmap (string * string * string) spec_float)
}.

(** [LPoll] answers with the rebalance callbacks the client invokes and the
    event it returns, if any. *)
Inductive lib : Type -> Type :=
| LPoll (timeoutMs : Z) : lib (list rebalance * option kEvent)
| LCommitOffsets (tps : list kTopicPartition) : lib (option error)
| LPause (tps : list kTopicPartition) : lib (option error)
| LResume (tps : list kTopicPartition) : lib (option error)
| LAssignment : lib (list kTopicPartition + error)
| LIncrementalAssign (tps : list kTopicPartition) : lib (option error)
| LIncrementalUnassign (tps : list kTopicPartition) : lib (option error)
| LClose : lib (option error)
| HOnPartitionsAssigned (tps : list TopicPartition) : lib unit
| HOnPartitionsRevoked (tps : list TopicPartition) : lib unit
| LNow : lib Z
| LRangeOrder (keys : list Z) : lib {l : list Z | l ≡ₚ keys}.

Local Abbreviation P := (prog lib Adapter).

(** * Conversions *)

Definition mapMessage (km : kMessage) (now : Z) : Message :=
  mkMessage (default "" (kTopic (kmTopicPartition km))) (kPartition (kmTopicPartition km))
    (kOffset (kmTopicPartition km)) (kmKey km) (kmValue km) (kmTimestamp km) (kmHeaders km) now.

Definition mapTopicPartition (tp : kTopicPartition) : TopicPartition :=
  mkTP (default "" (kTopic tp)) (kPartition tp).
Definition mapTopicPartitions (tps : list kTopicPartition) : list TopicPartition :=
  mapTopicPartition <$> tps.

(** * The lag gauge ([LagMetrics.Update]) *)

Definition update_partition (group topic : string) (part : string) (consumerLag : Z)
    (g : gmap (string * string * string) spec_float) :=
  if consumerLag <? 0 then g else <[(group, topic, part) := float64 consumerLag]> g.

Definition Update (group : string) (stats : option rdkafkaStats)
    (g : gmap (string * string * string) spec_float) : gmap (string * string * string) spec_float :=
  match stats with
  | None => g
  | Some topics =>
      map_fold (fun topic parts g => map_fold (update_partition group topic) g parts) g topics
  end.

(** * The adapter's methods *)

(** The callback the client invokes within [Poll]; its error goes to the
    client. *)
Definition rebalanceCb (ev : rebalance) : P (option error) :=
  match ev with
  | AssignedPartitions tps =>
      let* _ := ask (HOnPartitionsAssigned (mapTopicPartitions tps)) in
      ask (LIncrementalAssign tps)
  | RevokedPartitions tps =>
      let* _ := ask (HOnPartitionsRevoked (mapTopicPartitions tps)) in
      ask (LIncrementalUnassign tps)
  end.

Fixpoint rebalances (evs : list rebalance) : P unit :=
  match evs with
  | [] => Ret tt
  | ev :: evs => let* _ := rebalanceCb ev in rebalances evs
  end.

(** [a.c.Poll]. *)
Definition client_poll (timeoutMs : Z) : P (option kEvent) :=
  let* ans := ask (LPoll timeoutMs) in
  let* _ := rebalances ans.1 in
  Ret ans.2.

(** [handleEvent]: the messages collected, or the error. *)
Definition handleEvent (ev : kEvent) (msgs : list Message) : P (list Message + error) :=
  match ev with
  | EvMessage km => let* now := ask LNow in Ret (inl (msgs ++ [mapMessage km now]))
  | EvError code e => Ret (inr (Wrap ("kafka error (code=" +:+ code +:+ "): ") e))
  | EvStats stats =>
      let* _ := modify (fun a =>
        mkAdapter (topics a) (groupID a) (Update (groupID a) stats <$> lag a)) in
      Ret (inl msgs)
  | EvOther => Ret (inl msgs)
  end.

(** The drain loop, for at most [fuel] events; [None] when more are left. *)
Fixpoint drain (fuel : nat) (msgs : list Message) : P (option (list Message * option error)) :=
  match fuel with
  | O => Ret None
  | Datatypes.S k =>
      let* ev := client_poll 0 in
      match ev with
      | None => Ret (Some (msgs, None))
      | Some ev =>
          let* r := handleEvent ev msgs in
          match r with
          | inl msgs' => drain k msgs'
          | inr e => Ret (Some (if 0 <? len msgs then (msgs, None) else ([], Some e)))
          end
      end
  end.

Definition Poll (fuel : nat) (timeoutMs : Z) : P (option (list Message * option error)) :=
  let* ev := client_poll timeoutMs in
  match ev with
  | None => Ret (Some ([], None))
  | Some ev =>
      let* r := handleEvent ev [] in
      match r with
      | inr e => Ret (Some ([], Some e))
      | inl msgs => drain fuel msgs
      end
  end.

Definition serves (p : Z) (tp : kTopicPartition) : bool :=
  (kPartition tp =? p) && bool_decide (is_Some (kTopic tp)).

Definition fallback_topic (a : Adapter) : outcome Adapter string :=
  match topics a with
  | [] => Panicked IndexOutOfRange a
  | t :: _ => Returned t a
  end.

Definition topicForPartition (p : Z) : P string :=
  let* res := ask LAssignment in
  match res with
  | inr _ => act fallback_topic
  | inl tps => match List.find (serves p) tps with
               | Some tp => Ret (default "" (kTopic tp))
               | None => act fallback_topic
               end
  end.

Fixpoint resolve_all (l : list (Z * Z)) : P (list kTopicPartition) :=
  match l with
  | [] => Ret []
  | (p, off) :: l =>
      let* topic := topicForPartition p in
      let* rest := resolve_all l in
      Ret (mkKTP (Some topic) p off :: rest)
  end.

Definition CommitOffsets (offsets : gmap Z Z) : P (option error) :=
  let* order := ask (LRangeOrder (map_to_list offsets).*1) in
  let* tps := resolve_all (List.map (fun p => (p, default 0 (offsets !! p))) (proj1_sig order)) in
  let* err := ask (LCommitOffsets tps) in
  Ret (option_map (Wrap "commit offsets: ") err).

(** The offset of a [TopicPartition] that is not set is 0. *)
Definition partitionsToTopicPartitions (ps : list Z) : P (list kTopicPartition) :=
  resolve_all (List.map (fun p => (p, 0)) ps).

Definition Pause (ps : list Z) : P (option error) :=
  let* tps := partitionsToTopicPartitions ps in
  let* err := ask (LPause tps) in
  Ret (option_map (Wrap "pause partitions: ") err).

Definition Resume (ps : list Z) : P (option error) :=
  let* tps := partitionsToTopicPartitions ps in
  let* err := ask (LResume tps) in
  Ret (option_map (Wrap "resume partitions: ") err).

Definition Assignment : P (list TopicPartition + error) :=
  let* res := ask LAssignment in
  match res with
  | inr e => Ret (inr (Wrap "get assignment: " e))
  | inl tps => Ret (inl (mapTopicPartitions tps))
  end.

Definition Close : P (option error) :=
  let* err := ask LClose in
  Ret (option_map (Wrap "close consumer: ") err).

(** * Polling *)

(** The client returns the events of a list, one per poll, then none;
    [answer] answers everything else, rebalance callbacks included. *)
Definition feed (answer : forall X, lib X -> X) : handler lib (list kEvent) := fun X e evs =>
  match e in lib X return X * list kEvent with
  | LPoll t => (((answer _ (LPoll t)).1, hd_error evs), tl evs)
  | e => (answer _ e, evs)
  end.

Definition is_error (ev : kEvent) : bool := match ev with EvError _ _ => true | _ => false end.
Definition event_error (ev : kEvent) : option error :=
  match ev with
  | EvError code e => Some (Wrap ("kafka error (code=" +:+ code +:+ "): ") e)
  | _ => None
  end.

(** The events before the first error, and what follows. *)
Fixpoint split_error (evs : list kEvent) : list kEvent * list kEvent :=
  match evs with
  | [] => ([], [])
  | ev :: evs' => if is_error ev then ([], evs) else
                    let '(a, b) := split_error evs' in (ev :: a, b)
  end.

Definition messages_of (now : Z) (evs : list kEvent) : list Message :=
  omap (fun ev => match ev with EvMessage km => Some (mapMessage km now) | _ => None end) evs.

Definition gauge_event (a : Adapter) (ev : kEvent) : Adapter :=
  match ev with
  | EvStats stats => mkAdapter (topics a) (groupID a) (Update (groupID a) stats <$> lag a)
  | _ => a
  end.

Section Feed.
Variable answer : forall X, lib X -> X.
Local Abbreviation now := (answer Z LNow).
Local Abbreviation h := (feed answer).
Implicit Types (a : Adapter) (evs : list kEvent).

Lemma rebalances_feed rs evs a :
  exec h (rebalances rs) evs a = (Returned tt a, evs).
Proof.
  induction rs as [|r rs IH]; [done|].
  change (rebalances (r :: rs)) with (let* _ := rebalanceCb r in rebalances rs).
  rewrite exec_bind. assert (E : exists x, exec h (rebalanceCb r) evs a = (Returned x a, evs))
    by (destruct r; simpl; eauto).
  destruct E as [x ->]. exact IH.
Qed.

Lemma client_poll_feed t evs a :
  exec h (client_poll t) evs a = (Returned (hd_error evs) a, tl evs).
Proof.
  unfold client_poll. rewrite exec_ask. cbn [feed fst snd].
  rewrite exec_bind, rebalances_feed. done.
Qed.

Lemma handleEvent_feed ev msgs evs a :
  exec h (handleEvent ev msgs) evs a =
  (Returned (match event_error ev with
             | Some e => inr e
             | None => inl (msgs ++ messages_of now [ev])
             end) (gauge_event a ev), evs).
Proof. destruct ev; simpl; rewrite ?app_nil_r; done. Qed.

(** What a poll returns after the events [pre] and then [rest]. *)
Definition poll_result (msgs : list Message) (rest : list kEvent) : list Message * option error :=
  match rest with
  | ev :: _ => match event_error ev with
               | Some e => if 0 <? len msgs then (msgs, None) else ([], Some e)
               | None => (msgs, None)
               end
  | [] => (msgs, None)
  end.

Lemma drain_feed fuel msgs evs a :
  (length evs < fuel)%nat ->
  exec h (drain fuel msgs) evs a =
  (let '(pre, rest) := split_error evs in
   (Returned (Some (poll_result (msgs ++ messages_of now pre) rest)) (foldl gauge_event a pre),
    tl rest)).
Proof.
  revert fuel msgs a. induction evs as [|ev evs IH]; intros fuel msgs a Hf;
    (destruct fuel as [|k]; [simpl in Hf; lia|]);
    change (drain (Datatypes.S k) msgs) with
      (let* ev := client_poll 0 in
       match ev with
       | None => Ret (Some (msgs, None))
       | Some ev =>
           let* r := handleEvent ev msgs in
           match r with
           | inl msgs' => drain k msgs'
           | inr e => Ret (Some (if 0 <? len msgs then (msgs, None) else ([], Some e)))
           end
       end); rewrite exec_bind, client_poll_feed; cbn [hd_error tl].
  - simpl. by rewrite app_nil_r.
  - rewrite exec_bind, handleEvent_feed. simpl split_error.
    destruct ev as [km|code e|stats|]; cbn [event_error is_error gauge_event].
    1, 3, 4: rewrite IH by (simpl in Hf; lia); destruct (split_error evs) as [pre rest];
      simpl; by rewrite <- ?app_assoc, ?app_nil_r.
    simpl. rewrite app_nil_r. by destruct (0 <? len msgs).
Qed.

(** C28. [Poll] loses no message and keeps their order: it returns every
    message the client delivers before the first error (or until it has
    none left), in order, having applied every statistics event among them
    to the gauge; an error is returned only when no message came before
    it, and is dropped otherwise. *)
Theorem Poll_collects fuel t evs a :
  (length evs <= fuel)%nat ->
  exec h (Poll fuel t) evs a =
  (let '(pre, rest) := split_error evs in
   (Returned (Some (poll_result (messages_of now pre) rest)) (foldl gauge_event a pre), tl rest)).
Proof.
  intros Hf. unfold Poll. rewrite exec_bind, client_poll_feed.
  destruct evs as [|ev evs]; [done|]. cbn [hd_error tl].
  rewrite exec_bind, handleEvent_feed. simpl split_error.
  destruct ev as [km|code e|stats|]; cbn [event_error is_error gauge_event].
  1, 3, 4: rewrite drain_feed by (simpl in Hf; lia); by destruct (split_error evs) as [pre rest].
  done.
Qed.
End Feed.

(** * Resolving topics *)

(** A client whose answers do not change, recording the commit requests. *)
Definition recording (answer : forall X, lib X -> X) : handler lib (list (list kTopicPartition)) :=
  fun X e reqs => (answer X e, match e with LCommitOffsets tps => reqs ++ [tps] | _ => reqs end).

(** Ranging over the offsets visits each of them once. *)
Lemma ranged_offsets (offsets : gmap Z Z) order :
  order ≡ₚ (map_to_list offsets).*1 ->
  List.map (fun p => (p, default 0 (offsets !! p))) order ≡ₚ map_to_list offsets.
Proof.
  intros Hperm. rewrite Hperm, <- list_fmap_compose.
  assert (E : forall kvs : list (Z * Z), (forall kv, kv ∈ kvs -> offsets !! kv.1 = Some kv.2) ->
    ((fun p => (p, default 0 (offsets !! p))) ∘ fst) <$> kvs = kvs).
  { induction kvs as [|[p off] kvs IH]; intros Hkv; [done|]. rewrite fmap_cons, IH.
    - specialize (Hkv (p, off) (list_elem_of_here _ _)). simpl in *. by rewrite Hkv.
    - intros kv Hin. apply Hkv. by apply list_elem_of_further. }
  rewrite E; [done|]. intros [p off] Hin. by apply elem_of_map_to_list in Hin.
Qed.

Section Resolve.
Variable answer : forall X, lib X -> X.
Variable tps : list kTopicPartition.
Hypothesis Hassigned : answer _ LAssignment = inl tps.
Local Abbreviation h := (recording answer).

Lemma find_serves p tp :
  List.find (serves p) tps = Some tp -> tp ∈ tps /\ kPartition tp = p /\ is_Some (kTopic tp).
Proof.
  intros Hf. apply find_some in Hf as [Hin Hs]. apply andb_true_iff in Hs as [Hp Ht].
  zbool. apply bool_decide_eq_true in Ht. by split_and!; [apply list_elem_of_In|..].
Qed.

Lemma topicForPartition_exec p reqs a :
  (exists tp, tp ∈ tps /\ kPartition tp = p /\ is_Some (kTopic tp)) ->
  exists tp, exec h (topicForPartition p) reqs a = (Returned (default "" (kTopic tp)) a, reqs) /\
    tp ∈ tps /\ kPartition tp = p /\ is_Some (kTopic tp).
Proof.
  intros (tp & Hin & Hp & Ht). unfold topicForPartition. rewrite exec_ask. simpl. rewrite Hassigned.
  destruct (List.find (serves p) tps) as [tp'|] eqn:Ef.
  - exists tp'. split; [done|]. by apply find_serves.
  - exfalso. apply list_elem_of_In in Hin.
    pose proof (find_none _ _ Ef _ Hin) as Hn. unfold serves in Hn.
    rewrite (proj2 (Z.eqb_eq _ _) Hp), bool_decide_eq_true_2 in Hn; done.
Qed.

Lemma resolve_all_exec l reqs a :
  (forall po, po ∈ l -> exists tp, tp ∈ tps /\ kPartition tp = po.1 /\ is_Some (kTopic tp)) ->
  exists req, exec h (resolve_all l) reqs a = (Returned req a, reqs) /\
    (fun x => (kPartition x, kOffset x)) <$> req = l /\
    (forall x, x ∈ req -> exists tp, tp ∈ tps /\ kPartition tp = kPartition x /\ kTopic tp = kTopic x).
Proof.
  induction l as [|[p off] l IH]; intros Hl.
  { exists []. split_and!; [done|done|]. intros x Hx. by apply not_elem_of_nil in Hx. }
  destruct (topicForPartition_exec p reqs a (Hl (p, off) (list_elem_of_here _ _)))
    as (tp & Ht & Hin & Hp & [t Htopic]).
  destruct IH as (req & Hr & Hf & Hall); [intros po Hpo; apply Hl; by apply list_elem_of_further|].
  exists (mkKTP (Some (default "" (kTopic tp))) p off :: req).
  change (resolve_all ((p, off) :: l)) with
    (let* topic := topicForPartition p in
     let* rest := resolve_all l in Ret (mkKTP (Some topic) p off :: rest)).
  rewrite exec_bind, Ht, exec_bind, Hr. split_and!; [done|by rewrite fmap_cons, Hf|].
  intros x [->|Hx]%elem_of_cons; [|auto]. exists tp. simpl. rewrite Htopic. by split_and!.
Qed.

(** C29. Offsets are committed as they are, to an assigned topic: provided
    every partition to commit is assigned, [CommitOffsets] makes one
    request, with each partition's offset unchanged (no second increment)
    and exactly once, under the topic of an assigned partition of that
    number; its only error is the client's. *)
Theorem CommitOffsets_request offsets reqs a :
  (forall p off, offsets !! p = Some off ->
     exists tp, tp ∈ tps /\ kPartition tp = p /\ is_Some (kTopic tp)) ->
  exists req, exec h (CommitOffsets offsets) reqs a =
      (Returned (Wrap "commit offsets: " <$> answer _ (LCommitOffsets req)) a, reqs ++ [req]) /\
    (fun x => (kPartition x, kOffset x)) <$> req ≡ₚ map_to_list offsets /\
    (forall x, x ∈ req -> exists tp, tp ∈ tps /\ kPartition tp = kPartition x /\ kTopic tp = kTopic x).
Proof.
  intros Ho. unfold CommitOffsets. rewrite exec_ask. cbn [recording fst snd].
  destruct (answer _ (LRangeOrder (map_to_list offsets).*1)) as [order Hperm]. cbn [proj1_sig].
  set (l := List.map (fun p => (p, default 0 (offsets !! p))) order).
  destruct (resolve_all_exec l reqs a) as (req & Hr & Hf & Hall).
  { intros po Hpo. unfold l in Hpo. apply list_elem_of_fmap in Hpo as (p & -> & Hp).
    rewrite Hperm in Hp. apply list_elem_of_fmap in Hp as ([p' off] & -> & Hin).
    apply elem_of_map_to_list in Hin. simpl. eauto. }
  exists req. rewrite exec_bind, Hr. split_and!; [done| |done].
  rewrite Hf. by apply ranged_offsets.
Qed.
End Resolve.

(** * The lag gauge *)

Lemma update_parts_lookup group topic parts g k :
  map_fold (update_partition group topic) g parts !! k =
  match k with (gr, t, p) =>
    if bool_decide (gr = group /\ t = topic) then
      match parts !! p with
      | Some l => if l <? 0 then g !! k else Some (float64 l)
      | None => g !! k
      end
    else g !! k
  end.
Proof.
  destruct k as [[gr t] p]. revert g.
  induction parts as [|q l parts Hq Hfold IH] using map_first_key_ind; intros g.
  { rewrite map_fold_empty, lookup_empty. by case_bool_decide. }
  rewrite map_fold_insert_first_key by done. unfold update_partition at 1.
  case_bool_decide as Hk.
  - destruct Hk as [-> ->]. rewrite lookup_insert. case_decide as Ep.
    + subst q. destruct (l <? 0) eqn:El.
      * by rewrite IH, Hq.
      * by rewrite lookup_insert_eq.
    + assert (Hother : forall x : gmap _ spec_float, (if l <? 0 then x else
        <[(group, topic, q) := float64 l]> x) !! (group, topic, p) = x !! (group, topic, p)).
      { intros x. destruct (l <? 0); [done|]. rewrite lookup_insert_ne; congruence. }
      by rewrite Hother, IH.
  - assert (Hother : forall x : gmap _ spec_float, (if l <? 0 then x else
      <[(group, topic, q) := float64 l]> x) !! (gr, t, p) = x !! (gr, t, p)).
    { intros x. destruct (l <? 0); [done|]. rewrite lookup_insert_ne; [done|]. intros E. simplify_eq. tauto. }
    by rewrite Hother, IH.
Qed.

(** A statistics event updates exactly the gauges of the partitions it
    reports with a known lag: under the adapter's group, the gauge of each
    topic and partition becomes the reported lag, unless that is negative
    (unknown), and every other gauge keeps its value; a payload that does not
    parse changes nothing. *)
Theorem Update_lookup group stats g gr t p :
  Update group stats g !! (gr, t, p) =
  match stats with
  | Some topics =>
      match topics !! t with
      | Some parts =>
          match parts !! p with
          | Some l => if bool_decide (gr = group) && negb (l <? 0) then Some (float64 l)
                      else g !! (gr, t, p)
          | None => g !! (gr, t, p)
          end
      | None => g !! (gr, t, p)
      end
  | None => g !! (gr, t, p)
  end.
Proof.
  destruct stats as [topics|]; [|done]. unfold Update. revert g.
  induction topics as [|tq parts topics Hq Hfold IH] using map_first_key_ind; intros g.
  { by rewrite map_fold_empty, lookup_empty. }
  rewrite map_fold_insert_first_key by done. rewrite update_parts_lookup, lookup_insert.
  destruct (decide (tq = t)) as [->|Et].
  - rewrite IH, Hq. destruct (decide (gr = group)) as [->|Hg].
    + rewrite !bool_decide_eq_true_2 by done. destruct (parts !! p) as [l|]; [|done].
      by destruct (l <? 0).
    + rewrite !bool_decide_eq_false_2 by tauto. by destruct (parts !! p).
  - rewrite bool_decide_eq_false_2 by (intros [_ ->]; done). apply IH.
Qed.

(** * Topics that share a partition number *)

Definition offline : error := Leaf "offline".

(** The client's answers, for an assignment [tps]. *)
Definition client (tps : list kTopicPartition) : forall X, lib X -> X := fun X e =>
  match e in lib X return X with
  | LPoll _ => ([], None)
  | LCommitOffsets _ => None
  | LPause _ => None
  | LResume _ => None
  | LAssignment => inl tps
  | LIncrementalAssign _ => None
  | LIncrementalUnassign _ => None
  | LClose => None
  | HOnPartitionsAssigned _ => tt
  | HOnPartitionsRevoked _ => tt
  | LNow => 0
  | LRangeOrder keys => exist _ keys (Permutation_refl keys)
  end.

Definition orders := mkKTP (Some "orders") 0 0.
Definition payments := mkKTP (Some "payments") 0 0.

(** Partitions are told apart by their number only: when two subscribed
    topics have a partition of the same number assigned, the offset of that
    number is committed, and its pauses are applied, to the topic listed
    first, whichever topic the messages came from. *)
Theorem topic_ambiguous off :
  exec (recording (client [orders; payments])) (CommitOffsets {[ 0 := off ]}) []
    (mkAdapter ["orders"; "payments"] "g" None) =
  (Returned None (mkAdapter ["orders"; "payments"] "g" None), [[mkKTP (Some "orders") 0 off]]) /\
  mapMessage (mkKMessage (mkKTP (Some "payments") 0 (off - 1)) None None 0 []) 0 =
    mkMessage "payments" 0 (off - 1) None None 0 [] 0.
Proof. split; reflexivity. Qed.

(** * Witnesses *)

Definition demo_adapter : Adapter := mkAdapter ["orders"] "g" (Some ∅).
Definition demo_km (o : Z) : kMessage := mkKMessage (mkKTP (Some "orders") 0 o) None None 0 [].
Definition demo_events : list kEvent :=
  [EvMessage (demo_km 7); EvStats (Some {[ "orders" := {[ "0" := 12 ]} ]}); EvMessage (demo_km 8);
   EvError "Local: Broker transport failure" offline; EvMessage (demo_km 9)].

(** The two messages before the error are returned, the error is not. *)
Lemma Poll_collects_witness :
  exec (feed (client [orders])) (Poll 5 100) demo_events demo_adapter =
    (Returned (Some ([mapMessage (demo_km 7) 0; mapMessage (demo_km 8) 0], None))
       (gauge_event demo_adapter (EvStats (Some {[ "orders" := {[ "0" := 12 ]} ]}))),
     [EvMessage (demo_km 9)]).
Proof. apply (Poll_collects (client [orders]) 5 100 demo_events demo_adapter). simpl. lia. Defined.

Lemma CommitOffsets_request_witness :
  exists req, exec (recording (client [orders])) (CommitOffsets {[ 0 := 43 ]}) [] demo_adapter =
      (Returned (Wrap "commit offsets: " <$> client [orders] _ (LCommitOffsets req)) demo_adapter,
       [] ++ [req]) /\
    (fun x => (kPartition x, kOffset x)) <$> req ≡ₚ map_to_list {[ 0 := 43 ]} /\
    (forall x, x ∈ req -> exists tp, tp ∈ [orders] /\ kPartition tp = kPartition x /\
                                     kTopic tp = kTopic x).
Proof.
  apply (CommitOffsets_request (client [orders]) [orders] eq_refl {[ 0 := 43 ]} [] demo_adapter).
  intros p off Hp. apply lookup_singleton_Some in Hp as [<- _].
  exists orders. split_and!; [apply list_elem_of_here|done|by eexists].
Defined.
