(* ===== verification/Linking.v ===== *)
(** Linking: the poll loop of [PollLoop] with the adapter of [KafkaAdapter] in
    place of its Kafka interface, and with the rebalance callbacks run where
    the client fires them, inside the adapter's [Poll].  The linked program
    refines the poll loop, and commits to Kafka only what it read as
    committable. *)
From S2P Require Import Prelude Types PollLoop.
From S2P Require KafkaAdapter.

(** * Running one program inside another

    [interp] runs a program on a part of a larger state ([get], [put]) and
    answers its questions by programs; the answer [None] (out of fuel) ends
    it. *)
Section Interp.
Context {E E' : Type -> Type} {T T' : Type}.
Variable get : T' -> T.
Variable put : T -> T' -> T'.

Definition on_part {X} (f : T -> outcome T X) (s' : T') : outcome T' X :=
  match f (get s') with
  | Returned x s => Returned x (put s s')
  | Panicked p s => Panicked p (put s s')
  end.

Variable q : forall X, E X -> prog E' T' (option X).

Fixpoint interp {A} (c : prog E T A) : prog E' T' (option A) :=
  match c with
  | Ret a => Ret (Some a)
  | Throw p => Throw p
  | Act f k => Act (on_part f) (fun x => interp (k x))
  | Ask e k =>
      let* ox := q _ e in
      match ox with
      | Some x => interp (k x)
      | None => Ret None
      end
  end.
End Interp.

(** * Runs

    [runs c s l a s']: from [s], with the exchanges [l], [c] returns [a] in
    [s']. *)
Inductive runs {E S A} : prog E S A -> S -> list (exchange E) -> A -> S -> Prop :=
| runs_ret a s : runs (Ret a) s [] a s
| runs_act X (f : S -> outcome S X) k s x s1 l a s' :
    f s = Returned x s1 -> runs (k x) s1 l a s' -> runs (Act f k) s l a s'
| runs_ask X (e : E X) k x s l a s' :
    runs (k x) s l a s' -> runs (Ask e k) s (asked e x :: l) a s'.

(** An execution is a run, by the questions it asked. *)
Lemma exec_runs {E S A O} (h : handler E O) (c : prog E S A) s o l0 a s' o' l1 :
  exec (traced h) c (o, l0) s = (Returned a s', (o', l1)) ->
  exists l, l1 = l0 ++ l /\ runs c s l a s'.
Proof.
  revert s o l0. induction c as [b|p|X f k IH|X e k IH]; intros s o l0 Hx; simpl in Hx.
  - simplify_eq. exists []. rewrite app_nil_r. split; [done|constructor].
  - done.
  - destruct (f s) as [y s1|] eqn:Hf; [|done]. destruct (IH _ _ _ _ Hx) as (l & -> & Hr).
    exists l. split; [done|]. by econstructor.
  - unfold traced in Hx at 1. simpl in Hx. destruct (h X e o) as [y o2].
    destruct (IH _ _ _ _ Hx) as (l & -> & Hr). exists (asked e y :: l).
    rewrite <- app_assoc. split; [done|by constructor].
Qed.

(** The same as an equation by the head of the program. *)
Fixpoint runs_eq {E S A} (c : prog E S A) (s : S) (l : list (exchange E)) (a : A) (s' : S) : Prop :=
  match c with
  | Ret b => a = b /\ s' = s /\ l = []
  | Throw _ => False
  | Act f k => exists x s1, f s = Returned x s1 /\ runs_eq (k x) s1 l a s'
  | Ask e k => exists x l1, l = asked e x :: l1 /\ runs_eq (k x) s l1 a s'
  end.

Lemma runs_iff {E S A} (c : prog E S A) s l a s' : runs c s l a s' <-> runs_eq c s l a s'.
Proof.
  split.
  - induction 1; simpl; eauto.
  - revert s l. induction c as [b|p|X f k IH|X e k IH]; intros s l; simpl.
    + intros (-> & -> & ->). constructor.
    + done.
    + intros (x & s1 & Hf & Hk). econstructor; eauto.
    + intros (x & l1 & -> & Hk). constructor. auto.
Qed.

Lemma runs_bind {E S A B} (c : prog E S A) (f : A -> prog E S B) s l b s' :
  runs (bind c f) s l b s' <->
  exists a s1 l1 l2, l = l1 ++ l2 /\ runs c s l1 a s1 /\ runs (f a) s1 l2 b s'.
Proof.
  rewrite runs_iff. setoid_rewrite (runs_iff c). revert s l.
  induction c as [a|p|X g k IH|X e k IH]; intros s l; simpl.
  - rewrite <- runs_iff. split.
    + intros Hf. by exists a, s, [], l.
    + intros (? & ? & l1 & l2 & -> & (-> & -> & ->) & Hf). exact Hf.
  - split; [done|]. by intros (? & ? & ? & ? & _ & ? & _).
  - setoid_rewrite IH. naive_solver.
  - setoid_rewrite IH. split.
    + intros (x & l1 & -> & a & s1 & l2 & l3 & -> & Hk & Hf).
      exists a, s1, (asked e x :: l2), l3. split_and!; eauto.
    + intros (a & s1 & l1 & l2 & -> & (x & l3 & -> & Hk) & Hf).
      exists x, (l3 ++ l2). split; [done|]. eauto 8.
Qed.

(** What holds of every path holds of every run. *)
Lemma wp_runs {E S A} (c : prog E S A) Q s l0 l a s' :
  wp c Q s l0 -> runs c s l a s' -> Q a s' (l0 ++ l).
Proof.
  rewrite runs_iff. revert s l0 l. induction c as [b|p|X f k IH|X e k IH]; intros s l0 l; simpl.
  - intros HQ (-> & -> & ->). by rewrite app_nil_r.
  - done.
  - intros Hw (x & s1 & Hf & Hk). rewrite Hf in Hw. eauto.
  - intros Hw (x & l1 & -> & Hk). specialize (IH x s (l0 ++ [asked e x]) l1 (Hw x) Hk).
    by rewrite <- app_assoc in IH.
Qed.

(** * Obligations

    [obeys I pre post Q w c]: from states in [I], [c] never panics, keeps [I],
    asks only what [pre] allows for what is known, [w], and ends with [Q];
    [post] says what an answer may be and what is known after it.  Knowledge
    only grows. *)
Section Obeys.
Context {K : Type} (le : K -> K -> Prop) `{!PreOrder le}.

Section One.
Context {E : Type -> Type} {S : Type}.
Variable I : S -> Prop.
Variable pre : K -> forall X, E X -> Prop.
Variable post : K -> forall X, E X -> X -> K -> Prop.

Fixpoint obeys {A} (Q : K -> A -> Prop) (w : K) (c : prog E S A) : Prop :=
  match c with
  | Ret a => Q w a
  | Throw _ => False
  | Act f k => forall s, I s ->
      match f s with
      | Returned x s' => I s' /\ obeys Q w (k x)
      | Panicked _ _ => False
      end
  | Ask e k => pre w _ e /\
      forall x w', le w w' -> post w _ e x w' -> obeys Q w' (k x)
  end.

Lemma obeys_bind {A B} (Q : K -> B -> Prop) w (c : prog E S A) (f : A -> prog E S B) :
  obeys (fun w' a => obeys Q w' (f a)) w c -> obeys Q w (bind c f).
Proof.
  revert w. induction c as [a|p|X g k IH|X e k IH]; intros w; simpl; auto.
  - intros Ho s Hs. specialize (Ho s Hs). destruct (g s); [|done]. split; [tauto|].
    apply IH, Ho.
  - intros [Hp Ho]. split; [done|]. eauto.
Qed.

Lemma obeys_mono {A} (Q Q' : K -> A -> Prop) w (c : prog E S A) :
  (forall w' a, le w w' -> Q w' a -> Q' w' a) -> obeys Q w c -> obeys Q' w c.
Proof.
  revert w. induction c as [a|p|X g k IH|X e k IH]; intros w HQ; simpl; auto.
  - apply HQ. reflexivity.
  - intros Ho s Hs. specialize (Ho s Hs). destruct (g s); [|done]. split; [tauto|].
    apply IH; [done|apply Ho].
  - intros [Hp Ho]. split; [done|]. intros x w' Hw Hx. apply IH; [|auto].
    intros w2 a Hw2. apply HQ. by transitivity w'.
Qed.

Lemma obeys_seq {A B} (R : K -> A -> Prop) (Q : K -> B -> Prop) w (c : prog E S A) f :
  obeys R w c -> (forall w' a, le w w' -> R w' a -> obeys Q w' (f a)) -> obeys Q w (bind c f).
Proof. intros Hc Hf. apply obeys_bind. by eapply obeys_mono. Qed.

Lemma obeys_ask {X B} (Q : K -> B -> Prop) w (e : E X) (f : X -> prog E S B) :
  pre w _ e -> (forall x w', le w w' -> post w _ e x w' -> obeys Q w' (f x)) ->
  obeys Q w (bind (ask e) f).
Proof. by split. Qed.

Lemma obeys_modify {B} (Q : K -> B -> Prop) w (g : S -> S) (f : unit -> prog E S B) :
  (forall s, I s -> I (g s)) -> obeys Q w (f tt) -> obeys Q w (bind (modify g) f).
Proof. intros Hg Hf s Hs. split; [by apply Hg|done]. Qed.

Lemma obeys_gets {X B} (Q : K -> B -> Prop) w (g : S -> X) (f : X -> prog E S B) :
  (forall x, obeys Q w (f x)) -> obeys Q w (bind (gets g) f).
Proof. intros Hf s Hs. split; [done|apply Hf]. Qed.

(** More known, more allowed. *)
Lemma obeys_grow {A} (Q : K -> A -> Prop) w w1 (c : prog E S A) :
  (forall w w' X (e : E X), le w w' -> pre w X e -> pre w' X e) ->
  (forall w w1 X (e : E X) x w', le w w1 -> le w1 w' -> post w1 X e x w' -> post w X e x w') ->
  (forall w w' a, le w w' -> Q w a -> Q w' a) ->
  le w w1 -> obeys Q w c -> obeys Q w1 c.
Proof.
  intros Hpre Hpost HQ. revert w w1. induction c as [a|p|X g k IH|X e k IH]; intros w w1 Hw; simpl.
  - by apply HQ.
  - done.
  - intros Ho s Hs. specialize (Ho s Hs). destruct (g s); [|done]. split; [tauto|].
    eapply IH; [done|apply Ho].
  - intros [Hp Ho]. split; [by eapply Hpre|]. intros x w' Hw' Hx.
    apply (IH x w' w'); [reflexivity|]. apply Ho; [by transitivity w1|].
    by apply (Hpost w w1).
Qed.
End One.

(** What an interpreter preserves. *)
Lemma interp_obeys {E E' : Type -> Type} {T T' : Type} (get : T' -> T) (put : T -> T' -> T')
    (I : T -> Prop) (I' : T' -> Prop)
    pre (post : K -> forall X, E X -> X -> K -> Prop)
    pre' (post' : K -> forall X, E' X -> X -> K -> Prop)
    (q : forall X, E X -> prog E' T' (option X)) A Q w (c : prog E T A) :
  (forall s', I' s' -> I (get s') /\ forall s, I s -> I' (put s s')) ->
  (forall w X (e : E X), pre w X e ->
     obeys I' pre' post' (fun w' ox => forall x, ox = Some x -> post w X e x w') w (q X e)) ->
  obeys I pre post Q w c ->
  obeys I' pre' post' (fun w' oa => forall a, oa = Some a -> Q w' a) w (interp get put q c).
Proof.
  intros Hlens Hq. revert w. induction c as [a|p|X g k IH|X e k IH]; intros w; simpl.
  - by intros HQ ? [= <-].
  - done.
  - intros Ho s' Hs'. destruct (Hlens s' Hs') as [Hg Hput]. specialize (Ho (get s') Hg).
    unfold on_part. destruct (g (get s')); [|done]. split; [apply Hput, Ho|]. apply IH, Ho.
  - intros [Hp Ho]. eapply obeys_seq; [by apply Hq|]. intros w' [x|] Hw' Hx; [|done].
    apply IH, Ho; [done|]. by apply Hx.
Qed.
End Obeys.

(** * The linked poll goroutine

    Its questions are the adapter's, to the client library, and the loop's, to
    the dispatcher and the coordinator. *)
Inductive linked : Type -> Type :=
| ToClient {X} (e : KafkaAdapter.lib X) : linked X
| ToDispatcher {X} (e : iface X) : linked X.

Definition state : Type := PollLoop * KafkaAdapter.Adapter.
Local Abbreviation P := (prog linked state).

Definition get_loop (s : state) : PollLoop := s.1.
Definition put_loop (x : PollLoop) (s : state) : state := (x, s.2).
Definition get_adapter (s : state) : KafkaAdapter.Adapter := s.2.
Definition put_adapter (x : KafkaAdapter.Adapter) (s : state) : state := (s.1, x).

Section Link.
(** The handler's callbacks, run inside an adapter's method. *)
Variable on_callback : callback -> P (option unit).

Definition adapter_question X (e : KafkaAdapter.lib X) : P (option X) :=
  match e in KafkaAdapter.lib Y return P (option Y) with
  | KafkaAdapter.HOnPartitionsAssigned tps => on_callback (Assigned tps)
  | KafkaAdapter.HOnPartitionsRevoked tps => on_callback (Revoked tps)
  | e => let* x := ask (ToClient e) in Ret (Some x)
  end.

Definition in_adapter {X} (c : prog KafkaAdapter.lib KafkaAdapter.Adapter X) : P (option X) :=
  interp get_adapter put_adapter adapter_question c.
End Link.

(** A callback within a callback: the client fires them from [Poll] only. *)
Definition no_callback (cb : callback) : P (option unit) := Ret None.

Definition poll_answer (r : list Message * option error) : list Message + error :=
  match r with (msgs, None) => inl msgs | (_, Some e) => inr e end.

(** The questions of the poll loop; [fuel] bounds the events one [Poll]
    drains. *)
Definition loop_question (on_callback : callback -> P (option unit)) (fuel : nat)
    X (e : iface X) : P (option X) :=
  match e in iface Y return P (option Y) with
  | KPoll t =>
      let* r := in_adapter on_callback (KafkaAdapter.Poll fuel t) in
      match r with
      | Some (Some r) => Ret (Some ([], poll_answer r))
      | _ => Ret None
      end
  | KCommitOffsets m => in_adapter no_callback (KafkaAdapter.CommitOffsets m)
  | KPause ps => in_adapter no_callback (KafkaAdapter.Pause ps)
  | KResume ps => in_adapter no_callback (KafkaAdapter.Resume ps)
  | KAssignment => in_adapter no_callback KafkaAdapter.Assignment
  | KClose => in_adapter no_callback KafkaAdapter.Close
  | e => let* x := ask (ToDispatcher e) in Ret (Some x)
  end.

Definition linked_callback (cb : callback) : P (option unit) :=
  interp get_loop put_loop (loop_question no_callback 0) (run_callback cb).

Definition link (fuel : nat) {X} (c : prog iface PollLoop X) : P (option X) :=
  interp get_loop put_loop (loop_question linked_callback fuel) c.

(** * What the linked program asks

    [known] are the partitions in use; what is known are the offsets, by
    partition, that were read as committable. *)
Definition knowledge : Type := Z -> Z -> Prop.
Definition knows (w w' : knowledge) : Prop := forall p off, w p off -> w' p off.

#[global] Instance knows_preorder : PreOrder knows.
Proof. split; unfold knows; [by intros w p off|intros w1 w2 w3 H1 H2 p off Hp; auto]. Qed.

Section Asks.
Variable known : Z -> Prop.

Definition tp_known (tp : TopicPartition) : Prop := known (tpPartition tp).
Definition msg_known (m : Message) : Prop := known (Partition m).
Definition callback_known (cb : callback) : Prop :=
  match cb with Assigned tps => Forall tp_known tps | Revoked _ => True end.

Definition loop_asks (w : knowledge) X (e : iface X) : Prop :=
  match e with
  | KCommitOffsets m => map_Forall (fun p off => w p off) m
  | DSend p msgs => known p /\ Forall (fun msg => Partition msg = p) msgs
  | DOnPartitionsAssigned tps => Forall tp_known tps
  | _ => True
  end.

Definition loop_learns (w : knowledge) X (e : iface X) (x : X) (w' : knowledge) : Prop :=
  match e in iface Y return Y -> Prop with
  | KPoll _ => fun ans => Forall callback_known ans.1 /\
      match ans.2 with inl msgs => Forall msg_known msgs | inr _ => True end
  | CCommittable => fun m => map_Forall (fun p off => w' p off) m
  | _ => fun _ => True
  end x.

Definition rebalance_known (r : KafkaAdapter.rebalance) : Prop :=
  match r with
  | KafkaAdapter.AssignedPartitions tps => Forall (fun tp => known (KafkaAdapter.kPartition tp)) tps
  | KafkaAdapter.RevokedPartitions _ => True
  end.

Definition event_known (ev : KafkaAdapter.kEvent) : Prop :=
  match ev with
  | KafkaAdapter.EvMessage km => known (KafkaAdapter.kPartition (KafkaAdapter.kmTopicPartition km))
  | _ => True
  end.

Definition adapter_asks (w : knowledge) X (e : KafkaAdapter.lib X) : Prop :=
  match e with
  | KafkaAdapter.LCommitOffsets tps => Forall (fun tp => w (KafkaAdapter.kPartition tp) (KafkaAdapter.kOffset tp)) tps
  | KafkaAdapter.HOnPartitionsAssigned tps => Forall tp_known tps
  | _ => True
  end.

Definition adapter_learns (w : knowledge) X (e : KafkaAdapter.lib X) (x : X) (w' : knowledge) : Prop :=
  match e in KafkaAdapter.lib Y return Y -> Prop with
  | KafkaAdapter.LPoll _ => fun ans => Forall rebalance_known ans.1 /\ from_option event_known True ans.2
  | _ => fun _ => True
  end x.

(** Questions to the dispatcher are not about Kafka. *)
Definition about_kafka {X} (e : iface X) : bool :=
  match e with
  | KPoll _ | KCommitOffsets _ | KPause _ | KResume _ | KAssignment | KClose => true
  | _ => false
  end.

Definition linked_asks (w : knowledge) X (e : linked X) : Prop :=
  match e with
  | ToClient e => adapter_asks w _ e
  | ToDispatcher e => loop_asks w _ e /\ about_kafka e = false
  end.

Definition linked_learns (w : knowledge) X (e : linked X) (x : X) (w' : knowledge) : Prop :=
  match e in linked Y return Y -> Prop with
  | ToClient e => fun x => adapter_learns w _ e x w'
  | ToDispatcher e => fun x => loop_learns w _ e x w'
  end x.

(** The adapter falls back to its first topic. *)
Definition has_topic (a : KafkaAdapter.Adapter) : Prop := KafkaAdapter.topics a <> [].
Definition any_loop (s : PollLoop) : Prop := True.
Definition linked_ok (s : state) : Prop := has_topic s.2.

Local Abbreviation loop_obeys := (obeys knows any_loop loop_asks loop_learns).
Local Abbreviation adapter_obeys := (obeys knows has_topic adapter_asks adapter_learns).
Local Abbreviation linked_obeys := (obeys knows linked_ok linked_asks linked_learns).

(** ** The adapter's methods *)

Lemma mapTopicPartitions_known tps :
  Forall (fun tp => known (KafkaAdapter.kPartition tp)) tps ->
  Forall tp_known (KafkaAdapter.mapTopicPartitions tps).
Proof. intros H. by apply Forall_fmap. Qed.

Lemma rebalances_obeys rs w :
  Forall rebalance_known rs -> adapter_obeys (fun _ _ => True) w (KafkaAdapter.rebalances rs).
Proof.
  revert w. induction rs as [|r rs IH]; intros w Hr; [done|].
  apply Forall_cons in Hr as [Hr Hrs].
  change (KafkaAdapter.rebalances (r :: rs)) with
    (let* _ := KafkaAdapter.rebalanceCb r in KafkaAdapter.rebalances rs).
  apply (obeys_bind knows). destruct r as [tps|tps]; simpl.
  - split; [by apply mapTopicPartitions_known|]. intros _ w1 Hw1 _. split; [done|]. intros e w2 Hw2 _.
    by apply IH.
  - split; [done|]. intros _ w1 Hw1 _. split; [done|]. intros e w2 Hw2 _. by apply IH.
Qed.

Lemma client_poll_obeys t w :
  adapter_obeys (fun _ ev => from_option event_known True ev) w (KafkaAdapter.client_poll t).
Proof.
  apply (obeys_ask knows); [done|]. intros ans w1 Hw1 [Hr He].
  eapply (obeys_seq knows); [by apply rebalances_obeys|]. by intros.
Qed.

Definition handled (r : list Message + error) : Prop :=
  match r with inl msgs => Forall msg_known msgs | inr _ => True end.

Lemma handleEvent_obeys ev msgs w :
  event_known ev -> Forall msg_known msgs ->
  adapter_obeys (fun _ r => handled r) w (KafkaAdapter.handleEvent ev msgs).
Proof.
  intros He Hm. destruct ev as [km|code e|stats|]; simpl; try done.
  split; [done|]. intros now w1 Hw1 _. apply Forall_app. split; [done|]. by constructor.
Qed.

Definition polled (r : option (list Message * option error)) : Prop :=
  forall msgs err, r = Some (msgs, err) -> Forall msg_known msgs.

Lemma drain_obeys fuel msgs w :
  Forall msg_known msgs -> adapter_obeys (fun _ r => polled r) w (KafkaAdapter.drain fuel msgs).
Proof.
  revert msgs w. induction fuel as [|n IH]; intros msgs w Hm; [done|].
  change (adapter_obeys (fun _ r => polled r) w
    (let* ev := KafkaAdapter.client_poll 0 in
     match ev with
     | None => Ret (Some (msgs, None))
     | Some ev =>
         let* r := KafkaAdapter.handleEvent ev msgs in
         match r with
         | inl msgs' => KafkaAdapter.drain n msgs'
         | inr e => Ret (Some (if 0 <? len msgs then (msgs, None) else ([], Some e)))
         end
     end)).
  eapply (obeys_seq knows); [apply client_poll_obeys|]. intros w1 [ev|] Hw1 He; [|by intros ?? [= <- _]].
  eapply (obeys_seq knows); [by apply handleEvent_obeys|]. intros w2 [msgs'|e] Hw2 Hr; [by apply IH|].
  intros ms err [= Hx]. destruct (0 <? len msgs); by simplify_eq.
Qed.

Lemma Poll_obeys fuel t w :
  adapter_obeys (fun _ r => polled r) w (KafkaAdapter.Poll fuel t).
Proof.
  unfold KafkaAdapter.Poll. eapply (obeys_seq knows); [apply client_poll_obeys|].
  intros w1 [ev|] Hw1 He; [|by intros ?? [= <- _]].
  eapply (obeys_seq knows); [by apply handleEvent_obeys|]. intros w2 [msgs'|e] Hw2 Hr; [by apply drain_obeys|].
  by intros ?? [= <- _].
Qed.

Lemma topicForPartition_obeys p w : adapter_obeys (fun _ _ => True) w (KafkaAdapter.topicForPartition p).
Proof.
  assert (Hf : forall w', adapter_obeys (fun _ _ => True) w' (act KafkaAdapter.fallback_topic)).
  { intros w' a Ha. unfold KafkaAdapter.fallback_topic. unfold has_topic in Ha.
    destruct (KafkaAdapter.topics a) eqn:E; [done|]. by rewrite <- E in Ha. }
  apply (obeys_ask knows); [done|]. intros [tps|e] w1 Hw1 _; [|apply Hf].
  destruct (List.find _ tps); [done|apply Hf].
Qed.

Definition resolves (l : list (Z * Z)) (tps : list KafkaAdapter.kTopicPartition) : Prop :=
  List.map (fun tp => (KafkaAdapter.kPartition tp, KafkaAdapter.kOffset tp)) tps = l.

Lemma resolve_all_obeys l w :
  adapter_obeys (fun _ tps => resolves l tps) w (KafkaAdapter.resolve_all l).
Proof.
  revert w. induction l as [|[p off] l IH]; intros w; [done|].
  change (KafkaAdapter.resolve_all ((p, off) :: l)) with
    (let* topic := KafkaAdapter.topicForPartition p in
     let* rest := KafkaAdapter.resolve_all l in
     Ret (KafkaAdapter.mkKTP (Some topic) p off :: rest)).
  eapply (obeys_seq knows); [apply topicForPartition_obeys|]. intros w1 topic Hw1 _.
  eapply (obeys_seq knows); [apply IH|]. intros w2 rest Hw2 Hr. unfold resolves in *. simpl. by rewrite Hr.
Qed.

Lemma CommitOffsets_obeys m w :
  map_Forall (fun p off => w p off) m ->
  adapter_obeys (fun _ _ => True) w (KafkaAdapter.CommitOffsets m).
Proof.
  intros Hm. apply (obeys_ask knows); [done|]. intros [order Ho] w1 Hw1 _. simpl proj1_sig.
  eapply (obeys_seq knows); [apply resolve_all_obeys|]. intros w2 tps Hw2 Hr. split; [|done].
  simpl. apply Forall_forall. intros tp Htp. apply Hw2, Hw1.
  assert (Hin : (KafkaAdapter.kPartition tp, KafkaAdapter.kOffset tp) ∈
    List.map (fun p => (p, default 0 (m !! p))) order).
  { unfold resolves in Hr. rewrite <- Hr.
    exact (list_elem_of_fmap_2 (fun tp => (KafkaAdapter.kPartition tp, KafkaAdapter.kOffset tp)) tps tp Htp). }
  apply list_elem_of_fmap in Hin as (p & [= -> ->] & Hp).
  rewrite Ho in Hp. apply list_elem_of_fmap in Hp as ([q off] & -> & Hq).
  apply elem_of_map_to_list in Hq. simpl. rewrite Hq. by apply Hm.
Qed.

Lemma resolving_obeys {X} l (k : list KafkaAdapter.kTopicPartition -> prog KafkaAdapter.lib KafkaAdapter.Adapter X) w :
  (forall w' tps, adapter_obeys (fun _ _ => True) w' (k tps)) ->
  adapter_obeys (fun _ _ => True) w (let* tps := KafkaAdapter.partitionsToTopicPartitions l in k tps).
Proof. intros Hk. eapply (obeys_seq knows); [apply resolve_all_obeys|]. auto. Qed.

Lemma Pause_obeys ps w : adapter_obeys (fun _ _ => True) w (KafkaAdapter.Pause ps).
Proof. by apply resolving_obeys. Qed.

Lemma Resume_obeys ps w : adapter_obeys (fun _ _ => True) w (KafkaAdapter.Resume ps).
Proof. by apply resolving_obeys. Qed.

Lemma Assignment_obeys w : adapter_obeys (fun _ _ => True) w KafkaAdapter.Assignment.
Proof. split; [done|]. by intros [tps|e] w1 Hw1 _. Qed.

Lemma Close_obeys w : adapter_obeys (fun _ _ => True) w KafkaAdapter.Close.
Proof. by split. Qed.

(** ** The poll loop's routines *)

Local Abbreviation fine := (fun (_ : knowledge) (_ : unit) => True).

Lemma for_each_obeys {X} (xs : list X) f w :
  (forall x w', x ∈ xs -> loop_obeys fine w' (f x)) -> loop_obeys fine w (for_each xs f).
Proof.
  revert w. induction xs as [|x xs IH]; intros w Hf; [done|].
  change (for_each (x :: xs) f) with (let* _ := f x in for_each xs f).
  eapply (obeys_seq knows); [apply Hf, list_elem_of_here|]. intros w' _ _ _.
  apply IH. intros y w2 Hy. by apply Hf, list_elem_of_further.
Qed.

(** A routine that asks for nothing but pauses, resumptions and the like. *)
Ltac obliging :=
  repeat (simpl; match goal with
  | |- _ /\ _ => split
  | |- True => exact I
  | |- forall s, any_loop s -> _ => intros ? _
  | |- any_loop _ => exact I
  | |- forall _, _ => intro
  | |- obeys _ _ _ _ _ _ (if ?b then _ else _) => destruct b
  | |- obeys _ _ _ _ _ _ (match ?o with _ => _ end) => destruct o
  end).

Lemma pausePartition_obeys p w : loop_obeys fine w (pausePartition p).
Proof. unfold pausePartition. obliging. Qed.

Lemma pauseAll_obeys w : loop_obeys fine w pauseAllPartitions.
Proof. unfold pauseAllPartitions. obliging. Qed.

Lemma resumeAll_obeys w : loop_obeys fine w resumeAllPartitions.
Proof. unfold resumeAllPartitions. obliging. Qed.

Lemma enter_obeys r w : loop_obeys fine w (enterDegradedMode r).
Proof.
  unfold enterDegradedMode. apply (obeys_gets knows). intros d. apply (obeys_modify knows); [done|].
  destruct d; [done|]. eapply (obeys_seq knows); [apply pauseAll_obeys|]. intros. obliging.
Qed.

Lemma exit_obeys r w : loop_obeys fine w (exitDegradedMode r).
Proof.
  unfold exitDegradedMode. apply (obeys_modify knows); [done|]. apply (obeys_gets knows). intros d.
  destruct d; [done|]. eapply (obeys_seq knows); [apply resumeAll_obeys|]. intros. obliging.
Qed.

Lemma committable_obeys {X} (f : gmap Z Z -> prog iface PollLoop X) Q w :
  (forall m w', map_Forall (fun p off => w' p off) m -> loop_obeys Q w' (f m)) ->
  loop_obeys Q w (let* m := ask CCommittable in f m).
Proof. intros Hf. apply (obeys_ask knows); [done|]. intros m w' _ Hm. by apply Hf. Qed.

Lemma commitOffsets_obeys cfg w : loop_obeys fine w (commitOffsets cfg).
Proof.
  apply committable_obeys. intros m w' Hm. destruct (_ =? 0); [done|].
  apply (obeys_ask knows); [done|]. intros [e|] w2 _ _.
  - unfold commit_failed. apply (obeys_modify knows); [done|]. apply (obeys_gets knows).
    intros []; [apply enter_obeys|done].
  - unfold commit_succeeded. apply (obeys_modify knows); [done|]. apply (obeys_gets knows).
    intros []; [apply exit_obeys|done].
Qed.

Lemma callback_obeys cb w : callback_known cb -> loop_obeys fine w (run_callback cb).
Proof.
  intros Hcb. destruct cb as [tps|tps]; unfold run_callback.
  - apply (obeys_modify knows); [done|]. by split.
  - apply (obeys_modify knows); [done|]. apply (obeys_ask knows); [done|]. intros _ w1 _ _.
    apply committable_obeys. intros m w2 Hm.
    apply (obeys_seq knows _ _ _ (fun _ _ => True)).
    + destruct (0 <? _); [|done]. apply (obeys_ask knows); [|done].
      intros p off Hp. apply map_lookup_filter_Some in Hp as [Hp _]. by apply Hm.
    + intros w3 _ _ _. apply for_each_obeys. intros tp w4 _. unfold reset_one. obliging.
Qed.

Lemma kafka_poll_obeys cfg w :
  loop_obeys (fun _ res => handled res) w (kafka_poll cfg).
Proof.
  apply (obeys_ask knows); [done|]. intros ans w1 _ [Hcb Hm].
  apply (obeys_seq knows _ _ _ fine); [|by intros].
  apply for_each_obeys. intros cb w2 Hin. apply callback_obeys. by eapply Forall_forall in Hcb.
Qed.

Lemma dispatch_group_obeys g p w :
  (forall msgs, g !! p = Some msgs -> known p /\ Forall (fun msg => Partition msg = p) msgs) ->
  is_Some (g !! p) -> loop_obeys fine w (dispatch_group g p).
Proof.
  intros Hg [msgs Hp]. unfold dispatch_group. apply (obeys_gets knows). intros []; [done|].
  apply (obeys_ask knows). { rewrite Hp. by apply Hg. }
  intros [e|] w1 _ _; simpl; [|done]. destruct (errors_Is e _); [apply pausePartition_obeys|done].
Qed.

Lemma poll_obeys cfg w : loop_obeys fine w (poll cfg).
Proof.
  unfold poll. apply (obeys_gets knows). intros [].
  { eapply (obeys_seq knows); [apply kafka_poll_obeys|]. intros w1 [msgs|e] _ _; [done|]. obliging. }
  eapply (obeys_seq knows); [apply kafka_poll_obeys|]. intros w1 [msgs|e] _ Hr; [|obliging].
  destruct (_ =? 0); [done|]. apply (obeys_modify knows); [done|].
  apply (obeys_ask knows); [done|]. intros [order Ho] w2 _ _. simpl proj1_sig.
  assert (Hg : forall p ms, groupByPartition msgs !! p = Some ms ->
    known p /\ Forall (fun msg => Partition msg = p) ms).
  { intros p ms Hp. rewrite group_lookup in Hp.
    destruct (of_partition p msgs) as [|m0 l0] eqn:E; simplify_eq.
    assert (Hall : Forall (fun msg => Partition msg = p /\ msg_known msg) (of_partition p msgs)).
    { apply Forall_forall. intros x Hx. unfold of_partition in Hx.
      apply list_elem_of_filter in Hx as [Hx Hin]. simpl in Hr. by eapply Forall_forall in Hr. }
    rewrite E in Hall. split.
    - destruct (Forall_inv Hall) as [<- Hk]. exact Hk.
    - eapply Forall_impl; [exact Hall|]. by intros x [? _]. }
  apply for_each_obeys. intros p w3 Hp. apply dispatch_group_obeys; [apply Hg|].
  rewrite Ho in Hp. apply list_elem_of_fmap in Hp as ([q ms] & -> & Hq).
  apply elem_of_map_to_list in Hq. simpl. eauto.
Qed.

Lemma on_event_obeys cfg ev w : loop_obeys fine w (on_event cfg ev).
Proof.
  destruct ev as [| | |st].
  - apply poll_obeys.
  - apply commitOffsets_obeys.
  - unfold on_event, onDispatcherReady, resumeAllPausedPartitions. obliging.
  - unfold on_event, onCircuitStateChanged. apply (obeys_gets knows). intros has.
    destruct (st =? circuit.Open), has; try done; [apply enter_obeys|..];
      (destruct (st =? circuit.Closed); [|done]); [apply exit_obeys|done].
Qed.

Lemma shutdown_obeys w : loop_obeys (fun _ _ => True) w shutdown.
Proof.
  apply (obeys_ask knows); [done|]. intros r w1 _ _. apply committable_obeys. intros m w2 Hm.
  apply (obeys_seq knows _ _ _ (fun _ _ => True)).
  - destruct (0 <? _); [|done]. by apply (obeys_ask knows).
  - intros. obliging.
Qed.

(** ** The linked program *)

Definition some_of {X} (Q : knowledge -> X -> Prop) (w : knowledge) (o : option X) : Prop :=
  forall x, o = Some x -> Q w x.

Definition callbacks_oblige (on_callback : callback -> prog linked state (option unit)) : Prop :=
  forall cb w, callback_known cb -> linked_obeys (fun _ _ => True) w (on_callback cb).

Lemma in_adapter_obeys on_callback {X} (Q : knowledge -> X -> Prop) w c :
  callbacks_oblige on_callback -> adapter_obeys Q w c ->
  linked_obeys (some_of Q) w (in_adapter on_callback c).
Proof.
  intros Hcb Hc. eapply (interp_obeys knows get_adapter put_adapter has_topic linked_ok); [..|exact Hc].
  - intros s Hs. by split.
  - intros w' Y e He.
    assert (Hask : linked_obeys (some_of (fun w2 x => adapter_learns w' Y e x w2)) w'
      (let* x := ask (ToClient e) in Ret (Some x))).
    { apply (obeys_ask knows); [done|]. intros x w2 _ Hx. by intros ? [= <-]. }
    destruct e; try exact Hask; (eapply (obeys_mono knows); [|by apply Hcb]); by intros.
Qed.

Lemma no_callback_obliges : callbacks_oblige no_callback.
Proof. by intros cb w _. Qed.

Lemma loop_question_obeys on_callback fuel X (e : iface X) w :
  callbacks_oblige on_callback -> loop_asks w X e ->
  linked_obeys (some_of (fun w' x => loop_learns w X e x w')) w (loop_question on_callback fuel X e).
Proof.
  intros Hcb He.
  assert (Hk : forall Y (c : prog KafkaAdapter.lib KafkaAdapter.Adapter Y),
    adapter_obeys (fun _ _ => True) w c ->
    linked_obeys (fun _ _ => True) w (in_adapter no_callback c)).
  { intros Y c Hc. eapply (obeys_mono knows); [|apply (in_adapter_obeys _ _ _ _ no_callback_obliges Hc)].
    done. }
  assert (Hask : about_kafka e = false -> linked_obeys (some_of (fun w2 x => loop_learns w X e x w2)) w
    (let* x := ask (ToDispatcher e) in Ret (Some x))).
  { intros Ha. apply (obeys_ask knows); [done|]. intros x w2 _ Hx. by intros ? [= <-]. }
  destruct e; try (by apply Hask); try (eapply (obeys_mono knows);
    [|by apply Hk; first [apply CommitOffsets_obeys|apply Pause_obeys|apply Resume_obeys
                         |apply Assignment_obeys|apply Close_obeys]]; by intros ? ? ? ? ?).
  eapply (obeys_seq knows); [apply in_adapter_obeys; [exact Hcb|apply Poll_obeys]|].
  intros w' [[[msgs [err|]]|]|] _ Hr; try done; intros x [= <-]; (split; [done|]); [done|].
  by eapply Hr.
Qed.

Lemma interp_loop_obeys on_callback fuel {X} (Q : knowledge -> X -> Prop) w (c : prog iface PollLoop X) :
  callbacks_oblige on_callback -> loop_obeys Q w c ->
  linked_obeys (some_of Q) w (interp get_loop put_loop (loop_question on_callback fuel) c).
Proof.
  intros Hcb Hc. eapply (interp_obeys knows get_loop put_loop any_loop linked_ok); [..|exact Hc].
  - intros s Hs. by split.
  - intros w' Y e He. by apply loop_question_obeys.
Qed.

Lemma linked_callback_obeys : callbacks_oblige linked_callback.
Proof.
  intros cb w Hcb. eapply (obeys_mono knows); [|apply interp_loop_obeys;
    [exact no_callback_obliges|by apply callback_obeys]]. done.
Qed.

Lemma link_obeys fuel {X} (Q : knowledge -> X -> Prop) w (c : prog iface PollLoop X) :
  loop_obeys Q w c -> linked_obeys (some_of Q) w (link fuel c).
Proof. apply interp_loop_obeys, linked_callback_obeys. Qed.
End Asks.

(** * The linked program refines the poll loop *)

(** The exchanges with the dispatcher and the coordinator. *)
Definition dispatcher_exchange (x : exchange linked) : option (exchange iface) :=
  match x with
  | existT X (e, a) =>
      match e in linked Y return Y -> option (exchange iface) with
      | ToClient _ => fun _ => None
      | ToDispatcher e => fun a => Some (asked e a)
      end a
  end.
Definition loop_exchange (x : exchange iface) : option (exchange iface) :=
  match x with existT X (e, a) => if about_kafka e then None else Some x end.
Definition linked_dispatches (l : list (exchange linked)) := collect dispatcher_exchange l.
Definition loop_dispatches (l : list (exchange iface)) := collect loop_exchange l.

Lemma linked_dispatches_app l1 l2 :
  linked_dispatches (l1 ++ l2) = linked_dispatches l1 ++ linked_dispatches l2.
Proof. apply collect_app. Qed.
Lemma loop_dispatches_app l1 l2 :
  loop_dispatches (l1 ++ l2) = loop_dispatches l1 ++ loop_dispatches l2.
Proof. apply collect_app. Qed.

(** A program that polls Kafka only as [kafka_poll] does: the callbacks of a
    poll run before anything else. *)
Definition runs_callbacks_first {X} (e : iface X) {A} (k : X -> prog iface PollLoop A) : Prop :=
  match e in iface Y return (Y -> prog iface PollLoop A) -> Prop with
  | KPoll _ => fun k => forall cbs res s l1 s1 l2 r s2,
      runs (for_each cbs run_callback) s l1 tt s1 -> runs (k ([], res)) s1 l2 r s2 ->
      runs (k (cbs, res)) s (l1 ++ l2) r s2
  | _ => fun _ => True
  end k.

Fixpoint well_polled {A} (c : prog iface PollLoop A) : Prop :=
  match c with
  | Ret _ | Throw _ => True
  | Act f k => forall x, well_polled (k x)
  | Ask e k => runs_callbacks_first e k /\ forall x, well_polled (k x)
  end.

Lemma well_polled_bind {A B} (c : prog iface PollLoop A) (f : A -> prog iface PollLoop B) :
  well_polled c -> (forall a, well_polled (f a)) -> well_polled (bind c f).
Proof.
  intros Hc Hf. induction c as [a|p|X g k IH|X e k IH]; simpl in *; auto.
  destruct Hc as [He Hk]. split; [|auto]. clear IH Hk. destruct e; simpl in *; try done.
  intros cbs res s l1 s1 l2 r s2 Hcb Hr. apply runs_bind in Hr as (b & s3 & l3 & l4 & -> & Hb & Hr).
  apply runs_bind. exists b, s3, (l1 ++ l3), l4. rewrite app_assoc. split_and!; eauto.
Qed.

Ltac never_polls :=
  repeat (simpl; match goal with
  | |- _ /\ _ => split
  | |- True => exact I
  | |- forall _, _ => intro
  | |- well_polled (bind _ _) => apply well_polled_bind
  | |- well_polled (if ?b then _ else _) => destruct b
  | |- well_polled (match ?o with _ => _ end) => destruct o
  end).

Lemma well_polled_each {X} (xs : list X) f :
  (forall x, well_polled (f x)) -> well_polled (for_each xs f).
Proof.
  intros Hf. induction xs as [|x xs IH]; [done|].
  change (for_each (x :: xs) f) with (let* _ := f x in for_each xs f).
  by apply well_polled_bind.
Qed.

Lemma well_polled_callback cb : well_polled (run_callback cb).
Proof.
  destruct cb as [tps|tps]; unfold run_callback; [unfold OnPartitionsAssigned; never_polls|].
  unfold OnPartitionsRevoked. never_polls. apply well_polled_each. intros tp.
  unfold reset_one. never_polls.
Qed.

#[local] Arguments for_each : simpl never.

Lemma well_polled_kafka_poll cfg : well_polled (kafka_poll cfg).
Proof.
  unfold kafka_poll. split.
  - intros cbs res s l1 s1 l2 r s2 Hcb Hr. simpl in *.
    apply runs_iff in Hr as (-> & -> & ->). apply runs_bind. exists tt, s1, l1, [].
    split; [done|]. split; [done|constructor].
  - intros [cbs res]. simpl. apply well_polled_bind; [|done].
    apply well_polled_each, well_polled_callback.
Qed.

Lemma well_polled_enter r : well_polled (enterDegradedMode r).
Proof. unfold enterDegradedMode, pauseAllPartitions. never_polls. Qed.
Lemma well_polled_exit r : well_polled (exitDegradedMode r).
Proof. unfold exitDegradedMode, resumeAllPartitions. never_polls. Qed.

Lemma well_polled_event cfg ev : well_polled (on_event cfg ev).
Proof.
  destruct ev as [| | |st]; simpl.
  - intros [].
    { apply (well_polled_bind (kafka_poll cfg)); [apply well_polled_kafka_poll|].
      intros [msgs|e]; never_polls. }
    apply (well_polled_bind (kafka_poll cfg)); [apply well_polled_kafka_poll|].
    intros [msgs|e]; [|never_polls]. destruct (_ =? 0); [done|].
    intros []. split; [done|]. intros [order Ho]. simpl. apply well_polled_each.
    intros p. unfold dispatch_group, on_send_result, pausePartition. never_polls.
  - intros. split; [done|]. intros m. destruct (_ =? 0); [done|]. split; [done|].
    intros [e|]; simpl; intros [] []; try done; [apply well_polled_enter|apply well_polled_exit].
  - unfold resumeAllPausedPartitions. never_polls.
  - intros has. destruct (_ =? _), has; try done; [apply well_polled_enter|..];
      (destruct (_ =? _); [|done]); [apply well_polled_exit|done].
Qed.

Lemma well_polled_shutdown : well_polled shutdown.
Proof. unfold shutdown. never_polls. Qed.

(** [link]'s run, seen as one of the loop against its interfaces. *)
Definition refined {A} (c : prog iface PollLoop A) (s : PollLoop) (l : list (exchange linked))
    (r : A) (s' : PollLoop) : Prop :=
  exists l', runs c s l' r s' /\ loop_dispatches l' = linked_dispatches l.

Definition refines_callbacks (on_callback : callback -> prog linked state (option unit)) : Prop :=
  forall cb s l u s', runs (on_callback cb) s l (Some u) s' -> refined (run_callback cb) s.1 l tt s'.1.

Lemma no_callback_refines : refines_callbacks no_callback.
Proof. intros cb s l u s' Hr. by apply runs_iff in Hr as (? & _). Qed.

(** The adapter changes the loop's state by callbacks only. *)
Lemma in_adapter_refines on_callback {A} (c : prog KafkaAdapter.lib KafkaAdapter.Adapter A) s l r s' :
  refines_callbacks on_callback -> runs (in_adapter on_callback c) s l (Some r) s' ->
  exists cbs, refined (for_each cbs run_callback) s.1 l tt s'.1.
Proof.
  intros Hcb. unfold in_adapter. revert s l.
  induction c as [a|p|X f k IH|X e k IH]; intros s l Hr; simpl in Hr.
  - apply runs_iff in Hr as (_ & -> & ->). exists [], []. split; [constructor|done].
  - by apply runs_iff in Hr.
  - apply runs_iff in Hr as (x & s1 & Hf & Hr%runs_iff). unfold on_part in Hf.
    destruct (f (get_adapter s)); simplify_eq. by apply IH in Hr.
  - apply runs_bind in Hr as (ox & s1 & l1 & l2 & -> & He & Hr).
    destruct ox as [x|]; [|by apply runs_iff in Hr as (? & _)].
    apply IH in Hr as (cbs & l3 & Hr & Hl). unfold refined.
    rewrite linked_dispatches_app, <- Hl.
    assert (Hask : forall Y (e : KafkaAdapter.lib Y) y,
      runs (let* x := ask (ToClient e) in Ret (Some x)) s l1 (Some y) s1 ->
      exists cbs l', runs (for_each cbs run_callback) s.1 l' tt s'.1 /\
        loop_dispatches l' = linked_dispatches l1 ++ loop_dispatches l3).
    { intros Y e' y Hy. apply runs_iff in Hy as (? & ? & -> & _ & -> & ->). by exists cbs, l3. }
    assert (Hcall : forall cb u, runs (on_callback cb) s l1 (Some u) s1 ->
      exists cbs l', runs (for_each cbs run_callback) s.1 l' tt s'.1 /\
        loop_dispatches l' = linked_dispatches l1 ++ loop_dispatches l3).
    { intros cb u (l0 & Hu & <-)%Hcb. exists (cb :: cbs), (l0 ++ l3).
      split; [|by rewrite loop_dispatches_app].
      apply runs_bind. by exists tt, s1.1, l0, l3. }
    destruct e; first [by eapply Hcall|by eapply Hask].
Qed.

(** The adapter's other methods fire none. *)
Lemma in_adapter_quiet {A} (c : prog KafkaAdapter.lib KafkaAdapter.Adapter A) s l r s' :
  runs (in_adapter no_callback c) s l (Some r) s' -> s'.1 = s.1 /\ linked_dispatches l = [].
Proof.
  unfold in_adapter. revert s l. induction c as [a|p|X f k IH|X e k IH]; intros s l Hr; simpl in Hr.
  - by apply runs_iff in Hr as (_ & -> & ->).
  - by apply runs_iff in Hr.
  - apply runs_iff in Hr as (x & s1 & Hf & Hr%runs_iff). unfold on_part in Hf.
    destruct (f (get_adapter s)); simplify_eq. by apply IH in Hr.
  - apply runs_bind in Hr as (ox & s1 & l1 & l2 & -> & He & Hr).
    destruct ox as [x|]; [|by apply runs_iff in Hr as (? & _)].
    apply IH in Hr as [-> Hl]. rewrite linked_dispatches_app, Hl, app_nil_r.
    assert (Hask : forall Y (e : KafkaAdapter.lib Y) y,
      runs (let* x := ask (ToClient e) in Ret (Some x)) s l1 (Some y) s1 ->
      s1.1 = s.1 /\ linked_dispatches l1 = []).
    { intros Y e' y Hy. by apply runs_iff in Hy as (? & ? & -> & _ & -> & ->). }
    destruct e; first [by eapply Hask|by apply runs_iff in He as (? & _)].
Qed.

Lemma interp_refines on_callback fuel {A} (c : prog iface PollLoop A) s l r s' :
  refines_callbacks on_callback -> well_polled c ->
  runs (interp get_loop put_loop (loop_question on_callback fuel) c) s l (Some r) s' ->
  refined c s.1 l r s'.1.
Proof.
  intros Hcb. revert s l. induction c as [a|p|X f k IH|X e k IH]; intros s l Hw Hr; simpl in Hw, Hr.
  - apply runs_iff in Hr as ([= ->] & -> & ->). exists []. split; [constructor|done].
  - by apply runs_iff in Hr.
  - apply runs_iff in Hr as (x & s1 & Hf & Hr%runs_iff). unfold on_part, get_loop in Hf.
    destruct (f s.1) as [y s2|] eqn:E; simplify_eq.
    apply IH in Hr as (l' & Hr & Hl); [|done]. exists l'. split; [|done]. by econstructor.
  - destruct Hw as [He Hw]. apply runs_bind in Hr as (ox & s1 & l1 & l2 & -> & Hq & Hr).
    destruct ox as [x|]; [|by apply runs_iff in Hr as (? & _)].
    apply IH in Hr as (l3 & Hr & Hl); [|done]. unfold refined.
    rewrite linked_dispatches_app, <- Hl.
    assert (Hask : forall (Y : Type) (e : iface Y) (k : Y -> prog iface PollLoop A) y,
      about_kafka e = false -> runs (k y) s1.1 l3 r s'.1 ->
      runs (let* x := ask (ToDispatcher e) in Ret (Some x)) s l1 (Some y) s1 ->
      exists l', runs (Ask e k) s.1 l' r s'.1 /\
        loop_dispatches l' = linked_dispatches l1 ++ loop_dispatches l3).
    { intros Y e' k' y Ha Hk Hy. apply runs_iff in Hy as (y' & ? & -> & [= ->] & -> & ->).
      exists (asked e' y' :: l3). split; [by constructor|].
      unfold loop_dispatches. simpl. by rewrite Ha. }
    assert (Hkafka : forall (Y : Type) (e : iface Y) (k : Y -> prog iface PollLoop A) y
      (c : prog KafkaAdapter.lib KafkaAdapter.Adapter Y),
      about_kafka e = true -> runs (k y) s1.1 l3 r s'.1 ->
      runs (in_adapter no_callback c) s l1 (Some y) s1 ->
      exists l', runs (Ask e k) s.1 l' r s'.1 /\
        loop_dispatches l' = linked_dispatches l1 ++ loop_dispatches l3).
    { intros Y e' k' y c' Ha Hk Hy. apply in_adapter_quiet in Hy as [<- ->].
      exists (asked e' y :: l3). split; [by constructor|].
      unfold loop_dispatches. simpl. by rewrite Ha. }
    destruct e as [t|offs|ps|ps| | |p msgs|tps|tps| | |p|keys]; try (by eapply Hask);
      try (by eapply Hkafka).
    apply (runs_bind (in_adapter on_callback (KafkaAdapter.Poll fuel t))) in Hq as (o & s2 & l4 & l5 & -> & Hp & Hq).
    destruct o as [[[msgs err]|]|]; try (by apply runs_iff in Hq as (? & _)).
    apply runs_iff in Hq as ([= ->] & -> & ->). rewrite app_nil_r.
    destruct (in_adapter_refines _ _ _ _ _ _ Hcb Hp) as (cbs & l0 & Hc & <-).
    exists (asked (KPoll t) (cbs, poll_answer (msgs, err)) :: (l0 ++ l3)). split.
    + constructor. by eapply He.
    + by rewrite <- loop_dispatches_app.
Qed.

Lemma linked_callback_refines : refines_callbacks linked_callback.
Proof.
  intros cb s l [] s' Hr. apply (interp_refines no_callback 0);
    [exact no_callback_refines|apply well_polled_callback|exact Hr].
Qed.

Lemma link_refined fuel {A} (c : prog iface PollLoop A) s l r s' :
  well_polled c -> runs (link fuel c) s l (Some r) s' -> refined c s.1 l r s'.1.
Proof. apply interp_refines, linked_callback_refines. Qed.

(** C12. The poll loop with the Kafka adapter behind it is the poll loop.  Every
    run of a tick, a signal, a commit or the shutdown over the adapter's
    methods, with the rebalance callbacks fired in the middle of [Poll], is a
    run of the same routine over its interfaces, with the same result, the
    same effect on the loop's state, and the same calls of the dispatcher and
    the coordinator in the same order. *)
Theorem link_refines fuel cfg ev s l s' :
  runs (link fuel (on_event cfg ev)) s l (Some tt) s' ->
  exists l', runs (on_event cfg ev) s.1 l' tt s'.1 /\ loop_dispatches l' = linked_dispatches l.
Proof. apply link_refined, well_polled_event. Qed.

(** * Witness

    A tick in which a partition is assigned and a message of it fetched. *)
Definition one_fetch : forall X, linked X -> unit -> X * unit := fun X e _ =>
  (match e in linked Y return Y with
   | ToClient e =>
       match e in KafkaAdapter.lib Y return Y with
       | KafkaAdapter.LPoll t =>
           if t =? 0 then ([], None)
           else ([KafkaAdapter.AssignedPartitions [KafkaAdapter.orders]],
                 Some (KafkaAdapter.EvMessage (KafkaAdapter.demo_km 7)))
       | KafkaAdapter.LCommitOffsets _ | KafkaAdapter.LPause _ | KafkaAdapter.LResume _
       | KafkaAdapter.LClose | KafkaAdapter.LIncrementalAssign _
       | KafkaAdapter.LIncrementalUnassign _ => None
       | KafkaAdapter.LAssignment => inl [KafkaAdapter.orders]
       | KafkaAdapter.HOnPartitionsAssigned _ | KafkaAdapter.HOnPartitionsRevoked _ => tt
       | KafkaAdapter.LNow => 0
       | KafkaAdapter.LRangeOrder keys => exist _ keys (Permutation_refl keys)
       end
   | ToDispatcher e => (troubled _ e tt).1
   end, tt).

Lemma link_refines_witness :
  exists l s', runs (link 2 (on_event DefaultConfig PollTick)) (idle_loop, KafkaAdapter.demo_adapter)
      l (Some tt) s' /\
    exists l', runs (on_event DefaultConfig PollTick) idle_loop l' tt s'.1 /\
      loop_dispatches l' = linked_dispatches l /\ len (linked_dispatches l) = 3.
Proof.
  set (x := exec (traced one_fetch) (link 2 (on_event DefaultConfig PollTick)) (tt, [])
    (idle_loop, KafkaAdapter.demo_adapter)).
  assert (Hx : exists s', x.1 = Returned (Some tt) s') by (eexists; vm_compute; reflexivity).
  assert (Hl : len (linked_dispatches x.2.2) = 3) by (vm_compute; reflexivity).
  destruct Hx as [s' Hx]. destruct x as [r [o l]] eqn:E. simpl in Hx. subst r.
  apply exec_runs in E as (l2 & -> & Hr). exists l2, s'. split; [exact Hr|].
  destruct (link_refines 2 DefaultConfig PollTick _ _ _ Hr) as (l' & H1 & H2). by exists l'.
Defined.
