(* ===== verification/System.v ===== *)
(** The whole consumer: the goroutines of the dispatcher ([Machine]) with, as
    the poll goroutine, the loop of [internal/pollloop/pollloop.go] linked to
    the adapter of [internal/kafka/adapter.go] ([Linking]).  What is left to
    the environment is the client library, the breaker, the processor, the
    clock and the scheduler.  The theorems of [Interleaving] and [PollLoop]
    carry over, and meet: what is committed to Kafka was processed. *)
From S2P Require Import Prelude Types OffsetCoordinator Dispatcher Retry Worker Machine Ownership Interleaving.
From S2P Require PollLoop KafkaAdapter Linking.

(** * The system *)

(** How a turn of the loop ends. *)
Inductive next := Continue | Exit (err : option error).

(** What happens, beside the dispatcher's history: the client delivers a
    message, and the consumer asks it to commit. *)
Inductive happening :=
| Dispatched (l : label)
| Fetched (km : KafkaAdapter.kMessage)
| CommitRequest (tps : list KafkaAdapter.kTopicPartition).

Definition reply_error (r : reply) : option error :=
  match r with ReplyError err => err | _ => None end.

(** The dispatcher's method behind a question of the loop, and the answer
    from its reply. *)
Definition api_of {X} (e : PollLoop.iface X) : option (api_call * (reply -> X)) :=
  match e in PollLoop.iface Y return option (api_call * (reply -> Y)) with
  | PollLoop.DSend p msgs => Some (CallSend p msgs, reply_error)
  | PollLoop.DOnPartitionsAssigned tps => Some (CallAssigned tps, fun _ => tt)
  | PollLoop.DOnPartitionsRevoked tps => Some (CallRevoked tps, fun _ => tt)
  | PollLoop.DClose => Some (CallClose, reply_error)
  | PollLoop.CReset p => Some (CallCoordinatorReset p, fun _ => tt)
  | _ => None
  end.

Section System.
Context `{Coordinator C}.
Variable cfg : Config.
Variable hasDLQ : bool.
Variable loop_cfg : PollLoop.Config.
Local Abbreviation machine := (machine (C := C)).
Local Abbreviation P := (prog Linking.linked Linking.state (option next)).

(** The poll goroutine: at the [select] of [Run], in its own code (or the
    adapter's, or the client's), in a call of the dispatcher, or returned. *)
Inductive poller :=
| Selecting
| Running (c : P)
| Calling (k : reply -> P)
| Stopped (err : option error).

Record system := mkSystem {
  base : machine;
  loop : Linking.state;
  goroutine : poller
}.

Definition set_base b (x : system) : system := mkSystem b (loop x) (goroutine x).
Definition set_goroutine g (x : system) : system := mkSystem (base x) (loop x) g.

(** The pieces of [PollLoop.Run]; [fuel] bounds what one [Poll] drains. *)
Definition first_turn : P :=
  Linking.link 0 (let* _ := modify PollLoop.started in
    let* _ := PollLoop.new_tickers loop_cfg in Ret Continue).
Definition turn (fuel : nat) (ev : PollLoop.event) : P :=
  Linking.link fuel (let* _ := PollLoop.on_event loop_cfg ev in Ret Continue).
Definition last_turn : P :=
  Linking.link 0 (let* err := PollLoop.shutdown in
    let* _ := modify (fun s => PollLoop.set_health (Degraded.SetLive false (PollLoop.health s)) s) in
    Ret (Exit err)).

(** The coordinator is read under its own lock. *)
Definition read_of {X} (e : PollLoop.iface X) (s : UnorderedDispatcher C) : option X :=
  match e in PollLoop.iface Y return option Y with
  | PollLoop.CCommittable => Some (Committable (coord s))
  | _ => None
  end.

Definition client_happening {X} (e : KafkaAdapter.lib X) (a : X) : list happening :=
  match e in KafkaAdapter.lib Y return Y -> list happening with
  | KafkaAdapter.LPoll _ => fun a =>
      match a.2 with Some (KafkaAdapter.EvMessage km) => [Fetched km] | _ => [] end
  | KafkaAdapter.LCommitOffsets tps => fun _ => [CommitRequest tps]
  | _ => fun _ => []
  end a.

Definition client_answers := forall X, Linking.linked X -> X.

Definition ask_step (ans : client_answers) {X} (e : Linking.linked X) (k : X -> P) (x : system)
  : option (system * list happening) :=
  match e in Linking.linked Y return Y -> (Y -> P) -> option (system * list happening) with
  | Linking.ToClient e => fun a k =>
      Some (set_goroutine (Running (k a)) x, client_happening e a)
  | Linking.ToDispatcher e => fun a k =>
      match read_of e (st (base x)), api_of e with
      | Some v, _ => Some (set_goroutine (Running (k v)) x, [])
      | None, Some (call, answer) =>
          match sched cfg hasDLQ (Call call) (base x) with
          | Some b => Some (mkSystem b (loop x) (Calling (fun r => k (answer r))),
                            List.map Dispatched (label_of (Call call) (base x)))
          | None => None
          end
      | None, None => Some (set_goroutine (Running (k a)) x, [])
      end
  end (ans X e) k.

(** One action of the poll goroutine in its own code. *)
Definition own_step (ans : client_answers) (c : P) (x : system)
  : option (system * list happening) :=
  match c with
  | Ret (Some Continue) => Some (set_goroutine Selecting x, [])
  | Ret (Some (Exit err)) => Some (set_goroutine (Stopped err) x, [])
  | Ret None => None
  | Throw p => Some (set_base (crash 0 p (st (base x)) (base x)) x, [])
  | Act f k => match f (loop x) with
               | Returned y s => Some (mkSystem (base x) s (Running (k y)), [])
               | Panicked p s => Some (set_base (crash 0 p (st (base x)) (base x)) x, [])
               end
  | Ask e k => ask_step ans e k x
  end.

(** The cases of [Run]'s select. *)
Inductive select_case := PollTicker | CommitTicker | ReadyCase | CircuitCase | DoneCase.

(** A receive from a channel of the dispatcher, and what to do then. *)
Definition receive_step (call : api_call) (k : reply -> P) (x : system) : option (system * list happening) :=
  match sched cfg hasDLQ (Call call) (base x) with
  | Some b => Some (mkSystem b (loop x) (Calling k), [])
  | None => None
  end.

Definition select_step (case : select_case) (fuel : nat) (x : system)
  : option (system * list happening) :=
  match case with
  | PollTicker => Some (set_goroutine (Running (turn fuel PollLoop.PollTick)) x, [])
  | CommitTicker => Some (set_goroutine (Running (turn fuel PollLoop.CommitTick)) x, [])
  | DoneCase => Some (set_goroutine (Running last_turn) x, [])
  | ReadyCase =>
      if readyCh (st (base x)) then
        receive_step CallRecvReady (fun r =>
          match r with
          | ReplyReady true => turn fuel PollLoop.DispatcherReady
          | _ => Ret (Some Continue)
          end) x
      else None
  | CircuitCase =>
      match circuitStateCh (st (base x)) with
      | [] => None
      | _ =>
          receive_step CallRecvCircuit (fun r =>
            match r with
            | ReplyCircuit (Some c) => turn fuel (PollLoop.CircuitStateChanged c)
            | _ => Ret (Some Continue)
            end) x
      end
  end.

(** The scheduler's choices: a worker, a timer or the dispatcher's code in
    the poll goroutine; a case of the select; an action of the poll
    goroutine's own; the return of its call. *)
Inductive sys_choice :=
| Background (ch : choice)
| Select (case : select_case) (fuel : nat)
| Own (ans : client_answers)
| Return (ans : answers).

Definition returned (th : option (thread (C := C))) : option reply :=
  match th with
  | Some (PollRunning (Ret r)) | Some (PollClosing (Ret r)) => Some r
  | _ => None
  end.

Definition in_background (ch : choice) (b : machine) : bool :=
  match ch with
  | Call _ => false
  | Run i _ => match i, returned (threads b !! 0%nat) with O, Some _ => false | _, _ => true end
  | _ => true
  end.

Definition sys_sched (ch : sys_choice) (x : system) : option (system * list happening) :=
  match crashed (base x) with
  | Some _ => None
  | None =>
      match ch, goroutine x with
      | Background ch, _ =>
          if in_background ch (base x) then
            match sched cfg hasDLQ ch (base x) with
            | Some b => Some (set_base b x, List.map Dispatched (label_of ch (base x)))
            | None => None
            end
          else None
      | Select case fuel, Selecting => select_step case fuel x
      | Own ans, Running c => own_step ans c x
      | Return ans, Calling k =>
          match returned (threads (base x) !! 0%nat), sched cfg hasDLQ (Run 0 ans) (base x) with
          | Some r, Some b => Some (mkSystem b (loop x) (Running (k r)), [])
          | _, _ => None
          end
      | _, _ => None
      end
  end.

Fixpoint sys_run (chs : list sys_choice) (x : system) : option (system * list happening) :=
  match chs with
  | [] => Some (x, [])
  | ch :: chs =>
      match sys_sched ch x with
      | Some (x1, h1) => match sys_run chs x1 with
                         | Some (x2, h2) => Some (x2, h1 ++ h2)
                         | None => None
                         end
      | None => None
      end
  end.

(** [Run] on a new poll loop, dispatcher, coordinator and adapter. *)
Definition sys_start (workers : nat) (c : C) (a : KafkaAdapter.Adapter) (h : Degraded.Health) : system :=
  mkSystem (start workers (NewUnorderedDispatcher c)) (PollLoop.New h, a) (Running first_turn).
End System.

(** The dispatcher's history in a log. *)
Definition history_of (h : happening) : option label :=
  match h with Dispatched l => Some l | _ => None end.
Definition history (hs : list happening) : list label := collect history_of hs.

Lemma history_app h1 h2 : history (h1 ++ h2) = history h1 ++ history h2.
Proof. apply collect_app. Qed.

Lemma history_labels ls : history (List.map Dispatched ls) = ls.
Proof. induction ls as [|l ls IH]; [done|]. unfold history in *. simpl. by rewrite IH. Qed.

(** What is sent to a partition is of that partition. *)
Definition typed (l : label) : Prop :=
  match l with Sent p msgs => Forall (fun msg => Partition msg = p) msgs | _ => True end.

Lemma decided_settled hs b v :
  Dispatched (Decided b v) ∈ hs -> is_completed v = true -> b ∈ settled (partition b) (history hs).
Proof.
  intros Hd Hv. induction hs as [|h hs IH]; [by apply not_elem_of_nil in Hd|].
  change (history (h :: hs)) with (history ([h] ++ hs)). rewrite history_app, settled_app.
  apply elem_of_app. apply elem_of_cons in Hd as [<-|Hd]; [left|right; by apply IH].
  simpl. rewrite Hv, Z.eqb_refl. apply list_elem_of_here.
Qed.

Lemma typed_sent p ls m : Forall typed ls -> m ∈ sent p ls -> Partition m = p.
Proof.
  induction 1 as [|l ls Hl _ IH]; simpl; [by intros ?%not_elem_of_nil|].
  intros [Hm|Hm]%elem_of_app; [|by apply IH]. destruct l as [q msgs| |]; simpl in Hm;
    [|by apply not_elem_of_nil in Hm..].
  destruct (Z.eqb_spec q p) as [->|]; [|by apply not_elem_of_nil in Hm]. simpl in Hl.
  by eapply Forall_forall in Hl.
Qed.

(** * At least once, end to end *)

(** An offset that was committable at some time: it follows the last message
    of a settled batch. *)
Definition settled_up_to (ls : list label) (p off : Z) : Prop :=
  exists before b more lst, settled p ls = before ++ b :: more /\
    last (messages b) = Some lst /\ off = wrap64 (Offset lst + 1).

Lemma settled_up_to_app ls ls' p off : settled_up_to ls p off -> settled_up_to (ls ++ ls') p off.
Proof.
  intros (before & b & more & lst & Hs & Hl & Ho).
  exists before, b, (more ++ settled p ls'), lst. rewrite settled_app, Hs, <- app_assoc. done.
Qed.

(** And all that was sent and kept before it is settled too. *)
Definition delivered_up_to (ls : list label) (p off : Z) : Prop :=
  exists before b more lst rest, settled p ls = before ++ b :: more /\
    last (messages b) = Some lst /\ off = wrap64 (Offset lst + 1) /\
    kept p ls = Some (concat (messages <$> before) ++ messages b ++ rest).

Section AtLeastOnce.
Context `{Coordinator C}.
Variable cfg : Config.
Variable hasDLQ : bool.
Variable loop_cfg : PollLoop.Config.
(** [strict] runs have a slot of the channel for every partition in use, and
    only of them are the committable offsets known to be settled. *)
Variable strict : bool.
Variable ps : list Z.
Local Abbreviation system := (system (C := C)).
Local Abbreviation P := (prog Linking.linked Linking.state (option next)).
Local Abbreviation known := (fun q => q ∈ ps).
Local Abbreviation sched_sys := (sys_sched cfg hasDLQ loop_cfg).

Hypothesis BatchSize_pos : 0 < BatchSize cfg.
Hypothesis MaxRetries_nonneg : 0 <= MaxRetries cfg.
Hypothesis room_for_each : strict = true -> len ps <= ChannelCap cfg.
Hypothesis intervals_pos : PollLoop.positive_intervals loop_cfg.

(** What may be committed. *)
Definition vouched (ls : list label) : Linking.knowledge := fun p off => strict = true -> settled_up_to ls p off.

Local Abbreviation obliges := (Linking.obeys Linking.knows Linking.linked_ok
  (Linking.linked_asks known) (Linking.linked_learns known)).

Definition any_next (w : Linking.knowledge) (o : option next) : Prop := True.

Definition poller_ok (w : Linking.knowledge) (g : poller) : Prop :=
  match g with
  | Running c => obliges any_next w c
  | Calling k => forall r, obliges any_next w (k r)
  | Selecting | Stopped _ => True
  end.

Record sys_inv (hs : list happening) (x : system) : Prop := {
  si_base fp : some_inv cfg true strict fp known (history hs) (base x);
  si_topics : Linking.linked_ok (loop x);
  si_poller : poller_ok (vouched (history hs)) (goroutine x)
}.

(** What the client may answer: messages and assignments of [ps] only. *)
Definition client_fits (ch : sys_choice) : Prop :=
  match ch with
  | Own ans => forall w X (e : KafkaAdapter.lib X),
      Linking.adapter_learns known w X e (ans X (Linking.ToClient e)) w
  | _ => True
  end.

Lemma obliges_grow w w1 (c : P) :
  Linking.knows w w1 -> obliges any_next w c -> obliges any_next w1 c.
Proof.
  intros Hw. apply (Linking.obeys_grow Linking.knows); [..|done].
  - intros w2 w3 X e Hk. destruct e as [X e|X e]; destruct e; simpl; try done.
    + intros Ha. eapply Forall_impl; [exact Ha|]. intros tp. apply Hk.
    + intros [Ha ?]. split; [|done]. intros p off Hp. by apply Hk, Ha.
  - intros w2 w3 X e y w4 _ _. destruct e as [X e|X e]; by destruct e.
  - done.
Qed.

Lemma poller_ok_grow ls ls' g :
  poller_ok (vouched ls) g -> poller_ok (vouched (ls ++ ls')) g.
Proof.
  assert (Hk : Linking.knows (vouched ls) (vouched (ls ++ ls')))
    by (intros p off Hp Hst; apply settled_up_to_app; auto).
  destruct g; simpl; try done; [|intros Ho r]; by eapply obliges_grow.
Qed.

Lemma roomy : strict = true -> exists qs, (forall q, known q -> q ∈ qs) /\ len qs <= ChannelCap cfg.
Proof. intros Hst. exists ps. auto. Qed.

Lemma base_step hs x ch b :
  (forall fp, some_inv cfg true strict fp known (history hs) (base x)) ->
  fits known ch -> sched cfg hasDLQ ch (base x) = Some b ->
  forall fp, some_inv cfg true strict fp known
    (history (hs ++ List.map Dispatched (label_of ch (base x)))) b.
Proof.
  intros Hi Hf Hs fp. rewrite history_app, history_labels.
  by eapply (sched_inv cfg hasDLQ true strict fp known roomy).
Qed.

Lemma turn_obliges fuel ev w : obliges any_next w (turn loop_cfg fuel ev).
Proof.
  eapply (Linking.obeys_mono Linking.knows);
    [|apply (Linking.link_obeys known fuel (fun _ _ => True))]; [done|].
  apply (Linking.obeys_seq Linking.knows _ _ _ (fun _ _ => True));
    [apply Linking.on_event_obeys|done].
Qed.

Lemma last_turn_obliges w : obliges any_next w last_turn.
Proof.
  eapply (Linking.obeys_mono Linking.knows);
    [|apply (Linking.link_obeys known 0 (fun _ _ => True))]; [done|].
  apply (Linking.obeys_seq Linking.knows _ _ _ (fun _ _ => True));
    [apply Linking.shutdown_obeys|].
  intros w' r _ _. by apply (Linking.obeys_modify Linking.knows).
Qed.

Lemma first_turn_obliges w : obliges any_next w (first_turn loop_cfg).
Proof.
  eapply (Linking.obeys_mono Linking.knows);
    [|apply (Linking.link_obeys known 0 (fun _ _ => True))]; [done|].
  destruct intervals_pos as [H1 H2]. apply (Linking.obeys_modify Linking.knows); [done|]. simpl.
  by rewrite (proj2 (Z.leb_gt _ _) H1), (proj2 (Z.leb_gt _ _) H2).
Qed.

(** ** One step *)

(** A step keeps the invariant, and commits only what was settled. *)
Definition step_ok (hs : list happening) (r : system * list happening) : Prop :=
  sys_inv (hs ++ r.2) r.1 /\
  forall tps, CommitRequest tps ∈ r.2 -> r.2 = [CommitRequest tps] /\
    Forall (fun tp => vouched (history hs) (KafkaAdapter.kPartition tp) (KafkaAdapter.kOffset tp)) tps.

(** A step without a happening, or with the dispatcher's. *)
Lemma step_labels hs b s g ls :
  (forall fp, some_inv cfg true strict fp known (history (hs ++ List.map Dispatched ls)) b) ->
  Linking.linked_ok s -> poller_ok (vouched (history hs ++ ls)) g ->
  step_ok hs (mkSystem b s g, List.map Dispatched ls).
Proof.
  intros Hb Hs Hg. split.
  - constructor; [done|done|]. simpl. by rewrite history_app, history_labels.
  - intros tps Hin. apply list_elem_of_fmap in Hin as (l & ? & _). done.
Qed.

Lemma step_silent hs b s g :
  (forall fp, some_inv cfg true strict fp known (history hs) b) ->
  Linking.linked_ok s -> poller_ok (vouched (history hs)) g ->
  step_ok hs (mkSystem b s g, []).
Proof.
  intros Hb Hs Hg. apply (step_labels _ _ _ _ []); rewrite ?app_nil_r; done.
Qed.

Lemma ask_client_ok hs x ans X (e : KafkaAdapter.lib X) k r :
  sys_inv hs x -> client_fits (Own ans) ->
  obliges any_next (vouched (history hs)) (Ask (Linking.ToClient e) k) ->
  ask_step cfg hasDLQ ans (Linking.ToClient e) k x = Some r -> step_ok hs r.
Proof.
  intros [Hb Ht _] Hf [Hp Hk] Hr. simpl in Hr. simplify_eq.
  assert (Hh : history (hs ++ client_happening e (ans X (Linking.ToClient e))) = history hs).
  { rewrite history_app. assert (E : history (client_happening e (ans X (Linking.ToClient e))) = []);
      [|by rewrite E, app_nil_r].
    destruct e; try done. simpl. destruct (ans _ _) as [rs [[]|]]; done. }
  split.
  - constructor; [intros fp; simpl; rewrite Hh; apply Hb|done|]. simpl. rewrite Hh.
    apply Hk; [done|apply Hf].
  - simpl. intros tps Hin. destruct e; simpl in *; try by apply not_elem_of_nil in Hin.
    + destruct (ans _ _) as [rs [[]|]]; simpl in Hin;
        try (apply list_elem_of_singleton in Hin); try apply not_elem_of_nil in Hin; done.
    + apply list_elem_of_singleton in Hin. simplify_eq. by split.
Qed.

Lemma committable_known hs x p off :
  sys_inv hs x -> Committable (coord (st (base x))) !! p = Some off ->
  vouched (history hs) p off.
Proof.
  intros Hi Hc Hst. destruct (si_base _ _ Hi p) as [g Hg]. rewrite Hst in Hg.
  destruct (committable_settled cfg (fun q => q ∈ ps) _ _ g p off Hg Hc)
    as (before & b & lst & rest & Hs & Hl & Ho & _). by exists before, b, [], lst.
Qed.

Lemma call_known X (e : PollLoop.iface X) w call answer :
  Linking.loop_asks known w X e -> api_of e = Some (call, answer) -> fits known (Call call).
Proof.
  intros He Ha. destruct e; simpl in *; simplify_eq; try done; [apply He|].
  intros tp Htp. by eapply Forall_forall in He.
Qed.

Lemma ask_dispatcher_ok hs x ans X (e : PollLoop.iface X) k r :
  sys_inv hs x ->
  obliges any_next (vouched (history hs)) (Ask (Linking.ToDispatcher e) k) ->
  ask_step cfg hasDLQ ans (Linking.ToDispatcher e) k x = Some r -> step_ok hs r.
Proof.
  intros Hi [[Hp Hkf] Hk] Hr. pose proof Hi as [Hb Ht _]. simpl in Hr.
  destruct (api_of e) as [[call answer]|] eqn:Ha.
  - assert (Hread : read_of e (st (base x)) = None) by (by destruct e).
    rewrite Hread in Hr. destruct (sched _ _ _ _) as [b|] eqn:Es; [|done]. simplify_eq.
    apply step_labels; [|done|].
    + apply (base_step hs x (Call call) b); [done| |done]. by eapply call_known.
    + intros y. apply Hk; [intros p off Hv Hst; apply settled_up_to_app; auto|]. by destruct e.
  - destruct (read_of e (st (base x))) as [v|] eqn:Hread; simplify_eq; apply step_silent; try done;
      apply Hk; try done; destruct e; simpl in *; simplify_eq; try done.
    intros p off Hc. by eapply committable_known.
Qed.

Lemma own_step_ok hs x ans c r :
  sys_inv hs x -> client_fits (Own ans) -> goroutine x = Running c ->
  own_step cfg hasDLQ ans c x = Some r -> step_ok hs r.
Proof.
  intros Hi Hf Hg Hr. pose proof Hi as [Hb Ht Hp]. rewrite Hg in Hp.
  destruct c as [[[|err]|]|p|X f k|X e k]; simpl in Hr; try done; simplify_eq; try by apply step_silent.
  - specialize (Hp _ Ht). destruct (f (loop x)) as [y s|p s]; [|done]. simplify_eq.
    apply step_silent; [done|apply Hp|apply Hp].
  - destruct e as [X e|X e]; [by eapply ask_client_ok|by eapply ask_dispatcher_ok].
Qed.

Lemma quiet_call_ok hs x call k r :
  sys_inv hs x -> call_fits known call -> label_of (Call call) (base x) = [] ->
  (forall y, obliges any_next (vouched (history hs)) (k y)) ->
  receive_step cfg hasDLQ call k x = Some r -> step_ok hs r.
Proof.
  intros Hi Hf Hl Hk Hr. unfold receive_step in Hr. destruct (sched _ _ _ _) as [b|] eqn:Es; [|done].
  simplify_eq. apply step_silent; [|apply Hi|done].
  intros fp. pose proof (base_step hs x (Call call) b (si_base _ _ Hi) Hf Es fp) as Hb.
  rewrite Hl in Hb. by rewrite app_nil_r in Hb.
Qed.

Lemma select_step_ok hs x case fuel r :
  sys_inv hs x -> select_step cfg hasDLQ loop_cfg case fuel x = Some r -> step_ok hs r.
Proof.
  intros Hi Hr. pose proof Hi as [Hb Ht _].
  destruct case; simpl in Hr; simplify_eq; try (apply step_silent; try done;
    apply turn_obliges || apply last_turn_obliges).
  - destruct (readyCh _); [|done]. refine (quiet_call_ok hs x _ _ r Hi _ _ _ Hr); [done..|].
    intros [| |[]|]; try done. apply turn_obliges.
  - destruct (circuitStateCh _); [done|]. refine (quiet_call_ok hs x _ _ r Hi _ _ _ Hr); [done..|].
    intros [| | |[c|]]; try done. apply turn_obliges.
Qed.

Lemma sys_step hs x ch r :
  sys_inv hs x -> client_fits ch -> sched_sys ch x = Some r -> step_ok hs r.
Proof.
  intros Hi Hf Hr. pose proof Hi as [Hb Ht Hp]. unfold sys_sched in Hr.
  destruct (crashed (base x)); [done|]. destruct ch as [ch|case fuel|ans|ans].
  - assert (Hch : fits known ch \/ in_background ch (base x) = false) by (destruct ch; auto).
    destruct (in_background ch (base x)); [|done]. destruct Hch as [Hch|]; [|done].
    destruct (sched cfg hasDLQ ch (base x)) as [b|] eqn:Es; [|done]. simplify_eq.
    apply step_labels; [by eapply base_step|done|by apply poller_ok_grow].
  - destruct (goroutine x); try done. by eapply select_step_ok.
  - destruct (goroutine x) as [|c| |] eqn:Eg; try done. by eapply own_step_ok.
  - destruct (goroutine x) as [| |k|] eqn:Eg; try done.
    destruct (returned (threads (base x) !! 0%nat)) as [rep|] eqn:Er; [|done].
    destruct (sched cfg hasDLQ (Run 0 ans) (base x)) as [b|] eqn:Es; [|done]. simplify_eq.
    apply step_silent; [|done|apply Hp].
    intros fp. pose proof (base_step hs x (Run 0 ans) b Hb I Es fp) as Hi'.
    assert (El : label_of (Run 0 ans) (base x) = []).
    { unfold label_of. unfold returned in Er. by destruct (threads (base x) !! 0%nat) as [[]|]. }
    rewrite El in Hi'. by rewrite app_nil_r in Hi'.
Qed.

(** What a step sends is of the partition it is sent to. *)
Lemma background_typed ch (x : system) :
  in_background ch (base x) = true -> Forall typed (label_of ch (base x)).
Proof.
  destruct ch as [i ans|k|i|t]; simpl; try done. intros _.
  destruct (threads (base x) !! i) as [[]|]; try done.
  - unfold discards. apply Forall_fmap, Forall_true. done.
  - destruct c as [[]| | |]; by repeat constructor.
Qed.

Lemma step_typed hs x ch r :
  sys_inv hs x -> sched_sys ch x = Some r -> Forall typed (history r.2).
Proof.
  intros Hi Hr. pose proof Hi as [_ _ Hp]. unfold sys_sched in Hr.
  destruct (crashed (base x)); [done|]. destruct ch as [ch|case fuel|ans|ans].
  - destruct (in_background ch (base x)) eqn:E; [|done].
    destruct (sched cfg hasDLQ ch (base x)); [|done]. simplify_eq. simpl. rewrite history_labels.
    by apply background_typed.
  - destruct (goroutine x); try done.
    destruct case; simpl in Hr; unfold receive_step in Hr; repeat case_match; by simplify_eq.
  - destruct (goroutine x) as [|c| |]; try done.
    destruct c as [[[]|]|p|X f k|X e k]; simpl in Hr; simplify_eq; [done..| |].
    { destruct (f (loop x)); by simplify_eq. }
    destruct e as [X e|X e]; simpl in Hr.
    { simplify_eq. destruct e; try done. simpl. destruct (ans _ _) as [rs [[]|]]; done. }
    destruct Hp as [[Hp _] _]. destruct (read_of e _); [by simplify_eq|].
    destruct (api_of e) as [[call answer]|] eqn:E; [|by simplify_eq].
    destruct (sched _ _ _ _); [|done]. simplify_eq. simpl. rewrite history_labels.
    destruct e; simpl in E; simplify_eq; try done. constructor; [apply Hp|done].
  - destruct (goroutine x); try done. destruct (returned _); [|done].
    destruct (sched _ _ _ _); [|done]. by simplify_eq.
Qed.

(** ** Runs *)

Lemma start_sys_inv n c a h :
  fresh_coordinator c -> Linking.has_topic a -> sys_inv [] (sys_start loop_cfg n c a h).
Proof.
  intros Hc Ha. constructor; [|done|apply first_turn_obliges].
  intros fp. by apply new_inv.
Qed.

Lemma delivered hs x p off :
  sys_inv hs x -> settled_up_to (history hs) p off -> delivered_up_to (history hs) p off.
Proof.
  intros Hi (before & b & more & lst & Hs & Hl & Ho). destruct (si_base _ _ Hi p) as [g Hg].
  pose proof (ac_ledger _ _ _ _ _ _ _ (mi_owned _ _ _ _ _ _ _ _ Hg) eq_refl) as Hk.
  rewrite Hs, fmap_app, fmap_cons, concat_app, concat_cons, <- !app_assoc in Hk.
  eexists before, b, more, lst, _. done.
Qed.

Lemma sys_run_inv chs hs x x' hs' :
  sys_inv hs x -> Forall client_fits chs ->
  sys_run cfg hasDLQ loop_cfg chs x = Some (x', hs') ->
  sys_inv (hs ++ hs') x' /\ Forall typed (history hs') /\
  forall h1 tps h2, strict = true -> hs' = h1 ++ CommitRequest tps :: h2 ->
    Forall (fun tp => delivered_up_to (history (hs ++ h1))
      (KafkaAdapter.kPartition tp) (KafkaAdapter.kOffset tp)) tps.
Proof.
  revert hs x hs'. induction chs as [|ch chs IH]; intros hs x hs' Hi Hf Hr; simpl in Hr.
  { simplify_eq. rewrite app_nil_r. split; [done|]. split; [constructor|]. intros [|] ? ? _ [=]. }
  apply Forall_cons in Hf as [Hf Hfs].
  destruct (sched_sys ch x) as [[x1 l1]|] eqn:Es; [|done].
  destruct (sys_run _ _ _ chs x1) as [[x2 l2]|] eqn:Er; [|done]. simplify_eq.
  destruct (sys_step _ _ _ _ Hi Hf Es) as [Hi1 Hc]. simpl in *.
  destruct (IH _ _ _ Hi1 Hfs Er) as (Hi2 & Ht2 & Hc2). rewrite app_assoc. split; [done|].
  split; [rewrite history_app; apply Forall_app; split; [by eapply step_typed in Es|done]|].
  intros h1 tps h2 Hst E. apply app_eq_app in E as (k & [[E1 E2]|[E1 E2]]).
  - destruct k as [|hp k]; simpl in E2.
    { rewrite app_nil_r in E1. subst h1. symmetry in E2. apply (Hc2 [] tps h2 Hst) in E2.
      by rewrite app_nil_r in E2. }
    injection E2 as <- ->. destruct (Hc tps) as [E Hs].
    { rewrite E1. apply elem_of_app. right. apply list_elem_of_here. }
    rewrite E1 in E. destruct h1 as [|? [|]]; simplify_eq. rewrite app_nil_r.
    eapply Forall_impl; [exact Hs|]. intros tp Hv. eapply delivered; [done|auto].
  - subst h1. rewrite app_assoc. by eapply Hc2.
Qed.

End AtLeastOnce.

(** * The loop inside the system

    By [Linking.link_refined] a turn over the adapter is a turn of [PollLoop],
    so what [PollLoop] proves of its turns holds here, between the actions of
    the other goroutines. *)

Definition in_service (s : PollLoop.PollLoop) : Prop :=
  PollLoop.mode_inv s /\ Degraded.live (PollLoop.health s) = true.
Definition out_of_service (s : PollLoop.PollLoop) : Prop :=
  Degraded.live (PollLoop.health s) = false /\ Degraded.ready (PollLoop.health s) = false.

(** What holds when a piece of [Run] ends. *)
Definition ended (o : option next) (s : Linking.state) : Prop :=
  match o with
  | Some Continue => in_service s.1
  | Some (Exit _) => out_of_service s.1
  | None => True
  end.

Section Readiness.
Context `{Coordinator C}.
Variable cfg : Config.
Variable hasDLQ : bool.
Variable loop_cfg : PollLoop.Config.
Local Abbreviation P := (prog Linking.linked Linking.state (option next)).

Definition ends_well (c : P) (s : Linking.state) : Prop :=
  forall l o s', Linking.runs c s l o s' -> ended o s'.

Definition serving (x : system (C := C)) : Prop :=
  match goroutine x with
  | Selecting => in_service (loop x).1
  | Running c => ends_well c (loop x)
  | Calling k => forall r, ends_well (k r) (loop x)
  | Stopped _ => out_of_service (loop x).1
  end.

Lemma linked_ends fuel (c : prog PollLoop.iface PollLoop.PollLoop next) s :
  Linking.well_polled c ->
  wp c (fun o s' _ => forall a, ended (Some o) (s', a)) s.1 [] -> ends_well (Linking.link fuel c) s.
Proof.
  intros Hw Hwp l [o|] s' Hr; [|done]. apply Linking.link_refined in Hr as (l' & Hr & _); [|done].
  destruct s' as [s1 a]. by apply (Linking.wp_runs _ _ _ _ _ _ _ Hwp Hr).
Qed.

Lemma first_turn_ends h a : ends_well (first_turn loop_cfg) (PollLoop.New h, a).
Proof.
  intros l o s' Hr%Linking.runs_iff. simpl in Hr. unfold Linking.on_part in Hr. simpl in Hr.
  destruct Hr as (u1 & s1 & E1 & u2 & s2 & E2 & u3 & s3 & E3 & -> & -> & _). simplify_eq.
  destruct (_ <=? 0); [done|]. destruct (_ <=? 0); [done|]. simplify_eq. split; [by constructor|done].
Qed.

Lemma turn_ends fuel ev s : in_service s.1 -> ends_well (turn loop_cfg fuel ev) s.
Proof.
  intros [Hi Hl]. apply linked_ends.
  - apply (Linking.well_polled_bind (PollLoop.on_event loop_cfg ev)); [|done].
    apply Linking.well_polled_event.
  - eapply wp_bind_mono; [by apply PollLoop.on_event_inv|]. intros [] s' l' [? ?] a. simpl.
    split; [done|congruence].
Qed.

Lemma last_turn_ends s : ends_well last_turn s.
Proof.
  apply linked_ends.
  - apply (Linking.well_polled_bind PollLoop.shutdown); [|done]. apply Linking.well_polled_shutdown.
  - eapply wp_bind_mono; [apply PollLoop.shutdown_wp|]. intros err s' l' [-> _]. done.
Qed.

Lemma asked_ends {X} (e : Linking.linked X) k y s : ends_well (Ask e k) s -> ends_well (k y) s.
Proof. intros Hc l o s' Hr. eapply Hc. by constructor. Qed.

Lemma receive_serving call k x r :
  (forall y, ends_well (k y) (loop x)) ->
  receive_step cfg hasDLQ call k x = Some r -> serving r.1.
Proof.
  intros Hk Hr. unfold receive_step in Hr. destruct (sched _ _ _ _); [|done]. by simplify_eq.
Qed.

Lemma idle_ends s : in_service s.1 -> ends_well (Ret (Some Continue)) s.
Proof. intros Hs l o s' Hr. apply Linking.runs_iff in Hr as (-> & -> & _). done. Qed.

Lemma select_serving case fuel x r :
  in_service (loop x).1 -> select_step cfg hasDLQ loop_cfg case fuel x = Some r -> serving r.1.
Proof.
  intros Hs Hr. destruct case; simpl in Hr; simplify_eq; unfold serving; simpl;
    try by apply turn_ends.
  - destruct (readyCh _); [|done]. eapply receive_serving; [|exact Hr].
    intros [| |[]|]; (by apply idle_ends) || by apply turn_ends.
  - destruct (circuitStateCh _); [done|]. eapply receive_serving; [|exact Hr].
    intros [| | |[c|]]; (by apply idle_ends) || by apply turn_ends.
  - apply last_turn_ends.
Qed.

Lemma own_serving ans c x r :
  goroutine x = Running c -> ends_well c (loop x) -> own_step cfg hasDLQ ans c x = Some r -> serving r.1.
Proof.
  intros Hg Hc Hr. destruct c as [[[|err]|]|p|X f k|X e k]; simpl in Hr; simplify_eq.
  - apply (Hc [] _ _ (Linking.runs_ret _ _)).
  - apply (Hc [] _ _ (Linking.runs_ret _ _)).
  - unfold serving. simpl. by rewrite Hg.
  - destruct (f (loop x)) as [y s|p s] eqn:Hf; simplify_eq; unfold serving; simpl.
    + intros l o s' Hk. eapply Hc. by econstructor.
    + by rewrite Hg.
  - assert (Hk : forall y, ends_well (k y) (loop x)) by (intros y; by eapply asked_ends).
    destruct e as [X e|X e]; simpl in Hr; [by simplify_eq; apply Hk|].
    destruct (read_of e _); [by simplify_eq; apply Hk|].
    destruct (api_of e) as [[call answer]|]; [|by simplify_eq; apply Hk].
    destruct (sched _ _ _ _); [|done]. simplify_eq. intros y. apply Hk.
Qed.

Lemma step_serving ch x r :
  serving x -> sys_sched cfg hasDLQ loop_cfg ch x = Some r -> serving r.1.
Proof.
  intros Hs Hr. unfold sys_sched in Hr. destruct (crashed (base x)); [done|].
  destruct ch as [ch|case fuel|ans|ans].
  - destruct (in_background _ _); [|done]. destruct (sched _ _ ch _); [|done]. by simplify_eq.
  - unfold serving in Hs. destruct (goroutine x); try done. by eapply select_serving.
  - unfold serving in Hs. destruct (goroutine x) eqn:Hg; try done. by eapply own_serving.
  - unfold serving in Hs. destruct (goroutine x); try done.
    destruct (returned _) as [rep|]; [|done]. destruct (sched _ _ _ _); [|done]. simplify_eq. apply Hs.
Qed.

Lemma run_serving chs x x' hs :
  serving x -> sys_run cfg hasDLQ loop_cfg chs x = Some (x', hs) -> serving x'.
Proof.
  revert x hs. induction chs as [|ch chs IH]; intros x hs Hs Hr; simpl in Hr; [by simplify_eq|].
  destruct (sys_sched _ _ _ ch x) as [[x1 l1]|] eqn:E; [|done].
  destruct (sys_run _ _ _ chs x1) as [[x2 l2]|] eqn:E2; [|done]. simplify_eq.
  eapply IH; [|exact E2]. by apply (step_serving _ _ _ Hs E).
Qed.
End Readiness.

(** * Properties *)

Section Properties.
Context `{Coordinator C}.
Variable cfg : Config.
Variable hasDLQ : bool.
Variable loop_cfg : PollLoop.Config.

(** C5. At least once, from the client's [Poll] to its [Commit].  In every
    interleaving of the poll goroutine (loop, adapter, rebalance callbacks),
    the workers and the linger timers, with any answers of the client, the
    processor and the breaker, any failures and any rebalances: if the
    channel has a slot for each partition in use, an offset the consumer asks
    Kafka to commit, on a tick, a revocation or at shutdown, is the offset
    after a message of the same partition which was processed or given up, as
    were, in order, all messages sent before it and not discarded by a
    revocation. *)
Theorem committed_is_settled ps n c a h chs x hs h1 tps h2 tp :
  0 < BatchSize cfg -> 0 <= MaxRetries cfg -> PollLoop.positive_intervals loop_cfg -> fresh_coordinator c ->
  KafkaAdapter.topics a <> [] -> len ps <= ChannelCap cfg -> Forall (client_fits ps) chs ->
  sys_run cfg hasDLQ loop_cfg chs (sys_start loop_cfg n c a h) = Some (x, hs) ->
  hs = h1 ++ CommitRequest tps :: h2 -> tp ∈ tps ->
  delivered_up_to (history h1) (KafkaAdapter.kPartition tp) (KafkaAdapter.kOffset tp).
Proof.
  intros Hb Hm Hiv Hc Ha Hcap Hf Hr -> Htp.
  destruct (sys_run_inv cfg hasDLQ loop_cfg true ps Hb Hm (fun _ => Hcap) chs [] (sys_start loop_cfg n c a h) x
    (h1 ++ CommitRequest tps :: h2)) as (_ & _ & Hcommit); [by apply start_sys_inv|done|done|].
  specialize (Hcommit _ _ _ eq_refl eq_refl). rewrite Forall_forall in Hcommit. by apply Hcommit.
Qed.

(** C6. The poll goroutine never panics: not in the loop, not in the adapter,
    not in the dispatcher's methods it calls, however small the channel and
    however many partitions are in use ([ps], any list of them); only the send of a linger timer
    that raced with [Close] can end the process. *)
Theorem poll_goroutine_never_panics ps n c a h chs x hs i p :
  0 < BatchSize cfg -> 0 <= MaxRetries cfg -> PollLoop.positive_intervals loop_cfg -> fresh_coordinator c ->
  KafkaAdapter.topics a <> [] -> Forall (client_fits ps) chs ->
  sys_run cfg hasDLQ loop_cfg chs (sys_start loop_cfg n c a h) = Some (x, hs) ->
  crashed (base x) = Some (i, p) ->
  i <> 0%nat /\ p = SendOnClosedChannel /\ closed (st (base x)) = true.
Proof.
  intros Hb Hm Hiv Hc Ha Hf Hr Hx.
  destruct (sys_run_inv cfg hasDLQ loop_cfg false ps Hb Hm ltac:(done) chs [] (sys_start loop_cfg n c a h) x hs)
    as (Hi & _); [by apply start_sys_inv|done|done|].
  destruct (si_base _ _ _ _ _ Hi 0) as [g Hg].
  by destruct (mi_crashed _ _ _ _ _ _ _ _ Hg i p Hx) as [[? ?] ?].
Qed.

(** C11. A batch is of one partition.  Whatever the client delivers and in
    whatever order, in every run of the whole system a batch that is processed
    or given up holds only messages of its own partition, which the loop sent
    to it: grouping, buffering, backpressure (the channel may be smaller than
    the number of partitions) and rebalances never mix partitions. *)
Theorem batches_hold_one_partition ps n c a h chs x hs b v :
  0 < BatchSize cfg -> 0 <= MaxRetries cfg -> PollLoop.positive_intervals loop_cfg -> fresh_coordinator c ->
  KafkaAdapter.topics a <> [] -> Forall (client_fits ps) chs ->
  sys_run cfg hasDLQ loop_cfg chs (sys_start loop_cfg n c a h) = Some (x, hs) ->
  Dispatched (Decided b v) ∈ hs -> is_completed v = true ->
  Forall (fun msg => Partition msg = partition b /\ msg ∈ sent (partition b) (history hs)) (messages b).
Proof.
  intros Hb Hm Hiv Hc Ha Hf Hr Hd Hv.
  destruct (sys_run_inv cfg hasDLQ loop_cfg false ps Hb Hm ltac:(done) chs [] (sys_start loop_cfg n c a h) x hs)
    as (Hi & Ht & _); [by apply start_sys_inv|done|done|].
  destruct (si_base _ _ _ _ _ Hi (partition b)) as [g Hg].
  pose proof (ac_ledger _ _ _ _ _ _ _ (mi_owned _ _ _ _ _ _ _ _ Hg) eq_refl) as Hk.
  apply Forall_forall. intros msg Hin.
  assert (Hs : msg ∈ sent (partition b) (history hs)).
  { eapply kept_of_sent; [exact Hk|]. apply elem_of_app. left.
    apply list_elem_of_In, in_concat. exists (messages b). split; [|by apply list_elem_of_In].
    apply in_map, list_elem_of_In. by apply decided_settled with v. }
  split; [by eapply typed_sent|done].
Qed.

(** C10. Readiness in the whole system.  Whatever the client, the dispatcher,
    the workers and the timers do, each time the poll goroutine is at its
    [select] the service is live, and reports ready exactly when no degraded
    reason is set and the partitions-assigned flag is up.  The flag is up
    whenever the loop counts an assigned partition; an assignment of none
    raises it too ([PollLoop.empty_assignment_is_ready]), against NFR-3.3.
    Once [Run] has returned the service is neither live nor ready. *)
Theorem readiness_in_the_system n c a h chs x hs :
  sys_run cfg hasDLQ loop_cfg chs (sys_start loop_cfg n c a h) = Some (x, hs) ->
  let s := (loop x).1 in
  match goroutine x with
  | Selecting => Degraded.IsLive (PollLoop.health s) = true /\
      Degraded.IsReady (PollLoop.health s) =
        negb (Degraded.IsDegraded (PollLoop.degraded s)) && Degraded.partitionsAssigned (PollLoop.health s) /\
      (0 < PollLoop.assignedCount s -> Degraded.partitionsAssigned (PollLoop.health s) = true)
  | Stopped _ => Degraded.IsLive (PollLoop.health s) = false /\ Degraded.IsReady (PollLoop.health s) = false
  | Running _ | Calling _ => True
  end.
Proof.
  intros Hr. apply run_serving in Hr; [|apply first_turn_ends]. unfold serving in Hr. simpl.
  destruct (goroutine x); [|done..|].
  - destruct Hr as [Hi Hl]. split; [done|]. split; [|apply (PollLoop.mi_gate _ Hi)].
    unfold Degraded.IsReady. by rewrite (PollLoop.mi_ready _ Hi).
  - destruct Hr as [Hl Hy]. split; [done|]. unfold Degraded.IsReady. by rewrite Hy.
Qed.
End Properties.

(** * A consumer at work *)

(** The client: the rebalance callbacks and the event of a [Poll] that waits;
    nothing more to drain; the outcome of a commit. *)
Definition client (rs : list KafkaAdapter.rebalance) (ev : option KafkaAdapter.kEvent)
    (commit : option error) : client_answers := fun X e =>
  match e in Linking.linked Y return Y with
  | Linking.ToClient e =>
      match e in KafkaAdapter.lib Y return Y with
      | KafkaAdapter.LPoll t => if t =? 0 then ([], None) else (rs, ev)
      | KafkaAdapter.LCommitOffsets _ => commit
      | KafkaAdapter.LPause _ | KafkaAdapter.LResume _ | KafkaAdapter.LClose
      | KafkaAdapter.LIncrementalAssign _ | KafkaAdapter.LIncrementalUnassign _ => None
      | KafkaAdapter.LAssignment => inl [KafkaAdapter.mkKTP (Some "events") 0 0]
      | KafkaAdapter.HOnPartitionsAssigned _ | KafkaAdapter.HOnPartitionsRevoked _ => tt
      | KafkaAdapter.LNow => 0
      | KafkaAdapter.LRangeOrder keys => exist _ keys (Permutation_refl keys)
      end
  | Linking.ToDispatcher e =>
      match e in PollLoop.iface Y return Y with
      | PollLoop.KPoll _ => ([], inl [])
      | PollLoop.KCommitOffsets _ | PollLoop.KPause _ | PollLoop.KResume _ | PollLoop.KClose
      | PollLoop.DSend _ _ | PollLoop.DClose => None
      | PollLoop.KAssignment => inl []
      | PollLoop.DOnPartitionsAssigned _ | PollLoop.DOnPartitionsRevoked _ | PollLoop.CReset _ => tt
      | PollLoop.CCommittable => ∅
      | PollLoop.RangeOrder keys => exist _ keys (Permutation_refl keys)
      end
  end.

(** A plan: a turn of the loop with what the client answers during it, the
    worker with all it finds to do, or one action of another goroutine. *)
Inductive planned :=
| Turn (case : select_case) (ans : client_answers)
| Work
| Step (ch : choice).

Section Plan.
Variable cfg : Config.
Variable loop_cfg : PollLoop.Config.
Local Abbreviation system := (system (C := coordinator)).

(** The next choice of the poll goroutine, and of the worker. *)
Definition poll_choice (ans : client_answers) (x : system) : option sys_choice :=
  match goroutine x with
  | Running (Ret None) | Selecting | Stopped _ => None
  | Running _ => Some (Own ans)
  | Calling _ => Some (match returned (threads (base x) !! 0%nat) with
                       | Some _ => Return quietly
                       | None => Background (Run 0 quietly)
                       end)
  end.
Definition work_choice (x : system) : option sys_choice :=
  match threads (base x) !! 1%nat with
  | Some WorkerIdle => match batchCh (st (base x)) with
                       | [] => None
                       | _ => Some (Background (Recv 1))
                       end
  | _ => Some (Background (Run 1 quietly))
  end.

Fixpoint follow (n : nat) (next : system -> option sys_choice) (x : system) : list sys_choice * system :=
  match n with
  | O => ([], x)
  | S n => match next x with
           | None => ([], x)
           | Some ch => match sys_sched cfg true loop_cfg ch x with
                        | None => ([], x)
                        | Some (x1, _) => let '(chs, x2) := follow n next x1 in (ch :: chs, x2)
                        end
           end
  end.

(** No turn of the runs below takes more actions. *)
Definition enough : nat := 100.

Fixpoint choices (plan : list planned) (x : system) : list sys_choice :=
  match plan with
  | [] => []
  | Work :: plan => let '(chs, x1) := follow enough work_choice x in chs ++ choices plan x1
  | Turn case ans :: plan =>
      match sys_sched cfg true loop_cfg (Select case 2) x with
      | None => []
      | Some (x1, _) => let '(chs, x2) := follow enough (poll_choice ans) x1 in
                        Select case 2 :: chs ++ choices plan x2
      end
  | Step ch :: plan =>
      match sys_sched cfg true loop_cfg (Background ch) x with
      | None => []
      | Some (x1, _) => Background ch :: choices plan x1
      end
  end.

(** What holds of the choices a plan makes, when it holds of those it names. *)
Section Made.
Variable Q : sys_choice -> Prop.
Hypothesis Q_select : forall case fuel, Q (Select case fuel).
Hypothesis Q_return : Q (Return quietly).
Hypothesis Q_quiet : forall i, Q (Background (Run i quietly)).
Hypothesis Q_recv : forall i, Q (Background (Recv i)).

Definition plans (p : planned) : Prop :=
  match p with Turn _ ans => Q (Own ans) | Work => True | Step ch => Q (Background ch) end.

Lemma follow_all n next x :
  (forall y ch, next y = Some ch -> Q ch) -> Forall Q (follow n next x).1.
Proof.
  intros Hn. revert x. induction n as [|n IH]; intros x; [constructor|]. simpl.
  destruct (next x) as [ch|] eqn:E; [|constructor].
  destruct (sys_sched _ _ _ ch x) as [[x1 h]|]; [|constructor].
  specialize (IH x1). destruct (follow n next x1) as [chs x2]. constructor; [by eapply Hn|done].
Qed.

Lemma poll_choice_all ans y ch : Q (Own ans) -> poll_choice ans y = Some ch -> Q ch.
Proof.
  intros Ha. unfold poll_choice.
  destruct (goroutine y) as [|[[|]| | |]|k|]; intros; simplify_eq; try done. by destruct (returned _).
Qed.

Lemma work_choice_all y ch : work_choice y = Some ch -> Q ch.
Proof.
  unfold work_choice. destruct (threads _ !! _) as [[]|]; try destruct (batchCh _); intros; by simplify_eq.
Qed.

Lemma choices_all plan x : Forall plans plan -> Forall Q (choices plan x).
Proof.
  revert x. induction plan as [|[case ans| |ch] plan IH]; intros x Hp; [constructor|..];
    apply Forall_cons in Hp as [Hp Hps]; cbn [choices].
  - destruct (sys_sched _ _ _ _ _) as [[x1 h]|]; [|constructor].
    assert (Hf := follow_all enough (poll_choice ans) x1).
    destruct (follow enough _ x1) as [chs x2]. constructor; [done|]. apply Forall_app. split; [|by apply IH].
    apply Hf. intros y ch. by apply poll_choice_all.
  - assert (Hf := follow_all enough work_choice x).
    destruct (follow enough _ x) as [chs x2]. apply Forall_app. split; [|by apply IH].
    apply Hf, work_choice_all.
  - destruct (sys_sched _ _ _ _ _) as [[x1 h]|]; [|constructor]. constructor; [done|by apply IH].
Qed.
End Made.
End Plan.

Definition planned_ok (ps : list Z) : planned -> Prop := plans (client_fits ps).

Lemma client_fits_answers ps rs ev commit :
  Forall (Linking.rebalance_known (fun q => q ∈ ps)) rs ->
  from_option (Linking.event_known (fun q => q ∈ ps)) True ev ->
  client_fits ps (Own (client rs ev commit)).
Proof.
  intros Hr He w X e. destruct e; simpl; try done. by destruct (_ =? 0).
Qed.

Definition demo_health : Degraded.Health := Degraded.mkHealth false false false.
Definition demo_adapter : KafkaAdapter.Adapter := KafkaAdapter.mkAdapter ["events"] "group" (Some ∅).
Definition demo_ktp (p off : Z) : KafkaAdapter.kTopicPartition := KafkaAdapter.mkKTP (Some "events") p off.
Definition demo_fetch (p off : Z) : option KafkaAdapter.kEvent :=
  Some (KafkaAdapter.EvMessage (KafkaAdapter.mkKMessage (demo_ktp p off) None None 0 [])).
Definition demo_begin (loop_cfg : PollLoop.Config) : system :=
  sys_start loop_cfg 1 NewCoordinator demo_adapter demo_health.

(** A partition is assigned, two messages are fetched and processed, and the
    offset after them is committed. *)
Definition demo_turns : list planned :=
  [Turn PollTicker (client [KafkaAdapter.AssignedPartitions [demo_ktp 0 0]] (demo_fetch 0 10) None);
   Turn PollTicker (client [] (demo_fetch 0 11) None);
   Work;
   Turn CommitTicker (client [] None None);
   Turn DoneCase (client [] None None)].

(** [Run] up to its first [select], then the turns. *)
Definition demo_choices (cfg : Config) (loop_cfg : PollLoop.Config) (turns : list planned)
  : list sys_choice :=
  let '(chs, x) := follow cfg loop_cfg enough (poll_choice (client [] None None)) (demo_begin loop_cfg) in
  chs ++ choices cfg loop_cfg turns x.
Definition demo_run (cfg : Config) (loop_cfg : PollLoop.Config) (turns : list planned) :=
  sys_run cfg true loop_cfg (demo_choices cfg loop_cfg turns) (demo_begin loop_cfg).

Lemma demo_all (Q : sys_choice -> Prop) cfg loop_cfg turns :
  (forall case fuel, Q (Select case fuel)) -> Q (Return quietly) -> (forall i, Q (Background (Run i quietly))) ->
  (forall i, Q (Background (Recv i))) -> Q (Own (client [] None None)) ->
  Forall (plans Q) turns -> Forall Q (demo_choices cfg loop_cfg turns).
Proof.
  intros Hs Hr Hq Hv Ho Ht. unfold demo_choices.
  assert (Hf := follow_all cfg loop_cfg Q enough (poll_choice (client [] None None)) (demo_begin loop_cfg)).
  destruct (follow _ _ enough _ (demo_begin loop_cfg)) as [chs x]. apply Forall_app. split; [|by apply choices_all].
  apply Hf. intros y ch. by apply poll_choice_all.
Qed.

Lemma demo_fits cfg loop_cfg ps turns :
  Forall (planned_ok ps) turns -> Forall (client_fits ps) (demo_choices cfg loop_cfg turns).
Proof. apply demo_all; try done. by apply client_fits_answers. Qed.

(** ** Witnesses *)

Definition is_commit (h : happening) : bool :=
  match h with CommitRequest _ => true | _ => false end.
(** A log cut at its first commit. *)
Fixpoint cut_at_commit (hs : list happening) : list happening * list happening :=
  match hs with
  | [] => ([], [])
  | h :: hs => if is_commit h then ([], h :: hs)
               else let '(before, after) := cut_at_commit hs in (h :: before, after)
  end.

Definition demo_log : list happening :=
  Eval vm_compute in from_option snd [] (demo_run demo_cfg PollLoop.DefaultConfig demo_turns).
Definition before_commit : list happening := Eval vm_compute in (cut_at_commit demo_log).1.
Definition after_commit : list happening := Eval vm_compute in tl (cut_at_commit demo_log).2.

Lemma demo_turns_ok : Forall (planned_ok [0]) demo_turns.
Proof.
  repeat constructor; apply client_fits_answers; repeat constructor; simpl; set_solver.
Qed.

(** The log of a run, by evaluation. *)
Lemma ran_with {cfg loop_cfg turns hs} :
  option_map snd (demo_run cfg loop_cfg turns) = Some hs ->
  exists x, demo_run cfg loop_cfg turns = Some (x, hs).
Proof. destruct (demo_run _ _ _) as [[x hs']|]; [|done]. intros [= ->]. by exists x. Qed.

Lemma committed_is_settled_witness :
  exists x hs h1 h2, demo_run demo_cfg PollLoop.DefaultConfig demo_turns = Some (x, hs) /\
    hs = h1 ++ CommitRequest [demo_ktp 0 12] :: h2 /\ delivered_up_to (history h1) 0 12.
Proof.
  assert (Hr : option_map snd (demo_run demo_cfg PollLoop.DefaultConfig demo_turns) = Some demo_log)
    by (vm_compute; reflexivity).
  apply ran_with in Hr as [x Hr]. exists x, demo_log, before_commit, after_commit.
  assert (E : demo_log = before_commit ++ CommitRequest [demo_ktp 0 12] :: after_commit)
    by reflexivity.
  split_and!; [exact Hr|exact E|].
  apply (committed_is_settled demo_cfg true PollLoop.DefaultConfig [0] 1 NewCoordinator demo_adapter
    demo_health (demo_choices demo_cfg PollLoop.DefaultConfig demo_turns) x demo_log before_commit [demo_ktp 0 12] after_commit (demo_ktp 0 12));
    [done|done|by split|exact demo_fresh|done|done|apply demo_fits, demo_turns_ok|exact Hr|exact E|apply list_elem_of_here].
Defined.

Definition demo_decided : batch :=
  mkBatch 0 11 [mkMessage "events" 0 10 None None 0 [] 0; mkMessage "events" 0 11 None None 0 [] 0].

Lemma batches_hold_one_partition_witness :
  exists x hs, demo_run demo_cfg PollLoop.DefaultConfig demo_turns = Some (x, hs) /\
    Forall (fun msg => Partition msg = 0 /\ msg ∈ sent 0 (history hs)) (messages demo_decided).
Proof.
  assert (Hr : option_map snd (demo_run demo_cfg PollLoop.DefaultConfig demo_turns) = Some demo_log)
    by (vm_compute; reflexivity).
  apply ran_with in Hr as [x Hr]. exists x, demo_log. split; [exact Hr|].
  apply (batches_hold_one_partition demo_cfg true PollLoop.DefaultConfig [0] 1 NewCoordinator
    demo_adapter demo_health (demo_choices demo_cfg PollLoop.DefaultConfig demo_turns) x demo_log
    demo_decided (Success 0));
    [done|done|by split|exact demo_fresh|done|apply demo_fits, demo_turns_ok|exact Hr| |done].
  unfold demo_log. do 4 apply list_elem_of_further. apply list_elem_of_here.
Defined.

(** A linger timer is about to send its batch while the loop shuts down. *)
Definition race_turns : list planned :=
  [Turn PollTicker (client [KafkaAdapter.AssignedPartitions [demo_ktp 0 0]] (demo_fetch 0 10) None);
   Step (Fire 0); Step (Run 2 quietly); Step (Run 2 quietly); Step (Run 2 quietly);
   Turn DoneCase (client [] None None);
   Step (Run 2 quietly); Step (Run 2 quietly)].

Definition demo_crash (turns : list planned) : option (nat * panic) :=
  match demo_run demo_cfg PollLoop.DefaultConfig turns with
  | Some (x, _) => crashed (base x)
  | None => None
  end.

Lemma race_turns_ok : Forall (planned_ok [0]) race_turns.
Proof.
  repeat constructor; apply client_fits_answers; repeat constructor; simpl; set_solver.
Qed.

Lemma poll_goroutine_never_panics_witness :
  exists x hs i p, demo_run demo_cfg PollLoop.DefaultConfig race_turns = Some (x, hs) /\
    crashed (base x) = Some (i, p) /\ i <> 0%nat /\ p = SendOnClosedChannel /\ closed (st (base x)) = true.
Proof.
  assert (Hc : demo_crash race_turns = Some (2%nat, SendOnClosedChannel)) by (vm_compute; reflexivity).
  unfold demo_crash in Hc.
  destruct (demo_run demo_cfg PollLoop.DefaultConfig race_turns) as [[x hs]|] eqn:Hr; [|done].
  exists x, hs, 2%nat, SendOnClosedChannel. split; [done|]. split; [exact Hc|].
  apply (poll_goroutine_never_panics demo_cfg true PollLoop.DefaultConfig [0] 1 NewCoordinator
    demo_adapter demo_health (demo_choices demo_cfg PollLoop.DefaultConfig race_turns) x hs);
    [done|done|by split|exact demo_fresh|done|apply demo_fits, race_turns_ok|exact Hr|exact Hc].
Defined.

Definition is_selecting (g : poller) : bool := match g with Selecting => true | _ => false end.

Lemma readiness_in_the_system_witness :
  exists x hs, demo_run demo_cfg PollLoop.DefaultConfig (take 2 demo_turns) = Some (x, hs) /\
    is_selecting (goroutine x) = true /\ Degraded.IsReady (PollLoop.health (loop x).1) = true /\
    Degraded.IsReady (PollLoop.health (loop x).1) =
      negb (Degraded.IsDegraded (PollLoop.degraded (loop x).1)) &&
      Degraded.partitionsAssigned (PollLoop.health (loop x).1) /\
    (0 < PollLoop.assignedCount (loop x).1 -> Degraded.partitionsAssigned (PollLoop.health (loop x).1) = true).
Proof.
  assert (Hg : option_map (fun r => (is_selecting (goroutine r.1),
      Degraded.IsReady (PollLoop.health (loop r.1).1)))
    (demo_run demo_cfg PollLoop.DefaultConfig (take 2 demo_turns)) = Some (true, true))
    by (vm_compute; reflexivity).
  destruct (demo_run demo_cfg PollLoop.DefaultConfig (take 2 demo_turns)) as [[x hs]|] eqn:Hr; [|done].
  injection Hg as Hg Hy. exists x, hs. split; [done|]. split; [done|]. split; [done|].
  pose proof (readiness_in_the_system demo_cfg true PollLoop.DefaultConfig 1 NewCoordinator demo_adapter
    demo_health _ x hs Hr) as Hp. simpl in Hg.
  by destruct (goroutine x); [destruct Hp|..].
Defined.

(** ** A message is lost *)

(** A failed commit starts degraded mode; the next poll assigns partition 1
    and fetches its offset 5, which the degraded loop drops; the next commit
    succeeds; and offsets 6 and 7 are processed. *)
Definition lossy_cfg : Config :=
  mkConfig 1 2 2 (100 * Millisecond) 3 3 float_0_6 (30 * Second) 1 (60 * Second).
Definition lossy_loop : PollLoop.Config :=
  PollLoop.mkConfig (100 * Millisecond) (5 * Second) 1 (25 * Second).
Definition lossy_turns : list planned :=
  [Turn PollTicker (client [KafkaAdapter.AssignedPartitions [demo_ktp 0 0]] (demo_fetch 0 10) None);
   Turn PollTicker (client [] (demo_fetch 0 11) None);
   Work;
   Turn CommitTicker (client [] None (Some KafkaAdapter.offline));
   Turn PollTicker (client [KafkaAdapter.AssignedPartitions [demo_ktp 1 5]] (demo_fetch 1 5) None);
   Turn CommitTicker (client [] None None);
   Turn PollTicker (client [] (demo_fetch 1 6) None);
   Turn PollTicker (client [] (demo_fetch 1 7) None);
   Work;
   Turn CommitTicker (client [] None None)].
Definition lossy_log : list happening :=
  Eval vm_compute in from_option snd [] (demo_run lossy_cfg lossy_loop lossy_turns).

Lemma lossy_turns_ok : Forall (planned_ok [0; 1]) lossy_turns.
Proof.
  repeat constructor; apply client_fits_answers; repeat constructor; simpl; set_solver.
Qed.

(** C23. What at least once leaves out: it is about the messages sent to the
    dispatcher, and a message can be fetched and not sent.  There is a run of
    the whole system, of a well-behaved client, in which offset 5 of partition
    1 is fetched in a degraded poll and never sent, and offset 8 of the
    partition is committed: message 5 is lost. *)
Theorem degraded_poll_loses :
  exists chs x hs km msgs, Forall (client_fits [0; 1]) chs /\
    sys_run lossy_cfg true lossy_loop chs (demo_begin lossy_loop) = Some (x, hs) /\
    Fetched km ∈ hs /\ KafkaAdapter.kmTopicPartition km = demo_ktp 1 5 /\
    sent 1 (history hs) = msgs /\ 5 ∉ (Offset <$> msgs) /\
    last hs = Some (CommitRequest [demo_ktp 1 8; demo_ktp 0 12]).
Proof.
  assert (Hr : option_map snd (demo_run lossy_cfg lossy_loop lossy_turns) = Some lossy_log)
    by (vm_compute; reflexivity).
  apply ran_with in Hr as [x Hr]. unfold demo_run in Hr.
  exists (demo_choices lossy_cfg lossy_loop lossy_turns), x, lossy_log,
    (KafkaAdapter.mkKMessage (demo_ktp 1 5) None None 0 []), (sent 1 (history lossy_log)).
  split; [apply demo_fits, lossy_turns_ok|]. split; [exact Hr|].
  split; [|split; [reflexivity|split; [reflexivity|split; [|reflexivity]]]].
  - unfold lossy_log. do 6 apply list_elem_of_further. apply list_elem_of_here.
  - apply (bool_decide_unpack _). vm_compute. done.
Qed.
