(* ===== verification/Delivery.v ===== *)
(** Delivery: what the client delivers, against what the poll loop sends to the
    dispatcher.  In the whole system ([System]) a message that arrives outside
    degraded mode for a partition that is not paused is sent, in order; so the
    offsets below a committed one were processed, whatever is delivered in
    increasing order and not revoked.  A revocation in the middle of a [Poll]
    breaks this, and a shutdown that interrupts the last attempt of a batch
    makes "processed" into "given up": a run shows each. *)
From stdpp Require Import sorting.
From S2P Require Import Prelude Types OffsetCoordinator Dispatcher Retry Worker Machine Ownership Interleaving System.
From S2P Require PollLoop KafkaAdapter Linking.

(** * What flows through the poll goroutine

    For one partition [p]: the offsets delivered by the client and not yet
    sent to the dispatcher. *)
Section Flow.
Variable p : Z.
Local Abbreviation P := (prog Linking.linked Linking.state).
Local Abbreviation loop_prog := (prog PollLoop.iface PollLoop.PollLoop).
Local Abbreviation adapter_prog := (prog KafkaAdapter.lib KafkaAdapter.Adapter).

Definition offsets (msgs : list Message) : list Z := Offset <$> PollLoop.of_partition p msgs.

Definition handed {X} (e : Linking.linked X) : list Z :=
  match e with
  | Linking.ToDispatcher (PollLoop.DSend q msgs) => if q =? p then Offset <$> msgs else []
  | _ => []
  end.

Definition fetched_event (ev : option KafkaAdapter.kEvent) : list Z :=
  match ev with
  | Some (KafkaAdapter.EvMessage km) =>
      let tp := KafkaAdapter.kmTopicPartition km in
      if KafkaAdapter.kPartition tp =? p then [KafkaAdapter.kOffset tp] else []
  | _ => []
  end.

Definition delivered {X} (e : Linking.linked X) (a : X) : list Z :=
  match e in Linking.linked Y return Y -> list Z with
  | Linking.ToClient e =>
      match e in KafkaAdapter.lib Y return Y -> list Z with
      | KafkaAdapter.LPoll _ => fun a => fetched_event a.2
      | _ => fun _ => []
      end
  | Linking.ToDispatcher _ => fun _ => []
  end a.

(** The loop takes what arrives for [p]: it is not degraded and [p] is not
    paused. *)
Definition open_for (s : PollLoop.PollLoop) : bool :=
  negb (Degraded.IsDegraded (PollLoop.degraded s)) && negb (bool_decide (p ∈ PollLoop.pausedPartitions s)).
Definition attended {X} (s : PollLoop.PollLoop) (e : Linking.linked X) (a : X) : bool :=
  match delivered e a with [] => true | _ => open_for s end.

(** From [s], with [pend] delivered and not sent: [c] sends what is pending in
    order, if all that arrives is attended, and ends with [Q]. *)
Fixpoint flows {A} (Q : A -> Linking.state -> list Z -> Prop) (c : P A)
    (s : Linking.state) (pend : list Z) : Prop :=
  match c with
  | Ret a => Q a s pend
  | Throw _ => True
  | Act f k => match f s with
               | Returned x s' => flows Q (k x) s' pend
               | Panicked _ _ => True
               end
  | Ask e k => exists rest, pend = handed e ++ rest /\
      forall a, attended s.1 e a = true -> flows Q (k a) s (rest ++ delivered e a)
  end.

Lemma flows_mono {A} (Q Q' : A -> Linking.state -> list Z -> Prop) (c : P A) s pend :
  (forall a s' pend', Q a s' pend' -> Q' a s' pend') -> flows Q c s pend -> flows Q' c s pend.
Proof.
  intros HQ. revert s pend. induction c as [a|q|X f k IH|X e k IH]; intros s pend; simpl; auto.
  - destruct (f s); auto.
  - intros (rest & -> & Hk). exists rest. split; [done|]. auto.
Qed.

Lemma flows_bind {A B} (Q : B -> Linking.state -> list Z -> Prop) (c : P A) (f : A -> P B) s pend :
  flows (fun a s' pend' => flows Q (f a) s' pend') c s pend -> flows Q (bind c f) s pend.
Proof.
  revert s pend. induction c as [a|q|X g k IH|X e k IH]; intros s pend; simpl; auto.
  - destruct (g s); auto.
  - intros (rest & -> & Hk). exists rest. split; [done|]. auto.
Qed.

Lemma flows_seq {A B} (R : A -> Linking.state -> list Z -> Prop) (Q : B -> Linking.state -> list Z -> Prop)
    (c : P A) (f : A -> P B) s pend :
  flows R c s pend -> (forall a s' pend', R a s' pend' -> flows Q (f a) s' pend') ->
  flows Q (bind c f) s pend.
Proof. intros Hc Hf. apply flows_bind. by eapply flows_mono. Qed.

(** A question that neither delivers nor sends. *)
Definition idle_question {X} (e : Linking.linked X) : Prop :=
  handed e = [] /\ forall a, delivered e a = [].

Lemma flows_idle {X A} (Q : A -> Linking.state -> list Z -> Prop) (e : Linking.linked X) (k : X -> P A) s pend :
  idle_question e -> (forall a, flows Q (k a) s pend) -> flows Q (Ask e k) s pend.
Proof.
  intros [Hh Hd] Hk. exists pend. rewrite Hh. split; [done|]. intros a _. by rewrite Hd, app_nil_r.
Qed.

(** ** Through the interpreters *)

Section Interp.
Context {E : Type -> Type} {T : Type}.
Variable get : Linking.state -> T.
Variable put : T -> Linking.state -> Linking.state.
Variable q : forall X, E X -> P (option X).

Lemma flows_interp_bind {A B} (Q : option B -> Linking.state -> list Z -> Prop) (c : prog E T A)
    (f : A -> prog E T B) s pend :
  flows (fun o s' pend' => match o with
                           | Some a => flows Q (Linking.interp get put q (f a)) s' pend'
                           | None => Q None s' pend'
                           end) (Linking.interp get put q c) s pend ->
  flows Q (Linking.interp get put q (bind c f)) s pend.
Proof.
  revert s pend. induction c as [a|r|X g k IH|X e k IH]; intros s pend; simpl; auto.
  - destruct (Linking.on_part get put g s); auto.
  - intros Hk. apply flows_bind.
    assert (Hg : forall c', flows (fun o s' pend' => match o with
                           | Some a => flows Q (Linking.interp get put q (f a)) s' pend'
                           | None => Q None s' pend'
                           end) (bind c' (fun ox => match ox with
                             | Some x => Linking.interp get put q (k x) | None => Ret None end)) s pend ->
      flows (fun ox s' pend' => flows Q (match ox with
        | Some x => Linking.interp get put q (bind (k x) f) | None => Ret None end) s' pend') c' s pend).
    { clear Hk. intros c'. revert s pend.
      induction c' as [[x|]|r|Y g k' IH'|Y e' k' IH']; intros s pend; simpl; auto.
      - destruct (g s); auto.
      - intros (rest & -> & Hk). exists rest. split; [done|]. auto. }
    by apply Hg.
Qed.

Lemma flows_interp_seq {A B} (R : A -> Linking.state -> list Z -> Prop)
    (Q : option B -> Linking.state -> list Z -> Prop) (c : prog E T A) (f : A -> prog E T B) s pend :
  flows (fun o s' pend' => match o with Some a => R a s' pend' | None => Q None s' pend' end)
    (Linking.interp get put q c) s pend ->
  (forall a s' pend', R a s' pend' -> flows Q (Linking.interp get put q (f a)) s' pend') ->
  flows Q (Linking.interp get put q (bind c f)) s pend.
Proof.
  intros Hc Hf. apply flows_interp_bind. eapply flows_mono; [|exact Hc]. intros [a|] s' pend'; [apply Hf|done].
Qed.
End Interp.

(** ** Programs that neither deliver nor send *)

Fixpoint never_polls {A} (c : adapter_prog A) : Prop :=
  match c with
  | Ret _ | Throw _ => True
  | Act f k => forall x, never_polls (k x)
  | Ask e k => match e with KafkaAdapter.LPoll _ => False | _ => True end /\ forall a, never_polls (k a)
  end.

Lemma never_polls_bind {A B} (c : adapter_prog A) (f : A -> adapter_prog B) :
  never_polls c -> (forall a, never_polls (f a)) -> never_polls (bind c f).
Proof.
  intros Hc Hf. induction c as [a|q|X g k IH|X e k IH]; simpl in *; auto.
  destruct Hc as [He Hk]. split; auto.
Qed.

(** An adapter's method without callbacks leaves the loop alone. *)
Lemma flows_adapter {A} (Q : option A -> Linking.state -> list Z -> Prop) (c : adapter_prog A) s pend :
  never_polls c -> (forall o s', s'.1 = s.1 -> Q o s' pend) ->
  flows Q (Linking.in_adapter Linking.no_callback c) s pend.
Proof.
  revert s. unfold Linking.in_adapter. induction c as [a|q|X f k IH|X e k IH]; intros s Hc HQ; simpl in *.
  - by apply HQ.
  - done.
  - unfold Linking.on_part. destruct (f (Linking.get_adapter s)); [|done]. by apply IH.
  - destruct Hc as [He Hk].
    destruct e; try done; try (by apply HQ); apply flows_idle; try done; intros a; by apply IH.
Qed.

(** The loop's state changes by [R]. *)
Fixpoint sends_nothing {A} (R : PollLoop.PollLoop -> PollLoop.PollLoop -> Prop) (c : loop_prog A) : Prop :=
  match c with
  | Ret _ | Throw _ => True
  | Act f k => (forall s, match f s with Returned _ s' => R s s' | Panicked _ _ => True end) /\
      forall x, sends_nothing R (k x)
  | Ask e k => match e with PollLoop.KPoll _ | PollLoop.DSend _ _ => False | _ => True end /\
      forall a, sends_nothing R (k a)
  end.

Lemma sends_nothing_bind {A B} R (c : loop_prog A) (f : A -> loop_prog B) :
  sends_nothing R c -> (forall a, sends_nothing R (f a)) -> sends_nothing R (bind c f).
Proof.
  intros Hc Hf. induction c as [a|q|X g k IH|X e k IH]; simpl in *; auto;
    destruct Hc as [He Hk]; split; auto.
Qed.

Lemma never_polls_topic q : never_polls (KafkaAdapter.topicForPartition q).
Proof. split; [done|]. intros [tps|e]; simpl; [|done].
  by destruct (List.find (KafkaAdapter.serves q) tps); simpl. Qed.

Lemma never_polls_resolve l : never_polls (KafkaAdapter.resolve_all l).
Proof.
  induction l as [|[q off] l IH]; [done|]. apply never_polls_bind; [apply never_polls_topic|].
  intros t. by apply never_polls_bind.
Qed.

Lemma never_polls_resolving {X A} l (e : list KafkaAdapter.kTopicPartition -> KafkaAdapter.lib X)
    (f : X -> A) :
  (forall tps, match e tps with KafkaAdapter.LPoll _ => False | _ => True end) ->
  never_polls (let* tps := KafkaAdapter.resolve_all l in let* err := ask (e tps) in Ret (f err)).
Proof. intros He. apply never_polls_bind; [apply never_polls_resolve|]. intros tps. split; [apply He|done]. Qed.

Lemma flows_sends_nothing {A} (R : PollLoop.PollLoop -> PollLoop.PollLoop -> Prop)
    (Q : option A -> Linking.state -> list Z -> Prop) on_callback fuel (c : loop_prog A) s pend :
  PreOrder R -> sends_nothing R c -> (forall o s', R s.1 s'.1 -> Q o s' pend) ->
  flows Q (Linking.interp Linking.get_loop Linking.put_loop (Linking.loop_question on_callback fuel) c) s pend.
Proof.
  intros HR. revert s. induction c as [a|q|X f k IH|X e k IH]; intros s Hc HQ; simpl in *.
  - apply HQ. reflexivity.
  - done.
  - destruct Hc as [Hf Hk]. specialize (Hf s.1). unfold Linking.on_part, Linking.get_loop.
    destruct (f s.1) as [x s1|]; [|done]. apply IH; [done|]. intros o s' Hs. apply HQ. by transitivity s1.
  - destruct Hc as [He Hk].
    assert (Hd : forall Y (e' : PollLoop.iface Y) (k' : Y -> loop_prog A),
      match e' with PollLoop.DSend _ _ => False | _ => True end ->
      (forall a, flows Q (Linking.interp Linking.get_loop Linking.put_loop
        (Linking.loop_question on_callback fuel) (k' a)) s pend) ->
      flows Q (let* ox := let* x := ask (Linking.ToDispatcher e') in Ret (Some x) in
        match ox with Some x => Linking.interp Linking.get_loop Linking.put_loop
          (Linking.loop_question on_callback fuel) (k' x) | None => Ret None end) s pend).
    { intros Y e' k' He' Hk'. apply flows_idle; [|done]. split; [by destruct e'|done]. }
    assert (Hr : forall (a : X) s', s'.1 = s.1 -> flows Q (Linking.interp Linking.get_loop Linking.put_loop
        (Linking.loop_question on_callback fuel) (k a)) s' pend).
    { intros a s' E. apply IH; [apply Hk|]. rewrite E. exact HQ. }
    destruct e; try done; try (apply Hd; [done|]; intros a; by apply Hr);
      apply flows_bind, flows_adapter;
      try (intros [a|] s' E; [by apply Hr|]; apply HQ; by rewrite E);
      try (split; [done|]; done).
    + split; [done|]. intros [order Ho]. simpl proj1_sig. by apply never_polls_resolving.
    + by apply never_polls_resolving.
    + by apply never_polls_resolving.
    + split; [done|]. by intros [|].
Qed.

(** ** Polling *)

(** What a rebalance callback may do to the loop's state. *)
Definition narrows (s s' : PollLoop.PollLoop) : Prop :=
  PollLoop.degraded s' = PollLoop.degraded s /\
  PollLoop.pausedPartitions s' ⊆ PollLoop.pausedPartitions s.

#[local] Instance narrows_preorder : PreOrder narrows.
Proof. split; [by intros s|]. intros s1 s2 s3 [H1 H2] [H3 H4]. split; [congruence|set_solver]. Qed.

Lemma narrows_open s s' : narrows s s' -> open_for s = true -> open_for s' = true.
Proof.
  intros [Hd Hp] [Hg Hn]%andb_prop. unfold open_for. rewrite Hd, Hg. simpl in *.
  rewrite negb_true_iff, bool_decide_eq_false in *. set_solver.
Qed.

Lemma callback_narrows cb : sends_nothing narrows (PollLoop.run_callback cb).
Proof.
  destruct cb as [tps|tps]; unfold PollLoop.run_callback; simpl.
  - by split.
  - assert (Hr : sends_nothing narrows (PollLoop.for_each tps PollLoop.reset_one)).
    { induction tps as [|tp tps IH]; [done|].
      change (PollLoop.for_each (tp :: tps) PollLoop.reset_one) with
        (let* _ := PollLoop.reset_one tp in PollLoop.for_each tps PollLoop.reset_one).
      apply sends_nothing_bind; [|by intros]. simpl. split; [done|]. intros _. split; [|done].
      intros s. split; [done|]. simpl. set_solver. }
    split; [intros s; unfold PollLoop.uncount; by destruct (_ <=? 0)|]. intros _. split; [done|]. intros _.
    split; [done|]. intros m. apply sends_nothing_bind; [|by intros]. by destruct (0 <? _).
Qed.

Definition given {A} (R : A -> Linking.state -> list Z -> Prop) (o : option A) (s : Linking.state)
    (pend : list Z) : Prop :=
  match o with Some a => R a s pend | None => True end.

Local Abbreviation adapted c := (Linking.in_adapter Linking.linked_callback c).

Lemma flows_callback {A} (Q : A -> Linking.state -> list Z -> Prop) cb (f : option unit -> P A) s pend :
  (forall o s', narrows s.1 s'.1 -> flows Q (f o) s' pend) ->
  flows Q (bind (Linking.linked_callback cb) f) s pend.
Proof.
  intros Hf. apply flows_bind. unfold Linking.linked_callback.
  eapply flows_sends_nothing; [apply narrows_preorder|apply callback_narrows|done].
Qed.

Lemma flows_rebalances rs s pend :
  flows (given (fun _ s' pend' => narrows s.1 s'.1 /\ pend' = pend)) (adapted (KafkaAdapter.rebalances rs)) s pend.
Proof.
  unfold Linking.in_adapter. revert s. induction rs as [|r rs IH]; intros s; [done|].
  assert (Hk : forall s', narrows s.1 s'.1 -> flows (given (fun _ s' pend' => narrows s.1 s'.1 /\ pend' = pend))
    (Linking.interp Linking.get_adapter Linking.put_adapter (Linking.adapter_question Linking.linked_callback)
      (KafkaAdapter.rebalances rs)) s' pend).
  { intros s' Hs. eapply flows_mono; [|apply IH]. intros [a|] s2 pend2; simpl; [|done].
    intros [Hs2 ->]. split; [by transitivity s'.1|done]. }
  destruct r as [tps|tps]; apply flows_callback; intros [[]|] s' Hs; try done;
    (apply flows_idle; [done|]); intros e; by apply Hk.
Qed.

Definition polled_event (s : PollLoop.PollLoop) (pend : list Z) (ev : option KafkaAdapter.kEvent)
    (s' : Linking.state) (pend' : list Z) : Prop :=
  narrows s s'.1 /\ pend' = pend ++ fetched_event ev /\ (fetched_event ev <> [] -> open_for s'.1 = true).

Lemma flows_client_poll t s pend :
  flows (given (polled_event s.1 pend)) (adapted (KafkaAdapter.client_poll t)) s pend.
Proof.
  unfold KafkaAdapter.client_poll, Linking.in_adapter. exists pend. split; [done|].
  intros [rs ev] Ha. unfold attended in Ha. simpl in Ha. simpl delivered.
  eapply (flows_interp_seq _ _ _ (fun _ s' pend' => narrows s.1 s'.1 /\ pend' = pend ++ fetched_event ev)
    _ (KafkaAdapter.rebalances rs) (fun _ => Ret ev)).
  - eapply flows_mono; [|apply flows_rebalances]. by intros [].
  - intros _ s' pend' [Hs ->]. split; [done|]. split; [done|]. intros Hne.
    apply (narrows_open s.1); [done|]. by destruct (fetched_event ev).
Qed.

(** The messages a poll has collected are what is pending. *)
Definition collected (s0 : PollLoop.PollLoop) (msgs : list Message) (s : Linking.state) (pend : list Z) : Prop :=
  narrows s0 s.1 /\ pend = offsets msgs /\ (pend <> [] -> open_for s.1 = true).

Lemma collected_more s0 msgs s pend ev s' pend' :
  collected s0 msgs s pend -> polled_event s.1 pend ev s' pend' ->
  narrows s0 s'.1 /\ pend' = offsets msgs ++ fetched_event ev /\ (pend' <> [] -> open_for s'.1 = true).
Proof.
  intros (Hn & -> & Ho) (Hn' & -> & Ho'). split; [by transitivity s.1|]. split; [done|]. intros Hne.
  destruct (fetched_event ev) as [|z l] eqn:E; [|by apply Ho'].
  apply (narrows_open s.1); [done|]. apply Ho. by rewrite app_nil_r in Hne.
Qed.

Lemma offsets_message msgs km now :
  offsets (msgs ++ [KafkaAdapter.mapMessage km now]) =
  offsets msgs ++ fetched_event (Some (KafkaAdapter.EvMessage km)).
Proof.
  unfold offsets. rewrite PollLoop.of_partition_snoc, fmap_app. f_equal. simpl.
  destruct (Z.eqb_spec (KafkaAdapter.kPartition (KafkaAdapter.kmTopicPartition km)) p);
    by rewrite ?decide_True, ?decide_False by done.
Qed.

Lemma flows_handleEvent s0 ev msgs s pend :
  narrows s0 s.1 -> pend = offsets msgs ++ fetched_event (Some ev) -> (pend <> [] -> open_for s.1 = true) ->
  flows (given (fun r s' pend' => match r with
                                  | inl msgs' => collected s0 msgs' s' pend'
                                  | inr _ => collected s0 msgs s' pend'
                                  end))
    (adapted (KafkaAdapter.handleEvent ev msgs)) s pend.
Proof.
  intros Hn Hp Ho. destruct ev as [km|code e|stats|]; simpl in Hp; rewrite ?app_nil_r in Hp.
  - apply flows_idle; [done|]. intros now. split; [done|]. split; [|done]. by rewrite offsets_message.
  - by split.
  - by split.
  - by split.
Qed.

Definition poll_done (s0 : PollLoop.PollLoop) (r : option (list Message * option error))
    (s : Linking.state) (pend : list Z) : Prop :=
  forall msgs err, r = Some (msgs, err) -> collected s0 msgs s pend /\ (err <> None -> msgs = []).

Lemma flows_drain s0 fuel msgs s pend :
  collected s0 msgs s pend ->
  flows (given (poll_done s0)) (adapted (KafkaAdapter.drain fuel msgs)) s pend.
Proof.
  revert msgs s pend. induction fuel as [|n IH]; intros msgs s pend Hc; [done|].
  change (KafkaAdapter.drain (S n) msgs) with
    (let* ev := KafkaAdapter.client_poll 0 in
     match ev with
     | None => Ret (Some (msgs, None))
     | Some ev =>
         let* r := KafkaAdapter.handleEvent ev msgs in
         match r with
         | inl msgs' => KafkaAdapter.drain n msgs'
         | inr e => Ret (Some (if 0 <? len msgs then (msgs, None) else ([], Some e)))
         end
     end).
  eapply flows_interp_seq; [apply flows_client_poll|]. intros ev s1 pend1 He.
  destruct (collected_more _ _ _ _ _ _ _ Hc He) as (Hn & Hp & Ho). destruct ev as [ev|].
  - eapply flows_interp_seq; [by apply flows_handleEvent|]. intros [msgs'|e] s2 pend2 Hr; [by apply IH|].
    intros msgs' err [= E]. destruct (0 <? len msgs) eqn:El; simplify_eq; [by split|].
    zbool. assert (msgs = []) as -> by (apply len_nil_inv; pose proof (len_nonneg msgs); lia). by split.
  - intros msgs' err [= <- <-]. simpl in Hp. rewrite app_nil_r in Hp. by split.
Qed.

Lemma flows_Poll fuel t s :
  flows (given (poll_done s.1)) (adapted (KafkaAdapter.Poll fuel t)) s [].
Proof.
  unfold KafkaAdapter.Poll. assert (Hc : collected s.1 [] s []) by by split.
  eapply flows_interp_seq; [apply flows_client_poll|]. intros ev s1 pend1 He.
  destruct (collected_more _ _ _ _ _ _ _ Hc He) as (Hn & Hp & Ho). destruct ev as [ev|].
  - eapply flows_interp_seq; [by apply flows_handleEvent|]. intros [msgs'|e] s2 pend2 Hr; [by apply flows_drain|].
    intros msgs' err [= <- <-]. by split.
  - intros msgs' err [= <- <-]. simpl in Hp. by split.
Qed.

(** ** A turn of the loop *)

Local Abbreviation linked_with fuel c := (Linking.link fuel c).

Lemma flows_kafka_poll cfg fuel s :
  flows (given (fun res s' pend' => match res with
                                    | inl msgs => collected s.1 msgs s' pend'
                                    | inr _ => pend' = []
                                    end)) (linked_with fuel (PollLoop.kafka_poll cfg)) s [].
Proof.
  unfold PollLoop.kafka_poll, Linking.link. apply flows_bind, flows_bind.
  eapply flows_mono; [|apply flows_Poll]. intros [[[msgs err]|]|] s' pend' Hr; try done.
  destruct (Hr _ _ eq_refl) as [Hc He]. destruct err as [e|]; simpl; [|done].
  rewrite (He ltac:(done)) in Hc. apply Hc.
Qed.

(** Before the groups of [ks] are sent. *)
Definition sending (grouped : gmap Z (list Message)) (ks : list Z) (s : Linking.state) (pend : list Z) : Prop :=
  (p ∈ ks -> p ∉ PollLoop.pausedPartitions s.1 /\ pend = Offset <$> default [] (grouped !! p)) /\
  (p ∉ ks -> pend = []).

Definition pauses_only (q : Z) (s s' : PollLoop.PollLoop) : Prop :=
  PollLoop.pausedPartitions s' ⊆ {[q]} ∪ PollLoop.pausedPartitions s.

Lemma pauses_only_preorder q : PreOrder (pauses_only q).
Proof. split; [intros s|intros s1 s2 s3]; unfold pauses_only; set_solver. Qed.

Lemma send_result_pauses q err : sends_nothing (pauses_only q) (PollLoop.on_send_result q err).
Proof.
  destruct err as [e|]; [|done]. simpl. destruct (errors_Is e _); [|done].
  unfold PollLoop.pausePartition. split; [intros s; unfold pauses_only; set_solver|].
  intros b. simpl. destruct b; [done|]. split; [done|]. intros [e'|]; [done|].
  split; [|done]. intros s. unfold pauses_only. simpl. set_solver.
Qed.

Lemma flows_dispatch_group grouped q ks fuel s pend :
  NoDup (q :: ks) -> sending grouped (q :: ks) s pend ->
  flows (given (fun _ s' pend' => sending grouped ks s' pend'))
    (linked_with fuel (PollLoop.dispatch_group grouped q)) s pend.
Proof.
  intros [Hq Hd]%NoDup_cons [Hin Hout]. unfold PollLoop.dispatch_group, Linking.link. simpl.
  unfold Linking.on_part, Linking.get_loop. simpl.
  assert (Hother : q <> p -> sending grouped ks s pend).
  { intros Hne. split; [|intros Hp; apply Hout; by intros [?|]%elem_of_cons].
    intros Hp. by apply Hin, list_elem_of_further. }
  case_bool_decide as Hpa.
  - simpl. destruct (decide (q = p)) as [->|Hne].
    + destruct Hin as [Hin _]; [apply list_elem_of_here|done].
    + destruct s. by apply Hother.
  - assert (Hk : forall rest : list Z, sending grouped ks s rest ->
      forall a, attended s.1 (Linking.ToDispatcher (PollLoop.DSend q (default [] (grouped !! q)))) a = true ->
      flows (given (fun _ s' pend' => sending grouped ks s' pend'))
        (Linking.link fuel (PollLoop.on_send_result q a)) s rest).
    { intros rest [Hri Hro] a _. unfold Linking.link.
      eapply flows_sends_nothing; [apply pauses_only_preorder|apply send_result_pauses|].
      intros [o|] s' Hs; [|done]. simpl. split; [|done]. intros Hp. destruct (Hri Hp) as [Hnp ->].
      split; [|done]. unfold pauses_only in Hs. set_solver. }
    simpl. rewrite (surjective_pairing s). destruct (Z.eqb_spec q p) as [->|Hne]; simpl.
    + destruct Hin as [_ ->]; [apply list_elem_of_here|]. exists []. rewrite app_nil_r. split; [done|].
      intros a Ha. rewrite app_nil_r. destruct s. apply Hk; [|done]. by split.
    + exists pend. split; [done|]. intros a Ha. rewrite app_nil_r. destruct s. apply Hk; [by apply Hother|done].
Qed.

Lemma flows_dispatch grouped ks fuel s pend :
  NoDup ks -> sending grouped ks s pend ->
  flows (given (fun _ _ pend' => pend' = []))
    (linked_with fuel (PollLoop.for_each ks (PollLoop.dispatch_group grouped))) s pend.
Proof.
  revert s pend. induction ks as [|q ks IH]; intros s pend Hd Hs; [by apply Hs, not_elem_of_nil|].
  change (PollLoop.for_each (q :: ks) (PollLoop.dispatch_group grouped)) with
    (let* _ := PollLoop.dispatch_group grouped q in PollLoop.for_each ks (PollLoop.dispatch_group grouped)).
  eapply flows_interp_seq; [by apply flows_dispatch_group|]. intros u s' pend' Hs'.
  apply IH; [by apply NoDup_cons in Hd as [_ ?]|done].
Qed.

Lemma grouped_sending msgs order (s : Linking.state) :
  order ≡ₚ (map_to_list (PollLoop.groupByPartition msgs)).*1 ->
  (offsets msgs <> [] -> p ∉ PollLoop.pausedPartitions s.1) ->
  sending (PollLoop.groupByPartition msgs) order s (offsets msgs).
Proof.
  intros Ho Hn. assert (Hin : p ∈ order <-> is_Some (PollLoop.groupByPartition msgs !! p)).
  { rewrite Ho, list_elem_of_fmap. split.
    - intros ([q l] & -> & Hq%elem_of_map_to_list). simpl. eauto.
    - intros [l Hl]. exists (p, l). by rewrite elem_of_map_to_list. }
  unfold sending. rewrite Hin. rewrite PollLoop.group_lookup. unfold offsets in *.
  destruct (PollLoop.of_partition p msgs) as [|m0 l].
  - split; [|done]. intros [x Hx]. discriminate.
  - split; [intros _; split; [by apply Hn|done]|]. intros Hx. destruct Hx. eauto.
Qed.

Lemma flows_poll cfg fuel s :
  flows (given (fun _ _ pend' => pend' = [])) (linked_with fuel (PollLoop.poll cfg)) s [].
Proof.
  unfold PollLoop.poll. unfold Linking.link. simpl. unfold Linking.on_part, Linking.get_loop.
  assert (Hs : Linking.put_loop s.1 s = s) by (by destruct s). rewrite Hs.
  destruct (Degraded.IsDegraded (PollLoop.degraded s.1)) eqn:Hd;
    (eapply (flows_interp_seq _ _ _ _ _ (PollLoop.kafka_poll cfg)); [apply flows_kafka_poll|]);
    intros [msgs|e] s' pend' Hr; try (by apply Hr).
  - simpl. destruct Hr as ([Hdeg _] & _ & Ho). destruct pend' as [|z l]; [done|].
    specialize (Ho ltac:(done)). unfold open_for in Ho. by rewrite Hdeg, Hd in Ho.
  - destruct Hr as (Hn & -> & Ho). destruct (len msgs =? 0) eqn:El.
    { zbool. by rewrite (len_nil_inv _ El). }
    simpl. exists (offsets msgs). split; [done|]. intros [order Horder] _. rewrite app_nil_r. simpl proj1_sig.
    apply (flows_dispatch _ _ fuel); [rewrite Horder; apply NoDup_fst_map_to_list|].
    apply grouped_sending; [done|]. intros Hne. specialize (Ho Hne). unfold open_for in Ho.
    apply andb_prop in Ho as [_ Ho]. rewrite negb_true_iff, bool_decide_eq_false in Ho. done.
Qed.

Definition any_change (s s' : PollLoop.PollLoop) : Prop := True.
#[local] Instance any_change_preorder : PreOrder any_change.
Proof. by split. Qed.

Ltac silent :=
  repeat (simpl; match goal with
  | |- _ /\ _ => split
  | |- True => exact I
  | |- any_change _ _ => exact I
  | |- forall _, _ => intro
  | |- sends_nothing _ (bind _ _) => apply sends_nothing_bind
  | |- sends_nothing _ (if ?b then _ else _) => destruct b
  | |- sends_nothing _ (match ?o with _ => _ end) => destruct o
  end).

Lemma silent_enter r : sends_nothing any_change (PollLoop.enterDegradedMode r).
Proof. unfold PollLoop.enterDegradedMode, PollLoop.pauseAllPartitions. silent. Qed.
Lemma silent_exit r : sends_nothing any_change (PollLoop.exitDegradedMode r).
Proof. unfold PollLoop.exitDegradedMode, PollLoop.resumeAllPartitions. silent. Qed.

Lemma silent_event cfg ev : ev <> PollLoop.PollTick -> sends_nothing any_change (PollLoop.on_event cfg ev).
Proof.
  intros Hev. destruct ev as [| | |st]; [done|..]; unfold PollLoop.on_event.
  - unfold PollLoop.commitOffsets, PollLoop.commit_failed, PollLoop.commit_succeeded.
    silent; first [apply silent_enter|apply silent_exit].
  - unfold PollLoop.onDispatcherReady, PollLoop.resumeAllPausedPartitions. silent.
  - unfold PollLoop.onCircuitStateChanged.
    silent; first [apply silent_enter|apply silent_exit].
Qed.

Lemma silent_shutdown : sends_nothing any_change PollLoop.shutdown.
Proof. unfold PollLoop.shutdown. silent. Qed.

Lemma flows_event cfg ev fuel s :
  flows (given (fun _ _ pend' => pend' = [])) (linked_with fuel (PollLoop.on_event cfg ev)) s [].
Proof.
  assert (Hc : ev = PollLoop.PollTick \/ ev <> PollLoop.PollTick)
    by (destruct ev; (by left) || by right).
  destruct Hc as [->|Hne]; [apply flows_poll|]. unfold Linking.link.
  eapply flows_sends_nothing; [apply any_change_preorder|by apply silent_event|]. by intros [].
Qed.
End Flow.

(** * The ledger of deliveries *)

(** The offsets of [p] the client delivered. *)
Definition fetched_of (p : Z) (h : happening) : list Z :=
  match h with Fetched km => fetched_event p (Some (KafkaAdapter.EvMessage km)) | _ => [] end.
Fixpoint fetched (p : Z) (hs : list happening) : list Z :=
  match hs with [] => [] | h :: hs => fetched_of p h ++ fetched p hs end.

Lemma fetched_app p h1 h2 : fetched p (h1 ++ h2) = fetched p h1 ++ fetched p h2.
Proof. induction h1 as [|h h1 IH]; simpl; [done|]. by rewrite IH, app_assoc. Qed.

Lemma fetched_labels p ls : fetched p (List.map Dispatched ls) = [].
Proof. by induction ls. Qed.

Section Ledger.
Context `{Coordinator C}.
Variable cfg : Config.
Variable hasDLQ : bool.
Variable loop_cfg : PollLoop.Config.
Variable p : Z.
Local Abbreviation system := (system (C := C)).
Local Abbreviation sched_sys := (sys_sched cfg hasDLQ loop_cfg).

(** Of a choice: what the client delivers for [p] finds the loop open. *)
Definition heeds (ch : sys_choice) (x : system) : bool :=
  match ch, goroutine x with
  | Own ans, Running (Ask e _) => attended p (loop x).1 e (ans _ e)
  | _, _ => true
  end.
(** And of a run. *)
Fixpoint all_heeded (chs : list sys_choice) (x : system) : bool :=
  match chs with
  | [] => true
  | ch :: chs => heeds ch x &&
      match sched_sys ch x with Some (x1, _) => all_heeded chs x1 | None => true end
  end.

Definition nothing_left : option next -> Linking.state -> list Z -> Prop :=
  given (fun _ _ pend => pend = []).

Definition carries (g : poller) (s : Linking.state) (pend : list Z) : Prop :=
  match g with
  | Running c => flows p nothing_left c s pend
  | Calling k => forall r, flows p nothing_left (k r) s pend
  | Selecting | Stopped _ => pend = []
  end.

(** All that was delivered has been sent, but for what the poll goroutine
    still carries. *)
Definition ledger (hs : list happening) (x : system) : Prop :=
  exists pend, fetched p hs = (Offset <$> sent p (history hs)) ++ pend /\ carries (goroutine x) (loop x) pend.

Lemma turn_carries fuel ev s : flows p nothing_left (turn loop_cfg fuel ev) s [].
Proof.
  unfold turn, Linking.link. eapply flows_interp_seq; [apply flows_event|].
  intros u s' pend' ->. done.
Qed.

Lemma last_turn_carries s : flows p nothing_left last_turn s [].
Proof.
  unfold last_turn, Linking.link.
  apply (flows_sends_nothing p any_change); [split; done| |by intros []].
  apply sends_nothing_bind; [apply silent_shutdown|]. intros err. simpl. done.
Qed.

(** A step that fetches [new] and sends [out]. *)
Lemma ledger_step hs hs' x' rest pend out new :
  fetched p hs = (Offset <$> sent p (history hs)) ++ pend -> pend = out ++ rest ->
  fetched p hs' = new -> Offset <$> sent p (history hs') = out -> carries (goroutine x') (loop x') (rest ++ new) ->
  ledger (hs ++ hs') x'.
Proof.
  intros Hf -> <- <- Hc. exists (rest ++ fetched p hs'). split; [|done].
  by rewrite fetched_app, history_app, sent_app, fmap_app, Hf, <- !app_assoc.
Qed.

Lemma background_sent ch (x : machine (C := C)) : in_background ch x = true -> sent p (label_of ch x) = [].
Proof.
  destruct ch as [i ans|k|i|t]; simpl; try done. intros _.
  destruct (threads x !! i) as [[]|]; try done; [|by destruct c as [[]| | |]].
  unfold discards. by induction (remove_dups _).
Qed.

Lemma client_fetched X (e : KafkaAdapter.lib X) a :
  fetched p (client_happening e a) = delivered p (Linking.ToClient e) a /\
  sent p (history (client_happening e a)) = [].
Proof.
  destruct e; simpl; try done. destruct a as [rs [[km| | |]|]]; try done. split; [|done]. simpl. by rewrite app_nil_r.
Qed.

Lemma ask_ledger hs ans X (e : Linking.linked X) k x r :
  fetched p hs = (Offset <$> sent p (history hs)) ++ handed p e ++ k.1 ->
  (forall a, attended p (loop x).1 e a = true -> flows p nothing_left (k.2 a) (loop x) (k.1 ++ delivered p e a)) ->
  attended p (loop x).1 e (ans X e) = true ->
  ask_step cfg hasDLQ ans e k.2 x = Some r -> ledger (hs ++ r.2) r.1.
Proof.
  destruct k as [rest k]. cbn [fst snd]. intros Hf Hk Ha Hr. destruct e as [X e|X e]; simpl in Hr.
  - simplify_eq. destruct (client_fetched X e (ans X (Linking.ToClient e))) as [E1 E2].
    apply (ledger_step hs _ _ rest _ [] (delivered p (Linking.ToClient e) (ans X (Linking.ToClient e))) Hf);
      [done|exact E1|simpl; by rewrite E2|]. by apply Hk.
  - assert (Hk' : forall a, flows p nothing_left (k a) (loop x) rest)
      by (intros a; rewrite <- (app_nil_r rest); by apply (Hk a)).
    destruct (read_of e _) as [v|] eqn:Ev.
    { simplify_eq. apply (ledger_step hs _ _ rest _ [] [] Hf); [by destruct e|done|done|].
      rewrite app_nil_r. apply Hk'. }
    destruct (api_of e) as [[call answer]|] eqn:Ea.
    + destruct (sched _ _ _ _); [|done]. simplify_eq. simpl.
      apply (ledger_step hs _ _ rest _ (handed p (Linking.ToDispatcher e)) [] Hf);
        [done|apply fetched_labels| |].
      { rewrite history_labels. destruct e; simpl in Ea; simplify_eq; try done. simpl.
        by destruct (_ =? p); rewrite ?app_nil_r. }
      rewrite app_nil_r. intros y. apply Hk'.
    + simplify_eq. apply (ledger_step hs _ _ rest _ [] [] Hf); [by destruct e|done|done|].
      rewrite app_nil_r. apply Hk'.
Qed.

(** A step with nothing delivered or sent. *)
Lemma ledger_quiet hs x' pend :
  fetched p hs = (Offset <$> sent p (history hs)) ++ pend -> carries (goroutine x') (loop x') pend ->
  ledger (hs ++ []) x'.
Proof. intros Hf Hc. rewrite app_nil_r. by exists pend. Qed.

Lemma select_ledger hs case fuel x r :
  fetched p hs = (Offset <$> sent p (history hs)) ++ [] ->
  select_step cfg hasDLQ loop_cfg case fuel x = Some r -> ledger (hs ++ r.2) r.1.
Proof.
  intros Hf Hr.
  assert (Hrecv : forall call k, (forall y, flows p nothing_left (k y) (loop x) []) ->
    receive_step cfg hasDLQ call k x = Some r -> ledger (hs ++ r.2) r.1).
  { intros call k Hk Hr'. unfold receive_step in Hr'. destruct (sched _ _ _ _); [|done]. simplify_eq.
    by eapply ledger_quiet. }
  destruct case; simpl in Hr; simplify_eq;
    try (eapply ledger_quiet; [exact Hf|]; apply turn_carries || apply last_turn_carries).
  - destruct (readyCh _); [|done]. eapply Hrecv; [|exact Hr]. intros [| |[]|]; try done. apply turn_carries.
  - destruct (circuitStateCh _); [done|]. eapply Hrecv; [|exact Hr]. intros [| | |[c|]]; try done.
    apply turn_carries.
Qed.

Lemma step_ledger hs ch x r :
  ledger hs x -> heeds ch x = true -> sched_sys ch x = Some r -> ledger (hs ++ r.2) r.1.
Proof.
  intros (pend & Hf & Hc) Hh Hr. unfold sys_sched in Hr. destruct (crashed (base x)); [done|].
  destruct ch as [ch|case fuel|ans|ans].
  - destruct (in_background ch (base x)) eqn:E; [|done]. destruct (sched cfg hasDLQ ch (base x)); [|done].
    simplify_eq. simpl.
    apply (ledger_step hs _ _ pend pend [] [] Hf); [done|apply fetched_labels| |by rewrite app_nil_r].
    by rewrite history_labels, background_sent.
  - unfold carries in Hc. destruct (goroutine x); try done. subst pend. by eapply select_ledger.
  - unfold heeds in Hh. destruct (goroutine x) as [|c|k|err] eqn:Hg; try done.
    destruct c as [[[|err]|]|q|X f k|X e k]; simpl in Hr; simplify_eq; try by eapply ledger_quiet.
    + eapply ledger_quiet; [exact Hf|]. simpl. by rewrite Hg.
    + simpl in Hc. destruct (f (loop x)) as [y s|q s] eqn:Ef; simplify_eq; (eapply ledger_quiet; [exact Hf|]);
        [done|]. simpl. rewrite Hg. simpl. by rewrite Ef.
    + destruct Hc as (rest & -> & Hk). apply (ask_ledger hs ans X e (rest, k) x); [exact Hf|exact Hk|exact Hh|exact Hr].
  - destruct (goroutine x) as [| |k|]; try done. destruct (returned _) as [rep|]; [|done].
    destruct (sched _ _ _ _); [|done]. simplify_eq. eapply ledger_quiet; [exact Hf|apply Hc].
Qed.

Lemma run_ledger chs hs x x' hs' :
  ledger hs x -> all_heeded chs x = true -> sys_run cfg hasDLQ loop_cfg chs x = Some (x', hs') ->
  ledger (hs ++ hs') x'.
Proof.
  revert hs x hs'. induction chs as [|ch chs IH]; intros hs x hs' Hl Hh Hr; simpl in Hr.
  { simplify_eq. by rewrite app_nil_r. }
  simpl in Hh. apply andb_prop in Hh as [Hh Hhs].
  destruct (sched_sys ch x) as [[x1 l1]|] eqn:Es; [|done].
  destruct (sys_run _ _ _ chs x1) as [[x2 l2]|] eqn:Er; [|done]. simplify_eq.
  rewrite app_assoc. eapply IH; [|done|exact Er]. exact (step_ledger _ _ _ _ Hl Hh Es).
Qed.

(** A commit is a step of its own, so a log up to it is that of a run. *)
Lemma commit_alone ch x r tps :
  sched_sys ch x = Some r -> CommitRequest tps ∈ r.2 -> r.2 = [CommitRequest tps].
Proof.
  intros Hr Hin. unfold sys_sched in Hr. destruct (crashed (base x)); [done|].
  assert (Hlab : forall ls, CommitRequest tps ∈ List.map Dispatched ls -> False).
  { intros ls Hl. by apply list_elem_of_fmap in Hl as (? & ? & _). }
  assert (Hnil : CommitRequest tps ∈ [] -> False) by apply not_elem_of_nil.
  destruct ch as [ch|case fuel|ans|ans].
  - destruct (in_background _ _); [|done]. destruct (sched _ _ _ _); [|done]. simplify_eq. by apply Hlab in Hin.
  - destruct (goroutine x); try done.
    destruct case; simpl in Hr; unfold receive_step in Hr; repeat case_match; simplify_eq;
      by apply Hnil in Hin.
  - destruct (goroutine x) as [|c| |]; try done. destruct c as [[[]|]|q|X f k|X e k]; simpl in Hr; simplify_eq;
      try by apply Hnil in Hin.
    { destruct (f (loop x)); simplify_eq; by apply Hnil in Hin. }
    destruct e as [X e|X e]; simpl in Hr.
    + simplify_eq. destruct e; simpl in *; try by apply Hnil in Hin.
      * destruct (ans _ _) as [rs [[]|]]; simpl in *; try (apply list_elem_of_singleton in Hin); try done;
          by apply Hnil in Hin.
      * by apply list_elem_of_singleton in Hin as [= ->].
    + repeat case_match; simplify_eq; first [by apply Hlab in Hin|by apply Hnil in Hin].
  - destruct (goroutine x); try done. destruct (returned _); [|done]. destruct (sched _ _ _ _); [|done].
    simplify_eq. by apply Hnil in Hin.
Qed.

Lemma run_before_commit chs x x' h1 tps h2 :
  sys_run cfg hasDLQ loop_cfg chs x = Some (x', h1 ++ CommitRequest tps :: h2) -> all_heeded chs x = true ->
  exists chs1 x1, sys_run cfg hasDLQ loop_cfg chs1 x = Some (x1, h1) /\ all_heeded chs1 x = true.
Proof.
  revert x h1. induction chs as [|ch chs IH]; intros x h1 Hr Hh; simpl in Hr.
  { injection Hr as _ E. by destruct h1. }
  simpl in Hh. apply andb_prop in Hh as [Hh Hhs].
  destruct (sched_sys ch x) as [[x1 l1]|] eqn:Es; [|done].
  destruct (sys_run _ _ _ chs x1) as [[x2 l2]|] eqn:Er; [|done].
  injection Hr as -> E. apply app_eq_app in E as (k & [[E1 E2]|[E1 E2]]).
  - destruct k as [|y k].
    + rewrite app_nil_r in E1. subst h1. simpl in E2. subst l2.
      exists [ch], x1. simpl. rewrite Es, Hh. by rewrite app_nil_r.
    + injection E2 as <- E2. exists [], x. simpl. split; [|done]. f_equal. f_equal.
      assert (El : l1 = [CommitRequest tps]).
      { apply (commit_alone ch x (x1, l1) tps Es). simpl. rewrite E1. apply elem_of_app. right.
        apply list_elem_of_here. }
      rewrite El in E1. by destruct h1 as [|? [|]].
  - subst h1 l2. destruct (IH _ _ Er Hhs) as (chs1 & x3 & Hr & Ha).
    exists (ch :: chs1), x3. simpl. by rewrite Es, Hr, Hh.
Qed.

Lemma start_ledger n c a h : ledger [] (sys_start loop_cfg n c a h).
Proof.
  exists []. split; [done|]. simpl. unfold Linking.on_part. simpl. by repeat destruct (_ <=? 0).
Qed.
End Ledger.

(** * Property *)

(** Of a sequence cut in two, what is below an element of the first part is in
    the first part. *)
Lemma sorted_cut (l k : list Z) x y :
  StronglySorted Z.lt (l ++ k) -> x ∈ l -> y ∈ l ++ k -> y <= x -> y ∈ l.
Proof.
  intros Hs Hx Hy Hle. apply elem_of_app in Hy as [?|Hy]; [done|].
  pose proof (StronglySorted_app_1_elem_of _ l k x y Hs Hx Hy). lia.
Qed.

Lemma offset_settled p ls o :
  o ∈ Offset <$> concat (messages <$> settled p ls) ->
  exists b msg, b ∈ settled p ls /\ msg ∈ messages b /\ Offset msg = o.
Proof.
  intros (msg & -> & Hm)%list_elem_of_fmap. apply list_elem_of_In, in_concat in Hm as (ms & Hms & Hm).
  apply in_map_iff in Hms as (b & <- & Hb). exists b, msg. rewrite !list_elem_of_In. done.
Qed.

Section Property.
Context `{Coordinator C}.
Variable cfg : Config.
Variable hasDLQ : bool.
Variable loop_cfg : PollLoop.Config.

(** C2. Nothing the client delivered below a committed offset was skipped.  In
    every run of the whole system with a slot of the channel for each
    partition in use, whose client delivers a partition's messages in
    increasing order of their offsets, outside degraded mode and not while the
    partition is paused, and in which the partition is not revoked, a commit of offset [n] says that every message delivered with an offset
    below [n] was processed or given up. *)
Theorem delivered_below_commit_is_settled ps n c a h chs x hs h1 tps h2 tp o :
  0 < BatchSize cfg -> 0 <= MaxRetries cfg -> PollLoop.positive_intervals loop_cfg -> fresh_coordinator c ->
  KafkaAdapter.topics a <> [] -> len ps <= ChannelCap cfg -> Forall (client_fits ps) chs ->
  sys_run cfg hasDLQ loop_cfg chs (sys_start loop_cfg n c a h) = Some (x, hs) ->
  hs = h1 ++ CommitRequest tps :: h2 -> tp ∈ tps ->
  all_heeded cfg hasDLQ loop_cfg (KafkaAdapter.kPartition tp) chs (sys_start loop_cfg n c a h) = true ->
  StronglySorted Z.lt (fetched (KafkaAdapter.kPartition tp) h1) ->
  Forall (fun z => min_int64 <= z < max_int64) (fetched (KafkaAdapter.kPartition tp) h1) ->
  (forall msgs, ~ Discarded (KafkaAdapter.kPartition tp) msgs ∈ history h1) ->
  o ∈ fetched (KafkaAdapter.kPartition tp) h1 -> o < KafkaAdapter.kOffset tp ->
  exists b msg, b ∈ settled (KafkaAdapter.kPartition tp) (history h1) /\
    msg ∈ messages b /\ Offset msg = o.
Proof.
  intros Hb Hm Hiv Hc Ha Hcap Hf Hr -> Htp Hheed Hsort Hrange Hkeep Ho Hlt.
  set (p := KafkaAdapter.kPartition tp) in *.
  destruct (sys_run_inv cfg hasDLQ loop_cfg true ps Hb Hm (fun _ => Hcap) chs [] (sys_start loop_cfg n c a h) x
    (h1 ++ CommitRequest tps :: h2)) as (_ & _ & Hcommit); [by apply start_sys_inv|done|done|].
  specialize (Hcommit _ _ _ eq_refl eq_refl). rewrite Forall_forall in Hcommit.
  destruct (Hcommit tp Htp) as (before & b & more & lst & rest & Hs & Hl & Hoff & Hk). simpl in Hs, Hk. fold p in Hs, Hk.
  destruct (run_before_commit cfg hasDLQ loop_cfg p chs (sys_start loop_cfg n c a h) x h1 tps h2 Hr Hheed)
    as (chs1 & x1 & Hr1 & Hheed1).
  destruct (run_ledger cfg hasDLQ loop_cfg p chs1 [] _ _ _ (start_ledger loop_cfg p n c a h) Hheed1 Hr1)
    as (pend & Hled & _). simpl in Hled.
  rewrite (kept_sent p (history h1) Hkeep) in Hk. injection Hk as Hk.
  rewrite Hk, app_assoc, fmap_app, <- app_assoc in Hled.
  assert (Hlast : Offset lst ∈ Offset <$> concat (messages <$> before) ++ messages b).
  { apply list_elem_of_fmap_2, elem_of_app. right. by apply last_Some_elem_of. }
  assert (Hlo : Offset lst + 1 = KafkaAdapter.kOffset tp).
  { rewrite Hoff, wrap64_id; [done|]. rewrite Forall_forall in Hrange.
    specialize (Hrange (Offset lst)). unfold in_int64. rewrite Hled in Hrange.
    specialize (Hrange ltac:(apply elem_of_app; by left)). lia. }
  rewrite Hled in Ho, Hsort. apply (sorted_cut _ _ (Offset lst)) in Ho; [|done|done|lia].
  apply offset_settled. rewrite Hs, fmap_app, fmap_cons, concat_app, concat_cons, app_assoc, fmap_app.
  apply elem_of_app. by left.
Qed.
End Property.

(** * Witness *)

Lemma delivered_below_commit_is_settled_witness :
  exists x hs h1 h2, demo_run demo_cfg PollLoop.DefaultConfig demo_turns = Some (x, hs) /\
    hs = h1 ++ CommitRequest [demo_ktp 0 12] :: h2 /\ fetched 0 h1 = [10; 11] /\
    exists b msg, b ∈ settled 0 (history h1) /\ msg ∈ messages b /\ Offset msg = 10.
Proof.
  assert (Hr : option_map snd (demo_run demo_cfg PollLoop.DefaultConfig demo_turns) = Some demo_log)
    by (vm_compute; reflexivity).
  apply ran_with in Hr as [x Hr]. exists x, demo_log, before_commit, after_commit.
  assert (E : demo_log = before_commit ++ CommitRequest [demo_ktp 0 12] :: after_commit)
    by reflexivity.
  split_and!; [exact Hr|exact E|reflexivity|].
  apply (delivered_below_commit_is_settled demo_cfg true PollLoop.DefaultConfig [0] 1 NewCoordinator
    demo_adapter demo_health (demo_choices demo_cfg PollLoop.DefaultConfig demo_turns) x demo_log
    before_commit [demo_ktp 0 12] after_commit (demo_ktp 0 12) 10);
    [done|done|by split|exact demo_fresh|done|done|apply demo_fits, demo_turns_ok|exact Hr|exact E
    |apply list_elem_of_here|vm_compute; reflexivity|repeat constructor|repeat constructor; done| |
     apply list_elem_of_here|done].
  change (history before_commit) with
    [Sent 0 [mkMessage "events" 0 10 None None 0 [] 0]; Sent 0 [mkMessage "events" 0 11 None None 0 [] 0];
     Decided demo_decided (Success 0)].
  intros msgs. by intros [|[|[|Hn%not_elem_of_nil]%elem_of_cons]%elem_of_cons]%elem_of_cons.
Defined.

(** * A revocation in the middle of a poll

    Message 10 is buffered.  The next [Poll] is given message 11, and while it
    drains the client revokes the partition: the dispatcher discards message
    10 and the coordinator is reset; but [Poll] then returns message 11, and
    the loop sends it to the dispatcher, which processes it, and commits
    offset 12. *)
Definition client_then (rs : list KafkaAdapter.rebalance) (ev : option KafkaAdapter.kEvent)
    (rs' : list KafkaAdapter.rebalance) : client_answers := fun X e =>
  match e in Linking.linked Y return Y with
  | Linking.ToClient e =>
      match e in KafkaAdapter.lib Y return Y with
      | KafkaAdapter.LPoll t => if t =? 0 then (rs', None) else (rs, ev)
      | e => client rs ev None _ (Linking.ToClient e)
      end
  | Linking.ToDispatcher e => client rs ev None _ (Linking.ToDispatcher e)
  end.

Definition revoked_turns : list planned :=
  [Turn PollTicker (client [KafkaAdapter.AssignedPartitions [demo_ktp 0 0]] (demo_fetch 0 10) None);
   Turn PollTicker (client_then [] (demo_fetch 0 11) [KafkaAdapter.RevokedPartitions [demo_ktp 0 0]]);
   Step (Fire 1); Step (Run 2 quietly); Step (Run 2 quietly); Step (Run 2 quietly); Step (Run 2 quietly);
   Step (Run 2 quietly); Step (Run 2 quietly); Step (Run 2 quietly);
   Work;
   Turn CommitTicker (client [] None None)].
Definition revoked_log : list happening :=
  Eval vm_compute in from_option snd [] (demo_run demo_cfg PollLoop.DefaultConfig revoked_turns).

Lemma revoked_turns_ok : Forall (planned_ok [0]) revoked_turns.
Proof.
  repeat constructor; try (apply client_fits_answers; repeat constructor; simpl; set_solver).
  intros w X e. destruct e; simpl; try done. destruct (_ =? 0); by repeat constructor.
Qed.

(** C24. A revocation in the middle of a [Poll] lets a message overtake
    another.  There is a run of the whole system, never degraded and never
    paused, of a client that delivers offsets 10 and 11 of a partition in this
    order and revokes it in between two events of one [Poll]: the loop then
    sends and processes message 11, which it had fetched before the revocation,
    and asks Kafka to commit offset 12 for the revoked partition, while
    message 10 was discarded and is not processed. *)
Theorem revocation_mid_poll_overtakes :
  exists chs x hs before, Forall (client_fits [0]) chs /\
    sys_run demo_cfg true PollLoop.DefaultConfig chs (demo_begin PollLoop.DefaultConfig) = Some (x, hs) /\
    all_heeded demo_cfg true PollLoop.DefaultConfig 0 chs (demo_begin PollLoop.DefaultConfig) = true /\
    fetched 0 hs = [10; 11] /\ hs = before ++ [CommitRequest [demo_ktp 0 12]] /\
    Offset <$> concat (messages <$> settled 0 (history before)) = [11].
Proof.
  assert (Hr : option_map snd (demo_run demo_cfg PollLoop.DefaultConfig revoked_turns) = Some revoked_log)
    by (vm_compute; reflexivity).
  apply ran_with in Hr as [x Hr]. unfold demo_run in Hr.
  exists (demo_choices demo_cfg PollLoop.DefaultConfig revoked_turns), x, revoked_log, (removelast revoked_log).
  split; [apply demo_fits, revoked_turns_ok|]. split; [exact Hr|].
  split; [vm_compute; reflexivity|]. split; [reflexivity|]. split; reflexivity.
Qed.

(** * A shutdown that interrupts a batch

    Messages 10 and 11 are a batch that fails three times with a transient
    error.  While the processor is at work on the last attempt the signal
    cancels the context, and the processor returns [ctx.Err()].  The retries
    are exhausted, dead-lettering fails as its context is cancelled, and the
    batch is complete.  The loop then shuts down: the dispatcher is closed,
    the worker ends, and the final commit covers the batch. *)
Definition retrying_cfg : Config :=
  mkConfig 1 2 2 (100 * Millisecond) 3 3 float_0_6 (30 * Second) 1 (60 * Second).

(** The processor fails with [e], and the DLQ producer is interrupted. *)
Definition failing (e : error) : answers := fun X q =>
  match q in query Y return Y -> Y with
  | Execute _ => fun _ => ([], ProcessorReturned (Some e))
  | ProduceDLQ _ _ => fun _ => Some Canceled
  | _ => fun y => y
  end (quietly X q).

Definition idle_client : client_answers := client [] None None.

(** Fifteen actions take the worker into its fourth attempt, thirteen more
    through what follows the signal. *)
Definition interrupted_turns : list planned :=
  [Turn PollTicker (client [KafkaAdapter.AssignedPartitions [demo_ktp 0 0]] (demo_fetch 0 10) None);
   Turn PollTicker (client [] (demo_fetch 0 11) None);
   Step (Recv 1)] ++
  replicate 15 (Step (Run 1 (failing flaky))) ++ replicate 13 (Step (Run 1 (failing Canceled))).

(** The loop's last turn: the worker ends between the closing of the channel
    and the end of the wait for it. *)
Definition shutdown_choices : list sys_choice :=
  let before := demo_choices retrying_cfg PollLoop.DefaultConfig interrupted_turns ++
    [Select DoneCase 0; Own idle_client; Background (Run 0 quietly); Background (Recv 1)] in
  match sys_run retrying_cfg true PollLoop.DefaultConfig before (demo_begin PollLoop.DefaultConfig) with
  | Some (x, _) => before ++ (follow retrying_cfg PollLoop.DefaultConfig enough (poll_choice idle_client) x).1
  | None => before
  end.
Definition shutdown_run :=
  sys_run retrying_cfg true PollLoop.DefaultConfig shutdown_choices (demo_begin PollLoop.DefaultConfig).
Definition shutdown_log : list happening := Eval vm_compute in from_option snd [] shutdown_run.

Definition verdicts (ls : list label) : list (batch * verdict) :=
  collect (fun l => match l with Decided b v => Some (b, v) | _ => None end) ls.

(** Whether [Run] has returned without an error. *)
Definition ended (x : system (C := coordinator)) : bool :=
  match goroutine x with Stopped None => true | _ => false end.

Lemma interrupted_turns_ok : Forall (planned_ok [0]) interrupted_turns.
Proof.
  unfold interrupted_turns. apply Forall_app. split; [|apply Forall_app; split; by apply Forall_replicate].
  repeat constructor; apply client_fits_answers; repeat constructor; simpl; set_solver.
Qed.

Lemma shutdown_fits : Forall (client_fits [0]) shutdown_choices.
Proof.
  assert (Hi : client_fits [0] (Own idle_client)) by (apply client_fits_answers; by repeat constructor).
  assert (Hb : Forall (client_fits [0]) (demo_choices retrying_cfg PollLoop.DefaultConfig interrupted_turns ++
    [Select DoneCase 0; Own idle_client; Background (Run 0 quietly); Background (Recv 1)])).
  { apply Forall_app. split; [apply demo_fits, interrupted_turns_ok|by repeat constructor]. }
  unfold shutdown_choices. destruct (sys_run _ _ _ _ _) as [[x hs]|]; [|done].
  apply Forall_app. split; [done|]. apply follow_all. intros y ch. by apply poll_choice_all.
Qed.

(** A graceful shutdown can lose messages.  There is a run of the whole
    system, with the default retries and of a client that delivers offsets 10
    and 11, in which the processor is interrupted by the shutdown on the last
    attempt: no message is processed successfully or counted as dead-lettered,
    the final commit is of offset 12, and [Run] returns without an error.
    (Whether the messages reach the dead letter topic is then up to the
    client: they may have been enqueued before the wait for their delivery was
    cut short.) *)
Theorem shutdown_loses :
  exists chs x hs before b, Forall (client_fits [0]) chs /\
    sys_run retrying_cfg true PollLoop.DefaultConfig chs (demo_begin PollLoop.DefaultConfig) = Some (x, hs) /\
    fetched 0 hs = [10; 11] /\ hs = before ++ [CommitRequest [demo_ktp 0 12]] /\
    Offset <$> messages b = [10; 11] /\
    verdicts (history before) = [(b, Exhausted 0 Canceled)] /\
    DLQMessages (m (st (base x))) = ∅ /\ ended x = true.
Proof.
  assert (Hr : option_map (fun r => (r.2, bool_decide (DLQMessages (m (st (base r.1))) = ∅), ended r.1)) shutdown_run =
    Some (shutdown_log, true, true)) by (vm_compute; reflexivity).
  destruct shutdown_run as [[x hs]|] eqn:E; [|done]. injection Hr as -> Hd%bool_decide_eq_true He.
  exists shutdown_choices, x, shutdown_log, (removelast shutdown_log), demo_decided.
  split; [exact shutdown_fits|]. split; [exact E|]. by split_and!.
Qed.
