(* ===== verification/Committing.v ===== *)
(** Committing: the last step of a message's way.  A commit tick of the whole
    system runs to its end without the dispatcher, and asks Kafka for exactly
    what the coordinator offers; so what was delivered, sent and settled is
    committed, and a consumer left alone commits all it was delivered. *)
From S2P Require Import Prelude Types OffsetCoordinator Dispatcher Retry Worker Machine Winding Ownership Duties Interleaving Progress Reporting System Delivery.
From S2P Require PollLoop KafkaAdapter Linking.

(** * The poll goroutine in its own code *)

Section Alone.
Context `{Coordinator C}.
Variable cfg : Config.
Variable hasDLQ : bool.
Variable loop_cfg : PollLoop.Config.
Local Abbreviation system := (system (C := C)).
Local Abbreviation P := (prog Linking.linked Linking.state).
Local Abbreviation run_sys := (sys_run cfg hasDLQ loop_cfg).

(** Against the dispatcher's state [d], [c] calls nothing and ends with [Q] of
    its result, its state and what happened. *)
Fixpoint alone {A} (d : UnorderedDispatcher C) (Q : A -> Linking.state -> list happening -> Prop)
    (c : P A) (s : Linking.state) (hs : list happening) : Prop :=
  match c with
  | Ret a => Q a s hs
  | Throw _ => False
  | Act f k => match f s with
               | Returned x s' => alone d Q (k x) s' hs
               | Panicked _ _ => False
               end
  | Ask e k =>
      match e in Linking.linked Y return (Y -> P A) -> Prop with
      | Linking.ToClient e => fun k => forall a, alone d Q (k a) s (hs ++ client_happening e a)
      | Linking.ToDispatcher e => fun k => api_of e = None /\
          forall a, (forall v, read_of e d = Some v -> a = v) -> alone d Q (k a) s hs
      end k
  end.

Lemma alone_bind {A B} d (Q : B -> Linking.state -> list happening -> Prop) (c : P A) (f : A -> P B) s hs :
  alone d (fun a s' hs' => alone d Q (f a) s' hs') c s hs -> alone d Q (bind c f) s hs.
Proof.
  revert s hs. induction c as [a|q|X g k IH|X e k IH]; intros s hs; simpl; auto.
  - destruct (g s); auto.
  - destruct e; simpl; [auto|]. intros [Ha Hk]. split; [done|]. auto.
Qed.

Lemma alone_mono {A} d (Q Q' : A -> Linking.state -> list happening -> Prop) (c : P A) s hs :
  (forall a s' hs', Q a s' hs' -> Q' a s' hs') -> alone d Q c s hs -> alone d Q' c s hs.
Proof.
  intros HQ. revert s hs. induction c as [a|q|X g k IH|X e k IH]; intros s hs; simpl; auto.
  - destruct (g s); auto.
  - destruct e; simpl; [auto|]. intros [Ha Hk]. split; [done|]. auto.
Qed.

(** A choice of answers for each action. *)
Definition own_actions (anss : nat -> client_answers) (n : nat) : list sys_choice :=
  List.map (fun i => Own (anss i)) (seq 0 n).

Lemma own_actions_S anss n :
  own_actions anss (Datatypes.S n) = Own (anss 0%nat) :: own_actions (fun i => anss (Datatypes.S i)) n.
Proof. unfold own_actions. simpl. by rewrite <- seq_shift, map_map. Qed.

(** What [alone] says is what the scheduler runs. *)
Lemma alone_runs anss (Q : option next -> Linking.state -> list happening -> Prop) c (x : system) hs :
  goroutine x = Running c -> crashed (base x) = None -> alone (st (base x)) Q c (loop x) hs ->
  exists n s a hs', run_sys (own_actions anss n) x = Some (mkSystem (base x) s (Running (Ret a)), hs') /\
    Q a s (hs ++ hs').
Proof.
  revert anss x hs. induction c as [a|q|X f k IH|X e k IH]; intros anss x hs Hg Hx Hc; simpl in Hc; [|done|..].
  - exists 0%nat, (loop x), a, []. rewrite app_nil_r. split; [|done]. simpl. destruct x. simpl in *. by subst.
  - destruct (f (loop x)) as [y s|] eqn:Ef; [|done].
    destruct (IH y (fun i => anss (Datatypes.S i)) (mkSystem (base x) s (Running (k y))) hs)
      as (n & s' & a & hs' & Hr & HQ); [done..|].
    exists (Datatypes.S n), s', a, hs'. split; [|done]. rewrite own_actions_S. simpl. unfold sys_sched.
    rewrite Hx, Hg. simpl. rewrite Ef. by rewrite Hr.
  - assert (Hstep : exists y new, ask_step cfg hasDLQ (anss 0%nat) e k x = Some (set_goroutine (Running (k y)) x, new) /\
      alone (st (base x)) Q (k y) (loop x) (hs ++ new)).
    { destruct e as [X e|X e]; simpl in Hc |- *; [by eauto|]. destruct Hc as [-> Hk].
      destruct (read_of e _) as [v|] eqn:Ev; do 2 eexists; (split; [done|]); rewrite app_nil_r; apply Hk;
        intros v' E; congruence. }
    destruct Hstep as (y & new & Hs & Hk).
    destruct (IH y (fun i => anss (Datatypes.S i)) (set_goroutine (Running (k y)) x) (hs ++ new))
      as (n & s' & a & hs' & Hr & HQ); [done..|].
    exists (Datatypes.S n), s', a, (new ++ hs'). rewrite app_assoc. split; [|done].
    rewrite own_actions_S. simpl. unfold sys_sched. rewrite Hx, Hg. simpl. rewrite Hs. simpl in Hr. by rewrite Hr.
Qed.
End Alone.

(** * Through the adapter *)

Section Talk.
Context `{Coordinator C}.
Variable d : UnorderedDispatcher C.
Local Abbreviation adapter_prog := (prog KafkaAdapter.lib KafkaAdapter.Adapter).
Local Abbreviation loop_prog := (prog PollLoop.iface PollLoop.PollLoop).

Definition to_handler {X} (e : KafkaAdapter.lib X) : bool :=
  match e with
  | KafkaAdapter.HOnPartitionsAssigned _ | KafkaAdapter.HOnPartitionsRevoked _ => true
  | _ => false
  end.

(** [c] calls none of the handler's callbacks, and ends with [Q]. *)
Fixpoint talks {A} (Q : A -> KafkaAdapter.Adapter -> list happening -> Prop) (c : adapter_prog A)
    (a : KafkaAdapter.Adapter) (hs : list happening) : Prop :=
  match c with
  | Ret x => Q x a hs
  | Throw _ => False
  | Act f k => match f a with
               | Returned x a' => talks Q (k x) a' hs
               | Panicked _ _ => False
               end
  | Ask e k => to_handler e = false /\ forall x, talks Q (k x) a (hs ++ client_happening e x)
  end.

Lemma talks_bind {A B} (Q : B -> KafkaAdapter.Adapter -> list happening -> Prop) (c : adapter_prog A)
    (f : A -> adapter_prog B) a hs :
  talks (fun x a' hs' => talks Q (f x) a' hs') c a hs -> talks Q (bind c f) a hs.
Proof.
  revert a hs. induction c as [x|q|X g k IH|X e k IH]; intros a hs; simpl; auto.
  - destruct (g a); auto.
  - intros [He Hk]. auto.
Qed.

Lemma talks_mono {A} (Q Q' : A -> KafkaAdapter.Adapter -> list happening -> Prop) (c : adapter_prog A) a hs :
  (forall x a' hs', Q x a' hs' -> Q' x a' hs') -> talks Q c a hs -> talks Q' c a hs.
Proof.
  intros HQ. revert a hs. induction c as [x|q|X g k IH|X e k IH]; intros a hs; simpl; auto.
  - destruct (g a); auto.
  - intros [He Hk]. auto.
Qed.

Lemma talks_alone {A B} (Q : A -> KafkaAdapter.Adapter -> list happening -> Prop) R (c : adapter_prog A)
    (f : option A -> prog Linking.linked Linking.state B) s hs :
  talks Q c s.2 hs -> (forall x a' hs', Q x a' hs' -> alone d R (f (Some x)) (s.1, a') hs') ->
  alone d R (bind (Linking.in_adapter Linking.no_callback c) f) s hs.
Proof.
  intros Hc HR. revert s hs Hc HR. unfold Linking.in_adapter.
  induction c as [x|q|X g k IH|X e k IH]; intros s hs Hc HR; simpl in Hc |- *.
  - destruct s. by apply HR.
  - done.
  - unfold Linking.on_part, Linking.get_adapter. destruct (g s.2) as [x a'|]; [|done]. by apply IH.
  - destruct Hc as [He Hk]. destruct e; simpl in He |- *; try done; intros x; by apply IH.
Qed.

Definition unchanged {A} (a : KafkaAdapter.Adapter) (hs : list happening) (x : A) (a' : KafkaAdapter.Adapter)
    (hs' : list happening) : Prop := a' = a /\ hs' = hs.

Lemma topicForPartition_talks p a hs :
  Linking.has_topic a -> talks (unchanged a hs) (KafkaAdapter.topicForPartition p) a hs.
Proof.
  intros Ha. assert (Hf : talks (unchanged a hs) (act KafkaAdapter.fallback_topic) a hs).
  { unfold Linking.has_topic in Ha. simpl. unfold KafkaAdapter.fallback_topic. by destruct (KafkaAdapter.topics a). }
  split; [done|]. intros [tps|e]; simpl; rewrite app_nil_r; [|exact Hf].
  destruct (List.find _ tps); [done|exact Hf].
Qed.

Definition offset_of (tp : KafkaAdapter.kTopicPartition) : Z * Z := (KafkaAdapter.kPartition tp, KafkaAdapter.kOffset tp).

Lemma resolve_all_talks l a hs :
  Linking.has_topic a ->
  talks (fun tps a' hs' => List.map offset_of tps = l /\ a' = a /\ hs' = hs) (KafkaAdapter.resolve_all l) a hs.
Proof.
  intros Ha. induction l as [|[p off] l IH]; [done|]. cbn [KafkaAdapter.resolve_all].
  apply talks_bind. eapply talks_mono; [|by apply topicForPartition_talks]. intros t a' hs' [-> ->].
  apply talks_bind. eapply talks_mono; [|exact IH]. intros tps a' hs' (<- & -> & ->). done.
Qed.

(** [CommitOffsets] makes one request, of the offsets it was given. *)
Definition requested (m : gmap Z Z) (hs hs' : list happening) : Prop :=
  exists tps, hs' = hs ++ [CommitRequest tps] /\ List.map offset_of tps ≡ₚ map_to_list m.

Lemma CommitOffsets_talks m a hs :
  Linking.has_topic a ->
  talks (fun _ a' hs' => a' = a /\ requested m hs hs') (KafkaAdapter.CommitOffsets m) a hs.
Proof.
  intros Ha. split; [done|]. intros [order Ho]. simpl. rewrite app_nil_r.
  apply talks_bind. eapply talks_mono; [|by apply resolve_all_talks]. intros tps a' hs' (Ht & -> & ->).
  split; [done|]. intros err. simpl. split; [done|]. exists tps. split; [done|].
  rewrite Ht. by apply KafkaAdapter.ranged_offsets.
Qed.

Lemma pausing_talks (e : list KafkaAdapter.kTopicPartition -> KafkaAdapter.lib (option error)) what ps a hs :
  Linking.has_topic a -> (forall tps, to_handler (e tps) = false /\ forall x, client_happening (e tps) x = []) ->
  talks (unchanged a hs)
    (let* tps := KafkaAdapter.partitionsToTopicPartitions ps in
     let* err := ask (e tps) in Ret (option_map (Wrap what) err)) a hs.
Proof.
  intros Ha He. apply talks_bind. eapply talks_mono; [|by apply resolve_all_talks].
  intros tps a' hs' (_ & -> & ->). split; [apply He|]. intros x. simpl. by rewrite (proj2 (He tps)), app_nil_r.
Qed.

(** ** The loop's side *)

(** [c] uses nothing of the dispatcher, reads what it offers, and may pause
    and resume. *)
Fixpoint speaks {A} (Q : A -> PollLoop.PollLoop -> list happening -> Prop) (c : loop_prog A)
    (s : PollLoop.PollLoop) (hs : list happening) : Prop :=
  match c with
  | Ret a => Q a s hs
  | Throw _ => False
  | Act f k => match f s with
               | Returned x s' => speaks Q (k x) s' hs
               | Panicked _ _ => False
               end
  | Ask e k =>
      match e in PollLoop.iface Y return (Y -> loop_prog A) -> Prop with
      | PollLoop.CCommittable => fun k => speaks Q (k (Committable (coord d))) s hs
      | PollLoop.KCommitOffsets m => fun k => forall err hs', requested m hs hs' -> speaks Q (k err) s hs'
      | PollLoop.KPause _ | PollLoop.KResume _ | PollLoop.KAssignment | PollLoop.RangeOrder _ =>
          fun k => forall x, speaks Q (k x) s hs
      | _ => fun _ => False
      end k
  end.

Lemma speaks_bind {A B} (Q : B -> PollLoop.PollLoop -> list happening -> Prop) (c : loop_prog A)
    (f : A -> loop_prog B) s hs :
  speaks (fun a s' hs' => speaks Q (f a) s' hs') c s hs -> speaks Q (bind c f) s hs.
Proof.
  revert s hs. induction c as [a|q|X g k IH|X e k IH]; intros s hs; simpl; auto.
  - destruct (g s); auto.
  - destruct e; simpl; auto.
Qed.

Lemma speaks_mono {A} (Q Q' : A -> PollLoop.PollLoop -> list happening -> Prop) (c : loop_prog A) s hs :
  (forall a s' hs', Q a s' hs' -> Q' a s' hs') -> speaks Q c s hs -> speaks Q' c s hs.
Proof.
  intros HQ. revert s hs. induction c as [a|q|X g k IH|X e k IH]; intros s hs; simpl; auto.
  - destruct (g s); auto.
  - destruct e; simpl; auto.
Qed.

Definition linked_with {A} (Q : A -> PollLoop.PollLoop -> list happening -> Prop) (a : KafkaAdapter.Adapter)
    (o : option A) (s : Linking.state) (hs : list happening) : Prop :=
  exists x, o = Some x /\ s.2 = a /\ Q x s.1 hs.

Lemma speaks_alone fuel {A} (Q : A -> PollLoop.PollLoop -> list happening -> Prop) (c : loop_prog A) s hs :
  Linking.has_topic s.2 -> speaks Q c s.1 hs -> alone d (linked_with Q s.2) (Linking.link fuel c) s hs.
Proof.
  unfold Linking.link. revert s hs. induction c as [a|q|X g k IH|X e k IH]; intros s hs Ha Hc; simpl in Hc.
  - by exists a.
  - done.
  - simpl. unfold Linking.on_part, Linking.get_loop. destruct (g s.1) as [x s'|]; [|done].
    by apply (IH x (s', s.2)).
  - assert (Hk : forall (p : adapter_prog X) (R : X -> list happening -> Prop),
      talks (fun x a' hs' => a' = s.2 /\ R x hs') p s.2 hs ->
      (forall x hs', R x hs' -> speaks Q (k x) s.1 hs') ->
      alone d (linked_with Q s.2) (let* ox := Linking.in_adapter Linking.no_callback p in
        match ox with
        | Some x => Linking.interp Linking.get_loop Linking.put_loop
                      (Linking.loop_question Linking.linked_callback fuel) (k x)
        | None => Ret None
        end) s hs).
    { intros p R Hp HR. eapply talks_alone; [exact Hp|]. intros x a' hs' [-> HRx].
      apply (IH x (s.1, s.2)); [done|]. by apply HR. }
    cbn [Linking.interp]. destruct e; simpl in Hc; try done; cbn [Linking.loop_question].
    + apply (Hk _ (fun _ hs' => requested offsets hs hs')); [|auto].
      by apply CommitOffsets_talks.
    + apply (Hk _ (fun _ hs' => hs' = hs)); [by apply pausing_talks|by intros x hs' ->].
    + apply (Hk _ (fun _ hs' => hs' = hs)); [by apply pausing_talks|by intros x hs' ->].
    + apply (Hk _ (fun _ hs' => hs' = hs)); [|by intros x hs' ->].
      split; [done|]. intros [tps|e]; simpl; by rewrite app_nil_r.
    + split; [done|]. intros m Hm. rewrite (Hm _ eq_refl). by apply IH.
    + split; [done|]. intros order _. by apply IH.
Qed.

Ltac hushed :=
  repeat (simpl; match goal with
  | |- speaks _ (bind _ _) _ _ => apply speaks_bind
  | |- forall _, _ => intro
  | |- speaks _ (if ?b then _ else _) _ _ => destruct b
  | |- speaks _ (match ?o with _ => _ end) _ _ => destruct o
  | |- _ = _ => reflexivity
  end).

Lemma enter_speaks r s hs : speaks (fun _ _ hs' => hs' = hs) (PollLoop.enterDegradedMode r) s hs.
Proof. unfold PollLoop.enterDegradedMode, PollLoop.pauseAllPartitions. hushed. Qed.
Lemma exit_speaks r s hs : speaks (fun _ _ hs' => hs' = hs) (PollLoop.exitDegradedMode r) s hs.
Proof. unfold PollLoop.exitDegradedMode, PollLoop.resumeAllPartitions. hushed. Qed.

(** What a commit tick does. *)
Definition ticked (hs hs' : list happening) : Prop :=
  let m := Committable (coord d) in if Z.of_nat (size m) =? 0 then hs' = hs else requested m hs hs'.

Lemma commitOffsets_speaks cfg s hs :
  speaks (fun _ _ hs' => ticked hs hs') (PollLoop.commitOffsets cfg) s hs.
Proof.
  unfold PollLoop.commitOffsets, ticked. simpl. destruct (_ =? 0); [done|]. intros err hs' Hr.
  apply (speaks_mono (fun _ _ hs'' => hs'' = hs')); [by intros [] ? ? ->|].
  destruct err as [e|]; unfold PollLoop.commit_failed, PollLoop.commit_succeeded;
    hushed; apply enter_speaks || apply exit_speaks.
Qed.
End Talk.

(** * A commit tick *)

Section Tick.
Context `{Coordinator C}.
Variable cfg : Config.
Variable hasDLQ : bool.
Variable loop_cfg : PollLoop.Config.
Local Abbreviation system := (system (C := C)).
Local Abbreviation run_sys := (sys_run cfg hasDLQ loop_cfg).

Lemma sys_run_app chs1 chs2 x y z h1 h2 :
  run_sys chs1 x = Some (y, h1) -> run_sys chs2 y = Some (z, h2) -> run_sys (chs1 ++ chs2) x = Some (z, h1 ++ h2).
Proof.
  revert x h1. induction chs1 as [|ch chs1 IH]; intros x h1 H1 H2; simpl in H1.
  - by simplify_eq.
  - destruct (sys_sched _ _ _ ch x) as [[x1 l1]|] eqn:E; [|done].
    destruct (run_sys chs1 x1) as [[x2 l2]|] eqn:E1; [|done]. simplify_eq.
    simpl. rewrite E, (IH _ _ E1 H2). by rewrite app_assoc.
Qed.

(** The turn of a commit tick runs to its end, whatever the client answers,
    and asks for the commit of what the coordinator offers. *)
Lemma commit_tick anss fuel (x : system) :
  goroutine x = Selecting -> crashed (base x) = None -> Linking.has_topic (loop x).2 ->
  exists n z hs, run_sys (Select CommitTicker fuel :: own_actions anss n) x = Some (z, hs) /\
    goroutine z = Selecting /\ base z = base x /\ ticked (st (base x)) [] hs.
Proof.
  intros Hg Hx Ha. set (x1 := set_goroutine (Running (turn loop_cfg fuel PollLoop.CommitTick)) x).
  destruct (alone_runs cfg hasDLQ loop_cfg anss
    (linked_with (fun o _ hs => o = Continue /\ ticked (st (base x)) [] hs) (loop x).2)
    (turn loop_cfg fuel PollLoop.CommitTick) x1 [])
    as (n & s & a & hs & Hr & (o & -> & Hs & -> & Ht)); [done|done| |].
  { apply speaks_alone; [done|]. apply speaks_bind.
    eapply speaks_mono; [|apply (commitOffsets_speaks _ loop_cfg (loop x).1 [])]. by intros [] s' hs'. }
  exists (Datatypes.S n), (mkSystem (base x) s Selecting), hs. split; [|done].
  unfold own_actions. rewrite seq_S, map_app. simpl. unfold sys_sched. rewrite Hx, Hg. simpl.
  fold x1. erewrite (sys_run_app _ _ x1 _ _ hs []); [by rewrite app_nil_r|exact Hr|].
  simpl. unfold sys_sched. simpl. by rewrite Hx.
Qed.
End Tick.

(** * A consumer left alone *)

Section LeftAlone.
Context `{Coordinator C}.
Variable cfg : Config.
Variable hasDLQ : bool.
Variable loop_cfg : PollLoop.Config.
Variable ps : list Z.
Local Abbreviation system := (system (C := C)).
Local Abbreviation machine := (machine (C := C)).
Local Abbreviation known := (fun q => q ∈ ps).
Local Abbreviation sched_sys := (sys_sched cfg hasDLQ loop_cfg).
Local Abbreviation run_sys := (sys_run cfg hasDLQ loop_cfg).

Hypothesis BatchSize_pos : 0 < BatchSize cfg.
Hypothesis MaxRetries_nonneg : 0 <= MaxRetries cfg.
Hypothesis room_for_each : len ps <= ChannelCap cfg.
Hypothesis intervals_pos : PollLoop.positive_intervals loop_cfg.
Variable p : Z.

(** No sleep is interrupted. *)
Definition serene (ch : sys_choice) : Prop :=
  match ch with Background (Run _ ans) | Return ans => uninterrupted ans | _ => True end.

(** The loop neither closes the dispatcher nor resets the partition. *)
Definition spares_it (ch : sys_choice) (x : system) : bool :=
  match ch, goroutine x with
  | Own _, Running (Ask (Linking.ToDispatcher e) _) =>
      match e with
      | PollLoop.CReset q => negb (q =? p)
      | PollLoop.DClose => false
      | _ => true
      end
  | _, _ => true
  end.
Fixpoint all_spared (chs : list sys_choice) (x : system) : bool :=
  match chs with
  | [] => true
  | ch :: chs => spares_it ch x && match sched_sys ch x with Some (x1, _) => all_spared chs x1 | None => true end
  end.

(** The poll goroutine's thread: in a call exactly when the loop waits for
    one. *)
Definition in_call (th : option (thread (C := C))) : bool :=
  match th with Some (PollRunning _) | Some (PollRevoking _) => true | _ => false end.
Definition is_idle (th : option (thread (C := C))) : bool := match th with Some PollIdle => true | _ => false end.
Definition in_step (x : system) : Prop :=
  match goroutine x with
  | Calling _ => in_call (threads (base x) !! 0%nat) = true
  | _ => is_idle (threads (base x) !! 0%nat) = true
  end.

(** What a run keeps. *)
Record recorded (hs : list happening) (x : system) : Prop := {
  rc_sys : sys_inv cfg true ps hs x;
  rc_sound : sound cfg ps p (history hs) (base x);
  rc_remembers : remembers p (history hs) (base x);
  rc_step : in_step x
}.

(** What a step does to the dispatcher. *)
Inductive moves (x : system) (r : system * list happening) : Prop :=
| stays : base r.1 = base x -> history r.2 = [] -> moves x r
| goes ch : gentle known ch -> sparing p ch -> sched cfg hasDLQ ch (base x) = Some (base r.1) ->
    history r.2 = label_of ch (base x) -> moves x r.

Lemma call_moves hs x X (e : PollLoop.iface X) call answer ans k :
  Linking.loop_asks known (vouched true (history hs)) X e -> api_of e = Some (call, answer) ->
  spares_it (Own ans) (set_goroutine (Running (Ask (Linking.ToDispatcher e) k)) x) = true ->
  gentle known (Call call) /\ sparing p (Call call).
Proof.
  intros He Ha Hs. pose proof (call_known ps X e (vouched true (history hs)) call answer He Ha) as Hk.
  destruct e; simpl in *; simplify_eq; split; try done.
  intros [= ->]. by rewrite Z.eqb_refl in Hs.
Qed.

Lemma own_moves hs x ans c r :
  sys_inv cfg true ps hs x -> goroutine x = Running c -> spares_it (Own ans) x = true ->
  own_step cfg hasDLQ ans c x = Some r -> moves x r.
Proof.
  intros Hi Hg Hsp Hr. pose proof Hi as [Hb Ht Hp]. rewrite Hg in Hp. simpl in Hp.
  destruct c as [[[|err]|]|q|X f k|X e k]; simpl in Hr; simplify_eq; try by apply stays.
  - specialize (Hp _ Ht). destruct (f (loop x)) as [y s|q s]; [|done]. simplify_eq. by apply stays.
  - destruct e as [X e|X e]; simpl in Hr.
    + simplify_eq. apply stays; [done|]. simpl. destruct e; try done. simpl.
      by destruct (ans _ _) as [rs [[]|]].
    + destruct Hp as [[Hp _] _]. destruct (read_of e _); [simplify_eq; by apply stays|].
      destruct (api_of e) as [[call answer]|] eqn:Ea; [|simplify_eq; by apply stays].
      destruct (sched _ _ _ _) as [b|] eqn:Es; [|done]. simplify_eq.
      destruct (call_moves hs x X e call answer ans k Hp Ea) as [Hge Hspp].
      { unfold spares_it in *. by rewrite Hg in Hsp. }
      apply (goes _ _ (Call call)); [done|done|done|]. simpl. by rewrite history_labels.
Qed.

Lemma select_moves case fuel x r :
  select_step cfg hasDLQ loop_cfg case fuel x = Some r -> moves x r.
Proof.
  intros Hr.
  assert (Hrecv : forall call k, gentle known (Call call) -> sparing p (Call call) ->
    label_of (Call call) (base x) = [] -> receive_step cfg hasDLQ call k x = Some r -> moves x r).
  { intros call k Hg Hs Hl Hr'. unfold receive_step in Hr'. destruct (sched _ _ _ _) as [b|] eqn:Es; [|done].
    simplify_eq. by apply (goes _ _ (Call call)). }
  destruct case; simpl in Hr; simplify_eq; try by apply stays.
  - destruct (readyCh _); [|done]. by eapply Hrecv; [| | |exact Hr].
  - destruct (circuitStateCh _); [done|]. by eapply Hrecv; [| | |exact Hr].
Qed.

Lemma step_moves hs x ch r :
  sys_inv cfg true ps hs x -> serene ch -> spares_it ch x = true -> sched_sys ch x = Some r -> moves x r.
Proof.
  intros Hi Hse Hsp Hr. unfold sys_sched in Hr. destruct (crashed (base x)); [done|].
  destruct ch as [ch|case fuel|ans|ans].
  - assert (Hch : (gentle known ch /\ sparing p ch) \/ in_background ch (base x) = false)
      by (destruct ch; simpl; auto).
    destruct (in_background ch (base x)); [|done]. destruct Hch as [[Hg Hs]|]; [|done].
    destruct (sched cfg hasDLQ ch (base x)) as [b|] eqn:Es; [|done]. simplify_eq.
    apply (goes _ _ ch); [done|done|done|]. simpl. by rewrite history_labels.
  - destruct (goroutine x); try done. by eapply select_moves.
  - destruct (goroutine x) as [|c| |] eqn:Eg; try done. by eapply own_moves.
  - destruct (goroutine x) as [| |k|] eqn:Eg; try done.
    destruct (returned (threads (base x) !! 0%nat)) as [rep|] eqn:Er; [|done].
    destruct (sched cfg hasDLQ (Run 0 ans) (base x)) as [b|] eqn:Es; [|done]. simplify_eq.
    apply (goes _ _ (Run 0 ans)); [done|done|done|]. simpl.
    unfold returned in Er. by destruct (threads (base x) !! 0%nat) as [[]|].
Qed.

(** The other goroutines leave the poll goroutine's thread as it is, and the
    dispatcher's code in a call stays there until the call returns. *)
Definition same_place (th th' : option (thread (C := C))) : Prop :=
  (is_idle th = true -> is_idle th' = true) /\ (in_call th = true -> in_call th' = true).

Lemma elsewhere (b : machine) i th :
  i <> 0%nat -> same_place (threads b !! 0%nat) (<[i := th]> (threads b) !! 0%nat).
Proof. intros Hi. by rewrite list_lookup_insert_ne. Qed.

Lemma run_place i ans th (b b' : machine) :
  in_background (Run i ans) b = true -> threads b !! i = Some th ->
  run_thread cfg hasDLQ i ans th b = Some b' -> same_place (threads b !! 0%nat) (threads b' !! 0%nat).
Proof.
  intros Hb Hi Hr. destruct i as [|i].
  - simpl in Hb. rewrite Hi in Hb |- *.
    assert (Hput : forall th', same_place (Some th) (Some th') ->
      same_place (Some th) (<[0%nat := th']> (threads b) !! 0%nat))
      by (intros th'; by rewrite list_lookup_insert_eq by (by eapply lookup_lt_Some)).
    destruct th as [|[]|tps|[]| | |q [[]| | |]|[]| |[]|]; simpl in Hr; repeat case_match; simplify_eq; try done;
      (by apply Hput) || (simpl; by rewrite Hi).
  - destruct th; simpl in Hr; try done; repeat case_match; simplify_eq; done || by apply elsewhere.
Qed.

Lemma background_place ch (b b' : machine) :
  in_background ch b = true -> sched cfg hasDLQ ch b = Some b' ->
  same_place (threads b !! 0%nat) (threads b' !! 0%nat).
Proof.
  intros Hb Hs. unfold sched in Hs. destruct (crashed b); [done|]. destruct ch as [i ans|k|i|t].
  - destruct (threads b !! i) as [th|] eqn:Hi; [|done]. by eapply run_place.
  - done.
  - destruct (threads b !! i) as [[]|] eqn:Hi; try done.
    assert (Hp : forall th', same_place (threads b !! 0%nat) (<[i := th']> (threads b) !! 0%nat)).
    { intros th'. destruct i as [|i]; [by rewrite Hi|by apply elsewhere]. }
    destruct (recv_batch (st b)) as [[q s]|]; [|destruct (batchChClosed (st b)); [|done]]; simplify_eq; apply Hp.
  - destruct (timers (st b) !! t); simpl in Hs; simplify_eq. simpl.
    destruct (threads b) as [|th ths]; [|done]. by split.
Qed.

(** A call puts the poll goroutine's thread to work. *)
Lemma call_place k (b b' : machine) :
  sched cfg hasDLQ (Call k) b = Some b' -> k <> CallClose -> in_call (threads b' !! 0%nat) = true.
Proof.
  unfold sched. destruct (crashed b); [done|]. intros Hs Hk.
  destruct (threads b !! 0%nat) as [[]|] eqn:H0; try done.
  destruct k; simplify_eq; try done; simpl; by rewrite list_lookup_insert_eq by (by eapply lookup_lt_Some).
Qed.

Lemma return_place ans rep (b b' : machine) :
  in_call (threads b !! 0%nat) = true -> returned (threads b !! 0%nat) = Some rep ->
  sched cfg hasDLQ (Run 0 ans) b = Some b' -> is_idle (threads b' !! 0%nat) = true.
Proof.
  unfold sched. destruct (crashed b); [done|]. intros Hc Hr Hs.
  destruct (threads b !! 0%nat) as [[|[]| | | | | | | | |]|] eqn:H0; try done. simpl in Hs. simplify_eq.
  simpl. by rewrite list_lookup_insert_eq by (by eapply lookup_lt_Some).
Qed.

Lemma receive_in_step call k x r :
  call <> CallClose -> receive_step cfg hasDLQ call k x = Some r -> in_step r.1.
Proof.
  intros Hc Hr. unfold receive_step in Hr. destruct (sched _ _ _ _) as [b|] eqn:Es; [|done]. simplify_eq.
  by eapply call_place.
Qed.

Lemma ask_in_step ans X (e : Linking.linked X) k x r :
  in_step x -> goroutine x = Running (Ask e k) -> spares_it (Own ans) x = true ->
  ask_step cfg hasDLQ ans e k x = Some r -> in_step r.1.
Proof.
  intros Hi Hg Hsp Hr. unfold in_step in Hi. rewrite Hg in Hi. unfold spares_it in Hsp. rewrite Hg in Hsp.
  destruct e as [X e|X e]; simpl in Hr; [by simplify_eq|].
  destruct (read_of e (st (base x))), (api_of e) as [[call answer]|] eqn:Ea; simplify_eq; try done.
  all: destruct (sched _ _ _ _) as [b|] eqn:Es; [|done]; simplify_eq.
  all: eapply call_place; [exact Es|]; destruct e; simpl in *; by simplify_eq.
Qed.

(** The poll goroutine is in a call exactly when the loop waits for one. *)
Lemma step_in_step ch x r :
  in_step x -> spares_it ch x = true -> sched_sys ch x = Some r -> in_step r.1.
Proof.
  intros Hi Hsp Hr. pose proof Hi as Hi'. unfold in_step in Hi'. unfold sys_sched in Hr.
  destruct (crashed (base x)); [done|]. destruct ch as [ch|case fuel|ans|ans].
  - destruct (in_background ch (base x)) eqn:Eb; [|done].
    destruct (sched cfg hasDLQ ch (base x)) as [b|] eqn:Es; [|done]. simplify_eq.
    destruct (background_place ch _ b Eb Es) as [H1 H2]. unfold in_step. simpl. destruct (goroutine x); auto.
  - destruct (goroutine x); try done. destruct case; simpl in Hr; simplify_eq; try done.
    + destruct (readyCh _); [|done]. by eapply receive_in_step; [|exact Hr].
    + destruct (circuitStateCh _); [done|]. by eapply receive_in_step; [|exact Hr].
  - destruct (goroutine x) as [|c| |] eqn:Eg; try done.
    destruct c as [[[|err]|]|q|X f k|X e k]; simpl in Hr; [by simplify_eq..|done| | |by eapply ask_in_step].
    + simplify_eq. unfold in_step. simpl. by rewrite Eg.
    + destruct (f (loop x)); simplify_eq; [done|]. unfold in_step. simpl. by rewrite Eg.
  - destruct (goroutine x) as [| |k|] eqn:Eg; try done.
    destruct (returned (threads (base x) !! 0%nat)) as [rep|] eqn:Er; [|done].
    destruct (sched cfg hasDLQ (Run 0 ans) (base x)) as [b|] eqn:Es; [|done]. simplify_eq.
    by eapply return_place.
Qed.

Lemma step_recorded hs x ch r :
  recorded hs x -> client_fits ps ch -> serene ch -> spares_it ch x = true -> sched_sys ch x = Some r ->
  recorded (hs ++ r.2) r.1.
Proof.
  intros [Hi Hs Hm Hp] Hf Hse Hsp Hr.
  destruct (sys_step cfg hasDLQ loop_cfg true ps BatchSize_pos MaxRetries_nonneg (fun _ => room_for_each) hs x ch r Hi Hf Hr)
    as [Hi' _].
  assert (Hb : sound cfg ps p (history (hs ++ r.2)) (base r.1) /\ remembers p (history (hs ++ r.2)) (base r.1)).
  { rewrite history_app. destruct (step_moves hs x ch r Hi Hse Hsp Hr) as [-> ->|c Hg Hspp Hsc ->].
    - by rewrite app_nil_r.
    - split; [by eapply sound_step|]. eapply sched_remembers; eauto. by eapply sound_coord. }
  destruct Hb. constructor; [done..|]. by eapply step_in_step.
Qed.

Lemma run_recorded chs hs x x' hs' :
  recorded hs x -> Forall (client_fits ps) chs -> Forall serene chs -> all_spared chs x = true ->
  run_sys chs x = Some (x', hs') -> recorded (hs ++ hs') x'.
Proof.
  revert hs x hs'. induction chs as [|ch chs IH]; intros hs x hs' Hx Hf Hse Hsp Hr; simpl in Hr.
  { simplify_eq. by rewrite app_nil_r. }
  apply Forall_cons in Hf as [Hf Hfs]. apply Forall_cons in Hse as [Hse Hses].
  simpl in Hsp. apply andb_prop in Hsp as [Hsp Hsps].
  destruct (sched_sys ch x) as [[x1 l1]|] eqn:Es; [|done].
  destruct (run_sys chs x1) as [[x2 l2]|] eqn:Er; [|done]. simplify_eq.
  rewrite app_assoc. eapply IH; [|done..]. exact (step_recorded _ _ _ _ Hx Hf Hse Hsp Es).
Qed.

Lemma start_recorded n c a h :
  (0 < n)%nat -> fresh_coordinator c -> KafkaAdapter.topics a <> [] -> recorded [] (sys_start loop_cfg n c a h).
Proof.
  intros Hn Hc Ha. constructor; [by apply start_sys_inv| |apply start_remembers|done].
  by apply start_sound.
Qed.

(** ** Left alone

    The poll goroutine waits in its select; the workers and the timers go on. *)
Definition left_alone (ch : sys_choice) : Prop :=
  match ch with Background ch => settling ch | _ => False end.
Definition goes_on (y x : system) : Prop :=
  panics (base x) = [] /\ exists ch hs, left_alone ch /\ sched_sys ch x = Some (y, hs).

Lemma goes_settles y x : goes_on y x -> settles cfg hasDLQ (base y) (base x).
Proof.
  intros (Hp & ch & hs & Hch & Hs). split; [done|]. destruct ch as [ch| | |]; try done. exists ch.
  split; [done|]. unfold sys_sched in Hs. destruct (crashed (base x)); [done|].
  destruct (in_background _ _); [|done]. destruct (sched _ _ _ _); [|done]. by simplify_eq.
Qed.

Lemma settles_goes z x :
  goroutine x = Selecting -> in_step x -> settles cfg hasDLQ z (base x) -> exists y, goes_on y x.
Proof.
  intros Hg Hi (Hp & ch & Hch & Hs). exists (set_base z x). split; [done|].
  exists (Background ch), (List.map Dispatched (label_of ch (base x))). split; [done|].
  unfold in_step in Hi. rewrite Hg in Hi. unfold sys_sched.
  assert (E : in_background ch (base x) = true).
  { destruct ch as [[|i] ans|k|i|t]; try done. simpl. by destruct (threads (base x) !! 0%nat) as [[]|]. }
  rewrite E, Hs. unfold sched in Hs. by destruct (crashed (base x)).
Qed.

Lemma goes_on_ends x : Acc (settles cfg hasDLQ) (base x) -> Acc goes_on x.
Proof.
  remember (base x) as b eqn:Eb. intros Ha. revert x Eb. induction Ha as [b _ IH]. intros x ->.
  constructor. intros y Hy. by apply (IH (base y)); [apply goes_settles|].
Qed.

Lemma recorded_no_call hs x : goroutine x = Selecting -> recorded hs x -> no_call (base x).
Proof.
  intros Hg Hx. pose proof (rc_step _ _ Hx) as Hi. unfold in_step in Hi. rewrite Hg in Hi.
  apply (idle_no_call cfg ps p (history hs)); [apply Hx|].
  by destruct (threads (base x) !! 0%nat) as [[]|].
Qed.

(** Left alone, the loop stays in its select. *)
Lemma alone_step hs ch x y l :
  left_alone ch -> goroutine x = Selecting -> recorded hs x -> sched_sys ch x = Some (y, l) ->
  goroutine y = Selecting /\ loop y = loop x /\ recorded (hs ++ l) y /\ sent p (history l) = [] /\
  (forall msgs, ~ Discarded p msgs ∈ history l).
Proof.
  intros Hch Hg Hx Hs. destruct ch as [ch| | |]; try done.
  assert (Hr : recorded (hs ++ l) y).
  { apply (step_recorded hs x (Background ch) (y, l) Hx); [done| |done|exact Hs].
    destruct ch as [i ans| | |]; try done. by apply (settling_gentle known (Run i ans)). }
  pose proof (rc_step _ _ Hx) as Hi. unfold in_step in Hi. rewrite Hg in Hi.
  unfold sys_sched in Hs. destruct (crashed (base x)); [done|].
  destruct (in_background ch (base x)) eqn:Eb; [|done]. destruct (sched cfg hasDLQ ch (base x)) eqn:Es; [|done].
  simplify_eq. simpl. rewrite history_labels, background_sent by done. split_and!; try done.
  intros msgs Hin. destruct ch as [i ans|k|i|t]; [|done|by apply not_elem_of_nil in Hin..]. simpl in Hin.
  pose proof (recorded_no_call hs x Hg Hx) as Hn. unfold no_call in Hn. rewrite Forall_lookup in Hn.
  destruct (threads (base x) !! i) as [th|] eqn:Hi'; [|by apply not_elem_of_nil in Hin].
  specialize (Hn i th Hi'). destruct th as [| | | | | |b c| | | |]; try done; try by apply not_elem_of_nil in Hin.
  destruct c as [[|v]| | |]; try by apply not_elem_of_nil in Hin. by apply list_elem_of_singleton in Hin.
Qed.

Lemma alone_run hs chs x y l :
  Forall left_alone chs -> goroutine x = Selecting -> recorded hs x -> run_sys chs x = Some (y, l) ->
  goroutine y = Selecting /\ loop y = loop x /\ recorded (hs ++ l) y /\ sent p (history l) = [] /\
  (forall msgs, ~ Discarded p msgs ∈ history l).
Proof.
  revert hs x l. induction chs as [|ch chs IH]; intros hs x l Hal Hg Hx Hr; simpl in Hr.
  { simplify_eq. rewrite app_nil_r. split_and!; try done. by intros msgs ?%not_elem_of_nil. }
  apply Forall_cons in Hal as [Ha Has].
  destruct (sched_sys ch x) as [[x1 l1]|] eqn:Es; [|done].
  destruct (run_sys chs x1) as [[x2 l2]|] eqn:Er; [|done]. simplify_eq.
  destruct (alone_step hs ch x x1 l1 Ha Hg Hx Es) as (Hg1 & Hl1 & Hx1 & Hs1 & Hd1).
  destruct (IH (hs ++ l1) x1 l2 Has Hg1 Hx1 Er) as (Hg2 & Hl2 & Hx2 & Hs2 & Hd2).
  rewrite history_app, sent_app, Hs1, Hs2, app_assoc. split_and!; try done; [congruence|].
  intros msgs [Hin|Hin]%elem_of_app; [by eapply Hd1|by eapply Hd2].
Qed.

(** Where a consumer left alone has come to rest, it commits the offset after
    the last message that was sent. *)
Lemma rest_commits hs x :
  goroutine x = Selecting -> recorded hs x -> panics (base x) = [] ->
  (forall msgs, ~ Discarded p msgs ∈ history hs) ->
  (exists y, goes_on y x) \/
  forall msg anss fuel, last (sent p (history hs)) = Some msg ->
  exists k z tps tp, run_sys (Select CommitTicker fuel :: own_actions anss k) x = Some (z, [CommitRequest tps]) /\
    goroutine z = Selecting /\ tp ∈ tps /\
    KafkaAdapter.kPartition tp = p /\ KafkaAdapter.kOffset tp = wrap64 (Offset msg + 1).
Proof.
  intros Hg Hx Hp Hd. pose proof (rc_sound _ _ Hx) as Hso.
  destruct (sound_rest cfg hasDLQ ps p (history hs) (base x) Hso) as [[z Hz]|Hrest];
    [by apply (recorded_no_call hs)|done|left; eapply settles_goes; [done|apply Hx|exact Hz]|right; intros msg anss fuel Hl].
  destruct (Hrest p Hso) as [Hf Hk]. rewrite kept_sent in Hk by done. injection Hk as Hk.
  pose proof (rest_committable cfg ps p (history hs) (base x) Hso (rc_remembers _ _ Hx) Hf) as Hc.
  rewrite <- Hk, Hl in Hc. simpl in Hc.
  destruct (commit_tick cfg hasDLQ loop_cfg anss fuel x Hg) as (k & z & l & Hr & Hgz & _ & Ht);
    [by apply (so_tended _ _ _ _ _ Hso Hp)|apply (rc_sys _ _ Hx)|].
  unfold ticked in Ht. destruct (Z.eqb_spec (Z.of_nat (size (Committable (coord (st (base x)))))) 0) as [E|_].
  { assert (Hne : size (Committable (coord (st (base x)))) <> 0%nat) by (apply map_size_ne_0_lookup; eauto). lia. }
  destruct Ht as (tps & -> & Hperm). simpl in Hr.
  assert (Hin : (p, wrap64 (Offset msg + 1)) ∈ List.map offset_of tps)
    by (rewrite Hperm; by apply elem_of_map_to_list).
  apply list_elem_of_fmap in Hin as (tp & E & Hin). injection E as E1 E2.
  exists k, z, tps, tp. by split_and!.
Qed.
End LeftAlone.

(** * Property *)

Section Property.
Context `{Coordinator C}.
Variable cfg : Config.
Variable hasDLQ : bool.
Variable loop_cfg : PollLoop.Config.
Local Abbreviation run_sys := (sys_run cfg hasDLQ loop_cfg).

(** C3. Everything delivered is committed.  Take any run of the whole system
    with a slot of the channel for each partition in use, up to a moment at
    which the loop is in its select, with no sleep interrupted and without a shutdown, of a client whose every message for a
    partition was delivered outside degraded mode and not while the partition
    was paused, and that did not revoke the partition.  Left alone from there,
    while the breaker lets requests through, the workers and the linger timers
    do not go on for ever; and where they have come to an end, unless a worker
    has panicked, the next commit tick asks Kafka for the offset after the
    last message it delivered, whatever the client answers. *)
Theorem everything_delivered_is_committed ps p n c a h chs x hs :
  (0 < n)%nat -> 0 < BatchSize cfg -> 0 <= MaxRetries cfg -> PollLoop.positive_intervals loop_cfg ->
  fresh_coordinator c -> KafkaAdapter.topics a <> [] -> len ps <= ChannelCap cfg ->
  Forall (client_fits ps) chs -> Forall serene chs ->
  run_sys chs (sys_start loop_cfg n c a h) = Some (x, hs) -> goroutine x = Selecting ->
  all_heeded cfg hasDLQ loop_cfg p chs (sys_start loop_cfg n c a h) = true ->
  all_spared cfg hasDLQ loop_cfg p chs (sys_start loop_cfg n c a h) = true ->
  (forall msgs, ~ Discarded p msgs ∈ history hs) ->
  Acc (goes_on cfg hasDLQ loop_cfg) x /\
  forall chs' y hs', Forall left_alone chs' -> run_sys chs' x = Some (y, hs') ->
    panics (base y) <> [] \/ (exists z, goes_on cfg hasDLQ loop_cfg z y) \/
    forall o anss fuel, last (fetched p hs) = Some o ->
      exists k z tps tp, run_sys (Select CommitTicker fuel :: own_actions anss k) y = Some (z, [CommitRequest tps]) /\
        goroutine z = Selecting /\ tp ∈ tps /\
        KafkaAdapter.kPartition tp = p /\ KafkaAdapter.kOffset tp = wrap64 (o + 1).
Proof.
  intros Hn Hb Hm Hiv Hc Ha Hcap Hf Hse Hr Hg Hheed Hsp Hkeep.
  assert (Hx : recorded cfg ps p hs x)
    by (eapply (run_recorded cfg hasDLQ loop_cfg ps Hb Hm Hcap p chs []); [by apply start_recorded|done..]).
  split; [apply goes_on_ends, (sound_acc cfg hasDLQ ps Hb Hm Hcap p (history hs));
    [apply Hx|by eapply recorded_no_call]|].
  intros chs' y hs' Hal Hr'.
  destruct (alone_run cfg hasDLQ loop_cfg ps Hb Hm Hcap p hs chs' x y hs' Hal Hg Hx Hr')
    as (Hgy & _ & Hy & Hs' & Hd').
  destruct (panics (base y)) eqn:Hp; [right|by left].
  destruct (rest_commits cfg hasDLQ loop_cfg ps p (hs ++ hs') y Hgy Hy Hp) as [?|Hcommit];
    [|by left|right; intros o anss fuel Ho].
  { intros msgs. rewrite history_app. intros [?|?]%elem_of_app; [by eapply Hkeep|by eapply Hd']. }
  destruct (run_ledger cfg hasDLQ loop_cfg p chs [] _ _ _ (start_ledger loop_cfg p n c a h) Hheed Hr)
    as (pend & Hled & Hpend). simpl in Hled. unfold carries in Hpend. rewrite Hg in Hpend. subst pend.
  rewrite Hled, app_nil_r, fmap_last in Ho.
  destruct (last (sent p (history hs))) as [msg|] eqn:Hlast; [|done]. injection Ho as <-.
  apply Hcommit. by rewrite history_app, sent_app, Hs', app_nil_r.
Qed.
End Property.

(** * Witness

    Two messages have been fetched and sent, and no worker has run yet. *)
Definition polled_turns : list planned := take 2 demo_turns.
Definition polled_log : list happening :=
  Eval vm_compute in from_option snd [] (demo_run demo_cfg PollLoop.DefaultConfig polled_turns).

Lemma polled_serene : Forall serene (demo_choices demo_cfg PollLoop.DefaultConfig polled_turns).
Proof.
  apply demo_all; try done; [exact quietly_uninterrupted|intros i; exact quietly_uninterrupted|].
  by repeat constructor.
Qed.

Lemma everything_delivered_is_committed_witness :
  exists x, demo_run demo_cfg PollLoop.DefaultConfig polled_turns = Some (x, polled_log) /\
    fetched 0 polled_log = [10; 11] /\ settled 0 (history polled_log) = [] /\
    Acc (goes_on demo_cfg true PollLoop.DefaultConfig) x /\
    forall chs' y hs', Forall left_alone chs' -> sys_run demo_cfg true PollLoop.DefaultConfig chs' x = Some (y, hs') ->
      panics (base y) <> [] \/ (exists z, goes_on demo_cfg true PollLoop.DefaultConfig z y) \/
      forall o anss fuel, last (fetched 0 polled_log) = Some o ->
        exists k z tps tp, sys_run demo_cfg true PollLoop.DefaultConfig
            (Select CommitTicker fuel :: own_actions anss k) y = Some (z, [CommitRequest tps]) /\
          goroutine z = Selecting /\ tp ∈ tps /\
          KafkaAdapter.kPartition tp = 0 /\ KafkaAdapter.kOffset tp = wrap64 (o + 1).
Proof.
  assert (Hr : option_map (fun r => (r.2, is_selecting (goroutine r.1)))
    (demo_run demo_cfg PollLoop.DefaultConfig polled_turns) = Some (polled_log, true)) by (vm_compute; reflexivity).
  destruct (demo_run demo_cfg PollLoop.DefaultConfig polled_turns) as [[x hs]|] eqn:E; [|done].
  injection Hr as -> Hs. exists x. do 3 (split; [reflexivity|]).
  apply (everything_delivered_is_committed demo_cfg true PollLoop.DefaultConfig [0] 0 1 NewCoordinator demo_adapter
    demo_health (demo_choices demo_cfg PollLoop.DefaultConfig polled_turns) x polled_log);
    [lia|done|done|by split|exact demo_fresh|done|done| |exact polled_serene|exact E|
     by destruct (goroutine x)|vm_compute; reflexivity|vm_compute; reflexivity|].
  - apply demo_fits. unfold polled_turns. by apply Forall_take, demo_turns_ok.
  - intros msgs. change (history polled_log) with
      [Sent 0 [mkMessage "events" 0 10 None None 0 [] 0]; Sent 0 [mkMessage "events" 0 11 None None 0 [] 0]].
    by intros [|[|Hn%not_elem_of_nil]%elem_of_cons]%elem_of_cons.
Defined.
