(* ===== verification/DLQ.v ===== *)
(** The dead letter queue producer ([internal/kafka/dlq.go]): what is
    published for a failed batch, and when [Produce] reports success.  The
    client library's producer is the environment. *)
From S2P Require Import Prelude Types Strconv.

(** [[]byte(s)]: never nil. *)
Definition chars_bytes (s : list ascii) : bytes := Some (byte_of_ascii <$> s).
Definition string_bytes (s : string) : bytes := chars_bytes (String.list_ascii_of_string s).

(** A produced message; its partition is [PartitionAny]. *)
Record kProducerMessage := mkPM {
  pmTopic : string;
  pmKey : bytes;
  pmValue : bytes;
  pmHeaders : list Header
}.

Definition buildDLQHeaders (msg : Message) (reason timestamp : string) : list Header :=
  [mkHeader "dlq.source.topic" (string_bytes (Topic msg));
   mkHeader "dlq.source.partition" (chars_bytes (FormatInt (Partition msg)));
   mkHeader "dlq.source.offset" (chars_bytes (FormatInt (Offset msg)));
   mkHeader "dlq.error.reason" (string_bytes reason);
   mkHeader "dlq.error.timestamp" (string_bytes timestamp)].

(** The producer's state: the topic it publishes to. *)
Record DLQProducer := mkDLQProducer { topic : string }.

(** [PTimestamp] is the current time as RFC 3339 text; [PAwait] is the
    [select] that waits for one delivery report, or for the context. *)
Inductive delivery := ContextDone (err : error) | Report (err : option error).

Inductive plib : Type -> Type :=
| PTimestamp : plib string
| PEnqueue (km : kProducerMessage) : plib (option error)
| PAwait : plib delivery.

Local Abbreviation P := (prog plib DLQProducer).

Definition dlq_message (t : string) (reason timestamp : string) (msg : Message) : kProducerMessage :=
  mkPM t (Key msg) (Value msg) (buildDLQHeaders msg reason timestamp ++ Headers msg).

Definition enqueue_error (msg : Message) (e : error) : error :=
  Wrap ("dlq: enqueue message (partition=" +:+ String.string_of_list_ascii (FormatInt (Partition msg)) +:+
        ", offset=" +:+ String.string_of_list_ascii (FormatInt (Offset msg)) +:+ "): ") e.

(** Enqueue the messages, or stop at the first error. *)
Fixpoint enqueue_all (reason timestamp : string) (msgs : list Message) : P (option error) :=
  match msgs with
  | [] => Ret None
  | msg :: msgs =>
      let* t := gets topic in
      let* err := ask (PEnqueue (dlq_message t reason timestamp msg)) in
      match err with
      | Some e => Ret (Some (enqueue_error msg e))
      | None => enqueue_all reason timestamp msgs
      end
  end.

(** Wait for [n] delivery reports, keeping the first failure. *)
Fixpoint await_all (n : nat) (firstErr : option error) : P (option error) :=
  match n with
  | O => Ret firstErr
  | Datatypes.S n =>
      let* r := ask PAwait in
      match r with
      | ContextDone e => Ret (Some (Wrap "dlq: context canceled while waiting for delivery: " e))
      | Report err =>
          await_all n (match firstErr, err with
                       | None, Some e => Some (Wrap "dlq: delivery failed: " e)
                       | _, _ => firstErr
                       end)
      end
  end.

Definition Produce (msgs : list Message) (reason : error) : P (option error) :=
  let reasonStr := Error reason in
  let* timestamp := ask PTimestamp in
  let* err := enqueue_all reasonStr timestamp msgs in
  match err with
  | Some e => Ret (Some e)
  | None => await_all (length msgs) None
  end.

(** * Reading a run *)

Definition enqueued_of (x : exchange plib) : option (kProducerMessage * option error) :=
  match x with
  | existT X (e, a) =>
      match e in plib Y return Y -> option (kProducerMessage * option error) with
      | PEnqueue km => fun a => Some (km, a)
      | _ => fun _ => None
      end a
  end.
Definition report_of (x : exchange plib) : option delivery :=
  match x with
  | existT X (e, a) =>
      match e in plib Y return Y -> option delivery with
      | PAwait => fun a => Some a
      | _ => fun _ => None
      end a
  end.
Definition enqueued (l : list (exchange plib)) := collect enqueued_of l.
Definition reports (l : list (exchange plib)) := collect report_of l.

Lemma enqueue_all_wp reason timestamp msgs s l :
  wp (enqueue_all reason timestamp msgs) (fun r s' l' => s' = s /\ exists l2, l' = l ++ l2 /\
    reports l2 = [] /\
    (r = None -> enqueued l2 = (fun msg => (dlq_message (topic s) reason timestamp msg, None)) <$> msgs) /\
    (r <> None -> exists km e, (km, Some e) ∈ enqueued l2)) s l.
Proof.
  revert l. induction msgs as [|msg msgs IH]; intros l.
  { split; [done|]. exists []. by rewrite app_nil_r. }
  intros [e|]; simpl.
  - split; [done|]. eexists. split; [done|]. split; [done|]. split; [done|]. intros _.
    eexists _, e. apply list_elem_of_here.
  - eapply wp_mono; [|apply IH]. intros r s' l' (-> & l2 & -> & Hr & Hn & Hs).
    split; [done|]. rewrite <- app_assoc. eexists. split; [done|]. split; [exact Hr|]. split.
    + intros E. exact (f_equal (cons _) (Hn E)).
    + intros E. destruct (Hs E) as (km & e & Hin). exists km, e. by apply list_elem_of_further.
Qed.

Definition first_failure (first : option error) (rs : list delivery) : option error :=
  foldl (fun first r => match first, r with
                        | None, Report (Some e) => Some (Wrap "dlq: delivery failed: " e)
                        | _, _ => first
                        end) first rs.

Lemma await_all_wp n first s l :
  wp (await_all n first) (fun r s' l' => s' = s /\ exists l2, l' = l ++ l2 /\ enqueued l2 = [] /\
    (r = None -> first = None /\ reports l2 = replicate n (Report None)) /\
    (r <> None -> first <> None \/ exists x, x ∈ reports l2 /\ x <> Report None)) s l.
Proof.
  revert first l. induction n as [|n IH]; intros first l.
  { split; [done|]. exists []. rewrite app_nil_r. split_and!; auto. }
  intros [e|err]; simpl.
  - split; [done|]. eexists. split; [done|]. split; [done|]. split; [done|]. intros _.
    right. exists (ContextDone e). split; [apply list_elem_of_here|done].
  - eapply wp_mono; [|apply IH]. intros r s' l' (-> & l2 & -> & He & Hn & Hs).
    split; [done|]. rewrite <- app_assoc. eexists. split; [done|]. split; [exact He|]. split.
    + intros E. destruct (Hn E) as [Hf Hr]. destruct first as [f|]; [done|].
      destruct err as [e|]; [done|].
      split; [done|]. exact (f_equal (cons _) Hr).
    + intros E. destruct (Hs E) as [Hf|(x & Hin & Hx)].
      * destruct first as [f|]; [by left|]. destruct err as [e|]; [|done].
        right. exists (Report (Some e)). split; [apply list_elem_of_here|done].
      * right. exists x. split; [by apply list_elem_of_further|done].
Qed.

(** What the dead letter topic [t] gets of a message. *)
Definition dead_letter_of (t reason timestamp : string) (msg : Message) (km : kProducerMessage) : Prop :=
  pmTopic km = t /\ pmKey km = Key msg /\ pmValue km = Value msg /\
  pmHeaders km = [mkHeader "dlq.source.topic" (string_bytes (Topic msg));
                  mkHeader "dlq.source.partition" (chars_bytes (FormatInt (Partition msg)));
                  mkHeader "dlq.source.offset" (chars_bytes (FormatInt (Offset msg)));
                  mkHeader "dlq.error.reason" (string_bytes reason);
                  mkHeader "dlq.error.timestamp" (string_bytes timestamp)] ++ Headers msg.

Lemma dead_letters_of t reason timestamp msgs l :
  enqueued l = (fun msg => (dlq_message t reason timestamp msg, None)) <$> msgs ->
  (enqueued l).*2 = replicate (length msgs) None /\
  Forall2 (dead_letter_of t reason timestamp) msgs (enqueued l).*1.
Proof.
  intros ->. induction msgs as [|msg msgs [IH1 IH2]]; [by split|]. split; [exact (f_equal (cons None) IH1)|].
  by constructor.
Qed.

(** C30. [Produce] reports success only for a batch that is entirely in the
    dead letter topic: whatever the client answers, it returns nil exactly
    when every message was enqueued without error, in order, for the
    producer's topic, with its own key, its own value and its own headers
    behind the five [dlq.] headers that name its source, the reason and the
    time, and as many delivery reports came back, all without error;
    otherwise some enqueue or delivery failed or the context was done. *)
Theorem Produce_success {O} (h : handler plib O) msgs reason o s :
  exists r o' timestamp l, exec (traced h) (Produce msgs reason) (o, []) s =
      (Returned r s, (o', asked PTimestamp timestamp :: l)) /\
    (r = None ->
       (enqueued l).*2 = replicate (length msgs) None /\
       Forall2 (dead_letter_of (topic s) (Error reason) timestamp) msgs (enqueued l).*1 /\
       reports l = replicate (length msgs) (Report None)) /\
    (r <> None -> (exists km e, (km, Some e) ∈ enqueued l) \/
                  (exists x, x ∈ reports l /\ x <> Report None)).
Proof.
  assert (Hw : wp (Produce msgs reason) (fun r s' l' => s' = s /\ exists timestamp l,
    l' = asked PTimestamp timestamp :: l /\
    (r = None ->
       enqueued l = (fun msg => (dlq_message (topic s) (Error reason) timestamp msg, None)) <$> msgs /\
       reports l = replicate (length msgs) (Report None)) /\
    (r <> None -> (exists km e, (km, Some e) ∈ enqueued l) \/
                  (exists x, x ∈ reports l /\ x <> Report None))) s []).
  { unfold Produce. cbv zeta. rewrite wp_ask. intros ts. eapply wp_bind_mono; [apply enqueue_all_wp|].
    intros [e|] s1 l1 (-> & l2 & -> & Hr & Hn & Hs).
    - split; [done|]. exists ts, l2. split; [done|]. split; [done|]. intros _. left. by apply Hs.
    - eapply wp_mono; [|apply await_all_wp]. intros r s2 l3 (-> & l4 & -> & He & Hn' & Hs').
      split; [done|]. exists ts, (l2 ++ l4). split; [done|].
      unfold enqueued, reports in *. rewrite !collect_app, He, Hr, app_nil_r. simpl. split.
      + intros E. destruct (Hn' E) as [_ Hr']. split; [by apply Hn|done].
      + intros E. destruct (Hs' E) as [?|Hx]; [done|by right]. }
  destruct (wp_sound h _ _ o _ _ Hw) as (r & s' & o' & l' & Hx & -> & ts & l & -> & Hok & ?).
  exists r, o', ts, l. split; [done|]. split; [|done]. intros E. destruct (Hok E) as [He Hrep].
  by destruct (dead_letters_of _ _ _ _ _ He).
Qed.

(** * The metadata can be read back *)

Definition header_chars (h : Header) : list ascii :=
  ascii_of_byte <$> default [] (HeaderValue h).

Definition header (k : string) (hs : list Header) : option (list ascii) :=
  header_chars <$> List.find (fun h => String.eqb (HeaderKey h) k) hs.

Lemma chars_bytes_back k s : header_chars (mkHeader k (chars_bytes s)) = s.
Proof.
  unfold header_chars, chars_bytes. simpl. induction s as [|c s IH]; [done|].
  rewrite !fmap_cons, ascii_of_byte_of_ascii. by f_equal.
Qed.

(** C31. A dead-lettered message can be traced to its source: whatever
    headers the message had, the first [dlq.] headers of what is published
    give back its topic, and its partition and offset by [Atoi], for every
    partition and offset in range. *)
Theorem dlq_source_roundtrip t reason timestamp msg :
  in_int64 (Partition msg) -> in_int64 (Offset msg) ->
  let hs := pmHeaders (dlq_message t reason timestamp msg) in
  String.string_of_list_ascii <$> header "dlq.source.topic" hs = Some (Topic msg) /\
  Atoi <$> header "dlq.source.partition" hs = Some (inl (Partition msg)) /\
  Atoi <$> header "dlq.source.offset" hs = Some (inl (Offset msg)) /\
  String.string_of_list_ascii <$> header "dlq.error.reason" hs = Some reason.
Proof.
  intros Hp Ho. unfold header, dlq_message, buildDLQHeaders. cbn [pmHeaders app List.find].
  cbn [HeaderKey String.eqb Ascii.eqb Bool.eqb]. unfold string_bytes. cbn [fmap option_fmap option_map].
  rewrite !chars_bytes_back. rewrite !Atoi_FormatInt by done.
  by rewrite !String.string_of_list_ascii_of_string.
Qed.

Definition source : Message :=
  mkMessage "orders" 3 (- 1) (Some []) None 0 [mkHeader "dlq.source.offset" None] 0.

Lemma dlq_source_roundtrip_witness :
  Atoi <$> header "dlq.source.partition" (pmHeaders (dlq_message "dead" "bad" "now" source)) =
    Some (inl 3) /\
  Atoi <$> header "dlq.source.offset" (pmHeaders (dlq_message "dead" "bad" "now" source)) =
    Some (inl (- 1)).
Proof.
  destruct (dlq_source_roundtrip "dead" "bad" "now" source) as (_ & Hp & Ho & _).
  - unfold in_int64, min_int64, max_int64. simpl. lia.
  - unfold in_int64, min_int64, max_int64. simpl. lia.
  - split; [exact Hp|exact Ho].
Defined.
