(* ===== verification/Consumer.v ===== *)
(** The public package: configuration and its validation
    ([consumer/config.go], [security.go], [dispatch_mode.go]), how it is
    mapped to the internal components' configurations
    ([consumer/consumer.go], [internal/kafka/config.go]), the Kubernetes
    grace period check ([consumer/k8s.go]) and the health probes
    ([internal/server/server.go]). *)
From S2P Require Import Prelude Types Strconv Degraded.
From S2P Require OffsetCoordinator Dispatcher PollLoop.

(** * Configuration *)

Definition DispatchMode := Z.
Definition Unordered : DispatchMode := 0.
Definition PartitionOrdered : DispatchMode := 1.
Definition KeyOrdered : DispatchMode := 2.

Definition DispatchMode_String (m : DispatchMode) : string :=
  if m =? Unordered then "unordered"
  else if m =? PartitionOrdered then "partition-ordered"
  else if m =? KeyOrdered then "key-ordered"
  else "unknown".

Definition ProtocolPlaintext : string := "plaintext".
Definition ProtocolSSL : string := "ssl".
Definition ProtocolSASLPlaintext : string := "sasl_plaintext".
Definition ProtocolSASLSSL : string := "sasl_ssl".

Definition SASLPlain : string := "PLAIN".
Definition SASLSCRAMSHA256 : string := "SCRAM-SHA-256".
Definition SASLSCRAMSHA512 : string := "SCRAM-SHA-512".
Definition SASLOAuthBearer : string := "OAUTHBEARER".

(** [TLSConfig], [SASLConfig] and [SecurityConfig] of [consumer]; those of
    [internal/kafka] mirror them field by field. *)
Record TLSConfig := mkTLS {
  CAFile : string;
  CertFile : string;
  KeyFile : string;
  InsecureSkipVerify : bool
}.

Record SASLConfig := mkSASL {
  Mechanism : string;
  Username : string;
  Password : string;
  OAuthBearerConfig : string
}.

Record SecurityConfig := mkSecurity {
  Protocol : string;
  TLS : option TLSConfig;
  SASL : option SASLConfig
}.

Record Config := mkConfig {
  Brokers : list string;
  Topics : list string;
  GroupID : string;
  Mode : DispatchMode;
  WorkerCount : Z;
  ChannelCap : Z;
  BatchSize : Z;
  LingerTime : Z;
  MaxRetries : Z;
  PollInterval : Z;
  CommitInterval : Z;
  CommitFailureThreshold : Z;
  ShutdownTimeout : Z;
  PreStopDelay : Z;
  CBMinRequests : Z;
  CBFailureThreshold : spec_float;
  CBOpenTimeout : Z;
  CBMaxRequests : Z;
  CBInterval : Z;
  DLQTopic : string;
  LagReportInterval : Z;
  HealthAddr : string;
  Security : SecurityConfig
}.

Definition no_security : SecurityConfig := mkSecurity "" None None.

Definition DefaultConfig : Config :=
  mkConfig [] [] "" Unordered 4 100 50 (100 * Millisecond) 3 (100 * Millisecond) (5 * Second) 3
    (25 * Second) 0 3 Dispatcher.float_0_6 (30 * Second) 1 (60 * Second) "" (10 * Second) ":8080"
    no_security.

(** * Validation *)

(** [%q] of a string of printable ASCII without quotes and backslashes, which
    it encloses in quotes. *)
Definition quoted (s : string) : string :=
  let q := String (ascii_of_nat 34) EmptyString in q +:+ s +:+ q.

Definition is_empty (s : string) : bool := String.eqb s "".

Definition validateTLS (s : SecurityConfig) : option error :=
  match TLS s with
  | None => Some (Leaf "TLS configuration must be provided")
  | Some t =>
      if is_empty (CAFile t) && negb (InsecureSkipVerify t)
      then Some (Leaf "either CAFile or InsecureSkipVerify must be set")
      else if xorb (is_empty (CertFile t)) (is_empty (KeyFile t))
      then Some (Leaf "CertFile and KeyFile must both be set for mutual TLS")
      else None
  end.

Definition validateSASL (s : SecurityConfig) : option error :=
  match SASL s with
  | None => Some (Leaf "SASL configuration must be provided")
  | Some a =>
      if String.eqb (Mechanism a) SASLPlain || String.eqb (Mechanism a) SASLSCRAMSHA256
         || String.eqb (Mechanism a) SASLSCRAMSHA512 then
        if is_empty (Username a) then Some (Leaf ("SASL " +:+ Mechanism a +:+ " requires username"))
        else if is_empty (Password a)
        then Some (Leaf ("SASL " +:+ Mechanism a +:+ " requires password"))
        else None
      else if String.eqb (Mechanism a) SASLOAuthBearer then None
      else Some (Leaf ("unknown SASL mechanism " +:+ quoted (Mechanism a)))
  end.

Definition requires (s : SecurityConfig) (what : string) (e : error) : error :=
  Wrap ("security: protocol " +:+ quoted (Protocol s) +:+ " requires " +:+ what +:+ ": ") e.

Definition SecurityConfig_Validate (s : SecurityConfig) : option error :=
  if String.eqb (Protocol s) ProtocolPlaintext || is_empty (Protocol s) then None
  else if String.eqb (Protocol s) ProtocolSSL then requires s "TLS" <$> validateTLS s
  else if String.eqb (Protocol s) ProtocolSASLPlaintext then requires s "SASL" <$> validateSASL s
  else if String.eqb (Protocol s) ProtocolSASLSSL then
    match validateTLS s with
    | Some e => Some (requires s "TLS" e)
    | None => requires s "SASL" <$> validateSASL s
    end
  else Some (Leaf ("security: unknown protocol " +:+ quoted (Protocol s))).

Definition float_0 : spec_float := S754_zero false.
Definition float_1 : spec_float := S754_finite false 4503599627370496 (-52).

(** The first check that fails. *)
Fixpoint first_failing (checks : list (bool * string)) : option error :=
  match checks with
  | [] => None
  | (bad, text) :: rest => if bad then Some (Leaf ("config: " +:+ text)) else first_failing rest
  end.

Definition checks (c : Config) : list (bool * string) :=
  [(len (Brokers c) =? 0, "at least one broker address is required");
   (len (Topics c) =? 0, "at least one topic is required");
   (is_empty (GroupID c), "group ID is required");
   (WorkerCount c <=? 0, "worker count must be positive");
   (ChannelCap c <=? 0, "channel capacity must be positive");
   (BatchSize c <=? 0, "batch size must be positive");
   (LingerTime c <=? 0, "linger time must be positive");
   (MaxRetries c <? 0, "max retries must be non-negative");
   (PollInterval c <=? 0, "poll interval must be positive");
   (CommitInterval c <=? 0, "commit interval must be positive");
   (CommitFailureThreshold c <=? 0, "commit failure threshold must be positive");
   (ShutdownTimeout c <=? 0, "shutdown timeout must be positive");
   (PreStopDelay c <? 0, "pre-stop delay must not be negative");
   (SFleb (CBFailureThreshold c) float_0 || SFltb float_1 (CBFailureThreshold c),
    "circuit breaker failure threshold must be between 0 and 1 (exclusive/inclusive)");
   (CBOpenTimeout c <=? 0, "circuit breaker open timeout must be positive");
   (CBMinRequests c <=? 0, "circuit breaker min requests must be positive");
   (CBMaxRequests c <=? 0, "circuit breaker max requests must be positive");
   (CBInterval c <=? 0, "circuit breaker interval must be positive");
   (LagReportInterval c <=? 0, "lag report interval must be positive")].

Definition Validate (c : Config) : option error :=
  match first_failing (checks c) with
  | Some e => Some e
  | None => SecurityConfig_Validate (Security c)
  end.

(** [New], of a processor that may be nil. *)
Definition New (c : Config) (has_processor : bool) : Config + error :=
  if negb has_processor then inr (Leaf "consumer: batch processor must not be nil")
  else match Validate c with Some e => inr e | None => inl c end.

(** * Mapping to the components *)

Definition dispatcher_config (c : Config) : Dispatcher.Config :=
  Dispatcher.mkConfig (WorkerCount c) (ChannelCap c) (BatchSize c) (LingerTime c) (MaxRetries c)
    (CBMinRequests c) (CBFailureThreshold c) (CBOpenTimeout c) (CBMaxRequests c) (CBInterval c).

(** [createDispatcher]: the dispatcher's configuration, or why none. *)
Definition createDispatcher (c : Config) : Dispatcher.Config + error :=
  if Mode c =? Unordered then inl (dispatcher_config c)
  else if (Mode c =? PartitionOrdered) || (Mode c =? KeyOrdered)
  then inr (Leaf ("dispatch mode " +:+ quoted (DispatchMode_String (Mode c)) +:+
                  " is not yet implemented"))
  else inr (Leaf ("unknown dispatch mode: " +:+ String.string_of_list_ascii (FormatInt (Mode c)))).

Definition pollloop_config (c : Config) : PollLoop.Config :=
  PollLoop.mkConfig (PollInterval c) (CommitInterval c) (CommitFailureThreshold c)
    (ShutdownTimeout c).

(** [AdapterConfig] of [internal/kafka]. *)
Record AdapterConfig := mkAdapterConfig {
  acBrokers : list string;
  acGroupID : string;
  acTopics : list string;
  acSecurity : SecurityConfig;
  acLagReportInterval : Z
}.

(** The copies of the pointed-to structs. *)
Definition mapSecurityConfig (c : Config) : SecurityConfig :=
  let s := Security c in
  mkSecurity (Protocol s)
    ((fun t => mkTLS (CAFile t) (CertFile t) (KeyFile t) (InsecureSkipVerify t)) <$> TLS s)
    ((fun a => mkSASL (Mechanism a) (Username a) (Password a) (OAuthBearerConfig a)) <$> SASL s).

Definition mapKafkaConfig (c : Config) : AdapterConfig :=
  mkAdapterConfig (Brokers c) (GroupID c) (Topics c) (mapSecurityConfig c) (LagReportInterval c).

(** * The client's configuration map ([internal/kafka/config.go]) *)

Inductive ConfigValue := CString (s : string) | CBool (b : bool) | CInt (n : Z).
Abbreviation ConfigMap := (gmap string ConfigValue).

Fixpoint Join (sep : string) (l : list string) : string :=
  match l with
  | [] => ""
  | [s] => s
  | s :: l => s +:+ sep +:+ Join sep l
  end.

(** A key that the client library keeps in the map itself. *)
Definition plain_key (k : string) : bool := negb (String.prefix "{topic}." k).

Section KafkaConfig.
(** [ConfigMap.SetKey] is the client library's. *)
Variable SetKey : string -> ConfigValue -> ConfigMap -> ConfigMap + error.

(** Set a key if [when] holds; the error is wrapped. *)
Definition set_when (when : bool) (key : string) (v : ConfigValue) (m : ConfigMap + error)
  : ConfigMap + error :=
  match m with
  | inr e => inr e
  | inl m =>
      if when then
        match SetKey key v m with
        | inl m' => inl m'
        | inr e => inr (Wrap ("set " +:+ key +:+ ": ") e)
        end
      else inl m
  end.

Definition nonempty (s : string) : bool := negb (is_empty s).

Definition applyTLS (t : TLSConfig) (m : ConfigMap + error) : ConfigMap + error :=
  set_when (InsecureSkipVerify t) "enable.ssl.certificate.verification" (CBool false)
    (set_when (nonempty (KeyFile t)) "ssl.key.location" (CString (KeyFile t))
      (set_when (nonempty (CertFile t)) "ssl.certificate.location" (CString (CertFile t))
        (set_when (nonempty (CAFile t)) "ssl.ca.location" (CString (CAFile t)) m))).

Definition applySASL (a : SASLConfig) (m : ConfigMap + error) : ConfigMap + error :=
  set_when (nonempty (OAuthBearerConfig a)) "sasl.oauthbearer.config" (CString (OAuthBearerConfig a))
    (set_when (nonempty (Password a)) "sasl.password" (CString (Password a))
      (set_when (nonempty (Username a)) "sasl.username" (CString (Username a))
        (set_when true "sasl.mechanism" (CString (Mechanism a)) m))).

Definition applySecurity (m : ConfigMap) (sec : SecurityConfig) : ConfigMap + error :=
  let protocol := if is_empty (Protocol sec) then "plaintext" else Protocol sec in
  let m1 := set_when true "security.protocol" (CString protocol) (inl m) in
  let m2 := match TLS sec with Some t => applyTLS t m1 | None => m1 end in
  match SASL sec with Some a => applySASL a m2 | None => m2 end.

Definition base_config (cfg : AdapterConfig) : ConfigMap :=
  list_to_map
    [("bootstrap.servers", CString (Join "," (acBrokers cfg)));
     ("group.id", CString (acGroupID cfg));
     ("enable.auto.commit", CBool false);
     ("partition.assignment.strategy", CString "cooperative-sticky");
     ("auto.offset.reset", CString "earliest");
     ("go.application.rebalance.enable", CBool true);
     ("statistics.interval.ms", CInt (acLagReportInterval cfg ÷ Millisecond))].

Definition BuildConsumerConfig (cfg : AdapterConfig) : ConfigMap + error :=
  match applySecurity (base_config cfg) (acSecurity cfg) with
  | inl m => inl m
  | inr e => inr (Wrap "kafka config: " e)
  end.

(** [SetKey] stores the value under the key, unless the key is one of the
    [{topic}.] keys, which it files elsewhere and which are not used here. *)
Hypothesis SetKey_stores : forall k v m, plain_key k = true -> SetKey k v m = inl (<[k := v]> m).

Lemma set_when_lookup k when key v m :
  plain_key key = true -> exists m', set_when when key v (inl m) = inl m' /\
    m' !! k = if when && String.eqb k key then Some v else m !! k.
Proof.
  intros Hp. unfold set_when. destruct when; [|by exists m]. rewrite SetKey_stores by done. eexists. split; [done|].
  simpl. destruct (String.eqb_spec k key) as [->|Hne]; [apply lookup_insert_eq|].
  by apply lookup_insert_ne.
Qed.

(** What the security settings add, as a function of the key. *)
Definition tls_value (t : TLSConfig) (k : string) : option ConfigValue :=
  if InsecureSkipVerify t && String.eqb k "enable.ssl.certificate.verification" then Some (CBool false)
  else if nonempty (KeyFile t) && String.eqb k "ssl.key.location" then Some (CString (KeyFile t))
  else if nonempty (CertFile t) && String.eqb k "ssl.certificate.location" then Some (CString (CertFile t))
  else if nonempty (CAFile t) && String.eqb k "ssl.ca.location" then Some (CString (CAFile t))
  else None.

Definition sasl_value (a : SASLConfig) (k : string) : option ConfigValue :=
  if nonempty (OAuthBearerConfig a) && String.eqb k "sasl.oauthbearer.config"
  then Some (CString (OAuthBearerConfig a))
  else if nonempty (Password a) && String.eqb k "sasl.password" then Some (CString (Password a))
  else if nonempty (Username a) && String.eqb k "sasl.username" then Some (CString (Username a))
  else if String.eqb k "sasl.mechanism" then Some (CString (Mechanism a))
  else None.

Definition or_else {A} (x y : option A) : option A := match x with Some _ => x | None => y end.

(** One [set_when] after the other, looking at the key [k]. *)
Ltac set_step k m' Hm' :=
  match goal with
  | |- context [set_when ?w ?key ?v (inl ?m)] =>
      let E := fresh in destruct (set_when_lookup k w key v m eq_refl) as (m' & E & Hm'); rewrite E; clear E
  end.

Lemma applyTLS_lookup t m k :
  exists m', applyTLS t (inl m) = inl m' /\ m' !! k = or_else (tls_value t k) (m !! k).
Proof.
  unfold applyTLS, tls_value. set_step k m1 H1. set_step k m2 H2. set_step k m3 H3. set_step k m4 H4.
  exists m4. split; [done|]. rewrite H4, H3, H2, H1. by repeat destruct (_ && _).
Qed.

Lemma applySASL_lookup a m k :
  exists m', applySASL a (inl m) = inl m' /\ m' !! k = or_else (sasl_value a k) (m !! k).
Proof.
  unfold applySASL, sasl_value. set_step k m1 H1. set_step k m2 H2. set_step k m3 H3. set_step k m4 H4.
  exists m4. split; [done|]. rewrite H4, H3, H2, H1, andb_true_l.
  repeat case_match; done.
Qed.

(** What they add to any map. *)
Definition security_value (sec : SecurityConfig) (k : string) : option ConfigValue :=
  or_else (match SASL sec with Some a => sasl_value a k | None => None end)
    (or_else (match TLS sec with Some t => tls_value t k | None => None end)
      (if String.eqb k "security.protocol"
       then Some (CString (if is_empty (Protocol sec) then "plaintext" else Protocol sec)) else None)).

Lemma applySecurity_lookup m sec k :
  exists m', applySecurity m sec = inl m' /\ m' !! k = or_else (security_value sec k) (m !! k).
Proof.
  unfold applySecurity, security_value. set_step k m1 H1. rewrite andb_true_l in H1.
  assert (H2 : exists m2, (match TLS sec with Some t => applyTLS t (inl m1) | None => inl m1 end) = inl m2 /\
    m2 !! k = or_else (match TLS sec with Some t => tls_value t k | None => None end) (m1 !! k)).
  { destruct (TLS sec) as [t|]; [apply applyTLS_lookup|by exists m1]. }
  destruct H2 as (m2 & -> & H2).
  destruct (SASL sec) as [a|].
  - destruct (applySASL_lookup a m2 k) as (m3 & -> & H3). exists m3. split; [done|].
    rewrite H3, H2, H1. destruct (sasl_value a k), (match TLS sec with Some _ => _ | None => _ end); try done;
      by destruct (String.eqb k _).
  - exists m2. split; [done|]. rewrite H2, H1.
    destruct (match TLS sec with Some _ => _ | None => _ end); [done|]. by destruct (String.eqb k _).
Qed.

(** The value of every key of the built map. *)
Definition config_value (cfg : AdapterConfig) (k : string) : option ConfigValue :=
  or_else (security_value (acSecurity cfg) k) (base_config cfg !! k).

Lemma BuildConsumerConfig_lookup cfg k :
  exists m, BuildConsumerConfig cfg = inl m /\ m !! k = config_value cfg k.
Proof.
  unfold BuildConsumerConfig. destruct (applySecurity_lookup (base_config cfg) (acSecurity cfg) k)
    as (m & -> & Hm). by exists m.
Qed.

(** The keys the security settings can set. *)
Definition security_keys : list string :=
  ["security.protocol"; "ssl.ca.location"; "ssl.certificate.location"; "ssl.key.location";
   "enable.ssl.certificate.verification"; "sasl.mechanism"; "sasl.username"; "sasl.password";
   "sasl.oauthbearer.config"].
Definition credential_keys : list string :=
  ["sasl.mechanism"; "sasl.username"; "sasl.password"; "sasl.oauthbearer.config"].

Lemma not_security_key sec k : k ∉ security_keys -> security_value sec k = None.
Proof.
  unfold security_keys. rewrite !not_elem_of_cons. intros (H1 & H2 & H3 & H4 & H5 & H6 & H7 & H8 & H9 & _).
  unfold security_value. apply String.eqb_neq in H1, H2, H3, H4, H5, H6, H7, H8, H9. rewrite H1.
  destruct (SASL sec) as [a|], (TLS sec) as [t|]; unfold sasl_value, tls_value;
    by rewrite ?H2, ?H3, ?H4, ?H5, ?H6, ?H7, ?H8, ?H9, ?andb_false_r.
Qed.

Lemma security_protocol sec :
  security_value sec "security.protocol" =
  Some (CString (if is_empty (Protocol sec) then "plaintext" else Protocol sec)).
Proof.
  unfold security_value. destruct (SASL sec) as [a|], (TLS sec) as [t|]; unfold sasl_value, tls_value;
    simpl; by rewrite ?andb_false_r.
Qed.

Lemma no_credentials sec k : SASL sec = None -> k ∈ credential_keys -> security_value sec k = None.
Proof.
  intros HS Hk. unfold security_value. rewrite HS. unfold credential_keys in Hk.
  rewrite !elem_of_cons, elem_of_nil in Hk.
  destruct Hk as [->|[->|[->|[->|[]]]]]; destruct (TLS sec); unfold tls_value; simpl; by rewrite ?andb_false_r.
Qed.

(** C37. The guarantees of the pipeline are in the client's configuration,
    whatever the security settings: offsets are never committed
    automatically, a new group starts at the earliest offset, rebalances
    are cooperative and delivered to the application; the protocol is
    plaintext only when none is set; and no credential reaches the map
    unless SASL is configured. *)
Theorem BuildConsumerConfig_guarantees cfg :
  exists m, BuildConsumerConfig cfg = inl m /\
    m !! "enable.auto.commit" = Some (CBool false) /\
    m !! "auto.offset.reset" = Some (CString "earliest") /\
    m !! "partition.assignment.strategy" = Some (CString "cooperative-sticky") /\
    m !! "go.application.rebalance.enable" = Some (CBool true) /\
    m !! "security.protocol" =
      Some (CString (if is_empty (Protocol (acSecurity cfg)) then "plaintext"
                     else Protocol (acSecurity cfg))) /\
    (SASL (acSecurity cfg) = None ->
       forall k, k ∈ credential_keys -> m !! k = None).
Proof.
  destruct (BuildConsumerConfig_lookup cfg "group.id") as (m & Hm & _).
  assert (Hall : forall k, m !! k = config_value cfg k).
  { intros k. destruct (BuildConsumerConfig_lookup cfg k) as (m' & Hm' & Hk). congruence. }
  exists m. split; [done|].
  split_and!; try (rewrite Hall; unfold config_value; rewrite not_security_key; [reflexivity|];
                   by apply (bool_decide_unpack _)).
  - rewrite Hall. unfold config_value. by rewrite security_protocol.
  - intros HS k Hk. rewrite Hall. unfold config_value. rewrite no_credentials by done.
    unfold credential_keys in Hk. rewrite !elem_of_cons, elem_of_nil in Hk.
    by destruct Hk as [->|[->|[->|[->|[]]]]].
Qed.
End KafkaConfig.

(** * Kubernetes ([consumer/k8s.go]) *)

Definition gracePeriodSafetyBuffer : Z := 10 * Second.

(** The warnings logged. *)
Inductive warning :=
| InvalidGracePeriod (value : string)
| GracePeriodUnset (minimum : Z)
| GracePeriodTooSmall (configured minimum : Z).

(** [readGracePeriodEnv], of the variable's value if it is set; the product
    is an [int64]. *)
Definition readGracePeriodEnv (raw : option string) : option Z * list warning :=
  match raw with
  | None => (None, [])
  | Some raw =>
      match Atoi (TrimSpace (String.list_ascii_of_string raw)) with
      | inl secs => if secs <=? 0 then (None, [InvalidGracePeriod raw])
                    else (Some (wrap64 (secs * Second)), [])
      | inr _ => (None, [InvalidGracePeriod raw])
      end
  end.

(** [KUBERNETES_SERVICE_HOST] (empty when unset) and
    [TERMINATION_GRACE_PERIOD_SECONDS]. *)
Definition warnKubernetesGracePeriod (c : Config) (serviceHost : string) (grace : option string)
  : list warning :=
  if is_empty serviceHost then []
  else
    let minimum := wrap64 (wrap64 (ShutdownTimeout c + PreStopDelay c) + gracePeriodSafetyBuffer) in
    let '(configured, warnings) := readGracePeriodEnv grace in
    match configured with
    | None => warnings ++ match grace with None => [GracePeriodUnset minimum] | Some _ => [] end
    | Some configured =>
        warnings ++ (if configured <? minimum then [GracePeriodTooSmall configured minimum] else [])
    end.

(** * Health probes ([internal/server/server.go]) *)

(** The status and the body of the response. *)
Definition healthzHandler (h : Health) : Z * string :=
  if IsLive h then (200, "ok") else (503, "not live").
Definition readyzHandler (h : Health) : Z * string :=
  if IsReady h then (200, "ok") else (503, "not ready").

(** * Properties *)

(** What [Validate] promises of a configuration. *)
Record valid_config (c : Config) : Prop := {
  vc_brokers : Brokers c <> [];
  vc_topics : Topics c <> [];
  vc_group : GroupID c <> "";
  vc_positive : 0 < WorkerCount c /\ 0 < ChannelCap c /\ 0 < BatchSize c /\ 0 < LingerTime c /\
    0 < PollInterval c /\ 0 < CommitInterval c /\ 0 < CommitFailureThreshold c /\
    0 < ShutdownTimeout c /\ 0 < CBOpenTimeout c /\ 0 < CBMinRequests c /\ 0 < CBMaxRequests c /\
    0 < CBInterval c /\ 0 < LagReportInterval c;
  vc_nonneg : 0 <= MaxRetries c /\ 0 <= PreStopDelay c;
  vc_threshold : CBFailureThreshold c = S754_nan \/
    (SFltb float_0 (CBFailureThreshold c) = true /\ SFleb (CBFailureThreshold c) float_1 = true)
}.

(** The comparisons of [Validate] are false of NaN, which passes. *)
Lemma threshold_passes t : SFleb t float_0 = false /\ SFltb float_1 t = false <->
  t = S754_nan \/ (SFltb float_0 t = true /\ SFleb t float_1 = true).
Proof.
  unfold float_1. generalize 4503599627370496%positive as one. intros one.
  destruct t as [s|[|]| |[|] m e]; unfold SFleb, SFltb, float_0, SFcompare; [intuition discriminate..|].
  rewrite (Z.compare_antisym e (-52)). destruct (e ?= -52); cbn [CompOpp]; [|intuition discriminate..].
  pose proof (Pos.compare_cont_antisym m one Eq) as E. cbn [CompOpp] in E. rewrite <- E.
  destruct (Pos.compare_cont Eq m one); cbn [CompOpp]; intuition discriminate.
Qed.

Lemma len_zero {A} (l : list A) : (len l =? 0) = false <-> l <> [].
Proof. unfold len. destruct l; simpl; split; intros; [done|done|done|lia]. Qed.

Lemma empty_false s : is_empty s = false <-> s <> "".
Proof. apply String.eqb_neq. Qed.

Lemma first_failing_none l : first_failing l = None <-> Forall (fun bt => bt.1 = false) l.
Proof.
  induction l as [|[[|] t] l IH]; simpl; [by split; [constructor|]|..].
  - split; [done|]. by inversion 1.
  - rewrite IH. split; [by constructor|by inversion 1].
Qed.

Lemma checks_valid c : first_failing (checks c) = None <-> valid_config c.
Proof.
  rewrite first_failing_none. unfold checks. rewrite !Forall_cons, Forall_nil. simpl.
  rewrite !len_zero, empty_false, !Z.leb_gt, !Z.ltb_ge, orb_false_iff, threshold_passes.
  split; [intros; constructor; tauto|intros []; tauto].
Qed.

Lemma New_valid c has_processor c' :
  New c has_processor = inl c' -> c' = c /\ has_processor = true /\ valid_config c.
Proof.
  unfold New, Validate. destruct has_processor; cbn [negb]; [|done].
  destruct (first_failing (checks c)) as [e|] eqn:Ec; [done|]. apply checks_valid in Ec.
  destruct (SecurityConfig_Validate (Security c)); naive_solver.
Qed.

(** C35. What [New] accepts: a consumer is created exactly when a processor
    is given, every field is in range - the failure threshold above 0 and at
    most 1, or NaN, which the comparisons of [Validate] let through - and the
    security settings are consistent; and then, provided the dispatch mode is
    the implemented one, the dispatcher and the poll loop get the mapped
    configurations, with a positive batch size, channel capacity and commit
    failure threshold and no negative retry count.  (That the channel has a
    slot for each partition is not checked: how many partitions there will be
    is not known then.) *)
Theorem New_accepts c has_processor :
  (New c has_processor = inl c <->
     has_processor = true /\ valid_config c /\ SecurityConfig_Validate (Security c) = None) /\
  (valid_config c -> Mode c = Unordered ->
     createDispatcher c = inl (dispatcher_config c) /\
     0 < Dispatcher.BatchSize (dispatcher_config c) /\ 0 < Dispatcher.ChannelCap (dispatcher_config c) /\
     0 <= Dispatcher.MaxRetries (dispatcher_config c) /\
     0 < PollLoop.CommitFailureThreshold (pollloop_config c)).
Proof.
  split.
  - unfold New, Validate. destruct has_processor; cbn [negb]; [|naive_solver].
    destruct (first_failing (checks c)) as [e|] eqn:Ec.
    + split; [intros [=]|]. intros (_ & Hv & _). apply checks_valid in Hv. congruence.
    + apply checks_valid in Ec. destruct (SecurityConfig_Validate (Security c)); naive_solver.
  - intros Hv Hm. unfold createDispatcher. rewrite Hm. destruct Hv. simpl. tauto.
Qed.

Definition demo_config : Config :=
  mkConfig ["localhost:9092"] ["events"] "service" Unordered 4 100 50 (100 * Millisecond) 3
    (100 * Millisecond) (5 * Second) 3 (25 * Second) 0 3 Dispatcher.float_0_6 (30 * Second) 1
    (60 * Second) "dead" (10 * Second) ":8080" no_security.

Lemma demo_valid : valid_config demo_config.
Proof. by apply checks_valid. Qed.

Lemma New_accepts_witness :
  New demo_config true = inl demo_config /\
  createDispatcher demo_config = inl (dispatcher_config demo_config) /\
  0 < Dispatcher.BatchSize (dispatcher_config demo_config).
Proof.
  destruct (New_accepts demo_config true) as [H1 H2].
  split; [apply H1; split_and!; [done|exact demo_valid|done]|].
  destruct (H2 demo_valid eq_refl) as (Hc & Hb & _). by split.
Defined.

(** A threshold that is not a number passes validation: both
    comparisons are false of NaN. *)
Theorem nan_threshold_accepted :
  SecurityConfig_Validate no_security = None /\
  let c := mkConfig ["localhost:9092"] ["events"] "service" Unordered 4 100 50 (100 * Millisecond) 3
    (100 * Millisecond) (5 * Second) 3 (25 * Second) 0 3 S754_nan (30 * Second) 1
    (60 * Second) "" (10 * Second) ":8080" no_security in
  New c true = inl c.
Proof. split; reflexivity. Qed.

(** The security settings a protocol requires. *)
Definition tls_ok (s : SecurityConfig) : Prop :=
  exists t, TLS s = Some t /\ (CAFile t <> "" \/ InsecureSkipVerify t = true) /\
    (CertFile t = "" <-> KeyFile t = "").

Definition sasl_ok (s : SecurityConfig) : Prop :=
  exists a, SASL s = Some a /\
    (Mechanism a = SASLOAuthBearer \/
     (Mechanism a ∈ [SASLPlain; SASLSCRAMSHA256; SASLSCRAMSHA512] /\ Username a <> "" /\
      Password a <> "")).

Lemma is_empty_spec s : Bool.reflect (s = "") (is_empty s).
Proof. apply String.eqb_spec. Qed.

Lemma validateTLS_ok s : validateTLS s = None <-> tls_ok s.
Proof.
  unfold validateTLS, tls_ok. destruct (TLS s) as [t|]; [|naive_solver].
  destruct (is_empty_spec (CAFile t)), (InsecureSkipVerify t) eqn:Ei,
    (is_empty_spec (CertFile t)), (is_empty_spec (KeyFile t)); simpl;
    (split; [intros ?; try done; exists t; intuition congruence
            |intros (? & ? & ? & ?); simplify_eq; try done; exfalso; intuition congruence]).
Qed.

Lemma validateSASL_ok s : validateSASL s = None <-> sasl_ok s.
Proof.
  unfold validateSASL, sasl_ok. destruct (SASL s) as [a|]; [|naive_solver].
  destruct (_ || _ || _) eqn:Em.
  - assert (Hm : Mechanism a ∈ [SASLPlain; SASLSCRAMSHA256; SASLSCRAMSHA512]).
    { rewrite !elem_of_cons, elem_of_nil. rewrite !orb_true_iff, !String.eqb_eq in Em. tauto. }
    assert (Hne : Mechanism a <> SASLOAuthBearer).
    { intros E. rewrite E in Em. done. }
    destruct (is_empty_spec (Username a)), (is_empty_spec (Password a)); simpl;
      (split; [intros ?; try done; exists a; tauto
              |intros (? & ? & ?); simplify_eq; try done; exfalso; tauto]).
  - assert (Hm : ~ Mechanism a ∈ [SASLPlain; SASLSCRAMSHA256; SASLSCRAMSHA512]).
    { rewrite !elem_of_cons, elem_of_nil. rewrite !orb_false_iff, !String.eqb_neq in Em. tauto. }
    destruct (String.eqb_spec (Mechanism a) SASLOAuthBearer); simpl;
      (split; [intros ?; try done; exists a; tauto
              |intros (? & ? & ?); simplify_eq; try done; exfalso; tauto]).
Qed.

(** C36. Which security settings are accepted: plaintext (or no protocol)
    with any others, TLS with a CA or the explicit opt-out and a certificate
    and key that come together, SASL with PLAIN or SCRAM and a user name and
    password or with OAUTHBEARER and nothing else (the OAuth configuration
    string is not required, though the documentation of the mechanism asks for
    it or a token provider), both for SASL over TLS, and no other
    protocol. *)
Theorem SecurityConfig_Validate_iff s :
  SecurityConfig_Validate s = None <->
  (Protocol s = "" \/ Protocol s = ProtocolPlaintext) \/
  (Protocol s = ProtocolSSL /\ tls_ok s) \/
  (Protocol s = ProtocolSASLPlaintext /\ sasl_ok s) \/
  (Protocol s = ProtocolSASLSSL /\ tls_ok s /\ sasl_ok s).
Proof.
  rewrite <- validateTLS_ok, <- validateSASL_ok. unfold SecurityConfig_Validate.
  assert (Hmap : forall what (o : option error), requires s what <$> o = None <-> o = None)
    by (intros what o; by destruct o).
  destruct (String.eqb_spec (Protocol s) ProtocolPlaintext) as [E|H1]; simpl; [tauto|].
  destruct (is_empty_spec (Protocol s)) as [E|H2]; [tauto|].
  destruct (String.eqb_spec (Protocol s) ProtocolSSL) as [E|H3].
  { rewrite Hmap, E. split; [tauto|]. by intros [[?|?]|[[_ ?]|[[? _]|[? _]]]]. }
  destruct (String.eqb_spec (Protocol s) ProtocolSASLPlaintext) as [E|H4].
  { rewrite Hmap, E. split; [tauto|]. by intros [[?|?]|[[? _]|[[_ ?]|[? _]]]]. }
  destruct (String.eqb_spec (Protocol s) ProtocolSASLSSL) as [E|H5]; [|split; [done|tauto]].
  destruct (validateTLS s) as [e|]; [split; [done|rewrite E; naive_solver]|].
  rewrite Hmap, E. split; [tauto|]. by intros [[?|?]|[[? _]|[[? _]|(_ & _ & ?)]]].
Qed.

(** The grace period warning is exact, short of overflow: inside
    Kubernetes, for a variable that (spaces aside) is a positive number of
    seconds, the consumer warns exactly when the grace period is shorter than
    the shutdown timeout, the pre-stop delay and ten seconds together, and
    outside Kubernetes never. *)
Theorem grace_period_warning c host raw secs :
  Atoi (TrimSpace (String.list_ascii_of_string raw)) = inl secs -> 0 < secs ->
  in_int64 (secs * Second) ->
  in_int64 (ShutdownTimeout c + PreStopDelay c) ->
  in_int64 (ShutdownTimeout c + PreStopDelay c + gracePeriodSafetyBuffer) ->
  let minimum := ShutdownTimeout c + PreStopDelay c + 10 * Second in
  warnKubernetesGracePeriod c host (Some raw) =
    if is_empty host then []
    else if secs * Second <? minimum then [GracePeriodTooSmall (secs * Second) minimum] else [].
Proof.
  intros Ha Hs H1 H2 H3 minimum. unfold warnKubernetesGracePeriod, readGracePeriodEnv.
  rewrite Ha. rewrite (proj2 (Z.leb_gt _ _) Hs). rewrite (wrap64_id _ H1), (wrap64_id _ H2), (wrap64_id _ H3).
  by destruct (is_empty host).
Qed.

Lemma grace_period_warning_witness :
  warnKubernetesGracePeriod demo_config "10.0.0.1" (Some " 30 ") =
    [GracePeriodTooSmall (30 * Second) (35 * Second)].
Proof.
  apply (grace_period_warning demo_config "10.0.0.1" " 30 " 30).
  - vm_compute. reflexivity.
  - lia.
  - vm_compute. split; discriminate.
  - vm_compute. split; discriminate.
  - vm_compute. split; discriminate.
Defined.

(** A huge grace period is taken for a negative one: 9223372037 seconds
    overflow [time.Duration], and the consumer warns that they are too few. *)
Theorem grace_period_overflows :
  warnKubernetesGracePeriod demo_config "10.0.0.1" (Some "9223372037") =
    [GracePeriodTooSmall (- 9223372036709551616) (35 * Second)].
Proof. vm_compute. reflexivity. Qed.

(** [SetKey] as the client library documents it. *)
Definition plain_SetKey (k : string) (v : ConfigValue) (m : ConfigMap) : ConfigMap + error :=
  inl (<[k := v]> m).

Lemma BuildConsumerConfig_guarantees_witness :
  exists m, BuildConsumerConfig plain_SetKey (mapKafkaConfig demo_config) = inl m /\
    m !! "enable.auto.commit" = Some (CBool false) /\
    m !! "sasl.password" = None.
Proof.
  destruct (BuildConsumerConfig_guarantees plain_SetKey (fun _ _ _ _ => eq_refl)
              (mapKafkaConfig demo_config)) as (m & Hm & Hc & _ & _ & _ & _ & Hs).
  exists m. split_and!; [exact Hm|exact Hc|].
  apply (Hs eq_refl). apply list_elem_of_In. simpl. tauto.
Defined.
