(* ===== verification/Setup.v ===== *)
(** How the components are set up: the functional options of every package,
    the registration of the metrics ([internal/metrics]), and the constructors
    with their checks: the dispatcher with the breaker's settings, the poll
    loop, the Kafka adapter, the DLQ producer and the health server.  Loggers,
    the Prometheus client and the Kafka client are the environment. *)
From S2P Require Import Prelude Types Strconv Degraded.
From S2P Require OffsetCoordinator Dispatcher Worker PollLoop KafkaAdapter DLQ Consumer.

(** What is not under the repository: structured loggers ([With] adds the
    component attribute), registries, and [ConfigMap.SetKey]. *)
Class Libraries := {
  Logger : Type;
  slog_Default : Logger;
  With : string -> Logger -> Logger;
  Registerer : Type;
  DefaultRegisterer : Registerer;
  Gatherer : Type;
  DefaultGatherer : Gatherer;
  as_gatherer : Registerer -> option Gatherer;   (* reg.(prometheus.Gatherer) *)
  SetKey : string -> Consumer.ConfigValue -> Consumer.ConfigMap -> Consumer.ConfigMap + error
}.

(** Apply functional options, in order. *)
Definition configure {O} (opts : list (O -> O)) (defaults : O) : O :=
  foldl (fun o opt => opt o) defaults opts.

(** * Metrics *)

Module metrics.
Inductive kind := CounterKind | GaugeKind | HistogramKind.

(** What is registered: its kind, its name and its labels. *)
Record desc := mkDesc { metric : kind; name : string; labels : list string }.

Definition MessagesProcessedTotal : string := "kafka_consumer_messages_processed_total".
Definition MessageDelaySeconds : string := "kafka_consumer_message_delay_seconds".
Definition ProcessingTimeSeconds : string := "kafka_consumer_processing_time_seconds".
Definition RecordAgeSeconds : string := "kafka_consumer_record_age_seconds".
Definition InflightMessages : string := "kafka_consumer_inflight_messages".
Definition CircuitBreakerState : string := "kafka_consumer_circuit_breaker_state".
Definition WorkersActive : string := "kafka_consumer_workers_active".
Definition DLQMessagesTotal : string := "kafka_consumer_dlq_messages_total".

Definition dispatcher_descs : list desc :=
  [mkDesc CounterKind MessagesProcessedTotal ["status"; "partition"];
   mkDesc HistogramKind MessageDelaySeconds ["partition"];
   mkDesc HistogramKind ProcessingTimeSeconds ["partition"];
   mkDesc HistogramKind RecordAgeSeconds ["partition"];
   mkDesc GaugeKind InflightMessages ["partition"];
   mkDesc GaugeKind CircuitBreakerState [];
   mkDesc GaugeKind WorkersActive [];
   mkDesc CounterKind DLQMessagesTotal ["reason"; "partition"]].

Definition MessagesPolledTotal : string := "kafka_consumer_messages_polled_total".
Definition PollErrorsTotal : string := "kafka_consumer_poll_errors_total".
Definition CommitsTotal : string := "kafka_consumer_commits_total".
Definition CommitFailuresTotal : string := "kafka_consumer_commit_failures_total".
Definition DegradedMode : string := "kafka_consumer_degraded_mode".
Definition PartitionsAssigned : string := "kafka_consumer_partitions_assigned".
Definition RebalancesTotal : string := "kafka_consumer_rebalances_total".
Definition LastCommittedOffset : string := "kafka_consumer_last_committed_offset".
Definition PartitionsPaused : string := "kafka_consumer_partitions_paused".

Definition pollloop_descs : list desc :=
  [mkDesc CounterKind MessagesPolledTotal ["partition"];
   mkDesc CounterKind PollErrorsTotal [];
   mkDesc CounterKind CommitsTotal ["partition"];
   mkDesc CounterKind CommitFailuresTotal [];
   mkDesc GaugeKind DegradedMode [];
   mkDesc GaugeKind PartitionsAssigned [];
   mkDesc CounterKind RebalancesTotal [];
   mkDesc GaugeKind LastCommittedOffset ["partition"];
   mkDesc GaugeKind PartitionsPaused []].

Definition ConsumerLag : string := "kafka_consumer_lag".
Definition lag_descs : list desc := [mkDesc GaugeKind ConsumerLag ["group"; "topic"; "partition"]].
End metrics.

(** * The outside of [Consumer.Run]

    The Prometheus registry, the Kafka client, the environment, the network
    and the goroutines that are started. *)

(** What the poll loop runs on, once assembled. *)
Record assembled := mkAssembled {
  asDispatcherCfg : Dispatcher.Config;
  asDispatcher : Dispatcher.UnorderedDispatcher OffsetCoordinator.coordinator;
  asHasDLQ : bool;
  asLoopCfg : PollLoop.Config;
  asLoop : PollLoop.PollLoop;
  asAdapter : KafkaAdapter.Adapter
}.

Section Setup.
Context `{Libraries}.

(** [RunPollLoop] starts the poll loop, and answers what its [select] will
    receive until the context is done; [LoopAsks] is a question of the loop
    to the adapter, the dispatcher or the coordinator, whose work together is
    the subject of [System]. *)
Inductive world : Type -> Type :=
| Register (reg : Registerer) (d : metrics.desc) : world (option error)
| Getenv (key : string) : world string
| LookupEnv (key : string) : world (option string)
| NewConsumer (m : Consumer.ConfigMap) : world (option error)
| SubscribeTopics (topics : list string) : world (option error)
| CloseConsumer : world (option error)
| NewProducer (m : Consumer.ConfigMap) : world (option error)
| GoDrainEvents : world unit
| Flush (timeoutMs : Z) : world unit
| CloseProducer : world unit
| GoWorkers (n : Z) : world unit
| GoListenAndServe : world unit
| ShutdownServer (timeout : Z) : world (option error)
| RunPollLoop (a : assembled) : world (list PollLoop.event)
| LoopAsks {X} (e : PollLoop.iface X) : world X
| CancelRun : world unit.

(** The only shared state of the assembly: whether the rebalance forwarder
    has its target. *)
Record rebalanceForwarder := mkForwarder { target : bool }.
Local Abbreviation P := (prog world rebalanceForwarder).

(** ** Registration

    [promauto.With(reg)] panics when a metric cannot be registered. *)
Fixpoint register_all (reg : Registerer) (ds : list metrics.desc) : P unit :=
  match ds with
  | [] => Ret tt
  | d :: ds =>
      let* err := ask (Register reg d) in
      match err with
      | Some e => Throw (PanicMsg (Error e))
      | None => register_all reg ds
      end
  end.

Definition NewDispatcherMetrics (reg : Registerer) : P Dispatcher.DispatcherMetrics :=
  let* _ := register_all reg metrics.dispatcher_descs in Ret Dispatcher.no_metrics.
Definition NewPollLoopMetrics (reg : Registerer) : P PollLoop.PollLoopMetrics :=
  let* _ := register_all reg metrics.pollloop_descs in Ret PollLoop.no_metrics.
Definition NewLagMetrics (reg : Registerer) : P (gmap (string * string * string) spec_float) :=
  let* _ := register_all reg metrics.lag_descs in Ret ∅.

(** * Options and constructors *)

(** ** [internal/offset] *)

Record coordinatorOptions := mkCoordinatorOptions { coLogger : option Logger }.
Definition defaultCoordinatorOptions := mkCoordinatorOptions (Some slog_Default).
Definition coordinator_WithLogger (l : option Logger) (o : coordinatorOptions) : coordinatorOptions :=
  match l with Some _ => mkCoordinatorOptions l | None => o end.
Definition NewCoordinator (opts : list (coordinatorOptions -> coordinatorOptions))
  : OffsetCoordinator.coordinator * option Logger :=
  let o := configure opts defaultCoordinatorOptions in
  (OffsetCoordinator.NewCoordinator, coLogger o).

(** ** [internal/dispatcher] *)

(** [DLQProducer] is an interface: nil or not. *)
Record unorderedOptions := mkUnorderedOptions {
  uoLogger : option Logger;
  uoMetrics : option Dispatcher.DispatcherMetrics;
  uoDLQ : bool
}.
Definition defaultUnorderedOptions := mkUnorderedOptions (Some slog_Default) None false.
Definition dispatcher_WithLogger (l : option Logger) (o : unorderedOptions) : unorderedOptions :=
  match l with Some _ => mkUnorderedOptions l (uoMetrics o) (uoDLQ o) | None => o end.
Definition dispatcher_WithMetrics (m : option Dispatcher.DispatcherMetrics) (o : unorderedOptions)
  : unorderedOptions := mkUnorderedOptions (uoLogger o) m (uoDLQ o).
Definition WithDLQProducer (dlq : bool) (o : unorderedOptions) : unorderedOptions :=
  mkUnorderedOptions (uoLogger o) (uoMetrics o) dlq.

(** [gobreaker.Settings]: the counts are converted to [uint32]. *)
Record Settings := mkSettings {
  sName : string;
  MaxRequests : Z;
  Interval : Z;
  Timeout : Z;
  ReadyToTrip : Z -> Z -> bool    (* of requests and total failures *)
}.

Definition breaker_settings (cfg : Dispatcher.Config) : Settings :=
  mkSettings "dispatcher" (uint32 (Dispatcher.CBMaxRequests cfg)) (Dispatcher.CBInterval cfg)
    (Dispatcher.CBOpenTimeout cfg) (Worker.ReadyToTrip cfg).

Record dispatcher := mkDispatcher {
  dCfg : Dispatcher.Config;
  dState : Dispatcher.UnorderedDispatcher OffsetCoordinator.coordinator;
  dLogger : option Logger;
  dDLQ : bool;
  dBreaker : Settings
}.

(** Of a processor and a coordinator that may be nil.  [make] of a channel
    panics on a negative capacity. *)
Definition NewUnorderedDispatcher (cfg : Dispatcher.Config) (processor : bool)
    (coordinator : option OffsetCoordinator.coordinator)
    (opts : list (unorderedOptions -> unorderedOptions)) : P (dispatcher + error) :=
  if negb processor then Ret (inr (Leaf "dispatcher: batch processor must not be nil"))
  else
    match coordinator with
    | None => Ret (inr (Leaf "dispatcher: offset coordinator must not be nil"))
    | Some coord =>
        let o := configure opts defaultUnorderedOptions in
        match uoMetrics o with
        | None => Ret (inr (Leaf "dispatcher: metrics must not be nil"))
        | Some m =>
            if Dispatcher.ChannelCap cfg <? 0 then Throw IndexOutOfRange
            else
              let d := Dispatcher.set_m m (Dispatcher.NewUnorderedDispatcher coord) in
              Ret (inl (mkDispatcher cfg d (uoLogger o) (uoDLQ o) (breaker_settings cfg)))
        end
    end.

(** [Start]: the workers; their context is the run's. *)
Definition Start (d : dispatcher) : P unit := ask (GoWorkers (Dispatcher.WorkerCount (dCfg d))).

(** ** [internal/pollloop] *)

Record loopOptions := mkLoopOptions {
  loLogger : option Logger;
  loMetrics : option PollLoop.PollLoopMetrics
}.
Definition loop_defaultOptions := mkLoopOptions (Some slog_Default) None.
(** This [WithLogger] does not ignore nil. *)
Definition loop_WithLogger (l : option Logger) (o : loopOptions) : loopOptions :=
  mkLoopOptions l (loMetrics o).
Definition loop_WithMetrics (m : option PollLoop.PollLoopMetrics) (o : loopOptions) : loopOptions :=
  mkLoopOptions (loLogger o) m.

(** The interfaces may be nil, and so may the pointer to the health. *)
Definition loop_New (kafka disp coordinator : bool) (health : option Health)
    (opts : list (loopOptions -> loopOptions)) : (PollLoop.PollLoop * option Logger) + error :=
  if negb kafka then inr (Leaf "pollloop: kafka consumer must not be nil")
  else if negb disp then inr (Leaf "pollloop: dispatcher must not be nil")
  else if negb coordinator then inr (Leaf "pollloop: offset coordinator must not be nil")
  else
    match health with
    | None => inr (Leaf "pollloop: health must not be nil")
    | Some h =>
        let o := configure opts loop_defaultOptions in
        match loMetrics o with
        | None => inr (Leaf "pollloop: metrics must not be nil")
        | Some m => inl (PollLoop.mkPollLoop h 0 0 0 ∅ m, loLogger o)
        end
    end.

(** ** [internal/kafka]: the adapter *)

Record adapterOptions := mkAdapterOptions {
  aoLogger : option Logger;
  aoLag : option (gmap (string * string * string) spec_float)
}.
Definition defaultAdapterOptions := mkAdapterOptions (Some slog_Default) None.
Definition adapter_WithLogger (l : option Logger) (o : adapterOptions) : adapterOptions :=
  match l with Some _ => mkAdapterOptions l (aoLag o) | None => o end.
Definition WithLagMetrics (m : option (gmap (string * string * string) spec_float)) (o : adapterOptions)
  : adapterOptions := mkAdapterOptions (aoLogger o) m.

Definition NewAdapter (cfg : Consumer.AdapterConfig) (handler : bool)
    (opts : list (adapterOptions -> adapterOptions)) : P ((KafkaAdapter.Adapter * option Logger) + error) :=
  if negb handler then Ret (inr (Leaf "kafka adapter: rebalance handler must not be nil"))
  else
    let o := configure opts defaultAdapterOptions in
    match Consumer.BuildConsumerConfig SetKey cfg with
    | inr e => Ret (inr (Wrap "kafka adapter: " e))
    | inl configMap =>
        let* err := ask (NewConsumer configMap) in
        match err with
        | Some e => Ret (inr (Wrap "kafka adapter: create consumer: " e))
        | None =>
            let* err := ask (SubscribeTopics (Consumer.acTopics cfg)) in
            match err with
            | Some e =>
                let* _ := ask CloseConsumer in
                Ret (inr (Wrap "kafka adapter: subscribe: " e))
            | None =>
                Ret (inl (KafkaAdapter.mkAdapter (Consumer.acTopics cfg) (Consumer.acGroupID cfg) (aoLag o),
                          aoLogger o))
            end
        end
    end.

(** ** [internal/kafka]: the DLQ producer *)

Record DLQProducerConfig := mkDLQConfig {
  dqTopic : string;
  dqBrokers : list string;
  dqSecurity : Consumer.SecurityConfig
}.

Record dlqOptions := mkDlqOptions { doLogger : option Logger }.
Definition WithDLQLogger (l : option Logger) (o : dlqOptions) : dlqOptions :=
  match l with Some _ => mkDlqOptions l | None => o end.

Definition producer_config (cfg : DLQProducerConfig) : Consumer.ConfigMap :=
  <["bootstrap.servers" := Consumer.CString (Consumer.Join "," (dqBrokers cfg))]>
    (<["acks" := Consumer.CString "all"]> {["linger.ms" := Consumer.CInt 10]}).

Definition NewDLQProducer (cfg : DLQProducerConfig) (opts : list (dlqOptions -> dlqOptions))
  : P ((DLQ.DLQProducer * option Logger) + error) :=
  if Consumer.is_empty (dqTopic cfg) then Ret (inr (Leaf "dlq: topic must not be empty"))
  else if len (dqBrokers cfg) =? 0 then Ret (inr (Leaf "dlq: at least one broker is required"))
  else
    let o := configure opts (mkDlqOptions (Some slog_Default)) in
    match Consumer.applySecurity SetKey (producer_config cfg) (dqSecurity cfg) with
    | inr e => Ret (inr (Wrap "dlq: " e))
    | inl configMap =>
        let* err := ask (NewProducer configMap) in
        match err with
        | Some e => Ret (inr (Wrap "dlq: create producer: " e))
        | None =>
            let* _ := ask GoDrainEvents in
            Ret (inl (DLQ.mkDLQProducer (dqTopic cfg), doLogger o))
        end
    end.

Definition dlq_Close : P unit :=
  let* _ := ask (Flush 10000) in ask CloseProducer.
End Setup.

(** [drainEvents]: the warnings it logs for the producer's events. *)
Inductive producer_event :=
| DeliveryReport (err : option error)
| ProducerError (err : error)
| OtherEvent.

Definition drain_event (ev : producer_event) : list (string * error) :=
  match ev with
  | DeliveryReport (Some e) => [("DLQ delivery report error", e)]
  | ProducerError e => [("DLQ producer error", e)]
  | DeliveryReport None | OtherEvent => []
  end.
Definition drainEvents (events : list producer_event) : list (string * error) :=
  concat (List.map drain_event events).

(** * The health server ([internal/server/server.go]) *)

Inductive endpoint := Healthz | Readyz | Metrics.

Record Server := mkServer {
  srvAddr : string;
  srvRoutes : list (string * endpoint);
  srvReadHeaderTimeout : Z
}.

Definition server_New (addr : string) : Server :=
  mkServer addr [("GET /healthz", Healthz); ("GET /readyz", Readyz); ("GET /metrics", Metrics)]
    (5 * Second).

(** [http.ServeMux]: a pattern with the method GET also matches HEAD; a
    path known under another method is 405, an unknown one 404.  The status
    of the answer; that of [/metrics] is the Prometheus handler's. *)
Definition matches (method path : string) (r : string * endpoint) : bool :=
  String.eqb r.1 ("GET " +:+ path) && (String.eqb method "GET" || String.eqb method "HEAD").
Definition ServeHTTP (srv : Server) (h : Health) (promhttp : Z) (method path : string) : Z :=
  match List.find (matches method path) (srvRoutes srv) with
  | Some (_, Healthz) => (Consumer.healthzHandler h).1
  | Some (_, Readyz) => (Consumer.readyzHandler h).1
  | Some (_, Metrics) => promhttp
  | None => if existsb (matches "GET" path) (srvRoutes srv) then 405 else 404
  end.

(** Listening, serving and shutting down; [Serve] always ends with an error. *)
Inductive net : Type -> Type :=
| Listen (addr : string) : net (option error)
| Serve : net (option error)
| HTTPShutdown : net (option error).

Definition ErrServerClosed : error := Sentinel "http.ErrServerClosed" "http: Server closed".

Definition ListenAndServe : prog net Server (option error) :=
  let* addr := gets srvAddr in
  let* err := ask (Listen addr) in
  match err with
  | Some e => Ret (Some (Wrap "health server: listen: " e))
  | None =>
      let* err := ask Serve in
      match err with
      | Some e => if errors_Is e ErrServerClosed then Ret None
                  else Ret (Some (Wrap "health server: serve: " e))
      | None => Ret None
      end
  end.

Definition server_Shutdown : prog net Server (option error) := ask HTTPShutdown.

(** * Properties *)

Section Properties.
Context `{Libraries}.
Local Abbreviation P := (prog world rebalanceForwarder).

(** [SetKey] stores the value under a plain key. *)
Hypothesis SetKey_stores : forall k v m, Consumer.plain_key k = true -> SetKey k v m = inl (<[k := v]> m).

(** The dead letter queue is durable.  With a topic and a broker
    configured, the client of the DLQ producer is created to wait for all
    in-sync replicas whatever the security settings, which it gets like the
    consumer's; its delivery reports are drained as soon as it exists; and
    the only failure is the client's. *)
Theorem NewDLQProducer_durable cfg os :
  Consumer.is_empty (dqTopic cfg) = false -> dqBrokers cfg <> [] ->
  exists m : Consumer.ConfigMap, m !! "acks" = Some (Consumer.CString "all") /\
    m !! "bootstrap.servers" = Some (Consumer.CString (Consumer.Join "," (dqBrokers cfg))) /\
    (forall k, k ∈ Consumer.security_keys -> m !! k = Consumer.security_value (dqSecurity cfg) k) /\
    forall f, wp (NewDLQProducer cfg os) (fun r f' l => f' = f /\
      match r with
      | inl (dlq, _) => DLQ.topic dlq = dqTopic cfg /\
          l = [asked (NewProducer m) None; asked GoDrainEvents tt]
      | inr e => exists e', e = Wrap "dlq: create producer: " e' /\ l = [asked (NewProducer m) (Some e')]
      end) f [].
Proof.
  intros Ht Hb. destruct (Consumer.applySecurity_lookup SetKey SetKey_stores (producer_config cfg)
    (dqSecurity cfg) "acks") as (m & Hm & Hacks).
  assert (Hall : forall k, m !! k = Consumer.or_else (Consumer.security_value (dqSecurity cfg) k)
    (producer_config cfg !! k)).
  { intros k. destruct (Consumer.applySecurity_lookup SetKey SetKey_stores (producer_config cfg)
      (dqSecurity cfg) k) as (m' & Hm' & Hk). congruence. }
  exists m. split_and!.
  - rewrite Hacks, Consumer.not_security_key; [reflexivity|]. by apply (bool_decide_unpack _).
  - rewrite Hall, Consumer.not_security_key; [reflexivity|]. by apply (bool_decide_unpack _).
  - intros k Hk. rewrite Hall. assert (E : producer_config cfg !! k = None).
    { unfold Consumer.security_keys in Hk. rewrite !elem_of_cons, elem_of_nil in Hk.
      repeat (destruct Hk as [->|Hk]; [reflexivity|]). destruct Hk. }
    rewrite E. unfold Consumer.or_else. destruct (Consumer.security_value (dqSecurity cfg) k); reflexivity.
  - intros f. unfold NewDLQProducer. rewrite Ht.
    destruct (Z.eqb_spec (len (dqBrokers cfg)) 0) as [E|_].
    { apply Consumer.len_zero in Hb. by rewrite E in Hb. }
    rewrite Hm. rewrite wp_ask. intros [e|]; simpl; [split; [done|]; by exists e|by intros []].
Qed.

(** The checks of the constructors: the optional metrics are required. *)
Lemma metrics_required cfg coord h f l :
  wp (NewUnorderedDispatcher cfg true (Some coord) [])
    (fun r _ _ => r = inr (Leaf "dispatcher: metrics must not be nil")) f l /\
  loop_New true true true (Some h) [] = inr (Leaf "pollloop: metrics must not be nil").
Proof. done. Qed.

(** A nil logger is ignored by every [WithLogger] but the poll loop's. *)
Lemma nil_loggers co uo ao dq lo :
  coordinator_WithLogger None co = co /\ dispatcher_WithLogger None uo = uo /\
  adapter_WithLogger None ao = ao /\ WithDLQLogger None dq = dq /\
  loLogger (loop_WithLogger None lo) = None.
Proof. done. Qed.
End Properties.

(** After a graceful shutdown [ListenAndServe] returns nil. *)
Lemma ListenAndServe_graceful {O} (h : handler net O) o s :
  (forall o, (h _ (Listen (srvAddr s)) o).1 = None) -> (forall o, (h _ Serve o).1 = Some ErrServerClosed) ->
  exists o', exec h ListenAndServe o s = (Returned None s, o').
Proof.
  intros Hl Hs. unfold ListenAndServe. rewrite exec_gets, exec_ask, Hl, exec_ask, Hs. by eexists.
Qed.

(** The health server answers exactly its three paths, to GET and HEAD:
    the probes with 200 or 503 by the health, the metrics by the Prometheus
    handler; another method on them is 405, another path 404. *)
Theorem ServeHTTP_spec addr h promhttp method path :
  ServeHTTP (server_New addr) h promhttp method path =
    (let answer status :=
       if String.eqb method "GET" || String.eqb method "HEAD" then status else 405 in
     if String.eqb path "/healthz" then answer (if IsLive h then 200 else 503)
     else if String.eqb path "/readyz" then answer (if IsReady h then 200 else 503)
     else if String.eqb path "/metrics" then answer promhttp
     else 404).
Proof.
  unfold ServeHTTP, server_New, matches. cbn [srvRoutes List.find existsb fst snd].
  change (String.eqb "GET /healthz" ("GET " +:+ path)) with (String.eqb "/healthz" path).
  change (String.eqb "GET /readyz" ("GET " +:+ path)) with (String.eqb "/readyz" path).
  change (String.eqb "GET /metrics" ("GET " +:+ path)) with (String.eqb "/metrics" path).
  rewrite !(String.eqb_sym _ path). unfold Consumer.healthzHandler, Consumer.readyzHandler.
  destruct (String.eqb_spec path "/healthz") as [->|_]; [by destruct (_ || _), (IsLive h)|].
  destruct (String.eqb_spec path "/readyz") as [->|_]; [by destruct (_ || _), (IsReady h)|].
  destruct (String.eqb_spec path "/metrics") as [->|_]; by destruct (_ || _).
Qed.

(** * Witness

    Libraries that do the least. *)
Definition plain : Libraries := {|
  Logger := unit;
  slog_Default := tt;
  With _ l := l;
  Registerer := unit;
  DefaultRegisterer := tt;
  Gatherer := unit;
  DefaultGatherer := tt;
  as_gatherer _ := Some tt;
  SetKey := Consumer.plain_SetKey
|}.

Definition demo_dlq : DLQProducerConfig := mkDLQConfig "dead" ["a:9092"; "b:9092"] Consumer.no_security.

Lemma NewDLQProducer_durable_witness :
  exists m : Consumer.ConfigMap, m !! "acks" = Some (Consumer.CString "all") /\
    m !! "bootstrap.servers" = Some (Consumer.CString "a:9092,b:9092").
Proof.
  destruct (NewDLQProducer_durable (H := plain) (fun _ _ _ _ => eq_refl) demo_dlq [] eq_refl)
    as (m & Ha & Hb & _); [discriminate|]. exists m. split; [exact Ha|exact Hb].
Defined.
