(* ===== verification/Assembly.v ===== *)
(** [consumer.New] and [Consumer.Run] ([consumer/consumer.go],
    [consumer/options.go]): the options, the order in which the components
    are created, started and released, and the theorem that what [Run]
    assembles is the system of [System], within the bounds its correctness
    needs. *)
From S2P Require Import Prelude Types OffsetCoordinator Strconv Degraded Machine Interleaving Setup.
From S2P Require Dispatcher PollLoop KafkaAdapter DLQ Consumer Linking System.

Section Assembly.
Context `{Libraries}.
Local Abbreviation P := (prog world rebalanceForwarder).

(** * Options *)

(** Interface and pointer options that may be nil. *)
Record options := mkOptions { logger : Logger; registerer : Registerer }.
Definition defaultOptions : options := mkOptions slog_Default DefaultRegisterer.
Definition WithLogger (l : option Logger) (o : options) : options :=
  match l with Some l => mkOptions l (registerer o) | None => o end.
Definition WithMetrics (reg : option Registerer) (o : options) : options :=
  match reg with Some reg => mkOptions (logger o) reg | None => o end.

Record Consumer := mkConsumer {
  cfg : Consumer.Config;
  processor : bool;             (* not nil *)
  opts : options
}.

Definition New (c : Consumer.Config) (has_processor : bool) (os : list (options -> options))
  : Consumer + error :=
  match Consumer.New c has_processor with
  | inr e => inr e
  | inl c => inl (mkConsumer c has_processor (configure os defaultOptions))
  end.

(** * [Run] *)

Definition resolveGatherer (reg : Registerer) : Gatherer :=
  match as_gatherer reg with Some g => g | None => DefaultGatherer end.

(** A callback of the Kafka client, forwarded to the poll loop. *)
Definition forward (f : rebalanceForwarder) : outcome rebalanceForwarder unit :=
  if target f then Returned tt f else Panicked NilDereference f.

Definition kubernetesServiceHostEnv : string := "KUBERNETES_SERVICE_HOST".
Definition kubernetesGracePeriodEnv : string := "TERMINATION_GRACE_PERIOD_SECONDS".

Definition warnKubernetesGracePeriod (c : Consumer) : P (list Consumer.warning) :=
  let* host := ask (Getenv kubernetesServiceHostEnv) in
  if Consumer.is_empty host then Ret []
  else
    let* grace := ask (LookupEnv kubernetesGracePeriodEnv) in
    Ret (Consumer.warnKubernetesGracePeriod (cfg c) host grace).

Definition component (name : string) (c : Consumer) : option Logger := Some (With name (logger (opts c))).

Definition createDispatcher (c : Consumer) (coord : OffsetCoordinator.coordinator)
    (dlq : option DLQ.DLQProducer) (dm : Dispatcher.DispatcherMetrics) : P (dispatcher + error) :=
  match Consumer.createDispatcher (cfg c) with
  | inr e => Ret (inr e)
  | inl dispCfg =>
      let dispOpts := [dispatcher_WithLogger (component "dispatcher" c); dispatcher_WithMetrics (Some dm)] in
      let dispOpts := match dlq with Some _ => dispOpts ++ [WithDLQProducer true] | None => dispOpts end in
      NewUnorderedDispatcher dispCfg (processor c) (Some coord) dispOpts
  end.

(** A question of the poll loop.  [Close] is the adapter's, which closes the
    client ([internal/kafka/adapter.go]); the rebalance callbacks that a poll
    fires go through the forwarder. *)
Definition loop_question {X} (e : PollLoop.iface X) : P X :=
  match e in PollLoop.iface Y return P Y with
  | PollLoop.KClose =>
      let* err := ask CloseConsumer in Ret (option_map (Wrap "close consumer: ") err)
  | PollLoop.KPoll timeoutMs =>
      let* ans := ask (LoopAsks (PollLoop.KPoll timeoutMs)) in
      let* _ := (match ans.1 with [] => Ret tt | _ => act forward end) in
      Ret ans
  | e => ask (LoopAsks e)
  end.

(** The loop's code, on its own state. *)
Fixpoint run_code {A} (code : prog PollLoop.iface PollLoop.PollLoop A) (pl : PollLoop.PollLoop)
  : P (A * PollLoop.PollLoop) :=
  match code with
  | Ret a => Ret (a, pl)
  | Throw p => Throw p
  | Act f k => match f pl with
               | Returned x pl' => run_code (k x) pl'
               | Panicked p _ => Throw p
               end
  | Ask e k => let* x := loop_question e in run_code (k x) pl
  end.

(** [pl.Run(runCtx)]. *)
Definition run_loop (a : assembled) : P (option error) :=
  let* events := ask (RunPollLoop a) in
  let* r := run_code (PollLoop.Run (asLoopCfg a) events) (asLoop a) in
  Ret r.1.

(** Steps 10 and 11, and the deferred calls of steps 9 and 10: the server is
    shut down first, then the run's context cancelled. *)
Definition serve_and_run (c : Consumer) (a : assembled) : P (option error) :=
  let* err :=
    (if Consumer.is_empty (Consumer.HealthAddr (cfg c)) then run_loop a
     else
       let* _ := ask GoListenAndServe in
       let* err := run_loop a in
       let* _ := ask (ShutdownServer (5 * Second)) in
       Ret err) in
  let* _ := ask CancelRun in
  Ret err.

(** Steps 3 to 9. *)
Definition run_assembled (c : Consumer) (coord : OffsetCoordinator.coordinator)
    (dlq : option DLQ.DLQProducer) (pm : PollLoop.PollLoopMetrics) (dm : Dispatcher.DispatcherMetrics)
    (lm : gmap (string * string * string) spec_float) : P (option error) :=
  let* d := createDispatcher c coord dlq dm in
  match d with
  | inr e => Ret (Some (Wrap "consumer: create dispatcher: " e))
  | inl disp =>
      let* a := NewAdapter (Consumer.mapKafkaConfig (cfg c)) true
                  [adapter_WithLogger (component "kafka-adapter" c); WithLagMetrics (Some lm)] in
      match a with
      | inr e => Ret (Some (Wrap "consumer: create kafka adapter: " e))
      | inl (adapter, _) =>
          match loop_New true true true (Some (mkHealth false false false))
                  [loop_WithLogger (component "poll-loop" c); loop_WithMetrics (Some pm)] with
          | inr e =>
              let* _ := ask CloseConsumer in
              Ret (Some (Wrap "consumer: create poll loop: " e))
          | inl (pl, _) =>
              let* _ := modify (fun _ => mkForwarder true) in
              let* _ := Start disp in
              serve_and_run c (mkAssembled (dCfg disp) (dState disp) (dDLQ disp)
                (Consumer.pollloop_config (cfg c)) pl adapter)
          end
      end
  end.

Definition dlq_config (c : Consumer) : DLQProducerConfig :=
  mkDLQConfig (Consumer.DLQTopic (cfg c)) (Consumer.Brokers (cfg c)) (Consumer.mapSecurityConfig (cfg c)).

(** The DLQ producer, when configured, is closed last. *)
Definition Run (c : Consumer) : P (option error) :=
  let reg := registerer (opts c) in
  let* plMetrics := NewPollLoopMetrics reg in
  let* dispMetrics := NewDispatcherMetrics reg in
  let* lagMetrics := NewLagMetrics reg in
  let* _ := warnKubernetesGracePeriod c in
  let '(coord, _) := NewCoordinator [coordinator_WithLogger (component "offset-coordinator" c)] in
  if Consumer.is_empty (Consumer.DLQTopic (cfg c))
  then run_assembled c coord None plMetrics dispMetrics lagMetrics
  else
    let* r := NewDLQProducer (dlq_config c) [WithDLQLogger (component "dlq-producer" c)] in
    match r with
    | inr e => Ret (Some (Wrap "consumer: create DLQ producer: " e))
    | inl (dlq, _) =>
        let* err := run_assembled c coord (Some dlq) plMetrics dispMetrics lagMetrics in
        let* _ := dlq_Close in
        Ret err
    end.

(** * What a program asks

    Every question of any run of [c] satisfies [pre], and its result [Q]. *)
Fixpoint asks {E S A} (pre : forall X, E X -> Prop) (Q : A -> Prop) (c : prog E S A) : Prop :=
  match c with
  | Ret a => Q a
  | Throw _ => True
  | Act f k => forall x, asks pre Q (k x)
  | Ask e k => pre _ e /\ forall x, asks pre Q (k x)
  end.

Lemma asks_bind {E S A B} pre (R : A -> Prop) (Q : B -> Prop) (c : prog E S A) (f : A -> prog E S B) :
  asks pre R c -> (forall a, R a -> asks pre Q (f a)) -> asks pre Q (bind c f).
Proof. intros Hc Hf. induction c as [a|p|X g k IH|X e k IH]; simpl in *; intuition auto. Qed.

Definition asked_ok {E} (pre : forall X, E X -> Prop) (x : exchange E) : Prop :=
  match x with existT X (e, _) => pre X e end.

Lemma asks_exec {E S A O} (h : handler E O) pre Q (c : prog E S A) s o l r o' l' :
  asks pre Q c -> exec (traced h) c (o, l) s = (r, (o', l')) ->
  Forall (asked_ok pre) l -> Forall (asked_ok pre) l'.
Proof.
  revert s o l. induction c as [a|p|X f k IH|X e k IH]; intros s o l Hc Hx Hl; simpl in Hc, Hx.
  - by simplify_eq.
  - by simplify_eq.
  - destruct (f s) as [y s1|p s1]; [by eapply IH|by simplify_eq].
  - destruct Hc as [He Hk]. unfold traced in Hx at 1. simpl in Hx. destruct (h X e o) as [y o2].
    eapply IH; [apply Hk|exact Hx|]. apply Forall_app. split; [done|by apply Forall_singleton].
Qed.

(** * What a program may die of

    [c] returns, with [Q], or panics on an answer that [refused] says it may
    panic on; [seen] is the last exchange. *)
Fixpoint guarded {E S A} (refused : exchange E -> panic -> Prop) (seen : option (exchange E))
    (Q : A -> S -> Prop) (c : prog E S A) (s : S) : Prop :=
  match c with
  | Ret a => Q a s
  | Throw p => exists x, seen = Some x /\ refused x p
  | Act f k => match f s with
               | Returned x s' => guarded refused seen Q (k x) s'
               | Panicked _ _ => False
               end
  | Ask e k => forall x, guarded refused (Some (asked e x)) Q (k x) s
  end.

Lemma guarded_bind {E S A B} refused seen (R : A -> S -> Prop) (Q : B -> S -> Prop)
    (c : prog E S A) (f : A -> prog E S B) s :
  guarded refused seen R c s -> (forall a s' seen', R a s' -> guarded refused seen' Q (f a) s') ->
  guarded refused seen Q (bind c f) s.
Proof.
  intros Hc Hf. revert seen s Hc. induction c as [a|p|X g k IH|X e k IH]; intros seen s Hc; simpl in *; auto.
  destruct (g s); auto.
Qed.

Lemma guarded_mono {E S A} refused seen (Q Q' : A -> S -> Prop) (c : prog E S A) s :
  (forall a s', Q a s' -> Q' a s') -> guarded refused seen Q c s -> guarded refused seen Q' c s.
Proof.
  intros HQ. revert seen s. induction c as [a|p|X g k IH|X e k IH]; intros seen s Hc; simpl in *; auto.
  destruct (g s); auto.
Qed.

(** What needs no earlier answer to panic on does not mind one. *)
Lemma guarded_seen {E S A} refused seen (Q : A -> S -> Prop) (c : prog E S A) s :
  guarded refused None Q c s -> guarded refused seen Q c s.
Proof.
  revert s. induction c as [a|p|X g k IH|X e k IH]; intros s Hc; simpl in *; auto.
  - by destruct Hc as (? & ? & _).
  - destruct (g s); auto.
Qed.

Lemma wp_guarded {E S A} refused seen (Q : A -> S -> Prop) (c : prog E S A) s l :
  wp c (fun a s' _ => Q a s') s l -> guarded refused seen Q c s.
Proof.
  revert seen s l. induction c as [a|p|X f k IH|X e k IH]; intros seen s l; simpl; [done|done| |].
  - destruct (f s); [apply IH|done].
  - intros Hk x. by eapply IH.
Qed.

Lemma guarded_exec {E S A O} (h : handler E O) refused (Q : A -> S -> Prop) (c : prog E S A) s o l r o' l' :
  guarded refused (last l) Q c s -> exec (traced h) c (o, l) s = (r, (o', l')) ->
  match r with
  | Returned a s' => Q a s'
  | Panicked p _ => exists x, last l' = Some x /\ refused x p
  end.
Proof.
  revert s o l. induction c as [a|p|X f k IH|X e k IH]; intros s o l Hc Hx; simpl in Hc, Hx.
  - by simplify_eq.
  - by simplify_eq.
  - destruct (f s); [by eapply IH|done].
  - unfold traced in Hx at 1. simpl in Hx. destruct (h X e o) as [y o2].
    eapply IH; [|exact Hx]. by rewrite last_snoc.
Qed.

(** * What [Run] runs the loop on *)

Definition demanded_of (c : Consumer.Config) (a : assembled) : Prop :=
  asDispatcherCfg a = Consumer.dispatcher_config c /\
  asDispatcher a = Dispatcher.NewUnorderedDispatcher OffsetCoordinator.NewCoordinator /\
  asHasDLQ a = negb (Consumer.is_empty (Consumer.DLQTopic c)) /\
  asLoopCfg a = Consumer.pollloop_config c /\
  asLoop a = PollLoop.New (mkHealth false false false) /\
  KafkaAdapter.topics (asAdapter a) = Consumer.Topics c /\
  KafkaAdapter.groupID (asAdapter a) = Consumer.GroupID c.

Definition runs_on (c : Consumer.Config) X (e : world X) : Prop :=
  match e with RunPollLoop a => demanded_of c a | _ => True end.

Lemma register_asks c reg ds : asks (S := rebalanceForwarder) (runs_on c) (fun _ => True) (register_all reg ds).
Proof. induction ds as [|d ds IH]; [done|]. split; [done|]. by intros [e|]. Qed.

(** The wiring of the dispatcher and of the adapter. *)
Lemma createDispatcher_asks c coord dlq :
  processor c = true ->
  asks (runs_on (cfg c)) (fun r => match r with
    | inl d => dCfg d = Consumer.dispatcher_config (cfg c) /\
        dState d = Dispatcher.NewUnorderedDispatcher coord /\
        dDLQ d = match dlq with Some _ => true | None => false end
    | inr _ => True
    end) (createDispatcher c coord dlq Dispatcher.no_metrics).
Proof.
  intros Hp. unfold createDispatcher, Consumer.createDispatcher.
  destruct (Consumer.Mode (cfg c) =? Consumer.Unordered); [|by destruct (_ || _)].
  unfold NewUnorderedDispatcher. rewrite Hp. destruct dlq; simpl; by destruct (_ <? 0).
Qed.

Lemma NewAdapter_asks c ac os :
  asks (runs_on c) (fun r => match r with
    | inl (a, _) => KafkaAdapter.topics a = Consumer.acTopics ac /\ KafkaAdapter.groupID a = Consumer.acGroupID ac
    | inr _ => True
    end) (NewAdapter ac true os).
Proof.
  unfold NewAdapter. simpl. destruct (Consumer.BuildConsumerConfig SetKey ac) as [m|e]; [|done].
  split; [done|]. intros [e|]; simpl; [done|]. split; [done|]. by intros [e|].
Qed.

Lemma loop_question_asks c X (e : PollLoop.iface X) :
  asks (S := rebalanceForwarder) (runs_on c) (fun _ => True) (loop_question e).
Proof. destruct e; (split; [done|]); try done. simpl. by intros [[] r]. Qed.

Lemma run_code_asks c {A} (code : prog PollLoop.iface PollLoop.PollLoop A) pl :
  asks (runs_on c) (fun _ => True) (run_code code pl).
Proof.
  revert pl. induction code as [a|p|X f k IH|X e k IH]; intros pl; simpl; [done|done| |].
  - by destruct (f pl).
  - eapply asks_bind; [apply loop_question_asks|]. intros x _. apply IH.
Qed.

Lemma serve_and_run_asks c a :
  demanded_of (cfg c) a -> asks (runs_on (cfg c)) (fun _ => True) (serve_and_run c a).
Proof.
  intros Ha. unfold serve_and_run. apply (asks_bind _ (fun _ => True)); [|by intros; split].
  assert (Hl : asks (runs_on (cfg c)) (fun _ => True) (run_loop a)).
  { split; [done|]. intros events.
    by apply (asks_bind _ (fun _ => True) _ (run_code (PollLoop.Run (asLoopCfg a) events) (asLoop a))); [apply run_code_asks|]. }
  destruct (Consumer.is_empty _); [done|]. split; [done|]. intros [].
  cbn [bind]. apply (asks_bind _ (fun _ => True)); [done|]. intros err _. split; [done|]. by intros [].
Qed.

Lemma run_assembled_asks c coord dlq lm :
  processor c = true -> coord = OffsetCoordinator.NewCoordinator ->
  negb (Consumer.is_empty (Consumer.DLQTopic (cfg c))) = match dlq with Some _ => true | None => false end ->
  asks (runs_on (cfg c)) (fun _ => True)
    (run_assembled c coord dlq PollLoop.no_metrics Dispatcher.no_metrics lm).
Proof.
  intros Hp -> Hd. unfold run_assembled. eapply asks_bind; [by apply createDispatcher_asks|].
  intros [d|e]; [|done]. intros (Hc & Hs & Hq). eapply asks_bind; [apply NewAdapter_asks|].
  intros [[a l]|e]; [|done]. intros [Ht Hg]. simpl loop_New. cbv iota beta. intros [].
  split; [done|]. intros []. apply serve_and_run_asks. unfold demanded_of. simpl.
  by rewrite Hd, <- Hq.
Qed.

Lemma Run_asks c : processor c = true -> asks (runs_on (cfg c)) (fun _ => True) (Run c).
Proof.
  intros Hp. unfold Run.
  assert (Hreg : forall X ds (m : X), asks (S := rebalanceForwarder) (runs_on (cfg c)) (fun r => r = m)
    (let* _ := register_all (registerer (opts c)) ds in Ret m)).
  { intros X ds m. by eapply asks_bind; [apply register_asks|]. }
  eapply asks_bind; [apply (Hreg _ _ PollLoop.no_metrics)|]. intros pm ->.
  eapply asks_bind; [apply (Hreg _ _ Dispatcher.no_metrics)|]. intros dm ->.
  eapply asks_bind; [apply Hreg|]. intros lm _.
  eapply (asks_bind _ (fun _ => True)).
  { split; [done|]. intros host. simpl. destruct (Consumer.is_empty host); [done|]. by split. }
  intros _ _. cbv beta iota. simpl NewCoordinator. cbv iota.
  destruct (Consumer.is_empty (Consumer.DLQTopic (cfg c))) eqn:E.
  { apply run_assembled_asks; by rewrite ?E. }
  apply (asks_bind _ (fun _ => True)).
  - unfold NewDLQProducer. destruct (Consumer.is_empty _); [done|]. destruct (_ =? 0); [done|].
    destruct (Consumer.applySecurity _ _ _) as [m|e]; [|done]. split; [done|]. intros [e|]; [done|].
    by split.
  - intros [[dlq l]|e] _; [|done]. apply (asks_bind _ (fun _ => True)); [|by intros; repeat split].
    apply run_assembled_asks; by rewrite ?E.
Qed.

(** * What is held *)

Inductive resource := ProducerHeld | ConsumerHeld | ServerHeld.
#[export] Instance resource_eq_dec : EqDecision resource.
Proof. solve_decision. Defined.

Definition release (k : resource) (held : list resource) : list resource :=
  filter (fun k' => k' <> k) held.
Definition acquire (k : resource) (err : option error) (held : list resource) : list resource :=
  match err with None => k :: held | Some _ => held end.

Definition hold (held : list resource) (x : exchange world) : list resource :=
  match x with
  | existT X (e, a) =>
      match e in world Y return Y -> list resource with
      | NewProducer _ => fun err => acquire ProducerHeld err held
      | NewConsumer _ => fun err => acquire ConsumerHeld err held
      | GoListenAndServe => fun _ => ServerHeld :: held
      | CloseConsumer => fun _ => release ConsumerHeld held
      | ShutdownServer _ => fun _ => release ServerHeld held
      | CloseProducer => fun _ => release ProducerHeld held
      | _ => fun _ => held
      end a
  end.

(** [c] runs to its end, with [Q] of its result, and what is held goes from
    [held] to what [after] says. *)
Definition holding {A} (held : list resource) (c : P A) (Q : A -> rebalanceForwarder -> Prop)
    (after : A -> list resource) (f : rebalanceForwarder) : Prop :=
  forall l, foldl hold [] l = held ->
    wp c (fun a f' l' => Q a f' /\ foldl hold [] l' = after a) f l.

Lemma holding_bind {A B} held (c : P A) (k : A -> P B) R mid Q after f :
  holding held c R mid f -> (forall a f', R a f' -> holding (mid a) (k a) Q after f') ->
  holding held (bind c k) Q after f.
Proof.
  intros Hc Hk l Hl. eapply wp_bind_mono; [by apply Hc|]. intros a f' l' [HR Hl']. by apply (Hk a f').
Qed.

Lemma holding_ask {X A} held (e : world X) (k : X -> P A) Q after f :
  (forall x, holding (hold held (asked e x)) (k x) Q after f) -> holding held (bind (ask e) k) Q after f.
Proof. intros Hk l Hl. rewrite wp_ask. intros x. apply Hk. by rewrite foldl_app, Hl. Qed.

Lemma holding_modify {A} held g (k : unit -> P A) Q after f :
  holding held (k tt) Q after (g f) -> holding held (bind (modify g) k) Q after f.
Proof. done. Qed.

Lemma holding_ret {A} held (a : A) (Q : A -> rebalanceForwarder -> Prop) after f :
  Q a f -> after a = held -> holding held (Ret a) Q after f.
Proof. intros HQ Ha l Hl. simpl. by rewrite Ha. Qed.

Definition any {A} (a : A) (f : rebalanceForwarder) : Prop := True.

Lemma createDispatcher_holds held c coord dlq dm f :
  0 <= Consumer.ChannelCap (cfg c) ->
  holding held (createDispatcher c coord dlq dm) any (fun _ => held) f.
Proof.
  intros Hcap. unfold createDispatcher, Consumer.createDispatcher.
  destruct (Consumer.Mode (cfg c) =? Consumer.Unordered);
    [|destruct (_ || _); by apply holding_ret].
  unfold NewUnorderedDispatcher. destruct (processor c); [|by apply holding_ret].
  assert (E : (Consumer.ChannelCap (cfg c) <? 0) = false) by by apply Z.ltb_ge.
  destruct dlq; simpl; rewrite E; by apply holding_ret.
Qed.

Lemma release_absent k held : k ∉ held -> release k held = held.
Proof.
  intros Hk. unfold release. induction held as [|k' held IH]; [done|].
  apply not_elem_of_cons in Hk as [Hne Hk]. rewrite filter_cons_True by congruence. by rewrite IH.
Qed.

Lemma released_all k held : k ∉ held -> release k (k :: held) = held.
Proof. intros Hk. unfold release. rewrite filter_cons_False by tauto. by apply release_absent. Qed.

Lemma NewAdapter_holds held ac os f :
  ConsumerHeld ∉ held ->
  holding held (NewAdapter ac true os) any
    (fun r => match r with inl _ => ConsumerHeld :: held | inr _ => held end) f.
Proof.
  intros Hh. unfold NewAdapter. simpl negb. cbv iota.
  destruct (Consumer.BuildConsumerConfig SetKey ac) as [m|e]; [|by apply holding_ret].
  apply holding_ask. intros [e|]; simpl; [by apply holding_ret|].
  apply (holding_ask _ (SubscribeTopics _)). intros [e|]; simpl; [|by apply holding_ret].
  apply (holding_ask _ CloseConsumer). intros err. apply holding_ret; [done|]. symmetry.
  by apply released_all.
Qed.

(** The loop's code with the forwarder set: it holds the client until the
    loop asks the adapter to close it. *)
Definition is_close (x : exchange PollLoop.iface) : bool :=
  match x with existT X (e, _) => match e with PollLoop.KClose => true | _ => false end end.

Lemma release_twice k held : release k (release k held) = release k held.
Proof. unfold release. rewrite list_filter_filter. apply list_filter_iff. tauto. Qed.

Definition held_after (l : list (exchange PollLoop.iface)) (held : list resource) : list resource :=
  if existsb is_close l then release ConsumerHeld held else held.

Lemma loop_question_holds held X (e : PollLoop.iface X) lw Q :
  foldl hold [] lw = held ->
  (forall x lw', foldl hold [] lw' = held_after [asked e x] held -> Q x (mkForwarder true) lw') ->
  wp (loop_question e) Q (mkForwarder true) lw.
Proof.
  intros Hl HQ. assert (Hkeep : forall x, existsb is_close [asked e x] = false ->
    Q x (mkForwarder true) (lw ++ [asked (LoopAsks e) x])).
  { intros x Hx. apply HQ. unfold held_after. by rewrite Hx, foldl_app, Hl. }
  destruct e; simpl; try (intros x; by apply Hkeep).
  - intros [[|cb cbs] r]; simpl; by apply Hkeep.
  - intros err. apply HQ. by rewrite foldl_app, Hl.
Qed.

Lemma run_code_holds {A} (code : prog PollLoop.iface PollLoop.PollLoop A) Q pl l held lw :
  wp code Q pl l -> foldl hold [] lw = held ->
  wp (run_code code pl) (fun r f lw' => f = mkForwarder true /\ exists l2, Q r.1 r.2 (l ++ l2) /\
    foldl hold [] lw' = held_after l2 held) (mkForwarder true) lw.
Proof.
  revert pl l held lw. induction code as [a|p|X f k IH|X e k IH]; intros pl l held lw Hw Hl; simpl in *.
  - split; [done|]. exists []. by rewrite app_nil_r.
  - done.
  - destruct (f pl) as [x pl'|p pl']; [|done]. by apply IH.
  - apply wp_bind. eapply loop_question_holds; [exact Hl|]. intros x lw' Hl'.
    eapply wp_mono; [|by apply (IH x pl (l ++ [asked e x]) (held_after [asked e x] held) lw')].
    intros r f lw2 (-> & l2 & HQ & Hh). split; [done|]. exists (asked e x :: l2).
    rewrite <- app_assoc in HQ. split; [exact HQ|]. rewrite Hh. unfold held_after. cbn [existsb].
    rewrite orb_false_r. destruct (is_close (asked e x)); cbn [orb]; [|done]. destruct (existsb is_close l2); [|done].
    apply release_twice.
Qed.

(** A poll loop that is new, with intervals a ticker takes, runs to its end
    and closes the client. *)
Definition ready_to_run (a : assembled) : Prop :=
  PollLoop.positive_intervals (asLoopCfg a) /\ asLoop a = PollLoop.New (mkHealth false false false).

Lemma run_loop_holds held a :
  ready_to_run a ->
  holding held (run_loop a) (fun _ f => f = mkForwarder true) (fun _ => release ConsumerHeld held) (mkForwarder true).
Proof.
  intros [Hiv Hpl]. apply holding_ask. intros events l Hl. simpl in Hl.
  eapply wp_bind_mono; [apply run_code_holds; [|exact Hl]|].
  { rewrite Hpl. by apply (PollLoop.Run_closes _ events). }
  intros r f lw (-> & l2 & (pre & closed & El) & Hh). split; [done|]. rewrite Hh. simpl in El. subst l2.
  unfold held_after. by rewrite existsb_app, orb_true_r.
Qed.

Lemma serve_and_run_holds held c a :
  ready_to_run a -> ServerHeld ∉ held -> ConsumerHeld ∉ held ->
  holding (ConsumerHeld :: held) (serve_and_run c a) any (fun _ => held) (mkForwarder true).
Proof.
  intros Ha Hs Hc. unfold serve_and_run.
  apply (holding_bind _ _ _ (fun _ f => f = mkForwarder true) (fun _ => held)).
  2: { intros err f _. apply (holding_ask _ CancelRun). intros []. by apply holding_ret. }
  destruct (Consumer.is_empty _).
  { pose proof (run_loop_holds (ConsumerHeld :: held) a Ha) as Hr. by rewrite released_all in Hr. }
  apply (holding_ask _ GoListenAndServe). intros [].
  eapply (holding_bind (ServerHeld :: ConsumerHeld :: held)); [by apply run_loop_holds|]. intros err f Hf.
  apply (holding_ask _ (ShutdownServer _)). intros e. apply holding_ret; [done|].
  change (held = release ServerHeld (ServerHeld :: release ConsumerHeld (ConsumerHeld :: held))).
  by rewrite (released_all ConsumerHeld), released_all.
Qed.

(** The bounds that [New] checks, as far as [Run] needs them. *)
Definition runnable (c : Consumer.Config) : Prop :=
  0 <= Consumer.ChannelCap c /\ PollLoop.positive_intervals (Consumer.pollloop_config c).

Lemma New_runnable c has_processor os c' : New c has_processor os = inl c' -> runnable (cfg c').
Proof.
  intros Hn. unfold New in Hn. destruct (Consumer.New c has_processor) as [c1|] eqn:En; [|done]. simplify_eq.
  destruct (Consumer.New_valid _ _ _ En) as (-> & -> & Hv).
  destruct (Consumer.vc_positive _ Hv) as (_ & Hcap & _ & _ & Hp & Hcm & _). simpl.
  split; [lia|by split].
Qed.

Lemma run_assembled_holds held c coord dlq dm lm f :
  runnable (cfg c) -> ServerHeld ∉ held -> ConsumerHeld ∉ held ->
  holding held (run_assembled c coord dlq PollLoop.no_metrics dm lm) any (fun _ => held) f.
Proof.
  intros [Hcap Hiv] Hs Hc. unfold run_assembled.
  eapply holding_bind; [by apply createDispatcher_holds|]. intros [d|e] f1 _; [|by apply holding_ret].
  eapply holding_bind; [by apply NewAdapter_holds|]. intros [[a l]|e] f2 _; [|by apply holding_ret].
  simpl loop_New. cbv iota beta. apply (holding_modify _ (fun _ => mkForwarder true)).
  apply (holding_ask _ (GoWorkers _)). intros [].
  by apply serve_and_run_holds.
Qed.

(** After the registration of the metrics. *)
Definition after_metrics (c : Consumer) (pm : PollLoop.PollLoopMetrics) (dm : Dispatcher.DispatcherMetrics)
    (lm : gmap (string * string * string) spec_float) : P (option error) :=
  let* _ := warnKubernetesGracePeriod c in
  let '(coord, _) := NewCoordinator [coordinator_WithLogger (component "offset-coordinator" c)] in
  if Consumer.is_empty (Consumer.DLQTopic (cfg c)) then run_assembled c coord None pm dm lm
  else
    let* r := NewDLQProducer (dlq_config c) [WithDLQLogger (component "dlq-producer" c)] in
    match r with
    | inr e => Ret (Some (Wrap "consumer: create DLQ producer: " e))
    | inl (dlq, _) =>
        let* err := run_assembled c coord (Some dlq) pm dm lm in
        let* _ := dlq_Close in
        Ret err
    end.

Lemma NewDLQProducer_holds dc os f :
  holding [] (NewDLQProducer dc os) any
    (fun r => match r with inl _ => [ProducerHeld] | inr _ => [] end) f.
Proof.
  unfold NewDLQProducer. destruct (Consumer.is_empty _); [by apply holding_ret|].
  destruct (_ =? 0); [by apply holding_ret|].
  destruct (Consumer.applySecurity _ _ _) as [m|e]; [|by apply holding_ret].
  apply (holding_ask _ (NewProducer _)). intros [e|]; [by apply holding_ret|].
  apply (holding_ask _ GoDrainEvents). intros []. by apply holding_ret.
Qed.

Lemma after_metrics_holds c dm lm f :
  runnable (cfg c) -> holding [] (after_metrics c PollLoop.no_metrics dm lm) any (fun _ => []) f.
Proof.
  intros Hcap. unfold after_metrics. apply (holding_bind _ _ _ any (fun _ => [])).
  { apply (holding_ask _ (Getenv _)). intros host. destruct (Consumer.is_empty host); [by apply holding_ret|].
    apply (holding_ask _ (LookupEnv _)). intros grace. by apply holding_ret. }
  intros _ f1 _. cbv iota beta. simpl NewCoordinator. cbv iota.
  destruct (Consumer.is_empty _); [apply run_assembled_holds; [done|by apply not_elem_of_nil..]|].
  eapply holding_bind; [apply NewDLQProducer_holds|]. intros [[dlq l]|e] f2 _; [|by apply holding_ret].
  eapply holding_bind; [apply run_assembled_holds; [done|set_solver..]|]. intros err f3 _.
  apply (holding_ask _ (Flush _)). intros []. apply (holding_ask _ CloseProducer). intros [].
  by apply holding_ret.
Qed.

Lemma exec_register {O A} (h : handler world O) reg ds (k : unit -> P A) o l f :
  (forall d o, (h _ (Register reg d) o).1 = None) -> foldl hold [] l = [] ->
  exists o' l', foldl hold [] l' = [] /\
    exec (traced h) (bind (register_all reg ds) k) (o, l) f = exec (traced h) (k tt) (o', l') f.
Proof.
  intros Hh. revert o l. induction ds as [|d ds IH]; intros o l Hl; [by exists o, l|].
  simpl. unfold traced at 1. simpl. pose proof (Hh d o) as Hd. destruct (h _ (Register reg d) o) as [r o2].
  simpl in Hd. subst r. apply IH. by rewrite foldl_app, Hl.
Qed.

Lemma exec_metrics {O X A} (h : handler world O) reg ds (m : X) (k : X -> P A) o l f :
  (forall d o, (h _ (Register reg d) o).1 = None) -> foldl hold [] l = [] ->
  exists o' l', foldl hold [] l' = [] /\
    exec (traced h) (bind (let* _ := register_all reg ds in Ret m) k) (o, l) f =
    exec (traced h) (k m) (o', l') f.
Proof.
  intros Hh Hl. destruct (exec_register h reg ds (fun _ => Ret m) o l f Hh Hl) as (o' & l' & Hl' & E).
  exists o', l'. split; [done|]. by rewrite exec_bind, E.
Qed.

(** * Properties *)

Definition unset : rebalanceForwarder := mkForwarder false.

(** C1. At least once, from the configuration.  For a consumer that [New]
    accepts, whatever its options and however [Run] goes: the loop is only
    ever run on a dispatcher, a coordinator and an adapter that are new, with
    the mapped configurations; and in every run of that system, with any
    interleaving of its goroutines, any answers, failures and rebalances, if
    no more partitions are in use than [ChannelCap], an offset is committed
    to Kafka only when the messages sent before it and not discarded by a
    revocation were processed or given up, in order. *)
Theorem consumer_at_least_once {O} (h : handler world O) c0 has_processor os c o r o' l a ans :
  New c0 has_processor os = inl c ->
  exec (traced h) (Run c) (o, []) unset = (r, (o', l)) -> asked (RunPollLoop a) ans ∈ l ->
  demanded_of c0 a /\
  forall ps n chs x hs h1 tps h2 tp,
    len ps <= Consumer.ChannelCap c0 -> Forall (System.client_fits ps) chs ->
    System.sys_run (asDispatcherCfg a) (asHasDLQ a) (asLoopCfg a) chs
      (System.mkSystem (start n (asDispatcher a)) (asLoop a, asAdapter a)
         (System.Running (System.first_turn (asLoopCfg a)))) = Some (x, hs) ->
    hs = h1 ++ System.CommitRequest tps :: h2 -> tp ∈ tps ->
    System.delivered_up_to (System.history h1) (KafkaAdapter.kPartition tp) (KafkaAdapter.kOffset tp).
Proof.
  intros Hn Hx Hin. unfold New in Hn. destruct (Consumer.New c0 has_processor) as [c1|] eqn:En; [|done].
  simplify_eq. destruct (Consumer.New_valid _ _ _ En) as (-> & -> & Hv).
  pose proof (Run_asks (mkConsumer c0 true (configure os defaultOptions)) eq_refl) as Ha.
  eapply asks_exec in Ha; [|exact Hx|constructor].
  rewrite Forall_forall in Ha. pose proof (Ha _ Hin) as Hd. split; [exact Hd|].
  destruct Hd as (E1 & E2 & _ & E4 & E5 & E6 & _). intros ps n chs x hs h1 tps h2 tp Hcap Hf Hr -> Htp.
  rewrite E1, E2, E5 in Hr.
  destruct (Consumer.vc_positive _ Hv) as (_ & _ & Hb & _ & Hp & Hcm & _).
  assert (Hiv : PollLoop.positive_intervals (asLoopCfg a)) by (rewrite E4; by split).
  destruct (System.sys_run_inv (Consumer.dispatcher_config c0) (asHasDLQ a) (asLoopCfg a) true ps Hb
    (proj1 (Consumer.vc_nonneg _ Hv)) (fun _ => Hcap) chs []
    (System.sys_start (asLoopCfg a) n OffsetCoordinator.NewCoordinator (asAdapter a) (mkHealth false false false)) x (h1 ++ System.CommitRequest tps :: h2)) as (_ & _ & Hc);
    [|exact Hf|exact Hr|].
  { apply System.start_sys_inv; [exact Hiv|exact demo_fresh|]. unfold Linking.has_topic. rewrite E6. apply Hv. }
  specialize (Hc _ _ _ eq_refl eq_refl). rewrite Forall_forall in Hc. by apply Hc.
Qed.

(** A metric that the registry refused. *)
Definition refusal (x : exchange world) (p : panic) : Prop :=
  exists reg d e, x = asked (Register reg d) (Some e) /\ p = PanicMsg (Error e).

Lemma register_guarded seen reg ds s :
  guarded refusal seen (fun _ s' => s' = s) (register_all reg ds) s.
Proof.
  revert seen. induction ds as [|d ds IH]; intros seen; [done|]. intros [e|]; simpl; [|apply IH].
  eexists. split; [done|]. by exists reg, d, e.
Qed.

Lemma Run_guarded seen c : runnable (cfg c) -> guarded refusal seen (fun _ _ => True) (Run c) unset.
Proof.
  intros Hc.
  assert (Hreg : forall X ds (x : X) seen, guarded refusal seen (fun r s' => r = x /\ s' = unset)
    (let* _ := register_all (registerer (opts c)) ds in Ret x) unset).
  { intros X ds x seen'. eapply guarded_bind; [apply register_guarded|]. by intros _ s' seen1 ->. }
  eapply guarded_bind; [apply (Hreg _ _ PollLoop.no_metrics)|]. intros pm s1 seen1 [-> ->].
  eapply guarded_bind; [apply (Hreg _ _ Dispatcher.no_metrics)|]. intros dm s2 seen2 [-> ->].
  eapply guarded_bind; [apply (Hreg _ _ (∅ : gmap (string * string * string) spec_float))|]. intros lm s3 seen3 [-> ->].
  apply (wp_guarded _ _ _ _ _ []). eapply wp_mono;
    [|exact (after_metrics_holds c Dispatcher.no_metrics ∅ unset Hc [] eq_refl)]. done.
Qed.

(** C33. [Run] releases what it acquired, whatever fails: for a consumer that
    [New] accepts, once the metrics are registered it never panics - the poll
    loop's tickers get positive intervals, and the rebalance forwarder has its
    target before a callback can fire - and when it returns, with an error of
    any step or with the poll loop's result, it has closed the DLQ producer
    and the Kafka client it created (the client by the loop's own shutdown)
    and shut down the health server it started.  The environment answers the
    questions of the loop to the dispatcher; that those calls do not panic
    either is [System.poll_goroutine_never_panics]. *)
Theorem Run_releases {O} (h : handler world O) c0 has_processor os c o :
  New c0 has_processor os = inl c ->
  (forall d o, (h _ (Register (registerer (opts c)) d) o).1 = None) ->
  exists r f o' l, exec (traced h) (Run c) (o, []) unset = (Returned r f, (o', l)) /\
    foldl hold [] l = [].
Proof.
  intros Hn Hh. apply New_runnable in Hn as Hcap. set (reg := registerer (opts c)) in *.
  destruct (exec_metrics h reg metrics.pollloop_descs PollLoop.no_metrics (fun pm =>
    let* dm := NewDispatcherMetrics reg in let* lm := NewLagMetrics reg in after_metrics c pm dm lm)
    o [] unset Hh eq_refl) as (o1 & l1 & Hl1 & E1).
  destruct (exec_metrics h reg metrics.dispatcher_descs Dispatcher.no_metrics (fun dm =>
    let* lm := NewLagMetrics reg in after_metrics c PollLoop.no_metrics dm lm) o1 l1 unset Hh Hl1)
    as (o2 & l2 & Hl2 & E2).
  destruct (exec_metrics h reg metrics.lag_descs ∅
    (after_metrics c PollLoop.no_metrics Dispatcher.no_metrics) o2 l2 unset Hh Hl2) as (o3 & l3 & Hl3 & E3).
  destruct (wp_sound h _ _ o3 _ _ (after_metrics_holds c Dispatcher.no_metrics ∅ unset
    Hcap l3 Hl3)) as (r & f & o' & l' & Hx & _ & Hl'). exists r, f, o', l'. split; [|done].
  change (Run c) with (let* pm := NewPollLoopMetrics reg in let* dm := NewDispatcherMetrics reg in
    let* lm := NewLagMetrics reg in after_metrics c pm dm lm).
  unfold NewPollLoopMetrics. rewrite E1. unfold NewDispatcherMetrics. rewrite E2.
  exact (eq_trans E3 Hx).
Qed.
End Assembly.

(** * Once per registry *)

Section Registry.
Context `{Libraries} {O : Type}.
Variable h : handler world O.

(** The names registered with a registerer, as the Prometheus client
    documents it: a registered name stays, and cannot be registered again. *)
Variable registered : Registerer -> O -> gset string.
Hypothesis registered_stays : forall reg X (e : world X) o, registered reg o ⊆ registered reg (h X e o).2.
Hypothesis register_adds : forall reg d o, (h _ (Register reg d) o).1 = None ->
  metrics.name d ∈ registered reg (h _ (Register reg d) o).2.
Hypothesis register_refuses : forall reg d o, metrics.name d ∈ registered reg o ->
  is_Some (h _ (Register reg d) o).1.

Lemma exec_registered {A S} (c : prog world S A) reg o s r o' :
  exec h c o s = (r, o') -> registered reg o ⊆ registered reg o'.
Proof.
  revert o s. induction c as [a|p|X f k IH|X e k IH]; intros o s Hx; simpl in Hx.
  - by simplify_eq.
  - by simplify_eq.
  - destruct (f s); [by eapply IH|by simplify_eq].
  - destruct (h X e o) as [x o2] eqn:E. etransitivity; [|by eapply IH].
    pose proof (registered_stays reg X e o) as Hs. by rewrite E in Hs.
Qed.

(** C34. [Run] is once per registry.  After a [Run] that came to its end,
    [Run] of the same consumer, or of any other with the same registerer -
    two consumers of a process that both use the default one - panics on the
    first metric it registers, with nothing created: it has asked the
    environment nothing else. *)
Theorem second_run_panics c c' o r f o' :
  registerer (opts c') = registerer (opts c) ->
  exec h (Run c) o unset = (Returned r f, o') ->
  exists d e o2, exec (traced h) (Run c') (o', []) unset =
    (Panicked (PanicMsg (Error e)) unset, (o2, [asked (Register (registerer (opts c')) d) (Some e)])).
Proof.
  intros Hreg Hx. set (reg := registerer (opts c)) in *.
  set (d0 := metrics.mkDesc metrics.CounterKind metrics.MessagesPolledTotal ["partition"]).
  assert (Hin : metrics.name d0 ∈ registered reg o').
  { unfold Run in Hx. fold reg in Hx. simpl in Hx. fold d0 in Hx.
    destruct (h _ (Register reg d0) o) as [[e|] o1] eqn:E; [done|].
    pose proof (register_adds reg d0 o) as Ha. rewrite E in Ha.
    by eapply exec_registered; [exact Hx|apply Ha]. }
  destruct (register_refuses reg d0 o' Hin) as [e He]. exists d0, e.
  unfold Run. rewrite Hreg. simpl. fold d0. unfold traced at 1. simpl.
  destruct (h _ (Register reg d0) o') as [x o2]. simpl in He. subst x. by exists o2.
Qed.
End Registry.

(** * Witnesses

    A world where all goes well; its state is the names registered. *)
Definition duplicate : error := Leaf "duplicate metrics collector registration attempted".

(** Each poll assigns a partition and delivers nothing. *)
Definition assigning {X} (e : PollLoop.iface X) : X :=
  match e in PollLoop.iface Y return Y -> Y with
  | PollLoop.KPoll _ => fun _ => ([PollLoop.Assigned [mkTP "events" 0]], inl [])
  | _ => fun x => x
  end (System.client [] None None _ (Linking.ToDispatcher e)).

Definition well : handler (world (H := plain)) (gset string) := fun X e o =>
  match e in world Y return Y * gset string with
  | Register _ d => if decide (metrics.name d ∈ o) then (Some duplicate, o)
                    else (None, {[metrics.name d]} ∪ o)
  | Getenv _ => ("", o)
  | LookupEnv _ => (None, o)
  | NewConsumer _ => (None, o)
  | SubscribeTopics _ => (None, o)
  | CloseConsumer => (None, o)
  | NewProducer _ => (None, o)
  | GoDrainEvents => (tt, o)
  | Flush _ => (tt, o)
  | CloseProducer => (tt, o)
  | GoWorkers _ => (tt, o)
  | GoListenAndServe => (tt, o)
  | ShutdownServer _ => (None, o)
  | RunPollLoop _ => ([PollLoop.PollTick; PollLoop.CommitTick], o)
  | LoopAsks e => (assigning e, o)
  | CancelRun => (tt, o)
  end.

(** The same world with a registry that takes everything. *)
Definition lenient : handler (world (H := plain)) unit := fun X e o =>
  (match e in world Y return Y -> Y with
   | Register _ _ => fun _ => None
   | _ => fun y => y
   end (well X e ∅).1, o).

Definition demo_consumer : Consumer (H := plain) :=
  mkConsumer Consumer.demo_config true defaultOptions.

Lemma well_stays (reg : unit) X (e : world (H := plain) X) o : o ⊆ (well X e o).2.
Proof. destruct e; simpl; try done. case_decide; simpl; set_solver. Qed.
Lemma well_adds (reg : unit) d o :
  (well _ (Register (H := plain) reg d) o).1 = None ->
  metrics.name d ∈ (well _ (Register (H := plain) reg d) o).2.
Proof. simpl. case_decide; simpl; [done|set_solver]. Qed.
Lemma well_refuses (reg : unit) d o :
  metrics.name d ∈ o -> is_Some (well _ (Register (H := plain) reg d) o).1.
Proof. intros Hd. simpl. rewrite decide_True by done. by eexists. Qed.

Lemma second_run_panics_witness :
  exists r f o', exec well (Run demo_consumer) ∅ unset = (Returned r f, o') /\
    exists d e o2, exec (traced well) (Run demo_consumer) (o', []) unset =
      (Panicked (PanicMsg (Error e)) unset, (o2, [asked (Register (registerer (opts demo_consumer)) d) (Some e)])).
Proof.
  assert (Hok : (match (exec well (Run demo_consumer) ∅ unset).1 with Returned _ _ => true | _ => false end) =
    true) by (vm_compute; reflexivity).
  destruct (exec well (Run demo_consumer) ∅ unset) as [[r f|p f] o'] eqn:E; simpl in Hok; [|done].
  exists r, f, o'. split; [done|].
  exact (second_run_panics well (fun _ o => o) well_stays well_adds well_refuses demo_consumer
    demo_consumer ∅ r f o' eq_refl E).
Defined.

Lemma Run_releases_witness :
  exists r f o' l, exec (traced lenient) (Run demo_consumer) (tt, []) unset = (Returned r f, (o', l)) /\
    foldl hold [] l = [] /\ (length l <> 0)%nat.
Proof.
  destruct (Run_releases lenient Consumer.demo_config true [] demo_consumer tt) as (r & f & o' & l & Hx & Hl);
    [reflexivity|intros d []; reflexivity|].
  exists r, f, o', l. split; [done|]. split; [done|].
  assert (Hn : (length (exec (traced lenient) (Run demo_consumer) (tt, []) unset).2.2 =? 0)%nat = false)
    by (vm_compute; reflexivity).
  rewrite Hx in Hn. by apply Nat.eqb_neq in Hn.
Defined.

(** A consumer whose mapped configurations are those of [System]'s demo run. *)
Definition small_config : Consumer.Config :=
  Consumer.mkConfig ["localhost:9092"] ["events"] "group" Consumer.Unordered 1 1 2 (100 * Millisecond) 3
    (100 * Millisecond) (5 * Second) 3 (25 * Second) 0 3 Dispatcher.float_0_6 (30 * Second) 1
    (60 * Second) "dead" (10 * Second) ":8080" Consumer.no_security.
Definition small_consumer : Consumer (H := plain) := mkConsumer small_config true defaultOptions.

Definition loop_of (x : exchange (world (H := plain))) : option assembled :=
  match x with
  | existT X (e, _) => match e with RunPollLoop a => Some a | _ => None end
  end.

Lemma loop_asked a (l : list (exchange (world (H := plain)))) :
  a ∈ collect loop_of l -> exists ans, asked (RunPollLoop a) ans ∈ l.
Proof.
  induction l as [|[X [e x]] l IH]; [by intros ?%not_elem_of_nil|]. intros Ha.
  destruct e as [| | | | | | | | | | | | |a'| |];
    try (destruct (IH Ha) as [ans ?]; exists ans; by apply list_elem_of_further).
  apply elem_of_cons in Ha as [->|Ha]; [exists x; apply list_elem_of_here|].
  destruct (IH Ha) as [ans ?]. exists ans. by apply list_elem_of_further.
Qed.

Definition small_assembled : assembled :=
  mkAssembled Dispatcher.demo_cfg (Dispatcher.NewUnorderedDispatcher OffsetCoordinator.NewCoordinator)
    true PollLoop.DefaultConfig (PollLoop.New (mkHealth false false false)) System.demo_adapter.

Lemma consumer_at_least_once_witness :
  exists r o' l ans, exec (traced lenient) (Run small_consumer) (tt, []) unset = (r, (o', l)) /\
    asked (RunPollLoop small_assembled) ans ∈ l /\
    System.delivered_up_to (System.history System.before_commit) 0 12.
Proof.
  assert (Hl : collect loop_of (exec (traced lenient) (Run small_consumer) (tt, []) unset).2.2 =
    [small_assembled]) by (vm_compute; reflexivity).
  destruct (exec (traced lenient) (Run small_consumer) (tt, []) unset) as [r [o' l]] eqn:E.
  simpl in Hl. destruct (loop_asked small_assembled l) as [ans Hin];
    [rewrite Hl; apply list_elem_of_here|]. exists r, o', l, ans. split; [done|]. split; [exact Hin|].
  assert (Hr : option_map snd (System.demo_run Dispatcher.demo_cfg PollLoop.DefaultConfig System.demo_turns) =
    Some System.demo_log) by (vm_compute; reflexivity).
  apply System.ran_with in Hr as [x Hr].
  destruct (consumer_at_least_once lenient small_config true [] small_consumer tt r o' l small_assembled ans
    eq_refl E Hin) as [_ Hc].
  apply (Hc [0] 1%nat (System.demo_choices Dispatcher.demo_cfg PollLoop.DefaultConfig System.demo_turns) x
    System.demo_log System.before_commit [System.demo_ktp 0 12] System.after_commit (System.demo_ktp 0 12));
    [done|apply System.demo_fits, System.demo_turns_ok|exact Hr|reflexivity|apply list_elem_of_here].
Defined.
