(* ===== verification/TestSupport.v ===== *)
(** The repository's test support: the Kafka test cluster and its helpers
    ([internal/kafkatest]) and the benchmark helpers ([internal/benchutil]).
    The container runtime, the Kafka clients, the clock and [testing.T] are the
    environment. *)
From S2P Require Import Prelude Types Strconv.
From S2P Require Consumer KafkaAdapter DLQ.

(** * The environment *)

(** What [Start] asks of the container runtime. *)
Record ContainerRequest := mkRequest {
  Image : string;
  ExposedPorts : list string;
  Env : list (string * string);
  Entrypoint : list string;
  Cmd : list string;
  WaitForLog : string;
  StartupTimeout : Z
}.

(** What the runtime makes of the request: it fails with no container
    running, or starts it, runs the request's [PostStarts] hook and waits for
    the log line, and then returns the error it makes of the hook's.  With an
    error it returns the container all the same. *)
Inductive startup :=
| NotStarted (err : error)
| StartedThen (finish : option error -> option error).

(** What a [select] on the context and the delivery channel receives:
    [DLQ.ContextDone] or [DLQ.Report]. *)
Inductive ctl : Type -> Type :=
(* testcontainers *)
| GenericContainer (req : ContainerRequest) : ctl startup
| Host : ctl (string + error)
| MappedPort (port : string) : ctl (string + error)
| ContainerExec (cmd : list string) : ctl (option error)
| ContainerTerminate : ctl (option error)
(* the admin client *)
| NewAdminClient (m : Consumer.ConfigMap) : ctl (option error)
| GetMetadata (timeoutMs : Z) : ctl (Z + error)      (* the number of brokers *)
| CreateTopics (topic : string) (partitions : Z) (timeout : Z) : ctl (list (Z * error) + error)
| CloseAdmin : ctl unit
(* a consumer *)
| NewConsumer (m : Consumer.ConfigMap) : ctl (option error)
| Subscribe (topic : string) : ctl (option error)
| PollEvent (timeoutMs : Z) : ctl (option KafkaAdapter.kEvent)
| Committed (tps : list KafkaAdapter.kTopicPartition) (timeoutMs : Z)
    : ctl (list KafkaAdapter.kTopicPartition + error)
| QueryWatermarkOffsets (topic : string) (partition : Z) (timeoutMs : Z) : ctl (Z * Z + error)
| CloseConsumer : ctl (option error)
(* a producer *)
| NewProducer (m : Consumer.ConfigMap) : ctl (option error)
| ProduceMessageTo (km : DLQ.kProducerMessage) : ctl (option error)
| AwaitDelivery : ctl DLQ.delivery
| CloseProducer : ctl unit
(* the clock, a timer against the context *)
| Clock : ctl Z
| SleepFor (d : Z) : ctl unit
| TimerOrDone (d : Z) : ctl (option error)
(* testing.T *)
| Fatalf (msg : string) : ctl unit
| Logf (msg : string) : ctl unit.

(** The helpers share no mutable state. *)
Local Abbreviation P := (prog ctl unit).

(** [defer d()]: after a return and after a panic. *)
Fixpoint deferred {A} (c : P A) (d : P unit) : P A :=
  match c with
  | Ret a => let* _ := d in Ret a
  | Throw p => let* _ := d in Throw p
  | Act f k => Act f (fun x => deferred (k x) d)
  | Ask e k => Ask e (fun x => deferred (k x) d)
  end.

Definition ask_quietly {X} (e : ctl X) : P unit := let* _ := ask e in Ret tt.

Definition ErrNoError : Z := 0.

(** * The cluster ([cluster.go]) *)

(** [container] is whether the container is set, as [Start] leaves it. *)
Record Cluster := mkCluster { container : bool; brokers : string }.
Definition Brokers (c : Cluster) : string := brokers c.

Definition client_config (brokers : string) : Consumer.ConfigMap :=
  {["bootstrap.servers" := Consumer.CString brokers]}.

Definition startScript : string :=
  newline +:+ "while [ ! -f /tmp/external_port ]; do sleep 0.1; done" +:+
  newline +:+ "EXTERNAL_PORT=$(cat /tmp/external_port)" +:+
  newline +:+ "export KAFKA_ADVERTISED_LISTENERS=" +:+
    Consumer.quoted "PLAINTEXT://localhost:29092,EXTERNAL://localhost:${EXTERNAL_PORT}" +:+
  newline +:+ "exec /etc/kafka/docker/run" +:+ newline.

Definition request : ContainerRequest :=
  mkRequest "apache/kafka:latest" ["9092/tcp"]
    [("KAFKA_NODE_ID", "1");
     ("KAFKA_PROCESS_ROLES", "broker,controller");
     ("KAFKA_CONTROLLER_QUORUM_VOTERS", "1@localhost:9093");
     ("KAFKA_CONTROLLER_LISTENER_NAMES", "CONTROLLER");
     ("KAFKA_INTER_BROKER_LISTENER_NAME", "PLAINTEXT");
     ("KAFKA_LISTENER_SECURITY_PROTOCOL_MAP", "CONTROLLER:PLAINTEXT,PLAINTEXT:PLAINTEXT,EXTERNAL:PLAINTEXT");
     ("KAFKA_LISTENERS", "PLAINTEXT://0.0.0.0:29092,CONTROLLER://0.0.0.0:9093,EXTERNAL://0.0.0.0:9092");
     ("KAFKA_OFFSETS_TOPIC_REPLICATION_FACTOR", "1");
     ("KAFKA_GROUP_INITIAL_REBALANCE_DELAY_MS", "0");
     ("KAFKA_TRANSACTION_STATE_LOG_MIN_ISR", "1");
     ("KAFKA_TRANSACTION_STATE_LOG_REPLICATION_FACTOR", "1");
     ("CLUSTER_ID", "MkU3OEVBNTcwNTJENDM2Qk")]
    ["sh"; "-c"] [startScript] "Kafka Server started" (90 * Second).

(** The hook the runtime runs once the container has started. *)
Definition post_start : P (option error) :=
  let* port := ask (MappedPort "9092") in
  match port with
  | inr e => Ret (Some (Wrap "get mapped port: " e))
  | inl port => ask (ContainerExec ["sh"; "-c"; "echo " +:+ port +:+ " > /tmp/external_port"])
  end.

(** One round of [waitReady]: is the broker there? *)
Definition wait_round (brokers : string) : P bool :=
  let* err := ask (NewAdminClient (client_config brokers)) in
  match err with
  | Some _ => let* _ := ask (SleepFor (500 * Millisecond)) in Ret false
  | None =>
      let* md := ask (GetMetadata 3000) in
      let* _ := ask CloseAdmin in
      match md with
      | inl n => if 0 <? n then Ret true
                 else let* _ := ask (SleepFor (500 * Millisecond)) in Ret false
      | inr _ => let* _ := ask (SleepFor (500 * Millisecond)) in Ret false
      end
  end.

#[global] Arguments wait_round : simpl never.

(** The loop, for at most [fuel] rounds; [None] when they ran out. *)
Fixpoint wait_until (fuel : nat) (deadline : Z) (brokers : string) : P (option (option error)) :=
  match fuel with
  | O => Ret None
  | Datatypes.S n =>
      let* now := ask Clock in
      if now <? deadline then
        let* ready := wait_round brokers in
        if ready : bool then Ret (Some None) else wait_until n deadline brokers
      else Ret (Some (Some (Leaf ("kafkatest: timeout waiting for broker at " +:+ brokers))))
  end.

Definition waitReady (fuel : nat) (c : Cluster) : P (option (option error)) :=
  let* now := ask Clock in
  wait_until fuel (now + 30 * Second) (brokers c).

(** [testcontainers.GenericContainer], which runs the hook. *)
Definition start_container : P (option error) :=
  let* s := ask (GenericContainer request) in
  match s with
  | NotStarted e => Ret (Some e)
  | StartedThen finish => let* err := post_start in Ret (finish err)
  end.

Definition Start (fuel : nat) : P (option (Cluster + error)) :=
  let* err := start_container in
  match err with
  | Some e => Ret (Some (inr (Wrap "start kafka container: " e)))
  | None =>
      let* host := ask Host in
      match host with
      | inr e =>
          let* _ := ask ContainerTerminate in Ret (Some (inr (Wrap "get container host: " e)))
      | inl host =>
          let* port := ask (MappedPort "9092") in
          match port with
          | inr e =>
              let* _ := ask ContainerTerminate in Ret (Some (inr (Wrap "get mapped port: " e)))
          | inl port =>
              let cluster := mkCluster true (host +:+ ":" +:+ port) in
              let* r := waitReady fuel cluster in
              match r with
              | None => Ret None
              | Some (Some e) => let* _ := ask ContainerTerminate in Ret (Some (inr e))
              | Some None => Ret (Some (inl cluster))
              end
          end
      end
  end.

Definition Terminate (c : Cluster) : P (option error) :=
  if container c then ask ContainerTerminate else Ret None.

(** [t.Fatalf]: the test goroutine ends, running its deferred calls. *)
Definition fatal {A} (msg : string) : P A :=
  let* _ := ask (Fatalf msg) in Throw (PanicMsg "FailNow").

(** The cleanup that [StartT] registers with the test. *)
Definition cleanup (c : Cluster) : P unit :=
  let* err := Terminate c in
  match err with
  | Some e => ask (Logf ("kafkatest: terminate cluster: " +:+ Error e))
  | None => Ret tt
  end.

(** The cluster and what is registered. *)
Definition StartT (fuel : nat) : P (option (Cluster * P unit)) :=
  let* r := Start fuel in
  match r with
  | None => Ret None
  | Some (inr e) => fatal ("kafkatest: start cluster: " +:+ Error e)
  | Some (inl c) =>
      let* _ := ask (Logf ("kafkatest: broker ready at " +:+ brokers c)) in
      Ret (Some (c, cleanup c))
  end.

(** * Topics and offsets ([admin.go]) *)

(** [range partitions] and [int32(i)]. *)
Definition partition_ids (partitions : Z) : list Z := wrap32 ∘ Z.of_nat <$> seq 0 (Z.to_nat partitions).

Definition topic_error (topic : string) (e : error) : error :=
  Wrap ("create topic " +:+ Consumer.quoted topic +:+ ": ") e.
Definition first_refused (topic : string) (results : list (Z * error)) : option error :=
  match List.find (fun r => negb (r.1 =? ErrNoError)) results with
  | Some r => Some (topic_error topic r.2)
  | None => None
  end.

Definition CreateTopic (c : Cluster) (topic : string) (partitions : Z) : P (option error) :=
  let* err := ask (NewAdminClient (client_config (brokers c))) in
  match err with
  | Some e => Ret (Some (Wrap "create admin client: " e))
  | None =>
      deferred (let* r := ask (CreateTopics topic partitions (10 * Second)) in
                match r with
                | inr e => Ret (Some (topic_error topic e))
                | inl results => Ret (first_refused topic results)
                end)
               (ask_quietly CloseAdmin)
  end.

Definition CreateTopicT (c : Cluster) (topic : string) (partitions : Z) : P unit :=
  let* err := CreateTopic c topic partitions in
  match err with
  | Some e => fatal ("kafkatest: " +:+ Error e)
  | None => ask (Logf ("kafkatest: topic " +:+ Consumer.quoted topic +:+ " created with " +:+
                       FormatZ partitions +:+ " partitions"))
  end.

Definition group_config (brokers group : string) : Consumer.ConfigMap :=
  <["group.id" := Consumer.CString group]> (client_config brokers).

(** The committed partitions: an offset below zero is none. *)
Definition committed_map (tps : list KafkaAdapter.kTopicPartition) : gmap Z Z :=
  foldl (fun m tp => if 0 <=? KafkaAdapter.kOffset tp
                     then <[KafkaAdapter.kPartition tp := KafkaAdapter.kOffset tp]> m else m) ∅ tps.

(** [make([]ckg.TopicPartition, partitions)] panics on a negative number. *)
Definition CommittedOffsets (c : Cluster) (groupID topic : string) (partitions : Z)
  : P (gmap Z Z + error) :=
  let* err := ask (NewConsumer (group_config (brokers c) groupID)) in
  match err with
  | Some e => Ret (inr (Wrap "create consumer for offset check: " e))
  | None =>
      deferred (if partitions <? 0 then Throw IndexOutOfRange
                else
                  let tps := List.map (fun p => KafkaAdapter.mkKTP (Some topic) p 0) (partition_ids partitions) in
                  let* r := ask (Committed tps 5000) in
                  match r with
                  | inr e => Ret (inr (Wrap "get committed offsets: " e))
                  | inl committed => Ret (inl (committed_map committed))
                  end)
               (ask_quietly CloseConsumer)
  end.

Definition CommittedOffsetsT (c : Cluster) (groupID topic : string) (partitions : Z) : P (gmap Z Z) :=
  let* r := CommittedOffsets c groupID topic partitions in
  match r with
  | inr e => fatal ("kafkatest: " +:+ Error e)
  | inl offsets => Ret offsets
  end.

(** The sum of the high watermarks. *)
Fixpoint count_all (topic : string) (ps : list Z) (i total : Z) : P (Z + error) :=
  match ps with
  | [] => Ret (inl total)
  | p :: ps =>
      let* r := ask (QueryWatermarkOffsets topic p 5000) in
      match r with
      | inr e => Ret (inr (Wrap ("query watermark for " +:+ topic +:+ "[" +:+ FormatZ i +:+ "]: ") e))
      | inl (_, high) => count_all topic ps (i + 1) (wrap64 (total + high))
      end
  end.

Definition TopicMessageCount (c : Cluster) (topic : string) (partitions : Z) : P (Z + error) :=
  let* err := ask (NewConsumer (group_config (brokers c) ("kafkatest-count-" +:+ topic))) in
  match err with
  | Some e => Ret (inr (Wrap "create consumer for message count: " e))
  | None => deferred (count_all topic (partition_ids partitions) 0 0) (ask_quietly CloseConsumer)
  end.

Definition TopicMessageCountT (c : Cluster) (topic : string) (partitions : Z) : P Z :=
  let* r := TopicMessageCount c topic partitions in
  match r with
  | inr e => fatal ("kafkatest: " +:+ Error e)
  | inl count => Ret count
  end.

(** * Messages ([message.go], [produce.go]) *)

Record ProduceMessage := mkProduceMessage {
  pKey : bytes;
  pValue : bytes;
  pHeaders : list Header
}.

(** The keys repeat every ten messages; [make] panics on a negative count. *)
Definition test_message (valueFn : Z -> bytes) (i : Z) : ProduceMessage :=
  mkProduceMessage (DLQ.string_bytes ("key-" +:+ FormatZ (i mod 10))) (valueFn i) [].
Definition NewMessages (count : Z) (valueFn : Z -> bytes) : outcome unit (list ProduceMessage) :=
  if count <? 0 then Panicked IndexOutOfRange tt
  else Returned (List.map (fun i => test_message valueFn (Z.of_nat i)) (seq 0 (Z.to_nat count))) tt.

Definition kafka_message (topic : string) (m : ProduceMessage) : DLQ.kProducerMessage :=
  DLQ.mkPM topic (pKey m) (pValue m) (pHeaders m).

Fixpoint enqueue_all (topic : string) (msgs : list ProduceMessage) : P (option error) :=
  match msgs with
  | [] => Ret None
  | m :: msgs =>
      let* err := ask (ProduceMessageTo (kafka_message topic m)) in
      match err with
      | Some e => Ret (Some (Wrap "enqueue message: " e))
      | None => enqueue_all topic msgs
      end
  end.

(** Wait for [n] more reports. *)
Fixpoint await_all (n : nat) (delivered : Z) : P (Z * option error) :=
  match n with
  | O => Ret (delivered, None)
  | Datatypes.S n =>
      let* r := ask AwaitDelivery in
      match r with
      | DLQ.ContextDone e => Ret (delivered, Some e)
      | DLQ.Report (Some e) => Ret (delivered, Some (Wrap "delivery failed: " e))
      | DLQ.Report None => await_all n (delivered + 1)
      end
  end.

Definition Produce (c : Cluster) (topic : string) (msgs : list ProduceMessage) : P (Z * option error) :=
  let* err := ask (NewProducer (client_config (brokers c))) in
  match err with
  | Some e => Ret (0, Some (Wrap "create producer: " e))
  | None =>
      deferred (let* err := enqueue_all topic msgs in
                match err with
                | Some e => Ret (0, Some e)
                | None => await_all (length msgs) 0
                end)
               (ask_quietly CloseProducer)
  end.

Definition ProduceT (c : Cluster) (topic : string) (msgs : list ProduceMessage) : P Z :=
  let* r := Produce c topic msgs in
  match r with
  | (_, Some e) => fatal ("kafkatest: produce to " +:+ Consumer.quoted topic +:+ ": " +:+ Error e)
  | (n, None) =>
      let* _ := ask (Logf ("kafkatest: produced " +:+ FormatZ n +:+ " messages to " +:+ Consumer.quoted topic)) in
      Ret n
  end.

(** * Reading back ([consume.go]) *)



Section Reading.
(** The client library's code of a timeout. *)
Variable ErrTimedOut : string.



End Reading.

(** * Benchmark helpers ([internal/benchutil/helpers.go]) *)

(** [byte(i % 256)] *)
Definition filler (i : nat) : byte := default x00 (Byte.of_nat (i mod 256)).
Definition bench_value (valueSize : Z) : list byte := List.map filler (seq 0 (Z.to_nat valueSize)).
Definition bench_message (partition now count : Z) (value : list byte) (i : nat) : Message :=
  mkMessage "bench-topic" partition (Z.of_nat i) (DLQ.string_bytes "key") (Some value)
    (now + - (count - Z.of_nat i) * Millisecond) [] now.
Definition benchmark_NewMessages (partition count valueSize : Z) : P (list Message) :=
  let* now := ask Clock in
  if (valueSize <? 0) || (count <? 0) then Throw IndexOutOfRange
  else Ret (List.map (bench_message partition now count (bench_value valueSize)) (seq 0 (Z.to_nat count))).

(** The processors: the error for a batch. *)
Definition NoopProcessor (batch : list Message) : P (option error) := Ret None.
Definition FixedLatencyProcessor (d : Z) (batch : list Message) : P (option error) :=
  if d <=? 0 then Ret None else ask (TimerOrDone d).

(** * What is left open *)

Inductive handle := ContainerUp | AdminOpen | ConsumerOpen | ProducerOpen.
#[export] Instance handle_eq_dec : EqDecision handle.
Proof. solve_decision. Defined.

Definition acquired (k : handle) (err : option error) (held : list handle) : list handle :=
  match err with None => k :: held | Some _ => held end.
Definition released (k : handle) (held : list handle) : list handle := filter (fun k' => k' <> k) held.

(** The handles open after a question and its answer. *)
Definition hold (held : list handle) (x : exchange ctl) : list handle :=
  match x with
  | existT X (e, a) =>
      match e in ctl Y return Y -> list handle with
      | GenericContainer _ => fun a => match a with NotStarted _ => held | StartedThen _ => ContainerUp :: held end
      | ContainerTerminate => fun _ => released ContainerUp held
      | NewAdminClient _ => fun a => acquired AdminOpen a held
      | CloseAdmin => fun _ => released AdminOpen held
      | NewConsumer _ => fun a => acquired ConsumerOpen a held
      | CloseConsumer => fun _ => released ConsumerOpen held
      | NewProducer _ => fun a => acquired ProducerOpen a held
      | CloseProducer => fun _ => released ProducerOpen held
      | _ => fun _ => held
      end a
  end.



(** The handles a run leaves open. *)
Definition left_open {A O} (h : handler ctl O) (c : P A) (o : O) : list handle :=
  foldl hold [] (exec (traced h) c (o, []) tt).2.2.





Lemma wait_until_S n deadline brokers :
  wait_until (Datatypes.S n) deadline brokers =
  Ask Clock (fun now =>
    if now <? deadline then
      let* ready := wait_round brokers in
      if ready : bool then Ret (Some None) else wait_until n deadline brokers
    else Ret (Some (Some (Leaf ("kafkatest: timeout waiting for broker at " +:+ brokers))))).
Proof. reflexivity. Qed.

















(** Default answers. *)
Definition absent {X} (e : ctl X) : X :=
  match e in ctl Y return Y with
  | GenericContainer _ => NotStarted (Leaf "no container runtime")
  | ContainerExec _ | ContainerTerminate | NewAdminClient _
  | NewConsumer _ | Subscribe _ | CloseConsumer | NewProducer _ | ProduceMessageTo _
  | TimerOrDone _ | PollEvent _ => None
  | Host | MappedPort _ => inl ""
  | GetMetadata _ => inr (Leaf "timed out")
  | CreateTopics _ _ _ => inl []
  | CloseAdmin | CloseProducer | Fatalf _ | Logf _ | SleepFor _ => tt
  | Committed tps _ => inl tps
  | QueryWatermarkOffsets _ _ _ => inl (0, 0)
  | AwaitDelivery => DLQ.Report None
  | Clock => 0
  end.

(** A container that has no mapped port for the hook to write. *)
Definition no_port : handler ctl unit := fun X e u =>
  (match e in ctl Y return Y -> Y with
   | GenericContainer _ => fun _ => StartedThen (fun err => err)
   | MappedPort _ => fun _ => inr (Leaf "port not found")
   | _ => fun x => x
   end (absent e), u).

(** [Start] leaks the container when the runtime fails after starting it: the
    hook's error comes back together with the running container, which
    nobody terminates then. *)
Theorem Start_leaks fuel :
  result (exec no_port (Start fuel) tt tt) =
    Some (Some (inr (Wrap "start kafka container: " (Wrap "get mapped port: " (Leaf "port not found"))))) /\
  left_open no_port (Start fuel) tt = [ContainerUp].
Proof. split; reflexivity. Qed.

(** * Waiting ends *)

Section Waiting.
Context {O : Type}.
Variable h : handler ctl O.
(** The clock: it does not run backwards, [Clock] reads it, and a sleep takes
    its time. *)
Variable time : O -> Z.
Hypothesis time_passes : forall X (e : ctl X) o, time o <= time (h X e o).2.
Hypothesis clock_reads : forall o, time o <= (h _ Clock o).1 <= time (h _ Clock o).2.
Hypothesis sleep_takes : forall d o, time o + d <= time (h _ (SleepFor d) o).2.

Lemma exec_Ask {X A} (e : ctl X) (k : X -> P A) o s :
  exec h (Ask e k) o s = exec h (k (h X e o).1) (h X e o).2 s.
Proof. cbn [exec]. by destruct (h X e o). Qed.

(** A round that does not find the broker takes half a second. *)
Lemma wait_round_takes brokers o s :
  exists ready o', exec h (wait_round brokers) o s = (Returned ready s, o') /\
    (ready = true \/ time o + 500 * Millisecond <= time o').
Proof.
  assert (Hsleep : forall o1, time o <= time o1 ->
    exists ready o', exec h (let* _ := ask (SleepFor (500 * Millisecond)) in Ret false) o1 s =
      (Returned ready s, o') /\ (ready = true \/ time o + 500 * Millisecond <= time o')).
  { intros o1 Ho. cbn [bind ask]. rewrite exec_Ask. cbn [bind exec]. do 2 eexists. split; [done|right].
    specialize (sleep_takes (500 * Millisecond) o1). lia. }
  pose proof (time_passes _ (NewAdminClient (client_config brokers)) o) as H1.
  unfold wait_round. cbn [bind ask]. rewrite exec_Ask. cbn [bind].
  destruct (h _ (NewAdminClient (client_config brokers)) o) as [[e|] o1]; simpl in H1; [by apply Hsleep|].
  cbn [fst snd]. pose proof (time_passes _ (GetMetadata 3000) o1) as H2. rewrite exec_Ask. cbn [bind].
  destruct (h _ (GetMetadata 3000) o1) as [md o2]. simpl in H2. cbn [fst snd].
  pose proof (time_passes _ CloseAdmin o2) as H3. rewrite exec_Ask. cbn [bind].
  destruct (h _ CloseAdmin o2) as [[] o3]. simpl in H3. cbn [fst snd].
  destruct md as [n|e]; [|apply Hsleep; lia]. destruct (0 <? n); [|apply Hsleep; lia].
  do 2 eexists. split; [done|by left].
Qed.

Lemma wait_until_returns n deadline brokers o s :
  deadline <= time o + Z.of_nat n * (500 * Millisecond) ->
  exists r o', exec h (wait_until (Datatypes.S n) deadline brokers) o s = (Returned (Some r) s, o').
Proof.
  revert o. induction n as [|n IH]; intros o Hd; rewrite wait_until_S, exec_Ask;
    pose proof (clock_reads o) as Hc; destruct (h _ Clock o) as [now o1]; cbn [fst snd] in *.
  - rewrite (proj2 (Z.ltb_ge _ _)) by lia. eauto.
  - destruct (now <? deadline); [|eauto]. rewrite exec_bind.
    destruct (wait_round_takes brokers o1 s) as (ready & o2 & -> & Hr). destruct ready; [eauto|].
    destruct Hr as [?|Hr]; [done|]. apply IH. lia.
Qed.

(** Waiting for the broker ends.  On a clock that does not run backwards
    and sleeps that take their time, [waitReady] gives its verdict after at
    most 60 attempts, whatever the broker does. *)
Theorem waitReady_returns c o s :
  exists r o', exec h (waitReady 61 c) o s = (Returned (Some r) s, o').
Proof.
  unfold waitReady. cbn [bind ask]. rewrite exec_Ask. cbn [bind].
  pose proof (clock_reads o) as Hc. destruct (h _ Clock o) as [now o1]. cbn [fst snd] in *.
  apply wait_until_returns. unfold Second, Millisecond. lia.
Qed.
End Waiting.

(** A broker that never answers, and a clock that only sleeping moves. *)
Definition silent_broker : handler ctl Z := fun X e now =>
  match e in ctl Y return Y -> Y * Z with
  | Clock => fun _ => (now, now)
  | SleepFor d => fun _ => (tt, now + Z.max 0 d)
  | _ => fun x => (x, now)
  end (absent e).

Lemma waitReady_returns_witness :
  (exists r o', exec silent_broker (waitReady 61 (mkCluster true "localhost:9092")) 0 tt
     = (Returned (Some r) tt, o')) /\
  result (exec silent_broker (waitReady 61 (mkCluster true "localhost:9092")) 0 tt)
    = Some (Some (Some (Leaf "kafkatest: timeout waiting for broker at localhost:9092"))) /\
  (exec silent_broker (waitReady 61 (mkCluster true "localhost:9092")) 0 tt).2 = 30 * Second.
Proof.
  split; [|split; vm_compute; reflexivity].
  apply (waitReady_returns silent_broker (fun now => now)).
  - intros X e o. destruct e; simpl; lia.
  - intros o. simpl. lia.
  - intros d o. simpl. lia.
Defined.

(** * What the helpers give *)

(** The reports a run received, the messages it enqueued. *)
Definition report_in (x : exchange ctl) : option DLQ.delivery :=
  match x with
  | existT X (e, a) =>
      match e in ctl Y return Y -> option DLQ.delivery with
      | AwaitDelivery => fun r => Some r
      | _ => fun _ => None
      end a
  end.
Definition enqueued_in (x : exchange ctl) : option DLQ.kProducerMessage :=
  match x with
  | existT X (e, a) =>
      match e in ctl Y return Y -> option DLQ.kProducerMessage with
      | ProduceMessageTo km => fun err => match err with None => Some km | Some _ => None end
      | _ => fun _ => None
      end a
  end.
Definition is_delivered (r : DLQ.delivery) : bool :=
  match r with DLQ.Report None => true | _ => false end.
Definition deliveries (l : list (exchange ctl)) : Z := len (List.filter is_delivered (collect report_in l)).
Definition enqueued (l : list (exchange ctl)) : list DLQ.kProducerMessage := collect enqueued_in l.

Lemma deliveries_snoc l x :
  deliveries (l ++ [x]) =
  deliveries l + match report_in x with Some r => if is_delivered r then 1 else 0 | None => 0 end.
Proof.
  unfold deliveries, len. rewrite collect_app, List.filter_app, length_app. simpl.
  destruct (report_in x) as [r|]; simpl; [|lia]. destruct (is_delivered r); simpl; lia.
Qed.

Lemma enqueued_snoc l x : enqueued (l ++ [x]) = enqueued l ++ option_list (enqueued_in x).
Proof. unfold enqueued. rewrite collect_app. simpl. by destruct (enqueued_in x). Qed.

Lemma wp_deferred {A} (c : P A) d Q s l :
  wp c (fun a s' l' => wp (let* _ := d in Ret a) Q s' l') s l -> wp (deferred c d) Q s l.
Proof.
  revert s l. induction c as [a|p|X g k IH|X e k IH]; intros s l; simpl; auto; try done.
  destruct (g s); auto.
Qed.

Lemma enqueue_all_sends topic msgs s l :
  wp (enqueue_all topic msgs) (fun err _ l' => deliveries l' = deliveries l /\
    (err = None -> enqueued l' = enqueued l ++ List.map (kafka_message topic) msgs)) s l.
Proof.
  revert l. induction msgs as [|m msgs IH]; intros l; simpl.
  { by rewrite app_nil_r. }
  intros [e|]; simpl.
  { rewrite deliveries_snoc. simpl. split; [lia|done]. }
  eapply wp_mono; [|apply IH]. intros err _ l' [Hd He]. rewrite deliveries_snoc, enqueued_snoc in *.
  simpl in *. split; [lia|]. intros E. rewrite (He E), <- app_assoc. done.
Qed.

Lemma await_all_counts n d s l :
  wp (await_all n d) (fun r _ l' => r.1 - d = deliveries l' - deliveries l /\ enqueued l' = enqueued l /\
    (r.2 = None -> r.1 = d + Z.of_nat n)) s l.
Proof.
  revert d l. induction n as [|n IH]; intros d l.
  { simpl. split_and!; [lia|done|lia]. }
  intros [e|[e|]]; simpl; try (rewrite deliveries_snoc, enqueued_snoc, app_nil_r; simpl; split_and!; [lia|done|done]).
  eapply wp_mono; [|apply IH]. intros [d' err] _ l' (Hd & He & Hn).
  rewrite deliveries_snoc, enqueued_snoc, app_nil_r in *. simpl in *. split_and!; [lia|done|].
  intros E. specialize (Hn E). lia.
Qed.

(** [Produce] counts what was delivered.  It returns, whatever the client
    answers; its count is the number of positive delivery reports it
    received, errors included; and without an error it has enqueued every
    message, in order, and all were delivered. *)
Theorem Produce_counts {O} (h : handler ctl O) o c topic msgs :
  exists n err o' l,
    exec (traced h) (Produce c topic msgs) (o, []) tt = (Returned (n, err) tt, (o', l)) /\
    n = deliveries l /\
    (err = None -> n = len msgs /\ enqueued l = List.map (kafka_message topic) msgs).
Proof.
  assert (Hw : wp (Produce c topic msgs) (fun r s l => s = tt /\ r.1 = deliveries l /\
    (r.2 = None -> r.1 = len msgs /\ enqueued l = List.map (kafka_message topic) msgs)) tt []).
  { intros [e|]; [done|]. apply wp_deferred, wp_bind. eapply wp_mono; [|apply enqueue_all_sends].
    intros [e|] [] l [Hd He]; [intros []; simpl; rewrite deliveries_snoc, Hd; by split_and!|].
    eapply wp_mono; [|apply await_all_counts]. intros [n err] [] l' (Hd' & He' & Hn) []. simpl.
    rewrite deliveries_snoc, enqueued_snoc, app_nil_r. simpl in *. change (deliveries [_]) with 0 in Hd.
    split_and!; [done|lia|]. intros E. rewrite (Hn E), He', (He eq_refl). by split; [unfold len; lia|]. }
  destruct (wp_sound h _ _ o tt [] Hw) as ([n err] & [] & o' & l & E & _ & Hn & He).
  exists n, err, o', l. by split_and!.
Qed.

(** The keys repeat every ten messages. *)
Lemma NewMessages_keys count valueFn msgs :
  NewMessages count valueFn = Returned msgs tt ->
  len msgs = count /\
  forall i m, msgs !! i = Some m ->
    pKey m = DLQ.string_bytes ("key-" +:+ FormatZ (Z.of_nat i mod 10)) /\ pValue m = valueFn (Z.of_nat i).
Proof.
  unfold NewMessages. destruct (Z.ltb_spec count 0) as [|Hc]; [done|]. intros [= <-]. split.
  { unfold len. rewrite length_map, length_seq. lia. }
  intros i m Hm. apply list_lookup_fmap_Some in Hm as (j & -> & Hj).
  apply lookup_seq in Hj as [-> _]. done.
Qed.
