(* ===== verification/Examples.v ===== *)
(** The example programs ([examples/*/main.go]): their configurations, their
    processors and their [main] functions, over the [consumer.New] and
    [Consumer.Run] of [Assembly]. *)
From S2P Require Import Prelude Types Strconv Setup.
From S2P Require Consumer DLQ Worker Assembly.

(** * Configurations *)

Definition with_target (brokers topics : list string) (group : string) (c : Consumer.Config) : Consumer.Config :=
  Consumer.mkConfig brokers topics group (Consumer.Mode c) (Consumer.WorkerCount c)
    (Consumer.ChannelCap c) (Consumer.BatchSize c) (Consumer.LingerTime c) (Consumer.MaxRetries c)
    (Consumer.PollInterval c) (Consumer.CommitInterval c) (Consumer.CommitFailureThreshold c)
    (Consumer.ShutdownTimeout c) (Consumer.PreStopDelay c) (Consumer.CBMinRequests c)
    (Consumer.CBFailureThreshold c) (Consumer.CBOpenTimeout c) (Consumer.CBMaxRequests c)
    (Consumer.CBInterval c) (Consumer.DLQTopic c) (Consumer.LagReportInterval c)
    (Consumer.HealthAddr c) (Consumer.Security c).


Definition with_failures (retries shutdown : Z) (dlq : string) (c : Consumer.Config) : Consumer.Config :=
  Consumer.mkConfig (Consumer.Brokers c) (Consumer.Topics c) (Consumer.GroupID c) (Consumer.Mode c)
    (Consumer.WorkerCount c) (Consumer.ChannelCap c) (Consumer.BatchSize c) (Consumer.LingerTime c)
    retries (Consumer.PollInterval c) (Consumer.CommitInterval c) (Consumer.CommitFailureThreshold c)
    shutdown (Consumer.PreStopDelay c) (Consumer.CBMinRequests c)
    (Consumer.CBFailureThreshold c) (Consumer.CBOpenTimeout c) (Consumer.CBMaxRequests c)
    (Consumer.CBInterval c) dlq (Consumer.LagReportInterval c)
    (Consumer.HealthAddr c) (Consumer.Security c).

Definition with_access (health : string) (security : Consumer.SecurityConfig) (c : Consumer.Config) : Consumer.Config :=
  Consumer.mkConfig (Consumer.Brokers c) (Consumer.Topics c) (Consumer.GroupID c) (Consumer.Mode c)
    (Consumer.WorkerCount c) (Consumer.ChannelCap c) (Consumer.BatchSize c) (Consumer.LingerTime c)
    (Consumer.MaxRetries c) (Consumer.PollInterval c) (Consumer.CommitInterval c)
    (Consumer.CommitFailureThreshold c) (Consumer.ShutdownTimeout c) (Consumer.PreStopDelay c)
    (Consumer.CBMinRequests c) (Consumer.CBFailureThreshold c) (Consumer.CBOpenTimeout c)
    (Consumer.CBMaxRequests c) (Consumer.CBInterval c) (Consumer.DLQTopic c)
    (Consumer.LagReportInterval c) health security.

(** The defaults, with the target of an example. *)
Definition example_config (group : string) : Consumer.Config :=
  with_target ["localhost:9092"] ["example-events"] group Consumer.DefaultConfig.

Definition dlq_config : Consumer.Config :=
  with_failures 3 (Consumer.ShutdownTimeout Consumer.DefaultConfig) "example-events-dlq"
    (example_config "dlq-example").

(** ** The secured example *)

(** [strings.Split(s, ",")]: [acc] is the field being read. *)
Fixpoint split_from (sep : ascii) (acc s : string) : list string :=
  match s with
  | EmptyString => [acc]
  | String.String c s =>
      if Ascii.eqb c sep then acc :: split_from sep "" s
      else split_from sep (acc +:+ String.String c "") s
  end.
Definition Split (s : string) : list string := split_from "," "" s.

(** The security settings of the three cases. *)
Definition example_security (username password caFile : string) : Consumer.SecurityConfig :=
  if Consumer.nonempty username && Consumer.nonempty caFile then
    Consumer.mkSecurity Consumer.ProtocolSASLSSL (Some (Consumer.mkTLS caFile "" "" false))
      (Some (Consumer.mkSASL Consumer.SASLSCRAMSHA512 username password ""))
  else if Consumer.nonempty caFile then
    Consumer.mkSecurity Consumer.ProtocolSSL (Some (Consumer.mkTLS caFile "" "" false)) None
  else Consumer.Security Consumer.DefaultConfig.

Definition security_config (brokers username password caFile : string) : Consumer.Config :=
  with_access (Consumer.HealthAddr Consumer.DefaultConfig) (example_security username password caFile)
    (with_target (Split brokers) ["example-events"] "security-example" Consumer.DefaultConfig).

Section Examples.
Context `{Libraries}.

(** * The environment of a program *)

Inductive attr := AInt (key : string) (n : Z) | AString (key value : string).
Definition LevelInfo : Z := 0.
Definition LevelWarn : Z := 4.

(** What a [main] asks besides what [Run] does: [encoding/json] decodes into
    the fields [id], [type] and [data]. *)
Record Event := mkEvent { ID : string; Type_ : string; Data : string }.

Inductive host : Type -> Type :=
| Framework {X} (e : world X) : host X
| NewTextLogger (level : Z) : host Logger
| NewRegistry : host Registerer
| Log (l : Logger) (level : Z) (msg : string) (attrs : list attr) : host unit
| Printf (line : string) : host unit
| Inc (event_type : string) : host unit
| Unmarshal (data : bytes) : host (Event + error)
| AfterOrDone (d : Z) : host (option error)      (* nil: the timer fired *)
| NotifyContext : host unit
| StopNotify : host unit
| Fatalf (msg : string) : host unit.             (* log.Fatalf: exit status 1 *)

Local Abbreviation P := (prog host rebalanceForwarder).

(** The framework at work inside a program. *)
Fixpoint embed {A} (c : prog world rebalanceForwarder A) : P A :=
  match c with
  | Ret a => Ret a
  | Throw p => Throw p
  | Act f k => Act f (fun x => embed (k x))
  | Ask e k => Ask (Framework e) (fun x => embed (k x))
  end.

Fixpoint for_each_message (l : list Message) (f : Message -> P unit) : P unit :=
  match l with
  | [] => Ret tt
  | x :: l => let* _ := f x in for_each_message l f
  end.

Definition bytes_text (b : bytes) : string := String.string_of_list_byte (default [] b).

(** * Processors *)

Definition place (msg : Message) : string :=
  "partition=" +:+ FormatZ (Partition msg) +:+ " offset=" +:+ FormatZ (Offset msg).

Definition basic_processor (batch : list Message) : P (option error) :=
  let* _ := for_each_message batch (fun m =>
    ask (Printf (place m +:+ " key=" +:+ bytes_text (Key m) +:+ " value=" +:+ bytes_text (Value m) +:+ newline))) in
  Ret None.

(** [batch[0]] and [batch[len(batch)-1]] panic on an empty batch. *)
Definition batch_processor (l : Logger) (batch : list Message) : P (option error) :=
  match head batch, last batch with
  | Some first, Some final =>
      let* _ := ask (Log l LevelInfo "processing batch"
        [AInt "size" (len batch); AInt "first_offset" (Offset first); AInt "last_offset" (Offset final)]) in
      Ret None
  | _, _ => Throw IndexOutOfRange
  end.

Definition metrics_processor (l : Logger) (batch : list Message) : P (option error) :=
  let* _ := for_each_message batch (fun _ => ask (Inc "unknown")) in
  let* _ := ask (Log l LevelInfo "batch processed" [AInt "size" (len batch)]) in
  Ret None.

Definition invalid_json (msg : Message) (e : error) : error :=
  ErrNonRetryable (Some (Wrap ("invalid JSON in message " +:+ place msg +:+ ": ") e)).
Definition missing_type (msg : Message) : error :=
  ErrNonRetryable (Some (Leaf ("missing event type in message " +:+ place msg))).

Fixpoint dlq_processor (l : Logger) (batch : list Message) : P (option error) :=
  match batch with
  | [] => Ret None
  | m :: batch =>
      let* r := ask (Unmarshal (Value m)) in
      match r with
      | inr e => Ret (Some (invalid_json m e))
      | inl event =>
          if Consumer.is_empty (Type_ event) then Ret (Some (missing_type m))
          else
            let* _ := ask (Log l LevelInfo "processed event"
              [AString "id" (ID event); AString "type" (Type_ event)]) in
            dlq_processor l batch
      end
  end.

Definition shutdown_processor (l : Logger) (batch : list Message) : P (option error) :=
  let* _ := ask (Log l LevelInfo "processing batch" [AInt "size" (len batch)]) in
  let* interrupted := ask (AfterOrDone (2 * Second)) in
  match interrupted with
  | None =>
      let* _ := ask (Log l LevelInfo "batch processed successfully" []) in Ret None
  | Some e =>
      let* _ := ask (Log l LevelWarn "processing interrupted by shutdown" []) in Ret (Some e)
  end.

Definition security_processor (batch : list Message) : P (option error) :=
  let* _ := for_each_message batch (fun m =>
    ask (Printf (place m +:+ " key=" +:+ bytes_text (Key m) +:+ newline))) in
  Ret None.

(** * [main]

    The result is the exit status. *)

Definition fatal (msg : string) : P Z := let* _ := ask (Fatalf msg) in Ret 1.

Definition consumer_error (err : option error) : P Z :=
  match err with
  | Some e => fatal ("consumer error: " +:+ Error e)
  | None => Ret 0
  end.

(** What the examples share: create the consumer, of a processor that is not
    nil, and run it until a signal. *)
Definition launch (cfg : Consumer.Config) (os : list (Assembly.options -> Assembly.options))
    (announce : P unit) (exit : option error -> P Z) : P Z :=
  match Assembly.New cfg true os with
  | inr e => fatal ("create consumer: " +:+ Error e)
  | inl c =>
      let* _ := ask NotifyContext in
      let* _ := announce in
      let* err := embed (Assembly.Run c) in
      let* _ := ask StopNotify in
      exit err
  end.







Definition getEnvOrDefault (key defaultValue : string) : P string :=
  let* v := ask (Framework (Getenv key)) in
  Ret (if Consumer.nonempty v then v else defaultValue).

(** The log line of the case that applies. *)
Definition log_security (l : Logger) (username caFile : string) : P unit :=
  if Consumer.nonempty username && Consumer.nonempty caFile then
    ask (Log l LevelInfo "security configured"
      [AString "protocol" "SASL_SSL"; AString "mechanism" "SCRAM-SHA-512"])
  else if Consumer.nonempty caFile then
    ask (Log l LevelInfo "security configured" [AString "protocol" "SSL"])
  else ask (Log l LevelWarn "running without security — set KAFKA_USERNAME, KAFKA_PASSWORD, and KAFKA_CA_FILE for production" []).

(** [main] once the environment is read. *)
Definition security_run (l : Logger) (brokers username password caFile : string) : P Z :=
  let* _ := log_security l username caFile in
  launch (security_config brokers username password caFile) [Assembly.WithLogger (Some l)] (Ret tt) consumer_error.

Definition security_main : P Z :=
  let* logger := ask (NewTextLogger LevelInfo) in
  let* brokers := getEnvOrDefault "KAFKA_BROKERS" "localhost:9092" in
  let* username := getEnvOrDefault "KAFKA_USERNAME" "" in
  let* password := getEnvOrDefault "KAFKA_PASSWORD" "" in
  let* caFile := getEnvOrDefault "KAFKA_CA_FILE" "" in
  security_run logger brokers username password caFile.

#[local] Arguments Assembly.Run : simpl never.
#[local] Arguments launch : simpl never.

(** * What the programs ask *)







(** ** What the programs may die of *)
























(** ** The processors *)

(** The verdicts of the decoder on the messages, as the processor reads them:
    whether the message is an event with a type. *)
Definition decoded (x : exchange host) : option bool :=
  match x with
  | existT X (e, a) =>
      match e in host Y return Y -> option bool with
      | Unmarshal _ => fun r =>
          Some match r with inl event => Consumer.nonempty (Type_ event) | inr _ => false end
      | _ => fun _ => None
      end a
  end.

Definition names (e : error) (m : Message) : Prop :=
  e = missing_type m \/ exists inner, e = invalid_json m inner.

(** The DLQ example's processor reads its batch up to the first message that
    is not an event with a type.  It succeeds exactly when there is none;
    otherwise it fails with a non-retryable error that names that message, so
    that the dispatcher gives up the whole batch, the messages before and
    after it too, on the first attempt. *)
Theorem dlq_processor_verdict l batch s t :
  wp (dlq_processor l batch) (fun err s' t' =>
    s' = s /\
    match err with
    | None => collect decoded t' = collect decoded t ++ repeat true (length batch)
    | Some e => exists n m, batch !! n = Some m /\ names e m /\
        collect decoded t' = collect decoded t ++ repeat true n ++ [false] /\
        forall evs, Worker.judge (Consumer.dispatcher_config dlq_config)
                      (Worker.EvExec (Dispatcher.ProcessorReturned (Some e)) :: evs)
                      (Worker.JTry (Worker.attempts (Consumer.dispatcher_config dlq_config)) None)
                    = Worker.JVerdict (Worker.NonRetryable 0 e)
    end) s t.
Proof.
  revert t. induction batch as [|m batch IH]; intros t; [by rewrite app_nil_r|]. intros [event|inner]; simpl.
  - destruct (Consumer.is_empty (Type_ event)) eqn:Et.
    + simpl. split; [done|]. exists 0%nat, m. split_and!; [done|by left|by rewrite collect_app; simpl; unfold Consumer.nonempty; rewrite Et|done].
    + intros []. eapply wp_mono; [|apply IH]. intros err s' t' [-> Hr]. split; [done|].
      assert (Hc : collect decoded ((t ++ [asked (Unmarshal (Value m)) (inl event)]) ++
        [asked (Log l LevelInfo "processed event" [AString "id" (ID event); AString "type" (Type_ event)]) ()]) =
        collect decoded t ++ [true]).
      { rewrite !collect_app. simpl. unfold Consumer.nonempty. by rewrite Et, app_nil_r. }
      rewrite Hc in Hr. destruct err as [e|]; [|by rewrite Hr, <- app_assoc].
      destruct Hr as (n & m' & Hm & Hn & Ht & Hj). exists (Datatypes.S n), m'.
      split_and!; [done|done|by rewrite Ht, <- app_assoc|done].
  - split; [done|]. exists 0%nat, m. split_and!; [done|right; by eexists|by rewrite collect_app|done].
Qed.

(** The graceful shutdown example's processor hands the context's error to
    the dispatcher when it is interrupted. *)
Theorem shutdown_processor_interrupted {O} (h : handler host O) l batch o s :
  exists o', exec h (shutdown_processor l batch) o s =
    (Returned (h _ (AfterOrDone (2 * Second))
                 (h _ (Log l LevelInfo "processing batch" [AInt "size" (len batch)]) o).2).1 s, o').
Proof.
  unfold shutdown_processor. cbn [bind ask exec].
  destruct (h _ (Log _ _ _ _) o) as [[] o1]. cbn [snd].
  destruct (h _ (AfterOrDone _) o1) as [[e|] o2]; cbn [exec bind];
    destruct (h _ (Log _ _ _ _) o2) as [[] o3]; eauto.
Qed.
End Examples.

(** * Witness *)

